(* ===== verification/_CoqProject ===== *)
-Q . S2P
Prelude.v
Ordered.v
External.v
Toy.v
Http.v
Identity.v
Text.v
Words.v
Chars.v
Address.v
OAuth.v
OAuthServer.v
OAuthRuns.v
AskProof.v
OAuthNet.v
Policy.v
Sql.v
Op.v
RowOp.v
Registry.v
Store.v
Log.v
Durable.v
Hlc.v
Pull.v
SqlDb.v
SqlLog.v
SqlHeads.v
SqlRefine.v
SqlEdges.v
SqlRetention.v
SqlCompaction.v
SqlMaintain.v
SqlTypes.v
SqlRows.v
SqlConverge.v
SqlQuarantine.v
Transport.v
Persistence.v
Relay.v
Gate.v
JsonValue.v
McpProtocol.v
McpServer.v
McpRuns.v
McpToy.v
Tunnel.v
TunnelHost.v
AddressClient.v
AddressExchange.v
Roster.v
Surface.v
AddressWeb.v
OAuthToy.v
AddressToy.v
Watch.v
Socket.v
Server.v
Client.v
Discovery.v
Sync.v
Harness.v
Daemon.v
PullServer.v
SqlSocket.v
PullClient.v
PullDrain.v
RelayExchange.v
DaemonDrain.v
PullExchange.v
Drain.v
DrainToy.v
NetToy.v
DaemonToy.v
SqlToy.v
