(* ===== verification/Prelude.v ===== *)
(** * proxy-node-server: a verification development

    The program is a node that replicates signed ops between the devices of one
    owner.  A device seals an op, appends it to its op-log and to a file, and
    serves the log over HTTP; peers fetch it by one of three protocols (v1
    semantic pages, the v2 relay stream in arrival order, v3 pull pages with
    coverage claims), verify every op and replay the log into their stores.
    Beside replication the node is an authorization server for its owner's
    address: clients register and ask, the owner answers, and tokens open scopes
    of the address to them; another owner's node asks with a signed proof.  It
    also serves tools to agents over a JSON-RPC protocol, keeps a tunnel to its
    address up, keeps a roster of the owner's devices, and runs as a daemon that
    pulls from its peers.

    ** Parts and files

    The language and its libraries:
    - [Prelude.v]: results, machine integers, byte arrays, big-endian codecs,
      tactics; [Ordered.v]: total orders and [BTreeMap] as a sorted list;
      [Text.v], [Words.v]: the string, number and IP parsers of the standard
      library, white space, words, sorting and UTF-8;
      [Chars.v]: text as characters, replacement and splitting at a needle;
      [Http.v]: responses and headers; [JsonValue.v]: a JSON value, as its
      library answers for it;
    - [External.v]: the crates as classes, each with the laws the code relies
      on ([p256] and [sha2] as [Crypto], [postcard] as [Wire], [serde_json] as
      [JsonWire], [base64], [uhlc]); [Toy.v]: an instance of every class, on
      which the witnesses evaluate;
    - [Sql.v]: SQLite as the adapters use it: statements over tables that are
      data, any of which may fail, row ids, [ORDER BY] and [LIMIT], casts
      between [u64] and the engine's integers; [rusqlite]'s error texts are the
      class [Rusqlite].

    The node, by source file under [src/src]:
    - [Identity.v], [Op.v], [Registry.v], [Store.v], [Log.v], [Durable.v],
      [Hlc.v]: [identity.rs], [op.rs] and [error.rs], [registry.rs], [store.rs]
      and [kv.rs], [log.rs], [durable.rs], [hlc.rs];
    - [RowOp.v]: [row_op.rs] and [scope.rs]; [Policy.v]: [net/policy.rs];
      [Gate.v]: [net/gate.rs];
    - [Pull.v]: [pull.rs]; [Socket.v], [PullServer.v], [PullClient.v],
      [PullDrain.v]: [net/socket.rs], [net/pull_server.rs] and
      [net/pull_client.rs] (the invariants of the in-memory client are in
      [PullDrain.v]);
    - [Transport.v], [Client.v]: [net/client.rs]; [Relay.v]: [net/relay.rs] and
      the wire types of [net/mod.rs]; [Server.v]: [net/server.rs]; [Watch.v]:
      [net/watch.rs]; [Sync.v]: [net/sync.rs]; [Persistence.v]:
      [net/persistence.rs];
    - [Address.v]: [address.rs]; [OAuth.v]: [oauth/mod.rs]; [OAuthServer.v]:
      [oauth/server.rs] and [oauth/store.rs]; [AskProof.v]:
      [oauth/ask_proof.rs]; [OAuthNet.v]: [oauth/net/mod.rs];
      [AddressClient.v]: [address_client.rs]; [AddressWeb.v]: [address_web.rs];
    - [McpProtocol.v]: [mcp_protocol.rs]; [McpServer.v]: [src/mcp_server];
    - [Tunnel.v]: the manager of [tunnel.rs] as interleaved steps;
      [TunnelHost.v]: its ports and processes, and [tunnel/install.rs];
    - [Roster.v]: [roster.rs]; [Surface.v]: [thread_sources.rs],
      [file_store.rs], [ports.rs] and [usage.rs]; [Discovery.v]:
      [src/discovery];
    - [Daemon.v]: [bin/pnsd.rs]; [Harness.v]: [harness.rs], the nodes that the
      tests drive;
    - [src/sqlite], the node's durable storage: [SqlDb.v]: the tables and
      [coverage.rs]; [SqlLog.v]: [oplog.rs], [oplog_heads.rs],
      [oplog_queries.rs] and [log_source.rs]; [SqlEdges.v]:
      [pending_edges.rs]; [SqlRetention.v]: [retention.rs]; [SqlRows.v]:
      [rows.rs]; [SqlQuarantine.v]: [quarantine.rs]; [SqlSocket.v]:
      [pull_socket.rs] and [device_book.rs].  Their invariants are in
      [SqlHeads.v] (one write of the log), [SqlRefine.v] (the log as a list of
      arrivals), [SqlCompaction.v] (a compaction pass), [SqlMaintain.v] (a
      shard's life), [SqlTypes.v] (what the columns hold) and [SqlConverge.v]
      (one row under last-writer-wins).

    The composition of a client and a server over a network that delivers is
    [RelayExchange.v] for the relay, [PullExchange.v] and [Drain.v] for the
    pull; [DaemonDrain.v] is the daemon's loop over the relay's;
    [AddressExchange.v] is the address client against the routes of the
    authorization server.  [DrainToy.v], [NetToy.v] and [DaemonToy.v] are a
    concrete server, client and daemon, [SqlToy.v] is a concrete shard,
    [AddressToy.v] a concrete visit and [McpToy.v] a concrete tool server.
    [McpRuns.v] is any sequence of requests to the tool server, and any
    interleaving of those that recover a session.
    [OAuthRuns.v] is any sequence of requests to the authorization server, with
    an abstract account of what each does that the server refines;
    [OAuthToy.v] is a concrete one.

    ** Conventions

    A function of the source is a definition of the same name.  [Result] is
    [result E A], with its monad; a [&mut self] operation returns the answer and
    the new state; a panic is [None] or an error that renders its message.  A
    [u64] is a [Z] with its wrap-around, saturation or check written out; a
    [BTreeMap] is a sorted association list, a [HashMap] a [gmap]; an array of
    bytes a vector.  Every call the environment answers (the clock, a random
    source, a system call, an HTTP exchange, the decision of a parked watch) is
    an argument or a method of a class, so the theorems hold for every answer
    unless they name the ones they need.  Where components meet there is a
    class: [LogSource] with [LogSourceOk], [DeviceBook], [Store],
    [MeshPullSocket], [PullHandler], [HttpWorld] and [OStore] with [OStoreOk].
    A request to the authorization server is one step of its runs.
    A SQL statement is a step of the monad [sql]: the list of faults beside the
    database says what each coming statement answers, the empty list that all
    succeed; [runs] is a run without faults, and a run that answers [Ok] with
    faults left is one too ([Quiet]).  A transaction's rollback is the caller's
    and is not part of a statement.  What the schema of the host decides (what a
    column keeps of a bound value, how its collation compares, its defaults, and
    which writes its unique and foreign keys forbid) is the class [HostSchema].
    What the host itself writes to the log's tables is any update that meets a
    stated relation ([SqlHeads.v]), not a definition.

    ** What the theorems show

    - Ops ([Op.v]): what a key seals verifies; acceptance characterised; an id
      determines the body; the encodings round-trip and keep the order.
    - The log ([Log.v]): it refines the list of distinct arrivals; replay
      converges for every delivery order and repetition, and gives the last
      write of each key; incremental application equals replay of the range;
      the default methods of the trait agree with the overriding ones.
    - Files ([Durable.v], [Persistence.v]): whatever system calls fail, what was
      acknowledged is in the file, in order, and is read back up to the first op
      that is not of the one envelope version or is 4 GiB long; wherever a crash
      strikes, a torn tail is cut at a frame boundary, and a cursor is the old or
      the new one.
    - Clock ([Hlc.v]): readings increase and pass what was observed; no call
      panics.
    - Relay ([Relay.v], [Server.v], [Client.v], [Sync.v], [RelayExchange.v]):
      signing inputs separate every purpose and field; the guard accepts only
      what a known device signed for this route and never twice in the window;
      a page a client takes was signed by the pinned peer for this request; a
      round against any peer admits only verified ops and never moves the
      cursor past an op it does not hold; against an honest peer a fetch is
      exact, and a round takes the page up to the first op the client refuses.
    - Pull ([Pull.v], [PullExchange.v], [Drain.v]): requests and pages
      round-trip and their domains are disjoint; a page for the whole log carries
      exactly the ops owed, in order and within its bounds; client and server
      agree on resets; a drain ends with every op of a device the client knows,
      where its pages seal and are taken ([drain_scene]).
    - Watch ([Watch.v]): no wake-up is lost in any interleaving, and every wait
      ends.
    - Admission ([Gate.v], [Policy.v], [RowOp.v]): a signed request is bound to
      its fields; a guest stays in its routes; a confidential endpoint has the
      documented shape; a restricted scope confines; a row key determines its
      row on separator-free text.
    - Authorization ([OAuth.v], [OAuthRuns.v], [OAuthNet.v], [Address.v]): a
      token that is let in rests on a registration, an ask, the owner's approval
      and a matching verifier, each before the next; a code buys one token; a
      revoked bearer stays out; over any requests to the routes, a bearer that is
      let in was handed out by the token route after the owner's approval at the
      ask route; nothing a client sends adds markup to a page; scopes are canonical,
      the rate of admitted calls is bounded, and an address survives printing.
    - Storage ([SqlRefine.v], [SqlMaintain.v], [SqlConverge.v],
      [SqlTypes.v]): the stored log refines the list of arrivals, so a node
      serves from it what it serves from memory ([SqlSocket.v]), a relay page
      being cut where its envelopes pass the byte limit; through every append,
      compaction and head maintenance, and every update of the host's that
      unapplies, re-applies or moves rows, the heads are the newest applied ops
      and every logged row decodes to its op; rows whose writes no unique or
      foreign key forbids converge in every order of arrival; what is stored
      reads back, but for a cursor reset past the engine's range.
    - Retention ([SqlRetention.v], [SqlCompaction.v]): what is at or below the
      safe floor every counted peer acknowledged, or an arrival numbered no
      lower is past the horizon, which is its own age where arrival stamps do
      not step back; a compaction pass changes no winner, no stream position and
      nothing that is pinned.
    - Queues and quarantine ([SqlEdges.v], [SqlQuarantine.v]): wakes are served
      in turn, edges drain, a quarantine stays within its capacity, a replay
      loses nothing that waits, a repeated delivery is recognised exactly.
    - The serving socket ([SqlSocket.v]): only trusted or vouched devices are
      admitted, and the registry binds no id to a foreign key.
    - Signed asks ([AskProof.v]): a signed ask verifies at its recipient; a
      verified one was signed, field by field, with a key of the address it
      names; no proof is accepted twice.
    - Visits ([AddressExchange.v], [AddressClient.v], [AddressWeb.v]): what the
      client sends, the server takes, and a visitor whose ask is granted ends
      with a bearer the server admits; what the person is shown of an answer is
      one clean line; nothing put into a page adds markup to it.
    - Tools ([McpRuns.v]): a call reaches the surface only within the narrowest
      of the grants that apply; a session lasts under its version, and a request
      is told that its session has none only while another one recovers it.
    - Tunnel ([Tunnel.v], [TunnelHost.v]): a stopped tunnel stays stopped, unless
      the health loop schedules a restart while it is being stopped; restarts are
      bounded; exactly the orphans of the node's own binary are killed.
    - Roster and surface ([Roster.v], [Surface.v], [Discovery.v]): devices that
      share a key become one, which gathers their endpoints and whether they are
      always on; a peer pulled from recently stays; the browser's cache is what the last event of each service
      said; every provider answers to its names.
    - Daemon ([Daemon.v], [DaemonDrain.v]): no key that is not on disk verifies an
      op, and a restart replays under those keys what the op-log holds; a drain
      ends at the peer's head, or before the first op of a device the node does
      not know, with all before it held and the cursor saved; a failed watch
      demotes its own link, for at most five minutes.

    Some theorems record what the code does against its documentation: a sweep
    that leaves origins out, an audit that is never answered complete, a read
    error that truncates the op-log, an op of another envelope version that
    buries those after it, a delete that a foreign key skips and that stays its
    row's newest op, a horizon taken from stamps that step back, row keys that collide, a rate limit that
    is passed at a window's end, an origin shown from behind a backslash, an
    unknown peer answered as a server failure, a reset cursor that no longer
    loads, clocks that sort backwards once their top bit is set, a tunnel that
    restarts after its stop, truncated binaries and keys that are kept, a drain
    that ends at a page of known ops, a jitter narrower than promised, and
    entries of the roster and of the port ledger that are lost.

    ** Fuel and bounds

    The loops of the source that are not structural take fuel, and the theorems
    that they answer prove it enough: [replay_loop] runs on one more than the
    bytes of the file, since every frame takes at least four of them; the drain
    and sweep loops are indexed by turns, and [Drain.v] shows the number of
    turns after which a drain has ended.  The parsers of [Text.v] run on the
    length of their input.  The scan of a compaction pass runs on one more than
    the joined rows, since a page that is not the last passes one of them; the
    search for the horizon's floor on one more than the positions between the
    oldest and the newest arrival, since every probe drops one.  The daemon's
    drain takes one answer of the environment per round, and [DaemonDrain.v]
    shows how many rounds are enough; the pull loop of [Harness.v] takes fuel and
    is only shown to end early.

    ** Not modelled

    The database engine below the statements (its files, locks and
    transactions); the connection settings of the HTTP clients; the mDNS daemon,
    the [tailscale] and [cloudflared] programs and the host's own commands, whose
    answers are arguments; arithmetic on [f64]; the embedded page templates; the
    daemon's argument parsing and printed text, log lines, routers of the web
    framework beyond their handlers, the control envelopes of [thread_sources.rs]
    (records that nothing in the repository acts on), the rounds of a whole test
    mesh, and the tests, examples and benches, which only call what is
    modelled. *)

From Stdlib Require Export Ascii.
From coqutil Require Export Byte Word.LittleEndianList.
From stdpp Require Export base gmap strings vector sorting option list.

#[export] Set Default Goal Selector "!".

(** The notations of the development live in one scope. *)
Declare Scope node_scope.
Delimit Scope node_scope with node.
#[global] Open Scope node_scope.

(** ** Results: Rust's [Result<A, E>] as an error monad *)

Inductive result (E A : Type) : Type :=
  | Ok (a : A)
  | Err (e : E).
Arguments Ok {E A} a.
Arguments Err {E A} e.

#[export] Instance result_ret E : MRet (result E) := λ A a, Ok a.
#[export] Instance result_bind E : MBind (result E) :=
  λ A B f r, match r with Ok a => f a | Err e => Err e end.
#[export] Instance result_fmap E : FMap (result E) :=
  λ A B f r, match r with Ok a => Ok (f a) | Err e => Err e end.

#[export] Instance result_eq_dec `{EqDecision E, EqDecision A} : EqDecision (result E A).
Proof. solve_decision. Defined.

(** [Result::map_err], [Option::ok_or], [Result::ok]. *)
Definition map_err {E F A} (f : E → F) (r : result E A) : result F A :=
  match r with Ok a => Ok a | Err e => Err (f e) end.

Definition ok_or {E A} (o : option A) (e : E) : result E A :=
  match o with Some a => Ok a | None => Err e end.

Definition ok {E A} (r : result E A) : option A :=
  match r with Ok a => Some a | Err _ => None end.

Definition is_ok {E A} (r : result E A) : bool :=
  match r with Ok _ => true | Err _ => false end.

(** [iter().map(f).collect::<Result<Vec<_>, _>>()], stopping at the first error. *)
Fixpoint try_map {E A B} (f : A → result E B) (l : list A) : result E (list B) :=
  match l with
  | [] => Ok []
  | a :: l => b ← f a; bs ← try_map f l; Ok (b :: bs)
  end.

(** ** Proof automation *)

Create HintDb node discriminated.

(** Split a hypothesis [x ← c; k = Ok v] into the success of [c] and of [k]. *)
Ltac inv_bind H :=
  let x := fresh "r" in
  let Hx := fresh "Hr" in
  lazymatch type of H with
  | mbind _ ?c = Ok _ => destruct c as [x|x] eqn:Hx; [cbn in H | by cbn in H]
  | mbind _ ?c = Some _ => destruct c as [x|] eqn:Hx; [cbn in H | by cbn in H]
  | fmap _ ?c = Ok _ => destruct c as [x|x] eqn:Hx; [cbn in H | by cbn in H]
  | map_err _ ?c = Ok _ => destruct c as [x|x] eqn:Hx; [cbn in H | by cbn in H]
  | ok_or ?c _ = Ok _ => destruct c as [x|] eqn:Hx; [cbn in H | by cbn in H]
  end.

(** Case analysis on every [match] and [if] of the context and the goal. *)
Ltac crush_match :=
  repeat (case_match; simplify_eq/=; try done).

Section result_lemmas.
Context {E : Type}.

Lemma bind_ok {A B} (f : A → result E B) (c : result E A) b :
  mbind f c = Ok b ↔ ∃ a, c = Ok a ∧ f a = Ok b.
Proof. destruct c; cbn; naive_solver. Qed.

Lemma map_err_ok {F A} (f : E → F) (r : result E A) a : map_err f r = Ok a ↔ r = Ok a.
Proof. destruct r; naive_solver. Qed.

Lemma ok_or_ok {A} (o : option A) (e : E) a : ok_or o e = Ok a ↔ o = Some a.
Proof. destruct o; naive_solver. Qed.

Lemma ok_some {A} (r : result E A) a : ok r = Some a ↔ r = Ok a.
Proof. destruct r; naive_solver. Qed.

Lemma try_map_ok {A B} (f : A → result E B) l bs :
  try_map f l = Ok bs ↔ Forall2 (λ a b, f a = Ok b) l bs.
Proof.
  revert bs; induction l as [|a l IH]; intros bs; cbn.
  - split; [by intros [= <-] | by intros ->%Forall2_nil_inv_l].
  - rewrite bind_ok. split.
    + intros (b & Hb & (bs' & Hbs & [= <-])%bind_ok). constructor; [done|]. by apply IH.
    + intros (b & bs' & Hb & Hbs & ->)%Forall2_cons_inv_l.
      exists b. split; [done|]. apply bind_ok. exists bs'. split; [by apply IH | done].
Qed.

Lemma try_map_total {A B} (f : A → result E B) (g : A → B) l :
  (∀ a, a ∈ l → f a = Ok (g a)) → try_map f l = Ok (g <$> l).
Proof.
  induction l as [|a l IH]; intros Hf; cbn; [done|].
  rewrite Hf by set_solver. cbn. rewrite IH by set_solver. done.
Qed.
End result_lemmas.

(** ** Machine integers

    A [u64] is a [Z]; [u64_ok] is its range, and the checked and saturating
    operations of the source are written out. *)

Definition u64_modulus : Z := 2 ^ 64.
Definition u64_max : Z := u64_modulus - 1.
Definition u64_ok (z : Z) : Prop := (0 ≤ z < u64_modulus)%Z.
#[export] Instance u64_ok_dec z : Decision (u64_ok z).
Proof. apply _. Defined.

Definition checked_add_u64 (a b : Z) : option Z :=
  if decide (a + b < u64_modulus)%Z then Some (a + b)%Z else None.
Definition saturating_sub_u64 (a b : Z) : Z := Z.max 0 (a - b).

Lemma checked_add_u64_some a b c :
  checked_add_u64 a b = Some c ↔ (a + b < u64_modulus)%Z ∧ c = (a + b)%Z.
Proof. unfold checked_add_u64. case_decide; naive_solver. Qed.

(** ** Bytes and fixed-size byte arrays

    [u8] is Stdlib's [byte]; a Rust array [[u8; N]] is a vector, so that its
    length is part of its type as it is in the source. *)

Notation byte := Init.Byte.byte (only parsing).
Notation bytes := (list Init.Byte.byte) (only parsing).
Notation barr n := (vec Init.Byte.byte n) (only parsing).

#[export] Instance byte_eq_dec : EqDecision byte := Byte.byte_eq_dec.
#[export] Instance byte_countable : Countable byte :=
  inj_countable Byte.to_N Byte.of_N Byte.of_to_N.

(** [[0u8; n]] *)
Definition zeros (n : nat) : barr n := vreplicate n Byte.x00.

(** [<[u8; N]>::try_from(slice)]: the slice has exactly [n] bytes, or fails. *)
Fixpoint vec_of_list {A} (n : nat) (l : list A) : option (vec A n) :=
  match n, l with
  | 0, [] => Some [#]
  | S n, x :: l => vcons x <$> vec_of_list n l
  | _, _ => None
  end.

Lemma vec_of_list_to_list {A n} (v : vec A n) : vec_of_list n (vec_to_list v) = Some v.
Proof. induction v as [|x n v IH]; cbn; [done|]. by rewrite IH. Qed.

Lemma vec_of_list_some {A} n (l : list A) (v : vec A n) :
  vec_of_list n l = Some v ↔ vec_to_list v = l.
Proof.
  split; [|intros <-; apply vec_of_list_to_list].
  revert l v; induction n as [|n IH]; intros [|x l] v; cbn; intros Hv; simplify_eq/=; try done.
  apply fmap_Some in Hv as (w & Hw & ->). cbn. f_equal. by apply IH.
Qed.

Lemma vec_of_list_is_some {A} n (l : list A) :
  is_Some (vec_of_list n l) ↔ length l = n.
Proof.
  split.
  - intros [v Hv%vec_of_list_some]. by rewrite <-Hv, length_vec_to_list.
  - revert n; induction l as [|x l IH]; intros n <-; cbn; [done|].
    destruct (IH _ eq_refl) as [v ->]. done.
Qed.

Lemma vec_of_list_none {A} n (l : list A) : vec_of_list n l = None ↔ length l ≠ n.
Proof. rewrite <-vec_of_list_is_some, eq_None_not_Some. done. Qed.

(** Arrays as map keys, through an encoding that evaluates. *)
#[export] Instance barr_countable n : Countable (barr n) :=
  inj_countable vec_to_list (vec_of_list n) vec_of_list_to_list.

#[export] Hint Rewrite @vec_of_list_to_list @length_vec_to_list @vec_to_list_app : node.

Lemma splitat_app {A n m} (v : vec A n) (w : vec A m) : Vector.splitat n (v +++ w) = (v, w).
Proof. induction v as [|x n v IH]; cbn; [done|]. by rewrite IH. Qed.

Lemma splitat_eta {A} n {m} (u : vec A (n + m)) :
  (Vector.splitat n u).1 +++ (Vector.splitat n u).2 = u.
Proof.
  induction n as [|n IH]; cbn; [done|].
  inv_vec u; intros x u; cbn. specialize (IH u).
  destruct (Vector.splitat n u) as [a b]; cbn in *. by rewrite IH.
Qed.

(** [u64::to_be_bytes] and [u64::from_be_bytes] (and the other widths). *)
Fixpoint be_vec (n : nat) (z : Z) : barr n :=
  match n with
  | 0 => [#]
  | S n => byte.of_Z (Z.shiftr z (8 * Z.of_nat n)) ::: be_vec n z
  end.

Definition be_val (l : bytes) : Z := le_combine (reverse l).

(** [u32::to_le_bytes] and [u32::from_le_bytes]. *)
Definition le_bytes (n : nat) (z : Z) : bytes := le_split n z.
Definition le_val (l : bytes) : Z := le_combine l.

Lemma le_split_snoc n z :
  le_split (S n) z = le_split n z ++ [byte.of_Z (Z.shiftr z (8 * Z.of_nat n))].
Proof.
  revert z; induction n as [|n IH]; intros z; [by cbn [le_split]; rewrite Z.shiftr_0_r|].
  change (le_split (S (S n)) z) with (byte.of_Z z :: le_split (S n) (Z.shiftr z 8)).
  rewrite IH, Z.shiftr_shiftr by lia.
  change (le_split (S n) z) with (byte.of_Z z :: le_split n (Z.shiftr z 8)); cbn.
  do 5 f_equal. lia.
Qed.

Lemma be_vec_list n z : vec_to_list (be_vec n z) = reverse (le_split n z).
Proof.
  induction n as [|n IH]; [done|]. rewrite le_split_snoc, reverse_app. cbn. by rewrite IH.
Qed.

Lemma be_val_be_vec n z : be_val (be_vec n z) = (z mod 2 ^ (Z.of_nat n * 8))%Z.
Proof. unfold be_val. by rewrite be_vec_list, reverse_involutive, le_combine_split. Qed.

Lemma be_vec_be_val n (v : barr n) : be_vec n (be_val v) = v.
Proof.
  apply vec_to_list_inj2. rewrite be_vec_list. unfold be_val.
  rewrite <-(length_vec_to_list v) at 1. rewrite <-length_reverse.
  by rewrite split_le_combine, reverse_involutive.
Qed.

Lemma be_val_u64 (v : barr 8) : u64_ok (be_val v).
Proof.
  pose proof (le_combine_bound (reverse v)) as Hb.
  rewrite length_reverse, length_vec_to_list in Hb. exact Hb.
Qed.

Lemma be_val_be_vec_u64 z : u64_ok z → be_val (be_vec 8 z) = z.
Proof. intros Hz. rewrite be_val_be_vec. by apply Z.mod_small. Qed.

Lemma le_val_le_bytes n z :
  (0 ≤ z < 2 ^ (Z.of_nat n * 8))%Z → le_val (le_bytes n z) = z.
Proof. intros Hz. unfold le_val, le_bytes. rewrite le_combine_split. by apply Z.mod_small. Qed.

#[export] Hint Resolve be_val_u64 : node.

(** ** Lists *)

Section filter_lemmas.
Context {A : Type} (P : A → Prop) `{!∀ x, Decision (P x)}.
Implicit Types l : list A.

Lemma filter_all l : Forall P l → filter P l = l.
Proof. induction 1 as [|x l Hx _ IH]; [done|]. by rewrite filter_cons_True, IH. Qed.

Lemma filter_none l : Forall (λ x, ¬ P x) l → filter P l = [].
Proof. induction 1 as [|x l Hx _ IH]; [done|]. by rewrite filter_cons_False, IH. Qed.

Lemma filter_ext (Q : A → Prop) `{!∀ x, Decision (Q x)} l :
  (∀ x, x ∈ l → P x ↔ Q x) → filter P l = filter Q l.
Proof.
  induction l as [|x l IH]; intros Hiff; [done|]. rewrite !filter_cons.
  rewrite IH by set_solver. specialize (Hiff x ltac:(set_solver)).
  destruct (decide (P x)), (decide (Q x)); tauto.
Qed.
End filter_lemmas.

Lemma elem_of_concat {A} (x : A) (ls : list (list A)) : x ∈ concat ls ↔ ∃ l, x ∈ l ∧ l ∈ ls.
Proof.
  induction ls as [|l ls IH]; cbn; [set_solver|]. rewrite elem_of_app, IH. set_solver.
Qed.

(** [usize] counts are [Z] too: [Iterator::take] and [Vec::len] at that type. *)
Definition usize_max : Z := u64_max.
Definition len {A} (l : list A) : Z := Z.of_nat (length l).

Fixpoint takeZ {A} (n : Z) (l : list A) : list A :=
  match l with
  | [] => []
  | x :: l => if (n <=? 0)%Z then [] else x :: takeZ (n - 1) l
  end.

Section takeZ_lemmas.
Context {A : Type}.
Implicit Types l : list A.

Lemma takeZ_take n l : takeZ n l = take (Z.to_nat n) l.
Proof.
  revert n; induction l as [|x l IH]; intros n; cbn; [by rewrite take_nil|].
  destruct (Z.leb_spec n 0).
  - by replace (Z.to_nat n) with 0 by lia.
  - replace (Z.to_nat n) with (S (Z.to_nat (n - 1))) by lia. cbn. by rewrite IH.
Qed.

Lemma takeZ_ge n l : (len l ≤ n)%Z → takeZ n l = l.
Proof. unfold len. intros Hn. rewrite takeZ_take. apply take_ge. lia. Qed.

Lemma len_takeZ n l : (0 ≤ n)%Z → len (takeZ n l) = Z.min n (len l).
Proof. unfold len. intros Hn. rewrite takeZ_take, length_take. lia. Qed.

Lemma len_app l k : len (l ++ k) = (len l + len k)%Z.
Proof. unfold len. rewrite length_app. lia. Qed.

Lemma len_nonneg l : (0 ≤ len l)%Z.
Proof. unfold len. lia. Qed.

Lemma len_nil : len (@nil A) = 0%Z.
Proof. done. Qed.

Lemma len_cons (x : A) l : len (x :: l) = (1 + len l)%Z.
Proof. unfold len. cbn. lia. Qed.

Lemma elem_of_take_1 n (x : A) l : x ∈ take n l → x ∈ l.
Proof. intros Hx. rewrite <-(take_drop n l). set_solver. Qed.
Lemma elem_of_drop_1 n (x : A) l : x ∈ drop n l → x ∈ l.
Proof. intros Hx. rewrite <-(take_drop n l). set_solver. Qed.
Lemma list_elem_of_take_app (x : A) l k n m : length l = n → n ≤ m → x ∈ l → x ∈ take m (l ++ k).
Proof. intros <- Hm Hx. rewrite take_app_ge by done. set_solver. Qed.
Lemma elem_of_takeZ n (x : A) l : x ∈ takeZ n l → x ∈ l.
Proof. rewrite takeZ_take. apply elem_of_take_1. Qed.
End takeZ_lemmas.
#[global] Arguments len : simpl never.

(** Filters by comparable predicates. *)
Lemma filter_length_mono {A} (P Q : A → Prop) `{!∀ x, Decision (P x), !∀ x, Decision (Q x)} l :
  (∀ x, x ∈ l → Q x → P x) → length (filter Q l) ≤ length (filter P l).
Proof.
  induction l as [|x l IH]; intros HQP; [done|]. rewrite !filter_cons.
  assert (length (filter Q l) ≤ length (filter P l)) by (apply IH; set_solver).
  repeat case_decide; cbn; try lia. exfalso. set_solver.
Qed.
Lemma filter_length_strict {A} (P Q : A → Prop) `{!∀ x, Decision (P x), !∀ x, Decision (Q x)} l x :
  (∀ x, x ∈ l → Q x → P x) → x ∈ l → P x → ¬ Q x → length (filter Q l) < length (filter P l).
Proof.
  intros HQP (l1 & l2 & ->)%list_elem_of_split HP HQ. rewrite !filter_app, !length_app, !filter_cons.
  rewrite decide_False, decide_True by done. cbn.
  pose proof (filter_length_mono P Q l1). pose proof (filter_length_mono P Q l2).
  set_unfold. enough (length (filter Q l1) ≤ length (filter P l1) ∧ length (filter Q l2) ≤ length (filter P l2)) by lia.
  naive_solver.
Qed.

(** The fixed-size encodings are never unfolded by simplification. *)
#[global] Arguments vec_of_list : simpl never.
#[global] Arguments be_vec : simpl never.
#[global] Arguments be_val : simpl never.
#[global] Arguments le_bytes : simpl never.
#[global] Arguments le_val : simpl never.
#[global] Arguments zeros : simpl never.
#[global] Arguments u64_modulus : simpl never.
