(* ===== verification/Ordered.v ===== *)
(** * Total orders and ordered maps

    Rust's [Ord] as a class with its laws, the instances the program uses
    (integers, bytes, byte strings compared lexicographically, pairs), and
    [BTreeMap] as a strictly sorted association list with the operations the
    program calls on it. *)

From S2P Require Import Prelude.

(** ** [Ord] *)

Class Ord (A : Type) := cmp : A → A → comparison.
#[export] Hint Mode Ord ! : typeclass_instances.

Class OrdOk (A : Type) `{Ord A} : Prop := {
  cmp_eq (x y : A) : cmp x y = Eq ↔ x = y;
  cmp_opp (x y : A) : cmp y x = CompOpp (cmp x y);
  cmp_lt_trans (x y z : A) : cmp x y = Lt → cmp y z = Lt → cmp x z = Lt;
}.

Definition olt `{Ord A} (x y : A) : Prop := cmp x y = Lt.
Definition ole `{Ord A} (x y : A) : Prop := cmp x y ≠ Gt.
Notation "x ≺ y" := (olt x y) (at level 70, no associativity) : node_scope.
Notation "x ⪯ y" := (ole x y) (at level 70, no associativity) : node_scope.

#[export] Instance olt_dec `{Ord A} (x y : A) : Decision (x ≺ y).
Proof. unfold olt. apply _. Defined.
#[export] Instance ole_dec `{Ord A} (x y : A) : Decision (x ⪯ y).
Proof. unfold ole. apply _. Defined.

(** [Ord::max]. *)
Definition omax `{Ord A} (x y : A) : A := if decide (x ⪯ y) then y else x.

Section ord_lemmas.
Context `{OrdOk A}.
Implicit Types x y z : A.

Lemma cmp_refl x : cmp x x = Eq.
Proof. by apply cmp_eq. Qed.

Lemma olt_irrefl x : ¬ x ≺ x.
Proof. unfold olt. by rewrite cmp_refl. Qed.

#[export] Instance olt_trans : Transitive (@olt A _).
Proof. intros x y z. apply cmp_lt_trans. Qed.

Lemma ole_alt x y : x ⪯ y ↔ x ≺ y ∨ x = y.
Proof.
  unfold ole, olt. rewrite <-(cmp_eq x y). destruct (cmp x y); naive_solver.
Qed.

Lemma ole_not_olt x y : x ⪯ y ↔ ¬ y ≺ x.
Proof. unfold ole, olt. rewrite (cmp_opp x y). destruct (cmp x y); naive_solver. Qed.

Lemma olt_not_ole x y : x ≺ y ↔ ¬ y ⪯ x.
Proof. rewrite ole_not_olt. destruct (decide (x ≺ y)); naive_solver. Qed.

#[export] Instance ole_refl : Reflexive (@ole A _).
Proof. intros x. apply ole_alt. by right. Qed.

#[export] Instance ole_trans : Transitive (@ole A _).
Proof. intros x y z. rewrite !ole_alt. intros [?| ->] [?| ->]; eauto using olt_trans. Qed.

#[export] Instance ole_antisym : AntiSymm eq (@ole A _).
Proof.
  intros x y [Hlt| ->]%ole_alt Hle; [|done]. by apply ole_not_olt in Hle.
Qed.

Lemma olt_ole x y : x ≺ y → x ⪯ y.
Proof. rewrite ole_alt. by left. Qed.
Lemma olt_ole_trans x y z : x ≺ y → y ⪯ z → x ≺ z.
Proof. rewrite ole_alt. intros ? [?| ->]; eauto using olt_trans. Qed.
Lemma ole_olt_trans x y z : x ⪯ y → y ≺ z → x ≺ z.
Proof. rewrite ole_alt. intros [?| ->] ?; eauto using olt_trans. Qed.
Lemma ole_total x y : x ⪯ y ∨ y ⪯ x.
Proof. destruct (decide (x ⪯ y)) as [?|?%olt_not_ole]; auto using olt_ole. Qed.

Lemma olt_ne x y : x ≺ y → x ≠ y.
Proof. intros Hxy ->. by apply olt_irrefl in Hxy. Qed.

Lemma cmp_gt x y : cmp x y = Gt ↔ y ≺ x.
Proof. unfold olt. rewrite (cmp_opp x y). destruct (cmp x y); naive_solver. Qed.

Lemma ole_omax_l x y : x ⪯ omax x y.
Proof. unfold omax. by case_decide. Qed.
Lemma ole_omax_r x y : y ⪯ omax x y.
Proof. unfold omax. case_decide; [done|]. by apply olt_ole, olt_not_ole. Qed.

Lemma omax_olt x y z : omax x y ≺ z ↔ x ≺ z ∧ y ≺ z.
Proof.
  split.
  - intros Hz. split; (eapply ole_olt_trans; [|exact Hz]); [apply ole_omax_l|apply ole_omax_r].
  - unfold omax. case_decide; naive_solver.
Qed.
End ord_lemmas.

#[export] Hint Resolve olt_ole : node.

(** ** Instances *)

#[export] Instance Z_ord : Ord Z := Z.compare.
#[export] Instance Z_ord_ok : OrdOk Z.
Proof.
  split; unfold cmp, Z_ord.
  - apply Z.compare_eq_iff.
  - intros x y. by rewrite Z.compare_antisym.
  - intros x y z. rewrite !Z.compare_lt_iff. lia.
Qed.

#[export] Instance byte_ord : Ord byte := λ a b, N.compare (Byte.to_N a) (Byte.to_N b).
#[export] Instance byte_ord_ok : OrdOk byte.
Proof.
  split; unfold cmp, byte_ord.
  - intros x y. rewrite N.compare_eq_iff. split; [|by intros ->].
    intros Heq%(f_equal Byte.of_N). rewrite !Byte.of_to_N in Heq. by simplify_eq.
  - intros x y. by rewrite N.compare_antisym.
  - intros x y z. rewrite !N.compare_lt_iff. lia.
Qed.

(** Lexicographic order, the derived [Ord] of slices and strings. *)
Fixpoint list_cmp `{Ord A} (l k : list A) : comparison :=
  match l, k with
  | [], [] => Eq
  | [], _ => Lt
  | _, [] => Gt
  | x :: l, y :: k => match cmp x y with Eq => list_cmp l k | c => c end
  end.
#[export] Instance list_ord `{Ord A} : Ord (list A) := list_cmp.

#[export] Instance list_ord_ok `{OrdOk A} : OrdOk (list A).
Proof.
  split; unfold cmp, list_ord.
  - intros l. induction l as [|x l IH]; intros [|y k]; cbn; try done.
    destruct (cmp x y) eqn:Hc; rewrite ?IH.
    + apply cmp_eq in Hc as ->. naive_solver.
    + split; [done|]. intros [= -> ->]. by rewrite cmp_refl in Hc.
    + split; [done|]. intros [= -> ->]. by rewrite cmp_refl in Hc.
  - intros l. induction l as [|x l IH]; intros [|y k]; cbn; try done.
    rewrite (cmp_opp x y). destruct (cmp x y); cbn; auto.
  - intros l. induction l as [|x l IH]; intros [|y k] [|z m]; cbn; try done.
    destruct (cmp x y) eqn:Hxy; try done; destruct (cmp y z) eqn:Hyz; try done.
    + apply cmp_eq in Hxy as ->. apply cmp_eq in Hyz as ->. rewrite cmp_refl. eauto.
    + apply cmp_eq in Hxy as ->. by rewrite Hyz.
    + apply cmp_eq in Hyz as ->. by rewrite Hxy.
    + by rewrite (cmp_lt_trans x y z).
Qed.

(** An order pulled back along an injection: newtypes and derived [Ord]s. *)
Lemma ord_ok_inj {A B} `{OrdOk B} (f : A → B) `{!Inj (=) (=) f} :
  @OrdOk A (λ x y, cmp (f x) (f y)).
Proof.
  split; unfold cmp.
  - intros x y. fold (cmp (f x) (f y)). rewrite cmp_eq. split; [apply (inj f)|by intros ->].
  - intros x y. apply cmp_opp.
  - intros x y z. apply cmp_lt_trans.
Qed.

#[export] Instance vec_ord `{Ord A} n : Ord (vec A n) :=
  λ v w, cmp (vec_to_list v) (vec_to_list w).
#[export] Instance vec_ord_ok `{OrdOk A} n : OrdOk (vec A n).
Proof.
  assert (Inj (=) (=) (@vec_to_list A n)) by (intros v w; apply vec_to_list_inj2).
  apply (ord_ok_inj (@vec_to_list A n)).
Qed.

#[export] Instance prod_ord `{Ord A, Ord B} : Ord (A * B) :=
  λ p q, match cmp p.1 q.1 with Eq => cmp p.2 q.2 | c => c end.
#[export] Instance prod_ord_ok `{OrdOk A, OrdOk B} : OrdOk (A * B).
Proof.
  split; unfold cmp, prod_ord.
  - intros [a b] [c d]; cbn. destruct (cmp a c) eqn:Hc.
    + apply cmp_eq in Hc as ->. rewrite cmp_eq. naive_solver.
    + split; [done|]. intros [= -> ->]. by rewrite cmp_refl in Hc.
    + split; [done|]. intros [= -> ->]. by rewrite cmp_refl in Hc.
  - intros [a b] [c d]; cbn. rewrite (cmp_opp a c). destruct (cmp a c); cbn; auto using cmp_opp.
  - intros [a b] [c d] [e f]; cbn.
    destruct (cmp a c) eqn:Hac; try done; destruct (cmp c e) eqn:Hce; try done.
    + apply cmp_eq in Hac as ->. apply cmp_eq in Hce as ->. rewrite cmp_refl. apply cmp_lt_trans.
    + apply cmp_eq in Hac as ->. by rewrite Hce.
    + apply cmp_eq in Hce as ->. by rewrite Hac.
    + by rewrite (cmp_lt_trans a c e).
Qed.

(** Strings compare as their bytes. *)
#[export] Instance string_ord : Ord string :=
  λ s t, cmp (String.list_byte_of_string s) (String.list_byte_of_string t).
Lemma list_byte_of_string_inj : Inj (=) (=) String.list_byte_of_string.
Proof.
  intros s t Heq%(f_equal String.string_of_list_byte).
  by rewrite !String.string_of_list_byte_of_string in Heq.
Qed.
#[export] Instance string_ord_ok : OrdOk string.
Proof. pose proof list_byte_of_string_inj. apply (ord_ok_inj String.list_byte_of_string). Qed.

(** ** [BTreeMap] *)

Module BTree.

(** The entries in ascending key order. *)
Definition bt_keys {K V} (m : list (K * V)) : list K := m.*1.
Definition bt_sorted `{Ord K} {V} (m : list (K * V)) : Prop := StronglySorted olt (bt_keys m).

(** [BTreeMap::get] *)
Fixpoint bt_get `{Ord K} {V} (k : K) (m : list (K * V)) : option V :=
  match m with
  | [] => None
  | (k', v) :: m => match cmp k k' with Eq => Some v | _ => bt_get k m end
  end.

(** [BTreeMap::insert] *)
Fixpoint bt_insert `{Ord K} {V} (k : K) (v : V) (m : list (K * V)) : list (K * V) :=
  match m with
  | [] => [(k, v)]
  | (k', v') :: m' =>
      match cmp k k' with
      | Lt => (k, v) :: m
      | Eq => (k, v) :: m'
      | Gt => (k', v') :: bt_insert k v m'
      end
  end.

(** [BTreeMap::remove] *)
Fixpoint bt_remove `{Ord K} {V} (k : K) (m : list (K * V)) : list (K * V) :=
  match m with
  | [] => []
  | (k', v') :: m' => match cmp k k' with Eq => m' | _ => (k', v') :: bt_remove k m' end
  end.

(** [range((Bound::Excluded(k), Bound::Unbounded))] *)
Definition bt_after `{Ord K} {V} (k : K) (m : list (K * V)) : list (K * V) :=
  filter (λ kv, k ≺ kv.1) m.

(** [collect::<BTreeMap<_, _>>()]: later entries replace earlier ones. *)
Definition bt_collect `{Ord K} {V} (l : list (K * V)) : list (K * V) :=
  foldl (λ m kv, bt_insert kv.1 kv.2 m) [] l.

(** [collect::<BTreeSet<_>>()] and its ascending iteration. *)
Definition bset_insert `{Ord K} (k : K) (s : list K) : list K :=
  (bt_insert k () ((λ k, (k, ())) <$> s)).*1.

Section btree.
Context `{OrdOk K} {V : Type}.
Implicit Types (k : K) (v : V) (m : list (K * V)).

Lemma bt_sorted_cons k v m :
  bt_sorted ((k, v) :: m) ↔ bt_sorted m ∧ Forall (λ kv, k ≺ kv.1) m.
Proof.
  unfold bt_sorted, bt_keys; cbn.
  assert (Forall (olt k) m.*1 ↔ Forall (λ kv, k ≺ kv.1) m) as <- by apply Forall_fmap.
  split; [by intros [??]%StronglySorted_inv | by intros [??]; constructor].
Qed.

Lemma bt_get_insert_eq k v m : bt_get k (bt_insert k v m) = Some v.
Proof.
  induction m as [|[k' v'] m IH]; cbn; [by rewrite cmp_refl|].
  destruct (cmp k k') eqn:Hc; cbn; rewrite ?cmp_refl, ?Hc; auto.
Qed.

Lemma bt_get_insert_ne k k' v m : k ≠ k' → bt_get k' (bt_insert k v m) = bt_get k' m.
Proof.
  intros Hne. assert (Hc : cmp k' k ≠ Eq) by (rewrite cmp_eq; congruence).
  induction m as [|[j w] m IH]; cbn.
  - by destruct (cmp k' k).
  - destruct (cmp k j) eqn:Hj; cbn.
    + apply cmp_eq in Hj as ->. by destruct (cmp k' j).
    + by destruct (cmp k' k).
    + by rewrite IH.
Qed.

Lemma bt_get_some_1 k v m : bt_get k m = Some v → (k, v) ∈ m.
Proof.
  induction m as [|[k' v'] m IH]; cbn; [done|].
  destruct (cmp k k') eqn:Hc; [apply cmp_eq in Hc as ->; intros [= ->] | ..]; set_solver.
Qed.

Lemma bt_get_some k v m : bt_sorted m → bt_get k m = Some v ↔ (k, v) ∈ m.
Proof.
  intros Hs. split; [apply bt_get_some_1|].
  induction m as [|[k' v'] m IH]; cbn; [set_solver|].
  apply bt_sorted_cons in Hs as [Hs Hall]. rewrite elem_of_cons.
  intros [[= -> ->]|Hin]; [by rewrite cmp_refl|].
  rewrite Forall_forall in Hall. specialize (Hall _ Hin); cbn in Hall.
  destruct (cmp k k') eqn:Hc; [|by apply IH..].
  apply cmp_eq in Hc as ->. by apply olt_irrefl in Hall.
Qed.

Lemma bt_insert_in k v m kv : kv ∈ bt_insert k v m → kv = (k, v) ∨ kv ∈ m.
Proof.
  induction m as [|[k' v'] m IH]; cbn; [set_solver|].
  destruct (cmp k k'); rewrite !elem_of_cons; naive_solver.
Qed.

Lemma bt_insert_keys k v m k' : k' ∈ bt_keys (bt_insert k v m) ↔ k' = k ∨ k' ∈ bt_keys m.
Proof.
  unfold bt_keys. induction m as [|[j w] m IH]; cbn; [set_solver|].
  destruct (cmp k j) eqn:Hc; cbn; rewrite !elem_of_cons; [|set_solver..].
  apply cmp_eq in Hc as ->. set_solver.
Qed.

Lemma bt_insert_sorted k v m : bt_sorted m → bt_sorted (bt_insert k v m).
Proof.
  induction m as [|[k' v'] m IH]; cbn; [repeat constructor|].
  intros Hs. pose proof (proj1 (bt_sorted_cons _ _ _) Hs) as [Hm Hall].
  destruct (cmp k k') eqn:Hc; apply bt_sorted_cons.
  - apply cmp_eq in Hc as ->. done.
  - split; [done|]. constructor; [done|]. eapply Forall_impl; [exact Hall|].
    intros kv Hkv. by eapply olt_trans.
  - split; [auto|]. apply Forall_forall. intros kv [->|Hin]%bt_insert_in.
    + by apply cmp_gt.
    + rewrite Forall_forall in Hall. auto.
Qed.

Lemma bt_collect_sorted l : bt_sorted (bt_collect (K := K) (V := V) l).
Proof.
  unfold bt_collect. assert (Hs : bt_sorted (@nil (K * V))) by constructor.
  revert Hs. generalize (@nil (K * V)). induction l as [|kv l IH]; intros m Hs; cbn; [done|].
  by apply IH, bt_insert_sorted.
Qed.

(** A sorted map is determined by its lookups. *)
Lemma bt_ext m1 m2 :
  bt_sorted m1 → bt_sorted m2 → (∀ k, bt_get k m1 = bt_get k m2) → m1 = m2.
Proof.
  revert m2; induction m1 as [|[k v] m1 IH]; intros [|[k2 v2] m2] Hs1 Hs2 Hget.
  - done.
  - specialize (Hget k2); cbn in Hget. by rewrite cmp_refl in Hget.
  - specialize (Hget k); cbn in Hget. by rewrite cmp_refl in Hget.
  - pose proof (proj1 (bt_sorted_cons _ _ _) Hs1) as [Hm1 Hall1].
    pose proof (proj1 (bt_sorted_cons _ _ _) Hs2) as [Hm2 Hall2].
    assert (k = k2 ∧ v = v2) as [-> ->].
    { assert ((k, v) ∈ (k2, v2) :: m2) as Hin1.
      { apply bt_get_some_1. rewrite <-Hget. cbn. by rewrite cmp_refl. }
      assert ((k2, v2) ∈ (k, v) :: m1) as Hin2.
      { apply bt_get_some_1. rewrite Hget. cbn. by rewrite cmp_refl. }
      rewrite elem_of_cons in Hin1, Hin2. rewrite Forall_forall in Hall1, Hall2.
      destruct Hin1 as [|Hin1]; [by simplify_eq|]. destruct Hin2 as [|Hin2]; [by simplify_eq|].
      apply Hall2 in Hin1; apply Hall1 in Hin2; cbn in *.
      exfalso. eapply olt_irrefl. by etrans. }
    f_equal. apply IH; [done..|]. intros k. specialize (Hget k); cbn in Hget.
    destruct (cmp k k2) eqn:Hc; [|done..]. apply cmp_eq in Hc as ->.
    destruct (bt_get k2 m1) as [w|] eqn:Hw.
    + apply bt_get_some_1 in Hw. rewrite Forall_forall in Hall1.
      apply Hall1 in Hw. by apply olt_irrefl in Hw.
    + destruct (bt_get k2 m2) as [w|] eqn:Hw2; [|done].
      apply bt_get_some_1 in Hw2. rewrite Forall_forall in Hall2.
      apply Hall2 in Hw2. by apply olt_irrefl in Hw2.
Qed.

Lemma bt_sorted_filter (P : K * V → Prop) `{!∀ x, Decision (P x)} m :
  bt_sorted m → bt_sorted (filter P m).
Proof.
  induction m as [|[k v] m IH]; intros Hs; [constructor|].
  apply bt_sorted_cons in Hs as [Hs Hall]. rewrite filter_cons. case_decide; [|auto].
  apply bt_sorted_cons. split; [auto|]. rewrite Forall_forall in Hall |- *.
  intros kv [_ Hin]%list_elem_of_filter. auto.
Qed.

Lemma bt_after_in k m kv : kv ∈ bt_after k m ↔ k ≺ kv.1 ∧ kv ∈ m.
Proof. unfold bt_after. by rewrite list_elem_of_filter. Qed.

Lemma bt_sorted_NoDup m : bt_sorted m → NoDup (bt_keys m).
Proof.
  induction m as [|[k v] m IH]; intros Hs; [constructor|].
  apply bt_sorted_cons in Hs as [Hs Hall]. cbn. apply NoDup_cons. split; [|by apply IH].
  intros (kv & Hk & Hin)%list_elem_of_fmap. rewrite Forall_forall in Hall.
  apply Hall in Hin. rewrite <-Hk in Hin. by apply olt_irrefl in Hin.
Qed.

Lemma bt_sorted_app m1 m2 :
  bt_sorted (m1 ++ m2) ↔
  bt_sorted m1 ∧ bt_sorted m2 ∧ (∀ x y, x ∈ m1 → y ∈ m2 → x.1 ≺ y.1).
Proof.
  induction m1 as [|[k v] m1 IH]; cbn.
  - split; [intros Hs; split_and!; [constructor|done|set_solver] | by intros (_&?&_)].
  - rewrite !bt_sorted_cons, IH, Forall_app, !Forall_forall. set_solver.
Qed.

(** In a sorted map, what lies above a key is a suffix. *)
Lemma bt_after_app m1 kv m2 :
  bt_sorted (m1 ++ kv :: m2) → bt_after kv.1 (m1 ++ kv :: m2) = m2.
Proof.
  destruct kv as [k v]; cbn. intros (Hs1 & [Hs2 Hall]%bt_sorted_cons & Hlt)%bt_sorted_app.
  unfold bt_after. rewrite filter_app, filter_cons_False by apply olt_irrefl.
  rewrite (filter_all _ m2) by done. rewrite (filter_none _ m1); [done|].
  apply Forall_forall. intros x Hx Hkx. apply (olt_irrefl k).
  etrans; [exact Hkx|]. apply (Hlt x (k, v)); [done|]. set_solver.
Qed.

Lemma bt_insert_perm k v m : k ∉ bt_keys m → bt_insert k v m ≡ₚ (k, v) :: m.
Proof.
  induction m as [|[k' v'] m IH]; cbn; intros Hk; [done|]. apply not_elem_of_cons in Hk as [Hne Hk].
  destruct (cmp k k') eqn:Hc; [by apply cmp_eq in Hc|done|]. rewrite IH by done. constructor.
Qed.

(** Collecting entries with distinct keys sorts them. *)
Lemma bt_collect_perm l : NoDup l.*1 → bt_collect (K := K) (V := V) l ≡ₚ l.
Proof.
  induction l as [|kv l IH] using rev_ind; [done|].
  rewrite fmap_app. intros (Hnd & Hni & _)%NoDup_app.
  unfold bt_collect in *. rewrite foldl_app. cbn. rewrite bt_insert_perm.
  - rewrite IH by done. destruct kv; cbn. by rewrite Permutation_app_comm.
  - unfold bt_keys. rewrite (IH Hnd). intros Hin. apply (Hni _ Hin). cbn. set_solver.
Qed.

(** Two sorted maps with the same entries are the same list. *)
Lemma bt_sorted_unique m1 m2 :
  bt_sorted m1 → bt_sorted m2 → (∀ kv, kv ∈ m1 ↔ kv ∈ m2) → m1 = m2.
Proof.
  intros H1 H2 Hin. apply bt_ext; [done..|]. intros k. apply option_eq. intros v.
  by rewrite !bt_get_some, Hin.
Qed.

Lemma bt_after_sorted k m : bt_sorted m → bt_sorted (bt_after k m).
Proof. apply bt_sorted_filter. Qed.

Lemma bt_after_after k1 k2 m : k1 ⪯ k2 → bt_after k2 (bt_after k1 m) = bt_after k2 m.
Proof.
  intros Hle. unfold bt_after. rewrite list_filter_filter. apply list_filter_iff.
  intros kv. split; [by intros []|]. intros Hk. split; [done|]. by eapply ole_olt_trans.
Qed.
End btree.

Section bset.
Context `{OrdOk K}.
Implicit Types (k : K) (s : list K).

Lemma bset_insert_in k k' s : k' ∈ bset_insert k s ↔ k' = k ∨ k' ∈ s.
Proof.
  unfold bset_insert. change ((bt_insert k () ((λ k, (k, ())) <$> s)).*1)
    with (bt_keys (bt_insert k () ((λ k, (k, ())) <$> s))).
  rewrite bt_insert_keys. unfold bt_keys. rewrite <-list_fmap_compose. cbn. by rewrite list_fmap_id.
Qed.

Lemma bset_insert_sorted k s : StronglySorted olt s → StronglySorted olt (bset_insert k s).
Proof.
  intros Hs. unfold bset_insert. apply (bt_insert_sorted k ()). unfold bt_sorted, bt_keys.
  rewrite <-list_fmap_compose. cbn. by rewrite list_fmap_id.
Qed.
End bset.

End BTree.

(** ** Byte order and numeric order agree on big-endian encodings *)

Lemma list_cmp_app `{OrdOk A} (l1 l2 k1 k2 : list A) :
  length l1 = length k1 →
  cmp (l1 ++ l2) (k1 ++ k2) = match cmp l1 k1 with Eq => cmp l2 k2 | c => c end.
Proof.
  revert k1; induction l1 as [|x l1 IH]; intros [|y k1]; cbn; intros [=]; [done|].
  destruct (cmp x y); [|done..]. by apply IH.
Qed.

Lemma byte_cmp_unsigned (a b : byte) : cmp a b = Z.compare (byte.unsigned a) (byte.unsigned b).
Proof. unfold cmp, byte_ord, byte.unsigned. by rewrite N2Z.inj_compare. Qed.

Lemma be_vec_mod n z : be_vec n z = be_vec n (z mod 2 ^ (Z.of_nat n * 8)).
Proof. apply vec_to_list_inj2. by rewrite !be_vec_list, <-le_split_mod. Qed.

Lemma be_vec_cmp n z w :
  (0 ≤ z < 2 ^ (8 * Z.of_nat n))%Z → (0 ≤ w < 2 ^ (8 * Z.of_nat n))%Z →
  cmp (be_vec n z) (be_vec n w) = Z.compare z w.
Proof.
  revert z w; induction n as [|n IH]; intros z w Hz Hw.
  - cbn in Hz, Hw. assert (z = 0%Z) as -> by lia. by assert (w = 0%Z) as -> by lia.
  - set (p := (2 ^ (8 * Z.of_nat n))%Z) in *.
    assert (Hp : (0 < p)%Z) by (apply Z.pow_pos_nonneg; lia).
    assert (H2p : (2 ^ (8 * Z.of_nat (S n)) = 256 * p)%Z).
    { unfold p. replace (8 * Z.of_nat (S n))%Z with (8 + 8 * Z.of_nat n)%Z by lia.
      rewrite Z.pow_add_r by lia. done. }
    rewrite H2p in Hz, Hw.
    assert (Hhi : ∀ u, (0 ≤ u < 256 * p)%Z →
      byte.unsigned (byte.of_Z (Z.shiftr u (8 * Z.of_nat n))) = (u / p)%Z).
    { intros u Hu. rewrite byte.unsigned_of_Z, Z.shiftr_div_pow2 by lia. fold p.
      unfold byte.wrap. apply Z.mod_small. split; [apply Z.div_pos; lia|].
      apply Z.div_lt_upper_bound; lia. }
    change (list_cmp (be_vec (S n) z) (be_vec (S n) w) = Z.compare z w).
    change (be_vec (S n) ?u) with (byte.of_Z (Z.shiftr u (8 * Z.of_nat n)) ::: be_vec n u).
    cbn [vec_to_list list_cmp].
    change (list_cmp (vec_to_list (be_vec n z)) (be_vec n w)) with (cmp (be_vec n z) (be_vec n w)).
    rewrite byte_cmp_unsigned, !Hhi by done.
    rewrite (be_vec_mod n z), (be_vec_mod n w).
    replace (2 ^ (Z.of_nat n * 8))%Z with p by (unfold p; f_equal; lia).
    rewrite IH by (apply Z.mod_pos_bound; lia).
    pose proof (Z.div_mod z p ltac:(lia)). pose proof (Z.div_mod w p ltac:(lia)).
    pose proof (Z.mod_pos_bound z p Hp). pose proof (Z.mod_pos_bound w p Hp).
    destruct (Z.compare_spec (z / p) (w / p)); symmetry.
    + destruct (Z.compare_spec (z mod p) (w mod p)); [apply Z.compare_eq_iff|apply Z.compare_lt_iff|apply Z.compare_gt_iff]; nia.
    + apply Z.compare_lt_iff. nia.
    + apply Z.compare_gt_iff. nia.
Qed.
