(* ===== verification/External.v ===== *)
(** * Third-party crates

    The crates the program calls are not part of its sources.  Each one is a
    class whose operations are the functions the program calls, and a second
    class with the documented laws the program relies on; the components are
    sections over the operations, and a theorem that needs a law asks for the
    law class.  [Toy.v] instantiates every class with concrete functions. *)

From S2P Require Import Prelude.

(** ** [p256] (ECDSA over P-256) and [sha2] *)

Class Crypto := {
  SigningKey : Type;
  VerifyingKey : Type;
  Signature : Type;
  (** [Sha256::digest] *)
  sha256 : bytes → barr 32;
  (** [SigningKey::from_slice], [SigningKey::to_bytes], [SigningKey::verifying_key] *)
  sk_from_slice : bytes → option SigningKey;
  sk_to_bytes : SigningKey → barr 32;
  sk_verifying_key : SigningKey → VerifyingKey;
  (** [Signer::sign], [Verifier::verify] *)
  sk_sign : SigningKey → bytes → Signature;
  vk_verify : VerifyingKey → bytes → Signature → bool;
  (** [VerifyingKey::to_encoded_point(true)], [VerifyingKey::from_sec1_bytes] *)
  vk_to_sec1 : VerifyingKey → barr 33;
  vk_from_sec1 : bytes → option VerifyingKey;
  (** [Signature::from_slice], [Signature::to_bytes], [Signature::normalize_s] *)
  sig_from_slice : bytes → option Signature;
  sig_to_bytes : Signature → barr 64;
  normalize_s : Signature → option Signature;
}.

Class CryptoOk `{Crypto} : Prop := {
  (** a signature verifies under the key that made it *)
  sign_verifies sk msg : vk_verify (sk_verifying_key sk) msg (sk_sign sk msg) = true;
  (** [normalize_s] answers the low-S twin, which verifies the same messages,
      and [None] on a signature that is low-S already *)
  normalize_s_low s s' : normalize_s s = Some s' → normalize_s s' = None;
  normalize_s_verify vk msg s s' :
    normalize_s s = Some s' → vk_verify vk msg s' = vk_verify vk msg s;
  (** the fixed-size encodings round-trip *)
  sig_roundtrip s : sig_from_slice (sig_to_bytes s) = Some s;
  sec1_roundtrip vk : vk_from_sec1 (vk_to_sec1 vk) = Some vk;
  sk_roundtrip sk : sk_from_slice (sk_to_bytes sk) = Some sk;
}.

(** ** [postcard] *)

Class Postcard := {
  PcError : Type;
  (** [Display for postcard::Error] *)
  pc_display : PcError → string;
}.

(** [postcard::to_allocvec] and [postcard::from_bytes] at one type. *)
Class Wire `{Postcard} (A : Type) := {
  to_allocvec : A → result PcError bytes;
  from_bytes : bytes → result PcError A;
}.
#[export] Hint Mode Wire - ! : typeclass_instances.

Class WireOk `{Postcard} (A : Type) `{!Wire A} : Prop :=
  wire_roundtrip (x : A) b : to_allocvec x = Ok b → from_bytes b = Ok x.

(** ** [serde_json] *)

Class Json := {
  JsonError : Type;
  json_display : JsonError → string;
}.

(** [serde_json::to_vec] and [serde_json::from_slice] at one type. *)
Class JsonWire `{Json} (A : Type) := {
  json_to_vec : A → result JsonError bytes;
  json_from_slice : bytes → result JsonError A;
}.
#[export] Hint Mode JsonWire - ! : typeclass_instances.

Class JsonWireOk `{Json} (A : Type) `{!JsonWire A} : Prop :=
  json_roundtrip (x : A) b : json_to_vec x = Ok b → json_from_slice b = Ok x.

(** ** [base64] (the [STANDARD] engine) *)

Class Base64 := {
  B64Error : Type;
  b64_display : B64Error → string;
  b64_encode : bytes → string;
  b64_decode : string → result B64Error bytes;
}.

Class Base64Ok `{Base64} : Prop :=
  b64_roundtrip bs : b64_decode (b64_encode bs) = Ok bs.

(** The [URL_SAFE_NO_PAD] engine. *)
Class Base64Url := {
  b64url_encode : bytes → string;
  b64url_decode : string → option bytes;
}.

(** The alphabet: letters, digits, [-] and [_]. *)
Definition b64url_char (c : ascii) : bool :=
  let n := Z.of_N (Ascii.N_of_ascii c) in
  ((48 <=? n) && (n <=? 57) || (65 <=? n) && (n <=? 90) || (97 <=? n) && (n <=? 122) || (n =? 45) || (n =? 95))%Z.

Class Base64UrlOk `{Base64Url} : Prop := {
  b64url_roundtrip bs : b64url_decode (b64url_encode bs) = Some bs;
  b64url_empty : b64url_encode [] = EmptyString;
  b64url_alphabet bs : Forall (λ c, b64url_char c = true) (String.list_ascii_of_string (b64url_encode bs));
}.

(** ** [percent_encoding]

    [utf8_percent_encode] over a set of ASCII characters, and
    [percent_decode_str]. *)

Class Percent := {
  utf8_percent_encode : (ascii → bool) → string → string;
  percent_decode_str : string → bytes;
}.

(** A character of an encoded text: a percent sign, an upper-case hexadecimal
    digit, or an ASCII character outside the set. *)
Definition percent_char (set : ascii → bool) (c : ascii) : bool :=
  let n := Z.of_N (Ascii.N_of_ascii c) in
  ((n =? 37) || (48 <=? n) && (n <=? 57) || (65 <=? n) && (n <=? 70) || (n <? 128) && negb (set c))%Z.

Class PercentOk `{Percent} : Prop := {
  percent_roundtrip set s :
    set "%"%char = true →
    percent_decode_str (utf8_percent_encode set s) = String.list_byte_of_string s;
  percent_alphabet set s :
    Forall (λ c, percent_char set c = true) (String.list_ascii_of_string (utf8_percent_encode set s));
}.

(** ** [uhlc]

    A clock is a state: [HLC::new_timestamp] draws a reading (an NTP64 value)
    and [HLC::update_with_timestamp] folds a remote one in or refuses it. *)

Class Uhlc := {
  HLC : Type;
  UhlcID : Type;
  (** [ID::try_from(&[u8])]: refuses the all-zero id *)
  uhlc_id : bytes → option UhlcID;
  (** [HLCBuilder::default().with_id(..).with_max_delta(..).build()], the delta in seconds *)
  hlc_build : UhlcID → Z → HLC;
  hlc_new_timestamp : HLC → Z * HLC;
  hlc_update_with_timestamp : HLC → Z → UhlcID → result string HLC;
}.

Class UhlcOk `{Uhlc} (last : HLC → Z) : Prop := {
  (** [last] is the clock's latest time: a new timestamp is above it and
      becomes it, and an accepted remote timestamp is folded into it *)
  hlc_new_monotone c : (last c < (hlc_new_timestamp c).1)%Z;
  hlc_new_last c : last (hlc_new_timestamp c).2 = (hlc_new_timestamp c).1;
  hlc_update_last c t i c' :
    hlc_update_with_timestamp c t i = Ok c' → (last c ≤ last c' ∧ t ≤ last c')%Z;
  (** one non-zero byte is a valid id *)
  uhlc_id_one : is_Some (uhlc_id [Byte.x01]);
}.
