(* ===== verification/Toy.v ===== *)
(** * Concrete instances of the third-party classes

    Small executable functions that satisfy every law of [External.v]: they
    show that the laws can hold together, and the witnesses of the development
    evaluate the program on them.  They stand for no real cryptography. *)

From S2P Require Import Prelude Ordered External.

Module Toy.

(** A 256-bit polynomial checksum in place of SHA-256. *)
Definition toy_sum (l : bytes) : Z :=
  let mask := Z.ones 256 in
  foldl (λ h b, Z.land (h * 263 + byte.unsigned b + 1)%Z mask) 7%Z l.
Definition toy_sha256 (l : bytes) : barr 32 := be_vec 32 (toy_sum l).

(** A key is its 32 bytes; a signature is a keyed checksum and a half that is
    zero in the canonical (low-S) form. *)
Definition toy_sec1_decode (l : bytes) : option (barr 32) :=
  match l with
  | b :: l => if decide (b = Byte.x02) then vec_of_list 32 l else None
  | [] => None
  end.

Definition toy_sig_decode (l : bytes) : option (barr 32 * barr 32) :=
  a ← vec_of_list 32 (take 32 l);
  b ← vec_of_list 32 (drop 32 l);
  Some (a, b).

Lemma toy_sig_roundtrip (s : barr 32 * barr 32) :
  toy_sig_decode (vec_to_list (s.1 +++ s.2)) = Some s.
Proof.
  destruct s as [a b]. unfold toy_sig_decode. cbn [fst snd].
  rewrite (vec_to_list_app a b).
  rewrite take_app_length' by (by rewrite length_vec_to_list).
  rewrite drop_app_length' by (by rewrite length_vec_to_list).
  by rewrite !vec_of_list_to_list.
Qed.

#[export] Instance toy_crypto : Crypto := {|
  SigningKey := barr 32;
  VerifyingKey := barr 32;
  Signature := barr 32 * barr 32;
  sha256 := toy_sha256;
  sk_from_slice := vec_of_list 32;
  sk_to_bytes := λ k, k;
  sk_verifying_key := λ k, k;
  sk_sign := λ k msg, (toy_sha256 (vec_to_list k ++ msg), zeros 32);
  vk_verify := λ k msg s, bool_decide (s.1 = toy_sha256 (vec_to_list k ++ msg));
  vk_to_sec1 := λ k, Byte.x02 ::: k;
  vk_from_sec1 := toy_sec1_decode;
  sig_from_slice := toy_sig_decode;
  sig_to_bytes := λ s, s.1 +++ s.2;
  normalize_s := λ s, if decide (s.2 = zeros 32) then None else Some (s.1, zeros 32);
|}.

#[export] Instance toy_crypto_ok : CryptoOk.
Proof.
  split; cbn -[toy_sha256 Vector.append].
  - intros. by apply bool_decide_eq_true.
  - intros s s'. case_decide; intros [= <-]. by rewrite decide_True.
  - intros vk msg s s'. case_decide; intros [= <-]. done.
  - apply toy_sig_roundtrip.
  - intros vk. rewrite decide_True by done. apply vec_of_list_to_list.
  - intros sk. apply vec_of_list_to_list.
Qed.

(** ** A prefix codec, one class instance per type former *)

Class Codec (A : Type) := {
  enc : A → bytes;
  dec : bytes → option (A * bytes);
}.
#[export] Hint Mode Codec ! : typeclass_instances.
Class CodecOk (A : Type) `{Codec A} : Prop :=
  dec_enc (x : A) (r : bytes) : dec (enc x ++ r) = Some (x, r).

#[export] Instance byte_codec : Codec byte := {|
  enc := λ b, [b];
  dec := λ l, match l with b :: l => Some (b, l) | [] => None end;
|}.
#[export] Instance byte_codec_ok : CodecOk byte.
Proof. done. Qed.

(** Binary digits, then an end mark. *)
Fixpoint pos_enc (p : positive) : bytes :=
  match p with
  | xH => [Byte.x02]
  | xO p => Byte.x00 :: pos_enc p
  | xI p => Byte.x01 :: pos_enc p
  end.
Fixpoint pos_dec (l : bytes) : option (positive * bytes) :=
  match l with
  | Byte.x00 :: l => '(p, r) ← pos_dec l; Some (xO p, r)
  | Byte.x01 :: l => '(p, r) ← pos_dec l; Some (xI p, r)
  | Byte.x02 :: l => Some (xH, l)
  | _ => None
  end.
Lemma pos_dec_enc p r : pos_dec (pos_enc p ++ r) = Some (p, r).
Proof. induction p as [p IH|p IH|]; cbn; by rewrite ?IH. Qed.

#[export] Instance Z_codec : Codec Z := {|
  enc := λ z, match z with
    | Z0 => [Byte.x03] | Zpos p => Byte.x04 :: pos_enc p | Zneg p => Byte.x05 :: pos_enc p end;
  dec := λ l, match l with
    | Byte.x03 :: l => Some (Z0, l)
    | Byte.x04 :: l => '(p, r) ← pos_dec l; Some (Zpos p, r)
    | Byte.x05 :: l => '(p, r) ← pos_dec l; Some (Zneg p, r)
    | _ => None end;
|}.
#[export] Instance Z_codec_ok : CodecOk Z.
Proof. intros [|p|p] r; cbn; by rewrite ?pos_dec_enc. Qed.

#[export] Instance bool_codec : Codec bool := {|
  enc := λ b, [if b : bool then Byte.x01 else Byte.x00];
  dec := λ l, match l with
    | Byte.x00 :: l => Some (false, l) | Byte.x01 :: l => Some (true, l) | _ => None end;
|}.
#[export] Instance bool_codec_ok : CodecOk bool.
Proof. by intros [] r. Qed.

#[export] Instance prod_codec `{Codec A, Codec B} : Codec (A * B) := {|
  enc := λ p, enc p.1 ++ enc p.2;
  dec := λ l, '(a, l) ← dec l; '(b, l) ← dec l; Some ((a, b), l);
|}.
#[export] Instance prod_codec_ok `{CodecOk A, CodecOk B} : CodecOk (A * B).
Proof. intros [a b] r. cbn. by rewrite <-app_assoc, dec_enc; cbn; rewrite dec_enc. Qed.

#[export] Instance option_codec `{Codec A} : Codec (option A) := {|
  enc := λ o, match o with None => [Byte.x00] | Some a => Byte.x01 :: enc a end;
  dec := λ l, match l with
    | Byte.x00 :: l => Some (None, l)
    | Byte.x01 :: l => '(a, l) ← dec l; Some (Some a, l)
    | _ => None end;
|}.
#[export] Instance option_codec_ok `{CodecOk A} : CodecOk (option A).
Proof. intros [a|] r; cbn; by rewrite ?dec_enc. Qed.

Fixpoint list_enc `{Codec A} (l : list A) : bytes :=
  match l with [] => [Byte.x00] | a :: l => Byte.x01 :: enc a ++ list_enc l end.
Fixpoint list_dec `{Codec A} (fuel : nat) (l : bytes) : option (list A * bytes) :=
  match fuel, l with
  | _, Byte.x00 :: l => Some ([], l)
  | S fuel, Byte.x01 :: l =>
      '(a, l) ← dec l; '(k, l) ← list_dec fuel l; Some (a :: k, l)
  | _, _ => None
  end.
Lemma list_dec_enc `{CodecOk A} (l : list A) r fuel :
  length l ≤ fuel → list_dec fuel (list_enc l ++ r) = Some (l, r).
Proof.
  revert fuel; induction l as [|a l IH]; intros [|fuel]; cbn; intros Hf; [done|done|lia|].
  rewrite <-app_assoc, dec_enc. cbn. by rewrite IH by lia.
Qed.
Lemma length_list_enc `{Codec A} (l : list A) : length l ≤ length (list_enc l).
Proof. induction l as [|a l IH]; cbn; [lia|]. rewrite length_app. lia. Qed.
#[export] Instance list_codec `{Codec A} : Codec (list A) := {|
  enc := list_enc;
  dec := λ l, list_dec (length l) l;
|}.
#[export] Instance list_codec_ok `{CodecOk A} : CodecOk (list A).
Proof.
  intros l r. cbn. apply list_dec_enc. rewrite length_app. pose proof (length_list_enc l). lia.
Qed.

Fixpoint vec_dec `{Codec A} (n : nat) (l : bytes) : option (vec A n * bytes) :=
  match n with
  | 0 => Some ([#], l)
  | S n => '(a, l) ← dec l; '(v, l) ← vec_dec n l; Some (a ::: v, l)
  end.
#[export] Instance vec_codec `{Codec A} n : Codec (vec A n) := {|
  enc := λ v, concat (enc <$> vec_to_list v);
  dec := vec_dec n;
|}.
#[export] Instance vec_codec_ok `{CodecOk A} n : CodecOk (vec A n).
Proof.
  intros v r. cbn. induction v as [|a n v IH]; cbn; [done|].
  rewrite <-app_assoc, dec_enc. cbn. by rewrite IH.
Qed.

(** A type in bijection with an encodable one. *)
Definition iso_codec {A B} `{Codec B} (f : A → B) (g : B → A) : Codec A := {|
  enc := λ a, enc (f a);
  dec := λ l, '(b, l) ← dec l; Some (g b, l);
|}.
Lemma iso_codec_ok {A B} `{CodecOk B} (f : A → B) (g : B → A) :
  (∀ a, g (f a) = a) → @CodecOk A (iso_codec f g).
Proof. intros Hgf a r. cbn. by rewrite dec_enc; cbn; rewrite Hgf. Qed.

#[export] Instance string_codec : Codec string :=
  iso_codec String.list_byte_of_string String.string_of_list_byte.
#[export] Instance string_codec_ok : CodecOk string.
Proof. apply iso_codec_ok, String.string_of_list_byte_of_string. Qed.

Definition toy_encode `{Codec A} (x : A) : bytes := enc x.
Definition toy_decode `{Codec A} (l : bytes) : option A :=
  match dec l with Some (x, []) => Some x | _ => None end.
Lemma toy_decode_encode `{CodecOk A} (x : A) : toy_decode (toy_encode x) = Some x.
Proof. unfold toy_decode, toy_encode. rewrite <-(app_nil_r (enc x)). by rewrite dec_enc. Qed.

#[export] Instance toy_postcard : Postcard := {| PcError := (); pc_display := λ _, "postcard" |}.
#[export] Instance toy_wire `{Codec A} : Wire A := {|
  to_allocvec := λ x, Ok (toy_encode x);
  from_bytes := λ b, ok_or (toy_decode b) ();
|}.
#[export] Instance toy_wire_ok `{CodecOk A} : WireOk A.
Proof. intros x b [= <-]. cbn. by rewrite toy_decode_encode. Qed.

#[export] Instance toy_json : Json := {| JsonError := (); json_display := λ _, "json" |}.
#[export] Instance toy_json_wire `{Codec A} : JsonWire A := {|
  json_to_vec := λ x, Ok (toy_encode x);
  json_from_slice := λ b, ok_or (toy_decode b) ();
|}.
#[export] Instance toy_json_wire_ok `{CodecOk A} : JsonWireOk A.
Proof. intros x b [= <-]. cbn. by rewrite toy_decode_encode. Qed.

(** Text in place of base64: the bytes themselves. *)
#[export] Instance toy_base64 : Base64 := {|
  B64Error := ();
  b64_display := λ _, "base64";
  b64_encode := String.string_of_list_byte;
  b64_decode := λ s, Ok (String.list_byte_of_string s);
|}.
#[export] Instance toy_base64_ok : Base64Ok.
Proof. intros bs. apply (f_equal Ok), String.list_byte_of_string_of_list_byte. Qed.

(** Percent encoding. *)
Definition upper_hex (n : Z) : ascii := Ascii.ascii_of_N (Z.to_N (if (n <? 10)%Z then 48 + n else 55 + n)).
Definition upper_val (c : ascii) : Z :=
  let n := Z.of_N (Ascii.N_of_ascii c) in (if n <? 58 then n - 48 else n - 55)%Z.
Fixpoint toy_percent_encode (set : ascii → bool) (s : string) : string :=
  match s with
  | "" => ""
  | String c s =>
      let n := Z.of_N (Ascii.N_of_ascii c) in
      if (n <? 128)%Z && negb (set c) then String c (toy_percent_encode set s)
      else String "%" (String (upper_hex (Z.shiftr n 4)) (String (upper_hex (Z.land n 15)) (toy_percent_encode set s)))
  end.
Fixpoint toy_percent_decode (s : string) : bytes :=
  match s with
  | "" => []
  | String "%" (String a (String b s)) => Ascii.byte_of_ascii (Ascii.ascii_of_N (Z.to_N (upper_val a * 16 + upper_val b))) :: toy_percent_decode s
  | String c s => Ascii.byte_of_ascii c :: toy_percent_decode s
  end.
#[export] Instance toy_percent : Percent := {|
  utf8_percent_encode := toy_percent_encode;
  percent_decode_str := toy_percent_decode;
|}.
#[export] Instance toy_percent_ok : PercentOk.
Proof.
  split.
  - intros set s Hset. cbn [percent_decode_str utf8_percent_encode toy_percent].
    induction s as [|c s IH]; [done|]. cbn [toy_percent_encode].
    change (String.list_byte_of_string (String c s)) with (Ascii.byte_of_ascii c :: String.list_byte_of_string s).
    rewrite <-IH. destruct (_ && _) eqn:Hc.
    + apply andb_true_iff in Hc as [_ Hc]. destruct (decide (c = "%"%char)) as [->|Hne]; [by rewrite Hset in Hc|].
      destruct c as [[] [] [] [] [] [] [] []]; done.
    + clear IH. by destruct c as [[] [] [] [] [] [] [] []].
  - intros set s. cbn [utf8_percent_encode toy_percent]. induction s as [|c s IH]; [constructor|]. cbn [toy_percent_encode].
    assert (Hc : ∀ c s, String.list_ascii_of_string (String c s) = c :: String.list_ascii_of_string s) by done.
    destruct (_ && _) eqn:Hn; rewrite !Hc.
    + constructor; [|done]. unfold percent_char. by rewrite Hn, orb_true_r.
    + do 2 (constructor; [by destruct c as [[] [] [] [] [] [] [] []]|]).
      constructor; [by destruct c as [[] [] [] [] [] [] [] []]|done].
Qed.

(** A logical clock: one more than the last reading; a remote reading more
    than the drift bound ahead is refused. *)
#[export] Instance toy_uhlc : Uhlc := {|
  HLC := Z * Z;
  UhlcID := ();
  uhlc_id := λ _, Some ();
  hlc_build := λ _ delta, (0%Z, delta);
  hlc_new_timestamp := λ c, (c.1 + 1, (c.1 + 1, c.2))%Z;
  hlc_update_with_timestamp := λ c t _,
    if decide (c.1 + c.2 < t)%Z then Err "drift" else Ok (Z.max c.1 t, c.2);
|}.
#[export] Instance toy_uhlc_ok : UhlcOk fst.
Proof. split; cbn; intros; [lia|done| |done]. case_decide; simplify_eq/=. lia. Qed.

(** Two key pairs for the examples. *)
Definition alice : SigningKey := be_vec 32 11.
Definition bob : SigningKey := be_vec 32 22.

End Toy.
