(* ===== verification/Http.v ===== *)
(** * HTTP values

    The status codes, headers and bodies the handlers of [src/net] build with
    [axum]; a response is a value, the routing itself is the framework's. *)

From S2P Require Import Prelude.

Definition OK : Z := 200.
Definition CREATED : Z := 201.
Definition NO_CONTENT : Z := 204.
Definition BAD_REQUEST : Z := 400.
Definition UNAUTHORIZED : Z := 401.
Definition FORBIDDEN : Z := 403.
Definition NOT_FOUND : Z := 404.
Definition CONFLICT : Z := 409.
Definition TOO_MANY_REQUESTS : Z := 429.
Definition INTERNAL_SERVER_ERROR : Z := 500.
Definition NOT_IMPLEMENTED : Z := 501.
Definition SERVICE_UNAVAILABLE : Z := 503.

(** Header names are compared in lower case, as [http] stores them. *)
Record Response : Type := mk_Response {
  resp_status : Z;
  resp_headers : list (string * string);
  resp_body : bytes;
}.

(** [StatusCode::into_response], [(StatusCode, message).into_response()], [octet]. *)
Definition status_response (s : Z) : Response := mk_Response s [] [].
Definition text_response (s : Z) (message : string) : Response :=
  mk_Response s [("content-type", "text/plain; charset=utf-8")] (String.list_byte_of_string message).
Definition octet (body : bytes) : Response :=
  mk_Response OK [("content-type", "application/octet-stream")] body.

(** [headers_mut().insert] of a name the response does not have yet. *)
Definition with_header (r : Response) (name value : string) : Response :=
  mk_Response (resp_status r) (resp_headers r ++ [(name, value)]) (resp_body r).

(** [HeaderMap::get] *)
Fixpoint header (name : string) (headers : list (string * string)) : option string :=
  match headers with
  | [] => None
  | (n, v) :: headers => if decide (n = name) then Some v else header name headers
  end.

(** [str::starts_with] *)
Definition starts_with (pre s : string) : bool := String.prefix pre s.

(** [HeaderValue::to_str]: visible ASCII and tabs. *)
Definition visible_char (c : ascii) : bool :=
  let n := Z.of_N (Ascii.N_of_ascii c) in bool_decide (32 ≤ n < 127)%Z || bool_decide (n = 9)%Z.
Fixpoint header_visible (s : string) : bool :=
  match s with "" => true | String c s => visible_char c && header_visible s end.
Definition header_to_str (v : string) : option string := if header_visible v then Some v else None.
