(* ===== verification/Identity.v ===== *)
(** * Device identity ([src/identity.rs])

    Device ids, the hexadecimal codec every textual id of the program goes
    through, and the signing identity of one device. *)

From stdpp Require Import pretty.
From S2P Require Import Prelude Ordered External.

(** ** Errors ([src/error.rs]) *)

Inductive IdentityError : Type :=
  | InvalidHex
  | InvalidLength (expected got : nat)
  | InvalidScalar
  | InvalidPublicKey
  | BadSignature.

#[export] Instance IdentityError_eq_dec : EqDecision IdentityError.
Proof. solve_decision. Defined.

Definition IdentityError_display (e : IdentityError) : string :=
  match e with
  | InvalidHex => "invalid hex string"
  | InvalidLength expected got =>
      "expected " +:+ pretty expected +:+ " bytes, got " +:+ pretty got
  | InvalidScalar => "invalid P-256 private scalar"
  | InvalidPublicKey => "invalid P-256 public key encoding"
  | BadSignature => "signature verification failed"
  end.

(** ** Hexadecimal *)

(** The table [HEX]. *)
Definition hex_digits : string := "0123456789abcdef".
Definition hex_digit (n : Z) : ascii :=
  default "0"%char (String.get (Z.to_nat n) hex_digits).

Fixpoint encode_hex (bs : bytes) : string :=
  match bs with
  | [] => ""
  | b :: bs =>
      String (hex_digit (Z.shiftr (byte.unsigned b) 4))
        (String (hex_digit (Z.land (byte.unsigned b) 15)) (encode_hex bs))
  end.

(** A byte of a string, as a number. *)
Definition char_code (c : ascii) : Z := Z.of_N (N_of_ascii c).

Definition hex_val (c : ascii) : option Z :=
  let n := char_code c in
  if ((48 <=? n) && (n <=? 57))%Z then Some (n - 48)%Z
  else if ((97 <=? n) && (n <=? 102))%Z then Some (n - 97 + 10)%Z
  else if ((65 <=? n) && (n <=? 70))%Z then Some (n - 65 + 10)%Z
  else None.

(** [chunks_exact(2)] with the per-pair decoding. *)
Fixpoint decode_pairs (s : string) : option bytes :=
  match s with
  | String c1 (String c2 s) =>
      hi ← hex_val c1;
      lo ← hex_val c2;
      rest ← decode_pairs s;
      Some (byte.of_Z (Z.lor (Z.shiftl hi 4) lo) :: rest)
  | _ => Some []
  end.

Definition decode_hex (s : string) : option bytes :=
  if decide (Nat.odd (String.length s)) then None else decode_pairs s.

(** [decode_fixed_hex::<N>] ([src/net/mod.rs]). *)
Definition decode_fixed_hex (n : nat) (s : string) : option (barr n) :=
  bs ← decode_hex s; vec_of_list n bs.

(** ** Device ids *)

Notation DeviceId := (vec Init.Byte.byte 32) (only parsing).

Definition DeviceId_to_hex (d : DeviceId) : string := encode_hex d.

Definition DeviceId_from_hex (s : string) : result IdentityError DeviceId :=
  bs ← ok_or (decode_hex s) InvalidHex;
  ok_or (vec_of_list 32 bs) (InvalidLength 32 (length bs)).

(** ASCII lower case, the canonical form of a hexadecimal string. *)
Definition lower_char (c : ascii) : ascii :=
  let n := char_code c in
  if ((65 <=? n) && (n <=? 90))%Z then ascii_of_N (Z.to_N (n + 32)) else c.
Fixpoint to_ascii_lowercase (s : string) : string :=
  match s with "" => "" | String c s => String (lower_char c) (to_ascii_lowercase s) end.

(** ** Lemmas on the codec *)

Lemma hex_pair_byte b :
  hex_val (hex_digit (Z.shiftr (byte.unsigned b) 4)) = Some (Z.shiftr (byte.unsigned b) 4) ∧
  hex_val (hex_digit (Z.land (byte.unsigned b) 15)) = Some (Z.land (byte.unsigned b) 15) ∧
  byte.of_Z (Z.lor (Z.shiftl (Z.shiftr (byte.unsigned b) 4) 4) (Z.land (byte.unsigned b) 15)) = b.
Proof. destruct b; vm_compute; done. Qed.

Lemma hex_val_range c n : hex_val c = Some n → (0 ≤ n < 16)%Z ∧ hex_digit n = lower_char c.
Proof.
  destruct c as [[] [] [] [] [] [] [] []]; vm_compute; intros [= <-]; done.
Qed.

Lemma hex_val_lower c : hex_val (lower_char c) = hex_val c.
Proof. destruct c as [[] [] [] [] [] [] [] []]; vm_compute; done. Qed.

Lemma hex_byte_nibbles h l :
  (0 ≤ h < 16)%Z → (0 ≤ l < 16)%Z →
  let b := byte.of_Z (Z.lor (Z.shiftl h 4) l) in
  Z.shiftr (byte.unsigned b) 4 = h ∧ Z.land (byte.unsigned b) 15 = l.
Proof.
  intros Hh Hl; cbn zeta.
  assert (h ∈ seqZ 0 16) as Hh' by (apply elem_of_seqZ; lia).
  assert (l ∈ seqZ 0 16) as Hl' by (apply elem_of_seqZ; lia).
  assert (bool_decide (Forall (λ h, Forall (λ l,
    Z.shiftr (byte.unsigned (byte.of_Z (Z.lor (Z.shiftl h 4) l))) 4 = h ∧
    Z.land (byte.unsigned (byte.of_Z (Z.lor (Z.shiftl h 4) l))) 15 = l) (seqZ 0 16)) (seqZ 0 16)) = true)
    as Hall%bool_decide_eq_true_1 by (vm_compute; reflexivity).
  rewrite Forall_forall in Hall. specialize (Hall h Hh').
  rewrite Forall_forall in Hall. exact (Hall l Hl').
Qed.

Lemma length_encode_hex bs : String.length (encode_hex bs) = 2 * length bs.
Proof. induction bs as [|b bs IH]; cbn; [done|]. rewrite IH. lia. Qed.

Lemma decode_pairs_encode bs : decode_pairs (encode_hex bs) = Some bs.
Proof.
  induction bs as [|b bs IH]; [done|]. destruct (hex_pair_byte b) as (Hhi & Hlo & Hb).
  cbn [encode_hex decode_pairs]. rewrite Hhi, Hlo. cbn. by rewrite IH, Hb.
Qed.

Lemma decode_hex_encode bs : decode_hex (encode_hex bs) = Some bs.
Proof.
  unfold decode_hex. rewrite length_encode_hex, Nat.odd_mul. cbn. apply decode_pairs_encode.
Qed.

(** Induction two characters at a time. *)
Lemma string_ind2 (P : string → Prop) :
  P "" → (∀ c, P (String c "")) → (∀ c d s, P s → P (String c (String d s))) → ∀ s, P s.
Proof.
  intros H0 H1 H2 s. enough (P s ∧ ∀ c, P (String c s)) by naive_solver.
  induction s as [|c s [IH1 IH2]]; split; auto.
Qed.

Lemma decode_pairs_some s bs :
  Nat.even (String.length s) = true →
  decode_pairs s = Some bs ↔ to_ascii_lowercase s = encode_hex bs.
Proof.
  revert bs; induction s as [|c|c d s IH] using string_ind2; intros bs Heven; cbn in Heven; [| done |].
  - destruct bs; cbn; naive_solver.
  - cbn [decode_pairs to_ascii_lowercase]. split.
    + intros (h & Hc & (l & Hd & (rest & Hs & [= <-])%bind_Some)%bind_Some)%bind_Some.
      apply IH in Hs as ->; [|done]. cbn [encode_hex].
      apply hex_val_range in Hc as [Hh <-]. apply hex_val_range in Hd as [Hl <-].
      by destruct (hex_byte_nibbles h l Hh Hl) as [-> ->].
    + destruct bs as [|b bs]; cbn [encode_hex]; [done|]. intros [= Hc Hd Hs].
      destruct (hex_pair_byte b) as (Hhi & Hlo & Hb).
      rewrite <-Hc, hex_val_lower in Hhi. rewrite <-Hd, hex_val_lower in Hlo.
      rewrite Hhi, Hlo. cbn. apply IH in Hs as ->; [|done]. cbn. by rewrite Hb.
Qed.

Lemma length_to_ascii_lowercase s : String.length (to_ascii_lowercase s) = String.length s.
Proof. induction s; cbn; congruence. Qed.

Lemma decode_hex_some s bs :
  decode_hex s = Some bs ↔ to_ascii_lowercase s = encode_hex bs.
Proof.
  unfold decode_hex. case_decide as Hodd.
  - split; [done|]. intros Heq%(f_equal String.length).
    rewrite length_to_ascii_lowercase, length_encode_hex in Heq.
    rewrite Heq, Nat.odd_mul in Hodd. done.
  - apply decode_pairs_some. rewrite <-Nat.negb_odd. by destruct (Nat.odd _).
Qed.

Lemma decode_fixed_hex_encode n (v : barr n) : decode_fixed_hex n (encode_hex v) = Some v.
Proof. unfold decode_fixed_hex. rewrite decode_hex_encode. cbn. apply vec_of_list_to_list. Qed.

Lemma encode_hex_inj : Inj (=) (=) encode_hex.
Proof. intros b1 b2 Heq%(f_equal decode_hex). rewrite !decode_hex_encode in Heq. by simplify_eq. Qed.

(** ** The signing identity *)

Section identity.
Context `{Crypto}.

Definition sec1_compressed (key : VerifyingKey) : barr 33 := vk_to_sec1 key.

Definition device_id_of (key : VerifyingKey) : DeviceId := sha256 (sec1_compressed key).

(** [DeviceIdentity::device_id_of_key] *)
Definition device_id_of_key (pubkey : VerifyingKey) : DeviceId := device_id_of pubkey.

(** [DeviceIdentity::device_id_from_sec1] *)
Definition device_id_from_sec1 (sec1 : barr 33) : result IdentityError DeviceId :=
  verifying ← ok_or (vk_from_sec1 sec1) InvalidPublicKey;
  Ok (device_id_of verifying).

Record DeviceIdentity : Type := {
  signing : SigningKey;
  verifying : VerifyingKey;
  device_id : DeviceId;
}.

Definition from_signing (s : SigningKey) : DeviceIdentity := {|
  signing := s;
  verifying := sk_verifying_key s;
  device_id := device_id_of (sk_verifying_key s);
|}.

(** [DeviceIdentity::import_raw], [DeviceIdentity::export_raw]. *)
Definition import_raw (scalar : barr 32) : result IdentityError DeviceIdentity :=
  signing ← ok_or (sk_from_slice scalar) InvalidScalar;
  Ok (from_signing signing).
Definition export_raw (i : DeviceIdentity) : barr 32 := sk_to_bytes (signing i).

Definition public_key_sec1 (i : DeviceIdentity) : barr 33 := sec1_compressed (verifying i).

(** [DeviceIdentity::sign], [DeviceIdentity::verify]. *)
Definition identity_sign (i : DeviceIdentity) (msg : bytes) : Signature := sk_sign (signing i) msg.
Definition identity_verify (pubkey : VerifyingKey) (msg : bytes) (sig : Signature)
    : result IdentityError () :=
  if vk_verify pubkey msg sig then Ok () else Err BadSignature.

(** The identities the constructors build: the public half and the id are
    derived from the private half. *)
Definition identity_wf (i : DeviceIdentity) : Prop := i = from_signing (signing i).

Lemma from_signing_wf s : identity_wf (from_signing s).
Proof. done. Qed.

Lemma identity_wf_verifying i :
  identity_wf i → verifying i = sk_verifying_key (signing i) ∧
                  device_id i = device_id_of_key (verifying i).
Proof. intros ->. done. Qed.

(** The verified core of every signature check: [normalize_s] then [verify]. *)
Lemma sign_low_verifies `{!CryptoOk} i msg :
  identity_wf i →
  let sig := default (identity_sign i msg) (normalize_s (identity_sign i msg)) in
  identity_verify (verifying i) msg sig = Ok () ∧ normalize_s sig = None.
Proof.
  intros [Hv _]%identity_wf_verifying; cbn zeta. unfold identity_verify.
  destruct (normalize_s (identity_sign i msg)) as [s|] eqn:Hn; cbn.
  - rewrite (normalize_s_verify _ _ _ _ Hn), Hv. unfold identity_sign.
    rewrite sign_verifies. eauto using normalize_s_low.
  - rewrite Hv. unfold identity_sign. by rewrite sign_verifies.
Qed.

Lemma device_id_from_sec1_key `{!CryptoOk} key :
  device_id_from_sec1 (sec1_compressed key) = Ok (device_id_of_key key).
Proof. unfold device_id_from_sec1, sec1_compressed. by rewrite sec1_roundtrip. Qed.
End identity.
