(* ===== verification/Text.v ===== *)
(** * Strings and addresses of the standard library

    The [str] and [std::net] operations the components call, over UTF-8 text as
    a string of bytes. *)

From stdpp Require Import pretty.
From S2P Require Import Prelude Identity.

(** ** Searching and splitting *)

(** [strip_prefix], [strip_suffix], [contains(char)]. *)
Fixpoint strip_prefix (pre s : string) : option string :=
  match pre, s with
  | "", _ => Some s
  | String c pre, String d s => if decide (c = d) then strip_prefix pre s else None
  | String _ _, "" => None
  end.
Fixpoint strip_suffix (suf s : string) : option string :=
  if decide (s = suf) then Some ""
  else match s with
       | "" => None
       | String c s => String c <$> strip_suffix suf s
       end.
Fixpoint contains_char (c : ascii) (s : string) : bool :=
  match s with "" => false | String d s => bool_decide (d = c) || contains_char c s end.
Fixpoint count_char (c : ascii) (s : string) : nat :=
  match s with "" => 0 | String d s => (if decide (d = c) then 1 else 0) + count_char c s end.
Fixpoint all_chars (P : ascii → bool) (s : string) : bool :=
  match s with "" => true | String c s => P c && all_chars P s end.

(** [split_once(char)], [rsplit_once(char)], [split(char)]. *)
Fixpoint split_once (c : ascii) (s : string) : option (string * string) :=
  match s with
  | "" => None
  | String d s =>
      if decide (d = c) then Some ("", s)
      else '(a, b) ← split_once c s; Some (String d a, b)
  end.
Fixpoint rsplit_once (c : ascii) (s : string) : option (string * string) :=
  match s with
  | "" => None
  | String d s =>
      match rsplit_once c s with
      | Some (a, b) => Some (String d a, b)
      | None => if decide (d = c) then Some ("", s) else None
      end
  end.
Fixpoint split (c : ascii) (s : string) : list string :=
  match s with
  | "" => [""]
  | String d s =>
      if decide (d = c) then "" :: split c s
      else match split c s with
           | [] => [String d ""]
           | x :: xs => String d x :: xs
           end
  end.

(** [starts_with], [ends_with]. *)
Definition starts_with (pre s : string) : bool := bool_decide (is_Some (strip_prefix pre s)).
Definition ends_with (suf s : string) : bool := bool_decide (is_Some (strip_suffix suf s)).

(** [eq_ignore_ascii_case] *)
Definition eq_ignore_ascii_case (a b : string) : bool :=
  bool_decide (to_ascii_lowercase a = to_ascii_lowercase b).

(** [trim_start_matches(char)], [trim_end_matches(char)]. *)
Fixpoint trim_start_char (c : ascii) (s : string) : string :=
  match s with
  | "" => ""
  | String d rest => if decide (d = c) then trim_start_char c rest else s
  end.
Fixpoint trim_end_char (c : ascii) (s : string) : string :=
  match s with
  | "" => ""
  | String d rest =>
      let rest := trim_end_char c rest in
      if decide (rest = "" ∧ d = c) then "" else String d rest
  end.

(** ** [trim]: the code points of Unicode's White_Space, in UTF-8 *)

Definition utf8 (bs : list Z) : string :=
  foldr (λ b s, String (ascii_of_N (Z.to_N b)) s) "" bs.
Definition white_space : list string :=
  utf8 <$> ([[9]; [10]; [11]; [12]; [13]; [32]; [194; 133]; [194; 160]; [225; 154; 128]]%Z
            ++ ((λ z, [226; 128; z]%Z) <$> (seqZ 128 11 ++ [168; 169; 175]%Z))
            ++ [[226; 129; 159]; [227; 128; 128]]%Z).

Definition strip_white_start (s : string) : option string :=
  foldr (λ w r, match strip_prefix w s with Some rest => Some rest | None => r end) None white_space.
Definition strip_white_end (s : string) : option string :=
  foldr (λ w r, match strip_suffix w s with Some rest => Some rest | None => r end) None white_space.

Fixpoint trim_start_fuel (fuel : nat) (s : string) : string :=
  match fuel with
  | 0 => s
  | S fuel => match strip_white_start s with Some rest => trim_start_fuel fuel rest | None => s end
  end.
Fixpoint trim_end_fuel (fuel : nat) (s : string) : string :=
  match fuel with
  | 0 => s
  | S fuel => match strip_white_end s with Some rest => trim_end_fuel fuel rest | None => s end
  end.
Definition trim (s : string) : string :=
  let s := trim_start_fuel (String.length s) s in trim_end_fuel (String.length s) s.

(** ** Numbers *)

Definition digit_val (c : ascii) : option Z :=
  let n := char_code c in if ((48 <=? n) && (n <=? 57))%Z then Some (n - 48)%Z else None.
Definition is_ascii_digit (c : ascii) : bool := bool_decide (is_Some (digit_val c)).

(** Digits, left to right, up to a bound the result must stay under. *)
Fixpoint parse_digits (modulus acc : Z) (s : string) : option Z :=
  match s with
  | "" => Some acc
  | String c s =>
      d ← digit_val c;
      let acc := (acc * 10 + d)%Z in
      if decide (acc < modulus)%Z then parse_digits modulus acc s else None
  end.
(** [str::parse::<u64>] and the like: an optional [+], then digits. *)
Definition parse_unsigned (modulus : Z) (s : string) : option Z :=
  match s with
  | "" => None
  | String "+" rest => match rest with "" => None | _ => parse_digits modulus 0 rest end
  | _ => parse_digits modulus 0 s
  end.
Definition parse_u64 (s : string) : option Z := parse_unsigned u64_modulus s.
Definition parse_u16 (s : string) : option Z := parse_unsigned 65536 s.

(** ** [std::net]: the address parser *)

Inductive IpAddr : Type :=
  | V4 (a b c d : Z)
  | V6 (segments : list Z).

(** [Parser::read_number] within [max_digits]; the digits read and the rest. *)
Fixpoint read_digits (radix : Z) (val : ascii → option Z) (max : nat) (bound : Z) (acc : Z) (count : nat)
    (s : string) : option (Z * nat * string) :=
  match s with
  | "" => Some (acc, count, "")
  | String c rest =>
      match val c with
      | None => Some (acc, count, s)
      | Some d =>
          match max with
          | 0 => None
          | S max =>
              let acc := (acc * radix + d)%Z in
              if decide (acc < bound)%Z then read_digits radix val max bound acc (S count) rest else None
          end
      end
  end.
Definition read_number (radix : Z) (val : ascii → option Z) (max : nat) (bound : Z) (allow_zero_prefix : bool)
    (s : string) : option (Z * string) :=
  '(n, count, rest) ← read_digits radix val max bound 0 0 s;
  if decide (count = 0) then None
  else if negb allow_zero_prefix && bool_decide (1 < count) && starts_with "0" s
  then None else Some (n, rest).

(** [Parser::read_separator]: the separator comes before every item but the first. *)
Definition read_separator {A} (sep : ascii) (index : nat) (read : string → option (A * string)) (s : string)
    : option (A * string) :=
  if decide (index = 0) then read s
  else match s with
       | "" => None
       | String c s => if decide (c = sep) then read s else None
       end.

Definition read_octet (i : nat) (s : string) : option (Z * string) :=
  read_separator "."%char i (read_number 10 digit_val 3 256 false) s.
Definition read_ipv4_addr (s : string) : option (Z * Z * Z * Z * string) :=
  '(a, s) ← read_octet 0 s; '(b, s) ← read_octet 1 s; '(c, s) ← read_octet 2 s; '(d, s) ← read_octet 3 s;
  Some (a, b, c, d, s).

(** [read_groups] into the [left] slots left after [index]: the groups, whether
    an embedded IPv4 address ended them, and the rest. *)
Fixpoint read_groups (left index : nat) (s : string) : list Z * bool * string :=
  match left with
  | 0 => ([], false, s)
  | S left' =>
      match (if decide (2 ≤ left)
             then read_separator ":"%char index
                    (λ s, '(a, b, c, d, s) ← read_ipv4_addr s; Some ([a * 256 + b; c * 256 + d]%Z, s)) s
             else None) with
      | Some (groups, s) => (groups, true, s)
      | None =>
          match read_separator ":"%char index (read_number 16 hex_val 4 65536 true) s with
          | None => ([], false, s)
          | Some (g, s) => let '(groups, v4, s) := read_groups left' (S index) s in (g :: groups, v4, s)
          end
      end
  end.

Definition read_ipv6_addr (s : string) : option (list Z * string) :=
  let '(head, head_ipv4, s) := read_groups 8 0 s in
  if decide (length head = 8) then Some (head, s)
  else if head_ipv4 : bool then None
  else
    s ← strip_prefix "::" s;
    let '(tail, _, s) := read_groups (8 - (length head + 1)) 0 s in
    Some (head ++ replicate (8 - length head - length tail) 0%Z ++ tail, s).

(** [parse_with]: the whole input is consumed. *)
Definition parse_whole {A} (read : string → option (A * string)) (s : string) : option A :=
  '(a, rest) ← read s; if decide (rest = "") then Some a else None.
Definition parse_ipv6 (s : string) : option (list Z) := parse_whole read_ipv6_addr s.
Definition read_ip_addr (s : string) : option (IpAddr * string) :=
  match read_ipv4_addr s with
  | Some (a, b, c, d, rest) => Some (V4 a b c d, rest)
  | None => '(segments, rest) ← read_ipv6_addr s; Some (V6 segments, rest)
  end.
Definition parse_ip (s : string) : option IpAddr := parse_whole read_ip_addr s.

(** [IpAddr::is_loopback] *)
Definition ip_is_loopback (ip : IpAddr) : bool :=
  match ip with
  | V4 a _ _ _ => bool_decide (a = 127)%Z
  | V6 segments => bool_decide (segments = [0; 0; 0; 0; 0; 0; 0; 1]%Z)
  end.

(** ** Lemmas *)

Lemma append_nil_r s : s +:+ "" = s.
Proof. induction s as [|c s IH]; [done|]. change (String c s +:+ "") with (String c (s +:+ "")). by rewrite IH. Qed.
Lemma append_cons c s t : String c s +:+ t = String c (s +:+ t).
Proof. done. Qed.
Lemma append_assoc s t u : (s +:+ t) +:+ u = s +:+ (t +:+ u).
Proof. induction s as [|c s IH]; [done|]. by rewrite !append_cons, IH. Qed.

Lemma strip_prefix_some pre s rest : strip_prefix pre s = Some rest ↔ s = pre +:+ rest.
Proof.
  revert s; induction pre as [|c pre IH]; intros s; cbn [strip_prefix]; [naive_solver|].
  destruct s as [|d s]; [done|]. rewrite append_cons. case_decide; subst.
  - rewrite IH. naive_solver.
  - split; [done|]. by intros [= -> _].
Qed.

Lemma strip_suffix_some suf s rest : strip_suffix suf s = Some rest → s = rest +:+ suf.
Proof.
  revert rest; induction s as [|c s IH]; intros rest; cbn [strip_suffix]; case_decide as Hd; subst; try done.
  - by intros [= <-].
  - by intros [= <-].
  - intros (r & Hr & ->)%fmap_Some. rewrite append_cons. by rewrite (IH _ Hr).
Qed.

Lemma split_once_some c s a b :
  split_once c s = Some (a, b) → s = a +:+ String c b ∧ contains_char c a = false.
Proof.
  revert a; induction s as [|d s IH]; intros a; cbn [split_once]; [done|]. case_decide as Hd; subst.
  - intros [= <- <-]. done.
  - intros ([a' b'] & Hs & [= <- <-])%bind_Some. destruct (IH _ Hs) as [-> Hc]. cbn.
    by rewrite append_cons, bool_decide_eq_false_2, Hc.
Qed.

Lemma split_once_none c s : split_once c s = None ↔ contains_char c s = false.
Proof.
  induction s as [|d s IH]; cbn; [done|]. case_decide as Hd; subst.
  - by rewrite bool_decide_eq_true_2.
  - rewrite bool_decide_eq_false_2 by done. cbn. rewrite <-IH. destruct (split_once c s) as [[]|]; done.
Qed.

Lemma rsplit_once_some c s a b :
  rsplit_once c s = Some (a, b) → s = a +:+ String c b ∧ contains_char c b = false.
Proof.
  revert a; induction s as [|d s IH]; intros a; cbn [rsplit_once]; [done|].
  destruct (rsplit_once c s) as [[a' b']|] eqn:Hs.
  - intros [= <- <-]. destruct (IH _ eq_refl) as [-> Hc]. by rewrite append_cons.
  - case_decide; [|done]. subst d. intros [= <- <-]. split; [done|]. clear IH. revert Hs.
    induction s as [|e s IHs]; cbn; [done|]. destruct (rsplit_once c s) as [[]|]; [done|].
    case_decide; [done|]. intros _. rewrite bool_decide_eq_false_2 by done. by apply IHs.
Qed.

Lemma rsplit_once_none c s : rsplit_once c s = None → contains_char c s = false.
Proof.
  induction s as [|d s IH]; cbn; [done|]. destruct (rsplit_once c s) as [[]|]; [done|].
  case_decide; [done|]. intros _. rewrite bool_decide_eq_false_2 by done. by apply IH.
Qed.

Lemma split_once_app c a b : contains_char c a = false → split_once c (a +:+ String c b) = Some (a, b).
Proof.
  induction a as [|d a IH]; [intros _; change ("" +:+ String c b) with (String c b); cbn [split_once]; by rewrite decide_True|].
  rewrite append_cons. cbn [contains_char split_once].
  intros [Hd%bool_decide_eq_false Ha]%orb_false_iff. rewrite decide_False by done. by rewrite IH.
Qed.

Lemma contains_char_app c a b : contains_char c (a +:+ b) = contains_char c a || contains_char c b.
Proof. induction a as [|d a IH]; [done|]. rewrite append_cons. cbn. by rewrite IH, orb_assoc. Qed.

Lemma trim_end_char_suffix c s : ∃ n, s = trim_end_char c s +:+ foldr (λ _ r, String c r) "" (replicate n ()).
Proof.
  induction s as [|d s [n IH]]; cbn [trim_end_char]; [by exists 0|]. case_decide as Hd.
  - destruct Hd as [Hr ->]. exists (S n). rewrite Hr in IH. cbn. by rewrite IH at 1.
  - exists n. rewrite append_cons. by rewrite <-IH.
Qed.

Lemma trim_end_char_idem c s : trim_end_char c (trim_end_char c s) = trim_end_char c s.
Proof.
  induction s as [|d s IH]; [done|]. cbn [trim_end_char]. case_decide as Hd; [done|]. cbn [trim_end_char].
  by rewrite IH, decide_False.
Qed.

(** Decimal digits are read back. *)
Lemma parse_digits_bound modulus acc s n : parse_digits modulus acc s = Some n → (0 ≤ acc < modulus)%Z → (0 ≤ n < modulus)%Z.
Proof.
  revert acc; induction s as [|c s IH]; intros acc; cbn [parse_digits]; [naive_solver|].
  intros (d & Hd & Hrest)%bind_Some Hacc. case_decide; [|done]. apply (IH _ Hrest). split; [|done].
  unfold digit_val in Hd. case_match eqn:He; [|done]. injection Hd as <-. apply andb_true_iff in He as [He _].
  apply Z.leb_le in He. lia.
Qed.

(** ** Printed numbers are parsed back *)

Lemma digit_val_char d : (d < 10)%N → digit_val (pretty_N_char d) = Some (Z.of_N d).
Proof.
  intros Hd. assert (d ∈ [0; 1; 2; 3; 4; 5; 6; 7; 8; 9]%N) as Hin.
  { assert (∃ k, d = N.of_nat k ∧ k < 10) as (k & -> & Hk) by (exists (N.to_nat d); lia).
    do 10 (destruct k as [|k]; [set_solver|]). lia. }
  repeat (apply elem_of_cons in Hin as [->|Hin]; [vm_compute; reflexivity|]). by apply elem_of_nil in Hin.
Qed.

Lemma pretty_go_digits x s : all_chars is_ascii_digit s = true → all_chars is_ascii_digit (pretty_N_go x s) = true.
Proof.
  revert s; induction (N.lt_wf_0 x) as [x _ IH]; intros s Hs.
  destruct (decide (0 < x)%N) as [Hx|Hx]; [|by replace x with 0%N by lia].
  rewrite pretty_N_go_step by done. apply IH; [apply N.div_lt; lia|]. cbn [all_chars]. rewrite Hs, andb_true_r.
  unfold is_ascii_digit. rewrite digit_val_char by (apply N.mod_lt; lia). done.
Qed.

Lemma parse_digits_pretty modulus x s :
  (0 < x)%N → (Z.of_N x < modulus)%Z → parse_digits modulus 0 (pretty_N_go x s) = parse_digits modulus (Z.of_N x) s.
Proof.
  revert s; induction (N.lt_wf_0 x) as [x _ IH]; intros s Hx Hm. rewrite pretty_N_go_step by done.
  assert (Hd : parse_digits modulus (Z.of_N (x / 10)) (String (pretty_N_char (x mod 10)) s) =
    parse_digits modulus (Z.of_N x) s).
  { cbn [parse_digits]. rewrite digit_val_char by (apply N.mod_lt; lia). cbn [mbind option_bind].
    replace (Z.of_N (x / 10) * 10 + Z.of_N (x mod 10))%Z with (Z.of_N x)
      by (pose proof (N.div_mod' x 10); lia). by rewrite decide_True. }
  destruct (decide (0 < x / 10)%N) as [Hq|Hq].
  - rewrite IH; [exact Hd|apply N.div_lt; lia|done|]. pose proof (N.Div0.div_le_mono x (10 * x) 10). pose proof (N.div_lt x 10). lia.
  - apply N.nlt_ge, N.le_0_r in Hq. rewrite Hq in *. rewrite pretty_N_go_0. exact Hd.
Qed.

Lemma parse_unsigned_digits modulus s :
  s ≠ "" → all_chars is_ascii_digit s = true → parse_unsigned modulus s = parse_digits modulus 0 s.
Proof.
  intros Hne Hd. destruct s as [|c s]; [done|]. cbn [all_chars] in Hd. apply andb_true_iff in Hd as [Hc _].
  cbn [parse_unsigned]. repeat (case_match; try done); exfalso; subst; vm_compute in Hc; done.
Qed.

Lemma parse_unsigned_pretty modulus z :
  (0 ≤ z < modulus)%Z → parse_unsigned modulus (pretty z) = Some z ∧ all_chars is_ascii_digit (pretty z) = true.
Proof.
  intros Hz. destruct z as [|p|p]; [|change (pretty (Zpos p)) with (pretty_N_go (Npos p) "")|lia].
  - change (pretty 0%Z) with "0". split; [|done]. rewrite parse_unsigned_digits by done. cbn [parse_digits].
    change (digit_val "0") with (Some 0%Z). cbn [mbind option_bind]. by rewrite decide_True by lia.
  - assert (Hd : all_chars is_ascii_digit (pretty_N_go (N.pos p) "") = true) by (by apply pretty_go_digits).
    split; [|done]. rewrite parse_unsigned_digits; [|intros He|done].
    + by rewrite parse_digits_pretty by lia.
    + assert (Hp := parse_digits_pretty modulus (Npos p) "" ltac:(lia) ltac:(lia)). rewrite He in Hp. cbn in Hp. done.
Qed.

Lemma digits_not_char c s : is_ascii_digit c = false → all_chars is_ascii_digit s = true → contains_char c s = false.
Proof.
  intros Hc. induction s as [|d s IH]; [done|]. cbn [all_chars contains_char]. intros [Hd Hs]%andb_true_iff.
  rewrite IH by done. rewrite orb_false_r. apply bool_decide_eq_false. intros ->. congruence.
Qed.
