(* ===== verification/Words.v ===== *)
(** * Words and characters of the standard library

    [str::split_whitespace], [char]s of UTF-8 text, joins, and the sorts the
    components call. *)

From S2P Require Import Prelude Identity Text.

(** ** Whitespace and words *)

(** The white-space sequence at the head of a string. *)
Definition white_at (s : string) : option string := List.find (λ w, starts_with w s) white_space.

(** [contains(char::is_whitespace)] *)
Fixpoint contains_white (s : string) : bool :=
  match s with
  | "" => false
  | String _ rest => bool_decide (is_Some (white_at s)) || contains_white rest
  end.

(** [str::split_whitespace]: [skip] bytes of a separator are left to pass, and
    [word] is the word so far. *)
Definition emit (word : string) : list string := if decide (word = "") then [] else [word].
Fixpoint split_white (skip : nat) (word s : string) : list string :=
  match s with
  | "" => emit word
  | String c rest =>
      match skip with
      | S skip => split_white skip word rest
      | 0 =>
          match white_at s with
          | Some w => emit word ++ split_white (String.length w - 1) "" rest
          | None => split_white 0 (word +:+ String c "") rest
          end
      end
  end.
Definition split_whitespace (s : string) : list string := split_white 0 "" s.

(** [slice::join] *)
Fixpoint join (sep : string) (l : list string) : string :=
  match l with
  | [] => ""
  | [x] => x
  | x :: l => x +:+ sep +:+ join sep l
  end.

(** [chars().count()]: the bytes that are not continuations. *)
Fixpoint char_count (s : string) : nat :=
  match s with
  | "" => 0
  | String c s => (if ((128 <=? char_code c) && (char_code c <? 192))%Z then 0 else 1) + char_count s
  end.

(** The part before the first of some characters ([split([..]).next()]). *)
Fixpoint until_chars (stop : ascii → bool) (s : string) : string :=
  match s with
  | "" => ""
  | String c rest => if stop c then "" else String c (until_chars stop rest)
  end.

Definition is_ascii_lowercase (c : ascii) : bool := ((97 <=? char_code c) && (char_code c <=? 122))%Z.
Definition is_ascii_uppercase (c : ascii) : bool := ((65 <=? char_code c) && (char_code c <=? 90))%Z.
Definition is_ascii_alphanumeric (c : ascii) : bool :=
  is_ascii_lowercase c || is_ascii_uppercase c || is_ascii_digit c.

(** [slice::sort_by] and [sort_by_key]: stable, by a total preorder. *)
Section sort.
Context {A : Type} (leb : A → A → bool).
Fixpoint insert_by (x : A) (l : list A) : list A :=
  match l with
  | [] => [x]
  | y :: l' => if leb x y then x :: l else y :: insert_by x l'
  end.
Definition sort_by (l : list A) : list A := foldr insert_by [] l.

Lemma insert_by_perm x l : insert_by x l ≡ₚ x :: l.
Proof. induction l as [|y l IH]; cbn; [done|]. case_match; [done|]. rewrite IH. apply Permutation_swap. Qed.
Lemma sort_by_perm l : sort_by l ≡ₚ l.
Proof. induction l as [|x l IH]; cbn; [done|]. by rewrite insert_by_perm, IH. Qed.

Context (Htotal : ∀ x y, leb x y = true ∨ leb y x = true) (Htrans : ∀ x y z, leb x y = true → leb y z = true → leb x z = true).
Lemma insert_by_sorted x l :
  StronglySorted (λ a b, leb a b = true) l → StronglySorted (λ a b, leb a b = true) (insert_by x l).
Proof.
  induction 1 as [|y l Hl IH Hy]; cbn; [by repeat constructor|]. destruct (leb x y) eqn:Hd.
  - constructor; [by constructor|]. constructor; [done|]. eapply Forall_impl; [exact Hy|]. intros z. by apply Htrans.
  - constructor; [done|]. rewrite insert_by_perm. constructor; [|done]. destruct (Htotal x y); [congruence|done].
Qed.
Lemma sort_by_sorted l : StronglySorted (λ a b, leb a b = true) (sort_by l).
Proof. induction l as [|x l IH]; cbn; [constructor|]. by apply insert_by_sorted. Qed.
End sort.

(** ** White space does not span a space *)

(** No white-space sequence has a space after its first byte, and none is empty. *)
Definition white_inner (w : string) : bool :=
  match w with "" => false | String _ rest => negb (contains_char " "%char rest) end.
Lemma white_space_inner w : w ∈ white_space → white_inner w = true.
Proof.
  revert w. refine (proj1 (Forall_forall (λ w, white_inner w = true) white_space) _).
  apply (bool_decide_unpack _). vm_compute. exact I.
Qed.
(** A sequence with a space is the space. *)
Lemma white_space_blank w : w ∈ white_space → contains_char " "%char w = true → w = " ".
Proof.
  revert w. refine (proj1 (Forall_forall (λ w, contains_char " "%char w = true → w = " ") white_space) _).
  apply (bool_decide_unpack _). vm_compute. exact I.
Qed.

Lemma white_at_some s w : white_at s = Some w → w ∈ white_space ∧ ∃ rest, s = w +:+ rest.
Proof.
  unfold white_at. intros [Hin Hp]%find_some. split; [by apply list_elem_of_In|].
  apply bool_decide_eq_true in Hp as [rest Hr]. exists rest. by apply strip_prefix_some.
Qed.
Lemma white_at_prefix w rest : w ∈ white_space → is_Some (white_at (w +:+ rest)).
Proof.
  intros Hw. unfold white_at. destruct (List.find _ white_space) as [w'|] eqn:Hf; [by eexists|].
  pose proof (find_none _ _ Hf w (proj1 (list_elem_of_In _ _) Hw)) as Hn. exfalso. revert Hn. unfold starts_with.
  rewrite bool_decide_eq_false. intros Hn. apply Hn. exists rest. by apply strip_prefix_some.
Qed.

(** Two splittings of one string. *)
Lemma append_split a b c d : a +:+ b = c +:+ d →
  (∃ r, a = c +:+ r ∧ d = r +:+ b) ∨ (∃ r, r ≠ "" ∧ c = a +:+ r ∧ b = r +:+ d).
Proof.
  revert c; induction a as [|x a IH]; intros c Heq.
  - destruct c as [|y c]; [left; exists ""; by split|right; by exists (String y c)].
  - destruct c as [|y c]; [left; by exists (String x a)|]. rewrite !append_cons in Heq. injection Heq as -> Heq.
    destruct (IH _ Heq) as [(r & -> & ->)|(r & Hr & -> & ->)]; [left; by exists r|right; by exists r].
Qed.

Lemma white_at_app a b w : white_at a = Some w → is_Some (white_at (a +:+ b)).
Proof. intros (Hw & rest & ->)%white_at_some. rewrite append_assoc. by apply white_at_prefix. Qed.

Lemma white_at_space a b : a ≠ "" → is_Some (white_at (a +:+ String " " b)) → is_Some (white_at a).
Proof.
  intros Hne [w (Hw & rest & Heq)%white_at_some]. destruct (append_split _ _ _ _ Heq) as [(r & -> & _)|(r & Hr & -> & Hb)].
  - by apply white_at_prefix.
  - exfalso. apply white_space_inner in Hw. destruct a as [|c a]; [done|]. rewrite append_cons in Hw. cbn in Hw.
    destruct r as [|d r]; [done|]. rewrite append_cons in Hb. injection Hb as <- _.
    rewrite contains_char_app in Hw. cbn in Hw. by rewrite orb_true_r in Hw.
Qed.

(** A string has no white space when no suffix starts with one. *)
Lemma white_free_iff s : contains_white s = false ↔ ∀ a x, s = a +:+ x → x ≠ "" → white_at x = None.
Proof.
  induction s as [|c s IH].
  - split; [|done]. intros _ a x Heq Hx. destruct a, x; done.
  - cbn [contains_white]. rewrite orb_false_iff, IH, bool_decide_eq_false, <-eq_None_not_Some. split.
    + intros [Hc Hs] [|d a] x Heq Hx; [change ("" +:+ x) with x in Heq; by subst x|]. rewrite append_cons in Heq. injection Heq as <- Heq. by eapply Hs.
    + intros Hall. split; [by apply (Hall "")|]. intros a x -> Hx. by apply (Hall (String c a)).
Qed.

Definition word_ok (w : string) : Prop := w ≠ "" ∧ contains_white w = false.

Lemma split_white_end acc w : contains_white w = false → split_white 0 acc w = emit (acc +:+ w).
Proof.
  revert acc; induction w as [|c w IH]; intros acc; cbn [contains_white split_white]; [by rewrite append_nil_r|].
  intros [Hn%bool_decide_eq_false Hw]%orb_false_iff. apply eq_None_not_Some in Hn. rewrite Hn, IH by done.
  by rewrite append_assoc.
Qed.

Lemma split_white_space acc w s :
  contains_white w = false → split_white 0 acc (w +:+ String " " s) = emit (acc +:+ w) ++ split_white 0 "" s.
Proof.
  revert acc; induction w as [|c w IH]; intros acc Hw.
  - rewrite append_nil_r. change ("" +:+ String " " s) with (String " " s). cbn [split_white].
    assert (Hs : white_at (String " " s) = Some " ").
    { destruct (white_at_prefix " " s) as [w Hw']; [apply list_elem_of_In; vm_compute; tauto|].
      change (" " +:+ s) with (String " " s) in Hw'. rewrite Hw'. f_equal.
      apply white_at_some in Hw' as (Hin & rest & Heq). apply white_space_blank; [done|].
      pose proof (white_space_inner _ Hin) as Hi. destruct w as [|d w]; [done|]. rewrite append_cons in Heq.
      by injection Heq as <- _. }
    by rewrite Hs.
  - rewrite append_cons. cbn [split_white]. cbn [contains_white] in Hw.
    apply orb_false_iff in Hw as [Hn%bool_decide_eq_false Hw].
    destruct (white_at (String c (w +:+ String " " s))) as [x|] eqn:Hx.
    + exfalso. apply Hn, (white_at_space (String c w) s); [done|]. rewrite append_cons. by eexists.
    + rewrite IH by done. by rewrite append_assoc.
Qed.

(** Words joined by spaces are split again. *)
Lemma split_whitespace_join words : Forall word_ok words → split_whitespace (join " " words) = words.
Proof.
  unfold split_whitespace. induction 1 as [|w words [Hne Hw] Hall IH]; [done|]. destruct words as [|w' words].
  - cbn [join]. rewrite split_white_end by done. cbn. unfold emit. by rewrite decide_False.
  - change (join " " (w :: w' :: words)) with (w +:+ String " " (join " " (w' :: words))).
    rewrite split_white_space, IH by done. cbn. unfold emit. by rewrite decide_False.
Qed.

Lemma split_white_words skip word s :
  (skip ≠ 0 → word = "") → (skip = 0 → ∀ a x, word = a +:+ x → x ≠ "" → white_at (x +:+ s) = None) →
  Forall word_ok (split_white skip word s).
Proof.
  assert (Hemit : ∀ word s, (∀ a x, word = a +:+ x → x ≠ "" → white_at (x +:+ s) = None) → Forall word_ok (emit word)).
  { intros w t Hw. unfold emit. case_decide; [constructor|]. apply Forall_singleton. split; [done|].
    apply white_free_iff. intros a x Heq Hx. apply eq_None_not_Some. intros [y Hy].
    destruct (white_at_app x t y Hy) as [z Hz]. by rewrite (Hw a x) in Hz. }
  revert skip word; induction s as [|c s IH]; intros skip word Hskip Hw; cbn [split_white].
  - destruct skip; [by apply (Hemit word ""), Hw|]. by rewrite (Hskip ltac:(done)).
  - destruct skip as [|skip].
    + destruct (white_at (String c s)) as [w|] eqn:Hat.
      * apply Forall_app. split; [by eapply Hemit, Hw|]. apply IH; [done|]. intros _ a x Heq Hx. by destruct a, x.
      * apply IH; [done|]. intros _ a x Heq Hx. destruct (append_split word (String c "") a x Heq) as [(r & -> & ->)|(r & Hr & -> & Hc)].
        -- rewrite append_assoc. change (String c "" +:+ s) with (String c s).
           destruct (decide (r = "")) as [->|Hne]; [done|]. by eapply Hw.
        -- destruct r as [|d r]; [done|]. rewrite append_cons in Hc. injection Hc as <- Hc. by destruct r, x.
    + rewrite (Hskip ltac:(done)). apply IH; [done|]. intros _ a x Heq Hx. by destruct a, x.
Qed.
Lemma split_whitespace_words s : Forall word_ok (split_whitespace s).
Proof. apply split_white_words; [done|]. intros _ a x Heq Hx. by destruct a, x. Qed.

(** ** Trimming *)

Lemma strip_white_start_none s : white_at s = None → strip_white_start s = None.
Proof.
  unfold white_at, strip_white_start. induction white_space as [|w ws IH]; [done|]. cbn.
  unfold starts_with at 1. destruct (strip_prefix w s); [by rewrite bool_decide_eq_true_2|].
  by rewrite bool_decide_eq_false_2 by (by intros [? ?]).
Qed.
Lemma strip_white_end_some s r : strip_white_end s = Some r → ∃ w, w ∈ white_space ∧ s = r +:+ w.
Proof.
  unfold strip_white_end. induction white_space as [|w ws IH]; [done|]. cbn.
  destruct (strip_suffix w s) as [rest|] eqn:Hs.
  - intros [= ->]. exists w. split; [by apply elem_of_cons; left|]. by apply strip_suffix_some.
  - intros (w' & Hw' & ->)%IH. exists w'. split; [by apply elem_of_cons; right|done].
Qed.
Lemma trim_id s : strip_white_start s = None → strip_white_end s = None → trim s = s.
Proof.
  intros Hs He. unfold trim.
  assert (Hst : ∀ n, trim_start_fuel n s = s) by (intros [|n]; cbn [trim_start_fuel]; by rewrite ?Hs).
  assert (Hen : ∀ n, trim_end_fuel n s = s) by (intros [|n]; cbn [trim_end_fuel]; by rewrite ?He).
  by rewrite Hst, Hen.
Qed.

Lemma join_last w words : ∃ pre lw, join " " (w :: words) = pre +:+ lw ∧ lw ∈ w :: words ∧ (pre = "" ∨ ∃ p, pre = p +:+ " ").
Proof.
  revert w; induction words as [|w' words IH]; intros w.
  - exists "", w. split_and!; [done|apply elem_of_cons; by left|by left].
  - destruct (IH w') as (pre & lw & Hj & Hin & Hpre). exists (w +:+ " " +:+ pre), lw. split_and!.
    + change (join " " (w :: w' :: words)) with (w +:+ " " +:+ join " " (w' :: words)). by rewrite Hj, !append_assoc.
    + apply elem_of_cons. by right.
    + right. destruct Hpre as [->|[p ->]]; [by exists w|exists (w +:+ " " +:+ p); by rewrite !append_assoc].
Qed.

Lemma trim_join words : Forall word_ok words → trim (join " " words) = join " " words.
Proof.
  intros Hall. destruct words as [|w words]; [done|]. apply trim_id.
  - apply strip_white_start_none, eq_None_not_Some. pose proof (Forall_inv Hall) as [Hne Hw].
    intros Hs. assert (is_Some (white_at w)) as [x Hx].
    { destruct words as [|w' words]; [done|]. by apply (white_at_space w (join " " (w' :: words))). }
    destruct w as [|c w]; [done|]. cbn [contains_white] in Hw. rewrite bool_decide_eq_true_2 in Hw by by eexists. done.
  - apply eq_None_not_Some. intros [r (w' & Hw' & Heq)%strip_white_end_some].
    destruct (join_last w words) as (pre & lw & Hj & Hin & Hpre). rewrite Hj in Heq.
    rewrite Forall_forall in Hall. destruct (Hall lw Hin) as [Hne Hfree]. pose proof (white_space_inner _ Hw') as Hi.
    assert (Hwne : w' ≠ "") by (by intros ->).
    assert (Hat : is_Some (white_at w')) by (rewrite <-(append_nil_r w'); by apply white_at_prefix).
    destruct (append_split _ _ _ _ Heq) as [(x & -> & ->)|(x & Hx & -> & ->)].
    + destruct (decide (x = "")) as [->|Hxne].
      { change ("" +:+ lw) with lw in Hat. rewrite (proj1 (white_free_iff _) Hfree "" lw) in Hat by done. by destruct Hat. }
      assert (∃ y, x = y +:+ " ") as [y ->].
      { destruct Hpre as [Hp|[p Hp]]; [by destruct r, x|]. destruct (append_split _ _ _ _ Hp) as [(z & _ & Hz)|(z & Hz & _ & Hzx)].
        - destruct z as [|c z]; [by exists ""|]. rewrite append_cons in Hz. injection Hz as <- Hz. by destruct z, x.
        - by exists z. }
      assert (y +:+ " " +:+ lw = " ") as Hbad.
      { rewrite <-append_assoc. apply white_space_blank; [done|]. rewrite !contains_char_app. cbn. by rewrite orb_true_r. }
      destruct y as [|c y]; [|rewrite append_cons in Hbad; injection Hbad as _ Hbad; by destruct y].
      change ("" +:+ " " +:+ lw) with (String " " lw) in Hbad. by injection Hbad.
    + rewrite (proj1 (white_free_iff _) Hfree x w') in Hat by done. by destruct Hat.
Qed.

(** A trimmed string does not start with white space, and has a word unless it
    is empty. *)
Lemma strip_white_start_some s rest : strip_white_start s = Some rest → ∃ w, w ≠ "" ∧ s = w +:+ rest.
Proof.
  unfold strip_white_start. assert (Hne : Forall (λ w, w ≠ "") white_space) by (apply (bool_decide_unpack _); by vm_compute).
  induction Hne as [|w ws Hw _ IH]; [done|]. cbn. destruct (strip_prefix w s) as [r|] eqn:Hp; [|done].
  intros [= ->]. exists w. split; [done|]. by apply strip_prefix_some.
Qed.
Lemma strip_white_start_at s : strip_white_start s = None → white_at s = None.
Proof.
  unfold white_at, strip_white_start. induction white_space as [|w ws IH]; [done|]. cbn.
  unfold starts_with at 1. destruct (strip_prefix w s); [done|].
  by rewrite bool_decide_eq_false_2 by (by intros [? ?]).
Qed.
Lemma trim_start_at n s : String.length s ≤ n → white_at (trim_start_fuel n s) = None.
Proof.
  revert s; induction n as [|n IH]; intros s Hn; cbn [trim_start_fuel].
  - destruct s; [by vm_compute|cbn in Hn; lia].
  - destruct (strip_white_start s) as [rest|] eqn:Hs; [|by apply strip_white_start_at].
    apply IH. apply strip_white_start_some in Hs as (w & Hw & ->). destruct w as [|c w]; [done|].
    rewrite append_cons in Hn. cbn [String.length] in Hn. assert (String.length rest ≤ String.length (w +:+ rest)); [|lia].
    clear. induction w as [|d w IH]; [done|]. rewrite append_cons. cbn [String.length]. lia.
Qed.
Lemma trim_end_prefix n s : ∃ v, s = trim_end_fuel n s +:+ v.
Proof.
  revert s; induction n as [|n IH]; intros s; cbn [trim_end_fuel]; [exists ""; by rewrite append_nil_r|].
  destruct (strip_white_end s) as [rest|] eqn:Hs; [|exists ""; by rewrite append_nil_r].
  apply strip_white_end_some in Hs as (w & _ & Hs). destruct (IH rest) as [v Hv]. exists (v +:+ w).
  by rewrite Hs, Hv at 1; rewrite append_assoc.
Qed.
Lemma trim_at s : white_at (trim s) = None.
Proof.
  unfold trim. set (t := trim_start_fuel _ s). assert (Ht : white_at t = None) by (by apply trim_start_at).
  destruct (trim_end_prefix (String.length t) t) as [v Hv]. apply eq_None_not_Some. intros [w Hw].
  destruct (white_at_app _ v w Hw) as [w' Hw']. rewrite <-Hv in Hw'. congruence.
Qed.

Lemma split_white_nonempty word s : word ≠ "" → split_white 0 word s ≠ [].
Proof.
  revert word; induction s as [|c s IH]; intros word Hw; cbn [split_white].
  - unfold emit. by rewrite decide_False.
  - destruct (white_at _); [unfold emit; by rewrite decide_False|]. apply IH. by destruct word.
Qed.
Lemma trimmed_words s : trim s ≠ "" → split_whitespace (trim s) ≠ [].
Proof.
  pose proof (trim_at s) as Ht. destruct (trim s) as [|c t]; [done|]. intros _. unfold split_whitespace. cbn [split_white].
  rewrite Ht. by apply split_white_nonempty.
Qed.

Lemma join_nonempty words : words ≠ [] → Forall word_ok words → join " " words ≠ "".
Proof.
  intros Hne Hall. destruct words as [|w words]; [done|]. apply Forall_inv in Hall as [Hw _].
  destruct w as [|c w]; [done|]. by destruct words.
Qed.

Lemma until_chars_split stop s :
  ∃ rest, s = until_chars stop s +:+ rest ∧ (rest = "" ∨ ∃ c rest', rest = String c rest' ∧ stop c = true).
Proof.
  induction s as [|c s (rest & Hs & Hr)]; cbn [until_chars]; [exists ""; auto|]. destruct (stop c) eqn:Hc.
  - exists (String c s). split; [done|]. right. by exists c, s.
  - exists rest. rewrite append_cons. split; [by rewrite <-Hs|done].
Qed.

(** ** Visible ASCII *)

Definition visible (c : ascii) : bool := ((33 <=? char_code c) && (char_code c <=? 126))%Z.

Lemma all_chars_app P a b : all_chars P (a +:+ b) = all_chars P a && all_chars P b.
Proof. induction a as [|c a IH]; [done|]. rewrite append_cons. cbn. by rewrite IH, andb_assoc. Qed.
Lemma all_chars_impl (P Q : ascii → bool) s :
  (∀ c, P c = true → Q c = true) → all_chars P s = true → all_chars Q s = true.
Proof.
  intros HPQ. induction s as [|c s IH]; [done|]. cbn. intros [Hc Hs]%andb_true_iff. by rewrite HPQ, IH.
Qed.
Lemma all_chars_absent P c s : P c = false → all_chars P s = true → contains_char c s = false.
Proof.
  intros Hc. induction s as [|d s IH]; [done|]. cbn. intros [Hd Hs]%andb_true_iff. rewrite IH, orb_false_r by done.
  apply bool_decide_eq_false. intros ->. congruence.
Qed.

Definition white_first (w : string) : bool :=
  match w with "" => false | String c _ => negb (visible c) end.
Lemma white_space_first w : w ∈ white_space → white_first w = true.
Proof.
  revert w. refine (proj1 (Forall_forall (λ w, white_first w = true) white_space) _).
  apply (bool_decide_unpack _). vm_compute. exact I.
Qed.
Lemma visible_white_free s : all_chars visible s = true → contains_white s = false.
Proof.
  induction s as [|c s IH]; [done|]. cbn [all_chars contains_white]. intros [Hc Hs]%andb_true_iff.
  rewrite IH, orb_false_r by done. apply bool_decide_eq_false. intros [w (Hw & rest & Heq)%white_at_some].
  apply white_space_first in Hw. destruct w as [|d w]; [done|]. rewrite append_cons in Heq. injection Heq as <- _.
  cbn in Hw. by rewrite Hc in Hw.
Qed.
Lemma trim_word s : contains_white s = false → trim s = s.
Proof.
  intros Hs. destruct (decide (s = "")) as [->|Hne]; [by vm_compute|]. apply (trim_join [s]), Forall_singleton. by split.
Qed.
Lemma trim_visible s : all_chars visible s = true → trim s = s.
Proof. intros Hs. by apply trim_word, visible_white_free. Qed.

Lemma length_app_string a b : String.length (a +:+ b) = String.length a + String.length b.
Proof. induction a as [|c a IH]; [done|]. rewrite append_cons. cbn. by rewrite IH. Qed.
Lemma strip_suffix_app suf s : strip_suffix suf (s +:+ suf) = Some s.
Proof.
  induction s as [|c s IH]; [change ("" +:+ suf) with suf; destruct suf; cbn [strip_suffix]; by rewrite decide_True|].
  rewrite append_cons. cbn [strip_suffix]. rewrite decide_False, IH; [done|].
  intros Heq%(f_equal String.length). cbn in Heq. rewrite length_app_string in Heq. lia.
Qed.
Lemma strip_suffix_none suf s : (∀ r, s ≠ r +:+ suf) → strip_suffix suf s = None.
Proof. intros Hn. destruct (strip_suffix suf s) as [r|] eqn:Hs; [|done]. by apply strip_suffix_some, Hn in Hs. Qed.
Lemma strip_prefix_app pre s : strip_prefix pre (pre +:+ s) = Some s.
Proof. by apply strip_prefix_some. Qed.

(** Splitting at a character, and joining what had none. *)
Lemma split_free c s : contains_char c s = false → split c s = [s].
Proof.
  induction s as [|d s IH]; [done|]. cbn [contains_char split]. intros [Hd%bool_decide_eq_false Hs]%orb_false_iff.
  by rewrite decide_False, IH.
Qed.
Lemma split_cons c a s : contains_char c a = false → split c (a +:+ String c s) = a :: split c s.
Proof.
  induction a as [|d a IH]; [intros _; change ("" +:+ String c s) with (String c s); cbn [split]; by rewrite decide_True|].
  rewrite append_cons. cbn [contains_char split]. intros [Hd%bool_decide_eq_false Ha]%orb_false_iff.
  by rewrite decide_False, IH.
Qed.

(** ** Lines *)

Definition nl : string := String (Ascii.ascii_of_nat 10) "".
(** [as_bytes] *)
Definition payload_bytes (s : string) : bytes := String.list_byte_of_string s.

(** Line-feed free text; the payload is its fields on separate lines. *)
Definition one_line (s : string) : Prop := Ascii.ascii_of_nat 10 ∉ String.list_ascii_of_string s.

Lemma nl_app_inj s t x y :
  one_line s → one_line t → s +:+ nl +:+ x = t +:+ nl +:+ y → s = t ∧ x = y.
Proof.
  revert t; induction s as [|c s IH]; intros [|d t] Hs Ht.
  - intros Heq. by injection Heq.
  - intros Heq. injection Heq as Hc _. destruct Ht. apply elem_of_cons. by left.
  - intros Heq. injection Heq as Hc _. destruct Hs. apply elem_of_cons. by left.
  - intros Heq. injection Heq as -> Heq. destruct (IH t) as [-> ->]; [| |done|done].
    + intros Hx. destruct Hs. apply elem_of_cons. by right.
    + intros Hx. destruct Ht. apply elem_of_cons. by right.
Qed.

Lemma append_inj_l a b c : a +:+ b = a +:+ c → b = c.
Proof. induction a as [|x a IH]; [done|]. rewrite !append_cons. intros [= Heq]. by apply IH. Qed.

Lemma payload_bytes_inj s t : payload_bytes s = payload_bytes t → s = t.
Proof.
  intros Heq%(f_equal String.string_of_list_byte). unfold payload_bytes in Heq.
  by rewrite !String.string_of_list_byte_of_string in Heq.
Qed.

(** ** [str::from_utf8] *)

Definition continuation (b : Byte.byte) : bool := ((128 <=? byte.unsigned b) && (byte.unsigned b <? 192))%Z.
Definition between (lo hi : Z) (b : Byte.byte) : bool := ((lo <=? byte.unsigned b) && (byte.unsigned b <=? hi))%Z.
(** The well-formed sequences: no overlong form, no surrogate, nothing past the last code point. *)
Fixpoint utf8_valid (bs : bytes) : bool :=
  match bs with
  | [] => true
  | b :: bs1 =>
      if between 0 127 b then utf8_valid bs1
      else
        match bs1 with
        | [] => false
        | c :: bs2 =>
            if between 194 223 b then continuation c && utf8_valid bs2
            else
              match bs2 with
              | [] => false
              | d :: bs3 =>
                  if between 224 239 b then
                    between (if decide (byte.unsigned b = 224)%Z then 160 else 128)
                            (if decide (byte.unsigned b = 237)%Z then 159 else 191) c
                    && continuation d && utf8_valid bs3
                  else
                    match bs3 with
                    | [] => false
                    | e :: bs4 =>
                        between 240 244 b
                        && between (if decide (byte.unsigned b = 240)%Z then 144 else 128)
                                   (if decide (byte.unsigned b = 244)%Z then 143 else 191) c
                        && continuation d && continuation e && utf8_valid bs4
                    end
              end
        end
  end.
Definition str_from_utf8 (bs : bytes) : option string :=
  if utf8_valid bs then Some (String.string_of_list_byte bs) else None.
Definition utf8_text (s : string) : bool := utf8_valid (String.list_byte_of_string s).
Lemma str_from_utf8_bytes s : utf8_text s = true → str_from_utf8 (String.list_byte_of_string s) = Some s.
Proof. unfold utf8_text, str_from_utf8. intros ->. by rewrite String.string_of_list_byte_of_string. Qed.

(** [trim_start_matches(&str)]: the prefix is taken off as often as it is there. *)
Fixpoint trim_start_str_fuel (fuel : nat) (pre s : string) : string :=
  match fuel with
  | 0 => s
  | S fuel => match strip_prefix pre s with Some rest => trim_start_str_fuel fuel pre rest | None => s end
  end.
Definition trim_start_str (pre s : string) : string := trim_start_str_fuel (String.length s) pre s.
