(* ===== verification/Chars.v ===== *)
(** * The characters of a text

    A [str] is UTF-8: its [chars] are the groups of a first byte and the
    continuation bytes after it.  Words, trimming and replacement at the level of
    characters, and what a text keeps of its shape under them. *)

From S2P Require Import Prelude Identity Text Words.

Definition is_cont (c : ascii) : bool := ((128 <=? char_code c) && (char_code c <? 192))%Z.
Definition cont_first (s : string) : bool := match s with "" => false | String c _ => is_cont c end.

(** [str::chars], each character as its bytes. *)
Fixpoint chars (s : string) : list string :=
  match s with
  | "" => []
  | String c rest =>
      match chars rest with
      | d :: ds => if cont_first rest then String c d :: ds else String c "" :: d :: ds
      | [] => [String c ""]
      end
  end.
Definition concat_str (cs : list string) : string := foldr String.append "" cs.

Definition is_white (c : string) : bool := bool_decide (c ∈ white_space).
(** [char::is_control]: C0, delete and C1. *)
Definition is_control (c : string) : bool :=
  match c with
  | String b "" => ((char_code b <? 32) || (char_code b =? 127))%Z
  | String b (String d "") => ((char_code b =? 194) && (128 <=? char_code d) && (char_code d <? 160))%Z
  | _ => false
  end.

(** [split_whitespace] over characters. *)
Fixpoint char_words (word cs : list string) : list (list string) :=
  let emit := match word with [] => [] | _ => [word] end in
  match cs with
  | [] => emit
  | c :: cs => if is_white c then emit ++ char_words [] cs else char_words (word ++ [c]) cs
  end.
Fixpoint join_words (ws : list (list string)) : list string :=
  match ws with
  | [] => []
  | [w] => w
  | w :: ws => w ++ [" "] ++ join_words ws
  end.

(** [trim_matches] by a predicate on characters. *)
Fixpoint drop_while (P : string → bool) (cs : list string) : list string :=
  match cs with [] => [] | c :: cs' => if P c then drop_while P cs' else cs end.
Definition trim_chars (P : string → bool) (cs : list string) : list string :=
  reverse (drop_while P (reverse (drop_while P cs))).

(** [str::replace] of one text by another. *)
Fixpoint replace_skip (skip : nat) (old new s : string) : string :=
  match s with
  | "" => ""
  | String c rest =>
      match skip with
      | S skip => replace_skip skip old new rest
      | 0 => if starts_with old s then new +:+ replace_skip (String.length old - 1) old new rest
             else String c (replace_skip 0 old new rest)
      end
  end.
Definition replace (old new s : string) : string := replace_skip 0 old new s.

(** [str::find]: what comes before the first occurrence and what after it. *)
Fixpoint split_str (needle s : string) : option (string * string) :=
  match strip_prefix needle s with
  | Some rest => Some ("", rest)
  | None => match s with "" => None | String c s => '(a, b) ← split_str needle s; Some (String c a, b) end
  end.

(** ** Shape *)

(** A character: a first byte and its continuations, alone when it is ASCII. *)
Definition char_ok (c : string) : bool :=
  match c with
  | "" => false
  | String b rest => negb (is_cont b) && all_chars is_cont rest && (if (char_code b <? 128)%Z then bool_decide (rest = "") else true)
  end.
Definition text_ok (s : string) : bool := forallb char_ok (chars s).

Lemma concat_chars s : concat_str (chars s) = s.
Proof.
  induction s as [|c s IH]; [done|]. cbn [chars]. destruct (chars s) as [|d ds] eqn:Hc.
  - cbn in IH. subst s. done.
  - destruct (cont_first s); cbn in *; rewrite <-IH; reflexivity.
Qed.
Lemma chars_nil s : chars s = [] ↔ s = "".
Proof. split; [|by intros ->]. intros Hs. rewrite <-(concat_chars s), Hs. done. Qed.
Lemma chars_app a b : cont_first b = false → chars (a +:+ b) = chars a ++ chars b.
Proof.
  intros Hb. induction a as [|c a IH]; [done|]. rewrite append_cons. cbn [chars]. rewrite IH.
  destruct (chars a) as [|d ds] eqn:Ha.
  - apply chars_nil in Ha as ->. cbn [app]. change ("" +:+ b) with b. destruct (chars b) as [|d ds]; [done|]. by rewrite Hb.
  - cbn [app]. assert (Hf : cont_first (a +:+ b) = cont_first a) by (by destruct a). rewrite Hf. by destruct (cont_first a).
Qed.
Lemma chars_cons c s : cont_first s = false → chars (String c s) = String c "" :: chars s.
Proof. intros Hs. cbn [chars]. destruct (chars s); [done|]. by rewrite Hs. Qed.
Lemma chars_one c : char_ok c = true → chars c = [c].
Proof.
  destruct c as [|b rest]; [done|]. cbn [char_ok]. intros [[_ Hr]%andb_true_iff _]%andb_true_iff. revert b.
  induction rest as [|d rest IH]; intros b; [done|]. cbn [all_chars] in Hr. apply andb_true_iff in Hr as [Hd Hr].
  cbn [chars] in *. specialize (IH Hr d). cbn [chars] in IH. rewrite IH. cbn [cont_first]. by rewrite Hd.
Qed.
Lemma char_ok_first c s : char_ok c = true → cont_first (c +:+ s) = false.
Proof. destruct c as [|b rest]; [done|]. cbn. intros [[Hb _]%andb_true_iff _]%andb_true_iff. by apply negb_true_iff. Qed.
Lemma concat_first cs : Forall (λ c, char_ok c = true) cs → cont_first (concat_str cs) = false.
Proof. destruct 1 as [|c cs Hc _]; [done|]. by apply char_ok_first. Qed.
(** A list of characters is the characters of its text. *)
Lemma chars_concat cs : Forall (λ c, char_ok c = true) cs → chars (concat_str cs) = cs.
Proof.
  induction 1 as [|c cs Hc Hcs IH]; [done|]. change (concat_str (c :: cs)) with (c +:+ concat_str cs).
  rewrite chars_app by by apply concat_first. by rewrite chars_one, IH.
Qed.
Lemma text_ok_chars s : text_ok s = true ↔ Forall (λ c, char_ok c = true) (chars s).
Proof.
  unfold text_ok. rewrite forallb_forall. rewrite Forall_forall. split; intros Hall x Hx; apply Hall; by apply list_elem_of_In.
Qed.
Lemma text_ok_concat cs : Forall (λ c, char_ok c = true) cs → text_ok (concat_str cs) = true.
Proof. intros Hcs. apply text_ok_chars. by rewrite chars_concat. Qed.
Lemma text_ok_first s : text_ok s = true → cont_first s = false.
Proof. intros Hs%text_ok_chars. rewrite <-(concat_chars s). by apply concat_first. Qed.
Lemma text_ok_app a b : text_ok a = true → text_ok b = true → text_ok (a +:+ b) = true.
Proof.
  intros Ha Hb. pose proof (text_ok_first _ Hb). apply text_ok_chars in Ha, Hb. apply text_ok_chars. rewrite chars_app by done.
  by apply Forall_app.
Qed.
(** What follows an ASCII byte of a text is a text. *)
Lemma text_ok_after a c b : text_ok (a +:+ String c b) = true → (char_code c <? 128)%Z = true → text_ok a = true ∧ text_ok b = true.
Proof.
  intros Hs Hc. assert (Hcont : is_cont c = false).
  { unfold is_cont. apply Z.ltb_lt in Hc. destruct (Z.leb_spec 128 (char_code c)); [lia|done]. }
  apply text_ok_chars in Hs. rewrite chars_app in Hs by done. apply Forall_app in Hs as [Ha Hb].
  split; [by apply text_ok_chars|]. apply text_ok_chars. cbn [chars] in Hb. destruct (chars b) as [|d ds] eqn:Hd; [done|].
  destruct (cont_first b).
  - apply Forall_cons in Hb as [Hb _]. cbn in Hb. rewrite Hc, andb_true_iff in Hb. destruct Hb as [_ Hb%bool_decide_eq_true]. subst d.
    exfalso. pose proof (concat_chars b) as Hcb. rewrite Hd in Hcb. clear -Hd Hcb.
    assert (∀ s, "" ∉ chars s) as Hne.
    { intros s. induction s as [|x s IH]; [by apply not_elem_of_nil|]. cbn [chars]. destruct (chars s); [set_solver|].
      destruct (cont_first s); set_solver. }
    apply (Hne b). rewrite Hd. apply list_elem_of_here.
  - by apply Forall_cons in Hb as [_ Hb].
Qed.

(** A well-formed sequence of bytes is a text. *)
Lemma byte_code c : byte.unsigned (Ascii.byte_of_ascii c) = char_code c.
Proof. by destruct c as [[] [] [] [] [] [] [] []]. Qed.
Lemma text_ok_one c rest : char_ok c = true → text_ok rest = true → text_ok (c +:+ rest) = true.
Proof. intros Hc Hr. apply text_ok_app; [|done]. apply text_ok_chars. rewrite chars_one by done. by apply Forall_singleton. Qed.
Lemma between_code lo hi c : between lo hi (Ascii.byte_of_ascii c) = true ↔ (lo ≤ char_code c ≤ hi)%Z.
Proof. unfold between. by rewrite byte_code, andb_true_iff, !Z.leb_le. Qed.
Lemma continuation_code c : continuation (Ascii.byte_of_ascii c) = is_cont c.
Proof. unfold continuation, is_cont. by rewrite byte_code. Qed.
Lemma is_cont_iff c : is_cont c = true ↔ (128 ≤ char_code c < 192)%Z.
Proof. unfold is_cont. by rewrite andb_true_iff, Z.leb_le, Z.ltb_lt. Qed.
(** A first byte above the continuations, with continuations after it. *)
Lemma char_ok_wide b rest : (192 ≤ char_code b)%Z → all_chars is_cont rest = true → char_ok (String b rest) = true.
Proof.
  intros Hb Hr. cbn [char_ok]. rewrite Hr. destruct (is_cont b) eqn:Hc; [apply is_cont_iff in Hc; lia|].
  by destruct (Z.ltb_spec (char_code b) 128); [lia|].
Qed.
Lemma between_cont {P Q : Prop} (p : {P} + {¬ P}) (q : {Q} + {¬ Q}) lo hi x : (128 ≤ lo)%Z → (hi ≤ 191)%Z →
  between (if p then lo else 128) (if q then hi else 191) (Ascii.byte_of_ascii x) = true → is_cont x = true.
Proof. intros Hlo Hhi Hx%between_code. apply is_cont_iff. destruct p, q; lia. Qed.
Lemma utf8_text_ok s : utf8_text s = true → text_ok s = true.
Proof.
  unfold utf8_text. remember (String.length s) as n eqn:Hn. revert s Hn. induction (lt_wf n) as [n _ IH]. intros s -> Hv.
  assert (Hlater : ∀ t, String.length t < String.length s → utf8_valid (String.list_byte_of_string t) = true → text_ok t = true).
  { intros t Ht. by apply (IH _ Ht). }
  clear IH. destruct s as [|b s1]; [done|]. cbn [String.list_byte_of_string String.list_ascii_of_string map utf8_valid] in Hv.
  destruct (between 0 127 (byte_of_ascii b)) eqn:Hb.
  { apply between_code in Hb. apply (text_ok_one (String b "")); [|apply Hlater; [cbn; lia|done]]. cbn [char_ok all_chars].
    destruct (is_cont b) eqn:Hc; [apply is_cont_iff in Hc; lia|]. cbn. by destruct (char_code b <? 128)%Z. }
  destruct s1 as [|c s2]; [done|]. cbn [String.list_byte_of_string String.list_ascii_of_string map] in Hv.
  destruct (between 194 223 (byte_of_ascii b)) eqn:Hb2.
  { apply between_code in Hb2. rewrite continuation_code in Hv. apply andb_true_iff in Hv as [Hc Hv].
    apply (text_ok_one (String b (String c ""))); [|apply Hlater; [cbn; lia|done]]. apply char_ok_wide; [lia|]. cbn. by rewrite Hc. }
  destruct s2 as [|d s3]; [done|]. cbn [String.list_byte_of_string String.list_ascii_of_string map] in Hv.
  destruct (between 224 239 (byte_of_ascii b)) eqn:Hb3.
  { apply between_code in Hb3. rewrite continuation_code, !andb_true_iff in Hv. destruct Hv as [[Hc Hd] Hv].
    assert (is_cont c = true) as Hcc by (eapply between_cont; [..|exact Hc]; lia).
    apply (text_ok_one (String b (String c (String d "")))); [|apply Hlater; [cbn; lia|done]]. apply char_ok_wide; [lia|]. cbn. by rewrite Hcc, Hd. }
  destruct s3 as [|e s4]; [done|]. cbn [String.list_byte_of_string String.list_ascii_of_string map] in Hv.
  rewrite !continuation_code, !andb_true_iff in Hv. destruct Hv as [[[[Hb4%between_code Hc] Hd] He] Hv].
  assert (is_cont c = true) as Hcc by (eapply between_cont; [..|exact Hc]; lia).
  apply (text_ok_one (String b (String c (String d (String e ""))))); [|apply Hlater; [cbn; lia|done]].
  apply char_ok_wide; [lia|]. cbn. by rewrite Hcc, Hd, He.
Qed.

(** ** Words, trimming and replacement keep the characters *)

Lemma char_words_in P word cs :
  Forall P word → Forall P cs → Forall (Forall P) (char_words word cs).
Proof.
  assert (Hemit : ∀ w : list string, Forall P w → Forall (Forall P) (match w with [] => [] | _ => [w] end)).
  { intros [|x w] Hw; [by apply Forall_nil|by apply Forall_singleton]. }
  revert word; induction cs as [|c cs IH]; intros word Hw Hcs; cbn [char_words]; [by apply Hemit|].
  apply Forall_cons in Hcs as [Hc Hcs]. destruct (is_white c).
  - apply Forall_app. split; [by apply Hemit|]. by apply IH; [apply Forall_nil|].
  - apply IH; [|done]. apply Forall_app. split; [done|by apply Forall_singleton].
Qed.
Lemma char_words_black word cs :
  Forall (λ c, is_white c = false) word → Forall (λ w, w ≠ [] ∧ Forall (λ c, is_white c = false) w) (char_words word cs).
Proof.
  revert word; induction cs as [|c cs IH]; intros word Hw; cbn [char_words].
  - destruct word; [done|]. by apply Forall_singleton.
  - destruct (is_white c) eqn:Hc.
    + apply Forall_app. split; [destruct word; [done|by apply Forall_singleton]|]. by apply IH.
    + apply IH. apply Forall_app. split; [done|by apply Forall_singleton].
Qed.
Lemma join_words_in P ws : P " " → Forall (Forall P) ws → Forall P (join_words ws).
Proof.
  intros Hp. induction 1 as [|w ws Hw Hws IH]; [done|]. destruct ws as [|w' ws]; [done|]. cbn [join_words].
  apply Forall_app. split; [done|]. by apply Forall_cons.
Qed.
Lemma drop_while_suffix P cs : ∃ pre, cs = pre ++ drop_while P cs.
Proof. induction cs as [|c cs [pre IH]]; cbn; [by exists []|]. case_match; [exists (c :: pre); cbn; by f_equal|by exists []]. Qed.
Lemma trim_chars_in P Q cs : Forall Q cs → Forall Q (trim_chars P cs).
Proof.
  intros Hcs. unfold trim_chars. destruct (drop_while_suffix P cs) as [pre Hpre]. rewrite Hpre in Hcs. apply Forall_app in Hcs as [_ Hcs].
  apply Forall_reverse. destruct (drop_while_suffix P (reverse (drop_while P cs))) as [pre' Hpre'].
  apply Forall_reverse in Hcs. rewrite Hpre' in Hcs. by apply Forall_app in Hcs as [_ Hcs].
Qed.
Lemma split_str_some needle s a b : split_str needle s = Some (a, b) → s = a +:+ needle +:+ b.
Proof.
  revert a b; induction s as [|c s IH]; intros a b; cbn [split_str].
  - destruct (strip_prefix needle "") as [r|] eqn:Hp; [|done]. intros [= <- <-]. by apply strip_prefix_some in Hp.
  - destruct (strip_prefix needle (String c s)) as [r|] eqn:Hp; [intros [= <- <-]; by apply strip_prefix_some in Hp|].
    destruct (split_str needle s) as [[a' b']|]; [|done]. cbn. intros [= <- <-]. rewrite append_cons. f_equal. by apply IH.
Qed.

Definition is_ascii (c : ascii) : bool := (char_code c <? 128)%Z.
Lemma ascii_text s : all_chars is_ascii s = true → text_ok s = true.
Proof.
  induction s as [|c s IH]; [done|]. cbn [all_chars]. intros [Hc Hs]%andb_true_iff. apply (text_ok_one (String c "")); [|by apply IH].
  cbn [char_ok all_chars]. unfold is_ascii in Hc. rewrite Hc, bool_decide_eq_true_2 by done. apply Z.ltb_lt in Hc.
  destruct (is_cont c) eqn:Hi; [apply is_cont_iff in Hi; lia|done].
Qed.
Lemma replace_skip_past n old new a rest : String.length a = n → replace_skip n old new (a +:+ rest) = replace_skip 0 old new rest.
Proof. revert n; induction a as [|c a IH]; intros n <-; [done|]. rewrite append_cons. cbn [String.length replace_skip]. by apply IH. Qed.
(** Bytes that the old text does not begin with are kept. *)
Lemma replace_skip_keep old new a rest c0 old' :
  old = String c0 old' → all_chars (λ c, negb (bool_decide (c = c0))) a = true →
  replace_skip 0 old new (a +:+ rest) = a +:+ replace_skip 0 old new rest.
Proof.
  intros ->. induction a as [|c a IH]; [done|]. cbn [all_chars]. intros [Hc%negb_true_iff%bool_decide_eq_false Ha]%andb_true_iff.
  rewrite append_cons. cbn [replace_skip]. unfold starts_with at 1. rewrite bool_decide_eq_false_2.
  - by rewrite IH.
  - intros [r Hr%strip_prefix_some]. rewrite append_cons in Hr. by injection Hr.
Qed.
Lemma text_ok_drop a b : all_chars is_ascii a = true → text_ok (a +:+ b) = true → text_ok b = true.
Proof.
  induction a as [|c a IH]; [done|]. cbn [all_chars]. intros [Hc Ha]%andb_true_iff. rewrite append_cons. intros Hs.
  destruct (text_ok_after "" c (a +:+ b) Hs Hc) as [_ Hr]. by apply IH.
Qed.
Lemma replace_text old new s :
  old ≠ "" → all_chars is_ascii old = true → all_chars is_ascii new = true → text_ok s = true → text_ok (replace old new s) = true.
Proof.
  intros Hne Hold Hnew. destruct old as [|c0 old']; [done|]. unfold replace. remember (String.length s) as n eqn:Hn.
  revert s Hn. induction (lt_wf n) as [n _ IH]. intros s -> Hs. pose proof Hs as Hall%text_ok_chars.
  pose proof (concat_chars s) as Hc. destruct (chars s) as [|ch cs]; [by subst s|].
  apply Forall_cons in Hall as [Hch Hcs]. change (concat_str (ch :: cs)) with (ch +:+ concat_str cs) in Hc.
  set (rest := concat_str cs) in *. assert (Hrest : text_ok rest = true) by (by apply text_ok_concat).
  destruct (starts_with (String c0 old') s) eqn:Hst.
  - unfold starts_with in Hst. apply bool_decide_eq_true in Hst as [r Hr%strip_prefix_some]. rewrite Hr in Hs |- *.
    rewrite append_cons. cbn [replace_skip]. unfold starts_with at 1. rewrite <-append_cons, strip_prefix_app, bool_decide_eq_true_2 by done.
    replace (String.length (String c0 old') - 1) with (String.length old') by (cbn; lia). rewrite replace_skip_past by done.
    apply text_ok_app; [by apply ascii_text|]. apply (IH (String.length r)); [|done|by apply text_ok_drop in Hs].
    rewrite Hr, length_app_string. cbn. lia.
  - rewrite <-Hc. destruct ch as [|b t]; [done|]. cbn [char_ok] in Hch. apply andb_true_iff in Hch as [[Hb Ht]%andb_true_iff Hasc].
    assert (Hkeep : replace_skip 0 (String c0 old') new (String b t +:+ rest) = String b t +:+ replace_skip 0 (String c0 old') new rest).
    { rewrite append_cons. cbn [replace_skip]. rewrite <-Hc, append_cons in Hst. rewrite Hst. rewrite append_cons. f_equal.
      apply (replace_skip_keep _ _ _ _ c0 old' eq_refl). eapply all_chars_impl; [|exact Ht]. intros x Hx%is_cont_iff.
      apply negb_true_iff, bool_decide_eq_false. intros ->. cbn [all_chars] in Hold. apply andb_true_iff in Hold as [Ho%Z.ltb_lt _]. lia. }
    rewrite Hkeep. apply text_ok_one; [cbn [char_ok]; by rewrite Hb, Ht, Hasc|]. apply (IH (String.length rest)); [|done|done].
    rewrite <-Hc, length_app_string. cbn. lia.
Qed.
