(* ===== verification/Address.v ===== *)
(** * Addresses ([src/address.rs])

    A person's address, with or without an agent: its grammar and its printed
    form. *)

From S2P Require Import Prelude Identity Text Words.

Definition PROXY_DIRECT_AGENT_ID : string := "proxy".
Definition DOMAIN : string := "proxy.ing".
Definition RESERVED_SEGMENTS : list string :=
  ["p"; "c"; "party"; "skill"; "a"; "oauth"; "client"; "mcp"; "inference"; "v1"; "devices"; "success"; ".well-known"].
Definition is_reserved (segment : string) : bool := bool_decide (segment ∈ RESERVED_SEGMENTS).

Record AgentAddress : Type := mk_AgentAddress { aa_user : string; aa_agent : option string }.
Inductive AddressError : Type :=
  | AddressEmpty
  | NotProxyIng
  | BadName
  | NameLength
  | BadAgent
  | ReservedAgent (segment : string)
  | TooDeep.
Definition address_error_text (e : AddressError) : string :=
  match e with
  | AddressEmpty => "an address starts with a name"
  | NotProxyIng => "an address is name or name.proxy.ing"
  | BadName => "letters, numbers and hyphens only, not starting or ending with a hyphen"
  | NameLength => "a name is 3 to 30 characters"
  | BadAgent => "the agent after / is letters, numbers and hyphens"
  | ReservedAgent segment => "/" +:+ segment +:+ " is not an agent"
  | TooDeep => "an address names one agent after the /"
  end.

Definition name_char (c : ascii) : bool := is_ascii_lowercase c || is_ascii_digit c || bool_decide (c = "-"%char).
Definition normalize_user (raw : string) : result AddressError string :=
  let user := to_ascii_lowercase (trim raw) in
  if decide (user = "") then Err AddressEmpty
  else if negb (all_chars name_char user) then Err BadName
  else if starts_with "-" user || ends_with "-" user then Err BadName
  else if negb (bool_decide (3 ≤ String.length user ≤ 30)) then Err NameLength
  else Ok user.

Definition is_agent_id (id : string) : bool :=
  match id with
  | "" => false
  | String c _ =>
      bool_decide (String.length id ≤ 63) && (is_ascii_lowercase c || is_ascii_digit c) && all_chars name_char id
  end.
Definition is_addressable_id (id : string) : bool := is_agent_id id && negb (is_reserved id).
Definition normalize_agent (raw : string) : result AddressError string :=
  let agent := to_ascii_lowercase (trim raw) in
  if negb (is_agent_id agent) then Err BadAgent
  else if is_reserved agent then Err (ReservedAgent agent)
  else Ok agent.
Definition host_of_user (user : string) : option string :=
  match normalize_user user with Ok user => Some (user +:+ "." +:+ DOMAIN) | Err _ => None end.

(** The first of the schemes, when the text has one. *)
Definition strip_scheme (text : string) : string :=
  match strip_prefix "https://" text with
  | Some rest => rest
  | None => default text (strip_prefix "http://" text)
  end.
Definition address_parse (text : string) : result AddressError AgentAddress :=
  let rest := strip_scheme (to_ascii_lowercase (trim text)) in
  let '(host, path) := default (rest, "") (split_once "/" rest) in
  user ← (match strip_suffix DOMAIN host ≫= strip_suffix "." with
          | Some user => Ok user
          | None => if contains_char "." host then Err NotProxyIng else Ok host
          end);
  user ← normalize_user user;
  let path := default path (strip_suffix "/" path) in
  if decide (path = "") then Ok (mk_AgentAddress user None)
  else if contains_char "/" path then Err TooDeep
  else agent ← normalize_agent path; Ok (mk_AgentAddress user (Some agent)).

Definition agent_or_default (a : AgentAddress) : string := default PROXY_DIRECT_AGENT_ID (aa_agent a).
Definition address_host (a : AgentAddress) : string := aa_user a +:+ "." +:+ DOMAIN.
Definition address_origin (a : AgentAddress) : string := "https://" +:+ address_host a.
Definition address_text (a : AgentAddress) : string :=
  aa_user a +:+ "." +:+ DOMAIN +:+ match aa_agent a with Some agent => "/" +:+ agent | None => "" end.

(** ** Properties *)

Definition user_ok (user : string) : bool :=
  all_chars name_char user && negb (starts_with "-" user || ends_with "-" user) &&
  bool_decide (3 ≤ String.length user ≤ 30).

Lemma lower_char_fixed c : is_ascii_uppercase c = false → lower_char c = c.
Proof. destruct c as [[] [] [] [] [] [] [] []]; vm_compute; done. Qed.
Lemma to_ascii_lowercase_id s : all_chars (λ c, negb (is_ascii_uppercase c)) s = true → to_ascii_lowercase s = s.
Proof.
  induction s as [|c s IH]; [done|]. cbn. intros [Hc%negb_true_iff Hs]%andb_true_iff. by rewrite lower_char_fixed, IH.
Qed.

(** What a printed address is made of. *)
Definition address_char (c : ascii) : bool := name_char c || bool_decide (c = "."%char) || bool_decide (c = "/"%char) || bool_decide (c = ":"%char).
Lemma address_char_visible c : address_char c = true → visible c = true.
Proof. destruct c as [[] [] [] [] [] [] [] []]; vm_compute; done. Qed.
Lemma address_char_lower c : address_char c = true → negb (is_ascii_uppercase c) = true.
Proof. destruct c as [[] [] [] [] [] [] [] []]; vm_compute; done. Qed.
Lemma name_char_address c : name_char c = true → address_char c = true.
Proof. unfold address_char. by intros ->. Qed.
Lemma lower_trim_id s : all_chars address_char s = true → to_ascii_lowercase (trim s) = s.
Proof.
  intros Hs. rewrite trim_visible by (eapply all_chars_impl, Hs; apply address_char_visible).
  apply to_ascii_lowercase_id. eapply all_chars_impl, Hs. apply address_char_lower.
Qed.

Lemma normalize_user_ok raw user : normalize_user raw = Ok user → user_ok user = true.
Proof.
  unfold normalize_user. case_decide; [done|]. destruct (all_chars name_char _) eqn:Hc; [|done]. cbn [negb].
  destruct (_ || _) eqn:Hd; [done|]. destruct (bool_decide (3 ≤ _ ≤ 30)) eqn:Hl; [|done]. cbn [negb]. intros [= <-].
  unfold user_ok. by rewrite Hc, Hd, Hl.
Qed.
Lemma normalize_user_id user : user_ok user = true → normalize_user user = Ok user.
Proof.
  unfold user_ok. intros [[Hc Hd%negb_true_iff]%andb_true_iff Hl]%andb_true_iff. unfold normalize_user.
  rewrite lower_trim_id by (eapply all_chars_impl, Hc; apply name_char_address). rewrite Hc, Hd, Hl. cbn.
  rewrite decide_False; [done|]. intros ->. by vm_compute in Hl.
Qed.
Lemma is_agent_id_chars id : is_agent_id id = true → id ≠ "" ∧ all_chars name_char id = true.
Proof. destruct id as [|c id]; [done|]. cbn [is_agent_id]. intros [_ Hc]%andb_true_iff. done. Qed.
Lemma normalize_agent_ok raw agent : normalize_agent raw = Ok agent → is_addressable_id agent = true.
Proof.
  unfold normalize_agent, is_addressable_id. destruct (is_agent_id _) eqn:Ha; [|done]. cbn [negb].
  destruct (is_reserved _) eqn:Hr; [done|]. intros [= <-]. by rewrite Ha, Hr.
Qed.
Lemma normalize_agent_id agent : is_addressable_id agent = true → normalize_agent agent = Ok agent.
Proof.
  unfold is_addressable_id. intros [Ha Hr%negb_true_iff]%andb_true_iff. unfold normalize_agent.
  destruct (is_agent_id_chars _ Ha) as [_ Hc].
  rewrite lower_trim_id by (eapply all_chars_impl, Hc; apply name_char_address). by rewrite Ha, Hr.
Qed.

Definition address_ok (a : AgentAddress) : bool :=
  user_ok (aa_user a) && match aa_agent a with Some agent => is_addressable_id agent | None => true end.

Lemma address_parse_ok text a : address_parse text = Ok a → address_ok a = true.
Proof.
  unfold address_parse. destruct (default _ _) as [host path]. destruct (match _ ≫= _ with Some _ => _ | None => _ end) as [user|]; [|done].
  cbn [mbind result_bind]. destruct (normalize_user user) as [u|] eqn:Hu; [|done]. apply normalize_user_ok in Hu. cbn [mbind result_bind].
  case_decide; [intros [= <-]; unfold address_ok; cbn; by rewrite Hu|]. destruct (contains_char _ _); [done|].
  destruct (normalize_agent _) as [g|] eqn:Hg; [|done]. apply normalize_agent_ok in Hg. cbn. intros [= <-].
  unfold address_ok. cbn. by rewrite Hu.
Qed.

Lemma user_ok_chars user : user_ok user = true → all_chars name_char user = true.
Proof. unfold user_ok. by intros [[? _]%andb_true_iff _]%andb_true_iff. Qed.
Lemma name_free c s : name_char c = false → all_chars name_char s = true → contains_char c s = false.
Proof. apply all_chars_absent. Qed.

Lemma strip_scheme_none s : contains_char ":" s = false → strip_scheme s = s.
Proof.
  intros Hs. unfold strip_scheme. assert (Hno : ∀ pre, contains_char ":" pre = true → strip_prefix pre s = None).
  { intros pre Hp. destruct (strip_prefix pre s) as [r|] eqn:Hr; [|done]. apply strip_prefix_some in Hr.
    rewrite Hr, contains_char_app, Hp in Hs. done. }
  by rewrite !Hno.
Qed.
Lemma strip_scheme_some scheme s :
  scheme ∈ ["https://"; "http://"] → strip_scheme (scheme +:+ s) = s.
Proof.
  intros [->|[->|[]%elem_of_nil]%elem_of_cons]%elem_of_cons; unfold strip_scheme; [by rewrite strip_prefix_app|].
  assert (strip_prefix "https://" ("http://" +:+ s) = None) as -> by done. by rewrite strip_prefix_app.
Qed.

(** The host of an address, in full or by name. *)
Definition host_form (user host : string) : Prop := host = user +:+ "." +:+ DOMAIN ∨ host = user.
Definition path_form (agent : option string) (path : string) : Prop :=
  match agent with None => path = "" ∨ path = "/" | Some g => path = "/" +:+ g ∨ path = "/" +:+ g +:+ "/" end.

Lemma parse_host user host : all_chars name_char user = true → host_form user host →
  match strip_suffix DOMAIN host ≫= strip_suffix "." with
  | Some user => Ok user
  | None => if contains_char "." host then Err NotProxyIng else Ok host
  end = Ok user.
Proof.
  intros Hu [->| ->].
  - rewrite <-append_assoc, strip_suffix_app. cbn [mbind option_bind]. by rewrite strip_suffix_app.
  - assert (Hd : contains_char "." user = false) by (by apply name_free).
    rewrite strip_suffix_none; [cbn; by rewrite Hd|]. intros r ->. rewrite contains_char_app in Hd.
    apply orb_false_iff in Hd as [_ Hd]. done.
Qed.
Lemma parse_path agent path host : contains_char "/" host = false → path_form agent path →
  match agent with Some g => is_addressable_id g | None => true end = true →
  ∃ p, default (host +:+ path, "") (split_once "/" (host +:+ path)) = (host, p) ∧
    ∀ user, (let path := default p (strip_suffix "/" p) in
      if decide (path = "") then Ok (mk_AgentAddress user None)
      else if contains_char "/" path then Err TooDeep
      else agent ← normalize_agent path; Ok (mk_AgentAddress user (Some agent))) = Ok (mk_AgentAddress user agent).
Proof.
  intros Hh Hp Hg.
  assert (Hrun : ∀ p g, default p (strip_suffix "/" p) = g → is_addressable_id g = true → ∀ user,
    (let path := default p (strip_suffix "/" p) in
      if decide (path = "") then Ok (mk_AgentAddress user None)
      else if contains_char "/" path then Err TooDeep
      else agent ← normalize_agent path; Ok (mk_AgentAddress user (Some agent))) = Ok (mk_AgentAddress user (Some g))).
  { intros p g Hd Ha user. cbv zeta. rewrite Hd. pose proof Ha as [Hid _]%andb_true_iff.
    destruct (is_agent_id_chars _ Hid) as [Hne Hc]. rewrite decide_False by done.
    rewrite (name_free "/" g) by done. by rewrite normalize_agent_id. }
  destruct agent as [g|]; destruct Hp as [->| ->].
  - exists g. split; [change ("/" +:+ g) with (String "/" g); by rewrite split_once_app|]. apply Hrun; [|done].
    rewrite strip_suffix_none; [done|]. intros r ->. apply andb_true_iff in Hg as [Hid _].
    destruct (is_agent_id_chars _ Hid) as [_ Hc]. rewrite all_chars_app in Hc. apply andb_true_iff in Hc as [_ Hc]. done.
  - exists (g +:+ "/"). split; [change ("/" +:+ g +:+ "/") with (String "/" (g +:+ "/")); by rewrite split_once_app|].
    apply Hrun; [|done]. by rewrite strip_suffix_app.
  - exists "". rewrite append_nil_r. by rewrite (proj2 (split_once_none _ _)).
  - exists "". by rewrite split_once_app.
Qed.

Lemma address_parse_form a scheme host path :
  address_ok a = true → scheme = "" ∨ scheme ∈ ["https://"; "http://"] →
  host_form (aa_user a) host → path_form (aa_agent a) path → address_parse (scheme +:+ host +:+ path) = Ok a.
Proof.
  intros [Hu Hg]%andb_true_iff Hs Hh Hp. pose proof (user_ok_chars _ Hu) as Hc.
  assert (Hhost : all_chars (λ c, address_char c && negb (bool_decide (c = "/"%char)) && negb (bool_decide (c = ":"%char))) host = true).
  { destruct Hh as [->| ->]; [rewrite all_chars_app; apply andb_true_iff; split; [|done]|];
      (eapply all_chars_impl, Hc; intros c; destruct c as [[] [] [] [] [] [] [] []]; vm_compute; done). }
  assert (Hpath : all_chars (λ c, address_char c && negb (bool_decide (c = ":"%char))) path = true).
  { destruct (aa_agent a) as [g|]; destruct Hp as [->| ->]; try done;
      apply andb_true_iff in Hg as [Hid _]; destruct (is_agent_id_chars _ Hid) as [_ Hgc];
      rewrite ?all_chars_app; rewrite (all_chars_impl name_char _ g) by (done || (intros c; destruct c as [[] [] [] [] [] [] [] []]; vm_compute; done)); done. }
  unfold address_parse. rewrite lower_trim_id.
  - assert (strip_scheme (scheme +:+ host +:+ path) = host +:+ path) as ->.
    { destruct Hs as [->|Hs]; [|by apply strip_scheme_some]. apply strip_scheme_none. rewrite contains_char_app.
      apply orb_false_iff. split; [eapply all_chars_absent, Hhost|eapply all_chars_absent, Hpath]; done. }
    destruct (parse_path _ path host ltac:(by eapply all_chars_absent, Hhost) Hp Hg) as (p & -> & Hrun).
    rewrite (parse_host (aa_user a) host) by done. cbn [mbind result_bind]. rewrite normalize_user_id by done.
    cbn [mbind result_bind]. rewrite Hrun. by destruct a.
  - rewrite !all_chars_app. apply andb_true_iff. split; [|apply andb_true_iff; split].
    + destruct Hs as [->|[->|[->|[]%elem_of_nil]%elem_of_cons]%elem_of_cons]; done.
    + eapply all_chars_impl, Hhost. intros c [[? _]%andb_true_iff _]%andb_true_iff. done.
    + eapply all_chars_impl, Hpath. by intros c [? _]%andb_true_iff.
Qed.

(** C40: an address survives being printed. Whatever text an address was read from,
    its printed form reads as the same address; so does the form with either
    scheme, with or without a trailing slash, by full host or by name alone. What
    is read has a name and an agent within the grammar, and no agent that the
    address keeps for itself. *)
Theorem address_forms_agree text a scheme host path :
  address_parse text = Ok a →
  address_ok a = true ∧ address_parse (address_text a) = Ok a ∧
  (scheme = "" ∨ scheme ∈ ["https://"; "http://"] → host_form (aa_user a) host → path_form (aa_agent a) path →
   address_parse (scheme +:+ host +:+ path) = Ok a).
Proof.
  intros Hok%address_parse_ok. split; [done|]. split; [|by apply address_parse_form].
  apply (address_parse_form a "" (aa_user a +:+ "." +:+ DOMAIN) (match aa_agent a with Some g => "/" +:+ g | None => "" end)) in Hok.
  - change ("" +:+ ?x) with x in Hok. by rewrite !append_assoc in Hok.
  - by left.
  - by left.
  - destruct (aa_agent a); by left.
Qed.
