(* ===== verification/OAuth.v ===== *)
(** * Scopes, redirects and limits of the authorization server ([src/oauth/mod.rs])

    The pure parts of the OAuth server: what a scope opens, which redirect URIs
    a client may register, PKCE, and the per-source limiter. *)

From S2P Require Import Prelude Ordered External Toy Identity Text Words.

Definition CODE_TTL_SECS : Z := 10 * 60.
Definition ASK_TTL_SECS : Z := 15 * 60.
Definition TOUCH_EVERY_SECS : Z := 60.
Definition TOKEN_TTL_SECS : Z := 30 * 24 * 60 * 60.
(** [i64::MAX as u64] *)
Definition NO_EXPIRY : Z := 2 ^ 63 - 1.
Definition REGISTER_LIMIT : Z * Z := (10, 10 * 60)%Z.
Definition AUTHORIZE_LIMIT : Z * Z := (30, 10 * 60)%Z.

(** ** Scopes *)

Definition FAMILIES : list string :=
  ["threads"; "life-map-read"; "life-map-write"; "computer"; "mail"; "messages"; "inference"; "moves"].
#[global] Typeclasses Opaque FAMILIES.
Definition DEFAULT_SCOPE : string := "threads".

Definition family_words (family : string) : string :=
  if decide (family = "threads") then "open threads with your agents and read and post in them"
  else if decide (family = "life-map-read") then "read your Life Map"
  else if decide (family = "life-map-write") then "change your Life Map, and use your Proxy's tools"
  else if decide (family = "computer") then "control your computer and phone"
  else if decide (family = "mail") then "read and send your mail"
  else if decide (family = "messages") then "read and send your messages"
  else if decide (family = "inference") then "run your models"
  else if decide (family = "moves") then "see and resolve your Moves"
  else "".

(** [word.contains(':') && !word.starts_with(':')] *)
Definition is_purpose (word : string) : bool := contains_char ":"%char word && negb (starts_with ":" word).

(** The loop of [normalize_scope]. *)
Fixpoint collect_words (words families purposes : list string) : result string (list string * list string) :=
  match words with
  | [] => Ok (families, purposes)
  | word :: words =>
      if decide (word ∈ FAMILIES)
      then collect_words words (if decide (word ∈ families) then families else families ++ [word]) purposes
      else if is_purpose word
      then collect_words words families (if decide (word ∈ purposes) then purposes else purposes ++ [word])
      else Err (word +:+ " is not a scope this address has; the scopes are " +:+ join ", " FAMILIES)
  end.

(** [FAMILIES.iter().position(..)], with [None] first. *)
Definition family_position (family : string) : nat :=
  match list_find (λ known, known = family) FAMILIES with Some (i, _) => S i | None => 0 end.

Definition family_leb (a b : string) : bool := bool_decide (family_position a ≤ family_position b).

Definition normalize_scope (requested : option string) : result string string :=
  let requested := default "" (trim <$> requested) in
  if decide (requested = "") then Ok DEFAULT_SCOPE
  else
    '(families, purposes) ← collect_words (split_whitespace requested) [] [];
    Ok (join " " (sort_by family_leb families ++ purposes)).

Definition scope_families (scope : option string) : list string :=
  let words :=
    match trim <$> scope with
    | Some scope => if decide (scope = "") then [DEFAULT_SCOPE] else split_whitespace scope
    | None => [DEFAULT_SCOPE]
    end in
  filter (λ family, family ∈ words) FAMILIES.

Definition scope_opens (scope : option string) (family : string) : bool :=
  bool_decide (family ∈ scope_families scope).

Definition scope_is_purpose_only (scope : string) : bool :=
  let words := split_whitespace scope in
  negb (bool_decide (words = []))
  && forallb (λ word, negb (bool_decide (word ∈ FAMILIES)) && is_purpose word) words.

Definition expires_at_for (scope : string) (now : Z) : Z :=
  if scope_is_purpose_only scope then NO_EXPIRY else (now + TOKEN_TTL_SECS)%Z.

(** ** Redirects *)

Definition loopback_names : list string := ["localhost"; "127.0.0.1"; "[::1]"].
Definition stop_at (stops : list ascii) (c : ascii) : bool := bool_decide (c ∈ stops).

Section lower.
(** [str::to_lowercase], with Unicode's case mapping. *)
Context (to_lowercase : string → string).
Definition redirect_origin (redirect_uri : string) : string :=
  let rest :=
    match strip_prefix "https://" redirect_uri with
    | Some rest => rest
    | None => default redirect_uri (strip_prefix "http://" redirect_uri)
    end in
  let authority := until_chars (stop_at ["/"; "?"; "#"]%char) rest in
  let authority := match rsplit_once "@" authority with Some (_, host) => host | None => authority end in
  let host :=
    match rsplit_once ":" authority with
    | Some (host, port) => if all_chars is_ascii_digit port then host else authority
    | None => authority
    end in
  if decide (host ∈ loopback_names) then "this machine" else to_lowercase host.
End lower.

Definition redirect_uri_is_allowed (uri : string) : bool :=
  if contains_char "#" uri || contains_white uri then false
  else
    match strip_prefix "https://" uri with
    | Some rest => match rest with "" => false | String c _ => negb (bool_decide (c = "/"%char)) end
    | None =>
        match strip_prefix "http://" uri with
        | None => false
        | Some rest =>
            let authority := until_chars (stop_at ["/"; "?"]%char) rest in
            let host :=
              match rsplit_once ":" authority with
              | Some (host, port) => if all_chars is_ascii_digit port then host else authority
              | None => authority
              end in
            bool_decide (host ∈ loopback_names)
        end
    end.

(** ** PKCE and tokens *)

Definition challenge_char (c : ascii) : bool := is_ascii_alphanumeric c || bool_decide (c ∈ ["-"; "."; "_"; "~"]%char).
Definition code_challenge_is_well_formed (challenge : string) : bool :=
  bool_decide (43 ≤ String.length challenge ≤ 128) && all_chars challenge_char challenge.

Section hashes.
Context `{Crypto, Base64Url}.
Definition pkce_matches (verifier challenge : string) : bool :=
  code_challenge_is_well_formed verifier
  && bool_decide (b64url_encode (sha256 (String.list_byte_of_string verifier)) = challenge).
Definition hash_token (bearer : string) : string := encode_hex (sha256 (String.list_byte_of_string bearer)).
End hashes.

(** ** Query parameters *)

Section query.
Context `{Percent}.
(** [NON_ALPHANUMERIC] without [-], [.], [_] and [~]. *)
Definition NON_ALPHANUMERIC (c : ascii) : bool := negb (is_ascii_alphanumeric c).
Definition QUERY_VALUE (c : ascii) : bool := NON_ALPHANUMERIC c && negb (bool_decide (c ∈ ["-"; "."; "_"; "~"]%char)).

Fixpoint push_params (url : string) (separator : ascii) (params : list (string * string)) : string :=
  match params with
  | [] => url
  | (name, value) :: params =>
      if decide (value = "") then push_params url separator params
      else push_params (url +:+ String separator (name +:+ "=" +:+ utf8_percent_encode QUERY_VALUE value)) "&" params
  end.
Definition redirect_with (redirect_uri : string) (params : list (string * string)) : string :=
  push_params redirect_uri (if contains_char "?" redirect_uri then "&" else "?")%char params.
End query.

(** ** The limiter *)

(** Per source: when its window started, and the events counted in it. *)
Record Limiter : Type := mk_limiter {
  lm_per : Z;
  lm_window_secs : Z;
  lm_windows : gmap string (Z * Z);
}.
Definition Limiter_new (per window_secs : Z) : Limiter := mk_limiter per window_secs ∅.
Definition with_windows (l : Limiter) (w : gmap string (Z * Z)) : Limiter := mk_limiter (lm_per l) (lm_window_secs l) w.

Definition limiter_allow (l : Limiter) (source : string) (now : Z) : bool * Limiter :=
  let windows :=
    if decide (4096 ≤ Z.of_nat (size (lm_windows l)))%Z
    then filter (λ kv, saturating_sub_u64 now kv.2.1 < lm_window_secs l)%Z (lm_windows l)
    else lm_windows l in
  let '(started, count) := default (now, 0%Z) (windows !! source) in
  let '(started, count) :=
    if decide (lm_window_secs l ≤ saturating_sub_u64 now started)%Z then (now, 0%Z) else (started, count) in
  if decide (lm_per l ≤ count)%Z then (false, with_windows l (<[source := (started, count)]> windows))
  else (true, with_windows l (<[source := (started, (count + 1)%Z)]> windows)).

(** ** Scopes are canonical *)

Lemma collect_words_ok words fs ps fs' ps' :
  collect_words words fs ps = Ok (fs', ps') →
  (∀ f, f ∈ fs' ↔ f ∈ fs ∨ f ∈ words ∧ f ∈ FAMILIES) ∧ (∀ p, p ∈ ps' ↔ p ∈ ps ∨ p ∈ words ∧ p ∉ FAMILIES) ∧
  (∀ w, w ∈ words → w ∈ FAMILIES ∨ is_purpose w = true) ∧ (NoDup fs → NoDup fs') ∧ (NoDup ps → NoDup ps').
Proof.
  assert (Hadd : ∀ (l : list string) w, NoDup l → NoDup (if decide (w ∈ l) then l else l ++ [w])).
  { intros l w Hl. case_decide; [done|]. apply NoDup_app. split_and!; [done|set_solver|apply NoDup_singleton]. }
  assert (Hin : ∀ (l : list string) w x, x ∈ (if decide (w ∈ l) then l else l ++ [w]) ↔ x ∈ l ∨ x = w).
  { intros l w x. case_decide; set_solver. }
  revert fs ps; induction words as [|w words IH]; intros fs ps; cbn [collect_words].
  { intros [= <- <-]. split_and!; [set_solver..|done|done]. }
  destruct (decide (w ∈ FAMILIES)) as [Hf|Hf]; [|destruct (is_purpose w) eqn:Hp; [|done]].
  - intros (H1 & H2 & H3 & H4 & H5)%IH. split_and!; [|set_solver| |by intros ?%(Hadd fs w)%H4|done].
    + intros f. rewrite H1, Hin, elem_of_cons. split; intros; naive_solver.
    + intros x [->|Hx]%elem_of_cons; [by left|by apply H3].
  - intros (H1 & H2 & H3 & H4 & H5)%IH. split_and!; [set_solver| | |done|by intros ?%(Hadd ps w)%H5].
    + intros f. rewrite H2, Hin, elem_of_cons. split; intros; naive_solver.
    + intros x [->|Hx]%elem_of_cons; [by right|by apply H3].
Qed.

(** Families without repetition, then purposes without repetition, are collected as they are. *)
Lemma collect_purposes words fs ps :
  NoDup (ps ++ words) → (∀ w, w ∈ words → w ∉ FAMILIES ∧ is_purpose w = true) →
  collect_words words fs ps = Ok (fs, ps ++ words).
Proof.
  revert ps; induction words as [|w words IH]; intros ps Hnd Hw; cbn [collect_words]; [by rewrite app_nil_r|].
  destruct (Hw w) as [Hf Hp]; [by apply elem_of_cons; left|]. rewrite decide_False, Hp by done.
  assert (w ∉ ps) by (apply NoDup_app in Hnd as (_ & Hd & _); set_solver). rewrite decide_False by done.
  rewrite IH; [by rewrite <-app_assoc|by rewrite <-app_assoc|set_solver].
Qed.
Lemma collect_families words rest fs ps :
  NoDup (fs ++ words) → (∀ w, w ∈ words → w ∈ FAMILIES) →
  collect_words (words ++ rest) fs ps = collect_words rest (fs ++ words) ps.
Proof.
  revert fs; induction words as [|w words IH]; intros fs Hnd Hw; [by rewrite app_nil_r|].
  cbn [app collect_words]. rewrite decide_True by (apply Hw; by apply elem_of_cons; left).
  assert (w ∉ fs) by (apply NoDup_app in Hnd as (_ & Hd & _); set_solver). rewrite decide_False by done.
  rewrite IH; [by rewrite <-app_assoc|by rewrite <-app_assoc|set_solver].
Qed.

Lemma sort_by_id {A} (leb : A → A → bool) l : StronglySorted (λ a b, leb a b = true) l → sort_by leb l = l.
Proof.
  induction 1 as [|x l Hl IH Hx]; [done|]. cbn [sort_by foldr]. change (foldr (insert_by leb) [] l) with (sort_by leb l).
  rewrite IH. destruct l as [|y l]; [done|]. cbn. apply Forall_inv in Hx. by rewrite Hx.
Qed.
Lemma sort_families_sorted l : StronglySorted (λ a b, family_leb a b = true) (sort_by family_leb l).
Proof.
  apply sort_by_sorted; unfold family_leb; [intros x y|intros x y z]; rewrite !bool_decide_eq_true; lia.
Qed.

(** What a request's words are collected into. *)
Record collected (words sorted ps : list string) : Prop := {
  cl_in w : w ∈ sorted ++ ps ↔ w ∈ words;
  cl_nodup : NoDup (sorted ++ ps);
  cl_families w : w ∈ sorted → w ∈ FAMILIES;
  cl_purposes w : w ∈ ps → w ∉ FAMILIES ∧ is_purpose w = true;
}.
Lemma collect_words_collected words fs ps :
  collect_words words [] [] = Ok (fs, ps) → collected words (sort_by family_leb fs) ps.
Proof.
  intros (Hfs & Hps & Hw & Hnf & Hnp)%collect_words_ok. specialize (Hnf NoDup_nil_2). specialize (Hnp NoDup_nil_2).
  assert (Hsorted : ∀ f, f ∈ sort_by family_leb fs ↔ f ∈ words ∧ f ∈ FAMILIES).
  { intros f. rewrite sort_by_perm, Hfs. split; [intros [?%elem_of_nil|?]; done|by right]. }
  assert (Hpurposes : ∀ p, p ∈ ps ↔ p ∈ words ∧ p ∉ FAMILIES).
  { intros p. rewrite Hps. split; [intros [?%elem_of_nil|?]; done|by right]. }
  split.
  - intros w. rewrite elem_of_app, Hsorted, Hpurposes. destruct (decide (w ∈ FAMILIES)); tauto.
  - apply NoDup_app. split_and!; [by rewrite sort_by_perm| |done]. intros x [_ Hx]%Hsorted [_ Hx']%Hpurposes. done.
  - by intros w [_ Hf]%Hsorted.
  - intros w [Hin Hf]%Hpurposes. split; [done|]. destruct (Hw w Hin); [done|done].
Qed.

(** Normalising a scope is canonical.  A request that normalises opens
    exactly the families it did as it was sent, without repeated words and
    within the words sent (or the default), each a known family or a purpose;
    and the result normalises to itself. *)
Lemma normalize_scope_canonical requested scope :
  normalize_scope requested = Ok scope →
  normalize_scope (Some scope) = Ok scope ∧
  scope_families (Some scope) = scope_families requested ∧
  NoDup (split_whitespace scope) ∧
  (∀ w, w ∈ split_whitespace scope →
     (w ∈ FAMILIES ∨ is_purpose w = true) ∧
     (w ∈ split_whitespace (trim (default "" requested)) ∨ w = DEFAULT_SCOPE)).
Proof.
  unfold normalize_scope at 1. destruct (decide (default "" (trim <$> requested) = "")) as [He|Hne].
  { intros [= <-]. split; [vm_compute; reflexivity|]. split.
    - transitivity ["threads"]; [vm_compute; reflexivity|]. destruct requested as [r|]; cbn in He |- *; [|vm_compute; reflexivity].
      unfold scope_families. cbn [fmap option_fmap option_map]. rewrite He. vm_compute. reflexivity.
    - replace (split_whitespace DEFAULT_SCOPE) with ["threads"] by (vm_compute; reflexivity).
      split; [apply NoDup_singleton|]. intros w ->%list_elem_of_singleton. split; [left; apply elem_of_cons; by left|by right]. }
  destruct requested as [r|]; [|done]. cbn [fmap option_fmap option_map default from_option id] in Hne |- *.
  destruct (collect_words _ [] []) as [[fs ps]|e] eqn:Hc; [|done]. intros [= <-].
  apply collect_words_collected in Hc as [Hin Hnd Hfs Hps]. set (sorted := sort_by family_leb fs) in *.
  assert (Hok : Forall word_ok (sorted ++ ps)).
  { apply Forall_forall. intros w Hw. pose proof (split_whitespace_words (trim r)) as Hall.
    rewrite Forall_forall in Hall. by apply Hall, Hin. }
  assert (Hnonempty : sorted ++ ps ≠ []).
  { intros Heq. rewrite Heq in Hin. destruct (split_whitespace (trim r)) as [|w ws] eqn:Hws; [by apply (trimmed_words r)|].
    apply (elem_of_nil w), Hin. apply elem_of_cons. by left. }
  rewrite split_whitespace_join by done. split_and!.
  - unfold normalize_scope. cbn [fmap option_fmap option_map default from_option id]. rewrite trim_join by done.
    rewrite decide_False by (by apply join_nonempty). rewrite split_whitespace_join by done.
    pose proof Hnd as (Hnd1 & _ & Hnd2)%NoDup_app.
    rewrite (collect_families sorted ps [] []), collect_purposes by done. cbn [mbind result_bind].
    rewrite sort_by_id; [done|]. apply sort_families_sorted.
  - unfold scope_families. cbn [fmap option_fmap option_map]. rewrite trim_join by done.
    rewrite !decide_False by (done || by apply join_nonempty). rewrite split_whitespace_join by done.
    apply filter_ext. intros f _. apply Hin.
  - done.
  - intros w Hw. split; [|left; by apply Hin]. apply elem_of_app in Hw as [Hw|Hw]; [left; by apply Hfs|right; by apply Hps].
Qed.

(** ** Redirects *)

(** The redirect URIs a client may register.  An allowed URI has no
    fragment and no white space; it is an [https] URL with a host, or an [http]
    URL whose authority is exactly a loopback name with an optional port of
    digits (so there is no userinfo), followed by nothing, a path or a query. *)
Lemma redirect_uri_allowed_shape uri :
  redirect_uri_is_allowed uri = true →
  contains_char "#" uri = false ∧ contains_white uri = false ∧
  ((∃ c rest, uri = "https://" +:+ String c rest ∧ c ≠ "/"%char) ∨
   (∃ host port tail, uri = "http://" +:+ host +:+ port +:+ tail ∧ host ∈ loopback_names ∧
      (port = "" ∨ ∃ digits, port = ":" +:+ digits ∧ all_chars is_ascii_digit digits = true) ∧
      (tail = "" ∨ ∃ rest, tail = "/" +:+ rest ∨ tail = "?" +:+ rest))).
Proof.
  unfold redirect_uri_is_allowed. destruct (_ || _) eqn:Hbad; [done|]. apply orb_false_iff in Hbad as [Hhash Hwhite].
  intros Hok. split; [done|]. split; [done|]. destruct (strip_prefix "https://" uri) as [rest|] eqn:Hs.
  { left. apply strip_prefix_some in Hs as ->. destruct rest as [|c rest]; [done|]. exists c, rest. split; [done|].
    by apply negb_true_iff, bool_decide_eq_false in Hok. }
  right. destruct (strip_prefix "http://" uri) as [rest|] eqn:Hh; [|done]. apply strip_prefix_some in Hh as ->.
  destruct (until_chars_split (stop_at ["/"; "?"]%char) rest) as (tail & Hrest & Htail).
  set (authority := until_chars _ rest) in *. apply bool_decide_eq_true in Hok.
  assert (Ht : tail = "" ∨ ∃ rest, tail = "/" +:+ rest ∨ tail = "?" +:+ rest).
  { destruct Htail as [->|(c & r & -> & Hc)]; [by left|right]. exists r. apply bool_decide_eq_true in Hc.
    apply elem_of_cons in Hc as [->|[->|[]%elem_of_nil]%elem_of_cons]; [by left|by right]. }
  destruct (rsplit_once ":" authority) as [[host port]|] eqn:Hsplit; [destruct (all_chars is_ascii_digit port) eqn:Hd|].
  - apply rsplit_once_some in Hsplit as [Ha _]. exists host, (String ":" port), tail.
    split; [by rewrite Hrest, Ha, append_assoc|]. split; [done|]. split; [|done]. right. by exists port.
  - exists authority, "", tail. split; [by rewrite Hrest at 1|]. by split; [|split; [left|]].
  - exists authority, "", tail. split; [by rewrite Hrest at 1|]. by split; [|split; [left|]].
Qed.

(** A backslash does not end the authority here, although a browser ends it
    there: the origin shown is the text after the [@]. *)
Lemma redirect_origin_backslash to_lowercase :
  redirect_uri_is_allowed "https://evil.example\@bank.example/cb" = true ∧
  redirect_origin to_lowercase "https://evil.example\@bank.example/cb" = to_lowercase "bank.example".
Proof. split; reflexivity. Qed.

(** ** The limiter *)

Section limiter.
Context (per W : Z) (Hper : (0 ≤ per)%Z) (HW : (0 < W)%Z) (source : string) (t : Z).
Notation entry l := (lm_windows l !! source).

(** The events of the source a run admits in the interval of [W] seconds from [t]. *)
Fixpoint admitted (l : Limiter) (events : list (string * Z)) : Z :=
  match events with
  | [] => 0%Z
  | (src, now) :: events =>
      let '(ok, l') := limiter_allow l src now in
      ((if decide (ok = true ∧ src = source ∧ t ≤ now < t + W) then 1 else 0) + admitted l' events)%Z
  end.

(** How many more can be admitted in the interval, from an entry and a time. *)
Definition free (lo : Z) : Z := if decide (t ≤ lo)%Z then per else (2 * per)%Z.
Definition bound (lo : Z) (e : option (Z * Z)) : Z :=
  if decide (t + W ≤ lo)%Z then 0%Z
  else match e with
       | Some (s, c) =>
           if decide (s + W ≤ lo)%Z then free lo
           else if decide (t ≤ s)%Z then (per - c)%Z
           else if decide (s + W ≤ t)%Z then (2 * per)%Z
           else (per - c + per)%Z
       | None => free lo
       end.
Definition entry_ok (lo : Z) (e : option (Z * Z)) : Prop :=
  match e with Some (s, c) => (s ≤ lo ∧ 0 ≤ c ≤ per)%Z | None => True end.

(** One call: what it does to the source's own entry, and to another's. *)
Definition current (now : Z) (e : option (Z * Z)) : Z * Z :=
  match e with
  | Some (s, c) => if decide (s + W ≤ now)%Z then (now, 0%Z) else (s, c)
  | None => (now, 0%Z)
  end.
Lemma allow_same l now :
  lm_per l = per → lm_window_secs l = W → entry_ok now (entry l) →
  let '(s, c) := current now (entry l) in
  let ok := bool_decide (c < per)%Z in
  (limiter_allow l source now).1 = ok ∧
  entry (limiter_allow l source now).2 = Some (s, if ok then (c + 1)%Z else c).
Proof.
  intros Hp Hw He. unfold limiter_allow. rewrite Hp, Hw.
  set (windows := if decide (4096 ≤ _)%Z then _ else _).
  assert (Hwin : windows !! source = entry l ∨ (∃ s c, entry l = Some (s, c) ∧ (s + W ≤ now)%Z ∧ windows !! source = None)).
  { unfold windows. case_decide; [|by left]. destruct (entry l) as [[s c]|] eqn:Hl.
    - destruct (decide (s + W ≤ now)%Z) as [Hx|Hx].
      + right. exists s, c. split_and!; [done..|]. apply map_lookup_filter_None. right. intros v Hv. rewrite Hl in Hv.
        injection Hv as <-. unfold saturating_sub_u64. cbn in He |- *. lia.
      + left. apply map_lookup_filter_Some. split; [done|]. unfold saturating_sub_u64. cbn in He |- *. lia.
    - left. apply map_lookup_filter_None. by left. }
  assert (Hcur : ∀ e, e = windows !! source → (let '(s, c) := default (now, 0%Z) e in
    if decide (W ≤ saturating_sub_u64 now s)%Z then (now, 0%Z) else (s, c)) = current now (entry l)).
  { intros e ->. unfold saturating_sub_u64. destruct Hwin as [->|(s & c & Hl & Hx & ->)].
    - destruct (entry l) as [[s c]|]; cbn in *; repeat case_decide; try done; lia.
    - rewrite Hl. cbn. repeat case_decide; try done; lia. }
  specialize (Hcur _ eq_refl). destruct (default (now, 0%Z) (windows !! source)) as [s0 c0]. rewrite Hcur.
  destruct (current now (entry l)) as [s c]. destruct (decide (per ≤ c)%Z).
  - rewrite bool_decide_eq_false_2 by lia. cbn. by rewrite lookup_insert_eq.
  - rewrite bool_decide_eq_true_2 by lia. cbn. by rewrite lookup_insert_eq.
Qed.

Lemma allow_other l src now :
  lm_window_secs l = W → src ≠ source → entry_ok now (entry l) →
  entry (limiter_allow l src now).2 = entry l ∨
  (∃ s c, entry l = Some (s, c) ∧ (s + W ≤ now)%Z) ∧ entry (limiter_allow l src now).2 = None.
Proof.
  intros Hw Hne He. unfold limiter_allow. rewrite Hw.
  set (windows := if decide (4096 ≤ _)%Z then _ else _).
  assert (Hwin : windows !! source = entry l ∨ (∃ s c, entry l = Some (s, c) ∧ (s + W ≤ now)%Z) ∧ windows !! source = None).
  { unfold windows. case_decide; [|by left]. destruct (entry l) as [[s c]|] eqn:Hl.
    - destruct (decide (s + W ≤ now)%Z) as [Hx|Hx].
      + right. split; [by exists s, c|]. apply map_lookup_filter_None. right. intros v Hv. rewrite Hl in Hv.
        injection Hv as <-. unfold saturating_sub_u64. cbn in He |- *. lia.
      + left. apply map_lookup_filter_Some. split; [done|]. unfold saturating_sub_u64. cbn in He |- *. lia.
    - left. apply map_lookup_filter_None. by left. }
  destruct (default _ _) as [s0 c0]. destruct (if decide (W ≤ _)%Z then _ else _) as [s c].
  case_decide; cbn; by rewrite lookup_insert_ne by done.
Qed.

Lemma bound_nonneg lo e : entry_ok lo e → (0 ≤ bound lo e)%Z.
Proof. unfold bound, free. destruct e as [[s c]|]; cbn; repeat case_decide; lia. Qed.

Lemma allow_bound l src now lo :
  lm_per l = per → lm_window_secs l = W → (lo ≤ now)%Z → entry_ok lo (entry l) →
  let '(ok, l') := limiter_allow l src now in
  lm_per l' = per ∧ lm_window_secs l' = W ∧ entry_ok now (entry l') ∧
  ((if decide (ok = true ∧ src = source ∧ t ≤ now < t + W) then 1 else 0) + bound now (entry l') ≤ bound lo (entry l))%Z.
Proof.
  intros Hp Hw Hlo He. assert (He' : entry_ok now (entry l)) by (destruct (entry l) as [[]|]; cbn in *; lia).
  assert (Hconf : lm_per (limiter_allow l src now).2 = per ∧ lm_window_secs (limiter_allow l src now).2 = W).
  { unfold limiter_allow. destruct (default _ _) as [s0 c0]. destruct (if decide (lm_window_secs l ≤ _)%Z then _ else _) as [s c].
    by case_decide. }
  destruct (decide (src = source)) as [->|Hne].
  - pose proof (allow_same l now Hp Hw He') as Hsame. destruct (limiter_allow l source now) as [ok l']. cbn [fst snd] in Hsame, Hconf.
    destruct Hconf as [Hp' Hw']. destruct (entry l) as [[s c]|] eqn:Hl; cbn [current] in Hsame; [|destruct Hsame as [-> Hent]];
      [case_decide as Hx; destruct Hsame as [-> Hent]|]; cbn [fst snd] in Hent; rewrite Hent; cbn in He;
      (split; [done|split; [done|]]); unfold bound, free, entry_ok;
      match goal with |- context [bool_decide ?P] => destruct (bool_decide_reflect P) end;
      (split; [lia|]); repeat case_decide; lia.
  - destruct (allow_other l src now Hw Hne He') as [Hent|[(s & c & Hl & Hx) Hent]];
      destruct (limiter_allow l src now) as [ok l']; cbn [fst snd] in *; destruct Hconf as [Hp' Hw'];
      (split; [done|split; [done|]]); rewrite Hent; rewrite decide_False by naive_solver.
    + split; [done|]. destruct (entry l) as [[s c]|]; cbn in *; unfold bound, free; repeat case_decide; lia.
    + split; [done|]. rewrite Hl in *. cbn in *. unfold bound, free. repeat case_decide; lia.
Qed.

Lemma admitted_bound l events lo :
  lm_per l = per → lm_window_secs l = W → StronglySorted Z.le (lo :: events.*2) → entry_ok lo (entry l) →
  (admitted l events ≤ bound lo (entry l))%Z.
Proof.
  revert l lo; induction events as [|[src now] events IH]; intros l lo Hp Hw Hs He; cbn [admitted]; [by apply bound_nonneg|].
  apply StronglySorted_inv in Hs as [Hs Hlo]. pose proof (Forall_inv Hlo) as Hnow.
  pose proof (allow_bound l src now lo Hp Hw Hnow He) as Hstep. destruct (limiter_allow l src now) as [ok l'].
  destruct Hstep as (Hp' & Hw' & He' & Hb). specialize (IH l' now Hp' Hw' Hs He'). lia.
Qed.
End limiter.

(** The limiter bounds every interval.  Whatever other sources do, and
    whenever full tables are pruned: of the calls of one source, at increasing
    times, at most twice the limit are admitted in any interval of the window's
    length. *)
Lemma limiter_interval_bound (per W : Z) (source : string) (t : Z) (events : list (string * Z)) :
  (0 ≤ per)%Z → (0 < W)%Z → StronglySorted Z.le events.*2 →
  (admitted W source t (Limiter_new per W) events ≤ 2 * per)%Z.
Proof.
  intros Hper HW Hs. destruct events as [|[src now] events]; [cbn [admitted]; lia|].
  etrans; [apply (admitted_bound per W Hper HW source t _ _ now)|]; try done.
  - apply StronglySorted_inv in Hs as Hs'. constructor; [done|]. destruct Hs' as [_ Hf]. by constructor.
  - cbn [Limiter_new lm_windows]. rewrite lookup_empty. unfold bound, free. repeat case_decide; lia.
Qed.

(** The limit of the documentation, [per] in any window, is passed: one
    registration, nine at the end of its window, and ten at the start of the
    next are all admitted, nineteen of them within a second. *)
Lemma limiter_overshoots :
  let events := ("a", 0%Z) :: replicate 9 ("a", 599%Z) ++ replicate 10 ("a", 600%Z) in
  admitted REGISTER_LIMIT.2 "a" 599 (Limiter_new REGISTER_LIMIT.1 REGISTER_LIMIT.2) events = 19%Z.
Proof. vm_compute. reflexivity. Qed.
