(* ===== verification/OAuthServer.v ===== *)
(** * The authorization server ([src/oauth/server.rs], [src/oauth/store.rs])

    Clients register, open asks, poll them until the person answers, redeem the
    code for a token, and use it.  The server runs over a store that is an
    interface ([Store], with the in-memory reference implementation) and a
    consent seam whose answers are arguments; random strings are arguments. *)

From stdpp Require Import pretty.
From S2P Require Import Prelude Ordered External Toy Identity Text Words OAuth.

(** ** Data *)

Record Client : Type := mk_Client {
  cl_id : string;
  cl_name : string;
  cl_redirect_uris : list string;
  cl_registered_at : Z;
}.
Record Ask : Type := mk_Ask {
  ak_id : string;
  ak_client_id : string;
  ak_client_name : string;
  ak_issuer : string;
  ak_redirect_uri : string;
  ak_scope : option string;
  ak_state : option string;
  ak_code_challenge : string;
  ak_asked_at : Z;
  ak_code : option string;
  ak_code_issued_at : option Z;
  ak_code_used : bool;
}.
Inductive Answer : Type := Pending | Approved | Denied.
Record Token : Type := mk_Token {
  tk_id : string;
  tk_client_id : string;
  tk_client_name : string;
  tk_hash : string;
  tk_scope : option string;
  tk_issued_at : Z;
  tk_expires_at : Z;
  tk_last_used_at : option Z;
  tk_revoked_at : option Z;
}.
Inductive OAuthError : Type :=
  | StoreErr (why : string)
  | ConsentErr (why : string).

Definition is_live (t : Token) : bool := bool_decide (tk_revoked_at t = None).
Definition is_live_at (t : Token) (now : Z) : bool := is_live t && bool_decide (now < tk_expires_at t)%Z.
Definition runs_out (t : Token) : bool := negb (bool_decide (tk_expires_at t = NO_EXPIRY)).
Definition token_families (t : Token) : list string := scope_families (tk_scope t).
Definition token_opens (t : Token) (family : string) : bool := scope_opens (tk_scope t) family.

Definition with_code (a : Ask) (code : string) (now : Z) : Ask :=
  mk_Ask (ak_id a) (ak_client_id a) (ak_client_name a) (ak_issuer a) (ak_redirect_uri a) (ak_scope a) (ak_state a)
    (ak_code_challenge a) (ak_asked_at a) (Some code) (Some now) (ak_code_used a).
Definition with_used (a : Ask) : Ask :=
  mk_Ask (ak_id a) (ak_client_id a) (ak_client_name a) (ak_issuer a) (ak_redirect_uri a) (ak_scope a) (ak_state a)
    (ak_code_challenge a) (ak_asked_at a) (ak_code a) (ak_code_issued_at a) true.
Definition with_last_used (t : Token) (used : Z) : Token :=
  mk_Token (tk_id t) (tk_client_id t) (tk_client_name t) (tk_hash t) (tk_scope t) (tk_issued_at t) (tk_expires_at t)
    (Some used) (tk_revoked_at t).
Definition with_revoked (t : Token) (now : Z) : Token :=
  mk_Token (tk_id t) (tk_client_id t) (tk_client_name t) (tk_hash t) (tk_scope t) (tk_issued_at t) (tk_expires_at t)
    (tk_last_used_at t) (Some now).

(** [mint_code], [revoke_token] and [touch_token] on one record. *)
Definition minted (a : Ask) (code : string) (now : Z) : Ask :=
  match ak_code a with None => with_code a code now | Some _ => a end.
Definition revoked (t : Token) (now : Z) : Token :=
  match tk_revoked_at t with None => with_revoked t now | Some _ => t end.
Definition touched (t : Token) (used : Z) : Token := if is_live t then with_last_used t used else t.

(** ** The store *)

Class OStore (S : Type) : Type := {
  put_client : S → Client → result OAuthError () * S;
  get_client : S → string → result OAuthError (option Client);
  put_ask : S → Ask → result OAuthError () * S;
  get_ask : S → string → result OAuthError (option Ask);
  mint_code : S → string → string → Z → result OAuthError (option Ask) * S;
  redeem_code : S → string → result OAuthError (option Ask) * S;
  put_token : S → Token → result OAuthError () * S;
  revoke_token : S → string → Z → result OAuthError bool * S;
  touch_token : S → string → Z → result OAuthError () * S;
  get_token : S → string → result OAuthError (option Token);
  token_by_hash : S → string → result OAuthError (option Token);
  live_tokens : S → Z → result OAuthError (list Token);
}.

(** What a store holds. *)
Record OState : Type := mk_ostate {
  os_clients : gmap string Client;
  os_asks : gmap string Ask;
  os_tokens : gmap string Token;
}.
Definition os_empty : OState := mk_ostate ∅ ∅ ∅.
Definition st_client (st : OState) (c : Client) : OState :=
  mk_ostate (<[cl_id c := c]> (os_clients st)) (os_asks st) (os_tokens st).
Definition st_ask (st : OState) (id : string) (a : Ask) : OState :=
  mk_ostate (os_clients st) (<[id := a]> (os_asks st)) (os_tokens st).
Definition st_token (st : OState) (id : string) (t : Token) : OState :=
  mk_ostate (os_clients st) (os_asks st) (<[id := t]> (os_tokens st)).

(** A code's ask, waiting to be redeemed. *)
Definition redeemable (code : string) (a : Ask) : Prop := ak_code_used a = false ∧ ak_code a = Some code.
#[export] Instance redeemable_dec code a : Decision (redeemable code a).
Proof. unfold redeemable. apply _. Defined.

(** What the server relies on: every call fails and leaves the store as it was,
    or does what it says. *)
Class OStoreOk (S : Type) `{!OStore S} (rep : S → OState) : Prop := {
  put_client_ok s c r s' : put_client s c = (r, s') →
    r = Ok () ∧ rep s' = st_client (rep s) c ∨ (∃ e, r = Err e) ∧ rep s' = rep s;
  get_client_ok s id o : get_client s id = Ok o → o = os_clients (rep s) !! id;
  put_ask_ok s a r s' : put_ask s a = (r, s') →
    r = Ok () ∧ rep s' = st_ask (rep s) (ak_id a) a ∨ (∃ e, r = Err e) ∧ rep s' = rep s;
  get_ask_ok s id o : get_ask s id = Ok o → o = os_asks (rep s) !! id;
  mint_code_ok s id code now r s' : mint_code s id code now = (r, s') →
    (∃ a, os_asks (rep s) !! id = Some a ∧ r = Ok (Some (minted a code now)) ∧
       rep s' = st_ask (rep s) id (minted a code now)) ∨
    ((∃ e, r = Err e) ∨ r = Ok None) ∧ rep s' = rep s;
  redeem_code_ok s code r s' : redeem_code s code = (r, s') →
    (∃ id a, os_asks (rep s) !! id = Some a ∧ redeemable code a ∧ r = Ok (Some (with_used a)) ∧
       rep s' = st_ask (rep s) id (with_used a)) ∨
    ((∃ e, r = Err e) ∨ r = Ok None) ∧ rep s' = rep s;
  put_token_ok s t r s' : put_token s t = (r, s') →
    os_tokens (rep s) !! tk_id t = None ∧ r = Ok () ∧ rep s' = st_token (rep s) (tk_id t) t ∨
    (∃ e, r = Err e) ∧ rep s' = rep s;
  revoke_token_ok s id now r s' : revoke_token s id now = (r, s') →
    (∃ t, os_tokens (rep s) !! id = Some t ∧ r = Ok true ∧ rep s' = st_token (rep s) id (revoked t now)) ∨
    ((∃ e, r = Err e) ∨ os_tokens (rep s) !! id = None ∧ r = Ok false) ∧ rep s' = rep s;
  touch_token_ok s id used r s' : touch_token s id used = (r, s') →
    (∃ t, os_tokens (rep s) !! id = Some t ∧ r = Ok () ∧ rep s' = st_token (rep s) id (touched t used)) ∨
    ((∃ e, r = Err e) ∨ os_tokens (rep s) !! id = None ∧ r = Ok ()) ∧ rep s' = rep s;
  token_by_hash_ok s hash o : token_by_hash s hash = Ok o →
    match o with
    | Some t => (∃ id, os_tokens (rep s) !! id = Some t) ∧ tk_hash t = hash
    | None => ∀ id t, os_tokens (rep s) !! id = Some t → tk_hash t ≠ hash
    end;
}.

(** ** [MemoryStore] *)

(** The order in which a [HashMap] is iterated is its own. *)
Class HashOrder := { hash_iter : ∀ {A : Type}, gmap string A → list (string * A) }.
Class HashOrderOk `{HashOrder} : Prop := hash_iter_perm A (m : gmap string A) : hash_iter m ≡ₚ map_to_list m.

Section memory.
Context `{HashOrder}.
Definition MemoryStore : Type := OState.

Definition find_redeemable (code : string) (asks : gmap string Ask) : option (string * Ask) :=
  List.find (λ kv, bool_decide (redeemable code kv.2)) (hash_iter asks).
Definition token_leb (a b : Token) : bool :=
  match cmp (tk_issued_at a) (tk_issued_at b) with
  | Lt => true
  | Gt => false
  | Eq => bool_decide (cmp (tk_id a) (tk_id b) ≠ Gt)
  end.

Definition memory_put_token (s : MemoryStore) (t : Token) : result OAuthError () * MemoryStore :=
  match os_tokens s !! tk_id t with
  | Some _ => (Err (StoreErr ("token " +:+ tk_id t +:+ " is already held")), s)
  | None => (Ok (), st_token s (tk_id t) t)
  end.

#[export] Instance memory_store : OStore MemoryStore := {|
  put_client s c := (Ok (), st_client s c);
  get_client s id := Ok (os_clients s !! id);
  put_ask s a := (Ok (), st_ask s (ak_id a) a);
  get_ask s id := Ok (os_asks s !! id);
  mint_code s id code now :=
    match os_asks s !! id with
    | None => (Ok None, s)
    | Some a => (Ok (Some (minted a code now)), st_ask s id (minted a code now))
    end;
  redeem_code s code :=
    match find_redeemable code (os_asks s) with
    | None => (Ok None, s)
    | Some (id, a) => (Ok (Some (with_used a)), st_ask s id (with_used a))
    end;
  put_token := memory_put_token;
  revoke_token s id now :=
    match os_tokens s !! id with
    | None => (Ok false, s)
    | Some t => (Ok true, st_token s id (revoked t now))
    end;
  touch_token s id used :=
    match os_tokens s !! id with
    | None => (Ok (), s)
    | Some t => (Ok (), st_token s id (touched t used))
    end;
  get_token s id := Ok (os_tokens s !! id);
  token_by_hash s hash := Ok (List.find (λ t, bool_decide (tk_hash t = hash)) (hash_iter (os_tokens s)).*2);
  live_tokens s now := Ok (sort_by token_leb (filter (λ t, is_live_at t now = true) (hash_iter (os_tokens s)).*2));
|}.

Context `{!HashOrderOk}.
#[export] Instance memory_store_ok : OStoreOk MemoryStore id.
Proof.
  split; unfold id; cbn.
  - intros s c r s' [= <- <-]. by left.
  - by intros s i o [= <-].
  - intros s a r s' [= <- <-]. by left.
  - by intros s i o [= <-].
  - intros s i code now r s'. destruct (os_asks s !! i) as [a|]; intros [= <- <-]; [left; exists a; auto|right; auto].
  - intros s code r s'. unfold find_redeemable. destruct (List.find _ _) as [[i a]|] eqn:Hf; intros [= <- <-]; [|right; auto].
    left. exists i, a. apply find_some in Hf as [Hin Hr]. apply bool_decide_eq_true in Hr.
    apply list_elem_of_In in Hin. rewrite hash_iter_perm, elem_of_map_to_list in Hin. exact (conj Hin (conj Hr (conj eq_refl eq_refl))).
  - intros s t r s'. unfold memory_put_token. destruct (os_tokens s !! tk_id t) eqn:Ht; intros [= <- <-];
      [right; split; [by eexists|done]|by left].
  - intros s i now r s'. destruct (os_tokens s !! i) as [t|]; intros [= <- <-]; [left; exists t; auto|right; auto].
  - intros s i used r s'. destruct (os_tokens s !! i) as [t|]; intros [= <- <-]; [left; exists t; auto|right; auto].
  - intros s hash o [= <-]. destruct (List.find _ _) as [t|] eqn:Hf.
    + apply find_some in Hf as [Hin Ht]. apply bool_decide_eq_true in Ht. split; [|done].
      apply list_elem_of_In, list_elem_of_fmap in Hin as ([i t'] & -> & Hin). exists i.
      by rewrite hash_iter_perm, elem_of_map_to_list in Hin.
    + intros i t Ht Heq. assert (Hin : In t (hash_iter (os_tokens s)).*2).
      { apply list_elem_of_In, list_elem_of_fmap. exists (i, t). split; [done|]. by rewrite hash_iter_perm, elem_of_map_to_list. }
      apply (find_none _ _ Hf t), bool_decide_eq_false in Hin. done.
Qed.
End memory.

(** ** Wire types *)

Record Registration : Type := mk_Registration { rg_client_name : option string; rg_redirect_uris : list string }.
Record RegistrationRefusal : Type := mk_RegistrationRefusal { rr_error : string; rr_description : string }.
Record AuthorizeRequest : Type := mk_AuthorizeRequest {
  ar_response_type : option string;
  ar_client_id : option string;
  ar_redirect_uri : option string;
  ar_scope : option string;
  ar_state : option string;
  ar_code_challenge : option string;
  ar_code_challenge_method : option string;
}.
Inductive Refusal : Type :=
  | RefusalPage (status : Z) (message : string)
  | RefusalRedirect (url : string).
Inductive Progress : Type :=
  | Waiting
  | ProgressRedirect (url : string)
  | ProgressDenied (url : string)
  | Gone.
Record TokenRequest : Type := mk_TokenRequest {
  tr_grant_type : option string;
  tr_code : option string;
  tr_redirect_uri : option string;
  tr_client_id : option string;
  tr_code_verifier : option string;
}.
Record Issued : Type := mk_Issued {
  is_access_token : string;
  is_token_type : string;
  is_expires_in : option Z;
  is_scope : string;
}.
Record TokenRefusal : Type := mk_TokenRefusal { tf_error : string; tf_description : string }.
Definition refusal_status (r : TokenRefusal) : Z := if decide (tf_error r = "invalid_client") then 401 else 400.

Record Registered : Type := mk_Registered {
  rd_client_id : string;
  rd_client_name : string;
  rd_redirect_uris : list string;
  rd_client_id_issued_at : Z;
  rd_token_endpoint_auth_method : string;
  rd_grant_types : list string;
  rd_response_types : list string;
}.
Definition Registered_from (c : Client) : Registered :=
  mk_Registered (cl_id c) (cl_name c) (cl_redirect_uris c) (cl_registered_at c) "none" ["authorization_code"] ["code"].

Record ServerMetadata : Type := mk_ServerMetadata {
  sm_issuer : string;
  sm_authorization_endpoint : string;
  sm_token_endpoint : string;
  sm_registration_endpoint : string;
  sm_revocation_endpoint : string;
  sm_response_types_supported : list string;
  sm_grant_types_supported : list string;
  sm_code_challenge_methods_supported : list string;
  sm_token_endpoint_auth_methods_supported : list string;
  sm_revocation_endpoint_auth_methods_supported : list string;
  sm_scopes_supported : list string;
}.
Record ResourceMetadata : Type := mk_ResourceMetadata {
  rm_resource : string;
  rm_authorization_servers : list string;
  rm_bearer_methods_supported : list string;
  rm_scopes_supported : list string;
}.
Definition server_metadata (issuer : string) : ServerMetadata :=
  let issuer := trim_end_char "/" issuer in
  mk_ServerMetadata issuer (issuer +:+ "/oauth/authorize") (issuer +:+ "/oauth/token") (issuer +:+ "/oauth/register")
    (issuer +:+ "/oauth/revoke") ["code"] ["authorization_code"] ["S256"] ["none"] ["none"] FAMILIES.
Definition resource_metadata (issuer : string) : ResourceMetadata :=
  let issuer := trim_end_char "/" issuer in
  mk_ResourceMetadata issuer [issuer] ["header"] FAMILIES.

(** A double quote. *)
Definition quote : string := String (Ascii.ascii_of_nat 34) "".
Definition www_authenticate (issuer : string) (scope : option string) : string :=
  let issuer := trim_end_char "/" issuer in
  let value := "Bearer resource_metadata=" +:+ quote +:+ issuer +:+ "/.well-known/oauth-protected-resource" +:+ quote in
  match scope with
  | Some scope => if decide (scope = "") then value else value +:+ ", scope=" +:+ quote +:+ scope +:+ quote
  | None => value
  end.
Definition insufficient_scope (issuer scope : string) : string :=
  let issuer := trim_end_char "/" issuer in
  "Bearer error=" +:+ quote +:+ "insufficient_scope" +:+ quote +:+ ", scope=" +:+ quote +:+ scope +:+ quote
    +:+ ", resource_metadata=" +:+ quote +:+ issuer +:+ "/.well-known/oauth-protected-resource" +:+ quote.

(** ** The server *)

(** [.as_deref().map(str::trim).filter(|s| !s.is_empty())] *)
Definition trimmed (o : option string) : option string :=
  match trim <$> o with Some s => if decide (s = "") then None else Some s | None => None end.

Definition code_is_fresh (ask : Ask) (now : Z) : bool :=
  match ak_code_issued_at ask with
  | Some issued => bool_decide (saturating_sub_u64 now issued ≤ CODE_TTL_SECS)%Z
  | None => false
  end.

Section server.
Context `{Crypto, Base64Url, Percent} {S : Type} `{!OStore S}.

Record Server : Type := mk_Server {
  sv_store : S;
  sv_registers : Limiter;
  sv_asks : Limiter;
}.
Definition Server_new (store : S) : Server :=
  mk_Server store (Limiter_new REGISTER_LIMIT.1 REGISTER_LIMIT.2) (Limiter_new AUTHORIZE_LIMIT.1 AUTHORIZE_LIMIT.2).
Definition with_store (v : Server) (s : S) : Server := mk_Server s (sv_registers v) (sv_asks v).

Definition may_register (v : Server) (source : string) (now : Z) : bool * Server :=
  let '(ok, l) := limiter_allow (sv_registers v) source now in (ok, mk_Server (sv_store v) l (sv_asks v)).
Definition may_ask (v : Server) (source : string) (now : Z) : bool * Server :=
  let '(ok, l) := limiter_allow (sv_asks v) source now in (ok, mk_Server (sv_store v) (sv_registers v) l).

(** [?] on a call of the store that may change it. *)
Definition try_store {A B} (c : result OAuthError A * S) (k : A → S → result OAuthError B * S)
    : result OAuthError B * S :=
  match c with (Ok x, s) => k x s | (Err e, s) => (Err e, s) end.

Definition register (s : S) (registration : Registration) (id : string) (now : Z)
    : result OAuthError (result RegistrationRefusal Client) * S :=
  match trimmed (rg_client_name registration) with
  | None => (Ok (Err (mk_RegistrationRefusal "invalid_client_metadata"
      "client_name is required: the person is asked whether to let it in by that name")), s)
  | Some name =>
      if decide (80 < char_count name)
      then (Ok (Err (mk_RegistrationRefusal "invalid_client_metadata" "client_name is at most 80 characters")), s)
      else if decide (rg_redirect_uris registration = [])
      then (Ok (Err (mk_RegistrationRefusal "invalid_redirect_uri" "redirect_uris is required")), s)
      else
        match List.find (λ uri, negb (redirect_uri_is_allowed uri)) (rg_redirect_uris registration) with
        | Some uri => (Ok (Err (mk_RegistrationRefusal "invalid_redirect_uri"
            (uri +:+ " is not an https URL or an http URL on the loopback, or it has a fragment"))), s)
        | None =>
            let client := mk_Client id name (rg_redirect_uris registration) now in
            try_store (put_client s client) (λ _ s, (Ok (Ok client), s))
        end
  end.

(** The checks of [authorize] once the client and its redirect are known: the
    refusal's error and description, or the challenge and scope of the ask. *)
Definition authorize_checks (request : AuthorizeRequest) : result (string * string) (string * string) :=
  if decide (trim <$> ar_response_type request ≠ Some "code")
  then Err ("unsupported_response_type", "Only response_type=code is supported.")
  else if decide (default "S256" (trim <$> ar_code_challenge_method request) ≠ "S256")
  then Err ("invalid_request", "Only code_challenge_method=S256 is supported.")
  else
    match trim <$> ar_code_challenge request with
    | Some challenge =>
        if code_challenge_is_well_formed challenge then
          match normalize_scope (ar_scope request) with
          | Ok scope => Ok (challenge, scope)
          | Err why => Err ("invalid_scope", why)
          end
        else Err ("invalid_request",
                  "PKCE is required: send a code_challenge of 43 to 128 unreserved characters.")
    | None => Err ("invalid_request",
                   "PKCE is required: send a code_challenge of 43 to 128 unreserved characters.")
    end.

(** [consent_ask] is what [Consent::ask] answers. *)
Definition authorize (s : S) (request : AuthorizeRequest) (issuer : string) (consent_ask : result OAuthError ())
    (id : string) (now : Z) : result OAuthError (result Refusal Ask) * S :=
  let issuer := trim_end_char "/" issuer in
  let page message := (Ok (Err (RefusalPage 400 message)), s) in
  match trimmed (ar_client_id request) with
  | None => page "The request names no client_id."
  | Some client_id =>
      match get_client s client_id with
      | Err e => (Err e, s)
      | Ok None => page "No client with that client_id has registered here."
      | Ok (Some client) =>
          match trimmed (ar_redirect_uri request) with
          | None => page "The request names no redirect_uri."
          | Some redirect_uri =>
              if decide (redirect_uri ∉ cl_redirect_uris client)
              then page "The redirect_uri is not one the client registered."
              else
                match authorize_checks request with
                | Err (error, description) =>
                    (Ok (Err (RefusalRedirect (redirect_with redirect_uri
                       [("error", error); ("error_description", description);
                        ("state", default "" (ar_state request)); ("iss", issuer)]))), s)
                | Ok (code_challenge, scope) =>
                    let state := match ar_state request with
                                 | Some st => if decide (st = "") then None else Some st
                                 | None => None
                                 end in
                    let ask := mk_Ask id (cl_id client) (cl_name client) issuer redirect_uri (Some scope) state
                                 code_challenge now None None false in
                    try_store (put_ask s ask) (λ _ s,
                      match consent_ask with Err e => (Err e, s) | Ok _ => (Ok (Ok ask), s) end)
                end
          end
      end
  end.

Definition approved_redirect (ask : Ask) (code : string) : string :=
  redirect_with (ak_redirect_uri ask)
    [("code", code); ("state", default "" (ak_state ask)); ("iss", ak_issuer ask); ("client_id", ak_client_id ask)].
Definition denied_redirect (ask : Ask) : string :=
  redirect_with (ak_redirect_uri ask)
    [("error", "access_denied"); ("error_description", "The person did not let the client in.");
     ("state", default "" (ak_state ask)); ("iss", ak_issuer ask)].
Definition code_progress (ask : Ask) (now : Z) : Progress :=
  match ak_code ask with
  | Some code => if code_is_fresh ask now then ProgressRedirect (approved_redirect ask code) else Gone
  | None => Gone
  end.

(** [answer] is what [Consent::answer] reports, [code] the random code. *)
Definition progress (s : S) (ask_id : string) (answer : result OAuthError Answer) (code : string) (now : Z)
    : result OAuthError Progress * S :=
  match get_ask s ask_id with
  | Err e => (Err e, s)
  | Ok None => (Ok Gone, s)
  | Ok (Some ask) =>
      if ak_code_used ask then (Ok Gone, s)
      else
        match ak_code ask with
        | Some _ => (Ok (code_progress ask now), s)
        | None =>
            if decide (ASK_TTL_SECS < saturating_sub_u64 now (ak_asked_at ask))%Z then (Ok Gone, s)
            else
              match answer with
              | Err e => (Err e, s)
              | Ok Pending => (Ok Waiting, s)
              | Ok Denied => (Ok (ProgressDenied (denied_redirect ask)), s)
              | Ok Approved =>
                  try_store (mint_code s (ak_id ask) code now) (λ minted s,
                    (Ok (match minted with Some ask => code_progress ask now | None => Gone end), s))
              end
        end
  end.

(** The checks of [token] on the redeemed ask. *)
Definition token_checks (request : TokenRequest) (verifier : string) (ask : Ask) (now : Z) : result TokenRefusal () :=
  if negb (code_is_fresh ask now)
  then Err (mk_TokenRefusal "invalid_grant" "The code is older than ten minutes.")
  else if decide (trim <$> tr_client_id request ≠ Some (ak_client_id ask))
  then Err (mk_TokenRefusal "invalid_client" "The client_id is not the one that asked.")
  else if decide (trim <$> tr_redirect_uri request ≠ Some (ak_redirect_uri ask))
  then Err (mk_TokenRefusal "invalid_grant" "The redirect_uri is not the one the ask was made with.")
  else if negb (pkce_matches verifier (ak_code_challenge ask))
  then Err (mk_TokenRefusal "invalid_grant" "The code_verifier does not match the code_challenge.")
  else Ok ().

Definition token_for (ask : Ask) (secret id : string) (now : Z) : Token :=
  let scope := default DEFAULT_SCOPE (ak_scope ask) in
  mk_Token id (ak_client_id ask) (ak_client_name ask) (hash_token secret) (Some scope) now
    (expires_at_for scope now) None None.

Definition token (s : S) (request : TokenRequest) (secret id : string) (now : Z)
    : result OAuthError (result TokenRefusal Issued) * S :=
  let refuse error description := Ok (Err (mk_TokenRefusal error description)) in
  if decide (trim <$> tr_grant_type request ≠ Some "authorization_code")
  then (refuse "unsupported_grant_type" "Only grant_type=authorization_code is supported.", s)
  else
    match trimmed (tr_code request), trimmed (tr_code_verifier request) with
    | None, _ => (refuse "invalid_request" "code is required.", s)
    | Some _, None => (refuse "invalid_request" "code_verifier is required.", s)
    | Some code, Some verifier =>
        try_store (redeem_code s code) (λ redeemed s,
          match redeemed with
          | None => (refuse "invalid_grant"
                       "The code is not one this server issued, or it was already redeemed.", s)
          | Some ask =>
              match token_checks request verifier ask now with
              | Err refusal => (Ok (Err refusal), s)
              | Ok _ =>
                  let t := token_for ask secret id now in
                  try_store (put_token s t) (λ _ s,
                    (Ok (Ok (mk_Issued secret "Bearer" (if runs_out t then Some TOKEN_TTL_SECS else None)
                               (default DEFAULT_SCOPE (ak_scope ask)))), s))
              end
          end)
    end.

Definition revoke (s : S) (bearer : string) (now : Z) : result OAuthError () * S :=
  match token_by_hash s (hash_token (trim bearer)) with
  | Err e => (Err e, s)
  | Ok None => (Ok (), s)
  | Ok (Some t) => try_store (revoke_token s (tk_id t) now) (λ _ s, (Ok (), s))
  end.

Definition admit_bearer (s : S) (bearer : string) (now : Z) : result OAuthError (option Token) * S :=
  let bearer := trim bearer in
  if decide (bearer = "") then (Ok None, s)
  else
    match token_by_hash s (hash_token bearer) with
    | Err e => (Err e, s)
    | Ok None => (Ok None, s)
    | Ok (Some t) =>
        if negb (is_live_at t now) then (Ok None, s)
        else
          let stale := match tk_last_used_at t with
                       | None => true
                       | Some used => bool_decide (TOUCH_EVERY_SECS ≤ saturating_sub_u64 now used)%Z
                       end in
          if stale then try_store (touch_token s (tk_id t) now) (λ _ s, (Ok (Some (with_last_used t now)), s))
          else (Ok (Some t), s)
    end.
End server.
