(* ===== verification/OAuthRuns.v ===== *)
(** * Runs of the authorization server

    Any sequence of requests to [OAuthServer.v], with any answers of the store,
    the person and the random source: an abstract account of what each request
    does to what the store holds, that the server refines it, and what follows
    for codes and tokens. *)

From S2P Require Import Prelude Ordered External Toy Identity Text Words OAuth OAuthServer.

Inductive OCall : Type :=
  | CallRegister (registration : Registration) (id : string)
  | CallAuthorize (request : AuthorizeRequest) (issuer : string) (consent : result OAuthError ()) (id : string)
  | CallProgress (ask_id : string) (answer : result OAuthError Answer) (code : string)
  | CallToken (request : TokenRequest) (secret id : string)
  | CallRevoke (bearer : string)
  | CallAdmit (bearer : string).
Inductive OOut : Type :=
  | OutRegister (r : result OAuthError (result RegistrationRefusal Client))
  | OutAuthorize (r : result OAuthError (result Refusal Ask))
  | OutProgress (r : result OAuthError Progress)
  | OutToken (r : result OAuthError (result TokenRefusal Issued))
  | OutRevoke (r : result OAuthError ())
  | OutAdmit (r : result OAuthError (option Token)).

(** A request at a time, with its answer. *)
Record Event : Type := mk_event { ev_now : Z; ev_call : OCall; ev_out : OOut }.

Section step.
Context `{Crypto, Base64Url, Percent} {S : Type} `{!OStore S}.

Definition ostep (s : S) (now : Z) (call : OCall) : OOut * S :=
  match call with
  | CallRegister r id => let '(out, s) := register s r id now in (OutRegister out, s)
  | CallAuthorize r issuer consent id => let '(out, s) := authorize s r issuer consent id now in (OutAuthorize out, s)
  | CallProgress ask_id answer code => let '(out, s) := progress s ask_id answer code now in (OutProgress out, s)
  | CallToken r secret id => let '(out, s) := token s r secret id now in (OutToken out, s)
  | CallRevoke bearer => let '(out, s) := revoke s bearer now in (OutRevoke out, s)
  | CallAdmit bearer => let '(out, s) := admit_bearer s bearer now in (OutAdmit out, s)
  end.

(** The events of a run, the latest first. *)
Fixpoint orun (s : S) (h : list Event) (calls : list (Z * OCall)) : list Event * S :=
  match calls with
  | [] => (h, s)
  | (now, call) :: calls => let '(out, s) := ostep s now call in orun s (mk_event now call out :: h) calls
  end.

(** ** What a request does *)

(** The ask that an authorize request opens for a client. *)
Definition opens_ask (request : AuthorizeRequest) (issuer id : string) (now : Z) (client : Client) (ask : Ask) : Prop :=
  ∃ redirect_uri challenge scope state,
    trimmed (ar_redirect_uri request) = Some redirect_uri ∧ redirect_uri ∈ cl_redirect_uris client ∧
    authorize_checks request = Ok (challenge, scope) ∧
    ask = mk_Ask id (cl_id client) (cl_name client) (trim_end_char "/" issuer) redirect_uri (Some scope) state
            challenge now None None false.

(** The answers after which the store is unchanged and nothing was granted. *)
Definition quiet (out : OOut) : Prop :=
  match out with
  | OutToken (Ok (Ok _)) | OutAdmit (Ok (Some _)) | OutRevoke (Ok _) => False
  | _ => True
  end.

Inductive effect (now : Z) : OCall → OOut → OState → OState → Prop :=
  | eff_none call out st : quiet out → effect now call out st st
  | eff_register registration id c st :
      cl_id c = id → Forall (λ uri, redirect_uri_is_allowed uri = true) (cl_redirect_uris c) →
      effect now (CallRegister registration id) (OutRegister (Ok (Ok c))) st (st_client st c)
  | eff_authorize request issuer consent id out cid client ask st :
      trimmed (ar_client_id request) = Some cid → os_clients st !! cid = Some client →
      opens_ask request issuer id now client ask →
      effect now (CallAuthorize request issuer consent id) (OutAuthorize out) st (st_ask st id ask)
  | eff_mint ask_id code out ask a st :
      os_asks st !! ask_id = Some ask → ak_code ask = None → os_asks st !! ak_id ask = Some a →
      effect now (CallProgress ask_id (Ok Approved) code) (OutProgress out) st
        (st_ask st (ak_id ask) (minted a code now))
  | eff_burn request secret id out code aid a st :
      trimmed (tr_code request) = Some code → os_asks st !! aid = Some a → redeemable code a →
      quiet (OutToken out) →
      effect now (CallToken request secret id) (OutToken out) st (st_ask st aid (with_used a))
  | eff_issue request secret id code verifier issued aid a st :
      trimmed (tr_code request) = Some code → trimmed (tr_code_verifier request) = Some verifier →
      os_asks st !! aid = Some a → redeemable code a → token_checks request verifier a now = Ok () →
      os_tokens st !! id = None → is_access_token issued = secret →
      effect now (CallToken request secret id) (OutToken (Ok (Ok issued))) st
        (st_token (st_ask st aid (with_used a)) id (token_for a secret id now))
  | eff_revoke bearer t t' st tid :
      os_tokens st !! tid = Some t → tk_hash t = hash_token (trim bearer) → os_tokens st !! tk_id t = Some t' →
      effect now (CallRevoke bearer) (OutRevoke (Ok ())) st (st_token st (tk_id t) (revoked t' now))
  | eff_revoke_lost bearer t st tid :
      os_tokens st !! tid = Some t → tk_hash t = hash_token (trim bearer) → os_tokens st !! tk_id t = None →
      effect now (CallRevoke bearer) (OutRevoke (Ok ())) st st
  | eff_revoke_unknown bearer st :
      (∀ id t, os_tokens st !! id = Some t → tk_hash t ≠ hash_token (trim bearer)) →
      effect now (CallRevoke bearer) (OutRevoke (Ok ())) st st
  | eff_admit bearer t t' st st' tid :
      os_tokens st !! tid = Some t → tk_hash t = hash_token (trim bearer) → is_live_at t now = true →
      t' = t ∨ t' = with_last_used t now →
      st' = st ∨ (∃ t0, os_tokens st !! tk_id t = Some t0 ∧ st' = st_token st (tk_id t) (touched t0 now)) →
      effect now (CallAdmit bearer) (OutAdmit (Ok (Some t'))) st st'.

Context (rep : S → OState) `{!OStoreOk S rep}.

Lemma register_effect s registration id now out s' :
  register s registration id now = (out, s') →
  effect now (CallRegister registration id) (OutRegister out) (rep s) (rep s').
Proof.
  unfold register. destruct (trimmed _) as [name|]; [|intros [= <- <-]; by constructor].
  case_decide; [intros [= <- <-]; by constructor|]. case_decide; [intros [= <- <-]; by constructor|].
  destruct (List.find _ _) eqn:Hf; [intros [= <- <-]; by constructor|].
  set (c := mk_Client _ _ _ _). destruct (put_client s c) as [r s1] eqn:Hp. cbn [try_store].
  apply put_client_ok in Hp as [[-> Hs]|[[e ->] Hs]]; intros [= <- <-]; rewrite Hs; [|by constructor].
  apply eff_register; [done|]. apply Forall_forall. intros uri Hin%list_elem_of_In.
  by apply (find_none _ _ Hf), negb_false_iff in Hin.
Qed.

Lemma authorize_effect s request issuer consent id now out s' :
  authorize s request issuer consent id now = (out, s') →
  effect now (CallAuthorize request issuer consent id) (OutAuthorize out) (rep s) (rep s').
Proof.
  unfold authorize. destruct (trimmed (ar_client_id request)) as [cid|] eqn:Hcid; [|intros [= <- <-]; by constructor].
  destruct (get_client s cid) as [[client|]|e] eqn:Hc; [|intros [= <- <-]; by constructor..].
  apply get_client_ok in Hc. destruct (trimmed (ar_redirect_uri request)) as [uri|] eqn:Huri; [|intros [= <- <-]; by constructor].
  case_decide as Hin; [intros [= <- <-]; by constructor|].
  destruct (authorize_checks request) as [[challenge scope]|[error description]] eqn:Hk; [|intros [= <- <-]; by constructor].
  set (ask := mk_Ask _ _ _ _ _ _ _ _ _ _ _ _). destruct (put_ask s ask) as [r s1] eqn:Hp. cbn [try_store].
  apply put_ask_ok in Hp as [[-> Hs]|[[e ->] Hs]]; [|intros [= <- <-]; rewrite Hs; by constructor].
  intros Hout. change (ak_id ask) with id in Hs. assert (rep s' = st_ask (rep s) id ask) as -> by (rewrite <-Hs; by destruct consent; injection Hout as _ <-).
  eapply eff_authorize; [done|by symmetry|]. eexists uri, challenge, scope, _. split; [done|].
  split; [|done]. destruct (decide (uri ∈ cl_redirect_uris client)); [done|contradiction].
Qed.

Lemma progress_effect s ask_id answer code now out s' :
  progress s ask_id answer code now = (out, s') →
  effect now (CallProgress ask_id answer code) (OutProgress out) (rep s) (rep s').
Proof.
  unfold progress. destruct (get_ask s ask_id) as [[ask|]|e] eqn:Ha; [|intros [= <- <-]; by constructor..].
  apply get_ask_ok in Ha. destruct (ak_code_used ask); [intros [= <- <-]; by constructor|].
  destruct (ak_code ask) eqn:Hcode; [intros [= <- <-]; by constructor|]. case_decide; [intros [= <- <-]; by constructor|].
  destruct answer as [[]|]; try (intros [= <- <-]; by constructor).
  destruct (mint_code s (ak_id ask) code now) as [r s1] eqn:Hm.
  apply mint_code_ok in Hm as [(a & Hl & -> & Hs)|[[[e ->]| ->] Hs]]; cbn [try_store]; intros [= <- <-]; rewrite Hs;
    [|by constructor..]. by apply (eff_mint now ask_id code _ ask a).
Qed.

Lemma token_effect s request secret id now out s' :
  token s request secret id now = (out, s') →
  effect now (CallToken request secret id) (OutToken out) (rep s) (rep s').
Proof.
  unfold token. case_decide; [intros [= <- <-]; by constructor|].
  destruct (trimmed (tr_code request)) as [code|] eqn:Hcode; [|intros [= <- <-]; by constructor].
  destruct (trimmed (tr_code_verifier request)) as [verifier|] eqn:Hver; [|intros [= <- <-]; by constructor].
  destruct (redeem_code s code) as [r s1] eqn:Hr.
  apply redeem_code_ok in Hr as [(aid & a & Hl & Hred & -> & Hs)|[[[e ->]| ->] Hs]]; cbn [try_store];
    [|intros [= <- <-]; rewrite Hs; by constructor..].
  assert (Hck : token_checks request verifier (with_used a) now = token_checks request verifier a now) by done.
  rewrite Hck. destruct (token_checks request verifier a now) as [[]|refusal] eqn:Hchecks;
    [|intros [= <- <-]; rewrite Hs; by eapply eff_burn].
  change (token_for (with_used a) secret id now) with (token_for a secret id now).
  destruct (put_token s1 (token_for a secret id now)) as [r s2] eqn:Hp.
  apply put_token_ok in Hp as [(Hfresh & -> & Hs2)|[[e ->] Hs2]]; cbn [try_store]; intros [= <- <-]; rewrite Hs2, Hs;
    [|by eapply eff_burn]. eapply eff_issue; try done. rewrite Hs in Hfresh. exact Hfresh.
Qed.

Lemma revoke_effect s bearer now out s' :
  revoke s bearer now = (out, s') → effect now (CallRevoke bearer) (OutRevoke out) (rep s) (rep s').
Proof.
  unfold revoke. destruct (token_by_hash s _) as [[t|]|e] eqn:Ht; [| |intros [= <- <-]; by constructor].
  - apply token_by_hash_ok in Ht as [[tid Hl] Hh]. destruct (revoke_token s (tk_id t) now) as [r s1] eqn:Hr.
    apply revoke_token_ok in Hr as [(t' & Hl' & -> & Hs)|[[[e ->]|[Hn ->]] Hs]]; cbn [try_store]; intros [= <- <-]; rewrite Hs.
    + by eapply eff_revoke.
    + by constructor.
    + by eapply eff_revoke_lost.
  - intros [= <- <-]. apply token_by_hash_ok in Ht. by apply eff_revoke_unknown.
Qed.

Lemma admit_effect s bearer now out s' :
  admit_bearer s bearer now = (out, s') → effect now (CallAdmit bearer) (OutAdmit out) (rep s) (rep s').
Proof.
  unfold admit_bearer. case_decide; [intros [= <- <-]; by constructor|].
  destruct (token_by_hash s _) as [[t|]|e] eqn:Ht; [|intros [= <- <-]; by constructor..].
  apply token_by_hash_ok in Ht as [[tid Hl] Hh]. destruct (is_live_at t now) eqn:Hlive; [|intros [= <- <-]; by constructor].
  cbn [negb]. destruct (match tk_last_used_at t with None => true | Some _ => _ end).
  - destruct (touch_token s (tk_id t) now) as [r s1] eqn:Hr.
    apply touch_token_ok in Hr as [(t' & Hl' & -> & Hs)|[[[e ->]|[Hn ->]] Hs]]; cbn [try_store]; intros [= <- <-]; rewrite Hs;
      [|by constructor|].
    + apply (eff_admit now bearer t _ _ _ tid Hl Hh Hlive); [by right|right; by exists t'].
    + apply (eff_admit now bearer t _ _ _ tid Hl Hh Hlive); [by right|by left].
  - intros [= <- <-]. apply (eff_admit now bearer t _ _ _ tid Hl Hh Hlive); by left.
Qed.

(** The server refines the account. *)
Lemma ostep_effect s now call out s' : ostep s now call = (out, s') → effect now call out (rep s) (rep s').
Proof.
  destruct call; cbn [ostep].
  - destruct (register _ _ _ _) eqn:Hr. intros [= <- <-]. by apply register_effect.
  - destruct (authorize _ _ _ _ _ _) eqn:Hr. intros [= <- <-]. by apply authorize_effect.
  - destruct (progress _ _ _ _ _) eqn:Hr. intros [= <- <-]. by apply progress_effect.
  - destruct (token _ _ _ _ _) eqn:Hr. intros [= <- <-]. by apply token_effect.
  - destruct (revoke _ _ _) eqn:Hr. intros [= <- <-]. by apply revoke_effect.
  - destruct (admit_bearer _ _ _) eqn:Hr. intros [= <- <-]. by apply admit_effect.
Qed.

(** ** Histories *)

Inductive reach : list Event → OState → Prop :=
  | reach_start : reach [] os_empty
  | reach_step h st now call out st' :
      reach h st → effect now call out st st' → reach (mk_event now call out :: h) st'.

Lemma orun_reach_from s h calls h' s' : reach h (rep s) → orun s h calls = (h', s') → reach h' (rep s').
Proof.
  revert s h. induction calls as [|[now call] calls IH]; intros s h Hr; cbn [orun]; [by intros [= <- <-]|].
  destruct (ostep s now call) as [out s1] eqn:Hs. apply IH. eapply reach_step; [done|by apply ostep_effect].
Qed.
Lemma orun_reach s calls h s' : rep s = os_empty → orun s [] calls = (h, s') → reach h (rep s').
Proof. intros Hs. apply orun_reach_from. rewrite Hs. constructor. Qed.

Lemma reach_app h1 e h2 st :
  reach (h1 ++ e :: h2) st →
  ∃ st1 st2, reach h2 st1 ∧ effect (ev_now e) (ev_call e) (ev_out e) st1 st2.
Proof.
  revert st. induction h1 as [|e' h1 IH]; intros st Hr; inversion Hr; subst; [by eexists _, _|eauto].
Qed.

(** The random codes and secrets that the requests of a history drew. *)
Definition drawn_code (e : Event) : option string :=
  match ev_call e with CallProgress _ _ code => Some code | _ => None end.
Definition drawn_secret (e : Event) : option string :=
  match ev_call e with CallToken _ secret _ => Some (hash_token secret) | _ => None end.

(** What consent a token rests on, each step before the next. *)
Definition was_registered (h : list Event) (c : Client) : Prop :=
  ∃ now registration, mk_event now (CallRegister registration (cl_id c)) (OutRegister (Ok (Ok c))) ∈ h.
Definition forget_code (a : Ask) : Ask :=
  mk_Ask (ak_id a) (ak_client_id a) (ak_client_name a) (ak_issuer a) (ak_redirect_uri a) (ak_scope a) (ak_state a)
    (ak_code_challenge a) (ak_asked_at a) None None false.
Definition was_opened (h : list Event) (a : Ask) : Prop :=
  ∃ h1 h2 now request issuer consent out client,
    h = h1 ++ mk_event now (CallAuthorize request issuer consent (ak_id a)) (OutAuthorize out) :: h2 ∧
    was_registered h2 client ∧ opens_ask request issuer (ak_id a) now client (forget_code a) ∧
    redirect_uri_is_allowed (ak_redirect_uri a) = true.
Definition was_approved (h : list Event) (a : Ask) : Prop :=
  ∃ h1 h2 now code out,
    h = h1 ++ mk_event now (CallProgress (ak_id a) (Ok Approved) code) (OutProgress out) :: h2 ∧
    was_opened h2 a ∧ ak_code a = Some code ∧ ak_code_issued_at a = Some now.
Definition was_granted (h : list Event) (t : Token) : Prop :=
  ∃ h1 h2 now request secret issued a code verifier,
    h = h1 ++ mk_event now (CallToken request secret (tk_id t)) (OutToken (Ok (Ok issued))) :: h2 ∧
    was_approved h2 a ∧ trimmed (tr_code request) = Some code ∧ ak_code a = Some code ∧
    trimmed (tr_code_verifier request) = Some verifier ∧ token_checks request verifier a now = Ok () ∧
    tk_hash t = hash_token secret ∧ tk_client_id t = ak_client_id a ∧ tk_scope t = ak_scope a ∧
    tk_expires_at t = expires_at_for (default DEFAULT_SCOPE (tk_scope t)) now.

Lemma was_registered_cons e h c : was_registered h c → was_registered (e :: h) c.
Proof. intros (now & r & Hin). exists now, r. by right. Qed.
Lemma was_opened_cons e h a : was_opened h a → was_opened (e :: h) a.
Proof. intros (h1 & h2 & Hx). exists (e :: h1), h2. naive_solver. Qed.
Lemma was_approved_cons e h a : was_approved h a → was_approved (e :: h) a.
Proof. intros (h1 & h2 & now & code & out & -> & Hx). exists (e :: h1), h2, now, code, out. done. Qed.
Lemma was_granted_cons e h t : was_granted h t → was_granted (e :: h) t.
Proof.
  intros (h1 & h2 & now & request & secret & issued & a & code & verifier & -> & Hx).
  exists (e :: h1), h2, now, request, secret, issued, a, code, verifier. done.
Qed.

(** The ask of a code, as the store holds it. *)
Definition ask_ok (h : list Event) (a : Ask) : Prop :=
  was_opened h a ∧
  match ak_code a with
  | Some code => was_approved h a ∧ Some code ∈ drawn_code <$> h
  | None => ak_code_issued_at a = None ∧ ak_code_used a = false
  end.
Record store_ok (h : list Event) (st : OState) : Prop := {
  so_client id c : os_clients st !! id = Some c →
    was_registered h c ∧ Forall (λ uri, redirect_uri_is_allowed uri = true) (cl_redirect_uris c);
  so_ask id a : os_asks st !! id = Some a → ak_id a = id ∧ ask_ok h a;
  so_token id t : os_tokens st !! id = Some t → tk_id t = id ∧ was_granted h t;
}.
Lemma ask_ok_cons e h a : ask_ok h a → ask_ok (e :: h) a.
Proof.
  intros [Ho Hc]. split; [by apply was_opened_cons|]. destruct (ak_code a); [|done].
  destruct Hc as [Ha Hd]. split; [by apply was_approved_cons|by right].
Qed.
Lemma store_ok_cons e h st : store_ok h st → store_ok (e :: h) st.
Proof.
  intros [Hc Ha Ht]. split.
  - intros id c Hl. split; [by apply was_registered_cons, (Hc id)|by apply (Hc id)].
  - intros id a Hl. split; [by apply Ha|by apply ask_ok_cons, (Ha id)].
  - intros id t Hl. split; [by apply Ht|by apply was_granted_cons, (Ht id)].
Qed.
Lemma store_ok_client h st c :
  store_ok h st → was_registered h c → Forall (λ uri, redirect_uri_is_allowed uri = true) (cl_redirect_uris c) →
  store_ok h (st_client st c).
Proof.
  intros [Hc Ha Ht] Hr Hf. split; [|done..]. intros id c'. cbn [st_client os_clients].
  destruct (decide (id = cl_id c)) as [->|]; [|rewrite lookup_insert_ne by done; apply Hc].
  rewrite lookup_insert_eq. by intros [= <-].
Qed.
Lemma store_ok_ask h st id a : store_ok h st → ak_id a = id → ask_ok h a → store_ok h (st_ask st id a).
Proof.
  intros [Hc Ha Ht] Hid Hr. split; [done| |done]. intros id' a'. cbn [st_ask os_asks].
  destruct (decide (id' = id)) as [->|]; [|rewrite lookup_insert_ne by done; apply Ha].
  rewrite lookup_insert_eq. by intros [= <-].
Qed.
Lemma store_ok_token h st id t : store_ok h st → tk_id t = id → was_granted h t → store_ok h (st_token st id t).
Proof.
  intros [Hc Ha Ht] Hid Hr. split; [done..|]. intros id' t'. cbn [st_token os_tokens].
  destruct (decide (id' = id)) as [->|]; [|rewrite lookup_insert_ne by done; apply Ht].
  rewrite lookup_insert_eq. by intros [= <-].
Qed.

Lemma was_granted_same h t t' :
  tk_id t' = tk_id t → tk_hash t' = tk_hash t → tk_client_id t' = tk_client_id t → tk_scope t' = tk_scope t →
  tk_expires_at t' = tk_expires_at t → was_granted h t → was_granted h t'.
Proof. unfold was_granted. by intros -> -> -> -> ->. Qed.
Lemma was_granted_revoked h t now : was_granted h t → was_granted h (revoked t now).
Proof. unfold revoked. destruct (tk_revoked_at t); [done|]. by apply was_granted_same. Qed.
Lemma was_granted_touched h t now : was_granted h t → was_granted h (touched t now).
Proof. unfold touched. destruct (is_live t); [|done]. by apply was_granted_same. Qed.
Lemma was_opened_scope h a : was_opened h a → is_Some (ak_scope a).
Proof.
  intros (h1 & h2 & now & request & issuer & consent & out & client & _ & _ & Ho & _).
  destruct Ho as (uri & challenge & scope & state & _ & _ & _ & Heq).
  exists scope. by injection Heq.
Qed.
Lemma ask_ok_used h code a : redeemable code a → ask_ok h a → ask_ok h (with_used a).
Proof.
  intros [_ Hcode] [Ho Hc]. split; [exact Ho|]. cbn [with_used ak_code]. rewrite Hcode in Hc |- *. exact Hc.
Qed.
Lemma redeemable_approved h code a : redeemable code a → ask_ok h a → was_approved h a.
Proof. intros [_ Hcode] [_ Hc]. rewrite Hcode in Hc. by destruct Hc. Qed.
Lemma ask_ok_minted h a now code out :
  ask_ok h a →
  ask_ok (mk_event now (CallProgress (ak_id a) (Ok Approved) code) (OutProgress out) :: h) (minted a code now).
Proof.
  intros Ha. unfold minted. destruct (ak_code a) eqn:Hcode; [by apply ask_ok_cons|]. destruct Ha as [Ho _].
  split; [by apply was_opened_cons|]. cbn [with_code ak_code]. split; [|by left].
  by exists [], h, now, code, out.
Qed.

Lemma effect_ok h st now call out st' :
  store_ok h st → effect now call out st st' → store_ok (mk_event now call out :: h) st'.
Proof.
  intros Hok Heff. pose proof (λ e, store_ok_cons e h st Hok) as Hcons.
  destruct Heff as [call out st Hq|registration id c st <- Hf|request issuer consent id out cid client ask st Hcid Hl Ho
    |ask_id code out ask a st Hl Hn Hl'|request secret id out code aid a st Hcode Hl Hr Hq
    |request secret id code verifier issued aid a st Hcode Hver Hl Hr Hck Hfresh Hsec
    |bearer t t' st tid Hl Hh Hl'|bearer t st tid Hl Hh Hl'|bearer st Hn|bearer t t' st st' tid Hl Hh Hlive Ht' Hst']; [done|..].
  - apply store_ok_client; [done| |done]. exists now, registration. by left.
  - pose proof Ho as (uri & challenge & scope & state & Huri & Hin & Hck & ->).
    apply store_ok_ask; [done..|]. split; [|done].
    exists [], h, now, request, issuer, consent, out, client. apply (so_client _ _ Hok) in Hl as [Hr Hf].
    split; [done|]. split; [done|]. split; [exact Ho|]. exact (proj1 (Forall_forall _ _) Hf _ Hin).
  - apply (so_ask _ _ Hok) in Hl as [Hid _], Hl' as [Hid' Ha].
    apply store_ok_ask; [done|unfold minted; by destruct (ak_code a)|]. subst ask_id. rewrite <-Hid'. by apply ask_ok_minted.
  - apply (so_ask _ _ Hok) in Hl as [Hid Ha]. apply store_ok_ask; [done..|]. eapply ask_ok_used; [done|by apply ask_ok_cons].
  - apply (so_ask _ _ Hok) in Hl as [Hid Ha]. pose proof (redeemable_approved _ _ _ Hr Ha) as Hap.
    destruct (was_opened_scope h a (proj1 Ha)) as [scope Hscope].
    apply store_ok_token; [apply store_ok_ask; [done..|]; eapply ask_ok_used; [done|by apply ask_ok_cons]|done|].
    exists [], h, now, request, secret, issued, a, code, verifier. destruct Hr as [_ Hac]. cbn [token_for tk_hash tk_client_id tk_scope tk_expires_at tk_id].
    rewrite Hscope. cbn. repeat (split; [done|]). done.
  - apply (so_token _ _ Hok) in Hl as [Hid _], Hl' as [Hid' Hg]. apply store_ok_token; [done|unfold revoked; by destruct (tk_revoked_at t')|].
    by apply was_granted_revoked, was_granted_cons.
  - done.
  - done.
  - destruct Hst' as [->|(t0 & Hl0 & ->)]; [done|]. apply (so_token _ _ Hok) in Hl0 as [Hid' Hg].
    apply store_ok_token; [done|unfold touched; by destruct (is_live t0)|]. by apply was_granted_touched, was_granted_cons.
Qed.
Lemma reach_ok h st : reach h st → store_ok h st.
Proof.
  induction 1 as [|h st now call out st' Hr IH Heff]; [|by eapply effect_ok]. split; intros ? ?; cbn; by rewrite lookup_empty.
Qed.

(** C28: an admitted token rests on consent. Whatever requests reach the server,
    over any store that keeps its contract: a bearer is let in only with a token
    that an earlier token request issued for a bearer of the same hash, for a code
    that an earlier poll minted when the person had approved the ask, an ask that
    an earlier request of a registered client opened with a redirect that
    registration allows; the verifier matched the ask's challenge, the client and
    the redirect were the ask's, the code was within its lifetime, and the token
    is of the ask's scope, unrevoked and unexpired. *)
Theorem oauth_admit_consented s0 calls h s h1 now bearer t h2 :
  rep s0 = os_empty → orun s0 [] calls = (h, s) →
  h = h1 ++ mk_event now (CallAdmit bearer) (OutAdmit (Ok (Some t))) :: h2 →
  was_granted h2 t ∧ tk_hash t = hash_token (trim bearer) ∧ tk_revoked_at t = None ∧ (now < tk_expires_at t)%Z.
Proof.
  intros Hs Hrun ->. apply orun_reach, reach_app in Hrun as (st1 & st2 & Hr & Heff); [|done].
  inversion Heff as [? ? ? Hq| | | | | | | | |? t0 t' ? ? tid Hl Hh Hlive Ht' Hst']; subst; [by destruct Hq|].
  apply (so_token _ _ (reach_ok _ _ Hr)) in Hl as [_ Hg].
  unfold is_live_at, is_live in Hlive. apply andb_true_iff in Hlive as [Hrv%bool_decide_eq_true Hex%bool_decide_eq_true].
  destruct Ht' as [->| ->]; [done|]. split; [by eapply was_granted_same, Hg|done].
Qed.

(** ** Codes *)

(** No code is on two asks, where the random source does not repeat itself. *)
Definition codes_apart (st : OState) : Prop :=
  ∀ id1 a1 id2 a2 code, os_asks st !! id1 = Some a1 → os_asks st !! id2 = Some a2 →
    ak_code a1 = Some code → ak_code a2 = Some code → id1 = id2.
(** Every ask that has the code has spent it. *)
Definition spent (code : string) (st : OState) : Prop :=
  ∀ id a, os_asks st !! id = Some a → ak_code a = Some code → ak_code_used a = true.

Definition draws (f : Event → option string) (h : list Event) : list string := omap f h.
Lemma draws_tail f e h : NoDup (draws f (e :: h)) → NoDup (draws f h).
Proof. unfold draws. cbn. destruct (f e); [|done]. by intros [_ ?]%NoDup_cons. Qed.
Lemma draws_fresh f e h x : NoDup (draws f (e :: h)) → f e = Some x → x ∉ draws f h.
Proof. unfold draws. cbn. intros Hnd Hx. rewrite Hx in Hnd. by apply NoDup_cons in Hnd as [? _]. Qed.
Lemma draws_suffix f g h : NoDup (draws f (g ++ h)) → NoDup (draws f h).
Proof. unfold draws. rewrite omap_app. by intros (_ & _ & ?)%NoDup_app. Qed.
Lemma draws_app f g h x : x ∈ draws f h → x ∈ draws f (g ++ h).
Proof. unfold draws. rewrite omap_app, elem_of_app. by right. Qed.

Lemma drawn_code_in h code : Some code ∈ drawn_code <$> h → code ∈ draws drawn_code h.
Proof. intros (e & He & Hin)%list_elem_of_fmap. apply list_elem_of_omap. by exists e. Qed.
Lemma st_ask_lookup st id a id' a' :
  os_asks (st_ask st id a) !! id' = Some a' → id' = id ∧ a' = a ∨ id' ≠ id ∧ os_asks st !! id' = Some a'.
Proof.
  cbn [st_ask os_asks]. destruct (decide (id' = id)) as [->|].
  - rewrite lookup_insert_eq. intros [= <-]. by left.
  - rewrite lookup_insert_ne by done. by right.
Qed.
(** What an effect does to the ask under an id: nothing, a new ask without a
    code, a new code, or its code spent. *)
Lemma effect_asks h now call out st st' id a :
  store_ok h st → effect now call out st st' → os_asks st' !! id = Some a →
  os_asks st !! id = Some a ∨ ak_code a = None ∨ (∃ a0, os_asks st !! id = Some a0 ∧ a = with_used a0) ∨
  (∃ answer code, call = CallProgress id answer code ∧ ak_code a = Some code).
Proof.
  intros Hok Heff Hl. destruct Heff as [| |request issuer consent id' out cid client ask st Hcid Hlc Ho
    |ask_id code out ask a' st Hla Hn Hl'|request secret id' out code aid a' st Hcode Hla Hr Hq
    |request secret id' code verifier issued aid a' st Hcode Hver Hla Hr Hck Hfresh Hsec
    | | | |bearer t t' st st' tid Hlt Hh Hlive Ht' Hst']; try (by left).
  - apply st_ask_lookup in Hl as [[-> ->]|[_ Hl]]; [|by left]. destruct Ho as (? & ? & ? & ? & _ & _ & _ & ->). by right; left.
  - apply (so_ask _ _ Hok) in Hla as [Hid _].
    apply st_ask_lookup in Hl as [[-> ->]|[_ Hl]]; [|by left]. unfold minted. destruct (ak_code a') eqn:Hc; [by left|].
    do 3 right. exists (Ok Approved), code. by rewrite Hid.
  - apply st_ask_lookup in Hl as [[-> ->]|[_ Hl]]; [|by left]. do 2 right. left. by exists a'.
  - apply st_ask_lookup in Hl as [[-> ->]|[_ Hl]]; [|by left]. do 2 right. left. by exists a'.
  - destruct Hst' as [->|(t0 & Hl0 & ->)]; by left.
Qed.
(** An ask that has a code after a request had it before, under the same id, or
    the request drew it. *)
Lemma effect_code h now call out st st' id a code :
  store_ok h st → effect now call out st st' → os_asks st' !! id = Some a → ak_code a = Some code →
  (∃ a0, os_asks st !! id = Some a0 ∧ ak_code a0 = Some code ∧ (ak_code_used a0 = true → ak_code_used a = true)) ∨
  (∃ answer, call = CallProgress id answer code).
Proof.
  intros Hok Heff Hl Hc. destruct (effect_asks _ _ _ _ _ _ _ _ Hok Heff Hl) as [Ho|[Hn|[(a0 & Ho & ->)|(ans & code' & -> & Hc')]]].
  - left. by exists a.
  - congruence.
  - left. by exists a0.
  - right. exists ans. congruence.
Qed.
Lemma held_code_drawn h st id a code :
  store_ok h st → os_asks st !! id = Some a → ak_code a = Some code → code ∈ draws drawn_code h.
Proof. intros Hok [_ [_ Hc]]%(so_ask _ _ Hok) Hcode. rewrite Hcode in Hc. by apply drawn_code_in, Hc. Qed.

Lemma reach_codes_apart h st : reach h st → NoDup (draws drawn_code h) → codes_apart st.
Proof.
  induction 1 as [|h st now call out st' Hr IH Heff]; intros Hnd; [by intros id1 a1 id2 a2 code [=]|].
  pose proof (reach_ok _ _ Hr) as Hok. intros id1 a1 id2 a2 code Hl1 Hl2 Hc1 Hc2.
  destruct (effect_code _ _ _ _ _ _ _ _ _ Hok Heff Hl1 Hc1) as [(b1 & Hb1 & Hd1 & _)|[ans1 ->]];
    destruct (effect_code _ _ _ _ _ _ _ _ _ Hok Heff Hl2 Hc2) as [(b2 & Hb2 & Hd2 & _)|[ans2 Hcall]].
  - eapply IH; [by eapply draws_tail|done..].
  - subst call. destruct (draws_fresh _ _ _ code Hnd eq_refl). by eapply held_code_drawn.
  - destruct (draws_fresh _ _ _ code Hnd eq_refl). by eapply held_code_drawn.
  - congruence.
Qed.
Lemma spent_kept h g st code :
  reach (g ++ h) st → NoDup (draws drawn_code (g ++ h)) → code ∈ draws drawn_code h →
  (∀ st0, reach h st0 → spent code st0) → spent code st.
Proof.
  intros Hr Hnd Hin Hbase. revert st Hr Hnd. induction g as [|e g IH]; intros st Hr Hnd; [by apply Hbase|].
  inversion Hr as [|h' st0 now call out st' Hr' Heff]; subst. intros id a Hl Hc.
  pose proof (reach_ok _ _ Hr') as Hok.
  destruct (effect_code _ _ _ _ _ _ _ _ _ Hok Heff Hl Hc) as [(b & Hb & Hd & Hu)|[ans ->]].
  - apply Hu. by eapply IH, Hd; [|eapply draws_tail|].
  - destruct (draws_fresh _ _ _ code Hnd eq_refl). by apply draws_app.
Qed.

(** A token request that issued a token had a code nobody had spent, and spent it. *)
Lemma issued_code now request secret id issued st st' :
  effect now (CallToken request secret id) (OutToken (Ok (Ok issued))) st st' →
  ∃ code aid a, trimmed (tr_code request) = Some code ∧ os_asks st !! aid = Some a ∧ redeemable code a ∧
    os_asks st' = <[aid := with_used a]> (os_asks st).
Proof.
  intros Heff. inversion Heff as [? ? ? Hq| | | |? ? ? ? ? ? ? ? ? ? ? Hq
    |? ? ? code verifier ? aid a ? Hcode Hver Hl Hr| | | |]; subst; [by destruct Hq..|].
  by exists code, aid, a.
Qed.

Lemma issued_spends now request secret id issued h st code :
  reach (mk_event now (CallToken request secret id) (OutToken (Ok (Ok issued))) :: h) st →
  NoDup (draws drawn_code h) → trimmed (tr_code request) = Some code → code ∈ draws drawn_code h ∧ spent code st.
Proof.
  intros Hr Hnd Hcode. inversion Hr as [|h' st0 now' call out st' Hr' Heff]; subst.
  apply issued_code in Heff as (code' & aid & a & Hcode' & Hl & [Hu Hc] & Hst). simplify_eq.
  split; [by eapply held_code_drawn; [apply reach_ok|..]|]. intros id' a'. rewrite Hst.
  destruct (decide (id' = aid)) as [->|Hne]; [rewrite lookup_insert_eq; by intros [= <-]|].
  rewrite lookup_insert_ne by done. intros Hl' Hc'. destruct Hne. by eapply (reach_codes_apart _ _ Hr' Hnd).
Qed.

(** C29: a code buys one token. Where the codes that the server draws at random are
    distinct, no two token requests of a run, over any store that keeps its
    contract, are both answered with a token for the same code. *)
Theorem oauth_code_once s0 calls h s h1 now1 r1 secret1 id1 i1 h2 now2 r2 secret2 id2 i2 h3 :
  rep s0 = os_empty → orun s0 [] calls = (h, s) → NoDup (draws drawn_code h) →
  h = h1 ++ mk_event now1 (CallToken r1 secret1 id1) (OutToken (Ok (Ok i1))) :: h2 ++
        mk_event now2 (CallToken r2 secret2 id2) (OutToken (Ok (Ok i2))) :: h3 →
  trimmed (tr_code r1) ≠ trimmed (tr_code r2).
Proof.
  intros Hs Hrun Hnd -> Heq. apply orun_reach, reach_app in Hrun as (st1 & st2 & Hr & Heff); [|done].
  apply issued_code in Heff as (code & aid & a & Hcode & Hl & [Hu Hc] & _).
  apply draws_suffix, draws_tail in Hnd. pose proof (draws_tail _ _ _ (draws_suffix _ _ _ Hnd)) as Hnd3.
  rewrite Heq in Hcode. enough (spent code st1) as Hsp by (by rewrite (Hsp _ _ Hl Hc) in Hu).
  eapply (spent_kept _ h2 st1 code Hr Hnd); [|intros st0 Hr0; by eapply issued_spends].
  destruct (reach_app h2 _ _ _ Hr) as (st3 & st4 & Hr3 & Heff3).
  apply (issued_spends now2 r2 secret2 id2 i2 h3 st4 code); [by eapply reach_step|done..].
Qed.

(** ** Revocation *)

(** Every token of the hash is revoked. *)
Definition dead (hash : string) (st : OState) : Prop :=
  ∀ id t, os_tokens st !! id = Some t → tk_hash t = hash → tk_revoked_at t ≠ None.

(** What an effect does to the token under an id: nothing, a new token with the
    drawn secret, or one that was there revoked or used. *)
Lemma effect_tokens now call out st st' id t :
  effect now call out st st' → os_tokens st' !! id = Some t →
  (∃ t0, os_tokens st !! id = Some t0 ∧ tk_hash t = tk_hash t0 ∧ (tk_revoked_at t0 ≠ None → tk_revoked_at t ≠ None)) ∨
  (∃ request secret, call = CallToken request secret id ∧ tk_hash t = hash_token secret).
Proof.
  assert (Htok : ∀ st id0 t0 t1, os_tokens st !! id0 = Some t0 → tk_hash t1 = tk_hash t0 →
    (tk_revoked_at t0 ≠ None → tk_revoked_at t1 ≠ None) → os_tokens (st_token st id0 t1) !! id = Some t →
    ∃ t0, os_tokens st !! id = Some t0 ∧ tk_hash t = tk_hash t0 ∧ (tk_revoked_at t0 ≠ None → tk_revoked_at t ≠ None)).
  { intros st1 id0 t0 t1 Hl Hh Hrv. cbn [st_token os_tokens]. destruct (decide (id = id0)) as [->|].
    - rewrite lookup_insert_eq. intros [= <-]. by exists t0.
    - rewrite lookup_insert_ne by done. by exists t. }
  intros Heff Hl. destruct Heff as [| | | | |request secret id' code verifier issued aid a st Hcode Hver Hla Hr Hck Hfresh Hsec
    |bearer t1 t1' st tid Hlt Hh Hl'| | |bearer t1 t1' st st' tid Hlt Hh Hlive Ht' Hst']; try (left; by exists t).
  - cbn [st_token st_ask os_tokens] in Hl. destruct (decide (id = id')) as [->|].
    + rewrite lookup_insert_eq in Hl. injection Hl as <-. right. by exists request, secret.
    + rewrite lookup_insert_ne in Hl by done. left. by exists t.
  - left. eapply Htok, Hl; [done|unfold revoked; destruct (tk_revoked_at t1') eqn:?; cbn; congruence..].
  - left. destruct Hst' as [->|(t0 & Hl0 & ->)]; [by exists t|].
    eapply Htok, Hl; [done|unfold touched; by destruct (is_live t0)..].
Qed.

Lemma held_hash_drawn h st id t : reach h st → os_tokens st !! id = Some t → tk_hash t ∈ draws drawn_secret h.
Proof.
  intros Hr. revert id t. induction Hr as [|h st now call out st' Hr IH Heff]; intros id t Hl; [done|].
  destruct (effect_tokens _ _ _ _ _ _ _ Heff Hl) as [(t0 & Hl0 & -> & _)|(request & secret & -> & ->)]; [|by left].
  apply (draws_app _ [_]). by eapply IH.
Qed.
(** Where the secrets' hashes are distinct, so are the tokens'. *)
Lemma reach_hashes_apart h st : reach h st → NoDup (draws drawn_secret h) →
  ∀ id1 t1 id2 t2, os_tokens st !! id1 = Some t1 → os_tokens st !! id2 = Some t2 → tk_hash t1 = tk_hash t2 → id1 = id2.
Proof.
  induction 1 as [|h st now call out st' Hr IH Heff]; intros Hnd id1 t1 id2 t2 Hl1 Hl2 Hh; [done|].
  destruct (effect_tokens _ _ _ _ _ _ _ Heff Hl1) as [(b1 & Hb1 & Hd1 & _)|(r1 & s1 & -> & Hd1)];
    destruct (effect_tokens _ _ _ _ _ _ _ Heff Hl2) as [(b2 & Hb2 & Hd2 & _)|(r2 & s2 & Hcall & Hd2)].
  - eapply IH; [by eapply draws_tail|done..|congruence].
  - subst call. destruct (draws_fresh _ _ _ (hash_token s2) Hnd eq_refl). rewrite <-Hd2, <-Hh, Hd1. by eapply held_hash_drawn.
  - destruct (draws_fresh _ _ _ (hash_token s1) Hnd eq_refl). rewrite <-Hd1, Hh, Hd2. by eapply held_hash_drawn.
  - congruence.
Qed.
Lemma dead_kept h g st hash :
  reach (g ++ h) st → NoDup (draws drawn_secret (g ++ h)) → hash ∈ draws drawn_secret h →
  (∀ st0, reach h st0 → dead hash st0) → dead hash st.
Proof.
  intros Hr Hnd Hin Hbase. revert st Hr Hnd. induction g as [|e g IH]; intros st Hr Hnd; [by apply Hbase|].
  inversion Hr as [|h' st0 now call out st' Hr' Heff]; subst. intros id t Hl Hh.
  destruct (effect_tokens _ _ _ _ _ _ _ Heff Hl) as [(b & Hb & Hd & Hrv)|(r & s & -> & Hd)].
  - apply Hrv. apply (IH st0 Hr' (draws_tail _ _ _ Hnd) id b Hb). congruence.
  - destruct (draws_fresh _ _ _ (hash_token s) Hnd eq_refl). rewrite <-Hd, Hh. by apply draws_app.
Qed.
Lemma revoke_kills now bearer h st :
  reach (mk_event now (CallRevoke bearer) (OutRevoke (Ok ())) :: h) st → NoDup (draws drawn_secret h) →
  dead (hash_token (trim bearer)) st.
Proof.
  intros Hr Hnd. inversion Hr as [|h' st0 now' call out st' Hr' Heff]; subst.
  inversion Heff as [? ? ? Hq| | | | | |? t t' ? tid Hl Hh Hl'|? t ? tid Hl Hh Hl'|? ? Hn|]; subst.
  - by destruct Hq.
  - pose proof (so_token _ _ (reach_ok _ _ Hr') _ _ Hl) as [Hid _]. rewrite Hid in Hl' |- *. rewrite Hl in Hl'. injection Hl' as <-.
    intros id t'. cbn [st_token os_tokens]. destruct (decide (id = tid)) as [->|Hne].
    + rewrite lookup_insert_eq. intros [= <-] _. unfold revoked. destruct (tk_revoked_at t) eqn:?; cbn; congruence.
    + rewrite lookup_insert_ne by done. intros Hl2 Hh2. destruct Hne.
      eapply (reach_hashes_apart _ _ Hr' Hnd); [done..|congruence].
  - apply (so_token _ _ (reach_ok _ _ Hr')) in Hl as Hid. destruct Hid as [Hid _]. congruence.
  - intros id t Hl Hh. by destruct (Hn id t Hl).
Qed.

(** C30: a revoked bearer stays out. Where the secrets' hashes are distinct: once a
    revocation of an issued bearer is answered [Ok], no later request of the run
    lets that bearer in, whatever was asked in between, over any store that keeps
    its contract. *)
Theorem oauth_revoked_stays_out s0 calls h s h1 now1 b1 o h2 now2 b2 h3 :
  rep s0 = os_empty → orun s0 [] calls = (h, s) → NoDup (draws drawn_secret h) →
  h = h1 ++ mk_event now1 (CallAdmit b1) (OutAdmit (Ok o)) :: h2 ++
        mk_event now2 (CallRevoke b2) (OutRevoke (Ok ())) :: h3 →
  trim b1 = trim b2 → hash_token (trim b2) ∈ draws drawn_secret h3 → o = None.
Proof.
  intros Hs Hrun Hnd -> Hb Hin. apply orun_reach, reach_app in Hrun as (st1 & st2 & Hr & Heff); [|done].
  destruct o as [t'|]; [exfalso|done].
  inversion Heff as [? ? ? Hq| | | | | | | | |? t ? ? ? tid Hl Hh Hlive _ _]; subst; [by destruct Hq|].
  apply draws_suffix, draws_tail in Hnd. pose proof (draws_tail _ _ _ (draws_suffix _ _ _ Hnd)) as Hnd3.
  unfold is_live_at, is_live in Hlive. apply andb_true_iff in Hlive as [Hrv%bool_decide_eq_true _].
  eapply (dead_kept _ h2 st1 (hash_token (trim b2)) Hr Hnd); [by apply (draws_app _ [_])| |exact Hl|congruence|done].
  intros st0 Hr0. by eapply revoke_kills.
Qed.
End step.
