(* ===== verification/AskProof.v ===== *)
(** * Signed asks and party scopes ([src/oauth/ask_proof.rs])

    The party scope an ask carries, the proof word that signs the ask for its
    recipient, its verification against the sender's published keys, and the
    memory of nonces that refuses a proof seen before.  The key book, the random
    nonce, the clock and the outcomes of the database are arguments. *)

From stdpp Require Import pretty.
From S2P Require Import Prelude Ordered External Toy Identity Text Words Address OAuth OAuthServer.

Definition PROOF_PREFIX : string := "ask-proof:".
Definition PROOF_VERSION : string := "v1".
Definition PAYLOAD_VERSION : string := "proxy.ing-ask-v1".
Definition KIND_SEAT : string := "seat".
Definition ASK_LIFETIME_SECS : Z := 10 * 60.
Definition CLOCK_SKEW_SECS : Z := 60.
Definition NONCE_MEMORY_SECS : Z := 24 * 60 * 60.
Definition UNSIGNED_ASKS_UNTIL : Z := 1793491200.

(** ** Party scopes *)

Record PartyScope : Type := mk_PartyScope {
  ps_conversation_id : string;
  ps_title : string;
  ps_host : string;
  ps_agent : string;
  ps_loadout : string;
}.
Definition PARTY_PREFIX : string := "party:".

(** [part.split_once('=').unwrap_or((part, ""))] *)
Definition name_value (part : string) : string * string := default (part, "") (split_once "=" part).

Section party.
Context `{Percent}.

Definition to_scope (p : PartyScope) : string :=
  PARTY_PREFIX +:+ ps_conversation_id p +:+ ";title=" +:+ utf8_percent_encode NON_ALPHANUMERIC (ps_title p)
    +:+ ";host=" +:+ ps_host p +:+ ";agents=" +:+ ps_agent p +:+ ";loadout=" +:+ ps_loadout p.

Definition party_part (p : PartyScope) (part : string) : PartyScope :=
  let '(name, value) := name_value part in
  let name := trim name in
  if decide (name = "title")
  then mk_PartyScope (ps_conversation_id p) (default value (str_from_utf8 (percent_decode_str value)))
         (ps_host p) (ps_agent p) (ps_loadout p)
  else if decide (name = "host")
  then mk_PartyScope (ps_conversation_id p) (ps_title p) (trim value) (ps_agent p) (ps_loadout p)
  else if decide (name = "agents")
  then mk_PartyScope (ps_conversation_id p) (ps_title p) (ps_host p) (trim value) (ps_loadout p)
  else if decide (name = "loadout")
  then mk_PartyScope (ps_conversation_id p) (ps_title p) (ps_host p) (ps_agent p) (trim value)
  else p.
Definition party_titled (p : PartyScope) : PartyScope :=
  if decide (trim (ps_title p) = "")
  then mk_PartyScope (ps_conversation_id p) "Untitled Party" (ps_host p) (ps_agent p) (ps_loadout p)
  else p.
Definition party_parse (scope : string) : option PartyScope :=
  word ← head (split_whitespace scope);
  rest ← strip_prefix PARTY_PREFIX word;
  match split ";" rest with
  | [] => None
  | first :: parts =>
      let conversation_id := trim first in
      if decide (conversation_id = "") then None
      else Some (party_titled (foldl party_part (mk_PartyScope conversation_id "" "" "proxy" "default") parts))
  end.

Definition party_scope_of (scope : option string) : option PartyScope :=
  scope ← scope; head (omap party_parse (split_whitespace scope)).
Definition party_word (scope : option string) : option string :=
  scope ← scope; List.find (λ word, bool_decide (is_Some (party_parse word))) (split_whitespace scope).
End party.

(** ** The proof word *)

Record AskProof : Type := mk_AskProof {
  ap_key_id : string;
  ap_to : string;
  ap_expires_at : Z;
  ap_nonce : string;
  ap_signature : string;
}.
Definition to_word (p : AskProof) : string :=
  PROOF_PREFIX +:+ PROOF_VERSION +:+ ";key=" +:+ ap_key_id p +:+ ";to=" +:+ ap_to p +:+ ";exp=" +:+ pretty (ap_expires_at p)
    +:+ ";nonce=" +:+ ap_nonce p +:+ ";sig=" +:+ ap_signature p.

Definition lower_hex_char (c : ascii) : bool :=
  is_ascii_digit c || ((97 <=? char_code c) && (char_code c <=? 102))%Z.
Definition is_key_id (text : string) : bool := bool_decide (String.length text = 64) && all_chars lower_hex_char text.
Definition is_nonce (text : string) : bool := bool_decide (32 ≤ String.length text ≤ 64) && all_chars lower_hex_char text.

(** The slots a proof's parts fill, each at most once. *)
Record Slots : Type := mk_Slots {
  sl_key : option string;
  sl_to : option string;
  sl_exp : option string;
  sl_nonce : option string;
  sl_sig : option string;
}.
Fixpoint proof_parts (parts : list string) (s : Slots) : result string Slots :=
  match parts with
  | [] => Ok s
  | part :: parts =>
      let '(name, value) := name_value part in
      let fill (slot : option string) (s : Slots) :=
        match slot with
        | Some _ => Err ("the ask proof names " +:+ name +:+ " twice")
        | None => proof_parts parts s
        end in
      if decide (name = "key") then fill (sl_key s) (mk_Slots (Some value) (sl_to s) (sl_exp s) (sl_nonce s) (sl_sig s))
      else if decide (name = "to") then fill (sl_to s) (mk_Slots (sl_key s) (Some value) (sl_exp s) (sl_nonce s) (sl_sig s))
      else if decide (name = "exp") then fill (sl_exp s) (mk_Slots (sl_key s) (sl_to s) (Some value) (sl_nonce s) (sl_sig s))
      else if decide (name = "nonce") then fill (sl_nonce s) (mk_Slots (sl_key s) (sl_to s) (sl_exp s) (Some value) (sl_sig s))
      else if decide (name = "sig") then fill (sl_sig s) (mk_Slots (sl_key s) (sl_to s) (sl_exp s) (sl_nonce s) (Some value))
      else proof_parts parts s
  end.

(** [Option::filter] *)
Definition filter_opt {A} (P : A → bool) (o : option A) : option A :=
  match o with Some x => if P x then Some x else None | None => None end.
Definition nonempty (s : string) : bool := negb (bool_decide (s = "")).
Definition proof_of_slots (s : Slots) : result string AskProof :=
  key_id ← ok_or (filter_opt is_key_id (sl_key s)) "the ask proof names no key id";
  to ← ok_or (filter_opt nonempty (sl_to s)) "the ask proof names no recipient";
  expires_at ← ok_or (sl_exp s ≫= parse_u64) "the ask proof has no expiry";
  nonce ← ok_or (filter_opt is_nonce (sl_nonce s)) "the ask proof has no nonce";
  signature ← ok_or (filter_opt nonempty (sl_sig s)) "the ask proof has no signature";
  Ok (mk_AskProof key_id to expires_at nonce signature).
Definition proof_parse (word : string) : result string AskProof :=
  rest ← ok_or (strip_prefix PROOF_PREFIX word) "not an ask proof";
  match split ";" rest with
  | [] => Err "an ask proof of a version this Mac does not read"
  | version :: parts =>
      if decide (version ≠ PROOF_VERSION) then Err "an ask proof of a version this Mac does not read"
      else s ← proof_parts parts (mk_Slots None None None None None); proof_of_slots s
  end.

Definition proof_in (scope : option string) : option (result string AskProof) :=
  scope ← scope;
  match List.filter (starts_with PROOF_PREFIX) (split_whitespace scope) with
  | [] => None
  | [first] => Some (proof_parse first)
  | _ => Some (Err "the ask carries two proofs")
  end.
Definition is_signed (scope : option string) : bool :=
  match proof_in scope with Some (Ok _) => true | _ => false end.

Definition recipient (host agent : string) : string :=
  to_ascii_lowercase (trim host) +:+ "/" +:+ to_ascii_lowercase (trim agent).

(** ** Signing *)

Record Signed : Type := mk_Signed {
  sg_to : string;
  sg_from : string;
  sg_kind : string;
  sg_scope : string;
  sg_redirect_uri : string;
  sg_code_challenge : string;
}.
Definition payload (fields : Signed) (key_id : string) (expires_at : Z) (nonce : string) : string :=
  join nl
    [PAYLOAD_VERSION; "to=" +:+ sg_to fields; "from=" +:+ sg_from fields; "kind=" +:+ sg_kind fields;
     "key=" +:+ key_id; "exp=" +:+ pretty expires_at; "nonce=" +:+ nonce; "scope=" +:+ sg_scope fields;
     "redirect_uri=" +:+ sg_redirect_uri fields; "code_challenge=" +:+ sg_code_challenge fields].

Inductive AskSender : Type :=
  | SenderVerified (address key_id : string)
  | SenderUnsigned (claimed : string).
Definition verified_address (s : AskSender) : option string :=
  match s with SenderVerified address _ => Some address | SenderUnsigned _ => None end.
Definition is_allowlisted (s : AskSender) (allowlist : list string) : bool :=
  match verified_address s with
  | None => false
  | Some address => existsb (λ allowed, eq_ignore_ascii_case (trim allowed) address) allowlist
  end.

Inductive AskRefusal : Type :=
  | AskUnsigned
  | AskMalformed (why : string)
  | AskWrongRecipient (signed_for here : string)
  | AskExpired
  | AskTooLong
  | AskUnknownKey
  | AskKeyMismatch
  | AskBadSignature
  | AskReplayed
  | AskUnchecked (why : string).
Definition ask_refusal_text (r : AskRefusal) : string :=
  match r with
  | AskUnsigned => "this ask is not signed, and unsigned asks are no longer accepted: update Proxy                  on the Mac that sent it"
  | AskMalformed why => "this ask's proof cannot be read: " +:+ why
  | AskWrongRecipient signed_for here => "this ask was signed for " +:+ signed_for +:+ ", not " +:+ here
  | AskExpired => "this ask has expired"
  | AskTooLong => "this ask claims to last longer than an ask lasts"
  | AskUnknownKey => "the key this ask is signed with is not a key of the address it names"
  | AskKeyMismatch => "proxy.ing answered a key that is not the one named"
  | AskBadSignature => "this ask's signature does not check out"
  | AskReplayed => "this ask was already sent once"
  | AskUnchecked why => "this ask's signature could not be checked: " +:+ why
  end.

(** What [KeyBook::key] answers for a user and a key id. *)
Definition KeyBook : Type := string → string → result string (option bytes).

Section signing.
Context `{Crypto, Base64Url, Percent}.

Definition key_id_of (sec1 : bytes) : string := encode_hex (sha256 sec1).

(** [nonce] is what [fresh_nonce] draws. *)
Definition sign_with_identity (identity : DeviceIdentity) (fields : Signed) (nonce : string) (now : Z) : AskProof :=
  let key_id := DeviceId_to_hex (device_id identity) in
  let expires_at := (now + ASK_LIFETIME_SECS)%Z in
  let sig := identity_sign identity (payload_bytes (payload fields key_id expires_at nonce)) in
  mk_AskProof key_id (sg_to fields) expires_at nonce (b64url_encode (sig_to_bytes sig)).

(** What the ask's fields say, as the sender must have signed them. *)
Definition signed_fields (to : string) (party : PartyScope) (scope_word : string) (ask : Ask) : Signed :=
  mk_Signed to (ps_host party) KIND_SEAT scope_word (ak_redirect_uri ask) (ak_code_challenge ask).
Definition ask_sender (party : PartyScope) : option AgentAddress :=
  match address_parse (ps_host party) with
  | Ok sender =>
      if bool_decide (aa_agent sender = None) && bool_decide (address_host sender = ps_host party)
      then Some sender else None
  | Err _ => None
  end.

Definition verify_party_ask_signature (now_secs : Z) (keys : KeyBook) (ask : Ask) (here : string) (party : PartyScope)
    : result AskRefusal (AskSender * option AskProof) :=
  match proof_in (ak_scope ask) with
  | None =>
      if decide (now_secs < UNSIGNED_ASKS_UNTIL)%Z then Ok (SenderUnsigned (ps_host party), None)
      else Err AskUnsigned
  | Some (Err why) => Err (AskMalformed why)
  | Some (Ok proof) =>
      let to := recipient here (ps_agent party) in
      if decide (ap_to proof ≠ to) then Err (AskWrongRecipient (ap_to proof) to)
      else if decide (ap_expires_at proof < now_secs)%Z then Err AskExpired
      else if decide (now_secs + ASK_LIFETIME_SECS + CLOCK_SKEW_SECS < ap_expires_at proof)%Z then Err AskTooLong
      else
        sender ← ok_or (ask_sender party) (AskMalformed "its host is not an address");
        scope_word ← ok_or (party_word (ak_scope ask)) (AskMalformed "it names no party");
        signature ← ok_or (b64url_decode (ap_signature proof) ≫= sig_from_slice) AskBadSignature;
        key ← (match keys (aa_user sender) (ap_key_id proof) with
               | Ok (Some key) => Ok key
               | Ok None => Err AskUnknownKey
               | Err why => Err (AskUnchecked why)
               end);
        if decide (key_id_of key ≠ ap_key_id proof) then Err AskKeyMismatch
        else
          key ← ok_or (vk_from_sec1 key) AskKeyMismatch;
          let message := payload (signed_fields to party scope_word ask)
                           (ap_key_id proof) (ap_expires_at proof) (ap_nonce proof) in
          match identity_verify key (payload_bytes message) signature with
          | Err _ => Err AskBadSignature
          | Ok _ => Ok (SenderVerified (address_host sender) (ap_key_id proof), Some proof)
          end
  end.
End signing.

(** ** The memory of nonces *)

(** A row of [ask_nonces]: nonce, key id, when it was seen. *)
Record NonceRow : Type := mk_NonceRow { nr_nonce : string; nr_key_id : string; nr_seen_at : Z }.

Section nonces.
(** The uniqueness constraint of the table, which the host's schema declares. *)
Context (conflicts : NonceRow → NonceRow → bool).

(** [delete] and [insert] are what the database answers to the two statements. *)
Definition first_sighting_conn (rows : list NonceRow) (nonce key_id : string) (now_secs : Z)
    (delete insert : result string ()) : result string bool * list NonceRow :=
  let now_i64 := Z.min now_secs (2 ^ 63 - 1) in
  let forget_before := (now_i64 - NONCE_MEMORY_SECS)%Z in
  match delete with
  | Err error => (Err ("forget old ask nonces: " +:+ error), rows)
  | Ok _ =>
      let rows := filter (λ r, ¬ (nr_seen_at r < forget_before)%Z) rows in
      match insert with
      | Err error => (Err ("note an ask nonce: " +:+ error), rows)
      | Ok _ =>
          let row := mk_NonceRow nonce key_id now_i64 in
          if existsb (conflicts row) rows then (Ok false, rows) else (Ok true, rows ++ [row])
      end
  end.
End nonces.

(** ** Round trips *)

(** A field of a word: visible, and without the separator. *)
Definition field_char (c : ascii) : bool := visible c && negb (bool_decide (c = ";"%char)).
Definition field_ok (s : string) : bool := all_chars field_char s.

Lemma field_free s : field_ok s = true → contains_char ";" s = false.
Proof. by apply all_chars_absent. Qed.
Lemma field_visible s : field_ok s = true → all_chars visible s = true.
Proof. apply all_chars_impl. by intros c [? _]%andb_true_iff. Qed.
Lemma field_ok_app a b : field_ok (a +:+ b) = field_ok a && field_ok b.
Proof. apply all_chars_app. Qed.
Lemma lower_hex_field s : all_chars lower_hex_char s = true → field_ok s = true.
Proof. apply all_chars_impl. intros [[] [] [] [] [] [] [] []]; vm_compute; done. Qed.
Lemma digits_field s : all_chars is_ascii_digit s = true → field_ok s = true.
Proof. apply all_chars_impl. intros [[] [] [] [] [] [] [] []]; vm_compute; done. Qed.

Lemma split_join c l : l ≠ [] → Forall (λ s, contains_char c s = false) l → split c (join (String c "") l) = l.
Proof.
  intros Hne Hall. induction Hall as [|x l Hx Hl IH]; [done|]. destruct l as [|y l]; [by apply split_free|].
  change (join (String c "") (x :: y :: l)) with (x +:+ String c (join (String c "") (y :: l))).
  by rewrite split_cons, IH.
Qed.
Lemma name_value_app n v : contains_char "=" n = false → name_value (n +:+ String "=" v) = (n, v).
Proof. intros Hn. unfold name_value. by rewrite split_once_app. Qed.

Definition proof_ok (p : AskProof) : bool :=
  is_key_id (ap_key_id p) && field_ok (ap_to p) && nonempty (ap_to p) && bool_decide (0 ≤ ap_expires_at p < u64_modulus)%Z &&
  is_nonce (ap_nonce p) && field_ok (ap_signature p) && nonempty (ap_signature p).

Lemma proof_ok_fields p : proof_ok p = true →
  is_key_id (ap_key_id p) = true ∧ field_ok (ap_to p) = true ∧ nonempty (ap_to p) = true ∧
  (0 ≤ ap_expires_at p < u64_modulus)%Z ∧ is_nonce (ap_nonce p) = true ∧ field_ok (ap_signature p) = true ∧
  nonempty (ap_signature p) = true.
Proof. unfold proof_ok. rewrite !andb_true_iff, bool_decide_eq_true. tauto. Qed.
Lemma key_id_field k : is_key_id k = true → field_ok k = true.
Proof. intros [_ Hk]%andb_true_iff. by apply lower_hex_field. Qed.
Lemma nonce_field n : is_nonce n = true → field_ok n = true.
Proof. intros [_ Hn]%andb_true_iff. by apply lower_hex_field. Qed.

(** The parts of a proof's word. *)
Definition proof_fields (p : AskProof) : list string :=
  [PROOF_VERSION; "key=" +:+ ap_key_id p; "to=" +:+ ap_to p; "exp=" +:+ pretty (ap_expires_at p);
   "nonce=" +:+ ap_nonce p; "sig=" +:+ ap_signature p].
Lemma to_word_join p : to_word p = PROOF_PREFIX +:+ join ";" (proof_fields p).
Proof. done. Qed.
Lemma proof_fields_ok p : proof_ok p = true → Forall (λ s, field_ok s = true) (proof_fields p).
Proof.
  intros (Hk & Hto & _ & Hexp & Hn & Hsig & _)%proof_ok_fields. unfold proof_fields.
  destruct (parse_unsigned_pretty u64_modulus (ap_expires_at p) Hexp) as [_ Hd].
  repeat (apply Forall_cons_2; [rewrite ?field_ok_app|]); [done|by rewrite (key_id_field _ Hk)|by rewrite Hto|
    by rewrite (digits_field _ Hd)|by rewrite (nonce_field _ Hn)|by rewrite Hsig|constructor].
Qed.
Lemma join_field sep l : visible sep = true → Forall (λ s, field_ok s = true) l →
  all_chars visible (join (String sep "") l) = true.
Proof.
  intros Hsep. induction 1 as [|x l Hx Hl IH]; [done|]. apply field_visible in Hx. destruct l as [|y l]; [done|].
  change (join (String sep "") (x :: y :: l)) with (x +:+ String sep (join (String sep "") (y :: l))).
  rewrite all_chars_app, Hx. cbn [all_chars]. by rewrite Hsep, IH.
Qed.
Lemma to_word_visible p : proof_ok p = true → all_chars visible (to_word p) = true.
Proof. intros Hp. rewrite to_word_join, all_chars_app. rewrite join_field; [done..|]. by apply proof_fields_ok. Qed.

Lemma proof_part_key v parts t e n g :
  proof_parts (("key=" +:+ v) :: parts) (mk_Slots None t e n g) = proof_parts parts (mk_Slots (Some v) t e n g).
Proof. change ("key=" +:+ v) with ("key" +:+ String "=" v). cbn [proof_parts]. by rewrite name_value_app. Qed.
Lemma proof_part_to v parts k e n g :
  proof_parts (("to=" +:+ v) :: parts) (mk_Slots k None e n g) = proof_parts parts (mk_Slots k (Some v) e n g).
Proof. change ("to=" +:+ v) with ("to" +:+ String "=" v). cbn [proof_parts]. by rewrite name_value_app. Qed.
Lemma proof_part_exp v parts k t n g :
  proof_parts (("exp=" +:+ v) :: parts) (mk_Slots k t None n g) = proof_parts parts (mk_Slots k t (Some v) n g).
Proof. change ("exp=" +:+ v) with ("exp" +:+ String "=" v). cbn [proof_parts]. by rewrite name_value_app. Qed.
Lemma proof_part_nonce v parts k t e g :
  proof_parts (("nonce=" +:+ v) :: parts) (mk_Slots k t e None g) = proof_parts parts (mk_Slots k t e (Some v) g).
Proof. change ("nonce=" +:+ v) with ("nonce" +:+ String "=" v). cbn [proof_parts]. by rewrite name_value_app. Qed.
Lemma proof_part_sig v parts k t e n :
  proof_parts (("sig=" +:+ v) :: parts) (mk_Slots k t e n None) = proof_parts parts (mk_Slots k t e n (Some v)).
Proof. change ("sig=" +:+ v) with ("sig" +:+ String "=" v). cbn [proof_parts]. by rewrite name_value_app. Qed.
Lemma proof_parts_fields p :
  proof_parts (tail (proof_fields p)) (mk_Slots None None None None None) =
  Ok (mk_Slots (Some (ap_key_id p)) (Some (ap_to p)) (Some (pretty (ap_expires_at p))) (Some (ap_nonce p)) (Some (ap_signature p))).
Proof.
  unfold proof_fields. cbn [tail].
  by rewrite proof_part_key, proof_part_to, proof_part_exp, proof_part_nonce, proof_part_sig.
Qed.

Lemma proof_parse_word p : proof_ok p = true → proof_parse (to_word p) = Ok p.
Proof.
  intros Hp. pose proof (proof_ok_fields _ Hp) as (Hk & _ & Hto & Hexp & Hn & _ & Hsig).
  unfold proof_parse. rewrite to_word_join, strip_prefix_app. cbn [ok_or mbind result_bind].
  rewrite split_join; [|done|eapply Forall_impl; [by apply proof_fields_ok|apply field_free]].
  change (proof_fields p) with (PROOF_VERSION :: tail (proof_fields p)). cbv beta iota. rewrite decide_False by (intros Hne; by apply Hne).
  rewrite proof_parts_fields. cbn [mbind result_bind]. unfold proof_of_slots. cbn [sl_key sl_to sl_exp sl_nonce sl_sig filter_opt].
  rewrite Hk, Hto, Hn, Hsig. cbn [mbind option_bind result_bind ok_or]. unfold parse_u64.
  rewrite (proj1 (parse_unsigned_pretty _ _ Hexp)). cbn. by destruct p.
Qed.

Lemma all_chars_Forall P s : all_chars P s = true ↔ Forall (λ c, P c = true) (String.list_ascii_of_string s).
Proof.
  induction s as [|c s IH]; [by split|]. cbn [all_chars].
  change (String.list_ascii_of_string (String c s)) with (c :: String.list_ascii_of_string s).
  by rewrite andb_true_iff, Forall_cons, IH.
Qed.

Section party_ok.
Context `{Percent, !PercentOk}.

(** The scopes a host writes: fields without white space or separators, a title
    that is text and not blank. *)
Definition party_ok (p : PartyScope) : bool :=
  field_ok (ps_conversation_id p) && nonempty (ps_conversation_id p) && utf8_text (ps_title p) &&
  nonempty (trim (ps_title p)) && field_ok (ps_host p) && field_ok (ps_agent p) && field_ok (ps_loadout p).
Lemma party_ok_fields p : party_ok p = true →
  field_ok (ps_conversation_id p) = true ∧ ps_conversation_id p ≠ "" ∧ utf8_text (ps_title p) = true ∧
  trim (ps_title p) ≠ "" ∧ field_ok (ps_host p) = true ∧ field_ok (ps_agent p) = true ∧ field_ok (ps_loadout p) = true.
Proof. unfold party_ok, nonempty. rewrite !andb_true_iff, !negb_true_iff, !bool_decide_eq_false. tauto. Qed.

Definition party_fields (p : PartyScope) : list string :=
  [ps_conversation_id p; "title=" +:+ utf8_percent_encode NON_ALPHANUMERIC (ps_title p); "host=" +:+ ps_host p;
   "agents=" +:+ ps_agent p; "loadout=" +:+ ps_loadout p].
Lemma to_scope_join p : to_scope p = PARTY_PREFIX +:+ join ";" (party_fields p).
Proof. done. Qed.
Lemma encoded_field s : field_ok (utf8_percent_encode NON_ALPHANUMERIC s) = true.
Proof.
  apply all_chars_Forall. eapply Forall_impl; [apply percent_alphabet|].
  intros [[] [] [] [] [] [] [] []]; vm_compute; done.
Qed.
Lemma party_fields_ok p : party_ok p = true → Forall (λ s, field_ok s = true) (party_fields p).
Proof.
  intros (Hc & _ & _ & _ & Hh & Ha & Hl)%party_ok_fields. unfold party_fields.
  repeat (apply Forall_cons_2; [rewrite ?field_ok_app|]); [done|by rewrite encoded_field|by rewrite Hh|by rewrite Ha|by rewrite Hl|constructor].
Qed.
Lemma to_scope_visible p : party_ok p = true → all_chars visible (to_scope p) = true.
Proof. intros Hp. rewrite to_scope_join, all_chars_app. rewrite join_field; [done..|]. by apply party_fields_ok. Qed.

Lemma party_part_title c t h a l v :
  party_part (mk_PartyScope c t h a l) ("title=" +:+ v) =
  mk_PartyScope c (default v (str_from_utf8 (percent_decode_str v))) h a l.
Proof. unfold party_part. change ("title=" +:+ v) with ("title" +:+ String "=" v). by rewrite name_value_app. Qed.
Lemma party_part_host c t h a l v :
  party_part (mk_PartyScope c t h a l) ("host=" +:+ v) = mk_PartyScope c t (trim v) a l.
Proof. unfold party_part. change ("host=" +:+ v) with ("host" +:+ String "=" v). by rewrite name_value_app. Qed.
Lemma party_part_agents c t h a l v :
  party_part (mk_PartyScope c t h a l) ("agents=" +:+ v) = mk_PartyScope c t h (trim v) l.
Proof. unfold party_part. change ("agents=" +:+ v) with ("agents" +:+ String "=" v). by rewrite name_value_app. Qed.
Lemma party_part_loadout c t h a l v :
  party_part (mk_PartyScope c t h a l) ("loadout=" +:+ v) = mk_PartyScope c t h a (trim v).
Proof. unfold party_part. change ("loadout=" +:+ v) with ("loadout" +:+ String "=" v). by rewrite name_value_app. Qed.

Lemma visible_word s : all_chars visible s = true → s ≠ "" → split_whitespace s = [s].
Proof.
  intros Hs Hne. apply (split_whitespace_join [s]), Forall_singleton. split; [done|]. by apply visible_white_free.
Qed.
Lemma trim_field s : field_ok s = true → trim s = s.
Proof. intros Hs. by apply trim_visible, field_visible. Qed.

Lemma party_parse_scope p : party_ok p = true → party_parse (to_scope p) = Some p.
Proof.
  intros Hp. pose proof (party_ok_fields _ Hp) as (Hc & Hne & Hu & Ht & Hh & Ha & Hl).
  unfold party_parse. rewrite visible_word; [|by apply to_scope_visible|done]. cbn [head mbind option_bind].
  rewrite to_scope_join, strip_prefix_app. cbn [mbind option_bind].
  rewrite split_join; [|done|eapply Forall_impl; [by apply party_fields_ok|apply field_free]].
  unfold party_fields. cbv beta iota zeta. rewrite (trim_field _ Hc), decide_False by done. cbn [foldl].
  rewrite party_part_title, party_part_host, party_part_agents, party_part_loadout.
  rewrite percent_roundtrip, str_from_utf8_bytes by done. cbn [default from_option id].
  rewrite !trim_field by done. unfold party_titled. cbn [ps_title]. rewrite decide_False by done. by destruct p.
Qed.
End party_ok.

(** ** Signed asks verify *)

Lemma purpose_not_family w : is_purpose w = true → w ∉ FAMILIES.
Proof.
  intros [Hc _]%andb_true_iff Hin. assert (Hall : Forall (λ f, contains_char ":" f = false) FAMILIES)
    by (apply (bool_decide_unpack _); by vm_compute).
  rewrite Forall_forall in Hall. by rewrite (Hall _ Hin) in Hc.
Qed.
(** A scope of purposes alone is kept as it is. *)
Lemma normalize_purposes ws :
  ws ≠ [] → NoDup ws → Forall word_ok ws → (∀ w, w ∈ ws → is_purpose w = true) →
  normalize_scope (Some (join " " ws)) = Ok (join " " ws).
Proof.
  intros Hne Hnd Hok Hp. unfold normalize_scope. cbn [fmap option_fmap option_map default from_option id].
  rewrite trim_join, decide_False, split_whitespace_join by (done || by apply join_nonempty).
  rewrite collect_purposes; [done|done|]. intros w Hw. split; [|by apply Hp]. by apply purpose_not_family, Hp.
Qed.

Lemma encode_hex_lower bs : all_chars lower_hex_char (encode_hex bs) = true.
Proof. induction bs as [|b bs IH]; [done|]. cbn [encode_hex all_chars]. rewrite IH. by destruct b. Qed.
Lemma hex_key_id (v : barr 32) : is_key_id (encode_hex v) = true.
Proof.
  unfold is_key_id. rewrite length_encode_hex, length_vec_to_list, encode_hex_lower. done.
Qed.
Lemma lower_char_field c : field_char c = true → field_char (lower_char c) = true.
Proof. destruct c as [[] [] [] [] [] [] [] []]; vm_compute; done. Qed.
Lemma to_ascii_lowercase_field s : field_ok s = true → field_ok (to_ascii_lowercase s) = true.
Proof.
  unfold field_ok. induction s as [|c s IH]; [done|]. cbn. intros [Hc Hs]%andb_true_iff. by rewrite lower_char_field, IH.
Qed.
Lemma recipient_field here agent : field_ok here = true → field_ok agent = true → field_ok (recipient here agent) = true.
Proof.
  intros Hh Ha. unfold recipient. rewrite !trim_field, !field_ok_app by done. by rewrite !to_ascii_lowercase_field.
Qed.
Lemma recipient_nonempty here agent : nonempty (recipient here agent) = true.
Proof. unfold recipient. by destruct (to_ascii_lowercase (trim here)). Qed.

Section verify.
Context `{Crypto, Base64Url, Percent, !CryptoOk, !Base64UrlOk, !PercentOk}.

Lemma b64url_field bs : field_ok (b64url_encode bs) = true.
Proof.
  apply all_chars_Forall. eapply Forall_impl; [apply b64url_alphabet|]. intros [[] [] [] [] [] [] [] []]; vm_compute; done.
Qed.
Lemma b64url_nonempty bs : bs ≠ [] → nonempty (b64url_encode bs) = true.
Proof.
  intros Hne. unfold nonempty. apply negb_true_iff, bool_decide_eq_false. intros He. apply Hne.
  pose proof (b64url_roundtrip bs) as Hr. rewrite He, <-b64url_empty, b64url_roundtrip in Hr. by injection Hr.
Qed.

Lemma sign_proof_ok identity fields nonce now :
  field_ok (sg_to fields) = true → nonempty (sg_to fields) = true → is_nonce nonce = true →
  (0 ≤ now < u64_modulus - ASK_LIFETIME_SECS)%Z →
  proof_ok (sign_with_identity identity fields nonce now) = true.
Proof.
  intros Hto Hne Hn Hnow. unfold proof_ok, sign_with_identity. cbn [ap_key_id ap_to ap_expires_at ap_nonce ap_signature].
  unfold DeviceId_to_hex. rewrite hex_key_id, Hto, Hne, Hn, b64url_field, b64url_nonempty.
  - rewrite bool_decide_eq_true_2; [done|]. unfold ASK_LIFETIME_SECS in *. lia.
  - intros Hnil%(f_equal length). by rewrite length_vec_to_list in Hnil.
Qed.

(** The two words of a signed ask, found again in its scope. *)
Definition signed_scope (party : PartyScope) (proof : AskProof) : string := to_scope party +:+ " " +:+ to_word proof.
Lemma signed_scope_words party proof :
  party_ok party = true → proof_ok proof = true →
  let ws := [to_scope party; to_word proof] in
  signed_scope party proof = join " " ws ∧ Forall word_ok ws ∧ NoDup ws ∧ (∀ w, w ∈ ws → is_purpose w = true).
Proof.
  intros Hp Hq. cbv zeta. split; [done|]. split; [|split].
  - repeat constructor; try done; apply visible_white_free; [by apply to_scope_visible|by apply to_word_visible].
  - apply NoDup_cons. split; [|apply NoDup_singleton]. by intros ?%list_elem_of_singleton.
  - intros w [->|[->|[]%elem_of_nil]%elem_of_cons]%elem_of_cons; done.
Qed.
Lemma signed_scope_found party proof :
  party_ok party = true → proof_ok proof = true →
  party_word (Some (signed_scope party proof)) = Some (to_scope party) ∧
  proof_in (Some (signed_scope party proof)) = Some (Ok proof).
Proof.
  intros Hp Hq. destruct (signed_scope_words party proof Hp Hq) as (Hj & Hok & _ & _).
  unfold party_word, proof_in. cbn [mbind option_bind]. rewrite Hj, split_whitespace_join by done. split.
  - cbn [List.find]. by rewrite bool_decide_eq_true_2 by (rewrite party_parse_scope by done; by eexists).
  - cbn [List.filter]. assert (starts_with PROOF_PREFIX (to_scope party) = false) as -> by done.
    assert (starts_with PROOF_PREFIX (to_word proof) = true) as ->.
    { apply bool_decide_eq_true. rewrite to_word_join. eexists. apply strip_prefix_app. }
    by rewrite proof_parse_word.
Qed.

(** A signed ask is let through. The scope that carries a party and the proof
    an identity signed for it survives the server's normalisation unchanged; and
    the ask that carries it verifies at the recipient it was signed for, from the
    sender's address, while the proof lives and within the tolerated clock skew,
    when the sender's book holds the signing key. *)
Lemma signed_ask_verifies identity party sender here nonce sent now keys ask :
  identity_wf identity → party_ok party = true → ask_sender party = Some sender → field_ok here = true →
  is_nonce nonce = true → (0 ≤ sent < u64_modulus - ASK_LIFETIME_SECS)%Z →
  let fields := signed_fields (recipient here (ps_agent party)) party (to_scope party) ask in
  let proof := sign_with_identity identity fields nonce sent in
  normalize_scope (Some (signed_scope party proof)) = Ok (signed_scope party proof) ∧
  (ak_scope ask = Some (signed_scope party proof) →
   keys (aa_user sender) (ap_key_id proof) = Ok (Some (vec_to_list (public_key_sec1 identity))) →
   (sent - CLOCK_SKEW_SECS ≤ now ≤ sent + ASK_LIFETIME_SECS)%Z →
   verify_party_ask_signature now keys ask here party =
     Ok (SenderVerified (ps_host party) (ap_key_id proof), Some proof)).
Proof.
  intros Hwf Hp Hs Hh Hn Hsent fields proof.
  assert (Hq : proof_ok proof = true).
  { apply sign_proof_ok; [|apply recipient_nonempty|done..]. apply recipient_field; [done|]. by apply party_ok_fields in Hp as (_ & _ & _ & _ & _ & ? & _). }
  split.
  { destruct (signed_scope_words party proof Hp Hq) as (-> & Hok & Hnd & Hpu). by apply normalize_purposes. }
  intros Hscope Hkeys Hnow. destruct (signed_scope_found party proof Hp Hq) as [Hw Hin].
  unfold verify_party_ask_signature. rewrite Hscope, Hin, Hw, Hs.
  rewrite !decide_False; [|cbn; unfold ASK_LIFETIME_SECS in *; lia..|by intros ?].
  cbn [ok_or mbind result_bind]. change (ap_signature proof) with (b64url_encode (sig_to_bytes (identity_sign identity
    (payload_bytes (payload fields (ap_key_id proof) (ap_expires_at proof) nonce))))).
  rewrite b64url_roundtrip. cbn [mbind option_bind]. rewrite sig_roundtrip. cbn [ok_or mbind result_bind].
  rewrite Hkeys. cbn [mbind result_bind].
  pose proof (identity_wf_verifying _ Hwf) as [Hv Hid].
  rewrite decide_False by (intros Hne; apply Hne; cbn; by rewrite Hid).
  unfold public_key_sec1, sec1_compressed. rewrite sec1_roundtrip. cbn [ok_or mbind result_bind].
  unfold identity_verify. rewrite Hv. unfold identity_sign. rewrite sign_verifies.
  unfold ask_sender in Hs. destruct (address_parse _) as [a|]; [|done].
  destruct (_ && _) eqn:Hc; [|done]. injection Hs as <-. apply andb_true_iff in Hc as [_ Hc%bool_decide_eq_true].
  by rewrite Hc.
Qed.
End verify.

(** ** Verified asks are authentic *)

Lemma pretty_inj (x y : Z) : pretty x = pretty y → x = y.
Proof. apply pretty_Z_inj. Qed.
Lemma lines_inj l l' : length l = length l' → Forall one_line (removelast l) → Forall one_line (removelast l') →
  join nl l = join nl l' → l = l'.
Proof.
  revert l'; induction l as [|x l IH]; intros [|y l'] Hlen Hl Hl'; [done..|]. injection Hlen as Hlen.
  destruct l as [|x' l], l' as [|y' l']; try done; [cbn; by intros ->|].
  cbn [removelast] in Hl, Hl'. apply Forall_cons in Hl as [Hx Hl], Hl' as [Hy Hl'].
  change (join nl (x :: x' :: l)) with (x +:+ nl +:+ join nl (x' :: l)).
  change (join nl (y :: y' :: l')) with (y +:+ nl +:+ join nl (y' :: l')).
  intros [-> Heq]%nl_app_inj; [|done..]. f_equal. by apply IH.
Qed.
Lemma one_line_app a b : one_line (a +:+ b) ↔ one_line a ∧ one_line b.
Proof.
  unfold one_line. induction a as [|c a IH].
  - change ("" +:+ b) with b. split; [|by intros [_ ?]]. intros Hb. split; [|done]. apply not_elem_of_nil.
  - rewrite append_cons. change (String.list_ascii_of_string (String c ?s)) with (c :: String.list_ascii_of_string s).
    rewrite !not_elem_of_cons, IH. tauto.
Qed.
Lemma digits_one_line s : all_chars is_ascii_digit s = true → one_line s.
Proof.
  intros Hs%all_chars_Forall Hin. rewrite Forall_forall in Hs. by apply Hs in Hin.
Qed.

(** A payload's fields on one line each, the last one free. *)
Definition fields_lines (f : Signed) (key_id : string) (expires_at : Z) (nonce : string) : Prop :=
  Forall one_line [sg_to f; sg_from f; sg_kind f; key_id; nonce; sg_scope f; sg_redirect_uri f] ∧ u64_ok expires_at.

Lemma payload_inj f k e n f' k' e' n' :
  fields_lines f k e n → fields_lines f' k' e' n' → payload f k e n = payload f' k' e' n' →
  f = f' ∧ k = k' ∧ e = e' ∧ n = n'.
Proof.
  assert (Hlit : ∀ f k e n, fields_lines f k e n → Forall one_line (removelast
    [PAYLOAD_VERSION; "to=" +:+ sg_to f; "from=" +:+ sg_from f; "kind=" +:+ sg_kind f;
     "key=" +:+ k; "exp=" +:+ pretty e; "nonce=" +:+ n; "scope=" +:+ sg_scope f;
     "redirect_uri=" +:+ sg_redirect_uri f; "code_challenge=" +:+ sg_code_challenge f])).
  { intros g k1 e1 n1 [Hl He]. rewrite !Forall_cons in Hl. destruct_and! Hl. cbn [removelast].
    destruct (parse_unsigned_pretty u64_modulus e1 He) as [_ Hd%digits_one_line].
    assert (Hc : ∀ s, all_chars visible s = true → one_line s).
    { intros s Hs%all_chars_Forall Hin. rewrite Forall_forall in Hs. by apply Hs in Hin. }
    repeat (apply Forall_cons_2; [rewrite ?one_line_app; try split; first [done|by apply Hc]|]). constructor. }
  intros Hf Hf' Heq. apply lines_inj in Heq; [|done|by apply Hlit..].
  injection Heq as Hto Hfrom Hkind Hk He Hn Hscope Hred Hch.
  apply pretty_inj in He. change ("" +:+ ?x) with x in *. destruct f, f'. cbn in *. by subst.
Qed.

Section authentic.
Context `{Crypto, Base64Url, Percent}.

(** A verified ask is the one the sender signed. When an ask is attributed to
    an address, the proof in its scope names this recipient and has not expired
    and does not outlive the tolerance; the address's book holds, under the id the
    proof names, a key with that digest; and that key verified the signature over
    the recipient, the address, the party's scope word, the ask's redirect and
    challenge, and the proof's expiry and nonce. A payload of one-line fields is
    read back, so the same signature vouches for no other ask. *)
Lemma verified_ask_authentic now keys ask here party address key_id found :
  verify_party_ask_signature now keys ask here party = Ok (SenderVerified address key_id, found) →
  ∃ proof sender key vk signature word,
    found = Some proof ∧ proof_in (ak_scope ask) = Some (Ok proof) ∧ ap_key_id proof = key_id ∧
    ap_to proof = recipient here (ps_agent party) ∧
    (now ≤ ap_expires_at proof ≤ now + ASK_LIFETIME_SECS + CLOCK_SKEW_SECS)%Z ∧
    address_parse address = Ok sender ∧ address = ps_host party ∧ aa_agent sender = None ∧
    keys (aa_user sender) key_id = Ok (Some key) ∧ key_id_of key = key_id ∧ vk_from_sec1 key = Some vk ∧
    party_word (ak_scope ask) = Some word ∧
    (let message := payload (signed_fields (ap_to proof) party word ask) key_id (ap_expires_at proof) (ap_nonce proof) in
     vk_verify vk (payload_bytes message) signature = true ∧
     ∀ f k e n, fields_lines f k e n →
       fields_lines (signed_fields (ap_to proof) party word ask) key_id (ap_expires_at proof) (ap_nonce proof) →
       payload_bytes (payload f k e n) = payload_bytes message →
       f = signed_fields (ap_to proof) party word ask ∧ k = key_id ∧ e = ap_expires_at proof ∧ n = ap_nonce proof).
Proof.
  unfold verify_party_ask_signature. destruct (proof_in _) as [[proof|]|] eqn:Hin; [|done|by case_decide].
  destruct (decide (ap_to proof ≠ _)) as [|Hto%dec_stable]; [done|]. rewrite <-Hto.
  case_decide; [done|]. case_decide; [done|].
  destruct (ask_sender party) as [sender|] eqn:Hs; [|done]. destruct (party_word _) as [word|] eqn:Hw; [|done]. cbn [ok_or mbind result_bind].
  destruct (b64url_decode _ ≫= sig_from_slice) as [signature|]; [|done]. cbn [ok_or mbind result_bind].
  destruct (keys _ _) as [[key|]|] eqn:Hk; [|done..]. cbn [mbind result_bind].
  destruct (decide (key_id_of key ≠ _)) as [|Hkid%dec_stable]; [done|].
  destruct (vk_from_sec1 key) as [vk|] eqn:Hvk; [|done]. cbn [ok_or mbind result_bind]. unfold identity_verify.
  destruct (vk_verify _ _ _) eqn:Hv; [|done]. intros [= <- <- <-].
  unfold ask_sender in Hs. destruct (address_parse (ps_host party)) as [a|] eqn:Ha; [|done].
  destruct (_ && _) eqn:Hc; [|done]. injection Hs as <-. apply andb_true_iff in Hc as [Hag%bool_decide_eq_true Hhost%bool_decide_eq_true].
  exists proof, a, key, vk, signature, word. rewrite Hhost. do 11 (split; [first [done|lia]|]). split; [done|]. split; [done|].
  intros f k e n Hf Hf' Heq%payload_bytes_inj. by apply payload_inj in Heq.
Qed.
End authentic.

(** ** A proof is accepted once *)

Section once.
Context `{Crypto, Base64Url, Percent} (conflicts : NonceRow → NonceRow → bool).

(** A signed ask arriving: when, where, with which book, and how the database answers. *)
Record Attempt : Type := mk_Attempt {
  at_now : Z;
  at_keys : KeyBook;
  at_ask : Ask;
  at_here : string;
  at_party : PartyScope;
  at_delete : result string ();
  at_insert : result string ();
}.
(** Verification, then the memory of nonces. *)
Definition accept (rows : list NonceRow) (a : Attempt) : option AskProof * list NonceRow :=
  match verify_party_ask_signature (at_now a) (at_keys a) (at_ask a) (at_here a) (at_party a) with
  | Ok (_, Some proof) =>
      let '(seen, rows) :=
        first_sighting_conn conflicts rows (ap_nonce proof) (ap_key_id proof) (at_now a) (at_delete a) (at_insert a) in
      (match seen with Ok true => Some proof | _ => None end, rows)
  | _ => (None, rows)
  end.
Fixpoint accepts (rows : list NonceRow) (l : list Attempt) : list AskProof :=
  match l with
  | [] => []
  | a :: l => let '(o, rows) := accept rows a in match o with Some p => p :: accepts rows l | None => accepts rows l end
  end.

(** What identifies a proof, whatever form its signature takes. *)
Definition proof_id (p : AskProof) : string * string * Z := (ap_nonce p, ap_key_id p, ap_expires_at p).
(** The memory still has what was accepted and may yet come again. *)
Definition remembers (rows : list NonceRow) (now : Z) (seen : list (string * string * Z)) : Prop :=
  ∀ n k e, (n, k, e) ∈ seen → (e < now)%Z ∨
    ∃ s, mk_NonceRow n k s ∈ rows ∧ (e ≤ s + ASK_LIFETIME_SECS + CLOCK_SKEW_SECS ∨ s = 2 ^ 63 - 1)%Z.

Lemma verified_in_time now keys ask here party sender proof :
  verify_party_ask_signature now keys ask here party = Ok (sender, Some proof) →
  (now ≤ ap_expires_at proof ≤ now + ASK_LIFETIME_SECS + CLOCK_SKEW_SECS)%Z.
Proof.
  unfold verify_party_ask_signature. destruct (proof_in _) as [[q|]|]; [|done|by case_decide].
  case_decide; [done|]. case_decide; [done|]. case_decide; [done|].
  destruct (ask_sender party); [|done]. destruct (party_word _); [|done]. cbn [ok_or mbind result_bind].
  destruct (b64url_decode _ ≫= sig_from_slice); [|done]. cbn [ok_or mbind result_bind].
  destruct (keys _ _) as [[key|]|]; [|done..]. cbn [mbind result_bind].
  case_decide; [done|]. destruct (vk_from_sec1 key); [|done]. cbn [ok_or mbind result_bind].
  destruct (identity_verify _ _ _); [|done]. intros [= _ <-]. lia.
Qed.
Lemma remembers_later rows now now' seen : (now ≤ now')%Z → remembers rows now seen → remembers rows now' seen.
Proof. intros Hle Hr n k e [?|?]%Hr; [left; lia|by right]. Qed.
Lemma remembers_forget rows now seen :
  remembers rows now seen →
  remembers (filter (λ r, ¬ (nr_seen_at r < Z.min now (2 ^ 63 - 1) - NONCE_MEMORY_SECS)%Z) rows) now seen.
Proof.
  intros Hr n k e [?|(s & Hin & Hs)]%Hr; [by left|].
  destruct (decide (s < Z.min now (2 ^ 63 - 1) - NONCE_MEMORY_SECS)%Z) as [Hlt|Hge].
  - left. unfold NONCE_MEMORY_SECS, ASK_LIFETIME_SECS, CLOCK_SKEW_SECS in *. lia.
  - right. exists s. split; [by apply list_elem_of_filter|done].
Qed.

Context (conflicts_same : ∀ r r', nr_nonce r = nr_nonce r' → nr_key_id r = nr_key_id r' → conflicts r r' = true).

Lemma accept_remembers rows a o rows' seen :
  accept rows a = (o, rows') → remembers rows (at_now a) seen →
  match o with
  | Some p => proof_id p ∉ seen ∧ remembers rows' (at_now a) (proof_id p :: seen)
  | None => remembers rows' (at_now a) seen
  end.
Proof.
  unfold accept. destruct (verify_party_ask_signature _ _ _ _ _) as [[sender [proof|]]|] eqn:Hv; [|by intros [= <- <-]..].
  apply verified_in_time in Hv.
  unfold first_sighting_conn. destruct (at_delete a); [|by intros [= <- <-]].
  intros Hacc Hr. apply remembers_forget in Hr. set (kept := filter _ rows) in *.
  destruct (at_insert a); [|by injection Hacc as <- <-]. destruct (existsb _ kept) eqn:Hex; injection Hacc as <- <-; [done|].
  split.
  - intros [?|(s & Hin & _)]%Hr; [lia|]. apply not_true_iff_false in Hex. apply Hex, existsb_exists.
    eexists. split; [by apply list_elem_of_In|]. by apply conflicts_same.
  - intros n k e [[= -> -> ->]|Hin]%elem_of_cons.
    + right. eexists. split; [apply elem_of_app; right; by apply list_elem_of_singleton|]. lia.
    + destruct (Hr _ _ _ Hin) as [?|(s & Hs & ?)]; [by left|]. right. exists s. split; [|done]. apply elem_of_app. by left.
Qed.

(** C31: a signed ask is accepted once. Asks arrive at times that do not go back,
    each verified and then noted in the memory of nonces, whatever the key books
    and the database answer: no proof is accepted twice, whatever form its
    signature takes, though the memory forgets old nonces and any ask may be sent
    again. The table's own constraint is asked only to tell apart no two rows of
    one nonce and one key. *)
Theorem ask_accepted_once rows l :
  StronglySorted Z.le (at_now <$> l) → NoDup (proof_id <$> accepts rows l).
Proof.
  intros Hs. enough (Hgo : ∀ seen now, remembers rows now seen → Forall (λ a, (now ≤ at_now a)%Z) l →
    NoDup (proof_id <$> accepts rows l) ∧ ∀ p, p ∈ accepts rows l → proof_id p ∉ seen).
  { destruct l as [|a l]; [constructor|]. apply (Hgo [] (at_now a)); [by intros n k e ?%elem_of_nil|].
    cbn [fmap list_fmap] in Hs. apply StronglySorted_inv in Hs as [_ Hs]. constructor; [lia|]. exact (proj1 (Forall_fmap _ _ _) Hs). }
  revert rows Hs. induction l as [|a l IH]; intros rows Hs seen now Hr Hall.
  { split; [constructor|]. by intros p ?%elem_of_nil. }
  apply Forall_cons in Hall as [Hnow _]. apply (remembers_later _ _ (at_now a)) in Hr; [|done].
  cbn [fmap list_fmap] in Hs. apply StronglySorted_inv in Hs as [Hs Hle].
  pose proof (proj1 (Forall_fmap at_now (Z.le (at_now a)) l) Hle) as Hle'.
  cbn [accepts]. destruct (accept rows a) as [o rows'] eqn:Hacc. pose proof (accept_remembers _ _ _ _ _ Hacc Hr) as Hrem.
  destruct o as [p|]; [|exact (IH rows' Hs seen _ Hrem Hle')]. destruct Hrem as [Hnew Hrem].
  destruct (IH rows' Hs _ _ Hrem Hle') as [Hnd Hout]. split.
  - cbn [fmap list_fmap]. apply NoDup_cons. split; [|done]. intros (q & Heq & Hq)%list_elem_of_fmap.
    apply (Hout q Hq). rewrite <-Heq. apply elem_of_cons. by left.
  - intros q [->|Hq]%elem_of_cons; [done|]. intros Hin. apply (Hout q Hq). apply elem_of_cons. by right.
Qed.
End once.
