(* ===== verification/OAuthNet.v ===== *)
(** * The authorization routes ([src/oauth/net/mod.rs])

    What each route answers, the lines it sends to the audit sink, and the server
    it leaves; then any sequence of requests to the routes, each over the server's
    event behind it.  The framework's extractors, its redirect response, the clock,
    the node's own address and the random strings are arguments. *)

From stdpp Require Import pretty.
From S2P Require Import Prelude Ordered External Toy Http Identity Text Words Address OAuth OAuthServer OAuthRuns.

Definition SOURCE_HEADER : string := "cf-connecting-ip".

(** ** Pages *)

(** A text of the templates, with a backtick for each double quote. *)
Fixpoint quoted (s : string) : string :=
  match s with
  | "" => ""
  | String c s => String (if decide (c = "`"%char) then Ascii.ascii_of_nat 34 else c) (quoted s)
  end.

Definition escape_char (c : ascii) : string :=
  if decide (c = "&"%char) then "&amp;"
  else if decide (c = "<"%char) then "&lt;"
  else if decide (c = ">"%char) then "&gt;"
  else if decide (c = Ascii.ascii_of_nat 34) then "&quot;"
  else if decide (c = "'"%char) then "&#39;"
  else String c "".
Fixpoint escape (text : string) : string :=
  match text with "" => "" | String c text => escape_char c +:+ escape text end.

Definition address_of (issuer : string) : string := trim_start_str "http://" (trim_start_str "https://" issuer).

Definition scope_words (scope : option string) : string :=
  match reverse (family_words <$> scope_families scope) with
  | [] => "nothing at your address itself"
  | [one] => one
  | last :: first => join ", " (reverse first) +:+ ", and " +:+ last
  end.

Definition WAITING_SCRIPT : string := quoted
"<script>
(function () {
  var note = document.getElementById(`note`);
  var client = note.dataset.client;
  var ask = new URL(`ask/` + note.dataset.ask, location.href);
  var tick = function () {
    fetch(ask, { cache: `no-store` }).then(function (r) { return r.json(); }).then(function (answer) {
      if (answer.status === `let_in`) {
        note.textContent = `Let in. Taking you back to ` + client + `\u2026`;
        location.replace(answer.redirect);
      } else if (answer.status === `refused`) {
        note.textContent = `Not let in. Nothing changed. Taking you back\u2026`;
        location.replace(answer.redirect);
      } else if (answer.status === `gone`) {
        note.textContent = `This ask is no longer open. Start again from ` + client + `.`;
      } else {
        setTimeout(tick, 2000);
      }
    }).catch(function () { setTimeout(tick, 4000); });
  };
  tick();
})();
</script>".

Definition page (issuer title lede_html : string) (waiting : option (string * string)) : string :=
  let address := escape (address_of issuer) in
  let title := escape title in
  let '(note, script) :=
    match waiting with
    | Some (client_name, ask_id) =>
        (quoted "<p id=`note` class=`note` data-client=`" +:+ escape client_name +:+ quoted "` data-ask=`"
           +:+ escape ask_id +:+ quoted "`>Waiting for you&hellip;</p>", WAITING_SCRIPT)
    | None => (quoted "<p id=`note` class=`note`>Go back to where you started and try again.</p>", "")
    end in
  quoted "<!doctype html>
<html lang=`en`>
<head>
<meta charset=`utf-8`>
<meta name=`viewport` content=`width=device-width, initial-scale=1`>
<title>" +:+ title +:+ " · " +:+ address +:+ quoted "</title>
<style>
  :root { color-scheme: light dark; --ink: #18181b; --muted: #71717a; --paper: #fafafa; --line: #e4e4e7; }
  @media (prefers-color-scheme: dark) { :root { --ink: #fafafa; --muted: #a1a1aa; --paper: #09090b; --line: #27272a; } }
  body { margin: 0; background: var(--paper); color: var(--ink); font: 17px/1.5 -apple-system, BlinkMacSystemFont, `Inter`, system-ui, sans-serif; }
  main { max-width: 34rem; margin: 18vh auto 0; padding: 0 16px; }
  h1 { font-size: 1.5rem; margin: 0 0 .75rem; }
  p { margin: 0 0 1rem; }
  .note { color: var(--muted); border-top: 1px solid var(--line); padding-top: 1rem; }
  .address { color: var(--muted); font-size: .9rem; }
</style>
</head>
<body>
<main>
  <p class=`address`>" +:+ address +:+ "</p>
  <h1>" +:+ title +:+ "</h1>
  <p>" +:+ lede_html +:+ "</p>
  " +:+ note +:+ "
</main>
" +:+ script +:+ "
</body>
</html>
".

(** ** Responses *)

(** What the routes serialise. *)
Inductive OAuthBody : Type :=
  | BodyError (error error_description : string)
  | BodyServer (m : ServerMetadata)
  | BodyResource (m : ResourceMetadata)
  | BodyRegistered (r : Registered)
  | BodyAsked (ask client_name origin scope poll : string)
  | BodyProgress (status : string) (redirect : option string)
  | BodyIssued (i : Issued).

Definition cors (r : Response) : Response :=
  with_header (with_header (with_header r "access-control-allow-origin" "*")
    "access-control-allow-methods" "GET, POST, OPTIONS")
    "access-control-allow-headers" "Content-Type, Authorization, MCP-Protocol-Version".
Definition html_response (status : Z) (html : string) : Response :=
  mk_Response status [("content-type", "text/html; charset=utf-8")] (payload_bytes html).
Definition oauth_error_text (e : OAuthError) : string :=
  match e with StoreErr why => "store: " +:+ why | ConsentErr why => "consent: " +:+ why end.

Definition source_of (headers : list (string * string)) : string :=
  match trimmed (header SOURCE_HEADER headers ≫= header_to_str) with Some s => s | None => "this machine" end.
Definition asks_for_json (headers : list (string * string)) : bool :=
  match header "accept" headers ≫= header_to_str with
  | Some accept =>
      existsb (λ part, bool_decide (trim (default "" (head (split ";" (trim part)))) = "application/json")) (split "," accept)
  | None => false
  end.

Section routes.
Context `{Crypto, Base64Url, Percent, Json, !JsonWire OAuthBody} {S : Type} `{!OStore S}.
(** [str::to_lowercase], the [Debug] text of a string, [axum]'s redirect. *)
Context (to_lowercase debug_text : string → string) (redirect_to : string → Response).
Notation Srv := (@Server S).

Definition json (status : Z) (body : OAuthBody) : Response :=
  let bytes := match json_to_vec body with Ok bs => bs | Err _ => [] end in
  cors (mk_Response status [("content-type", "application/json"); ("cache-control", "no-store")] bytes).
Definition preflight : Response := cors (status_response NO_CONTENT).
Definition slowed (window_secs : Z) (description : string) : Response :=
  with_header (json TOO_MANY_REQUESTS (BodyError "too_many_requests" description)) "retry-after" (pretty window_secs).
Definition failed (error : OAuthError) : Response :=
  json INTERNAL_SERVER_ERROR (BodyError "server_error" (oauth_error_text error)).

(** [issuer] is what the node's address callback answers. *)
Definition address (issuer : option string) : result Response string :=
  ok_or (match trim_end_char "/" <$> issuer with Some i => if decide (i = "") then None else Some i | None => None end)
    (json SERVICE_UNAVAILABLE (BodyError "server_error" "This node has no address yet.")).
Definition authorization_server_metadata (issuer : option string) : Response :=
  match address issuer with Ok issuer => json OK (BodyServer (server_metadata issuer)) | Err r => r end.
Definition protected_resource_metadata (issuer : option string) : Response :=
  match address issuer with Ok issuer => json OK (BodyResource (resource_metadata issuer)) | Err r => r end.

(** [spawn_blocking]: [joined] is an error when the task did not run. *)
Definition blocking {T} (v : Srv) (joined : result string ()) (run : S → T * S) : result Response T * Srv :=
  match joined with
  | Err error => (Err (json INTERNAL_SERVER_ERROR (BodyError "server_error" error)), v)
  | Ok _ => let '(out, s) := run (sv_store v) in (Ok out, with_store v s)
  end.

Definition register_route (v : Srv) (headers : list (string * string)) (body : result string Registration)
    (joined : result string ()) (id : string) (at_ : Z) : Response * list string * Srv :=
  let source := source_of headers in
  let '(ok, v) := may_register v source at_ in
  if negb ok then
    (slowed REGISTER_LIMIT.2 "Too many registrations from where you are; try again later.",
     ["oauth: " +:+ source +:+ " was slowed: " +:+ pretty REGISTER_LIMIT.1 +:+ " registrations in " +:+ pretty REGISTER_LIMIT.2 +:+ " seconds"], v)
  else
    match body with
    | Err rejection => (json BAD_REQUEST (BodyError "invalid_client_metadata" rejection), [], v)
    | Ok registration =>
        let '(out, v) := blocking v joined (λ s, register s registration id at_) in
        match out with
        | Ok (Ok (Ok client)) =>
            (json CREATED (BodyRegistered (Registered_from client)),
             ["oauth: " +:+ source +:+ " registered " +:+ debug_text (cl_name client) +:+ " (" +:+ cl_id client
                +:+ "), sent back to " +:+ join ", " (redirect_origin to_lowercase <$> cl_redirect_uris client)], v)
        | Ok (Ok (Err refusal)) =>
            (json BAD_REQUEST (BodyError (rr_error refusal) (rr_description refusal)),
             ["oauth: " +:+ source +:+ " was refused a registration: " +:+ rr_description refusal], v)
        | Ok (Err error) => (failed error, [], v)
        | Err response => (response, [], v)
        end
    end.

Definition waiting_html (issuer : string) (ask : Ask) : string :=
  let lede :=
    "<strong>" +:+ escape (ak_client_name ask) +:+ "</strong> wants to connect to <strong>" +:+ escape (address_of issuer)
      +:+ "</strong> and be sent back to <strong>" +:+ escape (redirect_origin to_lowercase (ak_redirect_uri ask))
      +:+ "</strong>. It asks to " +:+ escape (scope_words (ak_scope ask))
      +:+ ", for thirty days. Let it in from Proxy on your Mac or phone, or reject it there." in
  page issuer "Let it in?" lede (Some (ak_client_name ask, ak_id ask)).
Definition waiting_page (issuer : string) (ask : Ask) : Response :=
  cors (with_header (html_response OK (waiting_html issuer ask)) "cache-control" "no-store").

Definition authorize_route (v : Srv) (issuer : option string) (headers : list (string * string)) (request : AuthorizeRequest)
    (consent_ask : result OAuthError ()) (joined : result string ()) (id : string) (at_ : Z) : Response * list string * Srv :=
  match address issuer with
  | Err response => (response, [], v)
  | Ok issuer =>
      let source := source_of headers in
      let '(ok, v) := may_ask v source at_ in
      if negb ok then
        (with_header (html_response TOO_MANY_REQUESTS
           (page issuer "Too many asks" "Too many asks to connect have come from where you are. Wait a few minutes and start again from where you were." None))
           "retry-after" (pretty AUTHORIZE_LIMIT.2),
         ["oauth: " +:+ source +:+ " was slowed: " +:+ pretty AUTHORIZE_LIMIT.1 +:+ " asks in " +:+ pretty AUTHORIZE_LIMIT.2 +:+ " seconds"], v)
      else
        let '(out, v) := blocking v joined (λ s, authorize s request issuer consent_ask id at_) in
        let response :=
          match out with
          | Ok (Ok (Ok ask)) =>
              if asks_for_json headers then
                json OK (BodyAsked (ak_id ask) (ak_client_name ask) (redirect_origin to_lowercase (ak_redirect_uri ask))
                           (default "" (ak_scope ask)) ("ask/" +:+ ak_id ask))
              else waiting_page issuer ask
          | Ok (Ok (Err (RefusalRedirect url))) => redirect_to url
          | Ok (Ok (Err (RefusalPage status message))) =>
              html_response status (page issuer "This ask cannot go on" message None)
          | Ok (Err error) => failed error
          | Err response => response
          end in
        (response, [], v)
  end.

Definition ask_route (v : Srv) (id : string) (answer : result OAuthError Answer) (joined : result string ()) (code : string) (at_ : Z)
    : Response * Srv :=
  let '(out, v) := blocking v joined (λ s, progress s id answer code at_) in
  (match out with
   | Ok (Ok Waiting) => json OK (BodyProgress "waiting" None)
   | Ok (Ok (ProgressRedirect url)) => json OK (BodyProgress "let_in" (Some url))
   | Ok (Ok (ProgressDenied url)) => json OK (BodyProgress "refused" (Some url))
   | Ok (Ok Gone) => json NOT_FOUND (BodyProgress "gone" None)
   | Ok (Err error) => failed error
   | Err response => response
   end, v).

Definition token_route (v : Srv) (body : result string TokenRequest) (joined : result string ()) (secret id : string) (at_ : Z)
    : Response * Srv :=
  match body with
  | Err rejection => (json BAD_REQUEST (BodyError "invalid_request" rejection), v)
  | Ok request =>
      let '(out, v) := blocking v joined (λ s, token s request secret id at_) in
      (match out with
       | Ok (Ok (Ok issued)) => json OK (BodyIssued issued)
       | Ok (Ok (Err refusal)) => json (refusal_status refusal) (BodyError (tf_error refusal) (tf_description refusal))
       | Ok (Err error) => failed error
       | Err response => response
       end, v)
  end.

(** [body] is the form's token, when the form was read. *)
Definition revoke_route (v : Srv) (body : result string (option string)) (joined : result string ()) (at_ : Z) : Response * Srv :=
  match body with
  | Ok (Some bearer) =>
      let '(out, v) := blocking v joined (λ s, revoke s bearer at_) in
      (match out with
       | Ok (Ok _) => cors (status_response OK)
       | Ok (Err error) => failed error
       | Err response => response
       end, v)
  | _ => (json BAD_REQUEST (BodyError "invalid_request" "token is required."), v)
  end.
End routes.

(** ** What a page shows *)

(** The characters that open or close a tag or a quoted attribute. *)
Definition markup_char (c : ascii) : bool :=
  bool_decide (c ∈ ["<"; ">"; "'"; Ascii.ascii_of_nat 34]%char).
Fixpoint markup (s : string) : list ascii :=
  match s with "" => [] | String c s => (if markup_char c then [c] else []) ++ markup s end.

Lemma markup_app a b : markup (a +:+ b) = markup a ++ markup b.
Proof. induction a as [|c a IH]; [done|]. rewrite append_cons. cbn [markup]. by rewrite IH, app_assoc. Qed.
Lemma markup_escape text : markup (escape text) = [].
Proof.
  induction text as [|c text IH]; [done|]. cbn [escape]. rewrite markup_app, IH, app_nil_r.
  by destruct c as [[] [] [] [] [] [] [] []].
Qed.

(** The named and numbered references that [escape] writes, read as a browser does. *)
Definition entities : list (string * ascii) :=
  [("&amp;", "&"%char); ("&lt;", "<"%char); ("&gt;", ">"%char); ("&quot;", Ascii.ascii_of_nat 34); ("&#39;", "'"%char)].
Fixpoint unescape (skip : nat) (s : string) : string :=
  match s with
  | "" => ""
  | String c rest =>
      match skip with
      | S skip => unescape skip rest
      | 0 =>
          match List.find (λ e, starts_with e.1 s) entities with
          | Some (e, d) => String d (unescape (String.length e - 1) rest)
          | None => String c (unescape 0 rest)
          end
      end
  end.
Lemma unescape_entity e d rest : (e, d) ∈ entities → unescape 0 (e +:+ rest) = String d (unescape 0 rest).
Proof.
  intros Hin. unfold entities in Hin. repeat (apply elem_of_cons in Hin as [[= -> ->]|Hin]; [reflexivity|]).
  by apply elem_of_nil in Hin.
Qed.
Lemma entity_none c s : c ≠ "&"%char → List.find (λ e, starts_with e.1 (String c s)) entities = None.
Proof.
  intros Hc. assert (Hno : ∀ e, starts_with (String "&" e) (String c s) = false).
  { intros e. apply bool_decide_eq_false. intros [r Hr]. cbn in Hr. by rewrite decide_False in Hr by congruence. }
  unfold entities. cbn [List.find fst]. by rewrite !Hno.
Qed.
Lemma unescape_escape text : unescape 0 (escape text) = text.
Proof.
  induction text as [|c text IH]; [done|]. cbn [escape]. unfold escape_char.
  do 5 (case_decide; [rewrite (unescape_entity _ c); [by rewrite IH|subst c; apply list_elem_of_In; vm_compute; tauto]|]).
  change (String c "" +:+ escape text) with (String c (escape text)). cbn [unescape]. by rewrite entity_none, IH.
Qed.

(** The tags of a page are those of its template and of its lede. *)
Lemma page_markup issuer title lede issuer' title' lede' :
  markup lede = markup lede' → markup (page issuer title lede None) = markup (page issuer' title' lede' None).
Proof. intros Hl. unfold page. rewrite !markup_app, !markup_escape, Hl. reflexivity. Qed.
Lemma page_markup_waiting issuer title lede client ask issuer' title' lede' client' ask' :
  markup lede = markup lede' →
  markup (page issuer title lede (Some (client, ask))) = markup (page issuer' title' lede' (Some (client', ask'))).
Proof. intros Hl. unfold page. rewrite !markup_app, !markup_escape, Hl. reflexivity. Qed.

(** A page of each kind, with nothing filled in. *)
Definition blank_note : string := page "" "" "" None.
Definition blank_waiting : string :=
  page "" "" "<strong></strong><strong></strong><strong></strong>" (Some ("", "")).

Lemma waiting_markup to_lowercase issuer ask : markup (waiting_html to_lowercase issuer ask) = markup blank_waiting.
Proof. apply page_markup_waiting. rewrite !markup_app, !markup_escape. reflexivity. Qed.

Section authorize_pages.
Context `{Crypto, Base64Url, Percent, Json, !JsonWire OAuthBody} {S : Type} `{!OStore S}.
Context (to_lowercase : string → string) (redirect_to : string → Response).

Lemma authorize_refusal_plain (s : S) request issuer consent id now status message s' :
  authorize s request issuer consent id now = (Ok (Err (RefusalPage status message)), s') → markup message = [].
Proof.
  unfold authorize. destruct (trimmed (ar_client_id request)); [|by intros [= _ <- _]].
  destruct (get_client s _) as [[client|]|]; [|by intros [= _ <- _]|done].
  destruct (trimmed (ar_redirect_uri request)); [|by intros [= _ <- _]]. case_decide; [by intros [= _ <- _]|].
  destruct (authorize_checks request) as [[]|[]]; [|done]. destruct (put_ask s _) as [[[]|] st1]; [|done]. cbn [try_store].
  by destruct consent.
Qed.

(** Nothing a client sends can add markup to a page. Whatever the client's
    name, its redirect, the scope, the request or the node's address say, what
    the authorize route answers is a JSON body, a redirect, or a page whose tag
    and quote characters are exactly those of the blank waiting page or of the
    blank notice; and the texts put into a page are escaped without loss, so a
    browser shows what was sent. *)
Lemma authorize_page_markup (v : @Server S) issuer headers request consent joined id now response audit v' text :
  authorize_route to_lowercase redirect_to v issuer headers request consent joined id now = (response, audit, v') →
  ((∃ html, resp_body response = payload_bytes html ∧
      (markup html = markup blank_waiting ∨ markup html = markup blank_note)) ∨
   (∃ status body, response = json status body) ∨ (∃ url, response = redirect_to url)) ∧
  markup (escape text) = [] ∧ unescape 0 (escape text) = text.
Proof.
  intros Hroute. split; [|split; [apply markup_escape|apply unescape_escape]]. revert Hroute.
  unfold authorize_route, address. destruct (match _ <$> issuer with Some _ => _ | None => _ end) as [i|]; cbn [ok_or];
    [|intros [= <- _ _]; right; left; by eexists _, _].
  destruct (may_ask v _ now) as [[] v1]; cbn [negb]; [|intros [= <- _ _]; left; eexists; split; [reflexivity|right; by apply page_markup]].
  unfold blocking. destruct joined; [|intros [= <- _ _]; right; left; by eexists _, _].
  destruct (authorize _ _ _ _ _ _) as [[[ask|[status message|url]]|error] s1] eqn:Ha; intros [= <- _ _].
  - destruct (asks_for_json headers); [right; left; by eexists _, _|]. left. eexists. split; [reflexivity|].
    left. apply waiting_markup.
  - left. eexists. split; [reflexivity|]. right. apply page_markup. by eapply authorize_refusal_plain.
  - right; right. by eexists.
  - right; left. by eexists _, _.
Qed.
End authorize_pages.

(** ** The routes drive the server *)

Section route_runs.
Context `{Crypto, Base64Url, Percent, Json, !JsonWire OAuthBody} {S : Type} `{!OStore S}.
Context (to_lowercase debug_text : string → string) (redirect_to : string → Response).
Notation Srv := (@Server S).

(** A request to one of the routes, with what the framework, the person and the
    random source answer. *)
Inductive RouteRequest : Type :=
  | RouteRegister (headers : list (string * string)) (body : result string Registration) (joined : result string ()) (id : string)
  | RouteAuthorize (issuer : option string) (headers : list (string * string)) (request : AuthorizeRequest)
      (consent : result OAuthError ()) (joined : result string ()) (id : string)
  | RouteAsk (id : string) (answer : result OAuthError Answer) (joined : result string ()) (code : string)
  | RouteToken (body : result string TokenRequest) (joined : result string ()) (secret id : string)
  | RouteRevoke (body : result string (option string)) (joined : result string ()).
Definition route (v : Srv) (now : Z) (r : RouteRequest) : Response * Srv :=
  match r with
  | RouteRegister headers body joined id =>
      let '(response, _, v) := register_route to_lowercase debug_text v headers body joined id now in (response, v)
  | RouteAuthorize issuer headers request consent joined id =>
      let '(response, _, v) := authorize_route to_lowercase redirect_to v issuer headers request consent joined id now in (response, v)
  | RouteAsk id answer joined code => ask_route v id answer joined code now
  | RouteToken body joined secret id => token_route v body joined secret id now
  | RouteRevoke body joined => revoke_route v body joined now
  end.
(** A request at a time, with what it was answered. *)
Record Exchange : Type := mk_exchange { ex_now : Z; ex_request : RouteRequest; ex_response : Response }.
(** The exchanges of a run of the routes, the latest first, and the server after it. *)
Fixpoint route_run (v : Srv) (log : list Exchange) (rs : list (Z * RouteRequest)) : list Exchange * Srv :=
  match rs with
  | [] => (log, v)
  | (now, r) :: rs => let '(response, v) := route v now r in route_run v (mk_exchange now r response :: log) rs
  end.

(** What a run of the routes did for a client, an ask and a code, each before the next. *)
Definition client_registered (log : list Exchange) (c : Client) : Prop :=
  ∃ now headers registration,
    mk_exchange now (RouteRegister headers (Ok registration) (Ok ()) (cl_id c)) (json CREATED (BodyRegistered (Registered_from c))) ∈ log.
Definition ask_opened (log : list Exchange) (a : Ask) : Prop :=
  ∃ log1 log2 now issuer i headers request consent response client,
    log = log1 ++ mk_exchange now (RouteAuthorize issuer headers request consent (Ok ()) (ak_id a)) response :: log2 ∧
    address issuer = Ok i ∧ client_registered log2 client ∧ opens_ask request i (ak_id a) now client (forget_code a) ∧
    redirect_uri_is_allowed (ak_redirect_uri a) = true.
Definition ask_approved (log : list Exchange) (a : Ask) : Prop :=
  ∃ log1 log2 now code response,
    log = log1 ++ mk_exchange now (RouteAsk (ak_id a) (Ok Approved) (Ok ()) code) response :: log2 ∧
    ask_opened log2 a ∧ ak_code a = Some code ∧ ak_code_issued_at a = Some now.
(** The exchange revoked the bearer. *)
Definition revokes (bearer : string) (x : Exchange) : Prop :=
  ∃ now b joined response, x = mk_exchange now (RouteRevoke (Ok (Some b)) joined) response ∧
    trim b = trim bearer ∧ resp_status response = OK.
Definition route_secret (x : Exchange) : option string :=
  match ex_request x with RouteToken _ _ secret _ => Some (hash_token secret) | _ => None end.

(** The server's event behind an exchange. *)
Inductive answered : Exchange → Event → Prop :=
  | an_register now headers registration id response out :
      (∀ c, out = Ok (Ok c) → response = json CREATED (BodyRegistered (Registered_from c))) →
      answered (mk_exchange now (RouteRegister headers (Ok registration) (Ok ()) id) response)
        (mk_event now (CallRegister registration id) (OutRegister out))
  | an_authorize now issuer i headers request consent id response out :
      address issuer = Ok i →
      answered (mk_exchange now (RouteAuthorize issuer headers request consent (Ok ()) id) response)
        (mk_event now (CallAuthorize request i consent id) (OutAuthorize out))
  | an_ask now id answer code response out :
      answered (mk_exchange now (RouteAsk id answer (Ok ()) code) response)
        (mk_event now (CallProgress id answer code) (OutProgress out))
  | an_token now request secret id response out :
      (∀ issued, out = Ok (Ok issued) → response = json OK (BodyIssued issued) ∧ is_access_token issued = secret) →
      answered (mk_exchange now (RouteToken (Ok request) (Ok ()) secret id) response)
        (mk_event now (CallToken request secret id) (OutToken out))
  | an_revoke now bearer response out :
      (resp_status response = OK → out = Ok ()) →
      answered (mk_exchange now (RouteRevoke (Ok (Some bearer)) (Ok ())) response)
        (mk_event now (CallRevoke bearer) (OutRevoke out)).
(** A log of the routes over a history of the server: the exchanges without an event were answered with an error. *)
Inductive logged : list Exchange → list Event → Prop :=
  | logged_nil : logged [] []
  | logged_refused x log h : (400 ≤ resp_status (ex_response x))%Z → logged log h → logged (x :: log) h
  | logged_answered x e log h : answered x e → logged log h → logged (x :: log) (e :: h).

Lemma logged_at log h1 e h2 : logged log (h1 ++ e :: h2) →
  ∃ log1 x log2, log = log1 ++ x :: log2 ∧ answered x e ∧ logged log1 h1 ∧ logged log2 h2.
Proof.
  intros Hl. remember (h1 ++ e :: h2) as h eqn:Hh. revert h1 Hh.
  induction Hl as [|x log h Hx Hl IH|x e' log h Hx Hl IH]; intros h1 Hh.
  - by destruct h1.
  - destruct (IH h1 Hh) as (log1 & y & log2 & -> & Hy & Hl1 & Hl2). exists (x :: log1), y, log2.
    split_and!; [done|done|by constructor|done].
  - destruct h1 as [|e1 h1]; injection Hh as -> ->; [exists [], x, log; split_and!; [done|done|constructor|done]|].
    destruct (IH h1 eq_refl) as (log1 & y & log2 & -> & Hy & Hl1 & Hl2). exists (x :: log1), y, log2.
    split_and!; [done|done|by constructor|done].
Qed.
Lemma logged_exchange log h x : logged log h → x ∈ log → (resp_status (ex_response x) < 400)%Z →
  ∃ h1 e h2, h = h1 ++ e :: h2 ∧ answered x e.
Proof.
  intros Hl Hin Hlt. induction Hl as [|y log h Hy Hl IH|y e log h Hy Hl IH]; [by apply elem_of_nil in Hin|..];
    apply elem_of_cons in Hin as [->|Hin].
  - lia.
  - by apply IH.
  - by exists [], e, h.
  - destruct (IH Hin) as (h1 & e' & h2 & -> & He). by exists (e :: h1), e', h2.
Qed.
Lemma logged_secrets log h : logged log h → draws drawn_secret h `sublist_of` omap route_secret log.
Proof.
  unfold draws. induction 1 as [|x log h Hx Hl IH|x e log h Hx Hl IH]; [done|..].
  - cbn. destruct (route_secret x); [by apply sublist_cons|done].
  - destruct Hx; cbn; try done. by apply sublist_skip.
Qed.

Lemma logged_registered log h c : logged log h → was_registered h c → client_registered log c.
Proof.
  intros Hl (now & registration & Hin). apply list_elem_of_split in Hin as (h1 & h2 & ->).
  apply logged_at in Hl as (log1 & x & log2 & -> & Hx & _). inversion Hx as [? headers ? ? response ? Hr| | | |]; subst.
  rewrite (Hr _ eq_refl). exists now, headers, registration. apply elem_of_app. right. by left.
Qed.
Lemma logged_opened log h a : logged log h → was_opened h a → ask_opened log a.
Proof.
  intros Hl (h1 & h2 & now & request & i & consent & out & client & -> & Hc & Ho & Hu).
  apply logged_at in Hl as (log1 & x & log2 & -> & Hx & _ & Hl). inversion Hx as [|? issuer ? headers ? ? ? response ? Hi| | |]; subst.
  eexists log1, log2, now, issuer, i, headers, request, consent, response, client.
  split_and!; [done|done|by eapply logged_registered|done|done].
Qed.
Lemma logged_approved log h a : logged log h → was_approved h a → ask_approved log a.
Proof.
  intros Hl (h1 & h2 & now & code & out & -> & Ho & Hc & Hn).
  apply logged_at in Hl as (log1 & x & log2 & -> & Hx & _ & Hl). inversion Hx as [| |? ? ? ? response| |]; subst.
  exists log1, log2, now, code, response. split_and!; [done|by eapply logged_opened|done|done].
Qed.

Lemma may_register_store (v : Srv) source now : sv_store (may_register v source now).2 = sv_store v.
Proof. unfold may_register. by destruct (limiter_allow _ _ _). Qed.
Lemma may_ask_store (v : Srv) source now : sv_store (may_ask v source now).2 = sv_store v.
Proof. unfold may_ask. by destruct (limiter_allow _ _ _). Qed.

Lemma address_err issuer r :
  address issuer = Err r → r = json SERVICE_UNAVAILABLE (BodyError "server_error" "This node has no address yet.").
Proof. unfold address. destruct (match trim_end_char "/" <$> issuer with Some _ => _ | None => _ end); cbn; congruence. Qed.

Context (rep : S → OState) `{!OStoreOk S rep}.

Lemma token_secret (s : S) request secret id now issued s' :
  token s request secret id now = (Ok (Ok issued), s') → is_access_token issued = secret.
Proof.
  intros Ht%(token_effect rep). inversion Ht as [? ? ? Hq| | | |? ? ? ? ? ? ? ? ? ? ? Hq| | | | |]; subst; [by destruct Hq..|done].
Qed.

(** What a request does: it is refused and the store is as it was, or it runs the one call it stands for. *)
Lemma route_step v now r response v' : route v now r = (response, v') →
  (400 ≤ resp_status response)%Z ∧ sv_store v' = sv_store v ∨
  ∃ e, ostep (sv_store v) now (ev_call e) = (ev_out e, sv_store v') ∧ ev_now e = now ∧ answered (mk_exchange now r response) e.
Proof.
  destruct r as [headers body joined id|issuer headers request consent joined id|id answer joined code|body joined secret id|body joined]; cbn [route].
  - unfold register_route. pose proof (may_register_store v (source_of headers) now) as Hst.
    destruct (may_register v _ now) as [[] v1]; cbn [negb]; [|by intros [= <- <-]; left].
    destruct body as [registration|]; [|by intros [= <- <-]; left]. unfold blocking.
    destruct joined as [[]|]; [|by intros [= <- <-]; left]. cbn in Hst |- *. rewrite <-Hst. destruct (register _ _ _ _) as [out s1] eqn:Hr.
    intros Heq. right. exists (mk_event now (CallRegister registration id) (OutRegister out)). cbn. rewrite Hr.
    destruct out as [[]|]; injection Heq as <- <-; (split_and!; [done|done|constructor; intros; by simplify_eq]).
  - unfold authorize_route. destruct (address issuer) as [i|r] eqn:Hi;
      [|intros [= <- <-]; left; split; [by rewrite (address_err _ _ Hi)|done]].
    pose proof (may_ask_store v (source_of headers) now) as Hst.
    destruct (may_ask v _ now) as [[] v1]; cbn [negb]; [|by intros [= <- <-]; left]. unfold blocking.
    destruct joined as [[]|]; [|by intros [= <- <-]; left]. cbn in Hst |- *. rewrite <-Hst. destruct (authorize _ _ _ _ _ _) as [out s1] eqn:Hr.
    intros [= _ <-]. right. exists (mk_event now (CallAuthorize request i consent id) (OutAuthorize out)). cbn. rewrite Hr. by repeat constructor.
  - unfold ask_route, blocking. destruct joined as [[]|]; [|by intros [= <- <-]; left]. destruct (progress _ _ _ _ _) as [out s1] eqn:Hr.
    intros [= _ <-]. right. exists (mk_event now (CallProgress id answer code) (OutProgress out)). cbn. rewrite Hr. by repeat constructor.
  - unfold token_route, blocking. destruct body as [request|]; [|by intros [= <- <-]; left].
    destruct joined as [[]|]; [|by intros [= <- <-]; left]. destruct (token _ _ _ _ _) as [out s1] eqn:Hr.
    intros [= <- <-]. right. exists (mk_event now (CallToken request secret id) (OutToken out)). cbn. rewrite Hr.
    split_and!; [done|done|]. constructor. intros issued ->. split; [done|by eapply token_secret].
  - unfold revoke_route, blocking. destruct body as [[bearer|]|]; [|by intros [= <- <-]; left..].
    destruct joined as [[]|]; [|by intros [= <- <-]; left]. destruct (revoke _ _ _) as [out s1] eqn:Hr.
    intros [= <- <-]. right. exists (mk_event now (CallRevoke bearer) (OutRevoke out)). cbn. rewrite Hr.
    split_and!; [done|done|]. constructor. by destruct out as [[]|].
Qed.

(** A run of the routes is a run of the server over the calls that were let through. *)
Lemma route_run_reach rs v log h log' v' : reach h (rep (sv_store v)) → logged log h → route_run v log rs = (log', v') →
  ∃ h', reach h' (rep (sv_store v')) ∧ logged log' h'.
Proof.
  revert v log h. induction rs as [|[now r] rs IH]; intros v log h Hr Hl; cbn [route_run]; [intros [= <- <-]; by exists h|].
  destruct (route v now r) as [response v1] eqn:Hroute. apply route_step in Hroute as [[Hst Hs]|([now' call out] & Hs & <- & Ha)].
  - apply (IH _ _ h); [by rewrite Hs|by constructor].
  - eapply IH; [|by constructor]. eapply reach_step; [exact Hr|]. exact (ostep_effect rep _ _ _ _ _ Hs).
Qed.
Lemma revoked_dead h1 e h2 st bearer x :
  reach (h1 ++ e :: h2) st → NoDup (draws drawn_secret (h1 ++ e :: h2)) → hash_token (trim bearer) ∈ draws drawn_secret h2 →
  answered x e → revokes bearer x → dead (hash_token (trim bearer)) st.
Proof.
  intros Hr Hnd Hin Hx (now & b & joined & response & -> & Hb & Hok). rewrite <-Hb in Hin |- *. inversion Hx as [| | | |? ? ? out Ho]; subst.
  specialize (Ho Hok). subst out. pose proof (draws_tail _ _ _ (draws_suffix _ _ _ Hnd)) as Hnd2.
  eapply (dead_kept _ h1 _ _ Hr Hnd); [|intros st0 Hr0; by eapply revoke_kills].
  apply (draws_app drawn_secret [mk_event now (CallRevoke b) (OutRevoke (Ok ()))] h2). exact Hin.
Qed.

(** C39: the routes let in whom the person let in. On a server whose store keeps
    its contract and starts empty, after any requests to the register, authorize,
    ask, token and revoke routes, whatever they carry and however the limiters, the
    extractors, the thread pool and the person answer: a bearer is admitted only if
    the token route had answered 200 with a bearer of its hash, to a request whose code
    an earlier poll of the ask route drew when the person's answer was [Approved],
    for an ask that an earlier authorize request opened for a client the register
    route had answered 201, at a redirect of that registration; the verifier, client
    and redirect passed the ask's checks; the token is unrevoked, unexpired and of
    the ask's client and scope.  Where the secrets drawn have distinct hashes, no
    revoke request for the bearer was answered 200 since. *)
Theorem oauth_routes_consented rs v log v' bearer now t s' :
  rep (sv_store v) = os_empty → route_run v [] rs = (log, v') →
  admit_bearer (sv_store v') bearer now = (Ok (Some t), s') →
  tk_revoked_at t = None ∧ (now < tk_expires_at t)%Z ∧
  ∃ log1 log2 at_ request secret issued a code verifier,
    log = log1 ++ mk_exchange at_ (RouteToken (Ok request) (Ok ()) secret (tk_id t)) (json OK (BodyIssued issued)) :: log2 ∧
    is_access_token issued = secret ∧ hash_token secret = hash_token (trim bearer) ∧
    ask_approved log2 a ∧ trimmed (tr_code request) = Some code ∧ ak_code a = Some code ∧
    trimmed (tr_code_verifier request) = Some verifier ∧ token_checks request verifier a at_ = Ok () ∧
    tk_client_id t = ak_client_id a ∧ tk_scope t = ak_scope a ∧
    (NoDup (omap route_secret log) → Forall (λ x, ¬ revokes bearer x) log1).
Proof.
  intros Hs Hrun Had. eapply route_run_reach in Hrun as (h & Hr & Hl); [|rewrite Hs; constructor|constructor].
  apply (admit_effect rep) in Had. inversion Had as [? ? ? Hq| | | | | | | | |? t0 t' ? ? tid Ht Hh Hlive Ht' _]; subst; [by destruct Hq|].
  unfold is_live_at, is_live in Hlive. apply andb_true_iff in Hlive as [Hrv%bool_decide_eq_true Hex%bool_decide_eq_true].
  pose proof (so_token _ _ (reach_ok _ _ Hr) _ _ Ht) as [_ Hg].
  assert (tk_revoked_at t = None ∧ (now < tk_expires_at t)%Z ∧ was_granted h t ∧ tk_hash t = hash_token (trim bearer))
    as (Hrv' & Hex' & (h1 & h2 & at_ & request & secret & issued & a & code & verifier & -> & Hap & Hg') & Hh').
  { destruct Ht' as [->| ->]; [done|]. split_and!; [done|done|by eapply was_granted_same, Hg|done]. }
  split_and!; [done..|]. destruct Hg' as (Hc & Hac & Hver & Hck & Hhs & Hcl & Hsc & _).
  apply logged_at in Hl as Hat. destruct Hat as (log1 & x & log2 & -> & Hx & Hl1 & Hl2).
  inversion Hx as [| | |? ? ? ? response ? Ho|]; subst. destruct (Ho _ eq_refl) as [-> Hsec].
  exists log1, log2, at_, request, secret, issued, a, code, verifier.
  split_and!; [done|done|congruence|by eapply logged_approved|done..|]. intros Hnd. apply Forall_forall. intros x Hin Hrx.
  assert (Hlt : (resp_status (ex_response x) < 400)%Z) by (destruct Hrx as (? & ? & ? & ? & -> & _ & Hok); cbn; by rewrite Hok).
  destruct (logged_exchange _ _ _ Hl1 Hin Hlt) as (g1 & e & g2 & -> & He). rewrite <-app_assoc in Hr, Hl.
  eapply (revoked_dead g1 e (g2 ++ _) _ bearer x Hr); [| |done|done|exact Ht|exact Hh|exact Hrv].
  - by eapply sublist_NoDup, logged_secrets.
  - apply draws_app. unfold draws. cbn. rewrite <-Hhs, Hh'. by left.
Qed.
End route_runs.
