(* ===== verification/Policy.v ===== *)
(** * Transport confidentiality policy ([src/net/policy.rs])

    Which peer URLs the mesh may talk to. *)

From S2P Require Import Prelude Identity Text.

Definition MESH_PEERS_ENV : string := "PROXY_MESH_PEERS".
Definition MESH_AUDIT_ENV : string := "PROXY_MESH_AUDIT".

(** [filter(|s| seen.insert(s))]: the first occurrence of each. *)
Fixpoint first_seen (seen : gset string) (l : list string) : list string :=
  match l with
  | [] => []
  | s :: l => if decide (s ∈ seen) then first_seen seen l else s :: first_seen ({[s]} ∪ seen) l
  end.

Definition normalize_peer (s : string) : string := trim_end_char "/"%char (trim s).
Definition parse_mesh_peers_from (raw : string) : list string :=
  first_seen ∅ (filter (λ s, s ≠ "") (normalize_peer <$> split ","%char raw)).
(** [var] is what [std::env::var(MESH_PEERS_ENV)] answers. *)
Definition parse_mesh_peers (var : option string) : list string :=
  match var with None => [] | Some raw => parse_mesh_peers_from raw end.

Definition is_loopback_host (host : string) : bool :=
  let host := trim_end_char "]"%char (trim_start_char "["%char host) in
  if eq_ignore_ascii_case host "localhost" then true
  else match parse_ip host with Some ip => ip_is_loopback ip | None => false end.

Definition is_cgnat_ip (ip : IpAddr) : bool :=
  match ip with
  | V4 a b _ _ => bool_decide (a = 100)%Z && bool_decide (64 ≤ b < 128)%Z
  | V6 segments =>
      match segments with
      | s0 :: s1 :: s2 :: _ =>
          bool_decide (s0 = 64890)%Z && bool_decide (s1 = 4444)%Z && bool_decide (s2 = 41440)%Z
      | _ => false
      end
  end.

(** [b <= b' ' || b == 0x7f], and the characters refused anywhere. *)
Definition control_char (c : ascii) : bool :=
  bool_decide (char_code c ≤ 32)%Z || bool_decide (char_code c = 127)%Z.
Definition refused_char (c : ascii) : bool :=
  bool_decide (c ∈ ["@"; "?"; "#"; "\"]%char).

(** [port.is_empty() || port.parse::<u16>().is_err()] *)
Definition port_ok (port : string) : bool :=
  negb (bool_decide (port = "")) && bool_decide (is_Some (parse_u16 port)).

Definition authority_host (authority : string) : option string :=
  match strip_prefix "[" authority with
  | Some bracketed =>
      '(ipv6, after) ← split_once "]"%char bracketed;
      if decide (after = "") then (_ ← parse_ipv6 ipv6; Some ipv6)
      else
        port ← strip_prefix ":" after;
        if port_ok port then (_ ← parse_ipv6 ipv6; Some ipv6) else None
  | None =>
      match rsplit_once ":"%char authority with
      | Some (h, port) =>
          if contains_char ":"%char h || negb (port_ok port) then None else Some h
      | None => Some authority
      end
  end.

Definition parse_base_endpoint_host (endpoint : string) : option (string * string) :=
  if negb (all_chars (λ c, negb (control_char c)) endpoint) then None
  else if negb (all_chars (λ c, negb (refused_char c)) endpoint) then None
  else
    '(scheme, rest) ← match strip_prefix "https://" endpoint with
                      | Some rest => Some ("https", rest)
                      | None => rest ← strip_prefix "http://" endpoint; Some ("http", rest)
                      end;
    authority ← match split_once "/"%char rest with
                | None => Some rest
                | Some (auth, "") => Some auth
                | Some _ => None
                end;
    if decide (authority = "") then None else
    host ← authority_host authority;
    if decide (host = "") then None else Some (scheme, host).

Definition endpoint_has_confidential_transport (endpoint : string) : bool :=
  match parse_base_endpoint_host endpoint with
  | None => false
  | Some (scheme, host) =>
      if decide (scheme = "https") then true
      else if decide (scheme ≠ "http") then false
      else if is_loopback_host host then true
      else match parse_ip host with Some ip => is_cgnat_ip ip | None => false end
  end.

(** ** Properties *)

Lemma first_seen_ok seen l :
  NoDup (first_seen seen l) ∧ (∀ s, s ∈ first_seen seen l ↔ s ∈ l ∧ s ∉ seen).
Proof.
  revert seen; induction l as [|x l IH]; intros seen; cbn; [split; [constructor|set_solver]|].
  case_decide as Hx.
  - destruct (IH seen) as [Hnd Hin]. split; [done|]. intros s. rewrite Hin. set_solver.
  - destruct (IH ({[x]} ∪ seen)) as [Hnd Hin]. split.
    + apply NoDup_cons. split; [|done]. rewrite Hin. set_solver.
    + intros s. rewrite elem_of_cons, Hin. destruct (decide (s = x)); set_solver.
Qed.

(** The text of an accepted authority: its host with an optional port, the host
    in brackets when it is an IPv6 address. *)
Definition authority_of (host authority : string) : Prop :=
  ∃ port, (port = "" ∨ ∃ p, port = ":" +:+ p ∧ port_ok p = true) ∧
    (authority = host +:+ port ∧ contains_char ":"%char host = false ∨
     authority = "[" +:+ host +:+ "]" +:+ port ∧ is_Some (parse_ipv6 host)).

Lemma authority_host_ok authority host : authority_host authority = Some host → authority_of host authority.
Proof.
  unfold authority_host. destruct (strip_prefix "[" authority) as [bracketed|] eqn:Hb.
  - apply strip_prefix_some in Hb as ->. intros ([ipv6 after] & [-> _]%split_once_some & Ha)%bind_Some.
    case_decide as Hd.
    + subst. inv_bind Ha. injection Ha as <-. exists "". split; [by left|]. right. split; [done|]. by exists r.
    + inv_bind Ha. apply strip_prefix_some in Hr as ->. destruct (port_ok r) eqn:Hp; [|done].
      inv_bind Ha. injection Ha as <-. exists (":" +:+ r). split; [right; by exists r|]. right. split; [done|]. by exists r0.
  - destruct (rsplit_once _ authority) as [[h port]|] eqn:Hr.
    + case_match eqn:Hc; [done|]. intros [= <-]. apply orb_false_iff in Hc as [Hh Hp%negb_false_iff].
      apply rsplit_once_some in Hr as [-> _]. exists (":" +:+ port). split; [right; by exists port|]. by left.
    + intros [= <-]. exists "". split; [by left|]. left. rewrite append_nil_r. split; [done|by apply rsplit_once_none].
Qed.

(** The transport policy admits only confidential base URLs.  An endpoint
    it accepts is a scheme, an authority and at most one trailing slash, with
    no userinfo, path, query or fragment, no backslash and no control
    character; its authority is a host (in brackets when it is an IPv6 address)
    and an optional 16-bit port; and the scheme is [https], or the host is
    loopback, or the host is an address of the encrypted overlay ranges. *)
Lemma confidential_endpoint_shape (endpoint : string) :
  endpoint_has_confidential_transport endpoint = true →
  ∃ scheme host authority slash,
    endpoint = scheme +:+ "://" +:+ authority +:+ slash ∧ (slash = "" ∨ slash = "/") ∧
    contains_char "/"%char authority = false ∧
    all_chars (λ c, negb (control_char c) && negb (refused_char c)) endpoint = true ∧
    authority_of host authority ∧ host ≠ "" ∧
    (scheme = "https" ∨
     scheme = "http" ∧
       (is_loopback_host host = true ∨ ∃ ip, parse_ip host = Some ip ∧ is_cgnat_ip ip = true)).
Proof.
  unfold endpoint_has_confidential_transport.
  destruct (parse_base_endpoint_host endpoint) as [[scheme host]|] eqn:Hp; [|done]. intros Hpolicy.
  unfold parse_base_endpoint_host in Hp.
  destruct (all_chars (λ c, negb (control_char c)) endpoint) eqn:Hctl; [cbn [negb] in Hp|done].
  destruct (all_chars (λ c, negb (refused_char c)) endpoint) eqn:Href; [cbn [negb] in Hp|done].
  apply bind_Some in Hp as ([scheme' rest] & Hscheme & Hp).
  apply bind_Some in Hp as (authority & Hauth & Hp). destruct (decide (authority = "")); [done|].
  apply bind_Some in Hp as (host' & Hhost & Hp). destruct (decide (host' = "")); [done|]. injection Hp as -> ->.
  assert (Hend : endpoint = scheme +:+ "://" +:+ rest ∧ (scheme = "https" ∨ scheme = "http")).
  { destruct (strip_prefix "https://" endpoint) as [r|] eqn:Hs.
    - apply strip_prefix_some in Hs as ->. injection Hscheme as <- <-. by split; [|left].
    - apply bind_Some in Hscheme as (r & Hr & [= <- <-]). apply strip_prefix_some in Hr as ->. by split; [|right]. }
  assert (Hrest : ∃ slash, rest = authority +:+ slash ∧ (slash = "" ∨ slash = "/") ∧
    contains_char "/"%char authority = false).
  { destruct (split_once "/"%char rest) as [[a tail]|] eqn:Hs.
    - destruct tail; [|done]. injection Hauth as <-. apply split_once_some in Hs as [-> Hc]. exists "/". auto.
    - injection Hauth as <-. apply split_once_none in Hs. exists "". rewrite append_nil_r. auto. }
  destruct Hend as [Hend Hsch], Hrest as (slash & -> & Hslash & Hc).
  exists scheme, host, authority, slash. split_and!; try done.
  - clear -Hctl Href. induction endpoint as [|c s IH]; [done|]. cbn in *.
    apply andb_true_iff in Hctl as [-> Hctl], Href as [-> Href]. cbn. by apply IH.
  - by apply authority_host_ok.
  - destruct Hsch as [->| ->]; [by left|right]. split; [done|]. cbn in Hpolicy.
    destruct (is_loopback_host host); [by left|right]. destruct (parse_ip host) as [ip|]; [by exists ip|done].
Qed.
