(* ===== verification/Sql.v ===== *)
(** * Statements against a database ([src/sqlite/mod.rs])

    The SQLite adapters run statements on a connection.  A computation here is
    a function of the tables and of what the connection does with the coming
    statements: each point where the source maps a driver error may fail with
    the driver's text.  [ORDER BY] is a stable sort by a key, [LIMIT] a prefix,
    and the casts between [u64] and the signed columns are written out. *)

From S2P Require Import Prelude Ordered Words.

Inductive SqliteError : Type :=
  | SqlInvalidArgument (m : string)
  | SqlOther (m : string).
#[export] Instance SqliteError_eq_dec : EqDecision SqliteError.
Proof. solve_decision. Defined.
Definition SqliteError_display (e : SqliteError) : string :=
  match e with SqlInvalidArgument m => m | SqlOther m => m end.

(** The texts of the driver's own errors. *)
Class Rusqlite := {
  conversion_failure : Z → string → string;
  integral_out_of_range : Z → Z → string;
  no_rows : string;
  no_such_index : string → string;
  no_such_column : string → string;
  invalid_column_type : Z → string;
}.

(** ** The statement monad *)

(** What the coming statements answer: [Some e] is the driver's failure. *)
Notation faults := (list (option string)) (only parsing).
Definition sql (S A : Type) : Type := S → faults → result SqliteError A * (S * faults).

#[export] Instance sql_ret S : MRet (sql S) := λ A a s fs, (Ok a, (s, fs)).
#[export] Instance sql_bind S : MBind (sql S) := λ A B k m s fs,
  match m s fs with
  | (Ok a, (s, fs)) => k a s fs
  | (Err e, st) => (Err e, st)
  end.

(** [.map_err(|e| GCError::Other(format!("{context}: {e}")))?] *)
Definition sql_error (context e : string) : SqliteError := SqlOther (context +:+ ": " +:+ e).
Definition sql_try {S} (context : string) : sql S () := λ s fs,
  match fs with
  | [] => (Ok (), (s, []))
  | None :: fs => (Ok (), (s, fs))
  | Some e :: fs => (Err (sql_error context e), (s, fs))
  end.
Definition sql_get {S A} (f : S → A) : sql S A := λ s fs, (Ok (f s), (s, fs)).
Definition sql_mod {S} (f : S → S) : sql S () := λ s fs, (Ok (), (f s, fs)).
Definition sql_lift {S A} (r : result SqliteError A) : sql S A := λ s fs, (r, (s, fs)).

(** A computation on a part of the state. *)
Definition sql_zoom {S T A} (get : T → S) (set : S → T → T) (m : sql S A) : sql T A := λ t fs,
  match m (get t) fs with (r, (s, fs)) => (r, (set s t, fs)) end.

(** [for row in rows { let row = row.map_err(context)?; .. }]: [f] keeps a row,
    skips it, or returns early with an error. *)
Fixpoint sql_rows {S A B} (context : string) (f : A → result SqliteError (option B)) (rows : list A)
    : sql S (list B) :=
  match rows with
  | [] => mret []
  | row :: rows =>
      _ ← sql_try context;
      kept ← sql_lift (f row);
      rest ← sql_rows context f rows;
      mret (match kept with Some b => b :: rest | None => rest end)
  end.

(** A loop whose body runs statements. *)
Fixpoint sql_fold {S A B} (f : B → A → sql S B) (b : B) (l : list A) : sql S B :=
  match l with
  | [] => mret b
  | a :: l => b ← f b a; sql_fold f b l
  end.

Lemma bind_run {S A B} (m : sql S A) (k : A → sql S B) s fs a s1 fs1 :
  m s fs = (Ok a, (s1, fs1)) → (m ≫= k) s fs = k a s1 fs1.
Proof. intros Hm. unfold mbind, sql_bind. by rewrite Hm. Qed.

(** ** Computations that succeed *)

(** A run that succeeds met no failing statement, so it is the run without
    failures. *)
Definition runs {S A} (m : sql S A) (s : S) (a : A) (s' : S) : Prop := m s [] = (Ok a, (s', [])).
Class Quiet {S A} (m : sql S A) : Prop :=
  quiet s fs a s' fs' : m s fs = (Ok a, (s', fs')) → runs m s a s'.

Section quiet.
Context {S : Type}.
Implicit Types s : S.

#[export] Instance ret_quiet {A} (a : A) : Quiet (S := S) (mret a).
Proof. intros s fs b s' fs' Heq. by injection Heq as -> -> ->. Qed.
#[export] Instance try_quiet context : Quiet (S := S) (sql_try context).
Proof. intros s [|[e|] fs] [] s' fs' Heq; by simplify_eq/=. Qed.
#[export] Instance get_quiet {A} (f : S → A) : Quiet (sql_get f).
Proof. intros s fs b s' fs' Heq. by injection Heq as <- -> ->. Qed.
#[export] Instance mod_quiet (f : S → S) : Quiet (sql_mod f).
Proof. intros s fs [] s' fs' Heq. by injection Heq as <- ->. Qed.
#[export] Instance lift_quiet {A} (r : result SqliteError A) : Quiet (S := S) (sql_lift r).
Proof. intros s fs b s' fs' Heq. by injection Heq as -> -> ->. Qed.
#[export] Instance bind_quiet {A B} (m : sql S A) (k : A → sql S B) :
  Quiet m → (∀ a, Quiet (k a)) → Quiet (m ≫= k).
Proof.
  intros Hm Hk s fs b s' fs'. unfold runs. unfold mbind, sql_bind.
  destruct (m s fs) as [[a|e] [s1 fs1]] eqn:H1; [|done]. rewrite (Hm _ _ _ _ _ H1). apply Hk.
Qed.
#[export] Instance rows_quiet {A B} context (f : A → result SqliteError (option B)) rows :
  Quiet (S := S) (sql_rows context f rows).
Proof. induction rows; cbn; apply _. Qed.
#[export] Instance fold_quiet {A B} (f : B → A → sql S B) b l :
  (∀ b a, Quiet (f b a)) → Quiet (sql_fold f b l).
Proof. intros Hf. revert b. induction l; intros b; cbn; apply _. Qed.
#[export] Instance if_quiet {A} (P : Prop) `{!Decision P} (m k : sql S A) :
  Quiet m → Quiet k → Quiet (if decide P then m else k).
Proof. intros ??. by destruct (decide P). Qed.
#[export] Instance ifb_quiet {A} (b : bool) (m k : sql S A) : Quiet m → Quiet k → Quiet (if b then m else k).
Proof. intros ??. by destruct b. Qed.
#[export] Instance option_quiet {A B} (o : option A) (k : A → sql S B) (m : sql S B) :
  (∀ a, Quiet (k a)) → Quiet m → Quiet (match o with Some a => k a | None => m end).
Proof. intros ??. by destruct o. Qed.

Lemma runs_ret {A} (a b : A) s s' : runs (mret a) s b s' ↔ a = b ∧ s = s'.
Proof. split; [by intros [= -> ->]|by intros [-> ->]]. Qed.
Lemma runs_try context u s s' : runs (sql_try context) s u s' ↔ s = s'.
Proof. destruct u. split; [by intros [= ->]|by intros ->]. Qed.
Lemma runs_get {A} (f : S → A) a s s' : runs (sql_get f) s a s' ↔ a = f s ∧ s = s'.
Proof. split; [by intros [= -> ->]|by intros [-> ->]]. Qed.
Lemma runs_mod f u s s' : runs (sql_mod f) s u s' ↔ s' = f s.
Proof. destruct u. split; [by intros [= ->]|by intros ->]. Qed.
Lemma runs_lift {A} (r : result SqliteError A) a s s' : runs (sql_lift r) s a s' ↔ r = Ok a ∧ s = s'.
Proof. split; [by intros [= -> ->]|by intros [-> ->]]. Qed.
Lemma runs_bind {A B} (m : sql S A) (k : A → sql S B) b s s' : Quiet m →
  runs (m ≫= k) s b s' ↔ ∃ a s1, runs m s a s1 ∧ runs (k a) s1 b s'.
Proof.
  intros Hm. unfold runs at 1. unfold mbind, sql_bind. split.
  - destruct (m s []) as [[a|e] [s1 fs1]] eqn:H1; [|done]. pose proof (Hm _ _ _ _ _ H1) as H2.
    unfold runs in H2. rewrite H1 in H2. injection H2 as ->. intros Hk. by exists a, s1.
  - intros (a & s1 & Hm1 & Hk). unfold runs in Hm1. by rewrite Hm1.
Qed.

Lemma runs_then {A B} (m : sql S A) (k : A → sql S B) a s1 b s s' :
  runs m s a s1 → runs (k a) s1 b s' → runs (m ≫= k) s b s'.
Proof. intros Hm Hk. unfold runs. by rewrite (bind_run _ _ _ _ _ _ _ Hm). Qed.

(** Rows that are all kept or skipped, never refused. *)
Lemma runs_rows {A B} context (f : A → option B) rows bs s s' :
  runs (S := S) (sql_rows context (λ row, Ok (f row)) rows) s bs s' ↔ bs = omap f rows ∧ s = s'.
Proof.
  assert (Heq : runs (S := S) (sql_rows context (λ row, Ok (f row)) rows) s (omap f rows) s).
  { unfold runs. induction rows as [|row rows IH]; [done|]. cbn. unfold mbind, sql_bind; cbn.
    rewrite IH. by destruct (f row). }
  unfold runs in *. rewrite Heq. split; [intros Hq; by injection Hq as <- <-|by intros [-> ->]].
Qed.

(** Rows of which a refused one ends the loop. *)
Lemma runs_rows_try {A B} context (f : A → result SqliteError B) rows bs s s' :
  runs (S := S) (sql_rows context (λ row, Some <$> f row) rows) s bs s' ↔ try_map f rows = Ok bs ∧ s = s'.
Proof.
  assert (Heq : sql_rows (S := S) context (λ row, Some <$> f row) rows s [] = (try_map f rows, (s, []))).
  { induction rows as [|row rows IH]; [done|]. cbn. unfold mbind at 1 2 3, sql_bind; cbn.
    destruct (f row) as [b|e]; cbn; [|done]. rewrite IH. by destruct (try_map f rows). }
  unfold runs. rewrite Heq. split; [intros Hq; by injection Hq as -> <-|by intros [-> ->]].
Qed.
End quiet.

Ltac solve_quiet := repeat first [apply _ | progress intros | apply bind_quiet | apply fold_quiet | case_match].

(** Computations that answer whenever no statement fails. *)
Class Total {S A} (m : sql S A) : Prop := total s : ∃ a s', runs m s a s'.
Section total.
Context {S : Type}.
#[export] Instance ret_total {A} (a : A) : Total (S := S) (mret a).
Proof. intros s. by exists a, s. Qed.
#[export] Instance try_total context : Total (S := S) (sql_try context).
Proof. intros s. by exists (), s. Qed.
#[export] Instance get_total {A} (f : S → A) : Total (sql_get f).
Proof. intros s. by exists (f s), s. Qed.
#[export] Instance mod_total (f : S → S) : Total (sql_mod f).
Proof. intros s. by exists (), (f s). Qed.
#[export] Instance bind_total {A B} (m : sql S A) (k : A → sql S B) : Total m → (∀ a, Total (k a)) → Total (m ≫= k).
Proof.
  intros Hm Hk s. destruct (Hm s) as (a & s1 & Hr). destruct (Hk a s1) as (b & s2 & Hk2).
  exists b, s2. unfold runs. by rewrite (bind_run _ _ _ _ _ _ _ Hr).
Qed.
#[export] Instance rows_total {A B} context (f : A → option B) rows : Total (S := S) (sql_rows context (λ row, Ok (f row)) rows).
Proof. intros s. exists (omap f rows), s. by apply runs_rows. Qed.
#[export] Instance fold_total {A B} (f : B → A → sql S B) b l : (∀ b a, Total (f b a)) → Total (sql_fold f b l).
Proof. intros Hf. revert b. induction l; intros b; cbn; apply _. Qed.
#[export] Instance if_total {A} (P : Prop) `{!Decision P} (m k : sql S A) :
  Total m → Total k → Total (if decide P then m else k).
Proof. intros ??. by destruct (decide P). Qed.
#[export] Instance ifb_total {A} (b : bool) (m k : sql S A) : Total m → Total k → Total (if b then m else k).
Proof. intros ??. by destruct b. Qed.
#[export] Instance option_total {A B} (o : option A) (k : A → sql S B) (m : sql S B) :
  (∀ a, Total (k a)) → Total m → Total (match o with Some a => k a | None => m end).
Proof. intros ??. by destruct o. Qed.
End total.

(** Split a successful run into the runs of its statements. *)
Ltac run_step :=
  match goal with
  | H : runs (mbind _ _) _ _ _ |- _ => apply runs_bind in H; [|apply _]; destruct H as (? & ? & ? & H)
  | H : runs (mret _) _ _ _ |- _ => apply runs_ret in H; destruct H
  | H : runs (sql_try _) _ _ _ |- _ => apply runs_try in H
  | H : runs (sql_get _) _ _ _ |- _ => apply runs_get in H; destruct H
  | H : runs (sql_mod _) _ _ _ |- _ => apply runs_mod in H
  | H : runs (sql_lift _) _ _ _ |- _ => apply runs_lift in H; destruct H
  end.
Ltac run_all := repeat (run_step; simplify_eq/=).

(** ** Integers at the column's width *)

Definition i64_max : Z := 2 ^ 63 - 1.
(** [z as i64] and [z as u64]. *)
Definition as_i64 (z : Z) : Z := if decide (z ≤ i64_max)%Z then z else (z - u64_modulus)%Z.
Definition as_u64 (z : Z) : Z := (z mod u64_modulus)%Z.
(** [i64::try_from] of a [u64] or [usize], [u64::try_from] of an [i64]. *)
Definition i64_try (z : Z) : option Z := if decide (z ≤ i64_max)%Z then Some z else None.
Definition u64_try (z : Z) : option Z := if decide (0 ≤ z)%Z then Some z else None.

Lemma as_i64_small z : (z ≤ i64_max)%Z → as_i64 z = z.
Proof. intros Hz. unfold as_i64. by rewrite decide_True. Qed.
Lemma as_u64_i64 z : u64_ok z → as_u64 (as_i64 z) = z.
Proof.
  unfold u64_ok, as_u64, as_i64. intros Hz. case_decide; [by apply Z.mod_small|].
  replace (z - u64_modulus)%Z with (z + (-1) * u64_modulus)%Z by lia. rewrite Z.mod_add by done.
  by apply Z.mod_small.
Qed.
Lemma as_i64_inj a b : u64_ok a → u64_ok b → as_i64 a = as_i64 b → a = b.
Proof. intros Ha Hb Heq. rewrite <-(as_u64_i64 a), <-(as_u64_i64 b) by done. by rewrite Heq. Qed.

(** ** [ORDER BY] and [LIMIT] *)

Section order_by.
Context {A K : Type} `{OrdOk K} (key : A → K).
Implicit Types l : list A.

Definition order_by (l : list A) : list A := sort_by (λ a b, bool_decide (key a ⪯ key b)) l.

(** [ORDER BY key DESC LIMIT 1] and [ORDER BY key ASC LIMIT 1]. *)
Definition newest (l : list A) : option A := last (order_by l).
Definition oldest (l : list A) : option A := head (order_by l).

Lemma order_by_perm l : order_by l ≡ₚ l.
Proof. apply sort_by_perm. Qed.
Lemma order_by_sorted l : StronglySorted (λ a b, key a ⪯ key b) (order_by l).
Proof.
  assert (Hs : StronglySorted (λ a b, bool_decide (key a ⪯ key b) = true) (order_by l)).
  { apply sort_by_sorted.
    - intros x y. rewrite !bool_decide_eq_true. apply ole_total.
    - intros x y z. rewrite !bool_decide_eq_true. by apply transitivity. }
  induction Hs as [|x k Hk IH Hx]; constructor; [done|].
  eapply Forall_impl; [exact Hx|]. intros y. by rewrite bool_decide_eq_true.
Qed.

Lemma key_inj l x y : NoDup (key <$> l) → x ∈ l → y ∈ l → key x = key y → x = y.
Proof.
  intros Hnd (i & Hi)%list_elem_of_lookup (j & Hj)%list_elem_of_lookup Heq.
  assert (i = j) as ->; [|congruence].
  apply (NoDup_lookup _ _ _ (key x) Hnd); rewrite list_lookup_fmap; [by rewrite Hi|by rewrite Hj; cbn; f_equal].
Qed.

(** The sorted arrangement of rows with distinct keys is unique. *)
Lemma order_by_unique l k :
  NoDup (key <$> l) → k ≡ₚ l → StronglySorted (λ a b, key a ⪯ key b) k → order_by l = k.
Proof.
  intros Hnd Hk Hsk. pose proof (order_by_sorted l) as Hsl.
  assert (Hp : order_by l ≡ₚ k) by (by rewrite order_by_perm, Hk).
  assert (Hndk : NoDup (key <$> k)) by (by rewrite Hk). clear Hk Hnd.
  revert k Hp Hsk Hndk. induction Hsl as [|x o Ho IH Hx]; intros k Hp Hsk Hndk.
  { by apply Permutation_nil in Hp. }
  destruct k as [|y k]; [by apply Permutation_sym, Permutation_nil_cons in Hp|].
  apply StronglySorted_inv in Hsk as [Hsk Hy]. rewrite Forall_forall in Hx, Hy.
  assert (x = y) as ->.
  { assert (Hxk : x ∈ y :: k) by (rewrite <-Hp; left). assert (Hyo : y ∈ x :: o) by (rewrite Hp; left).
    apply elem_of_cons in Hxk as [->|Hxk]; [done|]. apply elem_of_cons in Hyo as [->|Hyo]; [done|].
    apply (key_inj (y :: k)); [done|set_solver..|]. apply (anti_symm (@ole K _)); auto. }
  f_equal. apply IH; [by apply Permutation_cons_inv in Hp|done|by inversion Hndk].
Qed.

Lemma newest_none l : newest l = None ↔ l = [].
Proof.
  unfold newest. rewrite last_None. split; [|by intros ->].
  intros Ho. apply Permutation_nil_r. by rewrite <-Ho, order_by_perm.
Qed.
Lemma oldest_none l : oldest l = None ↔ l = [].
Proof.
  unfold oldest. rewrite head_None. split; [|by intros ->].
  intros Ho. apply Permutation_nil_r. by rewrite <-Ho, order_by_perm.
Qed.
Lemma newest_some l r : newest l = Some r → r ∈ l ∧ ∀ x, x ∈ l → key x ⪯ key r.
Proof.
  unfold newest. intros (k & Hk)%last_Some. pose proof (order_by_sorted l) as Hs. pose proof (order_by_perm l) as Hp.
  rewrite Hk in Hs, Hp. split; [rewrite <-Hp; set_solver|]. intros x. rewrite <-Hp, elem_of_app.
  intros [Hx| ->%list_elem_of_singleton]; [|done]. clear -Hs Hx H0.
  induction k as [|y k IH]; [by apply not_elem_of_nil in Hx|]. apply StronglySorted_inv in Hs as [Hs Hy].
  apply elem_of_cons in Hx as [->|Hx]; [|auto]. rewrite Forall_forall in Hy. apply Hy. set_solver.
Qed.
Lemma oldest_some l r : oldest l = Some r → r ∈ l ∧ ∀ x, x ∈ l → key r ⪯ key x.
Proof.
  unfold oldest. intros (k & Hk)%head_Some. pose proof (order_by_sorted l) as Hs. pose proof (order_by_perm l) as Hp.
  rewrite Hk in Hs, Hp. split; [rewrite <-Hp; set_solver|]. intros x. rewrite <-Hp, elem_of_cons.
  intros [->|Hx]; [done|]. apply StronglySorted_inv in Hs as [_ Hy]. rewrite Forall_forall in Hy. auto.
Qed.
Lemma newest_unique l r :
  NoDup (key <$> l) → r ∈ l → (∀ x, x ∈ l → key x ⪯ key r) → newest l = Some r.
Proof.
  intros Hnd Hr Hmax. destruct (newest l) as [r'|] eqn:Hn; [|apply newest_none in Hn as ->; set_solver].
  destruct (newest_some _ _ Hn) as [Hr' Hmax']. f_equal. apply (key_inj l); [done..|].
  apply (anti_symm (@ole K _)); auto.
Qed.
Lemma oldest_unique l r :
  NoDup (key <$> l) → r ∈ l → (∀ x, x ∈ l → key r ⪯ key x) → oldest l = Some r.
Proof.
  intros Hnd Hr Hmin. destruct (oldest l) as [r'|] eqn:Hn; [|apply oldest_none in Hn as ->; set_solver].
  destruct (oldest_some _ _ Hn) as [Hr' Hmin']. f_equal. apply (key_inj l); [done..|].
  apply (anti_symm (@ole K _)); auto.
Qed.
(** The winner of some of the rows that includes the winner of all. *)
Lemma newest_sub l k r :
  NoDup (key <$> l) → newest l = Some r → r ∈ k → (∀ x, x ∈ k → x ∈ l) → newest k = Some r.
Proof.
  intros Hnd [Hr Hmax]%newest_some Hrk Hsub. destruct (newest k) as [r'|] eqn:Hn; [|apply newest_none in Hn as ->; set_solver].
  destruct (newest_some _ _ Hn) as [Hr' Hmax']. f_equal. apply (key_inj l); [done|auto..|].
  apply (anti_symm (@ole K _)); auto.
Qed.
Lemma oldest_sub l k r :
  NoDup (key <$> l) → oldest l = Some r → r ∈ k → (∀ x, x ∈ k → x ∈ l) → oldest k = Some r.
Proof.
  intros Hnd [Hr Hmax]%oldest_some Hrk Hsub. destruct (oldest k) as [r'|] eqn:Hn; [|apply oldest_none in Hn as ->; set_solver].
  destruct (oldest_some _ _ Hn) as [Hr' Hmax']. f_equal. apply (key_inj l); [done|auto..|].
  apply (anti_symm (@ole K _)); auto.
Qed.
(** One more row. *)
Lemma newest_insert l l' r :
  NoDup (key <$> l') → l' ≡ₚ r :: l →
  newest l' = Some (match newest l with
                    | Some w => if decide (key w ≺ key r) then r else w
                    | None => r
                    end).
Proof.
  intros Hnd Hp. destruct (newest l) as [w|] eqn:Hw.
  - apply newest_some in Hw as [Hw Hmax]. case_decide as Hlt.
    + apply newest_unique; [done|rewrite Hp; set_solver|]. intros x. rewrite Hp, elem_of_cons.
      intros [->|Hx]; [done|]. apply olt_ole. eapply ole_olt_trans; [by apply Hmax|done].
    + apply newest_unique; [done|rewrite Hp; set_solver|]. intros x. rewrite Hp, elem_of_cons.
      intros [->|Hx]; [|by apply Hmax]. by apply ole_not_olt.
  - apply newest_none in Hw as ->. apply newest_unique; [done|rewrite Hp; set_solver|].
    intros x. rewrite Hp, list_elem_of_singleton. by intros ->.
Qed.
Lemma oldest_insert l l' r :
  NoDup (key <$> l') → l' ≡ₚ r :: l →
  oldest l' = Some (match oldest l with
                    | Some w => if decide (key r ≺ key w) then r else w
                    | None => r
                    end).
Proof.
  intros Hnd Hp. destruct (oldest l) as [w|] eqn:Hw.
  - apply oldest_some in Hw as [Hw Hmin]. case_decide as Hlt.
    + apply oldest_unique; [done|rewrite Hp; set_solver|]. intros x. rewrite Hp, elem_of_cons.
      intros [->|Hx]; [done|]. apply olt_ole. eapply olt_ole_trans; [done|by apply Hmin].
    + apply oldest_unique; [done|rewrite Hp; set_solver|]. intros x. rewrite Hp, elem_of_cons.
      intros [->|Hx]; [|by apply Hmin]. by apply ole_not_olt.
  - apply oldest_none in Hw as ->. apply oldest_unique; [done|rewrite Hp; set_solver|].
    intros x. rewrite Hp, list_elem_of_singleton. by intros ->.
Qed.
Lemma newest_perm l k : NoDup (key <$> l) → l ≡ₚ k → newest k = newest l.
Proof.
  intros Hnd Hp. destruct (newest l) as [r|] eqn:Hn.
  - apply (newest_sub l); [done..| |]; [apply newest_some in Hn as [? _]; by rewrite <-Hp|]. intros x. by rewrite Hp.
  - apply newest_none in Hn. subst l. apply Permutation_nil in Hp. by subst k.
Qed.
End order_by.

(** [LIMIT n]: a negative limit is none. *)
Definition sql_limit {A} (n : Z) (l : list A) : list A := if decide (n < 0)%Z then l else takeZ n l.
Lemma sql_limit_take {A} n (l : list A) : ∃ k, sql_limit n l = take k l ∧ (n ≠ 0%Z → l ≠ [] → 0 < k).
Proof.
  unfold sql_limit. case_decide.
  - exists (length l). split; [by rewrite firstn_all|]. intros _ Hl. destruct l; cbn; [done|lia].
  - exists (Z.to_nat n). rewrite takeZ_take. split; [done|lia].
Qed.

(** What a page of sorted rows leaves. *)
Lemma order_by_rest {A K} `{OrdOk K} (key : A → K) `{!EqDecision A} n (l : list A) :
  NoDup (key <$> l) →
  order_by key (filter (λ x, x ∉ take n (order_by key l)) l) = drop n (order_by key l).
Proof.
  intros Hnd. assert (Hnd' : NoDup (take n (order_by key l) ++ drop n (order_by key l))).
  { rewrite take_drop. apply (NoDup_fmap_1 key). by rewrite order_by_perm. }
  apply NoDup_app in Hnd' as (_ & Hsep & _).
  assert (Hp : filter (λ x, x ∉ take n (order_by key l)) l ≡ₚ drop n (order_by key l)).
  { pose proof (order_by_perm key l) as Hol. revert Hol Hsep. generalize (order_by key l). intros o Hol Hsep.
    transitivity (filter (λ x, x ∉ take n o) o); [by rewrite Hol|]. 
    replace (filter (λ x, x ∉ take n o) o) with (filter (λ x, x ∉ take n o) (take n o ++ drop n o)) by (by rewrite take_drop).
    rewrite filter_app, filter_none, filter_all; [done| |]; apply Forall_forall; intros x Hx; [|auto].
    intros Hin. by apply (Hsep x). }
  apply order_by_unique; [|done|].
  - rewrite Hp. pose proof Hnd as Hnd2. rewrite <-(order_by_perm key l), <-(take_drop n (order_by key l)), fmap_app in Hnd2.
    by apply NoDup_app in Hnd2 as (_ & _ & ?).
  - pose proof (order_by_sorted key l) as Hs. rewrite <-(take_drop n (order_by key l)) in Hs.
    revert Hs. generalize (take n (order_by key l)), (drop n (order_by key l)). clear.
    intros k r. induction k as [|x k IH]; cbn; [done|]. intros [Hs _]%StronglySorted_inv. auto.
Qed.
