(* ===== verification/Op.v ===== *)
(** * The signed replication envelope ([src/op.rs])

    Store ids, the global order key and its wire form, and the signed,
    content-addressed op: sealing, verification and the envelope codec. *)

From S2P Require Import Prelude Ordered External Toy Identity.

Definition ENVELOPE_VERSION : Z := 1.
Definition SIGNING_CONTEXT : bytes :=
  String.list_byte_of_string "proxy-node-server/op/v1" ++ [Byte.x00].
Definition MAX_STORE_ID_LEN : nat := 64.

(** A Rust [Hlc(pub u64)]. *)
Notation Hlc := Z (only parsing).
Definition HLC_ZERO : Hlc := 0.

(** ** Errors ([OpError] of [src/error.rs]) *)

Inductive OpError `{Postcard} : Type :=
  | OpIdentity (e : IdentityError)
  | Encoding (e : PcError)
  | IdMismatch
  | DeviceMismatch
  | MalleableSignature
  | UnsupportedVersion (v : Z)
  | InvalidStoreId
  | BadLength.

Definition OpError_display `{Postcard} (e : OpError) : string :=
  match e with
  | OpIdentity e => IdentityError_display e
  | Encoding e => "canonical encoding error: " +:+ pc_display e
  | IdMismatch => "op id does not match content"
  | DeviceMismatch => "supplied public key does not derive the op's device id"
  | MalleableSignature => "signature is not in low-S canonical form"
  | UnsupportedVersion v => "unsupported envelope version: " +:+ pretty.pretty v
  | InvalidStoreId => "invalid store id: must be 1..=64 ASCII bytes"
  | BadLength => "malformed envelope field length"
  end.

(** ** Store ids *)

(** [str::is_ascii] *)
Fixpoint is_ascii (s : string) : bool :=
  match s with
  | "" => true
  | String c s => (char_code c <? 128)%Z && is_ascii s
  end.

Definition valid_store_id (s : string) : bool :=
  negb (String.length s =? 0) && negb (MAX_STORE_ID_LEN <? String.length s) && is_ascii s.

(** The field is private and [StoreId::new] is its only constructor: a store
    id is a string together with its validity. *)
Record StoreId : Type := mk_StoreId {
  as_str : string;
  as_str_valid : Is_true (valid_store_id as_str);
}.
Add Printing Constructor StoreId.

Definition StoreId_new `{Postcard} (s : string) : result OpError StoreId :=
  match decide (Is_true (valid_store_id s)) with
  | left H => Ok (mk_StoreId s H)
  | right _ => Err InvalidStoreId
  end.

Lemma StoreId_eq (a b : StoreId) : as_str a = as_str b → a = b.
Proof.
  destruct a as [s p], b as [t q]; cbn. intros <-. f_equal. apply proof_irrel.
Qed.

#[export] Instance StoreId_eq_dec : EqDecision StoreId.
Proof.
  intros a b. destruct (decide (as_str a = as_str b)) as [He|Hne].
  - left. by apply StoreId_eq.
  - right. by intros ->.
Defined.

(** ** Order keys *)

Notation OpId := (vec Init.Byte.byte 32) (only parsing).

Record OrderKey : Type := mk_OrderKey {
  ok_hlc : Hlc;
  ok_device : DeviceId;
  ok_op_id : OpId;
}.

Definition OrderKey_tuple (k : OrderKey) : Z * (DeviceId * OpId) :=
  (ok_hlc k, (ok_device k, ok_op_id k)).

(** [#[derive(PartialOrd, Ord)]]: lexicographic on the fields in order. *)
#[export] Instance OrderKey_ord : Ord OrderKey :=
  λ a b, cmp (OrderKey_tuple a) (OrderKey_tuple b).

Lemma OrderKey_tuple_inj : Inj (=) (=) OrderKey_tuple.
Proof. intros [] [] [=]. by subst. Qed.

#[export] Instance OrderKey_ord_ok : OrdOk OrderKey.
Proof. pose proof OrderKey_tuple_inj. apply (ord_ok_inj OrderKey_tuple). Qed.

#[export] Instance OrderKey_eq_dec : EqDecision OrderKey.
Proof. solve_decision. Defined.

Definition OrderKey_MIN : OrderKey := mk_OrderKey HLC_ZERO (zeros 32) (zeros 32).

Definition to_wire (k : OrderKey) : barr 72 :=
  be_vec 8 (ok_hlc k) +++ (ok_device k +++ ok_op_id k).

Definition from_wire (b : barr 72) : OrderKey :=
  let '(hlc, rest) := Vector.splitat 8 (b : vec _ (8 + 64)) in
  let '(device, op_id) := Vector.splitat 32 (rest : vec _ (32 + 32)) in
  mk_OrderKey (be_val hlc) device op_id.

(** ** Ops *)

Record OpBody : Type := mk_OpBody {
  op_v : Z;
  op_hlc : Hlc;
  op_device : DeviceId;
  op_store : StoreId;
  op_payload : bytes;
}.

Record SignedOp : Type := mk_SignedOp {
  op_body : OpBody;
  op_sig : barr 64;
  op_id : OpId;
}.

#[export] Instance OpBody_eq_dec : EqDecision OpBody.
Proof. solve_decision. Defined.
#[export] Instance SignedOp_eq_dec : EqDecision SignedOp.
Proof. solve_decision. Defined.

Definition order_key (op : SignedOp) : OrderKey :=
  mk_OrderKey (op_hlc (op_body op)) (op_device (op_body op)) (op_id op).

(** The serde mirrors of the body and the envelope. *)
Record BodyRepr : Type := mk_BodyRepr {
  r_v : Z;
  r_hlc : Hlc;
  r_device : barr 32;
  r_store : string;
  r_payload : bytes;
}.

Record EnvelopeRepr : Type := mk_EnvelopeRepr {
  e_body : BodyRepr;
  e_sig : bytes;
  e_id : bytes;
}.

Definition body_repr (b : OpBody) : BodyRepr :=
  mk_BodyRepr (op_v b) (op_hlc b) (op_device b) (as_str (op_store b)) (op_payload b).

Section op.
Context `{Crypto, Postcard, !Wire BodyRepr, !Wire EnvelopeRepr}.

Definition canonical_body (b : OpBody) : result OpError bytes :=
  map_err Encoding (to_allocvec (body_repr b)).

Definition signing_input (canon : bytes) : bytes := SIGNING_CONTEXT ++ canon.

Definition content_id (canon : bytes) : OpId := sha256 canon.

Definition signature_bytes (s : Signature) : barr 64 := sig_to_bytes s.

(** [SignedOp::seal] *)
Definition seal (b : OpBody) (identity : DeviceIdentity) : result OpError SignedOp :=
  let b := mk_OpBody (op_v b) (op_hlc b) (device_id identity) (op_store b) (op_payload b) in
  canon ← canonical_body b;
  let s := identity_sign identity (signing_input canon) in
  let s := default s (normalize_s s) in
  Ok (mk_SignedOp b (signature_bytes s) (content_id canon)).

(** [SignedOp::verify] *)
Definition verify (op : SignedOp) (pubkey : VerifyingKey) : result OpError () :=
  canon ← canonical_body (op_body op);
  if decide (content_id canon ≠ op_id op) then Err IdMismatch
  else if decide (device_id_of_key pubkey ≠ op_device (op_body op)) then Err DeviceMismatch
  else
    s ← ok_or (sig_from_slice (op_sig op)) BadLength;
    if decide (is_Some (normalize_s s)) then Err MalleableSignature
    else map_err OpIdentity (identity_verify pubkey (signing_input canon) s).

(** [SignedOp::verify_with_sec1] *)
Definition verify_with_sec1 (op : SignedOp) (public_key_sec1 : bytes) : result OpError () :=
  if decide (length public_key_sec1 ≠ 33)
  then Err (OpIdentity (InvalidLength 33 (length public_key_sec1)))
  else
    pubkey ← ok_or (vk_from_sec1 public_key_sec1) (OpIdentity InvalidPublicKey);
    verify op pubkey.

(** [SignedOp::to_bytes] *)
Definition op_to_bytes (op : SignedOp) : result OpError bytes :=
  map_err Encoding (to_allocvec (mk_EnvelopeRepr (body_repr (op_body op)) (op_sig op) (op_id op))).

(** [SignedOp::from_bytes] *)
Definition op_from_bytes (buf : bytes) : result OpError SignedOp :=
  repr ← map_err Encoding (from_bytes buf);
  let b := e_body repr in
  if decide (r_v b ≠ ENVELOPE_VERSION) then Err (UnsupportedVersion (r_v b))
  else
    match vec_of_list 64 (e_sig repr), vec_of_list 32 (e_id repr) with
    | Some s, Some i =>
        st ← StoreId_new (r_store b);
        Ok (mk_SignedOp (mk_OpBody (r_v b) (r_hlc b) (r_device b) st (r_payload b)) s i)
    | _, _ => Err BadLength
    end.

(** ** Lemmas *)

Lemma StoreId_new_ok s st : StoreId_new s = Ok st ↔ as_str st = s.
Proof.
  unfold StoreId_new. split.
  - case_match; intros [= <-]. done.
  - intros <-. destruct (decide _) as [Hv|Hv].
    + f_equal. by apply StoreId_eq.
    + destruct Hv. apply as_str_valid.
Qed.

Lemma canonical_body_inj `{!WireOk BodyRepr} b1 b2 canon :
  canonical_body b1 = Ok canon → canonical_body b2 = Ok canon → b1 = b2.
Proof.
  unfold canonical_body. rewrite !map_err_ok. intros H1%wire_roundtrip H2%wire_roundtrip.
  assert (Heq : body_repr b1 = body_repr b2) by congruence.
  destruct b1, b2; unfold body_repr in Heq; cbn in Heq. simplify_eq. f_equal. by apply StoreId_eq.
Qed.

Lemma verify_ok op pubkey :
  verify op pubkey = Ok () ↔
  ∃ canon s,
    canonical_body (op_body op) = Ok canon ∧ op_id op = content_id canon ∧
    op_device (op_body op) = device_id_of_key pubkey ∧
    sig_from_slice (op_sig op) = Some s ∧ normalize_s s = None ∧
    vk_verify pubkey (signing_input canon) s = true.
Proof.
  unfold verify. rewrite bind_ok. split.
  - intros (canon & Hc & Hv). exists canon.
    case_decide as Hid; [done|]. case_decide as Hdev; [done|].
    apply bind_ok in Hv as (s & Hs%ok_or_ok & Hv). exists s.
    case_decide as Hn; [done|]. apply map_err_ok in Hv. unfold identity_verify in Hv.
    destruct (vk_verify _ _ _) eqn:Hsig; [|done].
    apply eq_None_not_Some in Hn. auto 10.
  - intros (canon & s & Hc & Hid & Hdev & Hs & Hn & Hsig). exists canon. split; [done|].
    rewrite decide_False by (intros Hne; by apply Hne). rewrite decide_False by (intros Hne; by apply Hne).
    rewrite Hs; cbn [ok_or mbind result_bind]. rewrite decide_False by (rewrite Hn; by intros [? [=]]).
    unfold identity_verify. by rewrite Hsig.
Qed.

Lemma seal_ok b i op :
  seal b i = Ok op →
  op_body op = mk_OpBody (op_v b) (op_hlc b) (device_id i) (op_store b) (op_payload b) ∧
  ∃ canon, canonical_body (op_body op) = Ok canon ∧ op_id op = content_id canon ∧
    let s := identity_sign i (signing_input canon) in
    op_sig op = signature_bytes (default s (normalize_s s)).
Proof.
  unfold seal. rewrite bind_ok. intros (canon & Hc & [= <-]); cbn. eauto.
Qed.

Lemma to_wire_from_wire b : to_wire (from_wire b) = b.
Proof.
  unfold to_wire, from_wire.
  pose proof (splitat_eta 8 (b : vec _ (8 + 64))) as Hb.
  destruct (Vector.splitat 8 b) as [hlc rest]; cbn [fst snd] in Hb.
  pose proof (splitat_eta 32 (rest : vec _ (32 + 32))) as Hrest.
  destruct (Vector.splitat 32 rest) as [dev oid]; cbn [fst snd] in Hrest.
  cbn [ok_hlc ok_device ok_op_id].
  rewrite be_vec_be_val. by rewrite Hrest.
Qed.

Lemma from_wire_to_wire k : u64_ok (ok_hlc k) → from_wire (to_wire k) = k.
Proof.
  intros Hk. unfold to_wire, from_wire. rewrite splitat_app. rewrite splitat_app.
  rewrite be_val_be_vec_u64 by done. by destruct k.
Qed.

Lemma to_wire_list k :
  vec_to_list (to_wire k) =
  vec_to_list (be_vec 8 (ok_hlc k)) ++ (vec_to_list (ok_device k) ++ vec_to_list (ok_op_id k)).
Proof.
  etrans; [apply (vec_to_list_app (be_vec 8 (ok_hlc k)) (ok_device k +++ ok_op_id k))|].
  f_equal. apply vec_to_list_app.
Qed.

Lemma to_wire_cmp k1 k2 :
  u64_ok (ok_hlc k1) → u64_ok (ok_hlc k2) →
  cmp (vec_to_list (to_wire k1)) (vec_to_list (to_wire k2)) = cmp k1 k2.
Proof.
  intros H1 H2. rewrite !to_wire_list.
  rewrite !list_cmp_app by (by rewrite !length_vec_to_list).
  change (cmp (vec_to_list (be_vec 8 (ok_hlc k1))) (vec_to_list (be_vec 8 (ok_hlc k2))))
    with (cmp (be_vec 8 (ok_hlc k1)) (be_vec 8 (ok_hlc k2))).
  rewrite be_vec_cmp by done. done.
Qed.
Lemma op_to_bytes_inv `{!WireOk EnvelopeRepr} op bs :
  op_to_bytes op = Ok bs →
  op_from_bytes bs =
    if decide (op_v (op_body op) = ENVELOPE_VERSION) then Ok op
    else Err (UnsupportedVersion (op_v (op_body op))).
Proof.
  unfold op_to_bytes, op_from_bytes. rewrite map_err_ok. intros ->%wire_roundtrip.
  cbn [map_err mbind result_bind e_body e_sig e_id body_repr r_v r_hlc r_device r_store r_payload].
  case_decide as Hv; case_decide as Hv'; [done|done| |done].
  rewrite !vec_of_list_to_list.
  rewrite (proj2 (StoreId_new_ok _ (op_store (op_body op))) eq_refl). cbn.
  by destruct op as [[] ? ?].
Qed.

Lemma op_from_bytes_version bs op :
  op_from_bytes bs = Ok op → op_v (op_body op) = ENVELOPE_VERSION.
Proof.
  unfold op_from_bytes. intros (repr & _ & Hop)%bind_ok.
  case_decide as Hv; [done|]. case_match; [|done]. case_match; [|done].
  apply bind_ok in Hop as (st & _ & [= <-]). done.
Qed.

Lemma order_key_wire_device op : ok_device (order_key op) = op_device (op_body op).
Proof. done. Qed.

(** Sealing and verifying fit together. *)
Lemma seal_verifies `{!CryptoOk} (b : OpBody) (sk : SigningKey) (op : SignedOp) :
  seal b (from_signing sk) = Ok op →
  verify op (sk_verifying_key sk) = Ok () ∧
  verify_with_sec1 op (public_key_sec1 (from_signing sk)) = Ok () ∧
  op_device (op_body op) = device_id (from_signing sk) ∧
  op_payload (op_body op) = op_payload b ∧ op_hlc (op_body op) = op_hlc b.
Proof.
  intros Hs. pose proof (seal_ok _ _ _ Hs) as (Hb & canon & Hc & Hid & Hsig).
  assert (Hv : verify op (sk_verifying_key sk) = Ok ()).
  { destruct (sign_low_verifies (from_signing sk) (signing_input canon) (from_signing_wf sk))
      as [Hver Hlow].
    apply verify_ok. eexists canon, _. split_and!; [done|done|by rewrite Hb| |exact Hlow|].
    - rewrite Hsig. apply sig_roundtrip.
    - unfold identity_verify in Hver. by destruct (vk_verify _ _ _). }
  split_and!; [done| |by rewrite Hb..].
  unfold verify_with_sec1. rewrite decide_False by (rewrite length_vec_to_list; lia).
  unfold public_key_sec1, sec1_compressed. by rewrite sec1_roundtrip.
Qed.

(** ** Properties *)

(** A sealed op always verifies: whatever device the caller wrote on the
    body, [seal] stamps the signer's, and the result passes [verify] under the
    signer's key and [verify_with_sec1] under its compressed encoding. *)
Lemma seal_verify `{!CryptoOk} (b : OpBody) (sk : SigningKey) (op : SignedOp) :
  seal b (from_signing sk) = Ok op →
  verify op (sk_verifying_key sk) = Ok () ∧
  verify_with_sec1 op (public_key_sec1 (from_signing sk)) = Ok () ∧
  op_device (op_body op) = device_id (from_signing sk) ∧
  op_payload (op_body op) = op_payload b ∧ op_hlc (op_body op) = op_hlc b.
Proof. apply seal_verifies. Qed.

(** Exactly what [verify] accepts: the id is the digest of the canonical
    body, the key derives the body's device, and the signature parses, is low-S
    and verifies over the domain-separated canonical body. *)
Lemma verify_accepts_iff (op : SignedOp) (pubkey : VerifyingKey) :
  verify op pubkey = Ok () ↔
  ∃ canon s,
    canonical_body (op_body op) = Ok canon ∧ op_id op = content_id canon ∧
    op_device (op_body op) = device_id_of_key pubkey ∧
    sig_from_slice (op_sig op) = Some s ∧ normalize_s s = None ∧
    vk_verify pubkey (SIGNING_CONTEXT ++ canon) s = true.
Proof. apply verify_ok. Qed.

(** Content addressing: two verified ops with the same id carry the same
    body, unless they exhibit two distinct byte strings with one SHA-256 digest. *)
Lemma verified_id_determines_body `{!WireOk BodyRepr} (op1 op2 : SignedOp) k1 k2 :
  verify op1 k1 = Ok () → verify op2 k2 = Ok () → op_id op1 = op_id op2 →
  op_body op1 = op_body op2 ∨
  ∃ x y, x ≠ y ∧ sha256 x = sha256 y.
Proof.
  intros (c1 & s1 & Hc1 & Hi1 & _)%verify_ok (c2 & s2 & Hc2 & Hi2 & _)%verify_ok Hid.
  destruct (decide (c1 = c2)) as [->|Hne].
  - left. by eapply canonical_body_inj.
  - right. exists c1, c2. split; [done|]. unfold content_id in *. congruence.
Qed.

(** The envelope codec: decoding an encoded op of the current version gives
    it back, and an op of any other version is refused with that version. *)
Lemma op_bytes_roundtrip `{!WireOk EnvelopeRepr} (op : SignedOp) (bs : bytes) :
  op_to_bytes op = Ok bs →
  op_from_bytes bs =
    if decide (op_v (op_body op) = ENVELOPE_VERSION) then Ok op
    else Err (UnsupportedVersion (op_v (op_body op))).
Proof. apply op_to_bytes_inv. Qed.

(** The 72-byte wire form of an order key loses nothing and its byte-wise
    order is the order of the keys, so a cursor compares the same on the wire,
    on disk and in memory. *)
Lemma order_key_wire (k1 k2 : OrderKey) :
  u64_ok (ok_hlc k1) → u64_ok (ok_hlc k2) →
  from_wire (to_wire k1) = k1 ∧
  cmp (vec_to_list (to_wire k1)) (vec_to_list (to_wire k2)) = cmp k1 k2.
Proof. intros H1 H2. split; [by apply from_wire_to_wire | by apply to_wire_cmp]. Qed.
End op.

(** ** Witnesses *)

Module OpToy.
Export Toy.

#[export] Instance BodyRepr_codec : Codec BodyRepr :=
  iso_codec (λ r, (r_v r, r_hlc r, r_device r, r_store r, r_payload r))
    (λ '(a, b, c, d, e), mk_BodyRepr a b c d e).
#[export] Instance BodyRepr_codec_ok : CodecOk BodyRepr.
Proof. by apply iso_codec_ok; intros []. Qed.
#[export] Instance EnvelopeRepr_codec : Codec EnvelopeRepr :=
  iso_codec (λ r, (e_body r, e_sig r, e_id r)) (λ '(a, b, c), mk_EnvelopeRepr a b c).
#[export] Instance EnvelopeRepr_codec_ok : CodecOk EnvelopeRepr.
Proof. by apply iso_codec_ok; intros []. Qed.

Definition kv_store : StoreId := mk_StoreId "kv" I.

(** An op of a device's key: HLC and payload. *)
Definition toy_body (hlc : Z) (payload : bytes) : OpBody :=
  mk_OpBody ENVELOPE_VERSION hlc (zeros 32) kv_store payload.
Definition toy_op (sk : SigningKey) (hlc : Z) (payload : bytes) : SignedOp :=
  match seal (toy_body hlc payload) (from_signing sk) with
  | Ok op => op
  | Err _ => mk_SignedOp (toy_body hlc payload) (zeros 64) (zeros 32)
  end.

End OpToy.
