(* ===== verification/RowOp.v ===== *)
(** * Row ops and replication scopes ([src/row_op.rs], [src/scope.rs])

    The payload of a relational row op, its denormalised primary key, the
    identifiers that may reach a statement, and which ops a peer's scope admits. *)

From stdpp Require Import pretty.
From S2P Require Import Prelude Ordered External Toy Identity Op Text.

Definition STORE_ID : string := "proxydb".
Definition ORIGIN_LOCAL : Z := 1.
Definition ORIGIN_REMOTE : Z := 0.
(** The unit separator. *)
Definition PK_SEP : ascii := Ascii.ascii_of_nat 31.

(** ** Scalars and ops *)

(** A [Real] is kept as the bits of its [f64]. *)
Inductive Scalar : Type :=
  | Null
  | Int (v : Z)
  | Real (bits : Z)
  | TextVal (v : string)
  | Blob (v : bytes).
#[export] Instance Scalar_eq_dec : EqDecision Scalar.
Proof. solve_decision. Defined.

Record KeyField : Type := mk_KeyField { kf_col : string; kf_val : Scalar }.
Record Column : Type := mk_Column { c_name : string; c_value : Scalar }.
Inductive Mutation : Type :=
  | Upsert (columns : list Column)
  | Delete.
Record ProxyDbOp : Type := mk_ProxyDbOp {
  ro_table : string;
  ro_key : list KeyField;
  ro_mutation : Mutation;
}.

(** [encode_hex_lower]: the table is the one of [encode_hex]. *)
Definition encode_hex_lower (bs : bytes) : string := encode_hex bs.

Section render.
(** The text [{:?}] prints for an [f64]. *)
Context (f64_debug : Z → string).

(** [Scalar::render] *)
Definition render (s : Scalar) : string :=
  match s with
  | Null => ""
  | Int v => pretty v
  | Real bits => f64_debug bits
  | TextVal v => v
  | Blob v => encode_hex_lower v
  end.

(** The loop of [row_pk] and [row_pk_of]: values joined by the separator. *)
Fixpoint pk_join (vals : list string) : string :=
  match vals with
  | [] => ""
  | [v] => v
  | v :: vals => v +:+ String PK_SEP (pk_join vals)
  end.
Definition row_pk (op : ProxyDbOp) : string := pk_join ((λ f, render (kf_val f)) <$> ro_key op).
Definition row_pk_of (key : list (string * string)) : string := pk_join key.*2.
End render.

(** [is_valid_ident] *)
Definition ident_char (c : ascii) : bool :=
  let n := char_code c in
  bool_decide (48 ≤ n ≤ 57)%Z || bool_decide (65 ≤ n ≤ 90)%Z || bool_decide (97 ≤ n ≤ 122)%Z
  || bool_decide (n = 95)%Z.
Definition is_valid_ident (ident : string) : bool :=
  negb (bool_decide (ident = "")) && all_chars ident_char ident.

Section codec.
Context `{Postcard, !Wire ProxyDbOp}.
Definition encode_bytes (op : ProxyDbOp) : result PcError bytes := to_allocvec op.
Definition decode_bytes (payload : bytes) : result PcError ProxyDbOp := from_bytes payload.
End codec.

(** ** Scopes *)

Definition SCOPE_FULL : string := "full".
Definition TRELLIS_STORE_ID : string := "trellis".

(** The sets are [BTreeSet]s, in ascending order. *)
Inductive MeshScope : Type :=
  | Full
  | Restricted (stores : list string) (tables : option (list string)).
Record RestrictedShape : Type := mk_shape { rsh_stores : list string; rsh_tables : option (list string) }.

Section scope.
Context `{Json, !JsonWire RestrictedShape, Postcard, !Wire ProxyDbOp}.

Definition unknown_store (store : string) : bool :=
  negb (bool_decide (store = STORE_ID)) && negb (bool_decide (store = TRELLIS_STORE_ID)).

(** The checks of [parse_raw] on the decoded shape. *)
Definition check_shape (shape : RestrictedShape) : result string MeshScope :=
  if decide (rsh_stores shape = []) then Err "mesh scope: stores must be non-empty" else
  match List.find unknown_store (rsh_stores shape) with
  | Some store => Err ("mesh scope: unknown store '" +:+ store +:+ "'")
  | None =>
      match rsh_tables shape with
      | None => Ok (Restricted (rsh_stores shape) None)
      | Some tables =>
          if decide (tables = []) then Err "mesh scope: tables must be non-empty when present"
          else if decide (STORE_ID ∉ rsh_stores shape)
          then Err "mesh scope: tables only restrict the 'proxydb' store"
          else
            match List.find (λ t, negb (is_valid_ident t)) tables with
            | Some table => Err ("mesh scope: invalid table name '" +:+ table +:+ "'")
            | None => Ok (Restricted (rsh_stores shape) (Some tables))
            end
      end
  end.

Definition parse_raw (raw : string) : result string MeshScope :=
  if decide (raw = SCOPE_FULL) then Ok Full
  else
    shape ← map_err (λ e, "mesh scope: " +:+ json_display e) (json_from_slice (String.list_byte_of_string raw));
    check_shape shape.
Definition parse_lossy (raw : string) : MeshScope :=
  match parse_raw raw with Ok scope => scope | Err _ => Full end.

Definition admits_op (scope : MeshScope) (op : SignedOp) : result string bool :=
  match scope with
  | Full => Ok true
  | Restricted stores tables =>
      let store := as_str (op_store (op_body op)) in
      if decide (store ∉ stores) then Ok false
      else
        match tables with
        | Some tables =>
            if decide (store = STORE_ID) then
              row ← map_err (λ e, "decode proxydb op: " +:+ pc_display e) (decode_bytes (op_payload (op_body op)));
              Ok (bool_decide (ro_table row ∈ tables))
            else Ok true
        | None => Ok true
        end
  end.
End scope.

(** ** Properties *)

(** Separator-free values. *)
Definition sep_free (s : string) : Prop := contains_char PK_SEP s = false.
#[export] Instance sep_free_dec s : Decision (sep_free s).
Proof. apply _. Defined.

Lemma sep_app_inj s t x y :
  sep_free s → sep_free t → s +:+ String PK_SEP x = t +:+ String PK_SEP y → s = t ∧ x = y.
Proof.
  unfold sep_free. revert t; induction s as [|c s IH]; intros [|d t]; cbn [contains_char];
    rewrite ?orb_false_iff, ?bool_decide_eq_false; intros Hs Ht; rewrite ?append_cons; intros Heq.
  - by injection Heq.
  - injection Heq as Hd _. by destruct Ht.
  - injection Heq as Hc _. by destruct Hs.
  - injection Heq as -> Heq. by destruct (IH t (proj2 Hs) (proj2 Ht) Heq) as [-> ->].
Qed.

Lemma sep_free_app s x : ¬ sep_free (s +:+ String PK_SEP x).
Proof.
  unfold sep_free. rewrite contains_char_app. cbn [contains_char].
  rewrite bool_decide_eq_true_2, orb_true_r by done. done.
Qed.

Lemma pk_join_cons v w vals : pk_join (v :: w :: vals) = v +:+ String PK_SEP (pk_join (w :: vals)).
Proof. done. Qed.

Lemma pk_join_inj vals1 vals2 :
  vals1 ≠ [] → vals2 ≠ [] → Forall sep_free vals1 → Forall sep_free vals2 →
  pk_join vals1 = pk_join vals2 → vals1 = vals2.
Proof.
  revert vals2; induction vals1 as [|v vals1 IH]; intros [|w vals2] H1 H2; try done.
  intros [Hv Hvs]%Forall_cons [Hw Hws]%Forall_cons. destruct vals1 as [|v' vals1], vals2 as [|w' vals2].
  - by intros [= ->].
  - rewrite pk_join_cons. cbn [pk_join]. intros ->. by apply sep_free_app in Hv.
  - rewrite pk_join_cons. cbn [pk_join]. intros <-. by apply sep_free_app in Hw.
  - rewrite !pk_join_cons. intros [-> Heq]%sep_app_inj; [|done..]. f_equal. by apply IH.
Qed.

(** The denormalised primary key determines the row, on text keys.  Two row
    ops with non-empty keys of text values free of the separator have the same
    [row_pk] only if they have the same key values, column by column; and it is
    the key [row_pk_of] computes from the column and value pairs. *)
Lemma row_pk_text_injective f64_debug (k1 k2 : list (string * string)) t1 t2 m1 m2 :
  k1 ≠ [] → k2 ≠ [] → Forall sep_free k1.*2 → Forall sep_free k2.*2 →
  let op k t m := mk_ProxyDbOp t ((λ kv, mk_KeyField kv.1 (TextVal kv.2)) <$> k) m in
  row_pk f64_debug (op k1 t1 m1) = row_pk_of k1 ∧
  (row_pk f64_debug (op k1 t1 m1) = row_pk f64_debug (op k2 t2 m2) ↔ k1.*2 = k2.*2).
Proof.
  intros H1 H2 Hs1 Hs2 op. unfold row_pk, row_pk_of. cbn [ro_key op]. rewrite <-!list_fmap_compose.
  assert (Hf : ∀ k : list (string * string), ((λ f, render f64_debug (kf_val f)) ∘
    (λ kv : string * string, mk_KeyField kv.1 (TextVal kv.2))) <$> k = k.*2) by done.
  rewrite !Hf. split; [done|]. split; [|by intros ->].
  apply pk_join_inj; [by destruct k1|by destruct k2|done|done].
Qed.

(** Outside separator-free text, the denormalised key is ambiguous: an
    integer and its text, a null and an empty text, and a composite key and one
    text value that contains the separator have the same [row_pk], although
    they name different rows. *)
Lemma row_pk_collides f64_debug table m :
  let pk vals := row_pk f64_debug (mk_ProxyDbOp table ((λ v, mk_KeyField "id" v) <$> vals) m) in
  pk [Int 5] = pk [TextVal "5"] ∧ pk [Null] = pk [TextVal ""] ∧
  pk [TextVal "a"; TextVal "b"] = pk [TextVal ("a" +:+ String PK_SEP "b")].
Proof. repeat split; reflexivity. Qed.

Section scope_ok.
Context `{Json, !JsonWire RestrictedShape, Postcard, !Wire ProxyDbOp}.

Lemma check_shape_ok shape stores tables :
  check_shape shape = Ok (Restricted stores tables) →
  stores ≠ [] ∧ Forall (λ s, s = STORE_ID ∨ s = TRELLIS_STORE_ID) stores ∧
  ∀ ts, tables = Some ts → ts ≠ [] ∧ STORE_ID ∈ stores ∧ Forall (λ t, is_valid_ident t = true) ts.
Proof.
  unfold check_shape. case_decide as Hne; [done|].
  destruct (List.find unknown_store _) as [|] eqn:Hf; [done|].
  assert (Hst : Forall (λ s, s = STORE_ID ∨ s = TRELLIS_STORE_ID) (rsh_stores shape)).
  { apply Forall_forall. intros s Hs%list_elem_of_In. apply (find_none _ _ Hf) in Hs. unfold unknown_store in Hs.
    apply andb_false_iff in Hs as [Hs|Hs]; apply negb_false_iff, bool_decide_eq_true in Hs; auto. }
  destruct (rsh_tables shape) as [ts|]; [|by intros [= <- <-]].
  case_decide; [done|]. case_decide as Hin; [done|]. destruct (List.find _ ts) eqn:Ht; [done|].
  intros [= <- <-]. split_and!; [done|done|]. intros ? [= <-]. split_and!; [done|done|].
  apply Forall_forall. intros t Hm%list_elem_of_In. apply (find_none _ _ Ht) in Hm. by apply negb_false_iff in Hm.
Qed.

Lemma parse_raw_ok raw stores tables :
  parse_raw raw = Ok (Restricted stores tables) → ∃ shape, check_shape shape = Ok (Restricted stores tables).
Proof. unfold parse_raw. case_decide; [done|]. intros Hs. inv_bind Hs. by exists r. Qed.

(** A restricted scope confines.  Under a scope that parsed as restricted,
    every op it admits is of one of the two known stores the scope names; and
    when the scope names tables, an admitted row op decodes and writes a table
    the scope names, which is a valid identifier. *)
Lemma restricted_scope_confines raw stores tables op :
  parse_raw raw = Ok (Restricted stores tables) → admits_op (Restricted stores tables) op = Ok true →
  let store := as_str (op_store (op_body op)) in
  store ∈ stores ∧ (store = STORE_ID ∨ store = TRELLIS_STORE_ID) ∧
  ∀ ts, tables = Some ts → store = STORE_ID →
    ∃ row, decode_bytes (op_payload (op_body op)) = Ok row ∧ ro_table row ∈ ts ∧ is_valid_ident (ro_table row) = true.
Proof.
  intros (shape & (_ & Hst & Hts)%check_shape_ok)%parse_raw_ok Ha store. unfold admits_op in Ha. fold store in Ha.
  case_decide as Hin; [done|]. rewrite Forall_forall in Hst. split_and!; [done|by apply Hst|].
  intros ts -> Hs. rewrite decide_True in Ha by done. inv_bind Ha. apply map_err_ok in Hr.
  injection Ha as Ha%bool_decide_eq_true. exists r. split_and!; [done|done|].
  destruct (Hts ts eq_refl) as (_ & _ & Hv). rewrite Forall_forall in Hv. by apply Hv.
Qed.
End scope_ok.
