(* ===== verification/Registry.v ===== *)
(** * The device registry ([src/registry.rs])

    Verifying keys by device id, and the read-only [DeviceBook] interface the
    serving side reads devices through. *)

From S2P Require Import Prelude Ordered External Toy Identity.

Section registry.
Context `{Crypto}.

(** [HashMap<DeviceId, VerifyingKey>] *)
Record DeviceRegistry : Type := mk_registry { keys : gmap DeviceId VerifyingKey }.

Definition registry_new : DeviceRegistry := mk_registry ∅.

Definition insert_key (r : DeviceRegistry) (key : VerifyingKey) : DeviceId * DeviceRegistry :=
  let id := device_id_of_key key in
  (id, mk_registry (<[id := key]> (keys r))).

Definition insert_sec1 (r : DeviceRegistry) (sec1 : barr 33)
    : result IdentityError DeviceId * DeviceRegistry :=
  match vk_from_sec1 sec1 with
  | None => (Err InvalidPublicKey, r)
  | Some key => let '(id, r) := insert_key r key in (Ok id, r)
  end.

Definition key_for (r : DeviceRegistry) (id : DeviceId) : option VerifyingKey := keys r !! id.

(** [HashMap::iter], in some order. *)
Definition registry_entries (r : DeviceRegistry) : list (DeviceId * barr 33) :=
  (λ kv, (kv.1, sec1_compressed kv.2)) <$> map_to_list (keys r).

Definition sec1_keys (r : DeviceRegistry) : list (barr 33) :=
  (λ kv, sec1_compressed kv.2) <$> map_to_list (keys r).

Definition registry_contains (r : DeviceRegistry) (id : DeviceId) : bool :=
  bool_decide (is_Some (keys r !! id)).

Definition registry_remove (r : DeviceRegistry) (id : DeviceId) : DeviceRegistry :=
  mk_registry (delete id (keys r)).

(** ** [DeviceBook] *)

Class DeviceBook (D : Type) := {
  known_devices : D → list (DeviceId * barr 33);
  try_known_devices : D → result string (list (DeviceId * barr 33));
  try_key_for_device : D → DeviceId → result string (option (barr 33));
}.

(** The default methods of the trait. *)
Definition default_try_known_devices {D} (known : D → list (DeviceId * barr 33)) (d : D)
    : result string (list (DeviceId * barr 33)) := Ok (known d).

Fixpoint find_device (id : DeviceId) (l : list (DeviceId * barr 33)) : option (barr 33) :=
  match l with
  | [] => None
  | (known, key) :: l => if decide (known = id) then Some key else find_device id l
  end.

Definition default_try_key_for_device {D}
    (try_known : D → result string (list (DeviceId * barr 33))) (d : D) (id : DeviceId)
    : result string (option (barr 33)) :=
  devices ← try_known d; Ok (find_device id devices).

(** [impl DeviceBook for Arc<Mutex<DeviceRegistry>>] *)
#[export] Instance registry_book : DeviceBook DeviceRegistry := {|
  known_devices := registry_entries;
  try_known_devices := default_try_known_devices registry_entries;
  try_key_for_device := λ r id, Ok (sec1_compressed <$> key_for r id);
|}.

(** ** Invariant: every key is filed under the id it derives *)

Definition registry_wf (r : DeviceRegistry) : Prop :=
  map_Forall (λ id key, id = device_id_of_key key) (keys r).

Lemma registry_new_wf : registry_wf registry_new.
Proof. apply map_Forall_empty. Qed.

Lemma insert_key_wf r key : registry_wf r → registry_wf (insert_key r key).2.
Proof. intros Hr. by apply map_Forall_insert_2. Qed.

Lemma insert_sec1_wf r sec1 : registry_wf r → registry_wf (insert_sec1 r sec1).2.
Proof. intros Hr. unfold insert_sec1. case_match; [by apply insert_key_wf | done]. Qed.

Lemma registry_remove_wf r id : registry_wf r → registry_wf (registry_remove r id).
Proof. apply map_Forall_delete. Qed.

Lemma key_for_wf r id key : registry_wf r → key_for r id = Some key → device_id_of_key key = id.
Proof. intros Hr Hk. symmetry. exact (Hr id key Hk). Qed.

Lemma find_device_entries r id : find_device id (registry_entries r) = sec1_compressed <$> key_for r id.
Proof.
  unfold registry_entries, key_for.
  assert (Hnd := NoDup_fst_map_to_list (keys r)).
  assert (Hin : ∀ k, (id, k) ∈ map_to_list (keys r) ↔ keys r !! id = Some k)
    by (intros; apply elem_of_map_to_list).
  destruct (keys r !! id) as [key|] eqn:Hkey; cbn.
  - assert (Hk : (id, key) ∈ map_to_list (keys r)) by (by apply Hin).
    clear Hin Hkey. induction (map_to_list (keys r)) as [|[i k] l IH]; [set_solver|].
    cbn in Hnd |- *. apply NoDup_cons in Hnd as [Hni Hnd]. case_decide as Hd.
    + subst i. apply elem_of_cons in Hk as [[= ->]|Hk]; [done|].
      destruct Hni. apply list_elem_of_fmap. by exists (id, key).
    + apply IH; [done|]. apply elem_of_cons in Hk as [[= -> ->]|?]; done.
  - clear Hnd. induction (map_to_list (keys r)) as [|[i k] l IH]; [done|]. cbn. case_decide as Hd.
    + subst i. specialize (Hin k). set_solver.
    + apply IH. intros k'. specialize (Hin k'). set_solver.
Qed.
End registry.
