(* ===== verification/Store.v ===== *)
(** * The store interface and the reference key/value store
      ([src/store.rs], [src/kv.rs]) *)

From S2P Require Import Prelude Ordered External Toy Identity Op.

(** Per-op context handed to [Store::apply]. *)
Record OpContext : Type := mk_OpContext {
  ctx_op_id : OpId;
  ctx_order_key : OrderKey;
  ctx_hlc : Hlc;
  ctx_device : DeviceId;
}.

(** [trait Store].  [apply] takes [&mut self]: it answers the state it leaves
    behind also when it fails. *)
Class Store (S : Type) := {
  StoreOp : Type;
  StoreError : Type;
  store_error_display : StoreError → string;
  store_id : S → StoreId;
  store_encode : S → StoreOp → result StoreError bytes;
  store_decode : S → bytes → result StoreError StoreOp;
  store_apply : S → OpContext → StoreOp → result StoreError () * S;
}.
#[export] Hint Mode Store ! : typeclass_instances.
#[global] Arguments StoreOp S {_}.
#[global] Arguments StoreError S {_}.

(** The namespace a store claims does not depend on its contents. *)
Class StoreIdStable (S : Type) `{Store S} : Prop :=
  store_id_apply (s : S) ctx op : store_id (store_apply s ctx op).2 = store_id s.

(** ** [KvStore] *)

Inductive KvOp : Type :=
  | Put (key : string) (value : bytes)
  | Delete (key : string).

Inductive KvError `{Postcard} : Type := KvCodec (e : PcError).

Definition KvError_display `{Postcard} (e : KvError) : string :=
  match e with KvCodec e => "kv payload codec error: " +:+ pc_display e end.

Record KvStore : Type := mk_KvStore { kv_data : gmap string bytes }.

Definition kv_new : KvStore := mk_KvStore ∅.
Definition kv_get (s : KvStore) (key : string) : option bytes := kv_data s !! key.
Definition kv_len (s : KvStore) : nat := size (kv_data s).
Definition kv_is_empty (s : KvStore) : bool := bool_decide (kv_data s = ∅).

(** [StoreId::new("kv").expect(..)] *)
Definition kv_store_id : StoreId := mk_StoreId "kv" I.

Section kv.
Context `{Postcard, !Wire KvOp}.

Definition kv_encode (_ : KvStore) (op : KvOp) : result KvError bytes :=
  map_err KvCodec (to_allocvec op).
Definition kv_decode (_ : KvStore) (payload : bytes) : result KvError KvOp :=
  map_err KvCodec (from_bytes payload).

Definition kv_apply (s : KvStore) (_ : OpContext) (op : KvOp) : result KvError () * KvStore :=
  match op with
  | Put key value => (Ok (), mk_KvStore (<[key := value]> (kv_data s)))
  | Delete key => (Ok (), mk_KvStore (delete key (kv_data s)))
  end.

#[export] Instance KvStore_store : Store KvStore := {|
  StoreOp := KvOp;
  StoreError := KvError;
  store_error_display := KvError_display;
  store_id := λ _, kv_store_id;
  store_encode := kv_encode;
  store_decode := kv_decode;
  store_apply := kv_apply;
|}.

#[export] Instance KvStore_stable : StoreIdStable KvStore.
Proof. by intros s ctx op. Qed.

Lemma kv_store_id_new : StoreId_new "kv" = Ok kv_store_id.
Proof. by apply StoreId_new_ok. Qed.

(** The value an op sequence leaves at a key: the last write to it. *)
Definition kv_last_write (key : string) (ops : list KvOp) : option (option bytes) :=
  foldl (λ acc op,
    match op with
    | Put k value => if decide (k = key) then Some (Some value) else acc
    | Delete k => if decide (k = key) then Some None else acc
    end) None ops.

Definition kv_apply_all (s : KvStore) (ctxs : list (OpContext * KvOp)) : KvStore :=
  foldl (λ s co, (kv_apply s co.1 co.2).2) s ctxs.

Lemma kv_apply_all_get s l key :
  kv_get (kv_apply_all s l) key = default (kv_get s key) (kv_last_write key l.*2).
Proof.
  unfold kv_apply_all, kv_last_write.
  induction l as [|[ctx op] l IH] using rev_ind; [done|].
  rewrite fmap_app, !foldl_app; cbn.
  destruct op as [k value|k]; cbn; unfold kv_get in *; cbn; case_decide as Hk; cbn.
  - subst k. apply lookup_insert_eq.
  - rewrite lookup_insert_ne by done. exact IH.
  - subst k. apply lookup_delete_eq.
  - rewrite lookup_delete_ne by done. exact IH.
Qed.
End kv.
