(* ===== verification/Log.v ===== *)
(** * The op-log engine ([src/log.rs])

    The in-memory op-log: ops in global total order, deduplicated by content
    id, with a second, arrival-ordered index for the relay stream; replay and
    incremental application into a store; and the [LogSource] interface the
    servers read a log through. *)

From S2P Require Import Prelude Ordered External Toy Identity Op Store.
Import BTree.

(** ** Relay stream types *)

Record RelayStreamState : Type := mk_stream {
  rs_epoch : barr 32;
  rs_head : Z;
  rs_floor : Z;
}.
#[export] Instance RelayStreamState_eq_dec : EqDecision RelayStreamState.
Proof. solve_decision. Defined.

Record RelayLogEntry : Type := mk_relay_entry { re_seq : Z; re_op : SignedOp }.
Record RelayLogPage : Type := mk_relay_page {
  rp_state : RelayStreamState;
  rp_entries : list RelayLogEntry;
}.

(** ** The log *)

Record OpLog : Type := mk_OpLog {
  log_ops : list (OrderKey * SignedOp);
  log_ids : gset OpId;
  log_relay_epoch : barr 32;
  log_relay_order : list OrderKey;
}.

(** [OpLog::default]: [epoch] is what [OsRng.fill_bytes] wrote; an all-zero
    draw has its first byte set to one. *)
Definition OpLog_new (epoch : barr 32) : OpLog :=
  mk_OpLog [] ∅ (if decide (epoch = zeros 32) then vinsert 0%fin Byte.x01 epoch else epoch) [].

(** [OpLog::append] *)
Definition log_append (l : OpLog) (op : SignedOp) : bool * OpLog :=
  if decide (op_id op ∈ log_ids l) then (false, l)
  else
    let key := order_key op in
    (true, mk_OpLog (bt_insert key op (log_ops l)) ({[op_id op]} ∪ log_ids l)
             (log_relay_epoch l) (log_relay_order l ++ [key])).

Definition log_contains (l : OpLog) (i : OpId) : bool := bool_decide (i ∈ log_ids l).
Definition log_iter (l : OpLog) : list SignedOp := (log_ops l).*2.
Definition log_since (l : OpLog) (cursor : OrderKey) : list SignedOp :=
  (bt_after cursor (log_ops l)).*2.
Definition log_head (l : OpLog) : option OrderKey := last (bt_keys (log_ops l)).
Definition log_len (l : OpLog) : nat := length (log_ops l).
Definition log_is_empty (l : OpLog) : bool := bool_decide (log_ops l = []).

Definition log_relay_state (l : OpLog) : RelayStreamState :=
  mk_stream (log_relay_epoch l) (len (log_relay_order l)) 0.

(** [enumerate().skip(start).take(limit).map(..)]: [None] is the panic of
    [expect("relay order references an inserted op")]. *)
Fixpoint relay_entries (ops : list (OrderKey * SignedOp)) (index : nat) (order : list OrderKey)
    : option (list RelayLogEntry) :=
  match order with
  | [] => Some []
  | key :: order =>
      op ← bt_get key ops;
      rest ← relay_entries ops (S index) order;
      Some (mk_relay_entry (Z.of_nat index + 1) op :: rest)
  end.

(** [OpLog::relay_page] *)
Definition log_relay_page (l : OpLog) (after limit : Z) : option RelayLogPage :=
  let start := Z.to_nat (Z.min after (len (log_relay_order l))) in
  entries ← relay_entries (log_ops l) start (takeZ limit (drop start (log_relay_order l)));
  Some (mk_relay_page (log_relay_state l) entries).

(** [OpLog::origins]: the devices of the ops, ascending. *)
Definition collect_origins (ops : list SignedOp) : list DeviceId :=
  foldl (λ s op, bset_insert (op_device (op_body op)) s) [] ops.
Definition log_origins (l : OpLog) : list DeviceId := collect_origins (log_iter l).

Section codec.
Context `{Postcard, !Wire EnvelopeRepr}.

(** [store.is_some_and(|wanted| op.body.store.as_str() != wanted)] *)
Definition store_filtered (store : option string) (op : SignedOp) : bool :=
  match store with
  | Some wanted => bool_decide (as_str (op_store (op_body op)) ≠ wanted)
  | None => false
  end.

(** The loop of [OpLog::origin_since]: the capacity is checked after the push. *)
Fixpoint origin_rows (origin : DeviceId) (store : option string) (limit : Z)
    (ops : list (OrderKey * SignedOp)) (out : list (OrderKey * bytes))
    : result string (list (OrderKey * bytes)) :=
  match ops with
  | [] => Ok out
  | (key, op) :: ops =>
      if decide (op_device (op_body op) ≠ origin) then origin_rows origin store limit ops out
      else if store_filtered store op then origin_rows origin store limit ops out
      else
        bs ← map_err OpError_display (op_to_bytes op);
        let out := out ++ [(key, bs)] in
        if decide (limit ≤ len out)%Z then Ok out else origin_rows origin store limit ops out
  end.

Definition log_origin_since (l : OpLog) (origin : DeviceId) (after : option OrderKey)
    (store : option string) (limit : Z) : result string (list (OrderKey * bytes)) :=
  let range := match after with Some bound => bt_after bound (log_ops l) | None => log_ops l end in
  origin_rows origin store limit range [].

(** [relay_since_with_envelopes] *)
Definition with_envelopes (entries : list RelayLogEntry)
    : result string (list (Z * SignedOp * bytes)) :=
  try_map (λ e, bs ← map_err OpError_display (op_to_bytes (re_op e));
                Ok (re_seq e, re_op e, bs)) entries.
End codec.

(** ** Replay into a store *)

Section replay.
Context {S : Type} `{Store S}.

(** [ReplayError::Store] *)
Inductive ReplayError : Type := ReplayStore (e : StoreError S).
Definition ReplayError_display (e : ReplayError) : string :=
  match e with ReplayStore e => "store error during replay: " +:+ store_error_display e end.

Definition op_context (op : SignedOp) : OpContext :=
  mk_OpContext (op_id op) (order_key op) (op_hlc (op_body op)) (op_device (op_body op)).

(** The loop of [apply_ops]: [sid] is the id read from the store before it. *)
Fixpoint apply_ops_loop (sid : StoreId) (ops : list SignedOp) (s : S) : result ReplayError () * S :=
  match ops with
  | [] => (Ok (), s)
  | op :: ops =>
      if decide (op_store (op_body op) ≠ sid) then apply_ops_loop sid ops s
      else
        match store_decode s (op_payload (op_body op)) with
        | Err e => (Err (ReplayStore e), s)
        | Ok native =>
            match store_apply s (op_context op) native with
            | (Err e, s) => (Err (ReplayStore e), s)
            | (Ok _, s) => apply_ops_loop sid ops s
            end
        end
  end.

Definition apply_ops (ops : list SignedOp) (s : S) : result ReplayError () * S :=
  apply_ops_loop (store_id s) ops s.

Definition replay (l : OpLog) (s : S) : result ReplayError () * S := apply_ops (log_iter l) s.

(** [Iterator::take_while] *)
Fixpoint take_while {A} (P : A → Prop) `{!∀ x, Decision (P x)} (l : list A) : list A :=
  match l with
  | [] => []
  | x :: l => if decide (P x) then x :: take_while P l else []
  end.

Definition apply_range (l : OpLog) (s : S) (after through : OrderKey) : result ReplayError () * S :=
  apply_ops (take_while (λ op, order_key op ⪯ through) (log_since l after)) s.
End replay.
Arguments ReplayError S {_}.

(** ** [LogSource] *)

Section log_source.
Context `{Postcard, !Wire EnvelopeRepr}.

Class LogSource (L : Type) := {
  src_since : L → OrderKey → Z → list SignedOp;
  src_head : L → option OrderKey;
  src_contains : L → OpId → bool;
  src_relay_state : L → result string (option RelayStreamState);
  src_relay_page : L → Z → Z → result string (option RelayLogPage);
  src_origins : L → result string (list DeviceId);
  src_origin_since : L → DeviceId → option OrderKey → option string → Z →
    result string (list (OrderKey * bytes));
  src_relay_since_with_envelopes : L → Z → Z →
    result string (option (list (Z * SignedOp * bytes)));
}.

(** The default methods of the trait, over the required ones. *)
Section defaults.
Context {L : Type} (since : L → OrderKey → Z → list SignedOp)
  (relay_page : L → Z → Z → result string (option RelayLogPage)).

Definition default_relay_state (_ : L) : result string (option RelayStreamState) := Ok None.
Definition default_relay_page (_ : L) (_ _ : Z) : result string (option RelayLogPage) := Ok None.

Definition default_origins (l : L) : result string (list DeviceId) :=
  Ok (collect_origins (since l OrderKey_MIN usize_max)).

Fixpoint default_origin_rows (origin : DeviceId) (after : option OrderKey) (store : option string)
    (limit : Z) (ops : list SignedOp) (out : list (OrderKey * bytes))
    : result string (list (OrderKey * bytes)) :=
  match ops with
  | [] => Ok out
  | op :: ops =>
      if decide (op_device (op_body op) ≠ origin)
      then default_origin_rows origin after store limit ops out
      else if match after with Some bound => bool_decide (order_key op ⪯ bound) | None => false end
      then default_origin_rows origin after store limit ops out
      else if store_filtered store op then default_origin_rows origin after store limit ops out
      else
        bs ← map_err OpError_display (op_to_bytes op);
        let out := out ++ [(order_key op, bs)] in
        if decide (limit ≤ len out)%Z then Ok out
        else default_origin_rows origin after store limit ops out
  end.

Definition default_origin_since (l : L) (origin : DeviceId) (after : option OrderKey)
    (store : option string) (limit : Z) : result string (list (OrderKey * bytes)) :=
  let start := default OrderKey_MIN after in
  default_origin_rows origin after store limit (since l start usize_max) [].

Definition default_relay_since_with_envelopes (l : L) (after limit : Z)
    : result string (option (list (Z * SignedOp * bytes))) :=
  page ← relay_page l after limit;
  match page with
  | None => Ok None
  | Some page => out ← with_envelopes (rp_entries page); Ok (Some out)
  end.
End defaults.

(** [impl LogSource for Arc<Mutex<OpLog>>].  A panic of the relay index would
    poison the mutex; it is rendered as an error here and shown impossible. *)
Definition panic_relay_order : string := "relay order references an inserted op".

Definition oplog_relay_page (l : OpLog) (after limit : Z) : result string (option RelayLogPage) :=
  page ← ok_or (log_relay_page l after limit) panic_relay_order; Ok (Some page).

Definition oplog_relay_since (l : OpLog) (after limit : Z)
    : result string (option (list (Z * SignedOp * bytes))) :=
  page ← ok_or (log_relay_page l after limit) panic_relay_order;
  out ← with_envelopes (rp_entries page);
  Ok (Some out).

#[export] Instance OpLog_source : LogSource OpLog := {|
  src_since := λ l cursor limit, takeZ limit (log_since l cursor);
  src_head := log_head;
  src_contains := log_contains;
  src_relay_state := λ l, Ok (Some (log_relay_state l));
  src_relay_page := oplog_relay_page;
  src_origins := λ l, Ok (log_origins l);
  src_origin_since := log_origin_since;
  src_relay_since_with_envelopes := oplog_relay_since;
|}.
End log_source.

(** ** The abstract log: the ops in the order they arrived *)

(** A log represents an arrival sequence without repeated ids: its ordered map
    is the sequence keyed by order key, its index the sequence of keys. *)
Definition keyed (op : SignedOp) : OrderKey * SignedOp := (order_key op, op).

Record log_rep (l : OpLog) (arr : list SignedOp) : Prop := {
  rep_ops : log_ops l = bt_collect (keyed <$> arr);
  rep_ids : log_ids l = list_to_set (op_id <$> arr);
  rep_order : log_relay_order l = order_key <$> arr;
  rep_nodup : NoDup (op_id <$> arr);
  rep_epoch : log_relay_epoch l ≠ zeros 32;
}.

(** The specification of [append] on the abstract log. *)
Definition arr_append (arr : list SignedOp) (op : SignedOp) : bool * list SignedOp :=
  if decide (op_id op ∈ op_id <$> arr) then (false, arr) else (true, arr ++ [op]).

Lemma OpLog_new_rep epoch : log_rep (OpLog_new epoch) [].
Proof.
  split; try done; [constructor|]. cbn. case_decide as He; [|done].
  subst. intros Hz%(f_equal (λ v, vec_to_list v)). by vm_compute in Hz.
Qed.

Lemma log_append_rep l arr op :
  log_rep l arr →
  (log_append l op).1 = (arr_append arr op).1 ∧
  log_rep (log_append l op).2 (arr_append arr op).2.
Proof.
  intros Hr. unfold log_append, arr_append.
  assert (Hin : op_id op ∈ log_ids l ↔ op_id op ∈ op_id <$> arr)
    by (rewrite (rep_ids _ _ Hr), elem_of_list_to_set; done).
  case_decide as H1; case_decide as H2; [by auto|tauto|tauto|]; cbn. split; [done|].
  split; cbn.
  - rewrite (rep_ops _ _ Hr), fmap_app. unfold bt_collect. by rewrite foldl_app.
  - rewrite (rep_ids _ _ Hr), fmap_app, list_to_set_app_L. cbn. set_solver.
  - by rewrite (rep_order _ _ Hr), fmap_app.
  - rewrite fmap_app. apply NoDup_app. split_and!; [apply Hr| |apply NoDup_singleton].
    intros i Hi. cbn. by intros ->%list_elem_of_singleton.
  - apply Hr.
Qed.

Lemma NoDup_order_keys arr : NoDup (op_id <$> arr) → NoDup (order_key <$> arr).
Proof.
  intros Hnd. apply (NoDup_fmap_1 ok_op_id). by rewrite <-list_fmap_compose.
Qed.

Lemma keyed_fst arr : (keyed <$> arr).*1 = order_key <$> arr.
Proof. by rewrite <-list_fmap_compose. Qed.
Lemma keyed_snd arr : (keyed <$> arr).*2 = arr.
Proof. rewrite <-list_fmap_compose. apply list_fmap_id. Qed.

Section rep.
Context {l : OpLog} {arr : list SignedOp} (Hrep : log_rep l arr).

Lemma rep_sorted : bt_sorted (log_ops l).
Proof. rewrite (rep_ops _ _ Hrep). apply bt_collect_sorted. Qed.

Lemma rep_perm : log_ops l ≡ₚ keyed <$> arr.
Proof.
  rewrite (rep_ops _ _ Hrep). apply bt_collect_perm. rewrite keyed_fst.
  apply NoDup_order_keys, Hrep.
Qed.

Lemma rep_iter_perm : log_iter l ≡ₚ arr.
Proof. unfold log_iter. by rewrite rep_perm, keyed_snd. Qed.

Lemma rep_entry kv : kv ∈ log_ops l ↔ ∃ op, op ∈ arr ∧ kv = keyed op.
Proof. rewrite rep_perm. rewrite list_elem_of_fmap. naive_solver. Qed.

Lemma rep_key_iter : order_key <$> log_iter l = bt_keys (log_ops l).
Proof.
  unfold log_iter, bt_keys. rewrite <-list_fmap_compose.
  apply list_fmap_ext. intros i kv Hkv. cbn.
  apply list_elem_of_lookup_2, rep_entry in Hkv as (op & _ & ->). done.
Qed.

Lemma rep_ops_keyed : log_ops l = keyed <$> log_iter l.
Proof.
  unfold log_iter. rewrite <-list_fmap_compose. rewrite <-(list_fmap_id (log_ops l)) at 1.
  apply list_fmap_ext. intros i kv Hkv. cbn.
  by apply list_elem_of_lookup_2, rep_entry in Hkv as (op & _ & ->).
Qed.

Lemma rep_get op : op ∈ arr → bt_get (order_key op) (log_ops l) = Some op.
Proof. intros Hop. apply bt_get_some; [apply rep_sorted|]. apply rep_entry. eauto. Qed.

Lemma rep_contains i : log_contains l i = bool_decide (i ∈ op_id <$> arr).
Proof.
  unfold log_contains. apply bool_decide_ext.
  rewrite (rep_ids _ _ Hrep). by rewrite elem_of_list_to_set.
Qed.

Lemma rep_len : log_len l = length arr.
Proof. unfold log_len. rewrite rep_perm. by rewrite length_fmap. Qed.

Lemma rep_since cursor : log_since l cursor = filter (λ op, cursor ≺ order_key op) (log_iter l).
Proof.
  unfold log_since. rewrite rep_ops_keyed. unfold bt_after.
  induction (log_iter l) as [|op ops IH]; [done|]. rewrite fmap_cons, !filter_cons.
  cbn [keyed fst]. case_decide; [|done]. rewrite fmap_cons. by rewrite IH.
Qed.

Lemma relay_entries_ok index k :
  (∀ op, op ∈ k → op ∈ arr) →
  relay_entries (log_ops l) index (order_key <$> k) =
  Some (imap (λ i op, mk_relay_entry (Z.of_nat (index + i) + 1) op) k).
Proof.
  revert index; induction k as [|op k IH]; intros index Hk; [done|].
  rewrite fmap_cons, imap_cons. cbn [relay_entries].
  rewrite rep_get by set_solver. cbn [mbind option_bind]. rewrite IH by set_solver. cbn.
  f_equal. f_equal; [f_equal; lia|]. apply imap_ext. intros i op' _. cbn. f_equal. lia.
Qed.

(** The relay index never panics, and pages the arrival sequence. *)
Lemma log_relay_page_ok after limit :
  (0 ≤ after)%Z →
  let start := Z.to_nat (Z.min after (len arr)) in
  log_relay_page l after limit =
  Some (mk_relay_page (log_relay_state l)
    (imap (λ i op, mk_relay_entry (Z.of_nat (start + i) + 1) op) (takeZ limit (drop start arr)))).
Proof.
  intros Hafter start. unfold log_relay_page. rewrite (rep_order _ _ Hrep).
  assert (Hlen : len (order_key <$> arr) = len arr) by (unfold len; by rewrite length_fmap).
  rewrite Hlen. fold start.
  rewrite !takeZ_take, <-fmap_drop, <-fmap_take.
  rewrite relay_entries_ok; [done|]. intros op Hop. by eapply elem_of_drop_1, elem_of_take_1.
Qed.
End rep.

(** ** The ordered history of an arrival sequence *)

(** Ops in strictly ascending order of their keys. *)
Definition ops_sorted (ops : list SignedOp) : Prop := bt_sorted (keyed <$> ops).

(** The ops of an arrival sequence in the global total order. *)
Definition ordered (arr : list SignedOp) : list SignedOp := (bt_collect (keyed <$> arr)).*2.

Definition ops_after (cursor : OrderKey) (ops : list SignedOp) : list SignedOp :=
  filter (λ op, cursor ≺ order_key op) ops.

Lemma log_rep_ordered l arr : log_rep l arr → log_iter l = ordered arr.
Proof. intros Hr. unfold log_iter. by rewrite (rep_ops _ _ Hr). Qed.

Lemma log_iter_sorted l arr : log_rep l arr → ops_sorted (log_iter l).
Proof. intros Hr. unfold ops_sorted. rewrite <-(rep_ops_keyed Hr). apply (rep_sorted Hr). Qed.

Lemma log_since_ordered l arr cursor :
  log_rep l arr → log_since l cursor = ops_after cursor (ordered arr).
Proof. intros Hr. by rewrite (rep_since Hr), (log_rep_ordered _ _ Hr). Qed.

Lemma keyed_after cursor ops : keyed <$> ops_after cursor ops = bt_after cursor (keyed <$> ops).
Proof.
  unfold ops_after, bt_after. induction ops as [|op ops IH]; [done|].
  rewrite fmap_cons, !filter_cons. cbn [keyed fst]. case_decide; [|done]. by rewrite fmap_cons, IH.
Qed.

Lemma ops_after_sorted cursor ops : ops_sorted ops → ops_sorted (ops_after cursor ops).
Proof. unfold ops_sorted. rewrite keyed_after. apply bt_after_sorted. Qed.

Lemma ops_sorted_app ops1 ops2 :
  ops_sorted (ops1 ++ ops2) ↔
  ops_sorted ops1 ∧ ops_sorted ops2 ∧
  (∀ x y, x ∈ ops1 → y ∈ ops2 → order_key x ≺ order_key y).
Proof.
  unfold ops_sorted. rewrite fmap_app, bt_sorted_app. split; intros (? & ? & Hlt); split_and!; try done.
  - intros x y Hx Hy. apply (Hlt (keyed x) (keyed y)); by apply list_elem_of_fmap_2.
  - intros ? ? (x & -> & Hx)%list_elem_of_fmap (y & -> & Hy)%list_elem_of_fmap. by apply Hlt.
Qed.

Lemma ops_sorted_cons op ops :
  ops_sorted (op :: ops) ↔ ops_sorted ops ∧ (∀ x, x ∈ ops → order_key op ≺ order_key x).
Proof.
  change (op :: ops) with ([op] ++ ops). rewrite ops_sorted_app. split.
  - intros (_ & ? & Hlt). split; [done|]. intros x Hx. apply Hlt; [|done]. set_solver.
  - intros [? Hlt]. split_and!; [repeat constructor|done|].
    intros x y ->%list_elem_of_singleton. apply Hlt.
Qed.

Lemma ops_after_app ops1 op ops2 :
  ops_sorted (ops1 ++ op :: ops2) → ops_after (order_key op) (ops1 ++ op :: ops2) = ops2.
Proof.
  intros Hs. apply (list_fmap_eq_inj keyed); [by intros ?? [=]|].
  rewrite keyed_after. unfold ops_sorted in Hs. rewrite fmap_app, fmap_cons in Hs |- *.
  by apply (bt_after_app (keyed <$> ops1) (keyed op)).
Qed.

Lemma ops_after_after k1 k2 ops : k1 ⪯ k2 → ops_after k2 (ops_after k1 ops) = ops_after k2 ops.
Proof.
  intros Hle. unfold ops_after. rewrite list_filter_filter. apply list_filter_iff.
  intros op. split; [by intros []|]. intros Hk. split; [done|]. by eapply ole_olt_trans.
Qed.

(** Resuming after the last op of a page continues where the page ended. *)
Lemma ops_after_resume cursor ops page op rest :
  ops_sorted ops → ops_after cursor ops = page ++ op :: rest →
  ops_after (order_key op) ops = rest.
Proof.
  intros Hs Hpage.
  assert (Hlt : cursor ≺ order_key op).
  { assert (Hin : op ∈ ops_after cursor ops) by (rewrite Hpage; set_solver).
    by apply list_elem_of_filter in Hin as [? _]. }
  rewrite <-(ops_after_after cursor) by (by apply olt_ole).
  rewrite Hpage. apply ops_after_app. rewrite <-Hpage. by apply ops_after_sorted.
Qed.

(** ** What a log source promises

    The servers read a log through [LogSource] only.  A source represents an
    arrival sequence, and every read is a function of it. *)

Definition numbered (start : nat) (ops : list SignedOp) : list RelayLogEntry :=
  imap (λ i op, mk_relay_entry (Z.of_nat (start + i) + 1) op) ops.

Section log_source_ok.
Context `{Postcard, !Wire EnvelopeRepr}.

(** A key above an optional (exclusive) bound. *)
Definition above (after : option OrderKey) (k : OrderKey) : Prop :=
  match after with Some bound => bound ≺ k | None => True end.
#[export] Instance above_dec after k : Decision (above after k).
Proof. unfold above. destruct after; apply _. Defined.

(** The rows of one origin after a bound, and of one store when filtered. *)
Definition origin_row (origin : DeviceId) (after : option OrderKey) (store : option string)
    (op : SignedOp) : Prop :=
  op_device (op_body op) = origin ∧
  above after (order_key op) ∧
  store_filtered store op = false.
#[export] Instance origin_row_dec origin after store op : Decision (origin_row origin after store op).
Proof. unfold origin_row. apply _. Defined.

Definition encode_row (op : SignedOp) : result string (OrderKey * bytes) :=
  bs ← map_err OpError_display (op_to_bytes op); Ok (order_key op, bs).

Class LogSourceOk (L : Type) `{!LogSource L} (rep : L → list SignedOp → Prop) : Prop := {
  src_nodup l arr : rep l arr → NoDup (op_id <$> arr);
  src_since_ok l arr cursor limit :
    rep l arr → src_since l cursor limit = takeZ limit (ops_after cursor (ordered arr));
  src_head_ok l arr : rep l arr → src_head l = last (order_key <$> ordered arr);
  src_contains_ok l arr i : rep l arr → src_contains l i = bool_decide (i ∈ op_id <$> arr);
  src_relay_state_ok l arr :
    rep l arr → ∃ st, src_relay_state l = Ok (Some st) ∧
      rs_epoch st ≠ zeros 32 ∧ rs_head st = len arr ∧ rs_floor st = 0%Z;
  src_relay_page_ok l arr after limit :
    rep l arr → (0 ≤ after)%Z →
    let start := Z.to_nat (Z.min after (len arr)) in
    ∃ st, src_relay_state l = Ok (Some st) ∧
      src_relay_page l after limit =
        Ok (Some (mk_relay_page st (numbered start (takeZ limit (drop start arr)))));
  src_relay_since_ok l arr after limit :
    rep l arr → (0 ≤ after)%Z →
    let start := Z.to_nat (Z.min after (len arr)) in
    src_relay_since_with_envelopes l after limit =
      Some <$> with_envelopes (numbered start (takeZ limit (drop start arr)));
  src_origins_ok l arr :
    rep l arr → ∃ origins, src_origins l = Ok origins ∧ StronglySorted olt origins ∧
      (∀ d, d ∈ origins ↔ ∃ op, op ∈ arr ∧ op_device (op_body op) = d);
  src_origin_since_ok l arr origin after store limit :
    rep l arr → (0 < limit)%Z →
    src_origin_since l origin after store limit =
      try_map encode_row (takeZ limit (filter (origin_row origin after store) (ordered arr)));
}.

(** ** The in-memory log keeps the promise *)

Lemma collect_origins_ok ops :
  StronglySorted olt (collect_origins ops) ∧
  (∀ d, d ∈ collect_origins ops ↔ ∃ op, op ∈ ops ∧ op_device (op_body op) = d).
Proof.
  unfold collect_origins. induction ops as [|op ops [IHs IHin]] using rev_ind.
  - split; [constructor|]. set_solver.
  - rewrite foldl_app. cbn [foldl]. split; [by apply bset_insert_sorted|].
    intros d. rewrite bset_insert_in, IHin. set_solver.
Qed.

(** The loop of [origin_since] over any rows: the selected ones, encoded, up
    to the capacity. *)
Lemma origin_rows_ok origin store limit ops out :
  (len out < limit)%Z →
  origin_rows origin store limit (keyed <$> ops) out =
    (app out) <$> try_map encode_row
      (takeZ (limit - len out) (filter (origin_row origin None store) ops)).
Proof.
  revert out; induction ops as [|op ops IH]; intros out Hlim; [cbn; by rewrite app_nil_r|].
  rewrite fmap_cons, filter_cons. cbn [origin_rows keyed].
  destruct (decide (op_device (op_body op) ≠ origin)) as [Hd|Hd].
  { rewrite (decide_False (P := origin_row _ _ _ _)) by (by intros [? _]). by apply IH. }
  destruct (store_filtered store op) eqn:Hf.
  { rewrite (decide_False (P := origin_row _ _ _ _)) by (intros (_ & _ & ?); congruence). by apply IH. }
  apply dec_stable in Hd.
  rewrite (decide_True (P := origin_row _ _ _ _)) by (by split_and!).
  cbn [takeZ try_map]. destruct (Z.leb_spec (limit - len out) 0) as [Hle|_]; [lia|].
  cbn [try_map]. unfold encode_row at 2.
  destruct (op_to_bytes op) as [bs|e]; cbn; [|done].
  pose proof (len_nonneg out). rewrite len_app, len_cons. change (len []) with 0%Z.
  case_decide as Hcap.
  - rewrite takeZ_take. replace (Z.to_nat (limit - len out - 1)) with 0 by lia. done.
  - rewrite IH by (rewrite len_app, len_cons; change (len []) with 0%Z; lia).
    rewrite len_app, len_cons. change (len []) with 0%Z.
    replace (limit - (len out + (1 + 0)))%Z with (limit - len out - 1)%Z by lia.
    destruct (try_map _ _); cbn; [|done]. by rewrite <-app_assoc.
Qed.

Lemma filter_origin_row_after origin bound store ops :
  filter (origin_row origin None store) (ops_after bound ops) =
  filter (origin_row origin (Some bound) store) ops.
Proof.
  unfold ops_after. rewrite list_filter_filter. apply list_filter_iff.
  intros op. unfold origin_row. naive_solver.
Qed.

Lemma log_origin_since_ok l arr origin after store limit :
  log_rep l arr → (0 < limit)%Z →
  log_origin_since l origin after store limit =
    try_map encode_row (takeZ limit (filter (origin_row origin after store) (ordered arr))).
Proof.
  intros Hr Hlim. unfold log_origin_since. rewrite (rep_ops_keyed Hr), (log_rep_ordered _ _ Hr).
  replace (match after with
    | Some bound => bt_after bound (keyed <$> ordered arr) | None => keyed <$> ordered arr end)
    with (keyed <$> match after with Some bound => ops_after bound (ordered arr) | None => ordered arr end)
    by (destruct after; [by rewrite keyed_after|done]).
  rewrite origin_rows_ok by done. change (len []) with 0%Z. rewrite Z.sub_0_r.
  destruct after; [rewrite filter_origin_row_after|]; by destruct (try_map _ _).
Qed.

Lemma oplog_relay_since_ok l arr after limit :
  log_rep l arr → (0 ≤ after)%Z →
  let start := Z.to_nat (Z.min after (len arr)) in
  oplog_relay_since l after limit =
    Some <$> with_envelopes (numbered start (takeZ limit (drop start arr))).
Proof.
  intros Hr Hafter start. unfold oplog_relay_since. rewrite (log_relay_page_ok Hr) by done.
  cbn [ok_or mbind result_bind rp_entries]. unfold numbered. by destruct (with_envelopes _).
Qed.

#[export] Instance OpLog_source_ok : LogSourceOk OpLog log_rep.
Proof.
  split.
  - apply rep_nodup.
  - intros l arr cursor limit Hr. cbn. by rewrite (log_since_ordered _ _ _ Hr).
  - intros l arr Hr. cbn. unfold log_head.
    by rewrite <-(rep_key_iter Hr), (log_rep_ordered _ _ Hr).
  - intros l arr i Hr. cbn. apply (rep_contains Hr).
  - intros l arr Hr. eexists. split; [done|]. cbn. split_and!; [apply Hr| |done].
    rewrite (rep_order _ _ Hr). unfold len. by rewrite length_fmap.
  - intros l arr after limit Hr Hafter start. eexists. split; [done|]. cbn. unfold oplog_relay_page.
    by rewrite (log_relay_page_ok Hr) by done.
  - intros l arr after limit Hr. by apply oplog_relay_since_ok.
  - intros l arr Hr. eexists. split; [done|].
    destruct (collect_origins_ok (log_iter l)) as [Hs Hin]. split; [done|].
    intros d. unfold log_origins. rewrite Hin. by setoid_rewrite (rep_iter_perm Hr).
  - intros l arr origin after store limit Hr. by apply log_origin_since_ok.
Qed.

(** The default methods of the trait against the reads they stand for. *)
Lemma default_origin_rows_ok origin after store limit ops out :
  default_origin_rows origin after store limit ops out =
  origin_rows origin store limit (keyed <$>
    filter (λ op, above after (order_key op)) ops) out.
Proof.
  revert out; induction ops as [|op ops IH]; intros out; [done|].
  rewrite filter_cons. cbn [default_origin_rows].
  destruct after as [bound|].
  - destruct (decide (above (Some bound) (order_key op))) as [Hlt|Hge].
    + rewrite bool_decide_eq_false_2 by (by apply olt_not_ole). rewrite fmap_cons.
      cbn [origin_rows keyed]. destruct (decide _); [apply IH|].
      destruct (store_filtered _ _); [apply IH|].
      destruct (op_to_bytes op); cbn; [|done]. case_decide; [done|apply IH].
    + rewrite bool_decide_eq_true_2 by (by apply ole_not_olt).
      destruct (decide (op_device (op_body op) ≠ origin)); apply IH.
  - rewrite (decide_True (P := above _ _)) by done. rewrite fmap_cons. cbn [origin_rows keyed].
    destruct (decide (op_device (op_body op) ≠ origin)); [apply IH|].
    destruct (store_filtered _ _); [apply IH|].
    destruct (op_to_bytes op); cbn; [|done]. case_decide; [done|apply IH].
Qed.

Lemma ordered_perm arr : NoDup (op_id <$> arr) → ordered arr ≡ₚ arr.
Proof.
  intros Hnd. unfold ordered. rewrite bt_collect_perm; [by rewrite keyed_snd|].
  rewrite keyed_fst. by apply NoDup_order_keys.
Qed.

Lemma ordered_keyed arr : NoDup (op_id <$> arr) → keyed <$> ordered arr = bt_collect (keyed <$> arr).
Proof.
  intros Hnd. unfold ordered. rewrite <-list_fmap_compose.
  rewrite <-(list_fmap_id (bt_collect _)) at 2. apply list_fmap_ext. intros i kv Hkv.
  apply list_elem_of_lookup_2 in Hkv. rewrite bt_collect_perm in Hkv.
  - by apply list_elem_of_fmap in Hkv as (op & -> & _).
  - rewrite keyed_fst. by apply NoDup_order_keys.
Qed.

Lemma ordered_sorted arr : NoDup (op_id <$> arr) → ops_sorted (ordered arr).
Proof. intros Hnd. unfold ops_sorted. rewrite ordered_keyed by done. apply bt_collect_sorted. Qed.

Lemma len_ops_after cursor arr :
  NoDup (op_id <$> arr) → (len (ops_after cursor (ordered arr)) ≤ len arr)%Z.
Proof.
  intros Hnd. unfold len, ops_after. rewrite <-(Permutation_length (ordered_perm arr Hnd)).
  apply inj_le, length_filter.
Qed.

Lemma default_range_ok after arr :
  NoDup (op_id <$> arr) → (∀ op, op ∈ arr → OrderKey_MIN ≺ order_key op) →
  filter (λ op, above after (order_key op)) (ops_after (default OrderKey_MIN after) (ordered arr)) =
  filter (λ op, above after (order_key op)) (ordered arr).
Proof.
  intros Hnd Hmin. unfold ops_after. rewrite list_filter_filter. apply filter_ext. intros op Hop. rewrite ordered_perm in Hop by done.
  destruct after; cbn; naive_solver.
Qed.
End log_source_ok.

(** ** Histories: running the log from empty *)

Definition append_all (l : OpLog) (ops : list SignedOp) : OpLog :=
  foldl (λ l op, (log_append l op).2) l ops.
Definition arrivals (ops : list SignedOp) : list SignedOp :=
  foldl (λ arr op, (arr_append arr op).2) [] ops.

Lemma append_all_rep epoch ops : log_rep (append_all (OpLog_new epoch) ops) (arrivals ops).
Proof.
  unfold append_all, arrivals. induction ops as [|op ops IH] using rev_ind; [apply OpLog_new_rep|].
  rewrite !foldl_app. cbn [foldl]. by apply log_append_rep.
Qed.

Lemma append_all_rep_from l arr ops :
  log_rep l arr → log_rep (append_all l ops) (foldl (λ arr op, (arr_append arr op).2) arr ops).
Proof.
  revert l arr. induction ops as [|op ops IH]; intros l arr Hr; [done|]. cbn. by apply IH, log_append_rep.
Qed.

(** Every appended op is in the log, and what was there stays. *)
Lemma log_contains_append_all l arr ops i :
  log_rep l arr → i ∈ op_id <$> ops → log_contains (append_all l ops) i = true.
Proof.
  intros Hr Hi. rewrite (rep_contains (append_all_rep_from _ _ ops Hr)). apply bool_decide_eq_true.
  clear Hr l. revert arr. induction ops as [|op ops IH] using rev_ind; intros arr; [by apply not_elem_of_nil in Hi|].
  rewrite foldl_app. cbn [foldl]. unfold arr_append at 1. rewrite fmap_app in Hi.
  apply elem_of_app in Hi. case_decide as Hd; cbn.
  - destruct Hi as [Hi|Hi]; [by apply IH|]. by apply list_elem_of_singleton in Hi as ->.
  - rewrite fmap_app, elem_of_app. destruct Hi as [Hi|Hi]; [left; by apply IH|by right].
Qed.

Lemma log_contains_stays l carr ops i :
  log_rep l carr → log_contains l i = true → log_contains (append_all l ops) i = true.
Proof.
  intros Hr Hi. rewrite (rep_contains (append_all_rep_from _ _ ops Hr)). apply bool_decide_eq_true.
  rewrite (rep_contains Hr) in Hi. apply bool_decide_eq_true in Hi. clear Hr.
  revert carr Hi. induction ops as [|op ops IH]; intros carr Hi; [done|]. cbn. apply IH.
  unfold arr_append. case_decide; [done|]. cbn [snd]. rewrite fmap_app. by apply elem_of_app; left.
Qed.

Lemma append_all_app l ops1 ops2 : append_all l (ops1 ++ ops2) = append_all (append_all l ops1) ops2.
Proof. unfold append_all. apply foldl_app. Qed.

Lemma arrivals_ids ops i : i ∈ op_id <$> arrivals ops ↔ i ∈ op_id <$> ops.
Proof.
  revert i. unfold arrivals. induction ops as [|op ops IH] using rev_ind; [done|]. intros i.
  rewrite foldl_app. cbn [foldl]. unfold arr_append at 1. case_decide as Hd; cbn.
  - rewrite IH in Hd. rewrite IH, fmap_app. set_solver.
  - rewrite !fmap_app, !elem_of_app, IH. done.
Qed.

Lemma arrivals_sub ops op : op ∈ arrivals ops → op ∈ ops.
Proof.
  unfold arrivals. induction ops as [|op' ops IH] using rev_ind; [done|].
  rewrite foldl_app. cbn [foldl]. unfold arr_append at 1. case_decide; cbn; set_solver.
Qed.

(** What replay reads of an op: its position and its body, not its signature. *)
Definition strip (op : SignedOp) : OrderKey * OpBody := (order_key op, op_body op).

Definition id_functional (ops : list SignedOp) : Prop :=
  ∀ op op', op ∈ ops → op' ∈ ops → op_id op = op_id op' → op_body op = op_body op'.

Lemma strip_arrivals ops kb :
  id_functional ops → kb ∈ strip <$> arrivals ops ↔ kb ∈ strip <$> ops.
Proof.
  intros Hf. rewrite !list_elem_of_fmap. split; intros (op & -> & Hop).
  - exists op. split; [done|]. by apply arrivals_sub.
  - assert (Hid : op_id op ∈ op_id <$> arrivals ops) by (apply arrivals_ids; set_solver).
    apply list_elem_of_fmap in Hid as (op' & Hid & Hop'). exists op'. split; [|done].
    assert (Hb : op_body op = op_body op') by (apply Hf; [done|by apply arrivals_sub|done]).
    unfold strip, order_key. congruence.
Qed.

Lemma strip_sorted l arr : log_rep l arr → bt_sorted (strip <$> log_iter l).
Proof.
  intros Hr. pose proof (log_iter_sorted _ _ Hr) as Hs. unfold ops_sorted, bt_sorted in *.
  replace (bt_keys (strip <$> log_iter l)) with (bt_keys (keyed <$> log_iter l)); [done|].
  unfold bt_keys. by rewrite <-!list_fmap_compose.
Qed.

(** Logs that received the same ops, in any order and any number of times,
    iterate the same positions and bodies. *)
Lemma strip_converges e1 e2 ops1 ops2 :
  id_functional ops1 → id_functional ops2 →
  (∀ kb, kb ∈ strip <$> ops1 ↔ kb ∈ strip <$> ops2) →
  strip <$> log_iter (append_all (OpLog_new e1) ops1) =
  strip <$> log_iter (append_all (OpLog_new e2) ops2).
Proof.
  intros Hf1 Hf2 Hsame.
  pose proof (append_all_rep e1 ops1) as Hr1. pose proof (append_all_rep e2 ops2) as Hr2.
  apply bt_sorted_unique; [by eapply strip_sorted..|]. intros kb.
  rewrite (rep_iter_perm Hr1), (rep_iter_perm Hr2), !strip_arrivals by done. apply Hsame.
Qed.

Section replay_lemmas.
Context {S : Type} `{Store S}.
Implicit Types (s : S) (ops : list SignedOp).

Lemma apply_ops_strip sid ops1 ops2 s :
  strip <$> ops1 = strip <$> ops2 → apply_ops_loop sid ops1 s = apply_ops_loop sid ops2 s.
Proof.
  revert ops2 s; induction ops1 as [|a ops1 IH]; intros [|b ops2] s Heq; [done..|].
  rewrite !fmap_cons in Heq. injection Heq as Hhlc Hdev Hid Hbody Heq. cbn [apply_ops_loop].
  assert (Hctx : op_context a = op_context b)
    by (unfold op_context, order_key; by rewrite Hid, Hbody).
  rewrite Hbody, Hctx. case_decide; [by apply IH|].
  destruct (store_decode s _); [|done]. destruct (store_apply s _ _) as [[?|?] ?]; [|done]. by apply IH.
Qed.

Lemma apply_ops_loop_id `{!StoreIdStable S} sid ops s :
  store_id (apply_ops_loop sid ops s).2 = store_id s.
Proof.
  revert s; induction ops as [|op ops IH]; intros s; [done|]. cbn.
  case_decide; [apply IH|]. destruct (store_decode s _) as [native|]; [|done].
  pose proof (store_id_apply s (op_context op) native) as Hid.
  destruct (store_apply s _ _) as [[?|?] ?]; [|done]. by rewrite IH.
Qed.

(** Run the second step on the state the first one left, if it succeeded. *)
Definition and_then {E A B T} (r : result E A * T) (k : T → result E B * T) : result E B * T :=
  match r with (Ok _, t) => k t | (Err e, t) => (Err e, t) end.

(** Applying a sequence in two batches. *)
Lemma apply_ops_app `{!StoreIdStable S} ops1 ops2 s :
  apply_ops (ops1 ++ ops2) s =
  and_then (apply_ops ops1 s) (apply_ops ops2).
Proof.
  unfold apply_ops.
  assert (Hgen : ∀ sid, apply_ops_loop sid (ops1 ++ ops2) s =
    and_then (apply_ops_loop sid ops1 s) (apply_ops_loop sid ops2)).
  { intros sid. revert s. induction ops1 as [|op ops1 IH]; intros s; [done|]. cbn.
    case_decide; [apply IH|]. destruct (store_decode s _); [|done].
    destruct (store_apply s _ _) as [[?|?] ?]; [apply IH|done]. }
  rewrite Hgen. pose proof (apply_ops_loop_id (store_id s) ops1 s) as Hid.
  destruct (apply_ops_loop _ ops1 s) as [[?|?] ?]; [|done]. cbn in Hid |- *. by rewrite Hid.
Qed.
End replay_lemmas.

Lemma take_while_sorted through ops :
  ops_sorted ops →
  take_while (λ op, order_key op ⪯ through) ops = filter (λ op, order_key op ⪯ through) ops.
Proof.
  induction ops as [|op ops IH]; [done|]. intros [Hs Hlt]%ops_sorted_cons.
  rewrite filter_cons. cbn [take_while]. destruct (decide (order_key op ⪯ through)) as [Hle|Hgt].
  - by rewrite IH.
  - rewrite filter_none; [done|]. apply Forall_forall. intros x Hx Hle.
    apply Hgt. etrans; [apply olt_ole; by apply Hlt|done].
Qed.

Lemma ops_split mid ops :
  ops_sorted ops → ops = filter (λ op, order_key op ⪯ mid) ops ++ ops_after mid ops.
Proof.
  unfold ops_after. induction ops as [|op ops IH]; [done|]. intros [Hs Hlt]%ops_sorted_cons.
  rewrite !filter_cons. destruct (decide (order_key op ⪯ mid)) as [Hle|Hgt].
  - rewrite decide_False by (by apply ole_not_olt). cbn. by rewrite <-IH.
  - apply olt_not_ole in Hgt. rewrite decide_True by done.
    rewrite (filter_none _ ops), (filter_all _ ops); [done|..].
    + apply Forall_forall. intros x Hx. by etrans; [|apply Hlt].
    + apply Forall_forall. intros x Hx Hle.
      apply (olt_irrefl mid). eapply olt_ole_trans; [|done]. by etrans; [|apply Hlt].
Qed.

(** The ops of a window, in order. *)
Definition window (after through : OrderKey) (ops : list SignedOp) : list SignedOp :=
  filter (λ op, order_key op ⪯ through) (ops_after after ops).

Lemma window_app after mid through ops :
  ops_sorted ops → after ⪯ mid → mid ⪯ through →
  window after through ops = window after mid ops ++ window mid through ops.
Proof.
  intros Hs H1 H2. unfold window.
  rewrite (ops_split mid (ops_after after ops)) at 1 by (by apply ops_after_sorted).
  rewrite filter_app, ops_after_after by done. f_equal.
  rewrite list_filter_filter. apply list_filter_iff. intros op.
  split; [by intros []|]. intros Hle. split; [by etrans|done].
Qed.

Lemma apply_range_window {S} `{Store S} l arr (s : S) after through :
  log_rep l arr → apply_range l s after through = apply_ops (window after through (ordered arr)) s.
Proof.
  intros Hr. unfold apply_range, window. rewrite take_while_sorted.
  - by rewrite (log_since_ordered _ _ _ Hr).
  - rewrite (log_since_ordered _ _ _ Hr). apply ops_after_sorted, ordered_sorted, Hr.
Qed.

Section kv_replay.
Context `{Postcard, !Wire KvOp}.

(** The key/value writes of a history, in the order given. *)
Definition kv_writes (ops : list SignedOp) : list KvOp :=
  omap (λ op, ok (from_bytes (op_payload (op_body op))))
    (filter (λ op, op_store (op_body op) = kv_store_id) ops).

Lemma kv_apply_ops ops (s : KvStore) :
  (∀ op, op ∈ ops → op_store (op_body op) = kv_store_id →
    is_Some (ok (from_bytes (A := KvOp) (op_payload (op_body op))))) →
  ∃ s', apply_ops ops s = (Ok (), s') ∧
    ∀ key, kv_get s' key = default (kv_get s key) (kv_last_write key (kv_writes ops)).
Proof.
  intros Hdec.
  assert (Hrun : ∃ ctxs, ctxs.*2 = kv_writes ops ∧
    apply_ops_loop kv_store_id ops s = (Ok (), kv_apply_all s ctxs)).
  { revert s. induction ops as [|op ops IH]; intros s; [by exists []|].
    assert (Hdec' := IH ltac:(set_solver)). clear IH.
    unfold kv_writes. rewrite filter_cons. cbn [apply_ops_loop].
    destruct (decide (op_store (op_body op) = kv_store_id)) as [Hst|Hst].
    2:{ rewrite decide_True by done. apply Hdec'. }
    rewrite decide_False by naive_solver.
    destruct (Hdec op ltac:(set_solver) Hst) as [native Hn%ok_some].
    cbn [omap list_omap]. cbn [store_decode KvStore_store]. unfold kv_decode. rewrite Hn. cbn.
    destruct (Hdec' (kv_apply s (op_context op) native).2) as (ctxs & Hctx & Hrun).
    exists ((op_context op, native) :: ctxs). cbn. split; [by f_equal|].
    destruct native; exact Hrun. }
  destruct Hrun as (ctxs & Hctx & Hrun). exists (kv_apply_all s ctxs).
  split; [exact Hrun|]. intros key. by rewrite kv_apply_all_get, Hctx.
Qed.
End kv_replay.

(** ** Properties *)

(** C16: the op-log refines its arrival sequence: from empty, any sequence of
    appends leaves a log whose iteration is the first arrival of each id, in
    strictly ascending key order; a further append answers whether the id is
    new, [contains] answers whether it was seen, [since] is the part of the
    iteration above the cursor, and the relay head counts the arrivals. *)
Theorem oplog_refines_arrivals (epoch : barr 32) (ops : list SignedOp) :
  let l := append_all (OpLog_new epoch) ops in
  log_iter l ≡ₚ arrivals ops ∧
  StronglySorted (λ a b, order_key a ≺ order_key b) (log_iter l) ∧
  (∀ op, (log_append l op).1 = bool_decide (op_id op ∉ op_id <$> ops)) ∧
  (∀ i, log_contains l i = bool_decide (i ∈ op_id <$> ops)) ∧
  (∀ cursor, log_since l cursor = ops_after cursor (log_iter l)) ∧
  rs_head (log_relay_state l) = len (arrivals ops).
Proof.
  intros l. pose proof (append_all_rep epoch ops) as Hr. fold l in Hr. split_and!.
  - apply (rep_iter_perm Hr).
  - pose proof (log_iter_sorted _ _ Hr) as Hs. clear Hr. revert Hs.
    induction (log_iter l) as [|op k IH]; [constructor|]. intros [Hs Hlt]%ops_sorted_cons.
    constructor; [by apply IH|]. by apply Forall_forall.
  - intros op. destruct (log_append_rep _ _ op Hr) as [-> _]. unfold arr_append.
    case_decide as Hd; rewrite arrivals_ids in Hd; symmetry;
      [apply bool_decide_eq_false; intros Hn; by apply Hn|by apply bool_decide_eq_true].
  - intros i. rewrite (rep_contains Hr). apply bool_decide_ext, arrivals_ids.
  - apply (rep_since Hr).
  - cbn. rewrite (rep_order _ _ Hr). unfold len. by rewrite length_fmap.
Qed.

(** C17: replay converges: two logs that received the same ops (same positions
    and bodies, whatever the signatures, the arrival orders and the
    repetitions) replay any store to the same state and the same answer. *)
Theorem replay_converges {S : Type} `{Store S} (s : S) e1 e2 (ops1 ops2 : list SignedOp) :
  id_functional ops1 → id_functional ops2 →
  (∀ kb, kb ∈ strip <$> ops1 ↔ kb ∈ strip <$> ops2) →
  replay (append_all (OpLog_new e1) ops1) s = replay (append_all (OpLog_new e2) ops2) s.
Proof.
  intros Hf1 Hf2 Hsame. unfold replay, apply_ops.
  by apply apply_ops_strip, strip_converges.
Qed.

(** Incremental application is replay in pieces: applying the window up to
    [mid] and then the one from [mid] is applying the whole window, errors
    included. *)
Lemma apply_range_split {S : Type} `{StoreIdStable S} l arr (s : S) after mid through :
  log_rep l arr → after ⪯ mid → mid ⪯ through →
  apply_range l s after through =
  and_then (apply_range l s after mid) (λ s', apply_range l s' mid through).
Proof.
  intros Hr H1 H2. rewrite !(apply_range_window _ _ _ _ _ Hr).
  rewrite (window_app after mid through) by (done || apply ordered_sorted, Hr).
  rewrite apply_ops_app. destruct (apply_ops _ s) as [[?|?] s']; [|done].
  cbn. by rewrite (apply_range_window _ _ _ _ _ Hr).
Qed.

(** The key/value store is last-writer-wins in the global order: replaying
    a log whose [kv] payloads decode succeeds and leaves at every key the last
    write to it. *)
Lemma kv_replay_last_write `{Postcard, !Wire KvOp} (l : OpLog) (s : KvStore) :
  (∀ op, op ∈ log_iter l → op_store (op_body op) = kv_store_id →
    is_Some (ok (from_bytes (A := KvOp) (op_payload (op_body op))))) →
  ∃ s', replay l s = (Ok (), s') ∧
    ∀ key, kv_get s' key = default (kv_get s key) (kv_last_write key (kv_writes (log_iter l))).
Proof. apply kv_apply_ops. Qed.

(** The relay index is total and contiguous: on any reachable log
    [relay_page] never panics, and answers the arrivals after the cursor, at
    most [limit] of them, numbered from the cursor up without a gap. *)
Lemma relay_page_contiguous (epoch : barr 32) (ops : list SignedOp) (after limit : Z) :
  (0 ≤ after)%Z →
  let start := Z.to_nat (Z.min after (len (arrivals ops))) in
  ∃ st, log_relay_page (append_all (OpLog_new epoch) ops) after limit =
    Some (mk_relay_page st (numbered start (takeZ limit (drop start (arrivals ops))))) ∧
    rs_head st = len (arrivals ops) ∧ rs_floor st = 0%Z ∧ rs_epoch st ≠ zeros 32.
Proof.
  intros Hafter start. pose proof (append_all_rep epoch ops) as Hr.
  eexists. split; [apply (log_relay_page_ok Hr); done|]. cbn. split_and!; [|done|apply Hr].
  rewrite (rep_order _ _ Hr). unfold len. by rewrite length_fmap.
Qed.

(** The default [origin_since] of the trait agrees with the indexed one of
    any source that keeps the promise, when no op sits at the minimal key and
    the log fits a [usize]. *)
Lemma default_origin_since_agrees `{Postcard, !Wire EnvelopeRepr} {L : Type} `{!LogSource L}
    (rep : L → list SignedOp → Prop) `{!LogSourceOk L rep} (l : L) arr origin after store limit :
  rep l arr → (0 < limit)%Z → (len arr ≤ usize_max)%Z →
  (∀ op, op ∈ arr → OrderKey_MIN ≺ order_key op) →
  default_origin_since src_since l origin after store limit =
  src_origin_since l origin after store limit.
Proof.
  intros Hr Hlim Hlen Hmin. pose proof (src_nodup _ _ Hr) as Hnd.
  unfold default_origin_since. rewrite default_origin_rows_ok.
  rewrite (src_since_ok _ _ _ _ Hr), (src_origin_since_ok _ _ _ _ _ _ Hr Hlim).
  rewrite takeZ_ge.
  2:{ etrans; [by apply len_ops_after|exact Hlen]. }
  rewrite default_range_ok by done. rewrite origin_rows_ok by done.
  change (len []) with 0%Z. rewrite Z.sub_0_r, list_filter_filter.
  erewrite (list_filter_iff _ (origin_row origin after store)).
  - by destruct (try_map _ _).
  - intros op. unfold origin_row. cbn. tauto.
Qed.

(** ** Witnesses *)

Module LogToy.
Export OpToy.

#[export] Instance KvOp_codec : Codec KvOp :=
  iso_codec (λ op, match op with Put k v => (k, Some v) | Delete k => (k, None) end)
    (λ '(k, o), match o with Some v => Put k v | None => Delete k end).
#[export] Instance KvOp_codec_ok : CodecOk KvOp.
Proof. by apply iso_codec_ok; intros []. Qed.

Definition kv_op (sk : SigningKey) (hlc : Z) (op : KvOp) : SignedOp := toy_op sk hlc (toy_encode op).

(** Two devices, three writes. *)
Definition op_a : SignedOp := kv_op alice 10 (Put "x" [Byte.x01]).
Definition op_b : SignedOp := kv_op bob 20 (Put "x" [Byte.x02]).
Definition op_c : SignedOp := kv_op alice 30 (Put "y" [Byte.x03]).

Definition toy_epoch : barr 32 := be_vec 32 77.
Definition toy_log (ops : list SignedOp) : OpLog := append_all (OpLog_new toy_epoch) ops.

#[export] Instance id_functional_dec ops : Decision (id_functional ops).
Proof.
  refine (cast_if (decide (Forall (λ op, Forall (λ op', op_id op = op_id op' → op_body op = op_body op') ops) ops)));
    unfold id_functional; setoid_rewrite Forall_forall in f || setoid_rewrite Forall_forall in n;
    setoid_rewrite Forall_forall in f || setoid_rewrite Forall_forall in n; naive_solver.
Defined.

Lemma same_three (a b c : SignedOp) kb : kb ∈ strip <$> [a; b; c] ↔ kb ∈ strip <$> [c; b; a; b].
Proof. rewrite !fmap_cons. set_solver. Qed.

(** [op_b] and [op_a] delivered in the other order, one of them twice. *)
Lemma replay_converges_witness :
  replay (toy_log [op_a; op_b; op_c]) kv_new = replay (toy_log [op_c; op_b; op_a; op_b]) kv_new ∧
  kv_get (replay (toy_log [op_c; op_b; op_a; op_b]) kv_new).2 "x" = Some [Byte.x02].
Proof.
  split; [|by vm_compute].
  apply (replay_converges kv_new toy_epoch toy_epoch [op_a; op_b; op_c] [op_c; op_b; op_a; op_b]).
  - apply (bool_decide_unpack _). by vm_compute.
  - apply (bool_decide_unpack _). by vm_compute.
  - apply same_three.
Defined.

End LogToy.
