(* ===== verification/Durable.v ===== *)
(** * Op-log durability ([src/durable.rs])

    The append-only file of length-prefixed envelopes: the writer with its
    rollback and poisoning, and the startup replay that re-verifies every frame
    and cuts a torn tail off.  Every system call may fail, and its outcome is
    an argument: the theorems hold for all outcomes. *)

From S2P Require Import Prelude Ordered External Toy Identity Op Registry Store Log.

(** [std::io::Error], by the kinds the code looks at. *)
Inductive IoError : Type := UnexpectedEof | NotFound | IoOther (msg : string).

Inductive DurabilityError `{Postcard} : Type :=
  | DurIo (e : IoError)
  | DurOp (e : OpError)
  | Poisoned.

(** ** The file

    [std::fs::File] opened for writing: the contents and the write position.  A
    system call that fails carries its error; a failed [write_all] has written
    some prefix of its buffer. *)

Record File : Type := mk_File { f_data : bytes; f_pos : nat }.

Definition file_write (buf : bytes) (f : File) : File :=
  if decide (buf = []) then f
  else
    mk_File (take (f_pos f) (f_data f) ++ replicate (f_pos f - length (f_data f)) Byte.x00 ++ buf
               ++ drop (f_pos f + length buf) (f_data f))
            (f_pos f + length buf).

Definition write_all (out : option (nat * IoError)) (buf : bytes) (f : File)
    : result IoError () * File :=
  match out with
  | None => (Ok (), file_write buf f)
  | Some (n, e) => (Err e, file_write (take n buf) f)
  end.

Definition syscall (out : option IoError) : result IoError () :=
  match out with None => Ok () | Some e => Err e end.

Definition set_len (out : option IoError) (n : nat) (f : File) : result IoError () * File :=
  match out with
  | None => (Ok (), mk_File (take n (f_data f) ++ replicate (n - length (f_data f)) Byte.x00) (f_pos f))
  | Some e => (Err e, f)
  end.

Definition seek (out : option IoError) (n : nat) (f : File) : result IoError () * File :=
  match out with
  | None => (Ok (), mk_File (f_data f) n)
  | Some e => (Err e, f)
  end.

(** [Read::read_exact] of [n] bytes at offset [p], where [rest] is what the file
    holds from there and [fail] the offset at which the device errors, if any. *)
Definition read_exact (n : Z) (fail : option nat) (p : nat) (rest : bytes)
    : result IoError (bytes * bytes) :=
  if match fail with
     | Some f => bool_decide (Z.of_nat p ≤ Z.of_nat f < Z.of_nat p + n)%Z && bool_decide (f ≤ p + length rest)
     | None => false
     end
  then Err (IoOther "input/output error")
  else if decide (n ≤ len rest)%Z then Ok (take (Z.to_nat n) rest, drop (Z.to_nat n) rest)
  else Err UnexpectedEof.

Section durable.
Context `{Crypto, Postcard, !Wire BodyRepr, !Wire EnvelopeRepr}.

(** ** The writer *)

Record OplogWriter : Type := mk_writer { w_file : File; poisoned : bool }.

(** [OplogWriter::open] on the existing contents, or on a fresh file. *)
Definition writer_open (open_out seek_out : option IoError) (contents : option bytes)
    : result DurabilityError OplogWriter :=
  _ ← map_err DurIo (syscall open_out);
  let f := mk_File (default [] contents) 0 in
  let '(r, f) := seek seek_out (length (f_data f)) f in
  _ ← map_err DurIo r;
  Ok (mk_writer f false).

(** The outcomes of the system calls of one [append]. *)
Record AppendIo : Type := mk_append_io {
  aio_metadata : option IoError;
  aio_prefix : option (nat * IoError);
  aio_body : option (nat * IoError);
  aio_flush : option IoError;
  aio_set_len : option IoError;
  aio_seek : option IoError;
}.

Definition u32_modulus : Z := 2 ^ 32.

(** [OplogWriter::write_frame]: the length is cast to [u32]. *)
Definition write_frame (io : AppendIo) (bs : bytes) (f : File) : result DurabilityError () * File :=
  match write_all (aio_prefix io) (le_bytes 4 (len bs mod u32_modulus)%Z) f with
  | (Err e, f) => (Err (DurIo e), f)
  | (Ok _, f) =>
      match write_all (aio_body io) bs f with
      | (Err e, f) => (Err (DurIo e), f)
      | (Ok _, f) => (map_err DurIo (syscall (aio_flush io)), f)
      end
  end.

(** [OplogWriter::append] *)
Definition writer_append (io : AppendIo) (w : OplogWriter) (op : SignedOp)
    : result DurabilityError () * OplogWriter :=
  if poisoned w then (Err Poisoned, w)
  else
    match op_to_bytes op with
    | Err e => (Err (DurOp e), w)
    | Ok bs =>
        match aio_metadata io with
        | Some e => (Err (DurIo e), w)
        | None =>
            let start := length (f_data (w_file w)) in
            match write_frame io bs (w_file w) with
            | (Err e, f) =>
                match set_len (aio_set_len io) start f with
                | (Err _, f) => (Err e, mk_writer f true)
                | (Ok _, f) =>
                    match seek (aio_seek io) start f with
                    | (Err _, f) => (Err e, mk_writer f true)
                    | (Ok _, f) => (Err e, mk_writer f false)
                    end
                end
            | (Ok _, f) => (Ok (), mk_writer f false)
            end
        end
    end.

Definition sync_after_batch (out : option IoError) (w : OplogWriter)
    : result DurabilityError () * OplogWriter :=
  (map_err DurIo (syscall out), w).

(** ** Replay at startup *)

(** The loop of [replay_oplog_file]: it answers the count and the end of the
    last valid frame, or the I/O error it stopped with; [None] is running out
    of fuel. *)
Fixpoint replay_loop (fuel : nat) (fail : option nat) (registry : DeviceRegistry)
    (p : nat) (rest : bytes) (log : OpLog) (appended valid_end : nat)
    : option (result DurabilityError (nat * nat) * OpLog) :=
  match fuel with
  | 0 => None
  | S fuel =>
      match read_exact 4 fail p rest with
      | Err UnexpectedEof => Some (Ok (appended, valid_end), log)
      | Err e => Some (Err (DurIo e), log)
      | Ok (len_buf, rest) =>
          let n := le_val len_buf in
          match read_exact n fail (p + 4) rest with
          | Err _ => Some (Ok (appended, valid_end), log)
          | Ok (frame, rest) =>
              match op_from_bytes frame with
              | Err _ => Some (Ok (appended, valid_end), log)
              | Ok op =>
                  let p := p + 4 + Z.to_nat n in
                  let valid_end := valid_end + 4 + Z.to_nat n in
                  match key_for registry (op_device (op_body op)) with
                  | None => replay_loop fuel fail registry p rest log appended valid_end
                  | Some key =>
                      if is_ok (verify op key) then
                        let '(fresh, log) := log_append log op in
                        replay_loop fuel fail registry p rest log
                          (if fresh : bool then S appended else appended) valid_end
                      else replay_loop fuel fail registry p rest log appended valid_end
                  end
              end
          end
      end
  end.

Record ReplayIo : Type := mk_replay_io {
  rio_open : option IoError;
  rio_metadata : option IoError;
  rio_fail : option nat;
  rio_reopen : option IoError;
  rio_set_len : option IoError;
}.

(** [replay_oplog_file]: the answer, the log, and the file it leaves. *)
Definition replay_oplog_file (io : ReplayIo) (file : option bytes) (registry : DeviceRegistry)
    (log : OpLog) : option (result DurabilityError nat * OpLog * option bytes) :=
  match file with
  | None => Some (Ok 0, log, None)
  | Some data =>
      match rio_open io, rio_metadata io with
      | Some NotFound, _ => Some (Ok 0, log, file)
      | Some e, _ | None, Some e => Some (Err (DurIo e), log, file)
      | None, None =>
          '(r, log) ← replay_loop (S (length data)) (rio_fail io) registry 0 data log 0 0;
          match r with
          | Err e => Some (Err e, log, file)
          | Ok (appended, valid_end) =>
              if decide (valid_end < length data) then
                match rio_reopen io, rio_set_len io with
                | Some e, _ | None, Some e => Some (Err (DurIo e), log, file)
                | None, None => Some (Ok appended, log, Some (take valid_end data))
                end
              else Some (Ok appended, log, file)
          end
      end
  end.

(** ** Frames *)

Definition frame (bs : bytes) : bytes := le_bytes 4 (len bs mod u32_modulus)%Z ++ bs.
Definition frames (bss : list bytes) : bytes := concat (frame <$> bss).

(** What a crash in the middle of a frame leaves: a strict prefix of it. *)
Definition torn (t : bytes) : Prop :=
  ∃ bs k, (len bs < u32_modulus)%Z ∧ k < length (frame bs) ∧ t = take k (frame bs).

(** An op and its envelope, as the writer frames it. *)
Definition framed (op : SignedOp) (bs : bytes) : Prop :=
  op_to_bytes op = Ok bs ∧ op_v (op_body op) = ENVELOPE_VERSION ∧ (len bs < u32_modulus)%Z.

Lemma length_le_bytes n z : length (le_bytes n z) = n.
Proof. apply length_le_split. Qed.

Lemma length_frame bs : length (frame bs) = 4 + length bs.
Proof. unfold frame. by rewrite length_app, length_le_bytes. Qed.

Lemma frames_app bss1 bss2 : frames (bss1 ++ bss2) = frames bss1 ++ frames bss2.
Proof. unfold frames. by rewrite fmap_app, concat_app. Qed.

Lemma frames_cons bs bss : frames (bs :: bss) = frame bs ++ frames bss.
Proof. done. Qed.

Lemma frames_count bss : length bss ≤ length (frames bss).
Proof.
  induction bss as [|bs bss IH]; [done|]. rewrite frames_cons, length_app, length_frame. cbn. lia.
Qed.

(** Cutting the file at any byte leaves whole frames and a torn one. *)
Lemma frames_cut bss k :
  Forall (λ bs, (len bs < u32_modulus)%Z) bss → k < length (frames bss) →
  ∃ m t, m < length bss ∧ torn t ∧ take k (frames bss) = frames (take m bss) ++ t ∧
    (∀ j, j ≤ length bss → length (frames (take j bss)) ≤ k → j ≤ m).
Proof.
  revert k; induction bss as [|bs bss IH]; intros k Hb Hk; [cbn in Hk; lia|].
  apply Forall_cons in Hb as [Hbs Hb]. rewrite frames_cons in *. rewrite length_app in Hk.
  destruct (decide (k < length (frame bs))) as [Hlt|Hge].
  - exists 0, (take k (frame bs)). split_and!; [cbn; lia|by exists bs, k| |].
    + rewrite take_app_le by lia. done.
    + intros [|j] Hj; [lia|]. rewrite firstn_cons, frames_cons, length_app. lia.
  - destruct (IH (k - length (frame bs)) Hb ltac:(lia)) as (m & t & Hm & Ht & Htake & Hmax).
    exists (S m), t. split_and!; [cbn; lia|done| |].
    + rewrite firstn_cons, frames_cons, <-app_assoc, <-Htake.
      rewrite take_app. f_equal. by rewrite take_ge by lia.
    + intros [|j] Hj; [lia|]. rewrite firstn_cons, frames_cons, length_app. cbn in Hj.
      intros Hjk. specialize (Hmax j ltac:(lia) ltac:(lia)). lia.
Qed.

(** ** The writer's invariant *)

(** The file holds the frames of the accepted ops; after them nothing, unless
    the writer is poisoned: then part of the frame whose rollback failed. *)
Definition writer_inv (w : OplogWriter) (ops : list SignedOp) : Prop :=
  ∃ bss xops xbss k,
    Forall2 framed ops bss ∧ Forall2 framed xops xbss ∧
    f_data (w_file w) = frames bss ++ take k (frames xbss) ∧
    (poisoned w = false → k = 0 ∧ f_pos (w_file w) = length (f_data (w_file w))).

Lemma file_write_end buf f :
  f_pos f = length (f_data f) →
  file_write buf f = mk_File (f_data f ++ buf) (length (f_data f) + length buf).
Proof.
  destruct f as [data pos]; cbn. intros ->. unfold file_write; cbn.
  case_decide as Hb.
  - subst. by rewrite app_nil_r, Nat.add_0_r.
  - rewrite firstn_all, Nat.sub_diag, drop_ge by lia. cbn. by rewrite app_nil_r.
Qed.

(** However a frame's write ends, what was there before it is kept, and what
    follows is a prefix of the frame. *)
Lemma write_frame_ok io bs f r f' :
  f_pos f = length (f_data f) → write_frame io bs f = (r, f') →
  ∃ k, f_data f' = f_data f ++ take k (frame bs) ∧
    (is_ok r = true → k = length (frame bs) ∧ f_pos f' = length (f_data f')).
Proof.
  intros Hpos. unfold write_frame, write_all. rewrite length_frame.
  destruct (aio_prefix io) as [[n e]|].
  { rewrite file_write_end by done. intros [= <- <-]. exists (min n 4). split; [|done]. cbn [f_data].
    unfold frame. rewrite take_app_le by (rewrite length_le_bytes; lia). f_equal.
    by rewrite <-take_take. }
  rewrite file_write_end by done.
  destruct (aio_body io) as [[n e]|].
  { rewrite file_write_end by (cbn; by rewrite length_app). intros [= <- <-].
    exists (4 + n). split; [|done]. cbn [f_data]. by rewrite <-app_assoc. }
  rewrite file_write_end by (cbn; by rewrite length_app).
  intros [= <- <-]. exists (4 + length bs). cbn [f_data f_pos]. split.
  - rewrite take_ge by (rewrite length_frame; lia). by rewrite <-app_assoc.
  - intros _. split; [done|]. by rewrite !length_app.
Qed.

Lemma writer_open_inv open_out seek_out ops bss w :
  Forall2 framed ops bss → writer_open open_out seek_out (Some (frames bss)) = Ok w →
  writer_inv w ops ∧ poisoned w = false.
Proof.
  intros Hops. unfold writer_open. destruct open_out; cbn; [done|]. destruct seek_out; cbn; [done|].
  intros [= <-]. split; [|done]. exists bss, [], [], 0. cbn. rewrite app_nil_r. auto.
Qed.

(** The envelope of the op, if it has one, fits a frame. *)
Definition frameable (op : SignedOp) : Prop :=
  ∀ bs, op_to_bytes op = Ok bs → framed op bs.

Lemma writer_append_inv io w op ops r w' :
  frameable op → writer_inv w ops → writer_append io w op = (r, w') →
  writer_inv w' (if is_ok r then ops ++ [op] else ops).
Proof.
  intros Hfr Hinv. pose proof Hinv as (bss & xops & xbss & k & Hops & Hx & Hdata & Hclean).
  unfold writer_append. destruct (poisoned w); [by intros [= <- <-]|].
  destruct (Hclean eq_refl) as [-> Hpos]. cbn in Hdata. rewrite app_nil_r in Hdata.
  destruct (op_to_bytes op) as [bs|e] eqn:Hbs; [|by intros [= <- <-]]. specialize (Hfr bs Hbs).
  destruct (aio_metadata io); [by intros [= <- <-]|].
  destruct (write_frame io bs (w_file w)) as [rf f] eqn:Hw.
  destruct (write_frame_ok _ _ _ _ _ Hpos Hw) as (k & Hf & Hok).
  assert (Hone : Forall2 framed [op] [bs]) by (apply Forall2_cons_2; [done|constructor]).
  assert (Hframe : frames [bs] = frame bs) by (unfold frames; cbn; by rewrite app_nil_r).
  destruct rf as [[]|e].
  - intros [= <- <-]. destruct (Hok eq_refl) as [-> Hpos'].
    exists (bss ++ [bs]), [], [], 0. split_and!; [by apply Forall2_app|done| |done]. cbn.
    by rewrite Hf, Hdata, frames_app, Hframe, firstn_all, app_nil_r.
  - unfold set_len, seek. destruct (aio_set_len io).
    + intros [= <- <-]. exists bss, [op], [bs], k. rewrite Hframe, <-Hdata. by split_and!.
    + rewrite Hf, take_app_length, length_app.
      replace (length (f_data (w_file w)) - _) with 0 by lia. rewrite app_nil_r.
      destruct (aio_seek io); intros [= <- <-]; exists bss, [], [], 0; cbn; rewrite app_nil_r; by split_and!.
Qed.

(** ** Replay reads back what the writer wrote *)

(** No device error among the [n] bytes from [p]. *)
Definition no_fault (fail : option nat) (p n : nat) : Prop :=
  match fail with Some f => ¬ (p ≤ f < p + n) | None => True end.

Lemma read_exact_app n fail p a b :
  n = len a → no_fault fail p (length a) → read_exact n fail p (a ++ b) = Ok (a, b).
Proof.
  intros -> Hf. unfold read_exact, len in *.
  assert (Hno : (if fail is Some f then
    bool_decide (Z.of_nat p ≤ Z.of_nat f < Z.of_nat p + Z.of_nat (length a))%Z
      && bool_decide (f ≤ p + length (a ++ b)) else false) = false).
  { destruct fail as [f|]; [|done]. cbn in Hf. rewrite bool_decide_eq_false_2 by lia. done. }
  rewrite Hno, decide_True by (rewrite length_app; lia).
  by rewrite Nat2Z.id, take_app_length, drop_app_length.
Qed.

Lemma read_exact_eof n p rest : (len rest < n)%Z → read_exact n None p rest = Err UnexpectedEof.
Proof. intros Hn. unfold read_exact. by rewrite decide_False by lia. Qed.

Lemma read_exact_rest n fail p rest a b :
  read_exact n fail p rest = Ok (a, b) → length rest = Z.to_nat n + length b.
Proof.
  unfold read_exact, len. case_match; [done|]. case_decide as Hd; [|done].
  intros [= _ <-]. rewrite length_drop. lia.
Qed.

Lemma le_val_prefix (bs : bytes) :
  (len bs < u32_modulus)%Z → le_val (le_bytes 4 (len bs mod u32_modulus)) = len bs.
Proof.
  intros Hb. pose proof (len_nonneg bs). rewrite Z.mod_small by done.
  apply le_val_le_bytes. done.
Qed.

(** One frame of the loop: what it does with the op. *)
Definition admits (registry : DeviceRegistry) (op : SignedOp) : bool :=
  match key_for registry (op_device (op_body op)) with
  | Some key => is_ok (verify op key)
  | None => false
  end.
Definition restore (registry : DeviceRegistry) (acc : nat * OpLog) (op : SignedOp) : nat * OpLog :=
  if admits registry op then
    let '(fresh, log) := log_append acc.2 op in (if fresh : bool then S acc.1 else acc.1, log)
  else acc.

(** The ops replay admits. *)
Definition admitted (registry : DeviceRegistry) (ops : list SignedOp) : list SignedOp :=
  filter (λ op, Is_true (admits registry op)) ops.

Lemma replay_loop_frame `{!WireOk EnvelopeRepr} fuel fail registry p op bs rest log n v :
  framed op bs → no_fault fail p (length (frame bs)) →
  replay_loop (S fuel) fail registry p (frame bs ++ rest) log n v =
  let acc := restore registry (n, log) op in
  replay_loop fuel fail registry (p + length (frame bs)) rest acc.2 acc.1 (v + length (frame bs)).
Proof.
  intros (Hb & Hv & Hlen) Hf. rewrite length_frame in *. cbn [replay_loop]. unfold frame.
  rewrite <-app_assoc, read_exact_app.
  - rewrite le_val_prefix by done. rewrite read_exact_app; [|done|].
    + rewrite (op_to_bytes_inv op bs Hb), decide_True by done.
      unfold restore, admits. unfold len. rewrite Nat2Z.id, !Nat.add_assoc. cbn [fst snd].
      destruct (key_for _ _); [|done]. destruct (is_ok _); [|done].
      by destruct (log_append log op) as [[] ?].
    + destruct fail; cbn in *; [lia|done].
  - unfold len. by rewrite length_le_bytes.
  - rewrite length_le_bytes. destruct fail; cbn in *; [lia|done].
Qed.

Lemma replay_loop_frames `{!WireOk EnvelopeRepr} fuel fail registry p ops bss rest log n v :
  Forall2 framed ops bss → no_fault fail p (length (frames bss)) →
  replay_loop (length bss + fuel) fail registry p (frames bss ++ rest) log n v =
  let acc := foldl (restore registry) (n, log) ops in
  replay_loop fuel fail registry (p + length (frames bss)) rest acc.2 acc.1 (v + length (frames bss)).
Proof.
  intros Hops. revert p log n v. induction Hops as [|op bs ops bss Hop _ IH]; intros p log n v Hf.
  - cbn. by rewrite !Nat.add_0_r.
  - rewrite frames_cons in *. rewrite length_app in Hf. rewrite <-app_assoc.
    cbn [length Nat.add]. rewrite (replay_loop_frame _ _ _ _ op); [|done|destruct fail; cbn in *; [lia|done]].
    cbn zeta. rewrite IH by (destruct fail; cbn in *; [lia|done]). cbn [foldl].
    rewrite length_app, !Nat.add_assoc. by destruct (restore registry (n, log) op).
Qed.

Lemma replay_loop_torn fuel registry p t log n v :
  torn t → replay_loop (S fuel) None registry p t log n v = Some (Ok (n, v), log).
Proof.
  intros (bs & k & Hb & Hk & ->). rewrite length_frame in Hk. cbn [replay_loop].
  destruct (decide (k < 4)) as [Hlt|Hge].
  - rewrite read_exact_eof; [done|]. unfold len. rewrite length_take. lia.
  - unfold frame. rewrite take_app, length_le_bytes, take_ge by (rewrite length_le_bytes; lia).
    rewrite read_exact_app by (by unfold len; rewrite ?length_le_bytes). rewrite le_val_prefix by done.
    rewrite read_exact_eof; [done|]. unfold len. rewrite length_take. lia.
Qed.

(** The loop always ends: every frame takes at least its prefix off the file. *)
Lemma replay_loop_total fuel fail registry p rest log n v :
  length rest < fuel → is_Some (replay_loop fuel fail registry p rest log n v).
Proof.
  revert p rest log n v; induction fuel as [|fuel IH]; intros p rest log n v Hlen; [lia|].
  cbn [replay_loop]. destruct (read_exact 4 fail p rest) as [[a b]|[]] eqn:Hr; [|done..].
  apply read_exact_rest in Hr. change (Z.to_nat 4) with 4 in Hr.
  destruct (read_exact _ _ _ b) as [[fr rest']|] eqn:Hr'; [|done].
  apply read_exact_rest in Hr'. destruct (op_from_bytes fr); [|done].
  destruct (key_for _ _); [|apply IH; lia]. destruct (is_ok _); [|apply IH; lia].
  destruct (log_append _ _). apply IH. lia.
Qed.

Lemma replay_loop_mono fuel fuel' fail registry p rest log n v r :
  fuel ≤ fuel' → replay_loop fuel fail registry p rest log n v = Some r →
  replay_loop fuel' fail registry p rest log n v = Some r.
Proof.
  revert fuel' p rest log n v; induction fuel as [|fuel IH]; intros [|fuel'] p rest log n v Hle;
    [done|done|lia|]. cbn [replay_loop].
  destruct (read_exact 4 fail p rest) as [[a b]|[]]; [|done..].
  destruct (read_exact _ _ _ b) as [[fr rest']|]; [|done]. destruct (op_from_bytes fr); [|done].
  destruct (key_for _ _); [|apply IH; lia]. destruct (is_ok _); [|apply IH; lia].
  destruct (log_append _ _). apply IH. lia.
Qed.

(** Restoring is appending the admitted ops; the count is how many were new. *)
Lemma restore_fold registry ops n log arr :
  log_rep log arr →
  let acc := foldl (restore registry) (n, log) ops in
  acc.2 = append_all log (admitted registry ops) ∧
  acc.1 + log_len log = n + log_len acc.2.
Proof.
  revert n log arr; induction ops as [|op ops IH]; intros n log arr Hr; [done|].
  cbn [foldl]. unfold admitted. rewrite filter_cons. fold (admitted registry ops). unfold restore at 2 4 6. cbn [fst snd].
  destruct (admits registry op) eqn:Ha.
  - rewrite decide_True by done. destruct (log_append_rep log arr op Hr) as [Hfresh Hr'].
    pose proof (rep_len Hr) as Hl. pose proof (rep_len Hr') as Hl'.
    destruct (log_append log op) as [fresh log'] eqn:Hap. cbn in Hfresh, Hr', Hl'.
    assert (Happ : append_all log (op :: admitted registry ops) =
      append_all log' (admitted registry ops))
      by (unfold append_all; cbn [foldl]; by rewrite Hap).
    destruct (IH (if fresh then S n else n) log' _ Hr') as [Hacc Hn]. rewrite Happ. split; [done|].
    unfold arr_append in *. case_decide; subst fresh; cbn in *; rewrite ?length_app in Hl'; cbn in *; lia.
  - rewrite decide_False by auto. by eapply IH.
Qed.

Definition io_quiet : ReplayIo := mk_replay_io None None None None None.

(** Replay of whole frames followed by a torn one. *)
Lemma replay_recovers `{!WireOk EnvelopeRepr} registry log arr ops bss t :
  log_rep log arr → Forall2 framed ops bss → torn t →
  ∃ n, replay_oplog_file io_quiet (Some (frames bss ++ t)) registry log =
    Some (Ok n, append_all log (admitted registry ops), Some (frames bss)) ∧
    n + log_len log = log_len (append_all log (admitted registry ops)).
Proof.
  intros Hr Hops Ht. destruct (restore_fold registry ops 0 log arr Hr) as [Hlog Hn].
  destruct (foldl (restore registry) (0, log) ops) as [n log'] eqn:Hfold. cbn in Hlog, Hn. subst log'.
  exists n. split; [|done]. unfold replay_oplog_file, io_quiet. cbn [rio_open rio_metadata rio_fail].
  assert (Hloop : replay_loop (S (length (frames bss ++ t))) None registry 0 (frames bss ++ t) log 0 0 =
    Some (Ok (n, length (frames bss)), append_all log (admitted registry ops))).
  { apply (replay_loop_mono (length bss + 1)).
    - pose proof (frames_count bss). rewrite length_app. lia.
    - rewrite (replay_loop_frames _ _ _ _ ops) by done. cbn zeta. rewrite Hfold. cbn [fst snd].
      by apply replay_loop_torn. }
  rewrite Hloop. cbn [mbind option_bind]. rewrite length_app. case_decide as Hlt.
  - cbn [rio_reopen rio_set_len]. by rewrite take_app_length.
  - assert (t = []) as -> by (apply length_zero_iff_nil; lia). by rewrite app_nil_r.
Qed.

Lemma framed_small ops bss :
  Forall2 framed ops bss → Forall (λ bs : bytes, (len bs < u32_modulus)%Z) bss.
Proof. induction 1 as [|?? ?? (?&?&?)]; by constructor. Qed.

Lemma torn_nil : torn [].
Proof. exists [], 0. rewrite length_frame. split_and!; [by vm_compute|cbn; lia|done]. Qed.

(** A file cut at any byte comes back as whole frames. *)
Lemma replay_cut `{!WireOk EnvelopeRepr} registry log arr ops bss k :
  log_rep log arr → Forall2 framed ops bss →
  ∃ m n, (∀ j, j ≤ length bss → length (frames (take j bss)) ≤ k → j ≤ m) ∧
    let kept := append_all log (admitted registry (take m ops)) in
    replay_oplog_file io_quiet (Some (take k (frames bss))) registry log =
      Some (Ok n, kept, Some (frames (take m bss))) ∧
    n + log_len log = log_len kept.
Proof.
  intros Hr Hops. destruct (decide (k < length (frames bss))) as [Hk|Hk].
  - destruct (frames_cut bss k (framed_small _ _ Hops) Hk) as (m & t & Hm & Ht & Hcut & Hmax).
    destruct (replay_recovers registry log arr (take m ops) (take m bss) t Hr
      (Forall2_take _ _ _ m Hops) Ht) as (n & Hrep & Hn).
    exists m, n. rewrite Hcut. auto.
  - destruct (replay_recovers registry log arr ops bss [] Hr Hops torn_nil) as (n & Hrep & Hn).
    rewrite app_nil_r in Hrep. exists (length bss), n. split; [done|].
    rewrite (take_ge (frames bss)), (take_ge bss) by lia.
    rewrite take_ge by (rewrite (Forall2_length _ _ _ Hops); lia). done.
Qed.

(** ** Properties *)

(** A run of appends, whatever the outcomes of their system calls: the ops the
    writer accepted, and the writer it leaves. *)
Fixpoint writer_run (w : OplogWriter) (steps : list (AppendIo * SignedOp))
    : list SignedOp * OplogWriter :=
  match steps with
  | [] => ([], w)
  | (io, op) :: steps =>
      let '(r, w) := writer_append io w op in
      let '(accepted, w) := writer_run w steps in
      (if is_ok r then op :: accepted else accepted, w)
  end.

(** Whatever the ops are, the file holds the frames of the accepted ones; after
    them nothing, unless the writer is poisoned. *)
Definition written (w : OplogWriter) (ops : list SignedOp) : Prop :=
  ∃ bss tail, Forall2 (λ op bs, op_to_bytes op = Ok bs) ops bss ∧ f_data (w_file w) = frames bss ++ tail ∧
    (poisoned w = false → tail = [] ∧ f_pos (w_file w) = length (f_data (w_file w))).

Lemma writer_append_written io w op ops r w' :
  written w ops → writer_append io w op = (r, w') → written w' (if is_ok r then ops ++ [op] else ops).
Proof.
  intros Hinv. pose proof Hinv as (bss & tail & Hops & Hdata & Hclean).
  unfold writer_append. destruct (poisoned w); [by intros [= <- <-]|].
  destruct (Hclean eq_refl) as [-> Hpos]. rewrite app_nil_r in Hdata.
  destruct (op_to_bytes op) as [bs|e] eqn:Hbs; [|by intros [= <- <-]].
  destruct (aio_metadata io); [by intros [= <- <-]|].
  destruct (write_frame io bs (w_file w)) as [rf f] eqn:Hw.
  destruct (write_frame_ok _ _ _ _ _ Hpos Hw) as (k & Hf & Hok). destruct rf as [[]|e].
  - intros [= <- <-]. destruct (Hok eq_refl) as [-> Hpos']. exists (bss ++ [bs]), []. split_and!; [|..|done].
    + apply Forall2_app; [done|]. by constructor.
    + cbn. by rewrite Hf, Hdata, frames_app, firstn_all, app_nil_r, frames_cons, app_nil_r.
  - unfold set_len, seek. destruct (aio_set_len io).
    + intros [= <- <-]. exists bss, (take k (frame bs)). rewrite <-Hdata. by split_and!.
    + rewrite Hf, take_app_length, length_app.
      replace (length (f_data (w_file w)) - _) with 0 by lia. rewrite app_nil_r.
      destruct (aio_seek io); intros [= <- <-]; exists bss, []; cbn; rewrite app_nil_r; by split_and!.
Qed.

Lemma writer_run_written w ops steps :
  written w ops → written (writer_run w steps).2 (ops ++ (writer_run w steps).1).
Proof.
  revert w ops; induction steps as [|[io op] steps IH]; intros w ops Hw; [cbn; by rewrite app_nil_r|]. cbn.
  destruct (writer_append io w op) as [r w1] eqn:Hap. pose proof (IH _ _ (writer_append_written _ _ _ _ _ _ Hw Hap)) as Hinv.
  destruct (writer_run w1 steps) as [acc w2]. cbn in *. destruct (is_ok r); [|done]. by rewrite <-app_assoc in Hinv.
Qed.

(** On a device that reads, replay succeeds and loses nothing the log has. *)
Lemma replay_loop_keeps fuel registry p rest log arr n v r log' i :
  log_rep log arr → replay_loop fuel None registry p rest log n v = Some (r, log') →
  is_ok r = true ∧ (log_contains log i = true → log_contains log' i = true).
Proof.
  revert p rest log arr n v; induction fuel as [|fuel IH]; intros p rest log arr n v Hr; [done|]. cbn [replay_loop].
  destruct (read_exact 4 None p rest) as [[a b]|e] eqn:Hread.
  2:{ unfold read_exact in Hread. case_decide; [done|]. injection Hread as <-. by intros [= <- <-]. }
  destruct (read_exact _ _ _ b) as [[fr rest']|]; [|by intros [= <- <-]].
  destruct (op_from_bytes fr) as [op|]; [|by intros [= <- <-]].
  destruct (key_for _ _); [|by eapply IH]. destruct (is_ok (verify _ _)); [|by eapply IH].
  destruct (log_append_rep log arr op Hr) as [_ Hr']. destruct (log_append log op) as [fresh log1] eqn:Hap. intros Hloop.
  destruct (IH _ _ _ _ _ _ Hr' Hloop) as [? Hkeep]. split; [done|]. intros Hin. apply Hkeep.
  pose proof (log_contains_stays log arr [op] i Hr Hin) as Hst. unfold append_all in Hst. cbn in Hst. by rewrite Hap in Hst.
Qed.

Lemma replay_prefix `{!WireOk EnvelopeRepr} registry log arr ops bss tail :
  log_rep log arr → Forall2 framed ops bss →
  ∃ n log' file', replay_oplog_file io_quiet (Some (frames bss ++ tail)) registry log = Some (Ok n, log', Some file') ∧
    ∀ op, op ∈ ops → admits registry op = true → log_contains log' (op_id op) = true.
Proof.
  intros Hr Hops. unfold replay_oplog_file, io_quiet. cbn [rio_open rio_metadata rio_fail].
  destruct (replay_loop_total (S (length (frames bss ++ tail))) None registry 0 (frames bss ++ tail) log 0 0) as [[r log'] Hl]; [lia|].
  destruct (restore_fold registry ops 0 log arr Hr) as [Hlog _].
  pose proof (replay_loop_frames (S (length (frames bss ++ tail))) None registry 0 ops bss tail log 0 0 Hops I) as Hfr. cbn zeta in Hfr.
  apply (replay_loop_mono _ (length bss + S (length (frames bss ++ tail)))) in Hl as Hl'; [|lia]. rewrite Hl' in Hfr.
  rewrite Hl. cbn [mbind option_bind]. rewrite Hlog in Hfr.
  pose proof (append_all_rep_from log arr (admitted registry ops) Hr) as Hr'.
  assert (Hall : ∀ op, op ∈ ops → admits registry op = true → log_contains log' (op_id op) = true).
  { intros op Hop Hadm. eapply (replay_loop_keeps _ _ _ _ _ _ _ _ _ _ _ Hr' (eq_sym Hfr)).
    apply (log_contains_append_all _ _ _ _ Hr), list_elem_of_fmap. exists op. split; [done|].
    apply list_elem_of_filter. split; [by rewrite Hadm|done]. }
  destruct (replay_loop_keeps _ _ _ _ _ _ _ _ _ _ (zeros 32) Hr' (eq_sym Hfr)) as [Hok _]. destruct r as [[n v]|e]; [|done].
  case_decide; by do 3 eexists.
Qed.

(** C8: no accepted op is buried by what follows it.  Open a clean op-log file
    and append any ops, with any system call failing at any point (partial
    writes, failed rollbacks).  The next startup replay, on a device that reads,
    succeeds and restores, once its device is known, every op that was on file
    before and every op whose append succeeded, up to the first accepted one that
    replay cannot read back: one of another envelope version than 1, or whose
    encoding is of 4 GiB or more. *)
Theorem writer_run_durable `{!WireOk EnvelopeRepr} registry log arr ops0 bss0 o1 o2 w steps readable others :
  Forall2 framed ops0 bss0 → writer_open o1 o2 (Some (frames bss0)) = Ok w → log_rep log arr →
  (writer_run w steps).1 = readable ++ others → Forall frameable readable →
  ∃ n log' file',
    replay_oplog_file io_quiet (Some (f_data (w_file (writer_run w steps).2))) registry log =
      Some (Ok n, log', Some file') ∧
    ∀ op, op ∈ ops0 ++ readable → admits registry op = true → log_contains log' (op_id op) = true.
Proof.
  intros Hops0 Hopen Hr Hacc Hread.
  assert (Hw : written w ops0).
  { destruct (writer_open_inv _ _ _ _ _ Hops0 Hopen) as [_ Hp]. revert Hopen. unfold writer_open.
    destruct o1; cbn; [done|]. destruct o2; cbn; [done|]. intros [= <-]. exists bss0, []. cbn. rewrite app_nil_r.
    split_and!; [|done|done]. eapply Forall2_impl; [exact Hops0|]. by intros op bs (? & _). }
  apply (writer_run_written _ _ steps) in Hw as (bss & tail & Hbss & Hdata & _). rewrite Hacc, app_assoc in Hbss.
  apply Forall2_app_inv_l in Hbss as (bss1 & bss2 & Hb1 & _ & ->). rewrite Hdata, frames_app, <-app_assoc.
  apply (replay_prefix registry log arr (ops0 ++ readable) bss1 (frames bss2 ++ tail) Hr).
  apply Forall2_app_inv_l in Hb1 as (b0 & b1 & Hb0 & Hb1 & ->). apply Forall2_app.
  - clear -Hops0 Hb0. revert b0 Hb0. induction Hops0 as [|op bs ops bss Hop _ IH]; intros b0 Hb; inversion Hb as [|? bs' ? b0' Hbs']; subst; [constructor|].
    constructor; [|auto]. destruct Hop as (He & Hv & Hl). assert (bs' = bs) as -> by congruence. by split_and!.
  - clear -Hread Hb1. induction Hb1; [constructor|]. apply Forall_cons in Hread as [Hf ?]. constructor; [by apply Hf|auto].
Qed.

(** An op of another envelope version is appended like any other, and is where
    the next replay stops: it answers success, truncates the file there, and the
    ops accepted after it are gone. *)
Lemma other_version_buries `{!WireOk EnvelopeRepr} registry log arr ops bss op bs bss2 :
  log_rep log arr → Forall2 framed ops bss → op_to_bytes op = Ok bs → op_v (op_body op) ≠ ENVELOPE_VERSION → (len bs < u32_modulus)%Z →
  ∃ n, replay_oplog_file io_quiet (Some (frames (bss ++ bs :: bss2))) registry log =
    Some (Ok n, append_all log (admitted registry ops), Some (frames bss)).
Proof.
  intros Hr Hops Hbs Hv Hlen. destruct (restore_fold registry ops 0 log arr Hr) as [Hlog _].
  destruct (foldl (restore registry) (0, log) ops) as [n log'] eqn:Hfold. cbn in Hlog. subst log'. exists n.
  unfold replay_oplog_file, io_quiet. cbn [rio_open rio_metadata rio_fail]. rewrite frames_app, frames_cons.
  assert (Hloop : replay_loop (length bss + 1) None registry 0 (frames bss ++ frame bs ++ frames bss2) log 0 0 =
    Some (Ok (n, length (frames bss)), append_all log (admitted registry ops))).
  { rewrite (replay_loop_frames _ _ _ _ ops) by done. cbn zeta. rewrite Hfold. cbn [replay_loop fst snd].
    unfold frame. rewrite <-app_assoc, read_exact_app; [|unfold len; by rewrite length_le_bytes|done].
    rewrite le_val_prefix, read_exact_app by done. by rewrite (op_to_bytes_inv op bs Hbs), decide_False by done. }
  pose proof (frames_count bss).
  apply (replay_loop_mono _ (S (length (frames bss ++ frame bs ++ frames bss2)))) in Hloop; [|rewrite length_app; lia].
  rewrite Hloop. cbn [mbind option_bind]. rewrite !length_app, length_frame. case_decide; [|lia].
  cbn [rio_reopen rio_set_len]. by rewrite take_app_length.
Qed.

(** C9: crash recovery: cut the op-log file at any byte (a crash before the
    tail reached the disk) and replay restores exactly a prefix of the framed
    ops, at least every one whose frame lies before the cut; it appends the
    admitted ones to the log, counts the new ones, and leaves a file that ends
    at a frame boundary. *)
Theorem crash_recovery `{!WireOk EnvelopeRepr} registry log arr ops bss k :
  log_rep log arr → Forall2 framed ops bss →
  ∃ m n, (∀ j, j ≤ length bss → length (frames (take j bss)) ≤ k → j ≤ m) ∧
    let kept := append_all log (admitted registry (take m ops)) in
    replay_oplog_file io_quiet (Some (take k (frames bss))) registry log =
      Some (Ok n, kept, Some (frames (take m bss))) ∧
    n + log_len log = log_len kept.
Proof. apply replay_cut. Qed.

(** Replay always ends: on any file, with the device failing anywhere, the
    loop answers within its fuel. *)
Lemma replay_oplog_file_total (io : ReplayIo) (file : option bytes) registry log :
  is_Some (replay_oplog_file io file registry log).
Proof.
  unfold replay_oplog_file. destruct file as [data|]; [|done].
  assert (Hl : is_Some (replay_loop (S (length data)) (rio_fail io) registry 0 data log 0 0))
    by (apply replay_loop_total; lia).
  destruct Hl as [[r log'] ->]. cbn [mbind option_bind].
  destruct (rio_open io) as [[]|], (rio_metadata io); try done.
  destruct r as [[n v]|]; [|done]. case_decide; [|done].
  by destruct (rio_reopen io), (rio_set_len io).
Qed.

(** A device error while reading the body of a frame is taken for a torn
    tail: replay reports success and truncates the file before that frame, so
    that frame and every valid frame after it are destroyed. *)
Lemma replay_read_error_truncates `{!WireOk EnvelopeRepr} registry log arr ops1 bss1 bs bss2 f :
  log_rep log arr → Forall2 framed ops1 bss1 → (len bs < u32_modulus)%Z →
  length (frames bss1) + 4 ≤ f < length (frames bss1) + length (frame bs) →
  ∃ n log', replay_oplog_file (mk_replay_io None None (Some f) None None)
      (Some (frames (bss1 ++ bs :: bss2))) registry log =
    Some (Ok n, log', Some (frames bss1)).
Proof.
  intros Hr Hops Hbs Hf. rewrite length_frame in Hf.
  destruct (foldl (restore registry) (0, log) ops1) as [n log'] eqn:Hfold. exists n, log'.
  unfold replay_oplog_file. cbn [rio_open rio_metadata rio_fail].
  rewrite frames_app, frames_cons.
  assert (Hloop : replay_loop (length bss1 + 1) (Some f) registry 0
      (frames bss1 ++ frame bs ++ frames bss2) log 0 0 = Some (Ok (n, length (frames bss1)), log')).
  { rewrite (replay_loop_frames _ _ _ _ ops1) by (done || (cbn; lia)). cbn zeta. rewrite Hfold.
    cbn [replay_loop fst snd]. unfold frame. rewrite <-app_assoc, read_exact_app.
    - rewrite le_val_prefix by done. unfold read_exact, len.
      rewrite bool_decide_eq_true_2 by lia. rewrite bool_decide_eq_true_2 by (rewrite length_app; lia). done.
    - unfold len. by rewrite length_le_bytes.
    - rewrite length_le_bytes. cbn. lia. }
  pose proof (frames_count bss1).
  apply (replay_loop_mono _ (S (length (frames bss1 ++ frame bs ++ frames bss2)))) in Hloop;
    [|rewrite length_app; lia].
  rewrite Hloop. cbn [mbind option_bind]. rewrite !length_app, length_frame.
  case_decide; [|lia]. cbn [rio_reopen rio_set_len]. by rewrite take_app_length.
Qed.
End durable.

(** ** Witnesses *)

Module DurableToy.
Export LogToy.

Definition env_of (op : SignedOp) : bytes := default [] (ok (op_to_bytes op)).
Definition both : DeviceRegistry :=
  (insert_key (insert_key registry_new (sk_verifying_key alice)).2 (sk_verifying_key bob)).2.

Lemma framed_a : framed op_a (env_of op_a).
Proof. split_and!; by vm_compute. Qed.
Lemma framed_b : framed op_b (env_of op_b).
Proof. split_and!; by vm_compute. Qed.
Lemma framed_ab : Forall2 framed [op_a; op_b] [env_of op_a; env_of op_b].
Proof. apply Forall2_cons_2; [apply framed_a|]. apply Forall2_cons_2; [apply framed_b|constructor]. Qed.
Lemma frameable_b : frameable op_b.
Proof.
  intros bs Hbs. replace bs with (env_of op_b); [apply framed_b|]. unfold env_of. by rewrite Hbs.
Qed.

(** [op_b] appended twice: once the disk is full after three bytes and the
    rollback works, once it succeeds. *)
Definition toy_steps : list (AppendIo * SignedOp) :=
  [(mk_append_io None (Some (3, IoOther "disk full")) None None None None, op_b);
   (mk_append_io None None None None None None, op_b)].
Definition toy_writer : OplogWriter :=
  mk_writer (mk_File (frames [env_of op_a]) (length (frames [env_of op_a]))) false.

Lemma writer_run_durable_witness :
  ∃ n log' file',
    replay_oplog_file io_quiet (Some (f_data (w_file (writer_run toy_writer toy_steps).2))) both
      (toy_log []) = Some (Ok n, log', Some file') ∧
    ∀ op, op ∈ [op_a] ++ (writer_run toy_writer toy_steps).1 → admits both op = true →
      log_contains log' (op_id op) = true.
Proof.
  apply (writer_run_durable both (toy_log []) (arrivals []) [op_a] [env_of op_a] None None toy_writer toy_steps
    (writer_run toy_writer toy_steps).1 []).
  - apply Forall2_cons_2; [apply framed_a|constructor].
  - done.
  - apply append_all_rep.
  - by rewrite app_nil_r.
  - replace (writer_run toy_writer toy_steps).1 with [op_b] by (vm_compute; reflexivity). by constructor; [apply frameable_b|].
Defined.

Lemma crash_recovery_witness :
  ∃ m n, (∀ j, j ≤ 2 → length (frames (take j [env_of op_a; env_of op_b])) ≤ 200 → j ≤ m) ∧
    let kept := append_all (toy_log []) (admitted both (take m [op_a; op_b])) in
    replay_oplog_file io_quiet (Some (take 200 (frames [env_of op_a; env_of op_b]))) both (toy_log []) =
      Some (Ok n, kept, Some (frames (take m [env_of op_a; env_of op_b]))) ∧
    n + log_len (toy_log []) = log_len kept.
Proof.
  apply (crash_recovery both (toy_log []) (arrivals []) [op_a; op_b] [env_of op_a; env_of op_b] 200).
  - apply append_all_rep.
  - apply framed_ab.
Defined.

End DurableToy.
