(* ===== verification/Hlc.v ===== *)
(** * The node clock ([src/hlc.rs])

    Readings of the hybrid logical clock, drawn for local ops and folded with
    the readings of remote ones.  The [uhlc] crate is a parameter; the clock
    has interior mutability, so its methods answer the clock they leave. *)

From S2P Require Import Prelude Ordered External Toy Identity Op.

Definition DEFAULT_MAX_DELTA : Z := 3600.

(** [HlcError] ([src/error.rs]) *)
Inductive HlcError : Type := RemoteDrift (msg : string).
Definition HlcError_display (e : HlcError) : string :=
  match e with RemoteDrift msg => "remote clock rejected by drift guard: " +:+ msg end.

Section hlc.
Context `{Uhlc}.

(** [clock_id]: [None] is the panic of [expect("one non-zero byte is a valid id")]. *)
Definition clock_id (device : DeviceId) : option UhlcID :=
  match uhlc_id (take 16 (vec_to_list device)) with
  | Some i => Some i
  | None => uhlc_id [Byte.x01]
  end.

Record NodeClock : Type := mk_NodeClock { nc_hlc : HLC }.

Definition clock_with_max_delta (device : DeviceId) (max_delta : Z) : option NodeClock :=
  i ← clock_id device; Some (mk_NodeClock (hlc_build i max_delta)).
Definition clock_new (device : DeviceId) : option NodeClock :=
  clock_with_max_delta device DEFAULT_MAX_DELTA.

Definition clock_now (c : NodeClock) : Hlc * NodeClock :=
  let '(t, h) := hlc_new_timestamp (nc_hlc c) in (t, mk_NodeClock h).

(** [NodeClock::update]: [None] is the panic of [clock_id]. *)
Definition clock_update (c : NodeClock) (remote : Hlc) (from : DeviceId)
    : option (result HlcError Hlc * NodeClock) :=
  i ← clock_id from;
  match hlc_update_with_timestamp (nc_hlc c) remote i with
  | Err e => Some (Err (RemoteDrift e), c)
  | Ok h => let '(t, c) := clock_now (mk_NodeClock h) in Some (Ok t, c)
  end.

(** ** Readings of a run *)

Inductive ClockCall : Type :=
  | CallNow
  | CallUpdate (remote : Hlc) (from : DeviceId).

(** The readings a sequence of calls answers, refused updates left out, each
    with the remote reading it folded in. *)
Fixpoint clock_run (c : NodeClock) (calls : list ClockCall) : option (list (Hlc * option Hlc)) :=
  match calls with
  | [] => Some []
  | CallNow :: calls =>
      let '(t, c) := clock_now c in
      rest ← clock_run c calls; Some ((t, None) :: rest)
  | CallUpdate remote from :: calls =>
      '(r, c) ← clock_update c remote from;
      rest ← clock_run c calls;
      Some (match r with Ok t => (t, Some remote) :: rest | Err _ => rest end)
  end.

Section laws.
Context (last : HLC → Z) `{!UhlcOk last}.

Lemma clock_id_total device : is_Some (clock_id device).
Proof. unfold clock_id. case_match; [done|]. apply uhlc_id_one. Qed.

Lemma clock_update_total c remote from : is_Some (clock_update c remote from).
Proof.
  unfold clock_update. destruct (clock_id_total from) as [i ->]. cbn.
  destruct (hlc_update_with_timestamp _ _ _); [|done]. by destruct (clock_now _).
Qed.

Lemma clock_now_ok c t c' :
  clock_now c = (t, c') → (last (nc_hlc c) < t)%Z ∧ last (nc_hlc c') = t.
Proof.
  unfold clock_now. pose proof (hlc_new_monotone (nc_hlc c)) as Hm.
  pose proof (hlc_new_last (nc_hlc c)) as Hl.
  destruct (hlc_new_timestamp (nc_hlc c)) as [t0 h]. by intros [= <- <-].
Qed.

Lemma clock_update_ok c remote from r c' :
  clock_update c remote from = Some (r, c') →
  match r with
  | Ok t => (last (nc_hlc c) < t ∧ remote < t)%Z ∧ last (nc_hlc c') = t
  | Err _ => c' = c
  end.
Proof.
  unfold clock_update. intros (i & _ & Hu)%bind_Some.
  destruct (hlc_update_with_timestamp _ _ _) as [h|e] eqn:Hup; [|by simplify_eq].
  apply hlc_update_last in Hup. destruct (clock_now (mk_NodeClock h)) as [t c1] eqn:Hn. simplify_eq.
  apply clock_now_ok in Hn as [Hlt ->]. cbn in Hlt. lia.
Qed.

Lemma clock_run_above c calls readings :
  clock_run c calls = Some readings →
  StronglySorted Z.lt readings.*1 ∧
  Forall (λ r, (last (nc_hlc c) < r.1)%Z ∧ match r.2 with Some remote => (remote < r.1)%Z | None => True end)
    readings.
Proof.
  revert c readings; induction calls as [|[|remote from] calls IH]; intros c readings; cbn.
  - intros [= <-]. split; constructor.
  - destruct (clock_now c) as [t c'] eqn:Hn. intros (rest & Hr & [= <-])%bind_Some.
    apply clock_now_ok in Hn as [Hlt Hl]. apply IH in Hr as [Hs Hall]. rewrite Hl in Hall. split.
    + cbn. constructor; [done|]. apply Forall_fmap. eapply Forall_impl; [done|]. cbn. naive_solver.
    + constructor; [done|]. eapply Forall_impl; [done|]. cbn. intros r [? ?]. split; [lia|done].
  - intros ([r c'] & Hu & (rest & Hr & [= <-])%bind_Some)%bind_Some.
    apply clock_update_ok in Hu. apply IH in Hr as [Hs Hall]. destruct r as [t|e]; [|by subst].
    destruct Hu as [[Hlt Hrem] Hl]. rewrite Hl in Hall. split.
    + cbn. constructor; [done|]. apply Forall_fmap. eapply Forall_impl; [done|]. cbn. naive_solver.
    + constructor; [done|]. eapply Forall_impl; [done|]. cbn. intros r [? ?]. split; [lia|done].
Qed.

Lemma clock_run_total c calls : is_Some (clock_run c calls).
Proof.
  revert c; induction calls as [|[|remote from] calls IH]; intros c; cbn; [done|..].
  - destruct (clock_now c) as [t c']. destruct (IH c') as [? ->]. done.
  - unfold clock_update. destruct (clock_id_total from) as [i ->]. cbn.
    destruct (hlc_update_with_timestamp _ _ _) as [h|e]; cbn.
    + destruct (clock_now _) as [t c1]. cbn. destruct (IH c1) as [? ->]. done.
    + destruct (IH c) as [? ->]. done.
Qed.

(** Readings are strictly increasing and happen after what was observed: in
    any sequence of local stamps and remote observations no call panics, every
    reading is above every earlier one, and a reading answered for a remote op
    is above the op's own. *)
Lemma clock_readings_increase (c : NodeClock) (calls : list ClockCall) :
  ∃ readings, clock_run c calls = Some readings ∧
    StronglySorted Z.lt readings.*1 ∧
    Forall (λ r, (last (nc_hlc c) < r.1)%Z ∧
      match r.2 with Some remote => (remote < r.1)%Z | None => True end) readings.
Proof.
  destruct (clock_run_total c calls) as [readings Hr]. exists readings.
  split; [done|]. by apply clock_run_above in Hr.
Qed.
End laws.
End hlc.
