(* ===== verification/Pull.v ===== *)
(** * Pull protocol v3: wire types and signed envelopes ([src/pull.rs])

    Coverage vectors and their wire map, the request and the page, and the
    sealing and verification of both under their signature domains; with the
    hexadecimal forms of epochs and order keys of [src/net/mod.rs] and
    [src/net/pull_client.rs]. *)

From stdpp Require Import pretty.
From S2P Require Import Prelude Ordered External Toy Identity Op.
Import BTree.

Definition PULL_VERSION : Z := 1.
Definition PULL_PATH : string := "/mesh/v3/pull".
Definition PULL_REQUEST_STORE_ID : string := "mesh-pull-request".
Definition PULL_PAGE_STORE_ID : string := "mesh-pull-page".
Definition PAGE_LIMIT_MAX : Z := 8192.
Definition PULL_PAGE_LIMIT_MAX : Z := PAGE_LIMIT_MAX.
Definition PULL_PAGE_BYTE_BUDGET : Z := 32 * 1024 * 1024.
Definition MAX_PULL_REQUEST_BYTES : Z := 256 * 1024.
Definition MAX_PULL_RESPONSE_BYTES : Z := 64 * 1024 * 1024.
Definition MAX_REQUEST_SKEW_MS : Z := 120000.

(** ** Resume tokens, claims *)

Inductive PullPhase : Type := Backfill | Keyed.
#[export] Instance PullPhase_eq_dec : EqDecision PullPhase.
Proof. solve_decision. Defined.

Record Resume : Type := mk_Resume {
  r_phase : PullPhase;
  r_after_seq : Z;
  r_origin : string;
  r_after_key : string;
}.
#[export] Instance Resume_eq_dec : EqDecision Resume.
Proof. solve_decision. Defined.

Record OriginHead : Type := mk_OriginHead { oh_origin : DeviceId; oh_head : OrderKey }.

(** [encode_order_key], [decode_epoch], [decode_order_key] *)
Definition encode_order_key (k : OrderKey) : string := encode_hex (to_wire k).
Definition decode_epoch (hex : string) : option (barr 32) := decode_fixed_hex 32 hex.
Definition decode_order_key (hex : string) : option OrderKey :=
  from_wire <$> decode_fixed_hex 72 hex.

Definition to_wire_pair (h : OriginHead) : string * string :=
  (DeviceId_to_hex (oh_origin h), encode_hex (to_wire (oh_head h))).

Definition from_wire_pair (origin_hex head_hex : string) : option OriginHead :=
  origin ← ok (DeviceId_from_hex origin_hex);
  bs ← decode_hex head_hex;
  wire ← vec_of_list 72 bs;
  let head := from_wire wire in
  if decide (ok_device head = origin) then Some (mk_OriginHead origin head) else None.

(** [CoverageVector(BTreeMap<DeviceId, OrderKey>)] *)
Definition CoverageVector : Type := list (DeviceId * OrderKey).

Definition covers (c : CoverageVector) (key : OrderKey) : bool :=
  match bt_get (ok_device key) c with
  | Some claim => bool_decide (key ⪯ claim)
  | None => false
  end.

Definition to_wire_map (c : CoverageVector) : list (string * string) :=
  bt_collect ((λ '(origin, head), to_wire_pair (mk_OriginHead origin head)) <$> c).

Definition from_wire_map (wire : list (string * string)) : CoverageVector :=
  bt_collect ((λ h, (oh_origin h, oh_head h)) <$>
    omap (λ '(origin, key), from_wire_pair origin key) wire).

(** ** Request and page *)

Record PullRequest : Type := mk_PullRequest {
  pr_version : Z;
  pr_coverage : list (string * string);
  pr_relay_epoch : string;
  pr_relay_after : Z;
  pr_resume : option Resume;
  pr_limit : Z;
  pr_audit : bool;
  pr_store : option string;
  pr_issued_at_ms : Z;
}.

Definition decode_coverage (r : PullRequest) : CoverageVector := from_wire_map (pr_coverage r).

Record PullPage : Type := mk_PullPage {
  pp_version : Z;
  pp_epoch : string;
  pp_reset : bool;
  pp_floor : Z;
  pp_backfill : list (Z * string);
  pp_keyed : list string;
  pp_next_relay_seq : Z;
  pp_head_seq : Z;
  pp_resume : option Resume;
  pp_complete : bool;
  pp_snapshot_recommended : bool;
  pp_store : option string;
}.

(** [RelayCursor] ([src/net/mod.rs]) *)
Record RelayCursor : Type := mk_cursor { rc_epoch : barr 32; rc_after : Z }.
#[export] Instance RelayCursor_eq_dec : EqDecision RelayCursor.
Proof. solve_decision. Defined.
Definition RelayCursor_START : RelayCursor := mk_cursor (zeros 32) 0.

(** ** Lemmas on the wire forms *)

Lemma decode_epoch_encode (e : barr 32) : decode_epoch (encode_hex e) = Some e.
Proof. apply decode_fixed_hex_encode. Qed.

Lemma decode_order_key_encode k : u64_ok (ok_hlc k) → decode_order_key (encode_order_key k) = Some k.
Proof.
  intros Hk. unfold decode_order_key, encode_order_key. rewrite decode_fixed_hex_encode.
  cbn [fmap option_fmap option_map]. by rewrite from_wire_to_wire.
Qed.

Lemma DeviceId_from_to_hex (d : DeviceId) : DeviceId_from_hex (DeviceId_to_hex d) = Ok d.
Proof.
  unfold DeviceId_from_hex, DeviceId_to_hex. rewrite decode_hex_encode. cbn.
  by rewrite vec_of_list_to_list.
Qed.

Lemma DeviceId_to_hex_inj (d d' : DeviceId) : DeviceId_to_hex d = DeviceId_to_hex d' → d = d'.
Proof. intros Heq%encode_hex_inj. by apply vec_to_list_inj2. Qed.

(** A claim is filed under its own device, at a real clock reading. *)
Definition claim_wf (ok : DeviceId * OrderKey) : Prop :=
  ok_device ok.2 = ok.1 ∧ u64_ok (ok_hlc ok.2).
Definition coverage_wf (c : CoverageVector) : Prop := bt_sorted c ∧ Forall claim_wf c.

Lemma wire_pair_roundtrip origin head :
  claim_wf (origin, head) →
  from_wire_pair (DeviceId_to_hex origin) (encode_hex (to_wire head)) =
  Some (mk_OriginHead origin head).
Proof.
  intros [Hd Hh]. unfold from_wire_pair. rewrite DeviceId_from_to_hex. cbn [ok mbind option_bind].
  rewrite decode_hex_encode. cbn [mbind option_bind]. rewrite vec_of_list_to_list. cbn [mbind option_bind].
  rewrite from_wire_to_wire by done. by rewrite decide_True.
Qed.

Lemma to_wire_map_perm c :
  bt_sorted c →
  to_wire_map c ≡ₚ (λ '(origin, head), to_wire_pair (mk_OriginHead origin head)) <$> c.
Proof.
  intros Hs. unfold to_wire_map. apply bt_collect_perm. rewrite <-list_fmap_compose.
  rewrite (list_fmap_ext _ (DeviceId_to_hex ∘ fst) c); [|by intros ? [] ?].
  rewrite list_fmap_compose. apply NoDup_fmap_2_strong; [|by apply bt_sorted_NoDup].
  intros ? ? _ _. apply DeviceId_to_hex_inj.
Qed.

Lemma coverage_wire_roundtrip c : coverage_wf c → from_wire_map (to_wire_map c) = c.
Proof.
  intros [Hs Hwf].
  assert (Hp : (λ h, (oh_origin h, oh_head h)) <$>
    omap (λ '(origin, key), from_wire_pair origin key) (to_wire_map c) ≡ₚ c).
  { rewrite (to_wire_map_perm c Hs). clear Hs. induction Hwf as [|[o k] c Hok _ IH]; [done|].
    rewrite fmap_cons. cbn [omap list_omap to_wire_pair oh_origin oh_head].
    rewrite wire_pair_roundtrip by done. rewrite fmap_cons. cbn [oh_origin oh_head]. by rewrite IH. }
  unfold from_wire_map. apply bt_sorted_unique; [apply bt_collect_sorted|done|].
  intros kv. rewrite bt_collect_perm, Hp; [done|].
  rewrite Hp. by apply bt_sorted_NoDup.
Qed.

(** ** Sealing and verifying *)

Section pull.
Context `{Crypto, Postcard, !Wire BodyRepr, !Wire EnvelopeRepr}.
Context `{Json, !JsonWire PullRequest, !JsonWire PullPage}.

Definition sign_pull_request (request : PullRequest) (identity : DeviceIdentity) (hlc : Hlc)
    : result string bytes :=
  payload ← map_err (λ e, "encode pull v3 request: " +:+ json_display e) (json_to_vec request);
  store ← map_err OpError_display (StoreId_new PULL_REQUEST_STORE_ID);
  op ← map_err (λ e, "sign pull v3 request: " +:+ OpError_display e)
    (seal (mk_OpBody ENVELOPE_VERSION hlc (device_id identity) store payload) identity);
  map_err (λ e, "encode pull v3 request envelope: " +:+ OpError_display e) (op_to_bytes op).

(** The mapping of a signature failure to the message of the request check. *)
Definition request_verify_error (e : OpError) : string :=
  match e with
  | OpIdentity InvalidPublicKey | OpIdentity (InvalidLength _ _) =>
      "Invalid stored mesh key: " +:+ OpError_display e
  | DeviceMismatch => "Stored mesh key does not derive the signer"
  | other => "Invalid pull signature: " +:+ OpError_display other
  end.

Definition verify_pull_request (bs : bytes) (now_ms : Z)
    (lookup_sec1 : DeviceId → result string (option (barr 33)))
    : result string (DeviceId * PullRequest) :=
  op ← map_err (λ e, "Invalid signed pull envelope: " +:+ OpError_display e) (op_from_bytes bs);
  if decide (as_str (op_store (op_body op)) ≠ PULL_REQUEST_STORE_ID)
  then Err "Invalid pull signature domain"
  else
    let peer := op_device (op_body op) in
    found ← lookup_sec1 peer;
    stored_key ← ok_or found "Pull requester has no stored mesh key";
    _ ← map_err request_verify_error (verify_with_sec1 op (vec_to_list stored_key));
    request ← map_err (λ e, "Invalid payload: " +:+ json_display e)
      (json_from_slice (op_payload (op_body op)));
    if decide (pr_version request ≠ PULL_VERSION) then Err "Unsupported pull protocol version"
    else if decide (Z.abs (now_ms - pr_issued_at_ms request) > MAX_REQUEST_SKEW_MS)%Z
    then Err "Pull request expired"
    else Ok (peer, request).

Definition seal_pull_page (page : PullPage) (identity : DeviceIdentity) (hlc : Hlc)
    : result string bytes :=
  payload ← map_err (λ e, "encode pull page: " +:+ json_display e) (json_to_vec page);
  store ← map_err OpError_display (StoreId_new PULL_PAGE_STORE_ID);
  op ← map_err (λ e, "sign pull page: " +:+ OpError_display e)
    (seal (mk_OpBody ENVELOPE_VERSION hlc (device_id identity) store payload) identity);
  map_err (λ e, "encode pull page envelope: " +:+ OpError_display e) (op_to_bytes op).

Definition page_verify_error (e : OpError) : string :=
  match e with
  | OpIdentity InvalidPublicKey | OpIdentity (InvalidLength _ _) =>
      "invalid pinned peer key: " +:+ OpError_display e
  | DeviceMismatch => "pinned peer key does not derive the peer"
  | other => "invalid v3 pull page signature: " +:+ OpError_display other
  end.

Definition verify_pull_page (bs : bytes) (peer : DeviceId) (peer_key : barr 33)
    : result string PullPage :=
  op ← map_err (λ e, "invalid v3 pull page envelope: " +:+ OpError_display e) (op_from_bytes bs);
  if decide (as_str (op_store (op_body op)) ≠ PULL_PAGE_STORE_ID)
  then Err "v3 pull page used an invalid signature domain"
  else if decide (op_device (op_body op) ≠ peer)
  then Err "v3 pull page was signed by another device"
  else
    _ ← map_err page_verify_error (verify_with_sec1 op (vec_to_list peer_key));
    page ← map_err (λ e, "decode v3 pull page: " +:+ json_display e)
      (json_from_slice (op_payload (op_body op)));
    if decide (pp_version page ≠ PULL_VERSION) then Err "unsupported v3 pull page version"
    else if decide (PAGE_LIMIT_MAX < len (pp_backfill page) ∨ PAGE_LIMIT_MAX < len (pp_keyed page))%Z
    then Err "oversized v3 pull page"
    else Ok page.

(** ** Lemmas *)

Lemma StoreId_new_sound s st : StoreId_new s = Ok st → as_str st = s.
Proof. apply StoreId_new_ok. Qed.

(** What a verified request went through. *)
Lemma verify_pull_request_ok bs now_ms lookup peer request :
  verify_pull_request bs now_ms lookup = Ok (peer, request) ↔
  ∃ op key,
    op_from_bytes bs = Ok op ∧ as_str (op_store (op_body op)) = PULL_REQUEST_STORE_ID ∧
    op_device (op_body op) = peer ∧ lookup peer = Ok (Some key) ∧
    verify_with_sec1 op (vec_to_list key) = Ok () ∧
    json_from_slice (op_payload (op_body op)) = Ok request ∧
    pr_version request = PULL_VERSION ∧
    (Z.abs (now_ms - pr_issued_at_ms request) ≤ MAX_REQUEST_SKEW_MS)%Z.
Proof.
  unfold verify_pull_request. rewrite bind_ok. setoid_rewrite map_err_ok. split.
  - intros (op & Hop & Hv). case_decide as Hst; [done|].
    apply bind_ok in Hv as (found & Hf & (key & Hk%ok_or_ok & ([] & Hs%map_err_ok & Hv)%bind_ok)%bind_ok).
    apply bind_ok in Hv as (req & Hreq%map_err_ok & Hv).
    case_decide as Hver; [done|]. case_decide as Hskew; [done|]. simplify_eq.
    exists op, key. split_and!; try done.
  - intros (op & key & Hop & Hst & <- & Hk & Hs & Hreq & Hver & Hskew). exists op. split; [done|].
    rewrite decide_False by naive_solver. rewrite Hk. cbn [mbind result_bind ok_or].
    rewrite Hs. cbn [mbind result_bind map_err]. rewrite Hreq. cbn [mbind result_bind map_err].
    rewrite decide_False by naive_solver. by rewrite decide_False by lia.
Qed.

Lemma verify_pull_page_ok bs peer key page :
  verify_pull_page bs peer key = Ok page ↔
  ∃ op,
    op_from_bytes bs = Ok op ∧ as_str (op_store (op_body op)) = PULL_PAGE_STORE_ID ∧
    op_device (op_body op) = peer ∧ verify_with_sec1 op (vec_to_list key) = Ok () ∧
    json_from_slice (op_payload (op_body op)) = Ok page ∧ pp_version page = PULL_VERSION ∧
    (len (pp_backfill page) ≤ PAGE_LIMIT_MAX)%Z ∧ (len (pp_keyed page) ≤ PAGE_LIMIT_MAX)%Z.
Proof.
  unfold verify_pull_page. rewrite bind_ok. setoid_rewrite map_err_ok. split.
  - intros (op & Hop & Hv). case_decide as Hst; [done|]. case_decide as Hdev; [done|].
    apply bind_ok in Hv as ([] & Hs%map_err_ok & (p & Hp%map_err_ok & Hv)%bind_ok).
    case_decide as Hver; [done|]. case_decide as Hbig; [done|]. simplify_eq.
    exists op. split_and!; try done; lia.
  - intros (op & Hop & Hst & <- & Hs & Hp & Hver & Hb & Hk). exists op. split; [done|].
    do 2 rewrite decide_False by naive_solver. rewrite Hs. cbn [mbind result_bind map_err].
    rewrite Hp. cbn [mbind result_bind map_err]. rewrite decide_False by naive_solver.
    by rewrite decide_False by lia.
Qed.

(** What [sign_pull_request] and [seal_pull_page] put on the wire. *)
Lemma sealed_envelope_ok `{!CryptoOk, !WireOk EnvelopeRepr} hlc st payload sk op bs :
  seal (mk_OpBody ENVELOPE_VERSION hlc (device_id (from_signing sk)) st payload) (from_signing sk) = Ok op →
  op_to_bytes op = Ok bs →
  op_from_bytes bs = Ok op ∧ op_store (op_body op) = st ∧ op_payload (op_body op) = payload ∧
  op_device (op_body op) = device_id (from_signing sk) ∧
  verify_with_sec1 op (vec_to_list (public_key_sec1 (from_signing sk))) = Ok ().
Proof.
  intros Hseal Hbs. pose proof (seal_verifies _ _ _ Hseal) as (_ & Hv & Hdev & Hpay & _).
  pose proof (seal_ok _ _ _ Hseal) as (Hbody & _).
  rewrite (op_to_bytes_inv _ _ Hbs), decide_True by (by rewrite Hbody).
  split_and!; [done|by rewrite Hbody|done|done|done].
Qed.

(** A signed request is read back by a server that knows the key, a sealed page
    by a puller that pinned it. *)
Lemma signed_request_verifies `{!CryptoOk, !WireOk EnvelopeRepr, !JsonWireOk PullRequest}
    (request : PullRequest) (sk : SigningKey) hlc bs now_ms lookup :
  sign_pull_request request (from_signing sk) hlc = Ok bs →
  lookup (device_id (from_signing sk)) = Ok (Some (public_key_sec1 (from_signing sk))) →
  pr_version request = PULL_VERSION →
  (Z.abs (now_ms - pr_issued_at_ms request) ≤ MAX_REQUEST_SKEW_MS)%Z →
  verify_pull_request bs now_ms lookup = Ok (device_id (from_signing sk), request).
Proof.
  intros (payload & Hp%map_err_ok & (st & Hst%map_err_ok & (op & Hop%map_err_ok & Hbs%map_err_ok)%bind_ok)%bind_ok)%bind_ok
    Hl Hver Hskew.
  destruct (sealed_envelope_ok _ _ _ _ _ _ Hop Hbs) as (Hdec & Hs & Hpay & Hdev & Hv).
  apply verify_pull_request_ok. eexists op, _. split_and!; try done.
  - rewrite Hs. by apply StoreId_new_sound.
  - rewrite Hpay. by apply json_roundtrip.
Qed.

Lemma sealed_page_verifies `{!CryptoOk, !WireOk EnvelopeRepr, !JsonWireOk PullPage}
    (page : PullPage) (sk : SigningKey) hlc bs :
  seal_pull_page page (from_signing sk) hlc = Ok bs →
  pp_version page = PULL_VERSION →
  (len (pp_backfill page) ≤ PAGE_LIMIT_MAX)%Z → (len (pp_keyed page) ≤ PAGE_LIMIT_MAX)%Z →
  verify_pull_page bs (device_id (from_signing sk)) (public_key_sec1 (from_signing sk)) = Ok page.
Proof.
  intros (payload & Hp%map_err_ok & (st & Hst%map_err_ok & (op & Hop%map_err_ok & Hbs%map_err_ok)%bind_ok)%bind_ok)%bind_ok
    Hver Hb Hk.
  destruct (sealed_envelope_ok _ _ _ _ _ _ Hop Hbs) as (Hdec & Hs & Hpay & Hdev & Hv).
  apply verify_pull_page_ok. exists op. split_and!; try done.
  - rewrite Hs. by apply StoreId_new_sound.
  - rewrite Hpay. by apply json_roundtrip.
Qed.

(** ** Properties *)

(** The coverage vector survives the wire: a well-formed vector encoded into
    the request map and decoded by the server is the same vector. *)
Lemma coverage_roundtrip (r : PullRequest) (c : CoverageVector) :
  coverage_wf c → pr_coverage r = to_wire_map c → decode_coverage r = c.
Proof. intros Hc Hr. unfold decode_coverage. rewrite Hr. by apply coverage_wire_roundtrip. Qed.

(** A signed pull request authenticates: the server that knows the
    requester's key and whose clock is within the skew bound reads back the
    requester's device id and exactly the request that was signed. *)
Lemma pull_request_roundtrip `{!CryptoOk, !WireOk EnvelopeRepr, !JsonWireOk PullRequest}
    (request : PullRequest) (sk : SigningKey) hlc bs now_ms lookup :
  sign_pull_request request (from_signing sk) hlc = Ok bs →
  lookup (device_id (from_signing sk)) = Ok (Some (public_key_sec1 (from_signing sk))) →
  pr_version request = PULL_VERSION →
  (Z.abs (now_ms - pr_issued_at_ms request) ≤ MAX_REQUEST_SKEW_MS)%Z →
  verify_pull_request bs now_ms lookup = Ok (device_id (from_signing sk), request).
Proof. apply signed_request_verifies. Qed.

(** A sealed page authenticates: the puller that pinned the server's key
    reads back exactly the page that was sealed, when it respects the version
    and the entry caps. *)
Lemma pull_page_roundtrip `{!CryptoOk, !WireOk EnvelopeRepr, !JsonWireOk PullPage}
    (page : PullPage) (sk : SigningKey) hlc bs :
  seal_pull_page page (from_signing sk) hlc = Ok bs →
  pp_version page = PULL_VERSION →
  (len (pp_backfill page) ≤ PAGE_LIMIT_MAX)%Z → (len (pp_keyed page) ≤ PAGE_LIMIT_MAX)%Z →
  verify_pull_page bs (device_id (from_signing sk)) (public_key_sec1 (from_signing sk)) = Ok page.
Proof. apply sealed_page_verifies. Qed.

(** Requests and pages live in disjoint signature domains: bytes accepted as
    a request are refused as a page, whoever is expected to have signed them. *)
Lemma pull_domains_disjoint bs now_ms lookup peer request peer' key :
  verify_pull_request bs now_ms lookup = Ok (peer, request) →
  verify_pull_page bs peer' key = Err "v3 pull page used an invalid signature domain".
Proof.
  intros (op & k & Hop & Hst & _)%verify_pull_request_ok. unfold verify_pull_page.
  rewrite Hop. cbn [map_err mbind result_bind]. by rewrite decide_True by (by rewrite Hst).
Qed.
End pull.

(** ** Witnesses *)

Module PullToy.
Export OpToy.

#[export] Instance PullPhase_codec : Codec PullPhase :=
  iso_codec (λ p, bool_decide (p = Keyed)) (λ b : bool, if b then Keyed else Backfill).
#[export] Instance PullPhase_codec_ok : CodecOk PullPhase.
Proof. by apply iso_codec_ok; intros []. Qed.
#[export] Instance Resume_codec : Codec Resume :=
  iso_codec (λ r, (r_phase r, r_after_seq r, r_origin r, r_after_key r))
    (λ '(a, b, c, d), mk_Resume a b c d).
#[export] Instance Resume_codec_ok : CodecOk Resume.
Proof. by apply iso_codec_ok; intros []. Qed.
#[export] Instance PullRequest_codec : Codec PullRequest :=
  iso_codec (λ r, (pr_version r, pr_coverage r, pr_relay_epoch r, pr_relay_after r, pr_resume r,
      pr_limit r, pr_audit r, pr_store r, pr_issued_at_ms r))
    (λ '(a, b, c, d, e, f, g, h, i), mk_PullRequest a b c d e f g h i).
#[export] Instance PullRequest_codec_ok : CodecOk PullRequest.
Proof. by apply iso_codec_ok; intros []. Qed.
#[export] Instance PullPage_codec : Codec PullPage :=
  iso_codec (λ p, (pp_version p, pp_epoch p, pp_reset p, pp_floor p, pp_backfill p, pp_keyed p,
      pp_next_relay_seq p, pp_head_seq p, pp_resume p, pp_complete p, pp_snapshot_recommended p, pp_store p))
    (λ '(a, b, c, d, e, f, g, h, i, j, k, l), mk_PullPage a b c d e f g h i j k l).
#[export] Instance PullPage_codec_ok : CodecOk PullPage.
Proof. by apply iso_codec_ok; intros []. Qed.

Definition alice_id : DeviceId := device_id (from_signing alice).
Definition bob_id : DeviceId := device_id (from_signing bob).
Definition alice_claim : CoverageVector := [(alice_id, mk_OrderKey 42 alice_id (zeros 32))].
Definition toy_request : PullRequest :=
  mk_PullRequest PULL_VERSION (to_wire_map alice_claim) (encode_hex (zeros 32)) 7 None
    PULL_PAGE_LIMIT_MAX false (Some "trellis") 1000000.
Definition signed_request : bytes :=
  default [] (ok (sign_pull_request toy_request (from_signing alice) 10)).

End PullToy.
