(* ===== verification/SqlDb.v ===== *)
(** * The tables of the op-log database and the coverage claims ([src/sqlite/coverage.rs])

    The tables the SQLite adapters read and write, as the statements of the
    source name them, and the per-origin claims and peer acknowledgments kept
    in them.  A column no statement reads ([updated_at]) is left out; the
    indices are flags, since [INDEXED BY] fails without its index. *)

From S2P Require Import Prelude Ordered External Toy Identity Words Op RowOp Log Pull Sql.
Import BTree.

(** ** Tables *)

(** [oplog_db.oplog]; the blobs are as wide as the writer made them. *)
Record OplogRow : Type := mk_oplog_row {
  or_rowid : Z;
  or_op_id : bytes;
  or_hlc : Z;
  or_device : bytes;
  or_store : string;
  or_payload : bytes;
  or_envelope : bytes;
  or_table : string;
  or_row_pk : string;
  or_origin : Z;
  or_applied : Z;
}.
#[export] Instance OplogRow_eq_dec : EqDecision OplogRow.
Proof. solve_decision. Defined.

(** [oplog_db.oplog_arrivals] *)
Record Arrival : Type := mk_arrival { ar_seq : Z; ar_op_id : bytes; ar_arrived_at : Z }.
#[export] Instance Arrival_eq_dec : EqDecision Arrival.
Proof. solve_decision. Defined.

(** [oplog_db.oplog_heads], by its primary key [(store_id, table_name, row_pk)]. *)
Record HeadRow : Type := mk_head {
  h_hlc : Z;
  h_device : bytes;
  h_op_id : bytes;
  h_payload : bytes;
  h_origin : option bytes;
}.
Notation RowKey := (string * string * string)%type (only parsing).

(** [main.devices] and [device_vouches]: a statement that names a column the
    host's schema does not declare is refused when it is prepared. *)
Record DeviceRow : Type := mk_device_row {
  dv_device_id : string;
  dv_public_key : option bytes;
  dv_trusted : Z;
  dv_last_seen_at : string;
}.
Record VouchRow : Type := mk_vouch {
  vo_voucher : string;
  vo_device_id : string;
  vo_vouched_device_id : string;
  vo_public_key : bytes;
  vo_updated_at : string;
}.

Record Db : Type := mk_db {
  db_oplog : list OplogRow;
  db_arrivals : list Arrival;
  db_heads : gmap RowKey HeadRow;
  (** [mesh_relay_state WHERE singleton = 1]: the epoch and [compacted_through_seq]. *)
  db_relay_state : option (bytes * Z);
  (** [mesh_relay_cursors]: protocol version, epoch and position by peer. *)
  db_relay_cursors : gmap bytes (Z * bytes * Z);
  db_sync_cursors : gmap bytes bytes;
  (** [mesh_origin_coverage] *)
  db_coverage : gmap bytes bytes;
  (** [mesh_peer_acks]: epoch and position by peer. *)
  db_acks : gmap bytes (bytes * Z);
  db_origin_index : bool;
  db_config : gmap string string;
  db_devices : list DeviceRow;
  db_vouches : list VouchRow;
  db_vouch_columns : list string;
  db_retirements : list string;
}.

Definition set_oplog (rows : list OplogRow) (d : Db) : Db :=
  mk_db rows (db_arrivals d) (db_heads d) (db_relay_state d) (db_relay_cursors d) (db_sync_cursors d)
    (db_coverage d) (db_acks d) (db_origin_index d) (db_config d) (db_devices d) (db_vouches d)
    (db_vouch_columns d) (db_retirements d).
Definition set_arrivals (rows : list Arrival) (d : Db) : Db :=
  mk_db (db_oplog d) rows (db_heads d) (db_relay_state d) (db_relay_cursors d) (db_sync_cursors d)
    (db_coverage d) (db_acks d) (db_origin_index d) (db_config d) (db_devices d) (db_vouches d)
    (db_vouch_columns d) (db_retirements d).
Definition set_heads (heads : gmap RowKey HeadRow) (d : Db) : Db :=
  mk_db (db_oplog d) (db_arrivals d) heads (db_relay_state d) (db_relay_cursors d) (db_sync_cursors d)
    (db_coverage d) (db_acks d) (db_origin_index d) (db_config d) (db_devices d) (db_vouches d)
    (db_vouch_columns d) (db_retirements d).
Definition set_relay_state (st : option (bytes * Z)) (d : Db) : Db :=
  mk_db (db_oplog d) (db_arrivals d) (db_heads d) st (db_relay_cursors d) (db_sync_cursors d)
    (db_coverage d) (db_acks d) (db_origin_index d) (db_config d) (db_devices d) (db_vouches d)
    (db_vouch_columns d) (db_retirements d).
Definition set_relay_cursors (cs : gmap bytes (Z * bytes * Z)) (d : Db) : Db :=
  mk_db (db_oplog d) (db_arrivals d) (db_heads d) (db_relay_state d) cs (db_sync_cursors d)
    (db_coverage d) (db_acks d) (db_origin_index d) (db_config d) (db_devices d) (db_vouches d)
    (db_vouch_columns d) (db_retirements d).
Definition set_sync_cursors (cs : gmap bytes bytes) (d : Db) : Db :=
  mk_db (db_oplog d) (db_arrivals d) (db_heads d) (db_relay_state d) (db_relay_cursors d) cs
    (db_coverage d) (db_acks d) (db_origin_index d) (db_config d) (db_devices d) (db_vouches d)
    (db_vouch_columns d) (db_retirements d).
Definition set_coverage (cov : gmap bytes bytes) (d : Db) : Db :=
  mk_db (db_oplog d) (db_arrivals d) (db_heads d) (db_relay_state d) (db_relay_cursors d) (db_sync_cursors d)
    cov (db_acks d) (db_origin_index d) (db_config d) (db_devices d) (db_vouches d)
    (db_vouch_columns d) (db_retirements d).
Definition set_acks (acks : gmap bytes (bytes * Z)) (d : Db) : Db :=
  mk_db (db_oplog d) (db_arrivals d) (db_heads d) (db_relay_state d) (db_relay_cursors d) (db_sync_cursors d)
    (db_coverage d) acks (db_origin_index d) (db_config d) (db_devices d) (db_vouches d)
    (db_vouch_columns d) (db_retirements d).
Definition set_origin_index (b : bool) (d : Db) : Db :=
  mk_db (db_oplog d) (db_arrivals d) (db_heads d) (db_relay_state d) (db_relay_cursors d) (db_sync_cursors d)
    (db_coverage d) (db_acks d) b (db_config d) (db_devices d) (db_vouches d)
    (db_vouch_columns d) (db_retirements d).
Definition set_config (c : gmap string string) (d : Db) : Db :=
  mk_db (db_oplog d) (db_arrivals d) (db_heads d) (db_relay_state d) (db_relay_cursors d) (db_sync_cursors d)
    (db_coverage d) (db_acks d) (db_origin_index d) c (db_devices d) (db_vouches d)
    (db_vouch_columns d) (db_retirements d).

(** The row value [(hlc, device_id, op_id)], compared column by column: the
    integer as signed, the blobs byte-wise. *)
Notation SqlKey := (Z * (bytes * bytes))%type (only parsing).
Definition row_key (r : OplogRow) : SqlKey := (or_hlc r, (or_device r, or_op_id r)).
Definition head_key (h : HeadRow) : SqlKey := (h_hlc h, (h_device h, h_op_id h)).
Definition bind_key (k : OrderKey) : SqlKey :=
  (as_i64 (ok_hlc k), (vec_to_list (ok_device k), vec_to_list (ok_op_id k))).

Section coverage.
Context `{Rusqlite}.

(** [order_key_from_row] *)
Definition order_key_from_row (k : SqlKey) : result string OrderKey :=
  let '(hlc, (device, op_id)) := k in
  device ← ok_or (vec_of_list 32 device) (conversion_failure 1 "device id");
  op_id ← ok_or (vec_of_list 32 op_id) (conversion_failure 2 "op id");
  Ok (mk_OrderKey (as_u64 hlc) device op_id).

(** A driver error while a row is read, under the statement's context. *)
Definition row_error {A} (context : string) (r : result string A) : result SqliteError A :=
  map_err (sql_error context) r.
(** [query_row(..).optional()] of a row read by [read]. *)
Definition optional_row {S A B} (context : string) (read : A → result string B) (row : option A)
    : sql S (option B) :=
  match row with
  | None => mret None
  | Some row => b ← sql_lift (row_error context (read row)); mret (Some b)
  end.

(** ** Claims *)

Definition COVERAGE_PRIMED_KEY : string := "mesh.origin_coverage_primed".
Definition ORIGIN_INDEX_NAME : string := "idx_oplog_origin".

Definition origin_index_exists : sql Db bool :=
  _ ← sql_try "coverage origin index lookup";
  sql_get db_origin_index.

Definition is_primed : sql Db bool :=
  _ ← sql_try "coverage primed flag";
  flag ← sql_get (λ d, db_config d !! COVERAGE_PRIMED_KEY);
  if decide (flag ≠ Some "1") then mret false else origin_index_exists.

(** A statement [INDEXED BY idx_oplog_origin] is refused without the index. *)
Definition needs_origin_index (context : string) : sql Db () :=
  there ← sql_get db_origin_index;
  if (there : bool) then mret () else sql_lift (Err (sql_error context (no_such_index ORIGIN_INDEX_NAME))).

Definition coverage_row (row : bytes * bytes) : option (DeviceId * OrderKey) :=
  match vec_of_list 32 row.1, vec_of_list 72 row.2 with
  | Some origin, Some wire => Some (origin, from_wire wire)
  | _, _ => None
  end.
Definition sql_local_coverage : sql Db CoverageVector :=
  _ ← sql_try "local coverage prepare";
  _ ← sql_try "local coverage query";
  rows ← sql_get (λ d, map_to_list (db_coverage d));
  entries ← sql_rows "local coverage row" (λ row, Ok (coverage_row row)) rows;
  mret (bt_collect entries).

(** The conflict clause: raise the claim, never lower it. *)
Definition raise_claim (origin wire : bytes) (cov : gmap bytes bytes) : gmap bytes bytes :=
  match cov !! origin with
  | Some stored => if decide (stored ≺ wire) then <[origin := wire]> cov else cov
  | None => <[origin := wire]> cov
  end.
Definition sql_advance_local_coverage (origin : DeviceId) (key : OrderKey) : sql Db () :=
  _ ← sql_try "advance local coverage";
  sql_mod (λ d, set_coverage (raise_claim (vec_to_list origin) (vec_to_list (to_wire key)) (db_coverage d)) d).

Definition note_own_op (op : SignedOp) : sql Db () :=
  sql_advance_local_coverage (op_device (op_body op))
    (mk_OrderKey (op_hlc (op_body op)) (op_device (op_body op)) (op_id op)).

(** ** Priming *)

(** [wait_for_trellis_sweep]: [landed i] and [elapsed i] are what the [i]-th
    round of the loop reads; [None] is a loop still polling. *)
Fixpoint wait_for_trellis_sweep (landed : nat → bool) (elapsed : nat → Z) (max : Z) (fuel i : nat)
    : option bool :=
  match fuel with
  | 0 => None
  | S fuel =>
      if landed i then Some true
      else if decide (max ≤ elapsed i)%Z then Some false
      else wait_for_trellis_sweep landed elapsed max fuel (S i)
  end.

Definition ensure_origin_index : sql Db bool :=
  there ← origin_index_exists;
  if (there : bool) then mret false
  else
    _ ← sql_try "create origin index";
    _ ← sql_mod (set_origin_index true);
    mret true.

(** [SELECT DISTINCT device_id], in some order. *)
Definition list_distinct_origins : sql Db (list DeviceId) :=
  _ ← sql_try "coverage origins prepare";
  _ ← sql_try "coverage origins query";
  rows ← sql_get (λ d, remove_dups (or_device <$> db_oplog d));
  sql_rows "coverage origins row" (λ row, Ok (vec_of_list 32 row)) rows.

(** The rows of one origin, newest [(hlc, op_id)] last. *)
Definition origin_key (r : OplogRow) : Z * bytes := (or_hlc r, or_op_id r).
Definition origin_max (origin : DeviceId) : sql Db (option OrderKey) :=
  _ ← needs_origin_index "coverage origin max";
  _ ← sql_try "coverage origin max";
  row ← sql_get (λ d, newest origin_key (filter (λ r, or_device r = vec_to_list origin) (db_oplog d)));
  optional_row "coverage origin max" (λ r, order_key_from_row (row_key r)) row.

Definition prime_origins_chunk_in_txn (chunk : list DeviceId) : sql Db nat :=
  sql_fold (λ primed origin,
    key ← origin_max origin;
    match key with
    | None => mret primed
    | Some key => _ ← sql_advance_local_coverage origin key; mret (S primed)
    end) 0 chunk.

Definition mark_coverage_primed : sql Db () :=
  _ ← sql_try "set coverage primed flag";
  sql_mod (λ d, set_config (<[COVERAGE_PRIMED_KEY := "1"]> (db_config d)) d).

(** ** Peer acknowledgments *)

Definition current_stream_epoch : sql Db (barr 32) :=
  _ ← sql_try "current stream epoch";
  row ← sql_get db_relay_state;
  row ← sql_lift (ok_or row (sql_error "current stream epoch" no_rows));
  sql_lift (ok_or (vec_of_list 32 row.1) (SqlOther "relay stream epoch is not 32 bytes")).

(** The conflict clause: folded within an epoch, replaced across epochs. *)
Definition fold_ack (epoch : bytes) (seq : Z) (stored : option (bytes * Z)) : bytes * Z :=
  match stored with
  | Some (stored_epoch, acked) =>
      (epoch, if decide (stored_epoch = epoch) then Z.max acked seq else seq)
  | None => (epoch, seq)
  end.
Definition sql_record_peer_ack (peer : DeviceId) (epoch : barr 32) (seq : Z) : sql Db () :=
  current ← current_stream_epoch;
  if decide (current ≠ epoch) then mret ()
  else
    seq ← sql_lift (ok_or (i64_try seq) (SqlInvalidArgument "peer ack exceeds SQLite range"));
    _ ← sql_try "record peer ack";
    sql_mod (λ d, set_acks
      (<[vec_to_list peer := fold_ack (vec_to_list epoch) seq (db_acks d !! vec_to_list peer)]> (db_acks d)) d).

(** [dormant_before.is_some_and(|cutoff| last_seen_at < cutoff)] *)
Definition is_dormant (dormant_before : option string) (last_seen_at : string) : bool :=
  match dormant_before with Some cutoff => bool_decide (last_seen_at ≺ cutoff) | None => false end.

Definition trusted_peers (local : DeviceId) (d : Db) : list DeviceRow :=
  filter (λ r, dv_trusted r = 1%Z ∧ dv_device_id r ≠ DeviceId_to_hex local) (db_devices d).

(** [SELECT acked_relay_seq .. WHERE peer_device_id = ? AND stream_epoch = ?] *)
Definition ack_in_epoch (epoch : bytes) (peer : DeviceId) (d : Db) : option Z :=
  match db_acks d !! vec_to_list peer with
  | Some (stored, acked) => if decide (stored = epoch) then Some acked else None
  | None => None
  end.

(** The loop over the peers from the floor so far. *)
Fixpoint min_ack_loop (epoch : bytes) (dormant_before : option string) (peers : list (string * string))
    (floor : Z) : sql Db (option Z) :=
  match peers with
  | [] => mret (if decide (floor = u64_max) then None else Some floor)
  | (peer, last_seen_at) :: peers =>
      match DeviceId_from_hex peer with
      | Err _ => mret (Some 0%Z)
      | Ok peer =>
          _ ← sql_try "peer ack lookup";
          acked ← sql_get (ack_in_epoch epoch peer);
          match acked with
          | None =>
              if is_dormant dormant_before last_seen_at
              then min_ack_loop epoch dormant_before peers floor
              else mret (Some 0%Z)
          | Some acked =>
              if is_dormant dormant_before last_seen_at
              then min_ack_loop epoch dormant_before peers floor
              else
                let floor := Z.min floor (Z.max acked 0) in
                if decide (floor = 0)%Z then mret (Some 0%Z)
                else min_ack_loop epoch dormant_before peers floor
          end
      end
  end.

#[export] Instance min_ack_loop_quiet epoch dormant_before peers floor :
  Quiet (min_ack_loop epoch dormant_before peers floor).
Proof. revert floor; induction peers as [|[peer seen] peers IH]; intros floor; cbn [min_ack_loop]; solve_quiet. Qed.

Definition min_peer_ack (local : DeviceId) (current_epoch : barr 32) (dormant_before : option string)
    : sql Db (option Z) :=
  _ ← sql_try "peer ack peers prepare";
  _ ← sql_try "peer ack peers query";
  rows ← sql_get (trusted_peers local);
  peers ← sql_rows "peer ack peers row" (λ r, Ok (Some (dv_device_id r, dv_last_seen_at r))) rows;
  if decide (peers = []) then mret None
  else
    _ ← sql_try "peer ack prepare";
    min_ack_loop (vec_to_list current_epoch) dormant_before peers u64_max.

(** ** Origins *)

(** [SELECT MIN(device_id) .. WHERE device_id > d] *)
Definition min_device (above : option bytes) (rows : list OplogRow) : option bytes :=
  let devices := or_device <$> rows in
  oldest id (match above with Some d => filter (λ x, d ≺ x) devices | None => devices end).

(** The recursive statement: each row asks for the least device above it. *)
Fixpoint skip_scan (fuel : nat) (d : option bytes) (rows : list OplogRow) : list bytes :=
  match fuel, d with
  | S fuel, Some d => d :: skip_scan fuel (min_device (Some d) rows) rows
  | _, _ => []
  end.
Definition scan_origins (rows : list OplogRow) : list bytes :=
  skip_scan (S (length rows)) (min_device None rows) rows.

Definition sql_origins : sql Db (list DeviceId) :=
  _ ← sql_try "oplog origins prepare";
  _ ← sql_try "oplog origins query";
  rows ← sql_get (λ d, scan_origins (db_oplog d));
  sql_rows "oplog origins row" (λ row, Ok (vec_of_list 32 row)) rows.

(** ** Properties *)

(** The wait ends within the rounds its bound allows. *)
Lemma wait_ends landed elapsed max poll fuel i :
  (0 < poll)%Z → (∀ i, Z.of_nat i * poll ≤ elapsed i)%Z → (max ≤ Z.of_nat (i + fuel) * poll)%Z →
  is_Some (wait_for_trellis_sweep landed elapsed max (S fuel) i).
Proof.
  intros Hp Hel. revert i. induction fuel as [|fuel IH]; intros i Hmax; cbn [wait_for_trellis_sweep].
  - destruct (landed i); [done|]. rewrite decide_True; [done|]. specialize (Hel i).
    replace (i + 0) with i in Hmax by lia. lia.
  - destruct (landed i); [done|]. case_decide; [done|]. apply IH. by replace (S i + fuel) with (i + S fuel) by lia.
Qed.

Lemma min_device_above d rows m :
  min_device (Some d) rows = Some m →
  d ≺ m ∧ m ∈ or_device <$> rows ∧ ∀ x, x ∈ or_device <$> rows → d ≺ x → m ⪯ x.
Proof.
  unfold min_device. intros [Hin Hmin]%oldest_some. apply list_elem_of_filter in Hin as [Hd Hin].
  split_and!; [done..|]. intros x Hx Hdx. apply Hmin. by apply list_elem_of_filter.
Qed.

(** The devices above a device, of which each step takes the least. *)
Definition devices_above (d : bytes) (rows : list OplogRow) : list bytes :=
  filter (λ x, d ≺ x) (or_device <$> rows).

(** The skip scan from a device lists the devices at and above it, ascending,
    once each, when the fuel covers the ones above. *)
Lemma skip_scan_ok fuel d rows :
  length (devices_above d rows) < fuel → d ∈ or_device <$> rows →
  StronglySorted olt (skip_scan fuel (Some d) rows) ∧
  ∀ x, x ∈ skip_scan fuel (Some d) rows ↔ x ∈ or_device <$> rows ∧ d ⪯ x.
Proof.
  revert d; induction fuel as [|fuel IH]; intros d Hf Hd; [lia|]. cbn [skip_scan].
  destruct (min_device (Some d) rows) as [m|] eqn:Hm.
  - destruct (min_device_above _ _ _ Hm) as (Hdm & Hin & Hmin).
    assert (Hlt : length (devices_above m rows) < length (devices_above d rows)).
    { apply (filter_length_strict (λ x, d ≺ x) (λ x, m ≺ x) _ m); [|done|done|apply olt_irrefl].
      intros x _ Hx. by transitivity m. }
    destruct (IH m) as [Hs Hall]; [lia|done|]. split.
    + constructor; [done|]. apply Forall_forall. intros x [_ Hx]%Hall. by eapply olt_ole_trans.
    + intros x. rewrite elem_of_cons, Hall. split.
      * intros [->|[Hx Hmx]]; [done|]. split; [done|]. apply olt_ole. by eapply olt_ole_trans.
      * intros [Hx [Hdx|Hdx]%ole_alt]; [right; auto|by left].
  - destruct fuel as [|fuel']; cbn [skip_scan].
    all: unfold min_device in Hm; apply oldest_none in Hm.
    all: split; [repeat constructor|]; intros x; rewrite list_elem_of_singleton; split; [by intros ->|].
    all: intros [Hx [Hdx|Hdx]%ole_alt]; [|done].
    all: assert (Hin : x ∈ filter (λ x, d ≺ x) (or_device <$> rows)) by (by apply list_elem_of_filter).
    all: rewrite Hm in Hin; by apply not_elem_of_nil in Hin.
Qed.

(** The recursive statement lists every device of the log, ascending. *)
Lemma scan_origins_ok rows :
  StronglySorted olt (scan_origins rows) ∧ ∀ x, x ∈ scan_origins rows ↔ x ∈ or_device <$> rows.
Proof.
  unfold scan_origins. destruct (min_device None rows) as [m|] eqn:Hm.
  - unfold min_device in Hm. apply oldest_some in Hm as [Hin Hmin].
    destruct (skip_scan_ok (S (length rows)) m rows) as [Hs Hall]; [|done|].
    + unfold devices_above. pose proof (length_filter (λ x, m ≺ x) (or_device <$> rows)) as Hl.
      rewrite length_fmap in Hl. lia.
    + split; [done|]. intros x. rewrite Hall. split; [by intros []|]. intros Hx. split; [done|]. by apply Hmin.
  - cbn. unfold min_device in Hm. apply oldest_none in Hm. rewrite Hm. by split; [constructor|].
Qed.

(** A device that answers it is primed has the index the keyed reads need. *)
Lemma is_primed_index d fs d' fs' : is_primed d fs = (Ok true, (d', fs')) → db_origin_index d = true ∧ d' = d.
Proof.
  intros Hp%quiet. unfold is_primed in Hp. run_all. case_decide; run_all. unfold origin_index_exists in Hp.
  by run_all.
Qed.

Lemma current_stream_epoch_runs d epoch d' :
  runs current_stream_epoch d epoch d' → fst <$> db_relay_state d = Some (vec_to_list epoch) ∧ d' = d.
Proof.
  intros Hr. unfold current_stream_epoch in Hr. apply runs_bind in Hr as ([] & d0 & <-%runs_try & Hr); [|apply _].
  apply runs_bind in Hr as (row & d0 & [-> <-]%runs_get & Hr); [|apply _].
  apply runs_bind in Hr as (row & d0 & [Hrow%ok_or_ok <-]%runs_lift & Hr); [|apply _].
  apply runs_lift in Hr as [Hv%ok_or_ok <-]. apply vec_of_list_some in Hv. rewrite Hrow. cbn. by rewrite Hv.
Qed.
End coverage.
