(* ===== verification/SqlLog.v ===== *)
(** * The SQLite op-log ([src/sqlite/oplog.rs], [oplog_heads.rs], [oplog_queries.rs], [log_source.rs])

    Appending signed ops, the materialised winner of each row, the reads the
    mesh serves from and the durable cursors. *)

From S2P Require Import Prelude Ordered External Toy Identity Words Op RowOp Log Pull Sql SqlDb.
Import BTree.

Section sql_log.
Context `{Rusqlite, Postcard, !Wire EnvelopeRepr}.

(** ** Heads *)

Definition row_at (store table row_pk : string) (r : OplogRow) : Prop :=
  or_store r = store ∧ or_table r = table ∧ or_row_pk r = row_pk ∧ or_applied r = 1%Z.
#[export] Instance row_at_dec store table row_pk r : Decision (row_at store table row_pk r).
Proof. unfold row_at. apply _. Defined.
(** The applied ops of one row. *)
Definition lww_rows (store table row_pk : string) (rows : list OplogRow) : list OplogRow :=
  filter (row_at store table row_pk) rows.

(** The payload column is empty for rows whose envelope carries it. *)
Definition resolved_payload (payload envelope : bytes) : bytes :=
  if decide (payload ≠ []) then payload
  else match op_from_bytes envelope with Ok op => op_payload (op_body op) | Err _ => [] end.
Definition row_payload (r : OplogRow) : bytes := resolved_payload (or_payload r) (or_envelope r).

(** [upsert_head]: the insert with its conflict clause, then the origin. *)
Definition advance_head (k : RowKey) (key : SqlKey) (payload : bytes) (heads : gmap RowKey HeadRow)
    : gmap RowKey HeadRow :=
  match heads !! k with
  | None => <[k := mk_head key.1 key.2.1 key.2.2 payload (Some key.2.1)]> heads
  | Some h =>
      if decide (head_key h ≺ key)
      then <[k := mk_head key.1 key.2.1 key.2.2 payload (h_origin h)]> heads
      else heads
  end.
Definition set_head_origin (origin : option bytes) (h : HeadRow) : HeadRow :=
  mk_head (h_hlc h) (h_device h) (h_op_id h) (h_payload h) origin.
Definition correct_origin (k : RowKey) (key : SqlKey) (d : Db) : Db :=
  let '(store, table, row_pk) := k in
  if decide (Exists (λ r, row_key r ≺ key) (lww_rows store table row_pk (db_oplog d))) then d
  else set_heads (alter (set_head_origin (Some key.2.1)) k (db_heads d)) d.

Definition upsert_head (op : SignedOp) (table row_pk : string) : sql Db () :=
  let k := (as_str (op_store (op_body op)), table, row_pk) in
  let key := bind_key (order_key op) in
  _ ← sql_try "oplog upsert head";
  _ ← sql_mod (λ d, set_heads (advance_head k key (op_payload (op_body op)) (db_heads d)) d);
  _ ← sql_try "oplog head origin";
  sql_mod (correct_origin k key).

(** [ORDER BY hlc DESC, device_id DESC, op_id DESC LIMIT 1] over one row's ops. *)
Definition row_winner (store table row_pk : string) (d : Db) : option OplogRow :=
  newest row_key (lww_rows store table row_pk (db_oplog d)).

Definition op_coordinates (op_id : OpId) (d : Db) : option RowKey :=
  (λ r, (or_store r, or_table r, or_row_pk r)) <$>
    head (filter (λ r, or_op_id r = vec_to_list op_id) (db_oplog d)).

Definition demote_head (op_id : OpId) : sql Db () :=
  _ ← sql_try "oplog demote coordinates lookup";
  coordinates ← sql_get (op_coordinates op_id);
  match coordinates with
  | None => mret ()
  | Some (store, table, row_pk) =>
      let k := (store, table, row_pk) in
      _ ← sql_try "oplog demote head lookup";
      head ← sql_get (λ d, db_heads d !! k);
      if decide (h_op_id <$> head = Some (vec_to_list op_id)) then
        _ ← sql_try "oplog demote head select";
        replacement ← sql_get (row_winner store table row_pk);
        match replacement with
        | Some r =>
            _ ← sql_try "oplog demote head rederive";
            sql_mod (λ d, set_heads (alter (λ h,
              mk_head (or_hlc r) (or_device r) (or_op_id r) (row_payload r) (h_origin h)) k (db_heads d)) d)
        | None =>
            _ ← sql_try "oplog demote head delete";
            sql_mod (λ d, set_heads (delete k (db_heads d)) d)
        end
      else mret ()
  end.

Definition row_origin (store table row_pk : string) (d : Db) : option bytes :=
  or_device <$> oldest row_key (lww_rows store table row_pk (db_oplog d)).

Definition rebuild_head (store table row_pk : string) : sql Db () :=
  let k := (store, table, row_pk) in
  _ ← sql_try "oplog rebuild head select";
  newest ← sql_get (row_winner store table row_pk);
  match newest with
  | Some r =>
      _ ← sql_try "oplog rebuild head";
      sql_mod (λ d, set_heads (<[k := mk_head (or_hlc r) (or_device r) (or_op_id r) (row_payload r)
        (row_origin store table row_pk d)]> (db_heads d)) d)
  | None =>
      _ ← sql_try "oplog rebuild head clear";
      sql_mod (λ d, set_heads (delete k (db_heads d)) d)
  end.

(** ** Append *)

(** What SQLite supplies to an insert: the arrival's new row id, which exceeds
    every one in the table, and the clock. *)
Record ArrivalStamp : Type := mk_stamp { st_seq : Z; st_now : Z }.

Definition max_of (l : list Z) : Z := foldr Z.max 0%Z l.

Lemma max_of_le l z : z ∈ l → (z ≤ max_of l)%Z.
Proof. unfold max_of. induction l as [|x l IH]; cbn; [by intros ?%not_elem_of_nil|]. intros [->|Hz%IH]%elem_of_cons; lia. Qed.
Lemma max_of_cases l : max_of l = 0%Z ∨ max_of l ∈ l.
Proof.
  unfold max_of. induction l as [|x l IH]; cbn; [by left|]. destruct (Z.max_spec x (foldr Z.max 0%Z l)) as [[_ ->]|[_ ->]].
  - destruct IH as [->|IH]; [by left|]. right. by right.
  - right. left.
Qed.
Lemma max_of_pos l : (0 ≤ max_of l)%Z.
Proof. unfold max_of. induction l; cbn; lia. Qed.

Definition op_row (rowid : Z) (op : SignedOp) (envelope : bytes) (table row_pk : string) (origin : Z) : OplogRow :=
  let '(hlc, (device, op_id)) := bind_key (order_key op) in
  mk_oplog_row rowid op_id hlc device (as_str (op_store (op_body op))) [] envelope table row_pk origin 1.

Definition oplog_append (st : ArrivalStamp) (op : SignedOp) (table row_pk : string) (origin : Z) : sql Db bool :=
  envelope ← sql_lift (map_err (λ e, sql_error "encode op envelope" (OpError_display e)) (op_to_bytes op));
  _ ← sql_try "oplog append";
  ids ← sql_get (λ d, or_op_id <$> db_oplog d);
  if decide (vec_to_list (op_id op) ∈ ids) then mret false
  else
    _ ← sql_mod (λ d, set_oplog (db_oplog d ++
          [op_row (max_of (or_rowid <$> db_oplog d) + 1) op envelope table row_pk origin]) d);
    _ ← sql_try "oplog arrival append";
    _ ← sql_mod (λ d, set_arrivals (db_arrivals d ++
          [mk_arrival (st_seq st) (vec_to_list (op_id op)) (st_now st)]) d);
    _ ← upsert_head op table row_pk;
    _ ← (if decide (origin = ORIGIN_LOCAL) then note_own_op op else mret ());
    mret true.

(** ** The relay stream *)

Definition max_seq (d : Db) : Z := max_of (ar_seq <$> db_arrivals d).
Definition relay_state_row (row : bytes * Z) (head : Z) : result string RelayStreamState :=
  epoch ← ok_or (vec_of_list 32 row.1) (conversion_failure 0 "relay stream epoch");
  head_seq ← ok_or (u64_try head) (integral_out_of_range 1 (- 2 ^ 63));
  compacted ← ok_or (u64_try row.2) (integral_out_of_range 2 (- 2 ^ 63));
  Ok (mk_stream epoch head_seq compacted).
Definition sql_relay_stream_state : sql Db RelayStreamState :=
  _ ← sql_try "relay stream state";
  row ← sql_get db_relay_state;
  head ← sql_get max_seq;
  row ← sql_lift (ok_or row (sql_error "relay stream state" no_rows));
  sql_lift (row_error "relay stream state" (relay_state_row row head)).

(** [oplog_arrivals JOIN oplog USING (op_id)] *)
Definition joined (d : Db) : list (Arrival * OplogRow) :=
  a ← db_arrivals d;
  (λ r, (a, r)) <$> filter (λ r, or_op_id r = ar_op_id a) (db_oplog d).

Definition relay_entry (row : Z * bytes) : result SqliteError (Z * SignedOp * bytes) :=
  seq ← ok_or (u64_try row.1) (SqlOther "relay sequence is negative");
  op ← map_err (λ e, sql_error "relay envelope decode" (OpError_display e)) (op_from_bytes row.2);
  Ok (seq, op, row.2).
Definition sql_relay_since_with_envelopes (after limit : Z) : sql Db (list (Z * SignedOp * bytes)) :=
  after ← sql_lift (ok_or (i64_try after) (SqlInvalidArgument "relay cursor exceeds SQLite range"));
  limit ← sql_lift (ok_or (i64_try limit) (SqlInvalidArgument "relay page limit exceeds SQLite range"));
  _ ← sql_try "relay since prepare";
  _ ← sql_try "relay since query";
  rows ← sql_get (λ d,
    sql_limit limit (order_by fst
      ((λ '(a, r), (ar_seq a, or_envelope r)) <$> filter (λ p, (after < ar_seq p.1)%Z) (joined d))));
  sql_rows "relay since row" (λ row, Some <$> relay_entry row) rows.
Definition sql_relay_since (after limit : Z) : sql Db (list (Z * SignedOp)) :=
  rows ← sql_relay_since_with_envelopes after limit;
  mret ((λ '(seq, op, _), (seq, op)) <$> rows).

(** One origin's rows above a bound; [-1] and the empty blob stand for no bound. *)
Definition origin_bound (after : option OrderKey) : Z * bytes :=
  match after with
  | Some key => (as_i64 (ok_hlc key), vec_to_list (ok_op_id key))
  | None => (-1, [])%Z
  end.
Definition origin_entry (origin : DeviceId) (row : OplogRow) : option (OrderKey * bytes) :=
  (λ op_id, (mk_OrderKey (as_u64 (or_hlc row)) origin op_id, or_envelope row)) <$> vec_of_list 32 (or_op_id row).
Definition sql_origin_since (origin : DeviceId) (after : option OrderKey) (store : option string) (limit : Z)
    : sql Db (list (OrderKey * bytes)) :=
  let '(after_hlc, after_op_id) := origin_bound after in
  _ ← (match store with Some _ => mret () | None => needs_origin_index "origin since prepare" end);
  _ ← sql_try "origin since prepare";
  _ ← sql_try "origin since query";
  rows ← sql_get (λ d,
    match store with
    | Some store =>
        sql_limit (as_i64 limit) (order_by row_key
          (filter (λ r, or_store r = store ∧ or_device r = vec_to_list origin ∧
                        (after_hlc, (vec_to_list origin, after_op_id)) ≺ row_key r) (db_oplog d)))
    | None =>
        sql_limit (as_i64 limit) (order_by origin_key
          (filter (λ r, or_device r = vec_to_list origin ∧ (after_hlc, after_op_id) ≺ origin_key r) (db_oplog d)))
    end);
  sql_rows "origin since row" (λ row, Ok (origin_entry origin row)) rows.

(** ** Cursors *)

Definition relay_cursor_row (row : bytes * Z) : result string RelayCursor :=
  epoch ← ok_or (vec_of_list 32 row.1) (conversion_failure 0 "relay cursor epoch");
  seq ← ok_or (u64_try row.2) (integral_out_of_range 1 (- 2 ^ 63));
  Ok (mk_cursor epoch seq).
Definition sql_load_relay_cursor (peer : DeviceId) : sql Db (option RelayCursor) :=
  _ ← sql_try "load relay cursor";
  row ← sql_get (λ d, match db_relay_cursors d !! vec_to_list peer with
                      | Some (version, epoch, seq) => if decide (version = 2)%Z then Some (epoch, seq) else None
                      | None => None
                      end);
  optional_row "load relay cursor" relay_cursor_row row.
Definition sql_reset_relay_cursor (peer : DeviceId) (epoch : barr 32) (seq : Z) : sql Db () :=
  _ ← sql_try "reset relay cursor";
  sql_mod (λ d, set_relay_cursors
    (<[vec_to_list peer := (2%Z, vec_to_list epoch, as_i64 seq)]> (db_relay_cursors d)) d).
(** The conflict clause: folded within an epoch, replaced across epochs. *)
Definition fold_cursor (epoch : bytes) (seq : Z) (stored : option (Z * bytes * Z)) : Z * bytes * Z :=
  match stored with
  | Some (_, stored_epoch, stored_seq) =>
      (2, epoch, if decide (stored_epoch = epoch) then Z.max stored_seq seq else seq)%Z
  | None => (2, epoch, seq)%Z
  end.
Definition sql_save_relay_cursor (peer : DeviceId) (cursor : RelayCursor) : sql Db () :=
  seq ← sql_lift (ok_or (i64_try (rc_after cursor)) (SqlInvalidArgument "relay cursor exceeds SQLite range"));
  _ ← sql_try "save relay cursor";
  sql_mod (λ d, set_relay_cursors
    (<[vec_to_list peer := fold_cursor (vec_to_list (rc_epoch cursor)) seq (db_relay_cursors d !! vec_to_list peer)]>
       (db_relay_cursors d)) d).
(** [random] is what [randomblob(32)] drew. *)
Definition rotate_relay_stream_epoch (random : barr 32) : sql Db () :=
  _ ← sql_try "rotate relay stream epoch";
  sql_mod (λ d, set_relay_state ((λ _, (vec_to_list random, 0%Z)) <$> db_relay_state d) d).

Definition sql_load_cursor (peer : DeviceId) : sql Db OrderKey :=
  _ ← sql_try "load cursor";
  stored ← sql_get (λ d, db_sync_cursors d !! vec_to_list peer);
  mret (match stored with
        | Some bytes => match vec_of_list 72 bytes with Some arr => from_wire arr | None => OrderKey_MIN end
        | None => OrderKey_MIN
        end).
Definition sql_save_cursor (peer : DeviceId) (cursor : OrderKey) : sql Db () :=
  _ ← sql_try "save cursor";
  sql_mod (λ d, set_sync_cursors
    (raise_claim (vec_to_list peer) (vec_to_list (to_wire cursor)) (db_sync_cursors d)) d).

(** ** Winners *)

(** The head answers unless it is the excluded op. *)
Definition others_winner (store table row_pk : string) (exclude : OpId) (d : Db) : option OplogRow :=
  newest row_key (filter (λ r, or_op_id r ≠ vec_to_list exclude) (lww_rows store table row_pk (db_oplog d))).
Definition newest_applied_in_store (store table row_pk : string) (exclude : OpId) : sql Db (option OrderKey) :=
  _ ← sql_try "oplog newest_applied_in_store head";
  head ← sql_get (λ d, db_heads d !! (store, table, row_pk));
  head ← optional_row "oplog newest_applied_in_store head" (λ h, order_key_from_row (head_key h)) head;
  match head with
  | Some key =>
      if decide (ok_op_id key ≠ exclude) then mret (Some key)
      else
        _ ← sql_try "oplog newest_applied_in_store";
        row ← sql_get (others_winner store table row_pk exclude);
        optional_row "oplog newest_applied_in_store" (λ r, order_key_from_row (row_key r)) row
  | None =>
      _ ← sql_try "oplog newest_applied_in_store";
      row ← sql_get (others_winner store table row_pk exclude);
      optional_row "oplog newest_applied_in_store" (λ r, order_key_from_row (row_key r)) row
  end.
Definition newest_applied (table row_pk : string) (exclude : OpId) : sql Db (option OrderKey) :=
  newest_applied_in_store STORE_ID table row_pk exclude.

Definition head_with_payload (h : HeadRow) : result string (OrderKey * bytes) :=
  key ← order_key_from_row (head_key h); Ok (key, h_payload h).
Definition row_with_payload (r : OplogRow) : result string (OrderKey * bytes) :=
  key ← order_key_from_row (row_key r); Ok (key, row_payload r).
Definition newest_op_in_store (store table row_pk : string) (exclude : OpId) : sql Db (option (OrderKey * bytes)) :=
  _ ← sql_try "oplog newest_op_in_store head";
  head ← sql_get (λ d, db_heads d !! (store, table, row_pk));
  head ← optional_row "oplog newest_op_in_store head" head_with_payload head;
  let scan :=
    _ ← sql_try "oplog newest_op_in_store";
    row ← sql_get (others_winner store table row_pk exclude);
    optional_row "oplog newest_op_in_store" row_with_payload row in
  match head with
  | Some (key, payload) => if decide (ok_op_id key ≠ exclude) then mret (Some (key, payload)) else scan
  | None => scan
  end.

(** ** Queries *)

Fixpoint chunks {A} (fuel n : nat) (l : list A) : list (list A) :=
  match fuel, l with
  | _, [] => []
  | 0, _ => []
  | S fuel, _ => take n l :: chunks fuel n (drop n l)
  end.
Definition NEWEST_CHUNK : nat := 500.
Definition chunk_heads (store table : string) (chunk : list string) (d : Db) : list (string * bytes) :=
  (λ '((_, _, row_pk), h), (row_pk, h_payload h)) <$>
    filter (λ '((s, t, row_pk), _), s = store ∧ t = table ∧ row_pk ∈ chunk) (map_to_list (db_heads d)).
Definition newest_ops_in_store (store table : string) (row_pks : list string) : sql Db (gmap string bytes) :=
  sql_fold (λ found chunk,
    _ ← sql_try "oplog newest_ops_in_store prepare";
    _ ← sql_try "oplog newest_ops_in_store query";
    rows ← sql_get (chunk_heads store table chunk);
    rows ← sql_rows "oplog newest_ops_in_store row" (λ row, Ok (Some row)) rows;
    mret (foldl (λ m '(row_pk, payload), <[row_pk := payload]> m) found rows))
    ∅ (chunks (length row_pks) NEWEST_CHUNK row_pks).

(** The head's recorded origin, when it is one. *)
Definition recorded_origin (store table row_pk : string) (d : Db) : option DeviceId :=
  h ← db_heads d !! (store, table, row_pk);
  device ← h_origin h;
  vec_of_list 32 device.
Definition sql_origin_device (store table row_pk : string) : sql Db (option DeviceId) :=
  _ ← sql_try "oplog origin_device head";
  recorded ← sql_get (recorded_origin store table row_pk);
  match recorded with
  | Some device => mret (Some device)
  | None =>
      _ ← sql_try "oplog origin_device";
      row ← sql_get (row_origin store table row_pk);
      optional_row "oplog origin_device" (λ device, ok_or (vec_of_list 32 device) (conversion_failure 0 "device id")) row
  end.

Definition ops_for_row_asc (store table row_pk : string) : sql Db (list (OpId * bytes)) :=
  _ ← sql_try "oplog ops_for_row_asc prepare";
  _ ← sql_try "oplog ops_for_row_asc query";
  rows ← sql_get (λ d, order_by row_key (lww_rows store table row_pk (db_oplog d)));
  sql_rows "oplog ops_for_row_asc row" (λ r, Ok ((λ i, (i, row_payload r)) <$> vec_of_list 32 (or_op_id r))) rows.

Definition find_op (id : OpId) (d : Db) : option OplogRow :=
  head (filter (λ r, or_op_id r = vec_to_list id) (db_oplog d)).
Definition load_op (id : OpId) : sql Db (option SignedOp) :=
  _ ← sql_try "oplog load_op";
  row ← sql_get (find_op id);
  match row with
  | Some row =>
      op ← sql_lift (map_err (λ e, sql_error "oplog load_op decode" (OpError_display e)) (op_from_bytes (or_envelope row)));
      mret (Some op)
  | None => mret None
  end.
Definition oplog_contains (id : OpId) : sql Db bool :=
  _ ← sql_try "oplog contains";
  sql_get (λ d, bool_decide (is_Some (find_op id d))).

Definition oplog_head : sql Db (option OrderKey) :=
  _ ← sql_try "oplog head";
  row ← sql_get (λ d, newest row_key (db_oplog d));
  optional_row "oplog head" (λ r, order_key_from_row (row_key r)) row.
Definition head_in_store (store : string) : sql Db (option OrderKey) :=
  _ ← sql_try "oplog head_in_store";
  row ← sql_get (λ d, newest row_key (filter (λ r, or_store r = store) (db_oplog d)));
  optional_row "oplog head_in_store" (λ r, order_key_from_row (row_key r)) row.

(** A row that does not decode is skipped. *)
Definition decoded (r : OplogRow) : option SignedOp := ok (op_from_bytes (or_envelope r)).
Definition oplog_since (cursor : OrderKey) (limit : Z) : sql Db (list SignedOp) :=
  _ ← sql_try "oplog since prepare";
  _ ← sql_try "oplog since query";
  rows ← sql_get (λ d, sql_limit (as_i64 limit)
    (order_by row_key (filter (λ r, bind_key cursor ≺ row_key r) (db_oplog d))));
  sql_rows "oplog since row" (λ r, Ok (decoded r)) rows.
Definition since_in_store (store : string) (cursor : OrderKey) (limit : Z) : sql Db (list SignedOp) :=
  _ ← sql_try "oplog since prepare";
  _ ← sql_try "oplog since query";
  rows ← sql_get (λ d, sql_limit (as_i64 limit)
    (order_by row_key (filter (λ r, or_store r = store ∧ bind_key cursor ≺ row_key r) (db_oplog d))));
  sql_rows "oplog since row" (λ r, Ok (decoded r)) rows.

(** [COALESCE(MAX(_rowid_), 0)] *)
Definition oplog_stats : sql Db Z :=
  _ ← sql_try "oplog stats";
  sql_get (λ d, max_of (or_rowid <$> db_oplog d)).

(** ** The log source *)

Definition RELAY_PAGE_MAX_BYTES : Z := 4 * 1024 * 1024.
Definition relay_state_conn (d : Db) (fs : faults) : result string (option RelayStreamState) :=
  Some <$> map_err SqliteError_display (sql_relay_stream_state d fs).1.
(** The loop of [relay_page_conn]: the first entry always fits. *)
Fixpoint page_entries (rows : list (Z * SignedOp * bytes)) (total : Z) (entries : list RelayLogEntry)
    : list RelayLogEntry :=
  match rows with
  | [] => entries
  | (seq, op, envelope) :: rows =>
      if decide (entries ≠ [] ∧ (RELAY_PAGE_MAX_BYTES < total + len envelope)%Z) then entries
      else page_entries rows (total + len envelope) (entries ++ [mk_relay_entry seq op])
  end.
(** [begin] and [commit] are what opening and ending the read transaction answer. *)
Definition relay_page_conn (begin commit : result string ()) (after limit : Z) (d : Db) (fs : faults)
    : result string (option RelayLogPage) :=
  _ ← begin;
  let '(st, (_, fs)) := sql_relay_stream_state d fs in
  st ← map_err SqliteError_display st;
  rows ← map_err SqliteError_display (sql_relay_since_with_envelopes after limit d fs).1;
  _ ← commit;
  Ok (Some (mk_relay_page st (page_entries rows 0 []))).
End sql_log.
