(* ===== verification/SqlHeads.v ===== *)
(** * The materialised winner of every row ([src/sqlite/oplog_heads.rs])

    [oplog_heads] holds, per row, the newest applied op of the log and the
    device of the oldest.  Every statement that maintains it keeps it so, and
    the head-first reads answer what a scan of the log would. *)

From S2P Require Import Prelude Ordered External Toy Identity Words Op RowOp Log Pull Sql SqlDb SqlLog.
Import BTree.

Section heads.
Context `{Rusqlite, Postcard, !Wire EnvelopeRepr}.
Implicit Types d : Db.

(** ** The invariant *)

Definition ids_distinct (d : Db) : Prop := NoDup (or_op_id <$> db_oplog d).

Definition head_of (r : OplogRow) (origin : option bytes) : HeadRow :=
  mk_head (or_hlc r) (or_device r) (or_op_id r) (row_payload r) origin.
(** The head of a row is its newest applied op, with its payload. *)
Definition head_for (o : option HeadRow) (rows : list OplogRow) : Prop :=
  match newest row_key rows with
  | None => o = None
  | Some r => ∃ origin, o = Some (head_of r origin)
  end.
(** The recorded origin is the device of its oldest. *)
Definition origin_for (o : option HeadRow) (rows : list OplogRow) : Prop :=
  match o with Some h => h_origin h = or_device <$> oldest row_key rows | None => True end.

Definition head_at (store table row_pk : string) (d : Db) : option HeadRow := db_heads d !! (store, table, row_pk).
Definition rows_at (store table row_pk : string) (d : Db) : list OplogRow := lww_rows store table row_pk (db_oplog d).

Definition heads_ok (d : Db) : Prop :=
  ids_distinct d ∧ ∀ store table row_pk, head_for (head_at store table row_pk d) (rows_at store table row_pk d).
Definition origins_ok (d : Db) : Prop :=
  ∀ store table row_pk, origin_for (head_at store table row_pk d) (rows_at store table row_pk d).

Lemma NoDup_row_keys rows : NoDup (or_op_id <$> rows) → NoDup (row_key <$> rows).
Proof. intros Hnd. apply (NoDup_fmap_1 (λ k : SqlKey, k.2.2)). by rewrite <-list_fmap_compose. Qed.
Lemma NoDup_ids_filter (P : OplogRow → Prop) `{!∀ r, Decision (P r)} rows :
  NoDup (or_op_id <$> rows) → NoDup (or_op_id <$> filter P rows).
Proof. intros Hnd. eapply sublist_NoDup; [exact Hnd|]. apply fmap_sublist, sublist_filter. Qed.
Lemma rows_at_keys d store table row_pk : ids_distinct d → NoDup (row_key <$> rows_at store table row_pk d).
Proof. intros Hnd. apply NoDup_row_keys. by apply NoDup_ids_filter. Qed.

(** ** One more applied op *)

(** A logged row of an op: its columns are the op's, and its envelope decodes to
    the op, signature included. *)
Definition row_of_op (op : SignedOp) (r : OplogRow) : Prop :=
  row_key r = bind_key (order_key op) ∧ or_store r = as_str (op_store (op_body op)) ∧
  row_payload r = op_payload (op_body op) ∧ op_from_bytes (or_envelope r) = Ok op.

Lemma advance_head_at k key payload heads k' :
  advance_head k key payload heads !! k' =
    if decide (k' = k) then
      Some (match heads !! k with
            | None => mk_head key.1 key.2.1 key.2.2 payload (Some key.2.1)
            | Some h => if decide (head_key h ≺ key) then mk_head key.1 key.2.1 key.2.2 payload (h_origin h) else h
            end)
    else heads !! k'.
Proof.
  unfold advance_head. destruct (heads !! k) as [h|] eqn:Hk; repeat case_decide; subst;
    rewrite ?lookup_insert_eq, ?lookup_insert_ne by done; done.
Qed.

Lemma upsert_head_runs op table row_pk d u d' :
  runs (upsert_head op table row_pk) d u d' →
  let store := as_str (op_store (op_body op)) in
  let key := bind_key (order_key op) in
  db_oplog d' = db_oplog d ∧ d' = set_heads (db_heads d') d ∧
  ∀ k, db_heads d' !! k =
    if decide (k = (store, table, row_pk)) then
      (λ h, if decide (Exists (λ r, row_key r ≺ key) (rows_at store table row_pk d)) then h
            else set_head_origin (Some key.2.1) h) <$>
        advance_head (store, table, row_pk) key (op_payload (op_body op)) (db_heads d) !! k
    else db_heads d !! k.
Proof.
  intros Hr store key. unfold upsert_head in Hr. fold store key in Hr. run_all. cbv beta iota.
  unfold correct_origin, rows_at. cbn [db_oplog set_heads]. case_decide as Hex; cbn; (split_and!; [done..|]).
  - intros k. case_decide as Hk; [by destruct (_ !! k)|]. by rewrite advance_head_at, decide_False.
  - intros k. case_decide as Hk.
    + subst. by rewrite lookup_alter_eq.
    + rewrite lookup_alter_ne by done. by rewrite advance_head_at, decide_False.
Qed.

Lemma upsert_head_ok op table row_pk d u d' r rest :
  let store := as_str (op_store (op_body op)) in
  runs (upsert_head op table row_pk) d u d' → row_of_op op r → ids_distinct d →
  rows_at store table row_pk d ≡ₚ r :: rest →
  head_for (head_at store table row_pk d) rest →
  head_for (head_at store table row_pk d') (rows_at store table row_pk d) ∧
  (origin_for (head_at store table row_pk d) rest →
   origin_for (head_at store table row_pk d') (rows_at store table row_pk d)).
Proof.
  intros store Hr (Hkey & _ & Hpay & _) Hnd Hp Hhead. apply upsert_head_runs in Hr as (_ & _ & Hk). fold store in Hk.
  unfold head_at in *. specialize (Hk (store, table, row_pk)).
  rewrite decide_True, advance_head_at, decide_True in Hk by done. rewrite Hk. clear Hk. cbn [fmap option_fmap option_map].
  pose proof (rows_at_keys d store table row_pk Hnd) as Hkeys.
  assert (Hex : Exists (λ x, row_key x ≺ bind_key (order_key op)) (rows_at store table row_pk d) ↔
                ∃ x, x ∈ rest ∧ row_key x ≺ row_key r).
  { rewrite Exists_exists, <-Hkey. setoid_rewrite Hp. split.
    - intros (x & [->|Hx]%elem_of_cons & Hlt); [by apply olt_irrefl in Hlt|eauto].
    - intros (x & Hx & Hlt). exists x. set_solver. }
  unfold head_for in Hhead |- *. rewrite (newest_insert row_key rest (rows_at store table row_pk d) r) by done.
  unfold origin_for. rewrite (oldest_insert row_key rest (rows_at store table row_pk d) r) by done.
  rewrite <-Hkey in Hex |- *.
  assert (Hmk : ∀ o, mk_head (row_key r).1 (row_key r).2.1 (row_key r).2.2 (op_payload (op_body op)) o = head_of r o)
    by (intros o; unfold head_of; by rewrite Hpay).
  destruct (newest row_key rest) as [w|] eqn:Hw.
  - destruct Hhead as [o Ho]. rewrite Ho. change (head_key (head_of w o)) with (row_key w). split.
    + repeat case_decide; rewrite ?Hmk; by eexists.
    + cbn [h_origin head_of]. intros Hold.
      destruct (oldest row_key rest) as [z|] eqn:Hz;
        [|apply oldest_none in Hz as ->; by rewrite (proj2 (newest_none row_key [])) in Hw].
      apply oldest_some in Hz as [Hzin Hmin].
      destruct (decide (Exists _ _)) as [He|He].
      * apply Hex in He as (x & Hx & Hlt). rewrite (decide_False (P := row_key r ≺ row_key z)).
        { case_decide; cbn; by rewrite Hold. }
        intros Hrz. apply (olt_irrefl (row_key r)). transitivity (row_key z); [done|].
        eapply ole_olt_trans; [by apply Hmin|done].
      * rewrite (decide_True (P := row_key r ≺ row_key z)); [by case_decide|].
        apply olt_not_ole. intros [Hlt|Heq]%ole_alt; [apply He, Hex; eauto|].
        rewrite Hp in Hkeys. apply NoDup_cons in Hkeys as [Hnin _]. apply Hnin. rewrite <-Heq.
        by apply list_elem_of_fmap_2.
  - rewrite Hhead, Hmk. apply newest_none in Hw. subst rest. split; [case_decide; by eexists|].
    intros _. case_decide; done.
Qed.

(** ** Append *)

Context `{!WireOk EnvelopeRepr}.

Lemma op_row_of_op rowid op envelope table row_pk origin :
  op_to_bytes op = Ok envelope → op_v (op_body op) = ENVELOPE_VERSION →
  row_of_op op (op_row rowid op envelope table row_pk origin).
Proof.
  intros Henv Hv. unfold row_of_op, row_payload, resolved_payload, op_row, bind_key. cbn. split_and!.
  1-2: done.
  - rewrite decide_False by (intros Hne; by apply Hne). rewrite (op_to_bytes_inv _ _ Henv). by rewrite decide_True.
  - rewrite (op_to_bytes_inv _ _ Henv). by rewrite decide_True.
Qed.

(** What a successful append leaves. *)
Record appended (st : ArrivalStamp) (op : SignedOp) (table row_pk : string) (origin : Z) (d d' : Db) : Prop := {
  app_fresh : vec_to_list (op_id op) ∉ or_op_id <$> db_oplog d;
  app_env : ∃ envelope, op_to_bytes op = Ok envelope ∧
    db_oplog d' = db_oplog d ++ [op_row (max_of (or_rowid <$> db_oplog d) + 1) op envelope table row_pk origin];
  app_arrivals : db_arrivals d' = db_arrivals d ++ [mk_arrival (st_seq st) (vec_to_list (op_id op)) (st_now st)];
  app_heads : ∃ d1, runs (upsert_head op table row_pk) (set_arrivals (db_arrivals d') (set_oplog (db_oplog d') d)) () d1 ∧
    db_heads d' = db_heads d1;
  app_relay : db_relay_state d' = db_relay_state d;
  app_coverage : db_coverage d' = if decide (origin = ORIGIN_LOCAL)
    then raise_claim (vec_to_list (op_device (op_body op))) (vec_to_list (to_wire (order_key op))) (db_coverage d)
    else db_coverage d;
  app_index : db_origin_index d' = db_origin_index d;
  app_acks : db_acks d' = db_acks d;
  app_cursors : db_relay_cursors d' = db_relay_cursors d;
}.

Lemma oplog_append_runs st op table row_pk origin d new d' :
  runs (oplog_append st op table row_pk origin) d new d' →
  if new then appended st op table row_pk origin d d'
  else d' = d ∧ vec_to_list (op_id op) ∈ or_op_id <$> db_oplog d.
Proof.
  intros Hr. unfold oplog_append in Hr. apply runs_bind in Hr as (envelope & d0 & Henv & Hr); [|apply _].
  apply runs_lift in Henv as [Henv%map_err_ok <-].
  apply runs_bind in Hr as ([] & d0 & <-%runs_try & Hr); [|apply _].
  apply runs_bind in Hr as (ids & d0 & [-> <-]%runs_get & Hr); [|apply _].
  case_decide as Hin; [by apply runs_ret in Hr as [<- <-]|].
  apply runs_bind in Hr as ([] & d1 & Hd1%runs_mod & Hr); [|apply _].
  apply runs_bind in Hr as ([] & d0 & <-%runs_try & Hr); [|apply _].
  apply runs_bind in Hr as ([] & d2 & Hd2%runs_mod & Hr); [|apply _].
  apply runs_bind in Hr as ([] & d3 & Hup & Hr); [|apply _].
  apply runs_bind in Hr as ([] & d4 & Hown & [<- <-]%runs_ret); [|apply _].
  destruct (upsert_head_runs _ _ _ _ _ _ Hup) as (_ & Hd3 & _).
  assert (Hd4 : d4 = set_coverage (db_coverage d4) d3 ∧
    db_coverage d4 = if decide (origin = ORIGIN_LOCAL)
      then raise_claim (vec_to_list (op_device (op_body op))) (vec_to_list (to_wire (order_key op))) (db_coverage d3)
      else db_coverage d3).
  { case_decide; [|apply runs_ret in Hown as [_ <-]; by destruct d3].
    unfold note_own_op, sql_advance_local_coverage in Hown. apply runs_bind in Hown as ([] & d0 & <-%runs_try & Hown); [|apply _].
    apply runs_mod in Hown as ->. done. }
  destruct Hd4 as [Hd4 Hcov]. subst d1 d2. rewrite Hd3 in Hd4, Hcov. cbn in Hcov.
  rewrite Hd4. split; cbn; try done; [by eexists|]. exists d3. by split.
Qed.

Lemma rows_at_snoc d d' r store table row_pk :
  db_oplog d' = db_oplog d ++ [r] →
  rows_at store table row_pk d' =
    if decide (row_at store table row_pk r) then rows_at store table row_pk d ++ [r] else rows_at store table row_pk d.
Proof.
  intros Hlog. unfold rows_at, lww_rows. rewrite Hlog, filter_app, filter_cons, filter_nil.
  case_decide; [done|]. by rewrite app_nil_r.
Qed.

Lemma append_ids st op table row_pk origin d d' :
  appended st op table row_pk origin d d' → ids_distinct d → ids_distinct d'.
Proof.
  intros Ha Hnd. destruct (app_env _ _ _ _ _ _ _ Ha) as (envelope & _ & Hlog). unfold ids_distinct.
  rewrite Hlog, fmap_app. apply NoDup_app. split_and!; [done| |apply NoDup_singleton].
  intros i Hi ->%list_elem_of_singleton. by apply (app_fresh _ _ _ _ _ _ _ Ha).
Qed.

Lemma append_head st op table row_pk origin d d' s t p :
  appended st op table row_pk origin d d' → op_v (op_body op) = ENVELOPE_VERSION → ids_distinct d →
  head_for (head_at s t p d) (rows_at s t p d) →
  head_for (head_at s t p d') (rows_at s t p d') ∧
  (origin_for (head_at s t p d) (rows_at s t p d) → origin_for (head_at s t p d') (rows_at s t p d')).
Proof.
  intros Ha Hv Hnd Hhead. pose proof (append_ids _ _ _ _ _ _ _ Ha Hnd) as Hnd'.
  destruct (app_env _ _ _ _ _ _ _ Ha) as (envelope & Henv & Hlog), (app_heads _ _ _ _ _ _ _ Ha) as (d1 & Hup & Hheads).
  set (row := op_row _ _ _ _ _ _) in *. pose proof (op_row_of_op (max_of (or_rowid <$> db_oplog d) + 1) op envelope table row_pk origin Henv Hv) as Hrow.
  fold row in Hrow. pose proof (rows_at_snoc d d' row s t p Hlog) as Hrows.
  set (d0 := set_arrivals _ _) in Hup.
  assert (Hsame : rows_at s t p d0 = rows_at s t p d') by done.
  assert (Hat : head_at s t p d' = head_at s t p d1) by (unfold head_at; by rewrite Hheads).
  destruct (decide ((s, t, p) = (as_str (op_store (op_body op)), table, row_pk))) as [[= -> -> ->]|Hne].
  - rewrite decide_True in Hrows by done. rewrite Hat, Hrows, <-Hrows, <-Hsame.
    destruct (upsert_head_ok _ _ _ _ _ _ row (rows_at (as_str (op_store (op_body op))) table row_pk d) Hup Hrow) as [? ?].
    + exact Hnd'.
    + rewrite Hsame, Hrows. by rewrite Permutation_app_comm.
    + exact Hhead.
    + done.
  - rewrite decide_False in Hrows by (intros (Hs & Ht & Hp & _); apply Hne; by rewrite <-Hs, <-Ht, <-Hp).
    rewrite Hat, Hrows. destruct (upsert_head_runs _ _ _ _ _ _ Hup) as (_ & _ & Hk).
    unfold head_at. rewrite Hk, decide_False by done. by split.
Qed.

(** ** Demotion, rebuilding and re-application

    The callers are the host's.  What they did to the rows of the log before the
    call is a rewrite of which the comments of [oplog_heads.rs] say this: an op
    was marked [applied = 0]; ops moved between two row partitions; a demoted op
    was marked applied again under its canonical row.  The other columns stand. *)

Record host_update (f : OplogRow → OplogRow) : Prop := {
  hu_key r : row_key (f r) = row_key r;
  hu_store r : or_store (f r) = or_store r;
  hu_payload r : or_payload (f r) = or_payload r;
  hu_envelope r : or_envelope (f r) = or_envelope r;
}.
Lemma hu_id f r : host_update f → or_op_id (f r) = or_op_id r.
Proof. intros Hf. by injection (hu_key f Hf r). Qed.
Lemma hu_op f op r : host_update f → row_of_op op r → row_of_op op (f r).
Proof.
  intros [Hk Hs Hp He]. unfold row_of_op, row_payload. by rewrite Hk, Hs, Hp, He.
Qed.

Definition marks_unapplied (i : OpId) (f : OplogRow → OplogRow) : Prop := ∀ r,
  if decide (or_op_id r = vec_to_list i)
  then or_table (f r) = or_table r ∧ or_row_pk (f r) = or_row_pk r ∧ or_applied (f r) ≠ 1%Z
  else f r = r.
Definition in_partition (s t p : string) (r : OplogRow) : Prop := or_store r = s ∧ or_table r = t ∧ or_row_pk r = p.
Definition moves_rows (s t from to : string) (f : OplogRow → OplogRow) : Prop := ∀ r,
  f r = r ∨ (in_partition s t from r ∨ in_partition s t to r) ∧ (in_partition s t from (f r) ∨ in_partition s t to (f r)).
Definition marks_applied (i : OpId) (t p : string) (f : OplogRow → OplogRow) : Prop := ∀ r,
  if decide (or_op_id r = vec_to_list i)
  then or_table (f r) = t ∧ or_row_pk (f r) = p ∧ or_applied (f r) = 1%Z
  else f r = r.
Definition rewritten (f : OplogRow → OplogRow) (d : Db) : Db := set_oplog (f <$> db_oplog d) d.

Lemma rewrite_ids f d : host_update f → ids_distinct d → ids_distinct (rewritten f d).
Proof.
  intros Hf. unfold ids_distinct. cbn. rewrite <-list_fmap_compose.
  by replace ((or_op_id ∘ f) <$> db_oplog d) with (or_op_id <$> db_oplog d)
    by (apply list_fmap_ext; intros; symmetry; by apply hu_id).
Qed.

Lemma unapplied_rows i f d s t p :
  marks_unapplied i f →
  rows_at s t p (rewritten f d) = filter (λ r, or_op_id r ≠ vec_to_list i) (rows_at s t p d).
Proof.
  intros Hf. unfold rows_at, lww_rows. cbn. induction (db_oplog d) as [|r rows IH]; [done|].
  rewrite fmap_cons, !filter_cons, IH. specialize (Hf r). destruct (decide (or_op_id r = vec_to_list i)) as [Hi|Hi].
  - destruct Hf as (_ & _ & Hna). rewrite (decide_False (P := row_at s t p (f r))) by (by intros (_ & _ & _ & ?)).
    destruct (decide (row_at s t p r)); [|done]. rewrite filter_cons, decide_False; [done|]. intros Hn. by apply Hn.
  - rewrite Hf. destruct (decide (row_at s t p r)); [|done]. by rewrite filter_cons, decide_True.
Qed.

Lemma op_coordinates_at i d r :
  ids_distinct d → r ∈ db_oplog d → or_op_id r = vec_to_list i →
  op_coordinates i d = Some (or_store r, or_table r, or_row_pk r).
Proof.
  intros Hnd Hr Hi. unfold op_coordinates. destruct (filter _ _) as [|r' rest] eqn:Hf.
  - assert (Hin : r ∈ filter (λ r, or_op_id r = vec_to_list i) (db_oplog d)) by (by apply list_elem_of_filter).
    rewrite Hf in Hin. by apply not_elem_of_nil in Hin.
  - assert (Hin : r' ∈ filter (λ r, or_op_id r = vec_to_list i) (db_oplog d)) by (rewrite Hf; left).
    apply list_elem_of_filter in Hin as [Hi' Hin]. cbn.
    by rewrite (key_inj or_op_id (db_oplog d) r r' Hnd Hr Hin) by congruence.
Qed.

Lemma demote_head_runs i d u d' :
  runs (demote_head i) d u d' →
  d' = match op_coordinates i d with
       | Some (s, t, p) =>
           if decide (h_op_id <$> head_at s t p d = Some (vec_to_list i)) then
             match row_winner s t p d with
             | Some r => set_heads (alter (λ h, head_of r (h_origin h)) (s, t, p) (db_heads d)) d
             | None => set_heads (delete (s, t, p) (db_heads d)) d
             end
           else d
       | None => d
       end.
Proof.
  intros Hr. unfold demote_head in Hr. run_step. apply runs_try in H1; subst. run_step. apply runs_get in H1 as [-> ->].
  destruct (op_coordinates i _) as [[[s t] p]|]; [|by run_all]. run_step. apply runs_try in H1; subst.
  run_step. apply runs_get in H1 as [-> ->]. unfold head_at. case_decide; [|by run_all].
  run_step. apply runs_try in H2; subst. run_step. apply runs_get in H2 as [-> ->].
  destruct (row_winner s t p _); by run_all.
Qed.

(** Dropping an op that is not the head keeps the head. *)
Lemma head_for_without o rows (i : OpId) :
  NoDup (row_key <$> rows) → head_for o rows → h_op_id <$> o ≠ Some (vec_to_list i) →
  head_for o (filter (λ r, or_op_id r ≠ vec_to_list i) rows).
Proof.
  unfold head_for. intros Hnd Hhead Hne. destruct (newest row_key rows) as [r|] eqn:Hn.
  - destruct Hhead as [origin ->]. rewrite (newest_sub row_key rows _ r); [by eexists|done|done| |].
    + apply newest_some in Hn as [? _]. apply list_elem_of_filter. split; [|done]. intros Hi. by rewrite <-Hi in Hne.
    + intros x [_ ?]%list_elem_of_filter. done.
  - apply newest_none in Hn. subst rows. done.
Qed.

Lemma demote_head_ok i f d u d' s t p :
  host_update f → marks_unapplied i f → runs (demote_head i) (rewritten f d) u d' → ids_distinct d →
  head_for (head_at s t p d) (rows_at s t p d) →
  head_for (head_at s t p d') (rows_at s t p d') ∧ db_oplog d' = db_oplog (rewritten f d).
Proof.
  intros Hu Hf Hr%demote_head_runs Hnd Hhead. pose proof (rewrite_ids _ _ Hu Hnd) as Hnd'.
  assert (Hlog : db_oplog d' = db_oplog (rewritten f d)).
  { rewrite Hr. destruct (op_coordinates _ _) as [[[s' t'] p']|]; [|done]. case_decide; [|done]. by destruct (row_winner _ _ _ _). }
  split; [|done].
  assert (Hrows : rows_at s t p d' = rows_at s t p (rewritten f d)) by (unfold rows_at; by rewrite Hlog).
  rewrite Hrows. destruct (decide (h_op_id <$> head_at s t p d = Some (vec_to_list i))) as [Hi|Hi].
  - unfold head_for in Hhead. destruct (newest row_key (rows_at s t p d)) as [r|] eqn:Hn; [|rewrite Hhead in Hi; discriminate Hi].
    destruct Hhead as [origin Ho]. apply newest_some in Hn as [[(Hs & Ht & Hp & _) Hin]%list_elem_of_filter _].
    rewrite Ho in Hi. injection Hi as Hi.
    assert (Hco : op_coordinates i (rewritten f d) = Some (s, t, p)).
    { rewrite (op_coordinates_at i _ (f r)); [|done|by apply list_elem_of_fmap_2|by rewrite hu_id].
      specialize (Hf r). rewrite decide_True in Hf by done. destruct Hf as (-> & -> & _). by rewrite (hu_store f Hu), Hs, Ht, Hp. }
    rewrite Hco in Hr.
    change (head_at s t p (rewritten f d)) with (head_at s t p d) in Hr. rewrite Ho in Hr. cbn in Hr.
    rewrite decide_True in Hr by (by rewrite Hi). unfold row_winner in Hr. fold (rows_at s t p (rewritten f d)) in Hr.
    unfold head_for. destruct (newest row_key (rows_at s t p (rewritten f d))) as [w|] eqn:Hw; rewrite Hr; unfold head_at; cbn.
    + rewrite lookup_alter_eq. unfold head_at in Ho. rewrite Ho. by eexists.
    + apply lookup_delete_eq.
  - assert (Hat : head_at s t p d' = head_at s t p d).
    { rewrite Hr. destruct (op_coordinates _ _) as [[[s' t'] p']|]; [|done]. case_decide as Hk; [|done].
      assert ((s', t', p') ≠ (s, t, p)) by (intros [= -> -> ->]; done).
      destruct (row_winner _ _ _ _); unfold head_at; cbn; by rewrite ?lookup_alter_ne, ?lookup_delete_ne. }
    rewrite Hat, (unapplied_rows i) by done. apply head_for_without; [by apply rows_at_keys|done..].
Qed.

Lemma rebuild_head_ok s t p d u d' :
  runs (rebuild_head s t p) d u d' →
  db_oplog d' = db_oplog d ∧ head_for (head_at s t p d') (rows_at s t p d) ∧
  origin_for (head_at s t p d') (rows_at s t p d) ∧
  ∀ s' t' p', (s', t', p') ≠ (s, t, p) → head_at s' t' p' d' = head_at s' t' p' d.
Proof.
  intros Hr. unfold rebuild_head in Hr. apply runs_bind in Hr as ([] & d0 & <-%runs_try & Hr); [|apply _].
  apply runs_bind in Hr as (w & d0 & [-> <-]%runs_get & Hr); [|apply _].
  unfold head_for. fold (rows_at s t p d). unfold row_winner in Hr. fold (rows_at s t p d) in Hr.
  destruct (newest row_key (rows_at s t p d)) as [r|].
  - apply runs_bind in Hr as ([] & d0 & <-%runs_try & ->%runs_mod); [|apply _]. unfold head_at; cbn.
    rewrite lookup_insert_eq. split_and!; [done|by eexists|done|]. intros s' t' p' Hne. by rewrite lookup_insert_ne.
  - apply runs_bind in Hr as ([] & d0 & <-%runs_try & ->%runs_mod); [|apply _]. unfold head_at; cbn.
    rewrite lookup_delete_eq. split_and!; [done..|]. intros s' t' p' Hne. by rewrite lookup_delete_ne.
Qed.

(** The ops of a row no rewrite touched. *)
Lemma rows_at_rewrite (f : OplogRow → OplogRow) d s t p :
  (∀ r, r ∈ db_oplog d → (row_at s t p (f r) ↔ row_at s t p r) ∧ (row_at s t p r → f r = r)) →
  rows_at s t p (rewritten f d) = rows_at s t p d.
Proof.
  unfold rows_at, lww_rows. cbn. induction (db_oplog d) as [|r rows IH]; intros Hf; [done|].
  rewrite fmap_cons, !filter_cons, IH by (intros x Hx; apply Hf; by right). destruct (Hf r) as [Hiff Heq]; [by left|].
  destruct (decide (row_at s t p r)) as [Hr|Hr].
  - rewrite (decide_True (P := row_at s t p (f r))) by tauto. by rewrite Heq.
  - by rewrite (decide_False (P := row_at s t p (f r))) by tauto.
Qed.

Lemma moved_rows s t from to f d s' t' p' :
  moves_rows s t from to f → (s', t', p') ≠ (s, t, from) → (s', t', p') ≠ (s, t, to) →
  rows_at s' t' p' (rewritten f d) = rows_at s' t' p' d.
Proof.
  intros Hf Hfrom Hto. apply rows_at_rewrite. intros r _. destruct (Hf r) as [->|[Hr Hfr]]; [done|].
  assert (Hout : ∀ x, in_partition s t from x ∨ in_partition s t to x → ¬ row_at s' t' p' x).
  { intros x [(<- & <- & <-)|(<- & <- & <-)] (H1 & H2 & H3 & _); congruence. }
  specialize (Hout _ Hr) as Ho. specialize (Hout _ Hfr). tauto.
Qed.

(** An alias merge moves ops between two rows and rebuilds both heads. *)
Lemma merge_head_ok s t from to f d d1 d2 u1 u2 s' t' p' :
  moves_rows s t from to f → runs (rebuild_head s t from) (rewritten f d) u1 d1 → runs (rebuild_head s t to) d1 u2 d2 →
  head_for (head_at s' t' p' d) (rows_at s' t' p' d) →
  head_for (head_at s' t' p' d2) (rows_at s' t' p' d2) ∧ db_oplog d2 = db_oplog (rewritten f d).
Proof.
  intros Hf (Hl1 & Hh1 & _ & Ho1)%rebuild_head_ok (Hl2 & Hh2 & _ & Ho2)%rebuild_head_ok Hhead.
  split; [|by rewrite Hl2]. assert (Hrows : ∀ s t p, rows_at s t p d2 = rows_at s t p d1) by (intros; unfold rows_at; by rewrite Hl2).
  assert (Hrows1 : ∀ s' t' p', rows_at s' t' p' d1 = rows_at s' t' p' (rewritten f d)) by (intros; unfold rows_at; by rewrite Hl1).
  rewrite Hrows. destruct (decide ((s', t', p') = (s, t, to))) as [[= -> -> ->]|Hto]; [done|].
  rewrite Ho2 by done. destruct (decide ((s', t', p') = (s, t, from))) as [[= -> -> ->]|Hfrom]; [by rewrite Hrows1|].
  rewrite Ho1 by done. rewrite Hrows1, (moved_rows s t from to) by done. exact Hhead.
Qed.

(** The ops of a row that gains one rewritten op. *)
Lemma rows_at_rewrite_one (f : OplogRow → OplogRow) d r s t p :
  ids_distinct d → r ∈ db_oplog d → (∀ x, x ∈ db_oplog d → x ≠ r → f x = x) →
  ¬ row_at s t p r → row_at s t p (f r) →
  rows_at s t p (rewritten f d) ≡ₚ f r :: rows_at s t p d.
Proof.
  intros Hnd (l1 & l2 & Hl)%list_elem_of_split Hf Hr Hfr. unfold ids_distinct in Hnd. rewrite Hl in Hnd, Hf.
  apply NoDup_fmap_1, NoDup_app in Hnd as (_ & Hn1 & [Hn2 _]%NoDup_cons).
  assert (Hmap : ∀ l : list OplogRow, (∀ x, x ∈ l → x ∈ l1 ∨ x ∈ l2) → f <$> l = l).
  { intros l Hsub. rewrite <-(list_fmap_id l) at 2. apply list_fmap_ext. intros i x Hx%list_elem_of_lookup_2.
    apply (Hf x); [destruct (Hsub x Hx); rewrite elem_of_app, elem_of_cons; auto|].
    intros ->. destruct (Hsub r Hx) as [H1|H2]; [|done]. apply (Hn1 r H1). by left. }
  unfold rows_at, lww_rows. cbn. rewrite Hl, fmap_app, fmap_cons, (Hmap l1), (Hmap l2) by auto.
  rewrite !filter_app, !filter_cons, (decide_False (P := row_at s t p r)), decide_True by done.
  symmetry. apply Permutation_middle.
Qed.

(** A demoted op marked applied again under its canonical row. *)
Lemma reapply_head_ok op t p f d u d' r s' t' p' :
  host_update f → marks_applied (op_id op) t p f →
  r ∈ db_oplog d → row_of_op op r → or_applied r ≠ 1%Z → ids_distinct d →
  runs (upsert_head op t p) (rewritten f d) u d' →
  head_for (head_at s' t' p' d) (rows_at s' t' p' d) →
  head_for (head_at s' t' p' d') (rows_at s' t' p' d') ∧ db_oplog d' = db_oplog (rewritten f d).
Proof.
  intros Hu Hf Hr Hop Happ Hnd Hup Hhead. destruct (upsert_head_runs _ _ _ _ _ _ Hup) as (Hlog & _ & Hk). split; [|done].
  pose proof (rewrite_ids _ _ Hu Hnd) as Hnd'.
  assert (Hrows : ∀ s1 t1 p1, rows_at s1 t1 p1 d' = rows_at s1 t1 p1 (rewritten f d)) by (intros; unfold rows_at; by rewrite Hlog).
  assert (Hid : or_op_id r = vec_to_list (op_id op)) by (destruct Hop as ([= _ _ ->] & _); done).
  assert (Huniq : ∀ x, x ∈ db_oplog d → or_op_id x = vec_to_list (op_id op) → x = r).
  { intros x Hx Hxi. apply (key_inj or_op_id (db_oplog d)); [done..|congruence]. }
  pose proof (Hf r) as Hfr. rewrite decide_True in Hfr by done. destruct Hfr as (Htab & Hpk & Hone).
  pose proof (hu_op _ _ _ Hu Hop) as Hop'. pose proof Hop' as (_ & Hst & _).
  assert (Hother : ∀ x, or_op_id x ≠ vec_to_list (op_id op) → f x = x) by (intros x Hx; specialize (Hf x); by rewrite decide_False in Hf).
  rewrite Hrows. destruct (decide ((s', t', p') = (as_str (op_store (op_body op)), t, p))) as [[= -> -> ->]|Hne].
  - destruct (upsert_head_ok op t p _ u d' (f r) (rows_at (as_str (op_store (op_body op))) t p d) Hup) as [? _]; [done|done| |done|done].
    apply rows_at_rewrite_one; [done..| | |done].
    + intros x Hx Hne. apply Hother. intros Hxi. by apply Hne, Huniq.
    + by intros (_ & _ & _ & ?).
  - unfold head_at. rewrite Hk, decide_False by done. fold (head_at s' t' p' d).
    rewrite rows_at_rewrite; [done|]. intros x Hx.
    destruct (decide (or_op_id x = vec_to_list (op_id op))) as [Hi|Hi]; [|by rewrite Hother].
    apply Huniq in Hi as ->; [|done]. unfold row_at. split; [|naive_solver].
    split; intros (H1 & H2 & H3 & H4); exfalso; [|done]. apply Hne. congruence.
Qed.

(** ** The stored order and the order of the keys *)

(** Within the positive half of the column the two orders agree. *)
Lemma bind_key_cmp a b :
  (ok_hlc a ≤ i64_max)%Z → (ok_hlc b ≤ i64_max)%Z → cmp (bind_key a) (bind_key b) = cmp a b.
Proof.
  intros Ha Hb. unfold bind_key. rewrite !as_i64_small by done. unfold cmp at 2, OrderKey_ord, OrderKey_tuple. done.
Qed.
Lemma bind_key_ole a b :
  (ok_hlc a ≤ i64_max)%Z → (ok_hlc b ≤ i64_max)%Z → bind_key a ⪯ bind_key b ↔ a ⪯ b.
Proof. intros Ha Hb. unfold ole. by rewrite bind_key_cmp. Qed.
Lemma bind_key_olt a b :
  (ok_hlc a ≤ i64_max)%Z → (ok_hlc b ≤ i64_max)%Z → bind_key a ≺ bind_key b ↔ a ≺ b.
Proof. intros Ha Hb. unfold olt. by rewrite bind_key_cmp. Qed.

(** A clock reading with its top bit set is stored negative: it orders above
    every reading without it as a key and below every one of them in the log. *)
Lemma hlc_order_inverts a b :
  u64_ok (ok_hlc a) → (ok_hlc a ≤ i64_max)%Z → u64_ok (ok_hlc b) → (i64_max < ok_hlc b)%Z →
  a ≺ b ∧ bind_key b ≺ bind_key a.
Proof.
  intros Ha Ha' Hb Hb'. assert (Hlt : (ok_hlc a < ok_hlc b)%Z) by lia.
  assert (Hneg : (as_i64 (ok_hlc b) < as_i64 (ok_hlc a))%Z).
  { unfold as_i64. rewrite (decide_True (P := (ok_hlc a ≤ i64_max)%Z)), decide_False by lia.
    unfold u64_ok in *. lia. }
  unfold olt, cmp, OrderKey_ord, OrderKey_tuple, prod_ord, bind_key. cbn [fst snd].
  split; unfold cmp at 1, Z_ord; by rewrite (proj2 (Z.compare_lt_iff _ _)).
Qed.

(** ** Winners *)

Definition row_typed (r : OplogRow) : Prop := ∃ op, u64_ok (op_hlc (op_body op)) ∧ row_of_op op r.

Lemma order_key_of_row op r :
  u64_ok (op_hlc (op_body op)) → row_of_op op r → order_key_from_row (row_key r) = Ok (order_key op).
Proof.
  intros Hu (-> & _). unfold bind_key, order_key_from_row. cbn. rewrite !vec_of_list_to_list. cbn.
  by rewrite as_u64_i64.
Qed.

Lemma newest_excluding d s t p (i : OpId) r :
  ids_distinct d → newest row_key (rows_at s t p d) = Some r → or_op_id r ≠ vec_to_list i →
  others_winner s t p i d = Some r.
Proof.
  intros Hnd Hn Hi. unfold others_winner. apply (newest_sub row_key (rows_at s t p d)); [by apply rows_at_keys|done| |].
  - apply newest_some in Hn as [? _]. by apply list_elem_of_filter.
  - by intros x [_ ?]%list_elem_of_filter.
Qed.

(** The head-first reads answer what the scan would: the winner among the other
    applied ops of the row. *)
Definition winner_key (o : option OplogRow) (k : option OrderKey) : Prop :=
  match o with
  | None => k = None
  | Some r => ∃ op, u64_ok (op_hlc (op_body op)) ∧ row_of_op op r ∧ k = Some (order_key op)
  end.

Lemma newest_applied_winner d s t p i :
  ids_distinct d → head_for (head_at s t p d) (rows_at s t p d) → Forall row_typed (rows_at s t p d) →
  ∃ k, newest_applied_in_store s t p i d [] = (Ok k, (d, [])) ∧ winner_key (others_winner s t p i d) k.
Proof.
  intros Hnd Hhead Hty. rewrite Forall_forall in Hty.
  assert (Hscan : ∃ k, (_ ← sql_try "oplog newest_applied_in_store";
      row ← sql_get (others_winner s t p i);
      optional_row "oplog newest_applied_in_store" (λ r, order_key_from_row (row_key r)) row) d [] = (Ok k, (d, []))
      ∧ winner_key (others_winner s t p i d) k).
  { unfold mbind, sql_bind, sql_get. cbn [sql_try]. unfold winner_key.
    destruct (others_winner s t p i d) as [r|] eqn:Ho; [|by eexists].
    destruct (Hty r) as (op & Hu & Hop).
    { apply newest_some in Ho as [Ho _]. by apply list_elem_of_filter in Ho as [_ ?]. }
    exists (Some (order_key op)). cbn [optional_row]. rewrite (order_key_of_row _ _ Hu Hop). split; [done|eauto]. }
  unfold newest_applied_in_store, mbind, sql_bind, sql_get. cbn [sql_try]. fold (head_at s t p d).
  unfold head_for in Hhead. destruct (newest row_key (rows_at s t p d)) as [r|] eqn:Hn; [|by rewrite Hhead].
  destruct Hhead as [origin ->]. destruct (Hty r) as (op & Hu & Hop); [by apply newest_some in Hn as [? _]|].
  cbn [optional_row]. change (head_key (head_of r origin)) with (row_key r). rewrite (order_key_of_row _ _ Hu Hop).
  unfold mbind, sql_bind, sql_lift; cbn [row_error map_err mret sql_ret]. case_decide as Hi; [|done].
  eexists. split; [done|]. rewrite (newest_excluding d s t p i r); [eexists; eauto|done..|].
  destruct Hop as ([= _ _ ->] & _). intros Heq%vec_to_list_inj2. by apply Hi.
Qed.
End heads.
