(* ===== verification/SqlRefine.v ===== *)
(** * The stored log refines the arrival sequence

    As long as nothing was compacted, the tables of the op log represent a
    sequence of arrivals; an append extends it as the in-memory log does
    ([Log.arr_append]), and every read of [src/sqlite/oplog.rs],
    [oplog_queries.rs] and [coverage.rs] answers from it what the contract of a
    log source says. *)

From S2P Require Import Prelude Ordered External Toy Identity Words Op RowOp Registry Store Log Pull Sql SqlDb SqlLog SqlHeads.
Import BTree.

(** ** Sorted reads of two aligned lists *)

Section aligned.
Context {A K : Type} `{OrdOk K}.

Lemma StronglySorted_filter (R : A → A → Prop) (P : A → Prop) `{!∀ x, Decision (P x)} l :
  StronglySorted R l → StronglySorted R (filter P l).
Proof.
  induction 1 as [|x l Hs IH Hall]; [constructor|]. rewrite filter_cons. case_decide; [|done].
  constructor; [done|]. apply Forall_forall. intros y [_ Hy]%list_elem_of_filter. by apply (proj1 (Forall_forall _ _) Hall).
Qed.

Lemma order_by_filter (key : A → K) (P : A → Prop) `{!∀ x, Decision (P x)} l :
  NoDup (key <$> l) → order_by key (filter P l) = filter P (order_by key l).
Proof.
  intros Hnd. apply order_by_unique.
  - eapply sublist_NoDup; [exact Hnd|]. apply fmap_sublist, sublist_filter.
  - by rewrite order_by_perm.
  - apply StronglySorted_filter, order_by_sorted.
Qed.

Lemma order_by_fmap {B} (key : B → K) (f : A → B) l :
  NoDup (key ∘ f <$> l) → order_by key (f <$> l) = f <$> order_by (key ∘ f) l.
Proof.
  intros Hnd. apply order_by_unique.
  - by rewrite <-list_fmap_compose.
  - by rewrite order_by_perm.
  - pose proof (order_by_sorted (key ∘ f) l) as Hs. induction Hs as [|x k Hs IH Hall]; cbn; constructor; [done|].
    by apply Forall_fmap.
Qed.

Lemma filter_map {B} (f : A → B) (P : B → Prop) `{!∀ x, Decision (P x)} (l : list A) : filter P (f <$> l) = f <$> filter (λ x, P (f x)) l.
Proof. induction l as [|x l IH]; [done|]. rewrite fmap_cons, !filter_cons, IH. by case_decide. Qed.

(** Two keys that order the elements of a list alike. *)
Lemma order_by_ext {K'} `{OrdOk K'} (key : A → K) (key' : A → K') l :
  NoDup (key <$> l) → (∀ x y, x ∈ l → y ∈ l → key' x ⪯ key' y → key x ⪯ key y) → order_by key l = order_by key' l.
Proof.
  intros Hnd Hle. apply order_by_unique; [done|by rewrite order_by_perm|].
  pose proof (order_by_sorted key' l) as Hs. pose proof (order_by_perm key' l) as Hp.
  assert (Hin : ∀ x, x ∈ order_by key' l → x ∈ l) by (intros x; by rewrite Hp). revert Hs Hin. generalize (order_by key' l).
  intros k Hs. induction Hs as [|x k Hs IH Hall]; intros Hin; constructor; [apply IH; intros; apply Hin; by right|].
  apply Forall_forall. intros y Hy. rewrite Forall_forall in Hall. apply Hle; [apply Hin; by left|apply Hin; by right|by apply Hall].
Qed.
End aligned.

Lemma takeZ_fmap {A B} (f : A → B) n l : takeZ n (f <$> l) = f <$> takeZ n l.
Proof. by rewrite !takeZ_take, fmap_take. Qed.

(** A [LIMIT] bound from a [usize]: one past the column's range is none at all. *)
Lemma sql_limit_u64 {A} n (l : list A) :
  u64_ok n → (len l ≤ i64_max)%Z → sql_limit (as_i64 n) l = takeZ n l.
Proof.
  unfold u64_ok, sql_limit, as_i64. intros Hn Hl. destruct (decide (n ≤ i64_max)%Z).
  - rewrite decide_False by lia. done.
  - rewrite decide_True by lia. symmetry. apply takeZ_ge. lia.
Qed.

(** Rows numbered in a row. *)
Lemma seqZ_filter {A} (f : A → Z) l m after :
  f <$> l = seqZ (m + 1) (len l) → filter (λ x, (after < f x)%Z) l = drop (Z.to_nat (after - m)) l.
Proof.
  revert m. induction l as [|x l IH]; intros m Hl; [by rewrite drop_nil|].
  unfold len in Hl. cbn [length] in Hl. rewrite seqZ_cons in Hl by lia. cbn in Hl. injection Hl as Hx Hl.
  rewrite filter_cons. destruct (decide (after < f x)%Z) as [Hlt|Hge].
  - replace (Z.to_nat (after - m)) with 0 by lia. cbn. f_equal. rewrite (IH (m + 1)%Z).
    + by replace (Z.to_nat (after - (m + 1))) with 0 by lia.
    + rewrite Hl. unfold len. f_equal; lia.
  - replace (Z.to_nat (after - m)) with (S (Z.to_nat (after - (m + 1)))) by lia. cbn. apply IH.
    rewrite Hl. unfold len. f_equal; lia.
Qed.
Lemma seqZ_split {A} (f : A → Z) l1 l2 m :
  f <$> (l1 ++ l2) = seqZ m (len (l1 ++ l2)) → f <$> l1 = seqZ m (len l1) ∧ f <$> l2 = seqZ (m + len l1) (len l2).
Proof.
  rewrite len_app, fmap_app, seqZ_app by apply len_nonneg. intros Heq. apply app_inj_1 in Heq; [done|].
  rewrite length_fmap, length_seqZ. unfold len. lia.
Qed.
Lemma max_of_seqZ n : (0 ≤ n)%Z → max_of (seqZ 1 n) = n.
Proof.
  intros Hn. apply Z.le_antisymm.
  - destruct (max_of_cases (seqZ 1 n)) as [->|Hin%elem_of_seqZ]; lia.
  - destruct (decide (n = 0)%Z) as [->|]; [apply max_of_pos|]. apply max_of_le, elem_of_seqZ. lia.
Qed.
Lemma seqZ_sorted {A} (f : A → Z) l m :
  f <$> l = seqZ m (len l) → StronglySorted (λ a b, f a ⪯ f b) l ∧ Forall (λ a, (m ≤ f a)%Z) l ∧ NoDup (f <$> l).
Proof.
  intros Hl. split_and!; [| |rewrite Hl; apply NoDup_seqZ].
  - revert m Hl. induction l as [|x l IH]; intros m Hl; [constructor|].
    unfold len in Hl. cbn [length] in Hl. rewrite seqZ_cons in Hl by lia. cbn in Hl. injection Hl as Hx Hl.
    assert (Hl' : f <$> l = seqZ (Z.succ m) (len l)) by (rewrite Hl; unfold len; f_equal; lia).
    constructor; [by eapply IH|]. apply Forall_forall. intros y Hy. apply (list_elem_of_fmap_2 f) in Hy.
    rewrite Hl', elem_of_seqZ in Hy. change (f x ≤ f y)%Z. lia.
  - apply Forall_forall. intros y Hy. apply (list_elem_of_fmap_2 f) in Hy. rewrite Hl, elem_of_seqZ in Hy. lia.
Qed.

(** ** The representation *)

Section refine.
Context `{Rusqlite, Postcard, !Wire EnvelopeRepr, !WireOk EnvelopeRepr}.
Implicit Types (d : Db) (arr : list SignedOp).

Definition row_for (op : SignedOp) (r : OplogRow) : Prop :=
  row_of_op op r ∧ op_to_bytes op = Ok (or_envelope r) ∧ op_v (op_body op) = ENVELOPE_VERSION ∧
  (0 ≤ op_hlc (op_body op) ≤ i64_max)%Z.

Record sql_log_rep d arr : Prop := {
  slr_rows : Forall2 row_for arr (db_oplog d);
  slr_ids : NoDup (op_id <$> arr);
  slr_arrivals : ar_op_id <$> db_arrivals d = (λ op, vec_to_list (op_id op)) <$> arr;
  slr_seqs : ar_seq <$> db_arrivals d = seqZ 1 (len arr);
  slr_stream : ∃ epoch : barr 32, epoch ≠ zeros 32 ∧ db_relay_state d = Some (vec_to_list epoch, 0%Z);
  slr_len : (len arr ≤ i64_max)%Z;
}.

Lemma row_for_id op r : row_for op r → or_op_id r = vec_to_list (op_id op).
Proof. by intros (([= _ _ ->] & _) & _). Qed.
Lemma row_for_device op r : row_for op r → or_device r = vec_to_list (op_device (op_body op)).
Proof. by intros (([= _ -> _] & _) & _). Qed.
Lemma row_for_hlc op r : row_for op r → or_hlc r = op_hlc (op_body op).
Proof. intros (([= -> _ _] & _) & _ & _ & Hh). apply as_i64_small. cbn. lia. Qed.
Lemma row_for_key op r : row_for op r → order_key_from_row (row_key r) = Ok (order_key op).
Proof.
  intros (Hop & _ & _ & Hh). eapply order_key_of_row; [|done]. unfold u64_ok, i64_max, u64_modulus in *. lia.
Qed.
Lemma row_for_decoded op r : row_for op r → op_from_bytes (or_envelope r) = Ok op.
Proof. intros (_ & Henv & Hv & _). rewrite (op_to_bytes_inv _ _ Henv). by rewrite decide_True. Qed.
Lemma row_for_le op r op' r' : row_for op r → row_for op' r' → row_key r ⪯ row_key r' ↔ order_key op ⪯ order_key op'.
Proof.
  intros ((-> & _) & _ & _ & Hh) ((-> & _) & _ & _ & Hh'). apply bind_key_ole; cbn; lia.
Qed.

Lemma ordered_order_by arr : NoDup (op_id <$> arr) → ordered arr = order_by order_key arr.
Proof.
  intros Hnd. symmetry. apply order_by_unique; [by apply NoDup_order_keys|by apply ordered_perm|].
  pose proof (ordered_sorted arr Hnd) as Hs. revert Hs. generalize (ordered arr).
  intros l. induction l as [|op l IH]; intros Hs; constructor; apply ops_sorted_cons in Hs as [Hs Hlt]; [by apply IH|].
  apply Forall_forall. intros x Hx. by apply olt_ole, Hlt.
Qed.

(** The sorted read of the rows is the sorted read of the ops, row by row. *)
Lemma ordered_rows arr rows (Q : SignedOp → Prop) (P : OplogRow → Prop)
    `{!∀ op, Decision (Q op), !∀ r, Decision (P r)} :
  Forall2 row_for arr rows → NoDup (op_id <$> arr) → (∀ op r, row_for op r → P r ↔ Q op) →
  Forall2 row_for (filter Q (ordered arr)) (order_by row_key (filter P rows)).
Proof.
  intros Hrows Hnd HPQ.
  assert (Hz : ∃ ps : list (SignedOp * OplogRow), arr = ps.*1 ∧ rows = ps.*2 ∧ Forall (λ p, row_for p.1 p.2) ps).
  { exists (zip arr rows). rewrite fst_zip, snd_zip by (apply Forall2_length in Hrows; lia).
    split_and!; [done..|]. clear -Hrows. induction Hrows; constructor; done. }
  destruct Hz as (ps & -> & -> & Hps). rewrite ordered_order_by by done.
  assert (Hk : NoDup (order_key ∘ fst <$> ps)) by (apply NoDup_order_keys in Hnd; by rewrite <-list_fmap_compose in Hnd).
  rewrite Forall_forall in Hps.
  assert (Hk2 : NoDup (row_key ∘ snd <$> ps)).
  { apply (NoDup_fmap_1 (λ k, k.2.2)). rewrite <-list_fmap_compose.
    assert (Heq : (λ k, k.2.2) ∘ (row_key ∘ snd) <$> ps = vec_to_list <$> (op_id <$> ps.*1)).
    { rewrite <-!list_fmap_compose. apply list_fmap_ext. intros i p Hp%list_elem_of_lookup_2. cbn. by apply row_for_id, Hps. }
    rewrite Heq. apply (NoDup_fmap_2_strong _); [|done]. intros x y _ _. apply vec_to_list_inj2. }
  set (sel := filter (λ p, Q p.1) ps).
  assert (Hl : filter Q (order_by order_key ps.*1) = (order_by (order_key ∘ fst) sel).*1).
  { rewrite order_by_fmap, filter_map by done. subst sel. by rewrite order_by_filter. }
  assert (Hr : order_by row_key (filter P ps.*2) = (order_by (row_key ∘ snd) sel).*2).
  { rewrite filter_map. rewrite order_by_fmap.
    - do 2 f_equal. subst sel. apply filter_ext. intros p Hp. by apply HPQ, Hps.
    - eapply sublist_NoDup; [exact Hk2|]. apply fmap_sublist, sublist_filter. }
  assert (Hsame : order_by (row_key ∘ snd) sel = order_by (order_key ∘ fst) sel).
  { apply order_by_ext.
    - eapply sublist_NoDup; [exact Hk2|]. apply fmap_sublist, sublist_filter.
    - intros p q [_ Hp]%list_elem_of_filter [_ Hq]%list_elem_of_filter. cbn. apply row_for_le; by apply Hps. }
  rewrite Hl, Hr, Hsame. apply Forall2_fmap, Forall_Forall2_diag, Forall_forall. intros p Hp.
  rewrite order_by_perm in Hp. apply list_elem_of_filter in Hp as [_ Hp]. by apply Hps.
Qed.

(** ** The reads *)

Lemma rows_decoded ops rows : Forall2 row_for ops rows → omap decoded rows = ops.
Proof.
  induction 1 as [|op r ops rows Hr _ IH]; [done|]. cbn. unfold decoded at 1. rewrite (row_for_decoded _ _ Hr). cbn. by rewrite IH.
Qed.

Lemma rows_len d arr (P : OplogRow → Prop) `{!∀ r, Decision (P r)} :
  sql_log_rep d arr → (len (order_by row_key (filter P (db_oplog d))) ≤ i64_max)%Z.
Proof.
  intros Hrep. pose proof (slr_len _ _ Hrep). pose proof (Forall2_length _ _ _ (slr_rows _ _ Hrep)) as Hl.
  unfold len in *. rewrite order_by_perm. pose proof (length_filter P (db_oplog d)). lia.
Qed.

Lemma since_refines d arr cursor limit :
  sql_log_rep d arr → u64_ok limit → (ok_hlc cursor ≤ i64_max)%Z →
  runs (oplog_since cursor limit) d (takeZ limit (ops_after cursor (ordered arr))) d.
Proof.
  intros Hrep Hlim Hc. unfold oplog_since. do 2 (apply runs_bind; [apply _|]; exists (), d; split; [done|]).
  apply runs_bind; [apply _|]. eexists _, d. split; [by apply runs_get|].
  apply runs_rows. split; [|done]. rewrite sql_limit_u64 by (done || by eapply rows_len).
  symmetry. apply rows_decoded. rewrite !takeZ_take. apply Forall2_take, ordered_rows; [apply Hrep..|].
  intros op r ((-> & _) & _ & _ & Hh). apply bind_key_olt; cbn; lia.
Qed.

Lemma head_refines d arr : sql_log_rep d arr → runs oplog_head d (last (order_key <$> ordered arr)) d.
Proof.
  intros Hrep. unfold oplog_head. apply runs_bind; [apply _|]; exists (), d; split; [done|].
  apply runs_bind; [apply _|]. eexists _, d. split; [by apply runs_get|].
  pose proof (ordered_rows arr (db_oplog d) (λ _, True) (λ _, True) (slr_rows _ _ Hrep) (slr_ids _ _ Hrep)) as Hrows.
  rewrite !filter_all in Hrows by (by apply Forall_forall). unfold newest. rewrite fmap_last.
  assert (Hlast : option_Forall2 row_for (last (ordered arr)) (last (order_by row_key (db_oplog d)))).
  { rewrite <-!head_reverse. apply Forall2_reverse in Hrows; [|done]. by destruct Hrows; constructor. }
  destruct Hlast as [op r Hr|]; [|done]. unfold runs. cbn [optional_row fmap option_fmap option_map].
  by rewrite (row_for_key _ _ Hr).
Qed.

Lemma contains_refines d arr i :
  sql_log_rep d arr → runs (oplog_contains i) d (bool_decide (i ∈ op_id <$> arr)) d.
Proof.
  intros Hrep. unfold oplog_contains. apply runs_bind; [apply _|]; exists (), d; split; [done|].
  apply runs_get. split; [|done]. apply bool_decide_ext. unfold find_op.
  pose proof (slr_rows _ _ Hrep) as Hrows. clear Hrep. induction Hrows as [|op r arr rows Hr _ IH]; [split; [by intros ?%not_elem_of_nil|by intros []]|].
  rewrite filter_cons, fmap_cons, elem_of_cons, (row_for_id _ _ Hr). destruct (decide (vec_to_list (op_id op) = vec_to_list i)) as [Heq|Hne].
  - split; [done|]. intros _. left. symmetry. by apply vec_to_list_inj2.
  - rewrite <-IH. split; [|by right]. intros [->|?]; done.
Qed.

Lemma rep_max_seq d arr : sql_log_rep d arr → max_seq d = len arr.
Proof. intros Hrep. unfold max_seq. rewrite (slr_seqs _ _ Hrep). apply max_of_seqZ, len_nonneg. Qed.

Lemma stream_refines d arr :
  sql_log_rep d arr → ∃ st, runs sql_relay_stream_state d st d ∧ rs_epoch st ≠ zeros 32 ∧
    rs_head st = len arr ∧ rs_floor st = 0%Z ∧ db_relay_state d = Some (vec_to_list (rs_epoch st), 0%Z).
Proof.
  intros Hrep. destruct (slr_stream _ _ Hrep) as (epoch & He & Hst). exists (mk_stream epoch (len arr) 0).
  split; [|by rewrite Hst]. unfold sql_relay_stream_state. apply runs_bind; [apply _|]; exists (), d; split; [done|].
  pose proof (rep_max_seq _ _ Hrep) as Hmax.
  unfold runs, mbind, sql_bind, sql_get, sql_lift. rewrite Hst, Hmax. cbn [ok_or row_error map_err].
  unfold relay_state_row. cbn. rewrite vec_of_list_to_list. cbn. unfold u64_try. rewrite !decide_True by (unfold len; lia). done.
Qed.

Lemma rep_row_ids d arr : sql_log_rep d arr → or_op_id <$> db_oplog d = (λ op, vec_to_list (op_id op)) <$> arr.
Proof.
  intros Hrep. pose proof (slr_rows _ _ Hrep) as Hrows. clear -Hrows. induction Hrows as [|op r arr rows Hr _ IH]; [done|].
  cbn. by rewrite IH, (row_for_id _ _ Hr).
Qed.
Lemma rep_ids_distinct d arr : sql_log_rep d arr → ids_distinct d.
Proof.
  intros Hrep. unfold ids_distinct. rewrite (rep_row_ids _ _ Hrep).
  replace ((λ op, vec_to_list (op_id op)) <$> arr) with (vec_to_list <$> (op_id <$> arr)) by (by rewrite <-list_fmap_compose).
  apply (NoDup_fmap_2_strong _); [|apply Hrep]. intros x y _ _. apply vec_to_list_inj2.
Qed.
(** The join lists each arrival with its op. *)
Lemma joined_zip d arr : sql_log_rep d arr → joined d = zip (db_arrivals d) (db_oplog d).
Proof.
  intros Hrep. pose proof (slr_arrivals _ _ Hrep) as Harr. pose proof (rep_ids_distinct _ _ Hrep) as Hnd.
  rewrite <-(rep_row_ids _ _ Hrep) in Harr. clear -Harr Hnd. unfold ids_distinct in Hnd. unfold joined.
  assert (Hpick : Forall (λ r, filter (λ r', or_op_id r' = or_op_id r) (db_oplog d) = [r]) (db_oplog d)).
  { apply Forall_forall. intros r Hr. apply list_elem_of_split in Hr as (l1 & l2 & Hl). rewrite Hl in *.
    rewrite fmap_app, fmap_cons in Hnd. apply NoDup_app in Hnd as (_ & Hx & [Hy _]%NoDup_cons).
    rewrite filter_app, filter_cons_True by done. rewrite !filter_none; [done|..]; apply Forall_forall; intros x Hin Hid.
    - apply Hy. rewrite <-Hid. by apply list_elem_of_fmap_2.
    - apply (Hx (or_op_id r)); [rewrite <-Hid; by apply list_elem_of_fmap_2|by left]. }
  assert (Hgen : ∀ (l : list Arrival) rows, Forall (λ r, filter (λ r', or_op_id r' = or_op_id r) (db_oplog d) = [r]) rows →
    ar_op_id <$> l = or_op_id <$> rows →
    (l ≫= λ a, (λ r, (a, r)) <$> filter (λ r, or_op_id r = ar_op_id a) (db_oplog d)) = zip l rows); [|by apply Hgen].
  intros l. induction l as [|a l IH]; intros rows Hp Ha; [done|].
  destruct rows as [|r rows]; [done|]. cbn in Ha. injection Ha as Ha Hl. apply Forall_cons in Hp as [Hr Hp].
  cbn. rewrite Ha, Hr. cbn. f_equal. by apply IH.
Qed.

Lemma relay_rows_ok (start : nat) ops (ps : list (Arrival * OplogRow)) :
  Forall2 (λ op p, row_for op p.2) ops ps → ar_seq ∘ fst <$> ps = seqZ (Z.of_nat start + 1) (len ps) →
  ∃ rows, with_envelopes (numbered start ops) = Ok rows ∧ try_map relay_entry ((λ '(a, r), (ar_seq a, or_envelope r)) <$> ps) = Ok rows.
Proof.
  intros Hall. revert start. induction Hall as [|op [a r] ops ps Hr _ IH]; intros start Hseq; [by exists []|].
  unfold len in Hseq. cbn [length] in Hseq. rewrite seqZ_cons in Hseq by lia. cbn in Hseq. injection Hseq as Hs Hseq.
  destruct (IH (S start)) as (rows & He & Ht). { rewrite Hseq. unfold len. f_equal; lia. }
  exists ((ar_seq a, op, or_envelope r) :: rows). split.
  - unfold with_envelopes, numbered in *. cbn [imap try_map]. cbn.
    destruct Hr as (_ & -> & _). cbn. replace (Z.of_nat (start + 0) + 1)%Z with (ar_seq a) by lia.
    erewrite imap_ext; [rewrite He; done|]. intros i x _. cbn. do 2 f_equal. lia.
  - assert (Hentry : relay_entry (ar_seq a, or_envelope r) = Ok (ar_seq a, op, or_envelope r)).
    { unfold relay_entry. cbn [fst snd]. rewrite (row_for_decoded op r Hr). unfold u64_try. by rewrite decide_True by lia. }
    rewrite fmap_cons. cbn [try_map]. rewrite Hentry. cbn. by rewrite Ht.
Qed.

Lemma relay_since_refines d arr after limit :
  sql_log_rep d arr → (0 ≤ after ≤ i64_max)%Z → (0 ≤ limit ≤ i64_max)%Z →
  let start := Z.to_nat (Z.min after (len arr)) in
  ∃ rows, with_envelopes (numbered start (takeZ limit (drop start arr))) = Ok rows ∧
    runs (sql_relay_since_with_envelopes after limit) d rows d.
Proof.
  intros Hrep Ha Hl start. set (ps := zip (db_arrivals d) (db_oplog d)).
  pose proof (Forall2_length _ _ _ (slr_rows _ _ Hrep)) as Hlen.
  assert (Hlen2 : length (db_arrivals d) = length arr).
  { pose proof (f_equal length (slr_arrivals _ _ Hrep)) as Hl2. by rewrite !length_fmap in Hl2. }
  assert (Hps : ps.*1 = db_arrivals d) by (subst ps; rewrite fst_zip; [done|lia]).
  assert (Hseq : ar_seq ∘ fst <$> ps = seqZ (0 + 1) (len ps)).
  { rewrite list_fmap_compose, Hps, (slr_seqs _ _ Hrep). unfold len. subst ps. rewrite length_zip. f_equal. lia. }
  assert (Hall : Forall2 (λ op p, row_for op p.2) arr ps).
  { subst ps. clear -Hrep Hlen Hlen2. pose proof (slr_rows _ _ Hrep) as Hr. clear Hrep Hlen. revert Hlen2. generalize (db_arrivals d).
    induction Hr; intros [|a k] Hk; try done; constructor; [done|]. apply IHHr. by injection Hk. }
  assert (Hdrop : filter (λ p, (after < ar_seq p.1)%Z) ps = drop start ps).
  { etrans; [exact (seqZ_filter (ar_seq ∘ fst) ps 0 after Hseq)|]. rewrite Z.sub_0_r. subst start. pose proof (Forall2_length _ _ _ Hall).
    destruct (decide (after ≤ len arr)%Z); [by rewrite Z.min_l|]. unfold len in *. rewrite !drop_ge; [done|lia|lia]. }
  set (page := takeZ limit (drop start ps)).
  assert (Hpage : ar_seq ∘ fst <$> drop start ps = seqZ (Z.of_nat start + 1) (len (drop start ps)) ∧
                  ar_seq ∘ fst <$> page = seqZ (Z.of_nat start + 1) (len page)).
  { rewrite <-(take_drop start ps) in Hseq. apply seqZ_split in Hseq as [_ Hseq].
    replace (0 + 1 + len (take start ps))%Z with (Z.of_nat start + 1)%Z in Hseq; [split; [done|]|].
    - rewrite <-(take_drop (Z.to_nat limit) (drop start ps)) in Hseq. apply seqZ_split in Hseq as [Hseq _].
      subst page. by rewrite takeZ_take.
    - unfold len. rewrite length_take. pose proof (Forall2_length _ _ _ Hall). subst start. unfold len in *. lia. }
  destruct Hpage as [Hrest Hpage]. destruct (relay_rows_ok start (takeZ limit (drop start arr)) page) as (rows & He & Ht); [|done|].
  { subst page. rewrite !takeZ_take. by apply Forall2_take, Forall2_drop. }
  exists rows. split; [done|]. unfold sql_relay_since_with_envelopes, i64_try. rewrite !decide_True by lia.
  do 2 (apply runs_bind; [apply _|]; eexists _, d; split; [by apply runs_lift|]).
  do 2 (apply runs_bind; [apply _|]; exists (), d; split; [done|]).
  apply runs_bind; [apply _|]. eexists _, d. split; [by apply runs_get|].
  apply runs_rows_try. split; [|done]. rewrite (joined_zip _ _ Hrep). fold ps. rewrite Hdrop.
  assert (Hkey : fst ∘ (λ '(a, r), (ar_seq a, or_envelope r)) <$> drop start ps = ar_seq ∘ fst <$> drop start ps)
    by (apply list_fmap_ext; by intros ? [] _).
  destruct (seqZ_sorted _ _ _ Hrest) as (Hs & _ & Hnd).
  rewrite order_by_fmap by (by rewrite Hkey). rewrite (order_by_unique _ (drop start ps) (drop start ps)); [|by rewrite Hkey|done|].
  - unfold sql_limit. rewrite decide_False by lia. by rewrite takeZ_fmap.
  - clear -Hs. induction Hs as [|[a r] l Hs IH Hall]; constructor; [done|]. eapply Forall_impl; [exact Hall|]. by intros [].
Qed.

(** ** The relay page *)

#[local] Arguments RELAY_PAGE_MAX_BYTES : simpl never.
(** The bytes of the envelopes of a page. *)
Definition envelope_bytes (rows : list (Z * SignedOp * bytes)) : Z := foldr Z.add 0%Z ((λ row, len row.2) <$> rows).
Definition row_entry (row : Z * SignedOp * bytes) : RelayLogEntry := mk_relay_entry row.1.1 row.1.2.

(** The page takes rows as long as they fit: the longest prefix within
    [RELAY_PAGE_MAX_BYTES], but at least one row. *)
Definition greedy (rows : list (Z * SignedOp * bytes)) (k : nat) : Prop :=
  k ≤ length rows ∧ (rows ≠ [] → 0 < k) ∧ (1 < k → (envelope_bytes (take k rows) ≤ RELAY_PAGE_MAX_BYTES)%Z) ∧
  (k < length rows → (RELAY_PAGE_MAX_BYTES < envelope_bytes (take (S k) rows))%Z).

Lemma envelope_bytes_cons row rows : envelope_bytes (row :: rows) = (len row.2 + envelope_bytes rows)%Z.
Proof. done. Qed.
Lemma envelope_bytes_take rows k : (envelope_bytes (take k rows) ≤ envelope_bytes rows)%Z.
Proof.
  revert k; induction rows as [|row rows IH]; intros [|k]; rewrite ?take_nil, ?take_0, ?firstn_cons, ?envelope_bytes_cons; try done.
  - specialize (IH 0). rewrite take_0 in IH. pose proof (len_nonneg row.2). change (envelope_bytes []) with 0%Z in *. lia.
  - specialize (IH k). lia.
Qed.

Lemma page_entries_more rows total entries :
  entries ≠ [] → ∃ k, page_entries rows total entries = entries ++ (row_entry <$> take k rows) ∧ k ≤ length rows ∧
    (0 < k → (total + envelope_bytes (take k rows) ≤ RELAY_PAGE_MAX_BYTES)%Z) ∧
    (k < length rows → (RELAY_PAGE_MAX_BYTES < total + envelope_bytes (take (S k) rows))%Z).
Proof.
  revert total entries. induction rows as [|[[seq op] envelope] rows IH]; intros total entries He; cbn [page_entries].
  { exists 0. cbn. rewrite app_nil_r. split_and!; [done|lia..]. }
  case_decide as Hd.
  - destruct Hd as [_ Hd]. exists 0. rewrite firstn_cons, !take_0, envelope_bytes_cons, app_nil_r. change (envelope_bytes []) with 0%Z.
    cbn [snd length]. split_and!; [done|lia..].
  - destruct (IH (total + len envelope)%Z (entries ++ [mk_relay_entry seq op])) as (k & -> & Hk & Hfit & Hcut); [by destruct entries|].
    assert (Hone : (total + len envelope ≤ RELAY_PAGE_MAX_BYTES)%Z) by (apply Z.nlt_ge; naive_solver).
    exists (S k). rewrite !(firstn_cons _ (_, _, _)), !envelope_bytes_cons, <-app_assoc. cbn [snd length].
    split_and!; [done|lia| |lia]. intros _. destruct k; [|lia]. rewrite take_0. change (envelope_bytes []) with 0%Z. lia.
Qed.
Lemma page_entries_greedy rows : ∃ k, page_entries rows 0 [] = row_entry <$> take k rows ∧ greedy rows k.
Proof.
  destruct rows as [|[[seq op] envelope] rows]; [exists 0; split; [done|]; split_and!; cbn; lia || done|].
  cbn [page_entries]. rewrite decide_False by (by intros [? _]). cbn [app].
  destruct (page_entries_more rows (0 + len envelope) [mk_relay_entry seq op]) as (k & -> & Hk & Hfit & Hcut); [done|].
  exists (S k). split; [done|]. unfold greedy. rewrite !(firstn_cons _ (_, _, _)), !envelope_bytes_cons. cbn [length snd].
  split_and!; lia.
Qed.

Lemma greedy_whole rows k : greedy rows k → (envelope_bytes rows ≤ RELAY_PAGE_MAX_BYTES)%Z → length rows ≤ k.
Proof.
  intros (_ & _ & _ & Hcut) Hfit. destruct (decide (k < length rows)) as [Hlt|]; [|lia].
  specialize (Hcut Hlt). pose proof (envelope_bytes_take rows (S k)). lia.
Qed.

Lemma with_envelopes_entries es rows : with_envelopes es = Ok rows → row_entry <$> rows = es.
Proof.
  unfold with_envelopes. revert rows; induction es as [|[seq op] es IH]; intros rows; cbn; [by intros [= <-]|].
  destruct (op_to_bytes op) as [bs|]; [|done]. cbn. destruct (try_map _ es) as [rows'|] eqn:Ht; [|done]. cbn.
  intros [= <-]. cbn. by rewrite (IH rows').
Qed.

Lemma relay_page_refines d arr after limit :
  sql_log_rep d arr → (0 ≤ after ≤ i64_max)%Z → (0 ≤ limit ≤ i64_max)%Z →
  let start := Z.to_nat (Z.min after (len arr)) in let page := numbered start (takeZ limit (drop start arr)) in
  ∃ st rows k, relay_page_conn (Ok ()) (Ok ()) after limit d [] = Ok (Some (mk_relay_page st (take k page))) ∧
    runs sql_relay_stream_state d st d ∧ with_envelopes page = Ok rows ∧ greedy rows k.
Proof.
  intros Hrep Ha Hl start page. destruct (stream_refines _ _ Hrep) as (st & Hst & _).
  destruct (relay_since_refines d arr after limit Hrep Ha Hl) as (rows & Hrows & Hrun). fold start page in Hrows.
  destruct (page_entries_greedy rows) as (k & Hk & Hg). exists st, rows, k. split_and!; [|done..].
  unfold relay_page_conn. cbn [mbind result_bind]. unfold runs in Hst, Hrun. rewrite Hst. cbn [map_err mbind result_bind].
  rewrite Hrun. cbn [fst map_err mbind result_bind]. by rewrite Hk, fmap_take, (with_envelopes_entries _ _ Hrows).
Qed.

Lemma origins_refines d arr :
  sql_log_rep d arr → ∃ origins, runs sql_origins d origins d ∧ StronglySorted olt origins ∧
    ∀ dev, dev ∈ origins ↔ ∃ op, op ∈ arr ∧ op_device (op_body op) = dev.
Proof.
  intros Hrep. destruct (scan_origins_ok (db_oplog d)) as [Hs Hin].
  assert (Hdev : or_device <$> db_oplog d = (λ op, vec_to_list (op_device (op_body op))) <$> arr).
  { pose proof (slr_rows _ _ Hrep) as Hrows. clear -Hrows. induction Hrows as [|op r arr rows Hr _ IH]; [done|].
    cbn. by rewrite IH, (row_for_device _ _ Hr). }
  assert (Hex : ∃ origins : list DeviceId, scan_origins (db_oplog d) = vec_to_list <$> origins).
  { assert (Hall : Forall (λ x, ∃ o : DeviceId, x = vec_to_list o) (scan_origins (db_oplog d))).
    { apply Forall_forall. intros x Hx%Hin. rewrite Hdev in Hx. apply list_elem_of_fmap in Hx as (op & -> & _). by eexists. }
    clear -Hall. induction Hall as [|x l [o ->] _ [os IH]]; [by exists []|]. exists (o :: os). by rewrite IH. }
  destruct Hex as [origins Ho]. rewrite Ho in Hs, Hin. exists origins. split_and!.
  - unfold sql_origins. do 2 (apply runs_bind; [apply _|]; exists (), d; split; [done|]).
    apply runs_bind; [apply _|]. eexists _, d. split; [by apply runs_get|]. apply runs_rows. split; [|done].
    
    clear. induction origins as [|o os IH]; [done|]. cbn. rewrite vec_of_list_to_list. cbn. by rewrite <-IH.
  - clear -Hs. induction origins as [|o os IH]; [constructor|]. rewrite fmap_cons in Hs. apply StronglySorted_inv in Hs as [Hs Hall].
    constructor; [by apply IH|]. apply Forall_forall. intros x Hx.
    exact (proj1 (Forall_forall _ _) Hall _ (list_elem_of_fmap_2 vec_to_list _ _ Hx)).
  - intros dev. specialize (Hin (vec_to_list dev)). rewrite Hdev, !list_elem_of_fmap in Hin. split.
    + intros Hd. destruct (proj1 Hin) as (op & Heq & Hop); [eauto|]. exists op. split; [done|]. symmetry. by apply vec_to_list_inj2.
    + intros (op & Hop & Heq). destruct (proj2 Hin) as (o & He & Ho'); [exists op; by rewrite Heq|].
      apply vec_to_list_inj2 in He. by subst.
Qed.

(** A bound the columns can hold: of that origin, and without the top bit. *)
Definition bound_ok (origin : DeviceId) (after : option OrderKey) : Prop :=
  match after with Some k => ok_device k = origin ∧ (ok_hlc k ≤ i64_max)%Z | None => True end.

(** Within one origin the keyed index orders as the full key does. *)
Lemma same_device_cmp (h h' : Z) (o i i' : bytes) : cmp (h, (o, i)) (h', (o, i')) = cmp (h, i) (h', i').
Proof.
  change (cmp (h, (o, i)) (h', (o, i'))) with (match cmp h h' with Eq => match cmp o o with Eq => cmp i i' | c => c end | c => c end).
  rewrite cmp_refl. done.
Qed.

Lemma origin_bound_above op r origin after :
  row_for op r → op_device (op_body op) = origin → bound_ok origin after →
  ((origin_bound after).1, (vec_to_list origin, (origin_bound after).2)) ≺ row_key r ↔ above after (order_key op).
Proof.
  intros ((-> & _) & _ & _ & Hh) <- Hb. destruct after as [k|].
  - destruct Hb as [Hd Hk]. change ((origin_bound (Some k)).1, _) with (as_i64 (ok_hlc k), (vec_to_list (op_device (op_body op)), vec_to_list (ok_op_id k))).
    rewrite <-Hd. apply bind_key_olt; cbn; lia.
  - split; [done|]. intros _. unfold bind_key. rewrite as_i64_small by (cbn; lia). unfold olt, cmp, prod_ord. cbn [fst snd origin_bound].
    unfold cmp at 1, Z_ord. by rewrite (proj2 (Z.compare_lt_iff _ _)) by (cbn; lia).
Qed.

Definition origin_selected (origin : DeviceId) (after : option OrderKey) (store : option string) (r : OplogRow) : Prop :=
  match store with Some s => or_store r = s | None => True end ∧ or_device r = vec_to_list origin ∧
  ((origin_bound after).1, (vec_to_list origin, (origin_bound after).2)) ≺ row_key r.
#[local] Instance origin_selected_dec origin after store r : Decision (origin_selected origin after store r).
Proof. unfold origin_selected. destruct store; apply _. Defined.

Lemma origin_selected_iff op r origin after store :
  row_for op r → bound_ok origin after → origin_selected origin after store r ↔ origin_row origin after store op.
Proof.
  intros Hr Hb. unfold origin_selected, origin_row. rewrite (row_for_device _ _ Hr).
  assert (Hst : match store with Some s => or_store r = s | None => True end ↔ store_filtered store op = false).
  { destruct Hr as ((_ & -> & _) & _). destruct store as [s|]; cbn; [|done].
    rewrite bool_decide_eq_false. destruct (decide (as_str (op_store (op_body op)) = s)); naive_solver. }
  rewrite Hst. split.
  - intros (? & Hd%vec_to_list_inj2 & Hlt). split_and!; [done| |done]. by eapply origin_bound_above.
  - intros (Hd & Hlt & ?). split_and!; [done|by rewrite Hd|]. by eapply origin_bound_above.
Qed.

Lemma origin_entries origin ops rows :
  Forall2 row_for ops rows → Forall (λ op, op_device (op_body op) = origin) ops →
  try_map encode_row ops = Ok (omap (origin_entry origin) rows).
Proof.
  induction 1 as [|op r ops rows Hr _ IH]; intros Hd; [done|]. apply Forall_cons in Hd as [<- Hd].
  assert (He : encode_row op = Ok (order_key op, or_envelope r)) by (unfold encode_row; by destruct Hr as (_ & -> & _)).
  assert (Ho : origin_entry (op_device (op_body op)) r = Some (order_key op, or_envelope r)).
  { unfold origin_entry. rewrite (row_for_id _ _ Hr), vec_of_list_to_list, (row_for_hlc _ _ Hr). destruct Hr as (_ & _ & _ & Hh).
    unfold as_u64. rewrite Z.mod_small; [done|]. unfold i64_max, u64_modulus in *. lia. }
  cbn [try_map]. rewrite He. cbn. rewrite Ho, (IH Hd). done.
Qed.

(** The order of the query, with or without a store. *)
Lemma origin_rows_read d arr origin after (store : option string) :
  sql_log_rep d arr →
  match store with
  | Some s => order_by row_key (filter (λ r, or_store r = s ∧ or_device r = vec_to_list origin ∧
      ((origin_bound after).1, (vec_to_list origin, (origin_bound after).2)) ≺ row_key r) (db_oplog d))
  | None => order_by origin_key (filter (λ r, or_device r = vec_to_list origin ∧ origin_bound after ≺ origin_key r) (db_oplog d))
  end = order_by row_key (filter (origin_selected origin after store) (db_oplog d)).
Proof.
  intros Hrep. destruct store as [s|]; [f_equal; apply filter_ext; intros r _; done|].
  pose proof (rep_ids_distinct _ _ Hrep) as Hnd.
  assert (Hf : filter (λ r, or_device r = vec_to_list origin ∧ origin_bound after ≺ origin_key r) (db_oplog d) =
    filter (origin_selected origin after None) (db_oplog d)).
  { apply filter_ext. intros r _. unfold origin_selected. destruct (origin_bound after) as [h i]. cbn [fst snd].
    split; [intros (Hd & Hlt)|intros (_ & Hd & Hlt)]; (split_and!; [done..|]); revert Hlt; unfold row_key, origin_key, olt; rewrite <-Hd, same_device_cmp; done. }
  rewrite Hf. apply order_by_ext.
  - apply (NoDup_fmap_1 snd). rewrite <-list_fmap_compose. by apply NoDup_ids_filter.
  - intros r r' [(_ & Hd & _) _]%list_elem_of_filter [(_ & Hd' & _) _]%list_elem_of_filter.
    unfold ole, row_key, origin_key. rewrite Hd, Hd', same_device_cmp. done.
Qed.

Lemma origin_since_refines d arr origin after store limit :
  sql_log_rep d arr → bound_ok origin after → u64_ok limit → (store = None → db_origin_index d = true) →
  ∃ rows, try_map encode_row (takeZ limit (filter (origin_row origin after store) (ordered arr))) = Ok rows ∧
    runs (sql_origin_since origin after store limit) d rows d.
Proof.
  intros Hrep Hb Hlim Hidx. pose proof (origin_rows_read d arr origin after store Hrep) as Hread.
  set (rows := takeZ limit (order_by row_key (filter (origin_selected origin after store) (db_oplog d)))).
  exists (omap (origin_entry origin) rows). split.
  - apply origin_entries.
    + subst rows. rewrite !takeZ_take. apply Forall2_take, ordered_rows; [apply Hrep..|]. intros op r Hr. by apply origin_selected_iff.
    + apply Forall_forall. intros op Hop%elem_of_takeZ. by apply list_elem_of_filter in Hop as [(? & _) _].
  - unfold sql_origin_since. destruct (origin_bound after) as [after_hlc after_op_id] eqn:Hbound. cbn [fst snd] in Hread.
    apply runs_bind; [destruct store; solve_quiet|]. exists (), d. split.
    { destruct store; [done|]. unfold needs_origin_index, runs, mbind, sql_bind, sql_get. by rewrite Hidx. }
    do 2 (apply runs_bind; [apply _|]; exists (), d; split; [done|]).
    apply runs_bind; [apply _|]. exists rows, d. split; [apply runs_get; split; [|done]|by apply runs_rows].
    subst rows. rewrite <-sql_limit_u64, <-Hread by (done || by eapply rows_len). by destruct store.
Qed.

(** ** Append *)

Lemma rep_contains_iff d arr (i : OpId) :
  sql_log_rep d arr → vec_to_list i ∈ or_op_id <$> db_oplog d ↔ i ∈ op_id <$> arr.
Proof.
  intros Hrep. rewrite (rep_row_ids _ _ Hrep), !list_elem_of_fmap. split.
  - intros (op & Heq%vec_to_list_inj2 & ?). by exists op.
  - intros (op & -> & ?). by exists op.
Qed.

(** What the log can hold of an op. *)
Definition storable (op : SignedOp) : Prop :=
  op_v (op_body op) = ENVELOPE_VERSION ∧ (0 ≤ op_hlc (op_body op) ≤ i64_max)%Z.

Lemma append_refines d arr stamp op t p origin new d' :
  sql_log_rep d arr → storable op → (len arr < i64_max)%Z → st_seq stamp = (max_seq d + 1)%Z →
  runs (oplog_append stamp op t p origin) d new d' →
  new = (arr_append arr op).1 ∧ sql_log_rep d' (arr_append arr op).2.
Proof.
  intros Hrep [Hv Hh] Hlen Hseq Hr%oplog_append_runs. unfold arr_append. destruct new.
  - pose proof (app_fresh _ _ _ _ _ _ _ Hr) as Hf. rewrite (rep_contains_iff _ _ _ Hrep) in Hf. rewrite decide_False by done. split; [done|].
    destruct (app_env _ _ _ _ _ _ _ Hr) as (envelope & Henv & Hlog). split; cbn [snd].
    + rewrite Hlog. apply Forall2_app; [apply Hrep|]. constructor; [|done]. split_and!; [by apply op_row_of_op|done|done|lia|lia].
    + rewrite fmap_app. apply NoDup_app. split_and!; [apply Hrep| |apply NoDup_singleton]. by intros i Hi ->%list_elem_of_singleton.
    + rewrite (app_arrivals _ _ _ _ _ _ _ Hr), !fmap_app. by rewrite (slr_arrivals _ _ Hrep).
    + rewrite (app_arrivals _ _ _ _ _ _ _ Hr), fmap_app, (slr_seqs _ _ Hrep), len_app. cbn.
      rewrite Hseq, (rep_max_seq _ _ Hrep). change (len [op]) with 1%Z. rewrite seqZ_app by (apply len_nonneg || lia).
      f_equal. rewrite seqZ_cons, seqZ_nil by lia. f_equal. lia.
    + rewrite (app_relay _ _ _ _ _ _ _ Hr). apply Hrep.
    + rewrite len_app. change (len [op]) with 1%Z. lia.
  - destruct Hr as [-> Hin]. rewrite (rep_contains_iff _ _ _ Hrep) in Hin. by rewrite decide_True.
Qed.

Lemma append_runs d stamp op t p origin envelope :
  op_to_bytes op = Ok envelope → ∃ new d', runs (oplog_append stamp op t p origin) d new d'.
Proof.
  intros He. unfold oplog_append. rewrite He. cbn [map_err].
  destruct (total (S := Db) (m := _ ← sql_try "oplog append"; ids ← sql_get (λ d, or_op_id <$> db_oplog d);
    if decide (vec_to_list (op_id op) ∈ ids) then mret false else
    _ ← sql_mod (λ d, set_oplog (db_oplog d ++ [op_row (max_of (or_rowid <$> db_oplog d) + 1) op envelope t p origin]) d);
    _ ← sql_try "oplog arrival append";
    _ ← sql_mod (λ d, set_arrivals (db_arrivals d ++ [mk_arrival (st_seq stamp) (vec_to_list (op_id op)) (st_now stamp)]) d);
    _ ← upsert_head op t p;
    _ ← (if decide (origin = ORIGIN_LOCAL) then note_own_op op else mret ()); mret true) d) as (new & d' & Hr).
  exists new, d'. apply runs_bind; [apply _|]. exists envelope, d. by split; [apply runs_lift|].
Qed.

End refine.
