(* ===== verification/SqlEdges.v ===== *)
(** * The callback outbox and the pending-edge queue ([src/sqlite/pending_edges.rs])

    The tables beside the log: callbacks a move still owes, edges waiting for an
    endpoint, the failures they are retired to, and the queue of endpoints to
    wake.  The queue is served round-robin, and a page of edges loses none. *)

From stdpp Require Import pretty.
From S2P Require Import Prelude Ordered External Toy Identity Words Op RowOp Log Pull Sql SqlDb.

(** ** Tables *)

(** [move_callback_fires], one row per move. *)
Record Fire : Type := mk_fire { fi_move : string; fi_resolution : bytes; fi_dispatched : Z }.
#[export] Instance Fire_eq_dec : EqDecision Fire.
Proof. solve_decision. Defined.

(** [mesh_unverified_ops] *)
Record Unverified : Type := mk_unverified {
  uv_rowid : Z;
  uv_candidate : bytes;
  uv_claimed : bytes;
  uv_signer : bytes;
  uv_peer : bytes;
  uv_envelope : bytes;
  uv_bytes : Z;
  uv_first_seen : string;
  uv_last_seen : string;
  uv_attempts : Z;
  uv_error : option string;
  uv_state : string;
}.

(** The tables the log shares its database with; [sd_pending_rows],
    [sd_projection] and [sd_replay] belong to the host and are only read. *)
Record StoreDb : Type := mk_sdb {
  sd_db : Db;
  sd_fires : list Fire;
  sd_edges : list (string * bytes);
  sd_failures : gmap (string * bytes) string;
  sd_wakes : list (Z * string);
  sd_projection : list bytes;
  sd_replay : list (bytes * string);
  sd_pending_rows : list bytes;
  sd_verified : gmap bytes bytes;
  sd_unverified : list Unverified;
  sd_applied_index : bool;
}.

Definition set_db (d : Db) (s : StoreDb) : StoreDb :=
  mk_sdb d (sd_fires s) (sd_edges s) (sd_failures s) (sd_wakes s) (sd_projection s) (sd_replay s)
    (sd_pending_rows s) (sd_verified s) (sd_unverified s) (sd_applied_index s).
Definition set_fires (f : list Fire) (s : StoreDb) : StoreDb :=
  mk_sdb (sd_db s) f (sd_edges s) (sd_failures s) (sd_wakes s) (sd_projection s) (sd_replay s)
    (sd_pending_rows s) (sd_verified s) (sd_unverified s) (sd_applied_index s).
Definition set_edges (e : list (string * bytes)) (s : StoreDb) : StoreDb :=
  mk_sdb (sd_db s) (sd_fires s) e (sd_failures s) (sd_wakes s) (sd_projection s) (sd_replay s)
    (sd_pending_rows s) (sd_verified s) (sd_unverified s) (sd_applied_index s).
Definition set_failures (f : gmap (string * bytes) string) (s : StoreDb) : StoreDb :=
  mk_sdb (sd_db s) (sd_fires s) (sd_edges s) f (sd_wakes s) (sd_projection s) (sd_replay s)
    (sd_pending_rows s) (sd_verified s) (sd_unverified s) (sd_applied_index s).
Definition set_wakes (w : list (Z * string)) (s : StoreDb) : StoreDb :=
  mk_sdb (sd_db s) (sd_fires s) (sd_edges s) (sd_failures s) w (sd_projection s) (sd_replay s)
    (sd_pending_rows s) (sd_verified s) (sd_unverified s) (sd_applied_index s).
Definition set_verified (v : gmap bytes bytes) (s : StoreDb) : StoreDb :=
  mk_sdb (sd_db s) (sd_fires s) (sd_edges s) (sd_failures s) (sd_wakes s) (sd_projection s) (sd_replay s)
    (sd_pending_rows s) v (sd_unverified s) (sd_applied_index s).
Definition set_unverified (u : list Unverified) (s : StoreDb) : StoreDb :=
  mk_sdb (sd_db s) (sd_fires s) (sd_edges s) (sd_failures s) (sd_wakes s) (sd_projection s) (sd_replay s)
    (sd_pending_rows s) (sd_verified s) u (sd_applied_index s).

(** A statement on the log's own tables. *)
Definition on_db {A} (m : sql Db A) : sql StoreDb A := sql_zoom sd_db set_db m.

(** ** The callback outbox *)

(** [INSERT OR IGNORE] on the move id. *)
Definition record_move_callback_fire (move_id : string) (resolution : OpId) : sql StoreDb bool :=
  _ ← sql_try "record move callback fire";
  fires ← sql_get sd_fires;
  if decide (move_id ∈ fi_move <$> fires) then mret false
  else _ ← sql_mod (set_fires (fires ++ [mk_fire move_id (vec_to_list resolution) 0])); mret true.

Definition move_callback_recorded (move_id : string) : sql StoreDb bool :=
  _ ← sql_try "move callback recorded";
  sql_get (λ s, bool_decide (move_id ∈ fi_move <$> sd_fires s)).

Definition undispatched_fires (s : StoreDb) : list Fire := filter (λ f, fi_dispatched f = 0%Z) (sd_fires s).

Definition undispatched_move_callback (move_id : string) : sql StoreDb (option OpId) :=
  _ ← sql_try "undispatched move callback";
  row ← sql_get (λ s, head (filter (λ f, fi_move f = move_id) (undispatched_fires s)));
  mret (match row with Some f => vec_of_list 32 (fi_resolution f) | None => None end).

Definition undispatched_move_callbacks : sql StoreDb (list (string * OpId)) :=
  _ ← sql_try "undispatched move callbacks prepare";
  _ ← sql_try "undispatched move callbacks query";
  rows ← sql_get undispatched_fires;
  sql_rows "undispatched move callbacks row"
    (λ f, Ok ((λ i, (fi_move f, i)) <$> vec_of_list 32 (fi_resolution f))) rows.

Definition discard_undispatched_move_callback (move_id : string) (resolution : OpId) : sql StoreDb () :=
  _ ← sql_try "discard nonterminal Move callback";
  sql_mod (λ s, set_fires (filter (λ f,
    ¬ (fi_move f = move_id ∧ fi_resolution f = vec_to_list resolution ∧ fi_dispatched f = 0%Z)) (sd_fires s)) s).

Definition mark_dispatched (move_id : string) (f : Fire) : Fire :=
  if decide (fi_move f = move_id) then mk_fire (fi_move f) (fi_resolution f) 1 else f.
Definition mark_move_callback_dispatched (move_id : string) : sql StoreDb () :=
  _ ← sql_try "mark move callback dispatched";
  sql_mod (λ s, set_fires (mark_dispatched move_id <$> sd_fires s) s).

(** ** Pending edges *)

Definition buffer_pending_edge (endpoint : string) (edge : OpId) : sql StoreDb () :=
  _ ← sql_try "buffer pending edge";
  sql_mod (λ s, if decide ((endpoint, vec_to_list edge) ∈ sd_edges s) then s
                else set_edges (sd_edges s ++ [(endpoint, vec_to_list edge)]) s).

Record PendingEdgePage : Type := mk_page { pe_ids : list OpId; pe_quarantined : nat }.

Definition endpoint_edges (endpoint : string) (s : StoreDb) : list bytes :=
  (filter (λ e, e.1 = endpoint) (sd_edges s)).*2.

Definition is_malformed (b : bytes) : Prop := length b ≠ 32.
#[export] Instance is_malformed_dec b : Decision (is_malformed b).
Proof. unfold is_malformed. apply _. Defined.

Definition invalid_length (b : bytes) : string :=
  "invalid op id length " +:+ pretty (len b) +:+ "; expected 32".

(** A malformed id moves to the failure table. *)
Definition retire_malformed (endpoint : string) (edge : bytes) : sql StoreDb () :=
  _ ← sql_try "quarantine pending edge";
  _ ← sql_mod (λ s, set_failures (<[(endpoint, edge) := invalid_length edge]> (sd_failures s)) s);
  _ ← sql_try "retire malformed pending edge";
  sql_mod (λ s, set_edges (filter (λ e, e ≠ (endpoint, edge)) (sd_edges s)) s).

Definition pending_edges_for (endpoint : string) (limit : Z) : sql StoreDb PendingEdgePage :=
  _ ← sql_try "pending edges prepare";
  _ ← sql_try "pending edges query";
  rows ← sql_get (λ s, sql_limit (as_i64 limit) (order_by id (endpoint_edges endpoint s)));
  rows ← sql_rows "pending edges row" (λ row, Ok (Some row)) rows;
  let malformed := filter is_malformed rows in
  _ ← sql_fold (λ _ edge, retire_malformed endpoint edge) () malformed;
  mret (mk_page (omap (vec_of_list 32) rows) (length malformed)).

Definition pending_edges_remain (endpoint : string) : sql StoreDb bool :=
  _ ← sql_try "probe pending graph edges";
  sql_get (λ s, bool_decide (endpoint_edges endpoint s ≠ [])).

Definition remove_pending_edge (endpoint : string) (edge : OpId) : sql StoreDb () :=
  _ ← sql_try "remove pending edge";
  sql_mod (λ s, set_edges (filter (λ e, e ≠ (endpoint, vec_to_list edge)) (sd_edges s)) s).
Definition remove_pending_edge_all (edge : OpId) : sql StoreDb () :=
  _ ← sql_try "remove pending edge all";
  sql_mod (λ s, set_edges (filter (λ e, e.2 ≠ vec_to_list edge) (sd_edges s)) s).
(** The ops of the edge row, applied or not. *)
Definition row_op_ids (store table row_pk : string) (d : Db) : list bytes :=
  or_op_id <$> filter (λ r, or_store r = store ∧ or_table r = table ∧ or_row_pk r = row_pk) (db_oplog d).
Definition remove_pending_edges_for_edge_row (store table row_pk : string) : sql StoreDb () :=
  _ ← sql_try "remove pending edges for edge row";
  sql_mod (λ s, set_edges (filter (λ e, e.2 ∉ row_op_ids store table row_pk (sd_db s)) (sd_edges s)) s).

(** ** Wakes *)

(** [wake_id] is the row id SQLite assigns: above every one in the table. *)
Definition queue_pending_edge_wake (wake_id : Z) (endpoint : string) : sql StoreDb () :=
  _ ← sql_try "queue pending graph endpoint wake";
  sql_mod (λ s, if decide (endpoint_edges endpoint s ≠ [] ∧ endpoint ∉ (sd_wakes s).*2)
                then set_wakes (sd_wakes s ++ [(wake_id, endpoint)]) s else s).

Definition pending_edge_wake (endpoint : option string) : sql StoreDb (option (Z * string)) :=
  _ ← sql_try "prepare pending graph endpoint wake";
  _ ← sql_try "read pending graph endpoint wake";
  sql_get (λ s, match endpoint with
                | Some endpoint => head (filter (λ w, w.2 = endpoint) (sd_wakes s))
                | None => oldest fst (sd_wakes s)
                end).

Definition remove_pending_edge_wake (wake_id : Z) : sql StoreDb () :=
  _ ← sql_try "remove pending graph endpoint wake";
  sql_mod (λ s, set_wakes (filter (λ w, w.1 ≠ wake_id) (sd_wakes s)) s).

(** [new_id] is the row id the requeued wake is assigned. *)
Definition rotate_pending_edge_wake (new_id wake_id : Z) (endpoint : string) : sql StoreDb () :=
  _ ← sql_try "rotate pending graph endpoint wake";
  deleted ← sql_get (λ s, len (filter (λ w, w.1 = wake_id) (sd_wakes s)));
  _ ← sql_mod (λ s, set_wakes (filter (λ w, w.1 ≠ wake_id) (sd_wakes s)) s);
  if decide (deleted ≠ 1)%Z then
    sql_lift (Err (SqlOther ("rotate pending graph endpoint wake: expected wake " +:+ pretty wake_id +:+ " to exist")))
  else
    _ ← sql_try "requeue pending graph endpoint wake";
    sql_mod (λ s, set_wakes (sd_wakes s ++ [(new_id, endpoint)]) s).

(** ** The queue of wakes is served round-robin *)

Definition wake_order (s : StoreDb) : list (Z * string) := order_by fst (sd_wakes s).
Definition wakes_ok (s : StoreDb) : Prop := NoDup (sd_wakes s).*1.

(** A worker's rounds: serve the oldest wake, move it to the tail. *)
Fixpoint serve_wakes (ids : list Z) : sql StoreDb (list string) :=
  match ids with
  | [] => mret []
  | new_id :: ids =>
      wake ← pending_edge_wake None;
      match wake with
      | None => mret []
      | Some (wake_id, endpoint) =>
          _ ← rotate_pending_edge_wake new_id wake_id endpoint;
          rest ← serve_wakes ids;
          mret (endpoint :: rest)
      end
  end.

(** The row ids SQLite assigns on the way: each above every one in the table. *)
Fixpoint ids_fresh (bound : Z) (ids : list Z) : Prop :=
  match ids with [] => True | i :: ids => (bound < i)%Z ∧ ids_fresh i ids end.

Lemma wakes_ok_order s : wakes_ok s → NoDup (fst <$> wake_order s).
Proof. unfold wakes_ok, wake_order. by rewrite order_by_perm. Qed.

Lemma rotate_head_ok s new_id wake_id endpoint rest bound :
  wakes_ok s → wake_order s = (wake_id, endpoint) :: rest → Forall (λ w, w.1 ≤ bound)%Z (sd_wakes s) → (bound < new_id)%Z →
  ∃ s', rotate_pending_edge_wake new_id wake_id endpoint s [] = (Ok (), (s', [])) ∧
    wake_order s' = rest ++ [(new_id, endpoint)] ∧ wakes_ok s' ∧ Forall (λ w, w.1 ≤ new_id)%Z (sd_wakes s').
Proof.
  intros Hok Hord Hb Hnew. pose proof (wakes_ok_order _ Hok) as Hnd. rewrite Hord in Hnd.
  assert (Hperm : sd_wakes s ≡ₚ (wake_id, endpoint) :: rest) by (rewrite <-Hord; symmetry; apply order_by_perm).
  apply NoDup_cons in Hnd as [Hnin Hnd'].  cbn in Hnin.
  assert (Hrest : Forall (λ w, w.1 ≠ wake_id) rest).
  { apply Forall_forall. intros w Hw <-. apply Hnin. by apply (list_elem_of_fmap_2 fst). }
  assert (Hkeep : filter (λ w, w.1 ≠ wake_id) (sd_wakes s) ≡ₚ rest).
  { rewrite Hperm, filter_cons, decide_False by (intros Hn; by apply Hn). by rewrite filter_all. }
  assert (Hgone : length (filter (λ w, w.1 = wake_id) (sd_wakes s)) = 1).
  { rewrite Hperm, filter_cons, decide_True by done. rewrite filter_none; [done|done]. }
  assert (Hbr : Forall (λ w, w.1 ≤ bound)%Z rest) by (rewrite Hperm in Hb; by apply Forall_cons in Hb as [_ ?]).
  assert (Hnd2 : NoDup (rest ++ [(new_id, endpoint)]).*1).
  { rewrite fmap_app. apply NoDup_app. split_and!; [done| |apply NoDup_singleton].
    intros i (w & -> & Hw)%list_elem_of_fmap Hi%list_elem_of_singleton. rewrite Forall_forall in Hbr. specialize (Hbr w Hw). cbn in *. lia. }
  unfold rotate_pending_edge_wake, mbind, sql_bind, sql_get, len. cbn [sql_try sql_mod]. rewrite Hgone, decide_False by (intros Hn; by apply Hn).
  eexists. split; [reflexivity|]. unfold wake_order, wakes_ok. cbn [sd_wakes set_wakes]. split_and!.
  - apply order_by_unique; [by rewrite Hkeep|by rewrite Hkeep|].
    pose proof (order_by_sorted fst (sd_wakes s)) as Hs. fold (wake_order s) in Hs. rewrite Hord in Hs.
    apply StronglySorted_inv in Hs as [Hs _]. clear -Hs Hbr Hnew.
    induction Hs as [|w rest Hs IH Hw]; cbn; [repeat constructor|]. apply Forall_cons in Hbr as [Hwb Hbr].
    constructor; [by apply IH|]. apply Forall_app. split; [done|]. constructor; [|done]. change (w.1 ≤ new_id)%Z. cbn in Hwb. lia.
  - by rewrite Hkeep.
  - apply Forall_app. split; [|constructor; [cbn; lia|done]]. rewrite Hkeep. eapply Forall_impl; [exact Hbr|]. cbn. lia.
Qed.

Lemma serve_wakes_rounds ids s bound :
  wakes_ok s → Forall (λ w, w.1 ≤ bound)%Z (sd_wakes s) → ids_fresh bound ids → length ids ≤ length (sd_wakes s) →
  ∃ s', serve_wakes ids s [] = (Ok (take (length ids) (wake_order s).*2), (s', [])) ∧
    (wake_order s').*2 = drop (length ids) (wake_order s).*2 ++ take (length ids) (wake_order s).*2 ∧ wakes_ok s'.
Proof.
  revert s bound; induction ids as [|i ids IH]; intros s bound Hok Hb Hf Hl.
  { exists s. split_and!; [by rewrite take_0|by rewrite take_0, drop_0, app_nil_r|done]. }
  destruct Hf as [Hi Hf]. assert (Hlen : length (wake_order s) = length (sd_wakes s)) by (unfold wake_order; by rewrite order_by_perm).
  destruct (wake_order s) as [|[w e] rest] eqn:Hord; [cbn in *; lia|].
  destruct (rotate_head_ok s i w e rest bound Hok Hord Hb Hi) as (s1 & Hrot & Hord1 & Hok1 & Hb1).
  destruct (IH s1 i Hok1 Hb1 Hf) as (s2 & Hrun & Hord2 & Hok2).
  { assert (Hl1 : length (sd_wakes s1) = length (wake_order s1)) by (unfold wake_order; by rewrite order_by_perm).
    rewrite Hl1, Hord1, length_app. cbn in *. lia. }
  rewrite Hord1 in Hrun, Hord2. exists s2. cbn [serve_wakes length].
  assert (Hle : length ids ≤ length rest.*2) by (rewrite length_fmap; cbn in *; lia).
  rewrite fmap_app in Hrun, Hord2. rewrite take_app_le in Hrun, Hord2 by done. rewrite drop_app_le in Hord2 by done.
  split_and!; [|by rewrite Hord2, <-app_assoc|done].
  assert (Hwake : pending_edge_wake None s [] = (Ok (head (wake_order s)), (s, []))) by done. rewrite Hord in Hwake.
  rewrite (bind_run _ _ _ _ _ _ _ Hwake). cbn [head]. by rewrite (bind_run _ _ _ _ _ _ _ Hrot), (bind_run _ _ _ _ _ _ _ Hrun).
Qed.

(** The durable wake queue is fair: over one round with fresh row ids every
    queued endpoint is served exactly once, in queue order, and the queue ends
    in the order it began with. *)
Lemma wake_rotation_fair (ids : list Z) (s : StoreDb) (bound : Z) :
  wakes_ok s → Forall (λ w, w.1 ≤ bound)%Z (sd_wakes s) → ids_fresh bound ids → length ids = length (sd_wakes s) →
  ∃ s', serve_wakes ids s [] = (Ok (wake_order s).*2, (s', [])) ∧ (wake_order s').*2 = (wake_order s).*2.
Proof.
  intros Hok Hb Hf Hl. destruct (serve_wakes_rounds ids s bound Hok Hb Hf) as (s' & Hrun & Hord & _); [lia|].
  assert (Hlen : length (wake_order s).*2 = length ids) by (rewrite length_fmap; unfold wake_order; by rewrite order_by_perm).
  exists s'. rewrite <-Hlen, firstn_all in Hrun. rewrite <-Hlen, drop_all, firstn_all in Hord. by split.
Qed.

(** ** A page of edges loses none *)

Lemma retire_malformed_runs endpoint edges u s u' s' :
  runs (sql_fold (λ _ edge, retire_malformed endpoint edge) u edges) s u' s' →
  sd_edges s' = filter (λ e, ¬ (e.1 = endpoint ∧ e.2 ∈ edges)) (sd_edges s) ∧
  (∀ e b, sd_failures s' !! (e, b) =
    if decide (e = endpoint ∧ b ∈ edges) then Some (invalid_length b) else sd_failures s !! (e, b)) ∧
  sd_wakes s' = sd_wakes s.
Proof.
  revert u s; induction edges as [|edge edges IH]; intros u s Hr; cbn [sql_fold] in Hr.
  { apply runs_ret in Hr as [_ <-]. split_and!; [|intros; by rewrite decide_False by (intros [_ Hn]; by apply not_elem_of_nil in Hn)|done].
    symmetry. apply filter_all, Forall_forall. intros e _ [_ ?%not_elem_of_nil]. done. }
  apply runs_bind in Hr as (u1 & s1 & H1 & Hr); [|apply _]. apply IH in Hr as (He & Hfl & Hw).
  assert (Hs1 : s1 = set_edges (filter (λ e, e ≠ (endpoint, edge)) (sd_edges s))
    (set_failures (<[(endpoint, edge) := invalid_length edge]> (sd_failures s)) s)).
  { unfold retire_malformed in H1. by run_all. }
  subst s1. cbn in *. split_and!; [| |done].
  - rewrite He, list_filter_filter. apply list_filter_iff. intros [e b]. cbn. rewrite elem_of_cons. naive_solver.
  - intros e b. rewrite Hfl. destruct (decide (e = endpoint ∧ b ∈ edges)) as [[-> Hb]|Hn].
    + rewrite decide_True; [done|]. set_solver.
    + destruct (decide ((e, b) = (endpoint, edge))) as [[= -> ->]|Hne].
      * rewrite lookup_insert_eq, decide_True; [done|]. set_solver.
      * rewrite lookup_insert_ne by done. rewrite decide_False; [done|]. intros [-> [->|Hb]%elem_of_cons]; [done|]. naive_solver.
Qed.

Definition page_rows (endpoint : string) (limit : Z) (s : StoreDb) : list bytes :=
  sql_limit (as_i64 limit) (order_by id (endpoint_edges endpoint s)).

(** What one page takes and what it retires. *)
Lemma pending_edges_for_runs endpoint limit s page s' :
  runs (pending_edges_for endpoint limit) s page s' →
  let rows := page_rows endpoint limit s in
  pe_ids page = omap (vec_of_list 32) rows ∧
  sd_edges s' = filter (λ e, ¬ (e.1 = endpoint ∧ e.2 ∈ filter is_malformed rows)) (sd_edges s) ∧
  (∀ e b, sd_failures s' !! (e, b) =
    if decide (e = endpoint ∧ b ∈ filter is_malformed rows) then Some (invalid_length b) else sd_failures s !! (e, b)).
Proof.
  intros Hr rows. unfold pending_edges_for in Hr.
  apply runs_bind in Hr as ([] & s0 & <-%runs_try & Hr); [|apply _].
  apply runs_bind in Hr as ([] & s0 & <-%runs_try & Hr); [|apply _].
  apply runs_bind in Hr as (rs & s0 & [-> <-]%runs_get & Hr); [|apply _]. fold rows in Hr.
  apply runs_bind in Hr as (rs & s0 & Hrs & Hr); [|apply _].
  apply (runs_rows "pending edges row" Some) in Hrs as [Hrs <-].
  assert (rs = rows) as -> by (subst rs; change (omap Some rows = rows); clear; induction rows; cbn; congruence).
  apply runs_bind in Hr as (u & s1 & Hfold & [<- <-]%runs_ret); [|apply _].
  apply retire_malformed_runs in Hfold as (He & Hfl & _). by split_and!.
Qed.

(** ** Draining an endpoint *)

(** A worker's pages: each hands its ids out and drops them, until none remain. *)
Fixpoint drain_edges (fuel : nat) (endpoint : string) (limit : Z) : sql StoreDb (list OpId) :=
  match fuel with
  | 0 => mret []
  | S fuel =>
      page ← pending_edges_for endpoint limit;
      _ ← sql_fold (λ _ i, remove_pending_edge endpoint i) () (pe_ids page);
      remain ← pending_edges_remain endpoint;
      if (remain : bool) then
        rest ← drain_edges fuel endpoint limit;
        mret (pe_ids page ++ rest)
      else mret (pe_ids page)
  end.

Lemma remove_edges_runs endpoint (ids : list OpId) u s u' s' :
  runs (sql_fold (λ _ i, remove_pending_edge endpoint i) u ids) s u' s' →
  sd_edges s' = filter (λ e, ¬ (e.1 = endpoint ∧ e.2 ∈ vec_to_list <$> ids)) (sd_edges s) ∧ sd_failures s' = sd_failures s.
Proof.
  revert u s; induction ids as [|i ids IH]; intros u s Hr; cbn [sql_fold] in Hr.
  { apply runs_ret in Hr as [_ <-]. split; [|done]. symmetry. apply filter_all, Forall_forall.
    intros e _ [_ Hn]. by apply not_elem_of_nil in Hn. }
  apply runs_bind in Hr as (u1 & s1 & H1 & Hr); [|apply _]. apply IH in Hr as [He Hf].
  unfold remove_pending_edge in H1. run_all. split; [|by rewrite Hf]. rewrite He, list_filter_filter. apply list_filter_iff.
  intros [e b]. cbn. rewrite elem_of_cons. naive_solver.
Qed.

(** One round takes a prefix of the sorted edges. *)
Lemma drain_round endpoint limit s page s1 u s2 :
  NoDup (sd_edges s) →
  runs (pending_edges_for endpoint limit) s page s1 →
  runs (sql_fold (λ _ i, remove_pending_edge endpoint i) () (pe_ids page)) s1 u s2 →
  let rows := page_rows endpoint limit s in
  pe_ids page = omap (vec_of_list 32) rows ∧
  sd_edges s2 = filter (λ e, ¬ (e.1 = endpoint ∧ e.2 ∈ rows)) (sd_edges s) ∧
  (∀ e b, sd_failures s2 !! (e, b) =
    if decide (e = endpoint ∧ b ∈ filter is_malformed rows) then Some (invalid_length b) else sd_failures s !! (e, b)).
Proof.
  intros Hnd (Hids & He & Hf)%pending_edges_for_runs [He2 Hf2]%remove_edges_runs rows. fold rows in Hids, He, Hf.
  split_and!; [done| |by intros; rewrite Hf2, Hf]. rewrite He2, He, list_filter_filter. apply list_filter_iff.
  intros [e b]. cbn. assert (Hin : b ∈ vec_to_list <$> pe_ids page ↔ b ∈ rows ∧ ¬ is_malformed b).
  { rewrite Hids, list_elem_of_fmap. setoid_rewrite list_elem_of_omap. unfold is_malformed. split.
    - intros (i & -> & x & Hx & Hv). apply vec_of_list_some in Hv as <-. rewrite length_vec_to_list. by split; [|intros ?].
    - intros [Hb Hl]. destruct (vec_of_list 32 b) as [i|] eqn:Hv; [|by apply vec_of_list_none in Hv].
      exists i. split; [by apply vec_of_list_some in Hv|eauto]. }
  rewrite Hin, list_elem_of_filter. destruct (decide (is_malformed b)); naive_solver.
Qed.

Lemma endpoint_edges_filter endpoint s s2 (rows : list bytes) :
  sd_edges s2 = filter (λ e, ¬ (e.1 = endpoint ∧ e.2 ∈ rows)) (sd_edges s) →
  endpoint_edges endpoint s2 = filter (λ b, b ∉ rows) (endpoint_edges endpoint s).
Proof.
  unfold endpoint_edges. intros ->. induction (sd_edges s) as [|[e b] es IH]; [done|]. rewrite !filter_cons. cbn [fst snd].
  destruct (decide (e = endpoint)) as [->|Hne].
  - destruct (decide (b ∈ rows)) as [Hb|Hb].
    + rewrite decide_False by (intros Hn; by apply Hn). rewrite fmap_cons. cbn [snd].
      rewrite filter_cons, decide_False by (intros Hn; by apply Hn). done.
    + rewrite decide_True by (by intros [_ ?]). rewrite filter_cons, fmap_cons. cbn [fst snd]. rewrite decide_True by done.
      rewrite fmap_cons, filter_cons. cbn [snd]. rewrite decide_True by done. by rewrite IH.
  - rewrite decide_True by (by intros [? _]). rewrite filter_cons. cbn [fst]. rewrite decide_False by done. done.
Qed.

Lemma endpoint_edges_nodup endpoint s : NoDup (sd_edges s) → NoDup (id <$> endpoint_edges endpoint s).
Proof.
  rewrite list_fmap_id. unfold endpoint_edges. induction 1 as [|[e b] es Hn Hnd IH]; [constructor|].
  rewrite filter_cons. cbn [fst]. case_decide as He; [|done]. rewrite fmap_cons. constructor; [|done]. cbn.
  intros ([e' b'] & -> & [He' Hin]%list_elem_of_filter)%list_elem_of_fmap. cbn in *. by subst.
Qed.

Definition drained (endpoint : string) (s s' : StoreDb) : Prop :=
  endpoint_edges endpoint s' = [] ∧
  (∀ b, sd_failures s' !! (endpoint, b) =
     if decide (b ∈ endpoint_edges endpoint s ∧ is_malformed b) then Some (invalid_length b)
     else sd_failures s !! (endpoint, b)) ∧
  filter (λ e, e.1 ≠ endpoint) (sd_edges s') = filter (λ e, e.1 ≠ endpoint) (sd_edges s).

Lemma as_i64_nonzero limit : (0 < limit ≤ usize_max)%Z → as_i64 limit ≠ 0%Z.
Proof. unfold as_i64, usize_max, u64_max, u64_modulus. case_decide; lia. Qed.

(** What one round leaves of an endpoint. *)
Record round_left (endpoint : string) (s : StoreDb) (ids : list OpId) (s2 : StoreDb) : Prop := {
  rl_ids : omap (vec_of_list 32) (order_by id (endpoint_edges endpoint s)) =
    ids ++ omap (vec_of_list 32) (order_by id (endpoint_edges endpoint s2));
  rl_nodup : NoDup (sd_edges s2);
  rl_less : endpoint_edges endpoint s ≠ [] → length (endpoint_edges endpoint s2) < length (endpoint_edges endpoint s);
  rl_in : ∀ b, b ∈ endpoint_edges endpoint s2 → b ∈ endpoint_edges endpoint s;
  rl_failures : ∀ b, sd_failures s2 !! (endpoint, b) =
    if decide (b ∈ endpoint_edges endpoint s ∧ b ∉ endpoint_edges endpoint s2 ∧ is_malformed b) then Some (invalid_length b)
    else sd_failures s !! (endpoint, b);
  rl_others : filter (λ e, e.1 ≠ endpoint) (sd_edges s2) = filter (λ e, e.1 ≠ endpoint) (sd_edges s);
}.
Lemma drain_round_left endpoint limit s :
  (0 < limit ≤ usize_max)%Z → NoDup (sd_edges s) →
  ∃ page s1 u s2, runs (pending_edges_for endpoint limit) s page s1 ∧
    runs (sql_fold (λ _ i, remove_pending_edge endpoint i) () (pe_ids page)) s1 u s2 ∧
    round_left endpoint s (pe_ids page) s2.
Proof.
  intros Hlim Hnd.
  destruct (total (m := pending_edges_for endpoint limit) s) as (page & s1 & H1).
  destruct (total (m := sql_fold (λ _ i, remove_pending_edge endpoint i) () (pe_ids page)) s1) as (u & s2 & H2).
  exists page, s1, u, s2. split_and!; [done..|].
  destruct (drain_round _ _ _ _ _ _ _ Hnd H1 H2) as (Hids & He & Hf).
  pose proof (endpoint_edges_filter _ _ _ _ He) as HE. pose proof (endpoint_edges_nodup endpoint s Hnd) as HndE.
  unfold page_rows in *. set (O := order_by id (endpoint_edges endpoint s)) in *.
  assert (HO : O ≡ₚ endpoint_edges endpoint s) by apply order_by_perm.
  destruct (sql_limit_take (as_i64 limit) O) as (k & Hk & Hpos). rewrite Hk in *.
  assert (Hrest : order_by id (endpoint_edges endpoint s2) = drop k O) by (rewrite HE; by apply order_by_rest).
  assert (HE2 : endpoint_edges endpoint s2 ≡ₚ drop k O) by (rewrite <-Hrest; symmetry; apply order_by_perm).
  split.
  - rewrite Hids, Hrest. by rewrite <-omap_app, take_drop.
  - rewrite He. by apply NoDup_filter.
  - intros Hne. rewrite HE2, <-HO, length_drop. assert (O ≠ []) by (intros HOn; rewrite HOn in HO; by apply Permutation_nil in HO).
    assert (0 < k) by (apply Hpos; [by apply as_i64_nonzero|done]). destruct O; [done|]. cbn. lia.
  - intros b. rewrite HE. by intros [_ ?]%list_elem_of_filter.
  - intros b. rewrite Hf. apply decide_ext. rewrite HE, !list_elem_of_filter, <-HO. split.
    + intros (_ & Hm & Hin). split_and!; [by eapply elem_of_take_1| |done]. intros [Hn _]. by apply Hn.
    + intros (Hin & Hn & Hm). split_and!; [done..|]. apply dec_stable. intros Hnt. apply Hn. by split.
  - rewrite He, list_filter_filter. apply list_filter_iff. intros e. split; [by intros [??]|]. intros Hne. split; [done|]. by intros [? _].
Qed.

Lemma drain_edges_ok fuel endpoint limit s :
  (0 < limit ≤ usize_max)%Z → NoDup (sd_edges s) → length (endpoint_edges endpoint s) ≤ fuel →
  ∃ s', drain_edges (S fuel) endpoint limit s [] =
      (Ok (omap (vec_of_list 32) (order_by id (endpoint_edges endpoint s))), (s', [])) ∧ drained endpoint s s'.
Proof.
  intros Hlim. revert s. induction fuel as [fuel IH] using lt_wf_ind. intros s Hnd Hlen.
  destruct (drain_round_left endpoint limit s Hlim Hnd) as (page & s1 & u & s2 & H1 & H2 & [Hids Hnd2 Hless Hin Hfl Hot]).
  unfold drain_edges. fold drain_edges.
  rewrite (bind_run _ _ _ _ _ _ _ H1), (bind_run _ _ _ _ _ _ _ H2).
  rewrite (bind_run (pending_edges_remain endpoint) _ s2 [] (bool_decide (endpoint_edges endpoint s2 ≠ [])) s2 []) by done.
  case_bool_decide as Hleft.
  - assert (Hne : endpoint_edges endpoint s ≠ []).
    { intros HE. destruct (endpoint_edges endpoint s2) as [|b es] eqn:HE2; [done|].
      rewrite HE in Hin. eapply not_elem_of_nil, (Hin b). left. }
    specialize (Hless Hne). destruct fuel as [|fuel]; [lia|].
    destruct (IH fuel ltac:(lia) s2 Hnd2 ltac:(lia)) as (s' & Hrun & Hnil & Hfl' & Hot').
    exists s'. rewrite (bind_run _ _ _ _ _ _ _ Hrun), Hids. split; [done|]. split_and!; [done| |by rewrite Hot'].
    intros b. rewrite Hfl', Hfl. destruct (decide (is_malformed b)) as [Hm|Hm]; [|by rewrite !decide_False by naive_solver].
    destruct (decide (b ∈ endpoint_edges endpoint s2)) as [Hb|Hb].
    + by rewrite !decide_True by auto.
    + rewrite (decide_False (P := b ∈ endpoint_edges endpoint s2 ∧ _)) by naive_solver. apply decide_ext. naive_solver.
  - exists s2. rewrite Hids, Hleft. cbn. rewrite app_nil_r. split; [done|]. split_and!; [done| |done].
    intros b. rewrite Hfl, Hleft. apply decide_ext. pose proof (not_elem_of_nil b). naive_solver.
Qed.

(** C34: Draining an endpoint page by page ends: with a positive page size and as
    many rounds as it has edges, nothing stays pending, every well-formed edge
    id is handed out exactly once in order, every malformed one is recorded in
    the failure table, and the edges of other endpoints are untouched. *)
Theorem pending_edges_drained (fuel : nat) (endpoint : string) (limit : Z) (s : StoreDb) :
  (0 < limit ≤ usize_max)%Z → NoDup (sd_edges s) → length (endpoint_edges endpoint s) ≤ fuel →
  ∃ s', drain_edges (S fuel) endpoint limit s [] =
      (Ok (omap (vec_of_list 32) (order_by id (endpoint_edges endpoint s))), (s', [])) ∧
    endpoint_edges endpoint s' = [] ∧
    (∀ b, b ∈ endpoint_edges endpoint s → is_malformed b → sd_failures s' !! (endpoint, b) = Some (invalid_length b)) ∧
    filter (λ e, e.1 ≠ endpoint) (sd_edges s') = filter (λ e, e.1 ≠ endpoint) (sd_edges s).
Proof.
  intros Hlim Hnd Hlen. destruct (drain_edges_ok fuel endpoint limit s Hlim Hnd Hlen) as (s' & Hrun & Hnil & Hfl & Hot).
  exists s'. split_and!; [done..| |done]. intros b Hb Hm. by rewrite Hfl, decide_True.
Qed.
