(* ===== verification/SqlRetention.v ===== *)
(** * Retention and compaction ([src/sqlite/retention.rs])

    How far the log may be pruned (a time horizon and what every live peer has
    acknowledged), which ops a compaction pass may drop, and what dropping them
    leaves: winners, origins, pinned ops and the arrival head survive. *)

From S2P Require Import Prelude Ordered External Toy Identity Words Op RowOp Log Pull Sql SqlDb SqlLog SqlHeads SqlEdges.
Import BTree.

Section retention.
Context `{Rusqlite, Postcard, !Wire EnvelopeRepr, !Wire ProxyDbOp}.

(** ** Watermarks *)

Definition DEFAULT_RETENTION_HORIZON : Z := 30 * 24 * 60 * 60.
Definition HLC_SECONDS_SHIFT : Z := 32.

(** Durations in whole seconds. *)
Definition horizon_watermark (now : Hlc) (horizon : Z) : OrderKey :=
  let now_secs := Z.shiftr now HLC_SECONDS_SHIFT in
  let floor_secs := saturating_sub_u64 now_secs horizon in
  mk_OrderKey (Z.shiftl floor_secs HLC_SECONDS_SHIFT mod u64_modulus) (zeros 32) (zeros 32).
Definition compaction_watermark (snapshot : option OrderKey) (now : Hlc) (horizon : Z) : option OrderKey :=
  snap ← snapshot;
  let floor := horizon_watermark now horizon in
  Some (if decide (floor ≺ snap) then floor else snap).

Definition below (store : string) (c : OrderKey) (r : OplogRow) : Prop := or_store r = store ∧ row_key r ≺ bind_key c.
#[export] Instance below_dec store c r : Decision (below store c r).
Proof. unfold below. apply _. Defined.

Definition rows_with_ops_below (store : string) (c : OrderKey) : sql Db (list (string * string)) :=
  _ ← sql_try "retention candidates prepare";
  _ ← sql_try "retention candidates query";
  rows ← sql_get (λ d, remove_dups ((λ r, (or_table r, or_row_pk r)) <$> filter (below store c) (db_oplog d)));
  sql_rows "retention candidates row" (λ row, Ok (Some row)) rows.

Definition prunable (store table row_pk : string) (c : OrderKey) (keep : option OpId) (r : OplogRow) : Prop :=
  below store c r ∧ or_table r = table ∧ or_row_pk r = row_pk ∧
  match keep with Some anchor => or_op_id r ≠ vec_to_list anchor | None => True end.
#[export] Instance prunable_dec store table row_pk c keep r : Decision (prunable store table row_pk c keep r).
Proof. unfold prunable. destruct keep; apply _. Defined.
Definition delete_row_below (store table row_pk : string) (c : OrderKey) (keep : option OpId) : sql Db nat :=
  _ ← sql_try (match keep with Some _ => "retention prune (anchored)" | None => "retention prune (whole row)" end);
  deleted ← sql_get (λ d, length (filter (prunable store table row_pk c keep) (db_oplog d)));
  _ ← sql_mod (λ d, set_oplog (filter (λ r, ¬ prunable store table row_pk c keep r) (db_oplog d)) d);
  mret deleted.

Record CompactionPolicy : Type := mk_policy { keep_per_row : nat; max_deletes_per_pass : nat }.
Definition default_policy : CompactionPolicy := mk_policy 3 (500 * 1000).

(** ** The safe floor *)

Definition current_relay_floor : sql Db Z :=
  _ ← sql_try "compaction floor readback";
  row ← sql_get db_relay_state;
  row ← sql_lift (ok_or row (sql_error "compaction floor readback" no_rows));
  mret (as_u64 row.2).

(** [WHERE relay_seq <= mid ORDER BY relay_seq DESC LIMIT 1] *)
Definition arrival_at_or_below (mid : Z) (d : Db) : option Arrival :=
  newest ar_seq (filter (λ a, (ar_seq a ≤ mid)%Z) (db_arrivals d)).

(** The binary search of [horizon_relay_floor]; its window shrinks by at least
    one each round, so the width of the window is fuel enough. *)
Fixpoint floor_search (cutoff : Z) (fuel : nat) (lo hi best : Z) : sql Db Z :=
  match fuel with
  | 0 => mret best
  | S fuel =>
      if decide (lo ≤ hi)%Z then
        let mid := (lo + (hi - lo) / 2)%Z in
        _ ← sql_try "compaction horizon probe";
        row ← sql_get (arrival_at_or_below mid);
        match row with
        | None => floor_search cutoff fuel (mid + 1) hi best
        | Some a =>
            if decide (ar_arrived_at a ≤ cutoff)%Z
            then floor_search cutoff fuel (mid + 1) hi (Z.max best (ar_seq a))
            else floor_search cutoff fuel lo (ar_seq a - 1) best
        end
      else mret best
  end.

#[export] Instance floor_search_quiet cutoff fuel lo hi best : Quiet (floor_search cutoff fuel lo hi best).
Proof. revert lo hi best; induction fuel as [|fuel IH]; intros lo hi best; cbn [floor_search]; solve_quiet. Qed.

Definition horizon_relay_floor (cutoff : Z) : sql Db Z :=
  _ ← sql_try "compaction oldest arrival";
  first ← sql_get (λ d, oldest ar_seq (db_arrivals d));
  match first with
  | None => mret 0%Z
  | Some first =>
      if decide (cutoff < ar_arrived_at first)%Z then mret 0%Z
      else
        _ ← sql_try "compaction newest arrival";
        newest ← sql_get (λ d, newest ar_seq (db_arrivals d));
        newest ← sql_lift (ok_or newest (sql_error "compaction newest arrival" no_rows));
        if decide (ar_arrived_at newest ≤ cutoff)%Z then mret (ar_seq newest)
        else
          _ ← sql_try "compaction horizon probe prepare";
          floor_search cutoff (S (Z.to_nat (ar_seq newest - ar_seq first + 1)))
            (ar_seq first) (ar_seq newest) (ar_seq first)
  end.

Record CompactionBounds : Type := mk_bounds {
  cb_peers : Z;
  cb_horizon_floor : Z;
  cb_ack_floor : Z;
  cb_safe_floor : Z;
}.

(** [now] and [later] are the two readings of the wall clock in seconds;
    [rfc3339] is [chrono]'s rendering of an instant. *)
Definition safe_relay_floor (rfc3339 : Z → string) (now later : Z) (local : DeviceId) (horizon : Z) : sql Db CompactionBounds :=
  _ ← sql_try "compaction peer count";
  peers ← sql_get (λ d, len (trusted_peers local d));
  horizon_floor ← horizon_relay_floor (now - as_i64 horizon);
  if decide (peers = 0)%Z then mret (mk_bounds peers horizon_floor 0 horizon_floor)
  else
    epoch ← current_stream_epoch;
    ack ← min_peer_ack local epoch (Some (rfc3339 (later - as_i64 horizon)%Z));
    let ack_floor := default i64_max (i64_try (default 0%Z ack)) in
    mret (mk_bounds peers horizon_floor ack_floor (Z.max horizon_floor ack_floor)).

(** ** Candidates *)

Inductive CompactionProbeIndex : Type := Applied | LegacyLww.
#[export] Instance CompactionProbeIndex_eq_dec : EqDecision CompactionProbeIndex.
Proof. solve_decision. Defined.
Definition probe_name (p : CompactionProbeIndex) : string :=
  match p with Applied => "idx_oplog_applied" | LegacyLww => "idx_oplog_lww" end.
Definition probe_detect : sql StoreDb CompactionProbeIndex :=
  _ ← sql_try "compaction index probe";
  there ← sql_get sd_applied_index;
  mret (if (there : bool) then Applied else LegacyLww).

Definition BULK_TABLES : list string :=
  ["items"; "sequences"; "widget_files"; "party_files"; "conversations"; "conversation_participants";
   "conversation_jobs"; "message_attachments"].
Definition is_self_draining_bulk_table (store table : string) : bool :=
  bool_decide (store = STORE_ID) && bool_decide (table ∈ BULK_TABLES).
Definition SELF_DRAINING_HEAD_TRIM_TABLES : list string :=
  ["items"; "sequences"; "widget_files"; "conversations"; "conversation_participants"; "conversation_jobs";
   "message_attachments"].

(** The ops other tables still need. *)
Definition edge_pinned (i : bytes) (s : StoreDb) : Prop := i ∈ (sd_edges s).*2.
Definition fire_pinned (i : bytes) (s : StoreDb) : Prop := i ∈ fi_resolution <$> undispatched_fires s.
Definition projection_pinned (i : bytes) (s : StoreDb) : Prop := i ∈ sd_projection s.
Definition replay_pinned (i : bytes) (s : StoreDb) : Prop := i ∈ (filter (λ q, q.2 ≠ "failed") (sd_replay s)).*1.
Definition head_pinned (r : OplogRow) (s : StoreDb) : Prop :=
  h_op_id <$> head_at (or_store r) (or_table r) (or_row_pk r) (sd_db s) = Some (or_op_id r).

Definition newer_rows (r : OplogRow) (d : Db) : list OplogRow :=
  filter (λ x, row_key r ≺ row_key x) (rows_at (or_store r) (or_table r) (or_row_pk r) d).
Definition older_rows (r : OplogRow) (d : Db) : list OplogRow :=
  filter (λ x, row_key x ≺ row_key r) (rows_at (or_store r) (or_table r) (or_row_pk r) d).

(** The loop's locals; [sc_due] is what the coming deadline checks find, [true]
    while there is time. *)
Record ScanState : Type := mk_scan {
  sc_candidates : list (OpId * Z);
  sc_scanned : nat;
  sc_after : Z;
  sc_due : list bool;
}.
Definition in_time (st : ScanState) : bool * ScanState :=
  match sc_due st with
  | [] => (true, st)
  | b :: due => (b, mk_scan (sc_candidates st) (sc_scanned st) (sc_after st) due)
  end.

(** Enough newer ops, and an older one, of the same row. *)
Definition is_shadowed (policy : CompactionPolicy) (r : OplogRow) : sql StoreDb bool :=
  shadowed ← (if decide (keep_per_row policy = 0) then mret true
              else _ ← sql_try "compaction newer probe";
                   sql_get (λ s, bool_decide (keep_per_row policy - 1 < length (newer_rows r (sd_db s)))));
  if (shadowed : bool) then
    _ ← sql_try "compaction older probe";
    sql_get (λ s, bool_decide (older_rows r (sd_db s) ≠ []))
  else mret false.

(** The probes in turn, stopping at the first that pins the op. *)
Fixpoint any_pin (pins : list (string * (StoreDb → bool))) : sql StoreDb bool :=
  match pins with
  | [] => mret false
  | (context, pinned) :: pins =>
      _ ← sql_try context;
      hit ← sql_get pinned;
      if (hit : bool) then mret true else any_pin pins
  end.
#[export] Instance edge_pinned_dec i s : Decision (edge_pinned i s).
Proof. unfold edge_pinned. apply _. Defined.
#[export] Instance fire_pinned_dec i s : Decision (fire_pinned i s).
Proof. unfold fire_pinned. apply _. Defined.
#[export] Instance projection_pinned_dec i s : Decision (projection_pinned i s).
Proof. unfold projection_pinned. apply _. Defined.
#[export] Instance replay_pinned_dec i s : Decision (replay_pinned i s).
Proof. unfold replay_pinned. apply _. Defined.
#[export] Instance head_pinned_dec r s : Decision (head_pinned r s).
Proof. unfold head_pinned. apply _. Defined.

Definition scan_pins (bulk : bool) (r : OplogRow) : list (string * (StoreDb → bool)) :=
  [("compaction edge probe", λ s, bool_decide (edge_pinned (or_op_id r) s));
   ("compaction fire probe", λ s, bool_decide (fire_pinned (or_op_id r) s))] ++
  (if bulk then [] else [("compaction head probe", λ s, bool_decide (head_pinned r s))]) ++
  [("compaction projection probe", λ s, bool_decide (projection_pinned (or_op_id r) s));
   ("compaction replay probe", λ s, bool_decide (replay_pinned (or_op_id r) s))].

(** One row of a scan page; [true] leaves the scan. *)
Definition scan_row (policy : CompactionPolicy) (row : Arrival * OplogRow) (st : ScanState)
    : sql StoreDb (bool * ScanState) :=
  let '(a, r) := row in
  let st := mk_scan (sc_candidates st) (S (sc_scanned st)) (ar_seq a) (sc_due st) in
  let '(ok, st) := in_time st in
  if negb ok then mret (true, st)
  else
    let bulk := is_self_draining_bulk_table (or_store r) (or_table r) in
    candidate ← (if bulk then mret true else is_shadowed policy r);
    if negb candidate then mret (false, st)
    else
      let '(ok, st) := in_time st in
      if negb ok then mret (true, st)
      else
        pinned ← any_pin (scan_pins bulk r);
        if (pinned : bool) then mret (false, st)
        else
          match vec_of_list 32 (or_op_id r) with
          | None => mret (false, st)
          | Some i =>
              let candidates := sc_candidates st ++ [(i, ar_seq a)] in
              mret (bool_decide (max_deletes_per_pass policy ≤ length candidates),
                mk_scan candidates (sc_scanned st) (sc_after st) (sc_due st))
          end.

Fixpoint scan_page (policy : CompactionPolicy) (rows : list (Arrival * OplogRow)) (st : ScanState)
    : sql StoreDb (bool * ScanState) :=
  match rows with
  | [] => mret (false, st)
  | row :: rows =>
      res ← scan_row policy row st;
      if (res.1 : bool) then mret res else scan_page policy rows res.2
  end.

Definition SCAN_PAGE : nat := 2048.
Definition LEGACY_LWW_SCAN_CAP : nat := 16 * 1024.
Definition scan_cap (policy : CompactionPolicy) (probe : CompactionProbeIndex) : nat :=
  let cap := Nat.max (max_deletes_per_pass policy * 4) SCAN_PAGE in
  match probe with LegacyLww => Nat.min cap LEGACY_LWW_SCAN_CAP | Applied => cap end.

(** The page after a position: applied ops at or below the floor and below the
    newest arrival. *)
Definition scan_rows (after safe_floor newest : Z) (d : Db) : list (Arrival * OplogRow) :=
  takeZ (Z.of_nat SCAN_PAGE) (order_by (λ p, ar_seq p.1)
    (filter (λ p, or_applied p.2 = 1%Z ∧ (after < ar_seq p.1)%Z ∧ (ar_seq p.1 ≤ safe_floor)%Z ∧ (ar_seq p.1 < newest)%Z)
      (joined d))).

(** The scan: [true] when it ran out of rows.  Every page that is not the last
    moves past at least one arrival, so their number is fuel enough. *)
Fixpoint scan_loop (policy : CompactionPolicy) (cap : nat) (safe_floor newest : Z) (fuel : nat) (st : ScanState)
    : sql StoreDb (bool * ScanState) :=
  match fuel with
  | 0 => mret (false, st)
  | S fuel =>
      if decide (length (sc_candidates st) < max_deletes_per_pass policy ∧ sc_scanned st < cap) then
        let '(ok, st) := in_time st in
        if negb ok then mret (false, st)
        else
          _ ← sql_try "compaction scan prepare";
          _ ← sql_try "compaction scan";
          page ← sql_get (λ s, scan_rows (sc_after st) safe_floor newest (sd_db s));
          page ← sql_rows "compaction scan row" (λ row, Ok (Some row)) page;
          if decide (page = []) then mret (true, st)
          else
            res ← scan_page policy page st;
            if (res.1 : bool) then mret (false, res.2)
            else scan_loop policy cap safe_floor newest fuel res.2
      else mret (false, st)
  end.

Record CompactionScan : Type := mk_compaction_scan {
  cs_candidates : list (OpId * Z);
  cs_next_cursor : Z;
  cs_scanned : nat;
}.
Definition needs_probe_index (probe : CompactionProbeIndex) : sql StoreDb () :=
  there ← sql_get sd_applied_index;
  match probe with
  | Applied => if (there : bool) then mret ()
               else sql_lift (Err (sql_error "compaction newer prepare" (no_such_index (probe_name Applied))))
  | LegacyLww => mret ()
  end.
Fixpoint prepare_all (contexts : list string) : sql StoreDb () :=
  match contexts with
  | [] => mret ()
  | context :: contexts => _ ← sql_try context; prepare_all contexts
  end.
Definition compaction_candidates (policy : CompactionPolicy) (safe_floor : Z) (due : list bool) (resume_after : Z)
    (probe : CompactionProbeIndex) : sql StoreDb CompactionScan :=
  _ ← sql_try "compaction head prepare";
  _ ← sql_try "compaction head";
  newest ← sql_get (λ s, max_seq (sd_db s));
  _ ← needs_probe_index probe;
  _ ← prepare_all ["compaction newer prepare"; "compaction older prepare"; "compaction edge pin prepare";
    "compaction fire pin prepare"; "compaction head pin prepare"; "compaction projection pin prepare";
    "compaction replay pin prepare"];
  rows ← sql_get (λ s, length (joined (sd_db s)));
  res ← scan_loop policy (scan_cap policy probe) safe_floor newest (S rows) (mk_scan [] 0 (Z.max resume_after 0) due);
  let '(exhausted, st) := res in
  mret (mk_compaction_scan (sc_candidates st) (if (exhausted : bool) then 0 else sc_after st) (sc_scanned st)).

(** ** Deletion *)

Definition pinned (i : bytes) (s : StoreDb) : Prop :=
  edge_pinned i s ∨ fire_pinned i s ∨ projection_pinned i s ∨ replay_pinned i s.
#[export] Instance pinned_dec i s : Decision (pinned i s).
Proof. unfold pinned. apply _. Defined.
Definition bulk_row (r : OplogRow) : bool := is_self_draining_bulk_table (or_store r) (or_table r).
(** The rows of a chunk the delete takes. *)
Definition deletable (ids : list bytes) (s : StoreDb) (r : OplogRow) : Prop :=
  or_op_id r ∈ ids ∧ ¬ pinned (or_op_id r) s ∧ (bulk_row r = true ∨ ¬ head_pinned r s).
#[export] Instance deletable_dec ids s r : Decision (deletable ids s r).
Proof. unfold deletable. apply _. Defined.
(** The arrivals it takes: the head pin reads the op through the log. *)
Definition arrival_deletable (ids : list bytes) (s : StoreDb) (a : Arrival) : Prop :=
  ar_op_id a ∈ ids ∧ ¬ pinned (ar_op_id a) s ∧
  ¬ Exists (λ r, or_op_id r = ar_op_id a ∧ head_pinned r s ∧ bulk_row r = false) (db_oplog (sd_db s)).
#[export] Instance arrival_deletable_dec ids s a : Decision (arrival_deletable ids s a).
Proof. unfold arrival_deletable. apply _. Defined.

(** [trim_upsert_head_payloads]: the head of a drained table keeps its key and
    loses the image of an upsert. *)
Definition is_upsert (payload : bytes) : bool :=
  match decode_bytes payload with
  | Ok op => match ro_mutation op with Upsert _ => true | Delete => false end
  | Err _ => false
  end.
Definition trim_head (h : HeadRow) : HeadRow := mk_head (h_hlc h) (h_device h) (h_op_id h) [] (h_origin h).
Definition trim_rows (ids : list bytes) (s : StoreDb) : list (RowKey * bytes) :=
  omap (λ r,
    match head_at (or_store r) (or_table r) (or_row_pk r) (sd_db s) with
    | Some h =>
        if decide (h_op_id h = or_op_id r ∧ or_store r = STORE_ID ∧ h_payload h ≠ [])
        then Some ((or_store r, or_table r, or_row_pk r), h_payload h) else None
    | None => None
    end) (filter (λ r, or_op_id r ∈ ids) (db_oplog (sd_db s))).
Definition trim_upsert_head_payloads (ids : list bytes) : sql StoreDb () :=
  _ ← sql_try "compaction head trim select prepare";
  _ ← sql_try "compaction head trim select";
  rows ← sql_get (trim_rows ids);
  _ ← sql_try "compaction head trim update prepare";
  sql_fold (λ _ row,
    let '((store, table, row_pk), payload) := row in
    _ ← sql_try "compaction head trim row";
    if decide (table ∉ SELF_DRAINING_HEAD_TRIM_TABLES) then mret ()
    else if is_upsert payload then
      _ ← sql_try "compaction head trim update";
      sql_mod (λ s, set_db (set_heads (alter trim_head (store, table, row_pk) (db_heads (sd_db s))) (sd_db s)) s)
    else mret ()) () rows.

Definition chunk_bytes (ids : list bytes) (s : StoreDb) : Z :=
  foldr Z.add 0%Z ((λ p, len (or_envelope p.2) + len (or_payload p.2))%Z <$>
    filter (λ p, deletable ids s p.2) (joined (sd_db s))).
Definition chunk_floor (ids : list bytes) (s : StoreDb) : Z :=
  max_of ((λ p, ar_seq p.1) <$> filter (λ p, deletable ids s p.2) (joined (sd_db s))).

Definition delete_ops_chunk (chunk : list (OpId * Z)) : sql StoreDb (nat * Z) :=
  let ids := (λ c, vec_to_list c.1) <$> chunk in
  _ ← sql_try "compaction chunk stats";
  bytes ← sql_get (chunk_bytes ids);
  floor ← sql_get (chunk_floor ids);
  _ ← trim_upsert_head_payloads ids;
  _ ← sql_try "compaction arrival delete";
  _ ← sql_mod (λ s, set_db (set_arrivals
        (filter (λ a, ¬ arrival_deletable ids s a) (db_arrivals (sd_db s))) (sd_db s)) s);
  _ ← sql_try "compaction oplog delete";
  deleted ← sql_get (λ s, length (filter (deletable ids s) (db_oplog (sd_db s))));
  _ ← sql_mod (λ s, set_db (set_oplog (filter (λ r, ¬ deletable ids s r) (db_oplog (sd_db s))) (sd_db s)) s);
  _ ← sql_try "compaction verified_ops delete";
  _ ← sql_mod (λ s, set_verified (filter (λ kv, ¬ (kv.1 ∈ ids ∧ kv.1 ∉ or_op_id <$> db_oplog (sd_db s))) (sd_verified s)) s);
  _ ← (if decide (0 < deleted) then
         _ ← sql_try "compaction floor advance";
         sql_mod (λ s, set_db (set_relay_state
           ((λ st, (st.1, Z.max st.2 floor)) <$> db_relay_state (sd_db s)) (sd_db s)) s)
       else mret ());
  mret (deleted, as_u64 bytes).

(** ** The horizon floor *)

(** Arrivals are stamped in the order of their numbers. *)
Definition arrivals_monotone (d : Db) : Prop :=
  NoDup (ar_seq <$> db_arrivals d) ∧
  ∀ a b, a ∈ db_arrivals d → b ∈ db_arrivals d → (ar_seq a ≤ ar_seq b)%Z → (ar_arrived_at a ≤ ar_arrived_at b)%Z.

(** The last arrival at or before the cutoff, or zero. *)
Definition last_before (cutoff : Z) (d : Db) : Z :=
  match newest ar_seq (filter (λ a, (ar_arrived_at a ≤ cutoff)%Z) (db_arrivals d)) with
  | Some a => ar_seq a
  | None => 0%Z
  end.

Definition search_window (cutoff lo hi best : Z) (d : Db) : Prop :=
  (∃ a, a ∈ db_arrivals d ∧ ar_seq a = best ∧ ar_arrived_at a ≤ cutoff)%Z ∧
  (∀ a, a ∈ db_arrivals d → ar_arrived_at a ≤ cutoff → ar_seq a < lo → ar_seq a ≤ best)%Z ∧
  (∀ a, a ∈ db_arrivals d → hi < ar_seq a → cutoff < ar_arrived_at a)%Z.

Lemma arrival_at_or_below_some mid d a :
  arrival_at_or_below mid d = Some a →
  a ∈ db_arrivals d ∧ (ar_seq a ≤ mid)%Z ∧ ∀ b, b ∈ db_arrivals d → (ar_seq b ≤ mid)%Z → (ar_seq b ≤ ar_seq a)%Z.
Proof.
  unfold arrival_at_or_below. intros [[Hm Hin]%list_elem_of_filter Hmax]%newest_some. split_and!; [done..|].
  intros b Hb Hbm. apply (Hmax b). by apply list_elem_of_filter.
Qed.

Lemma last_before_unique cutoff d best :
  arrivals_monotone d → (∃ a, a ∈ db_arrivals d ∧ ar_seq a = best ∧ ar_arrived_at a ≤ cutoff)%Z →
  (∀ a, a ∈ db_arrivals d → ar_arrived_at a ≤ cutoff → ar_seq a ≤ best)%Z → last_before cutoff d = best.
Proof.
  intros [Hnd _] (a & Ha & <- & Hc) Hmax. unfold last_before.
  rewrite (newest_unique ar_seq _ a); [done| | |].
  - eapply sublist_NoDup; [exact Hnd|]. apply fmap_sublist, sublist_filter.
  - by apply list_elem_of_filter.
  - intros x [Hx Hin]%list_elem_of_filter. by apply (Hmax x).
Qed.

Lemma floor_search_ok cutoff fuel lo hi best d :
  arrivals_monotone d → search_window cutoff lo hi best d → (hi - lo + 1 < Z.of_nat fuel)%Z →
  runs (floor_search cutoff fuel lo hi best) d (last_before cutoff d) d.
Proof.
  intros Hm. revert lo hi best. induction fuel as [|fuel IH]; intros lo hi best (Hb & Hlo & Hhi) Hf; cbn [floor_search].
  all: assert (Hexit : (hi < lo)%Z → last_before cutoff d = best).
  1, 3: intros Hlt; apply last_before_unique; [done..|]; intros a Ha Hc; apply Hlo; [done..|];
    destruct (decide (hi < ar_seq a)%Z) as [Hgt|]; [specialize (Hhi a Ha Hgt)|]; lia.
  { rewrite Hexit by lia. by apply runs_ret. }
  case_decide as Hle; [|rewrite Hexit by lia; by apply runs_ret].
  set (mid := (lo + (hi - lo) / 2)%Z).
  assert (Hmid : (lo ≤ mid ≤ hi)%Z) by (subst mid; pose proof (Z.div_pos (hi - lo) 2); pose proof (Z.div_le_upper_bound (hi - lo) 2 (hi - lo)); lia).
  apply runs_bind; [apply _|]. exists (), d. split; [done|]. apply runs_bind; [apply _|].
  exists (arrival_at_or_below mid d), d. split; [done|].
  destruct (arrival_at_or_below mid d) as [a|] eqn:Ha.
  - apply arrival_at_or_below_some in Ha as (Hin & Ham & Hmax). case_decide as Hc; apply IH; try lia.
    + split_and!; [|intros b Hbin _ Hblt; specialize (Hmax b Hbin); lia|done].
      destruct Hb as (b & Hbin & Hbs & Hbc). destruct (decide (best ≤ ar_seq a)%Z).
      * exists a. split_and!; [done|lia|done].
      * exists b. split_and!; [done|lia|done].
    + split_and!; [done..|]. intros b Hbin Hblt. destruct Hm as [_ Hm]. specialize (Hm a b Hin Hbin). lia.
  - apply IH; [|lia]. split_and!; [done| |done]. intros b Hbin _ Hblt. exfalso.
    unfold arrival_at_or_below in Ha. apply newest_none in Ha. eapply (not_elem_of_nil b). rewrite <-Ha.
    apply list_elem_of_filter. split; [lia|done].
Qed.

Lemma horizon_floor_runs cutoff d :
  arrivals_monotone d → runs (horizon_relay_floor cutoff) d (last_before cutoff d) d.
Proof.
  intros Hm. unfold horizon_relay_floor. apply runs_bind; [apply _|]. exists (), d. split; [done|].
  apply runs_bind; [apply _|]. exists (oldest ar_seq (db_arrivals d)), d. split; [done|].
  destruct (oldest ar_seq (db_arrivals d)) as [first|] eqn:Hfirst.
  2: { apply oldest_none in Hfirst. unfold last_before. rewrite Hfirst. by apply runs_ret. }
  apply oldest_some in Hfirst as [Hf Hmin]. case_decide as Hc.
  { apply runs_ret. split; [|done]. unfold last_before. rewrite (proj2 (newest_none ar_seq _)); [done|].
    apply filter_none, Forall_forall. intros a Ha. destruct Hm as [_ Hm]. specialize (Hm first a Hf Ha (Hmin a Ha)). lia. }
  apply runs_bind; [apply _|]. exists (), d. split; [done|].
  apply runs_bind; [apply _|]. exists (newest ar_seq (db_arrivals d)), d. split; [done|].
  destruct (newest ar_seq (db_arrivals d)) as [last|] eqn:Hlast.
  2: { apply newest_none in Hlast. rewrite Hlast in Hf. by apply not_elem_of_nil in Hf. }
  apply newest_some in Hlast as [Hl Hmax]. apply runs_bind; [apply _|]. exists last, d. split; [done|].
  case_decide as Hlc.
  { apply runs_ret. split; [|done]. symmetry. apply last_before_unique; [done|eauto|]. intros a Ha _. by apply (Hmax a). }
  apply runs_bind; [apply _|]. exists (), d. split; [done|]. apply floor_search_ok; [done| |].
  - split_and!.
    + exists first. split_and!; [done..|lia].
    + intros a Ha _ Hlt. pose proof (Hmin a Ha : (ar_seq first ≤ ar_seq a)%Z). lia.
    + intros a Ha Hlt. pose proof (Hmax a Ha : (ar_seq a ≤ ar_seq last)%Z). lia.
  - pose proof (Hmin last Hl : (ar_seq first ≤ ar_seq last)%Z). lia.
Qed.

(** ** The acknowledged floor *)

(** A live peer has durably walked the current stream up to a position. *)
Definition walked (epoch : bytes) (dormant_before : option string) (d : Db) (f : Z) (peer : string * string) : Prop :=
  is_dormant dormant_before peer.2 = false →
  ∃ id ack, DeviceId_from_hex peer.1 = Ok id ∧ ack_in_epoch epoch id d = Some ack ∧ (f ≤ ack)%Z.

Lemma min_ack_loop_sound epoch dormant_before peers floor d f d' :
  (0 ≤ floor)%Z → runs (min_ack_loop epoch dormant_before peers floor) d (Some f) d' →
  (0 ≤ f ≤ floor)%Z ∧ ((0 < f)%Z → Forall (walked epoch dormant_before d f) peers).
Proof.
  revert floor; induction peers as [|[peer seen] peers IH]; intros floor Hfl Hr; cbn [min_ack_loop] in Hr.
  { apply runs_ret in Hr as [Hr _]. case_decide; simplify_eq. done. }
  assert (Hzero : ∀ m, runs (mret (Some 0%Z)) d m d' → m = Some f → (0 ≤ f ≤ floor)%Z ∧
    ((0 < f)%Z → Forall (walked epoch dormant_before d f) ((peer, seen) :: peers))).
  { intros m [<- _]%runs_ret [= <-]. split; [lia|]. lia. }
  destruct (DeviceId_from_hex peer) as [id|e] eqn:Hid; [|by eapply Hzero].
  apply runs_bind in Hr as ([] & d0 & <-%runs_try & Hr); [|apply _].
  apply runs_bind in Hr as (acked & d0 & [-> <-]%runs_get & Hr); [|apply _].
  destruct (is_dormant dormant_before seen) eqn:Hd.
  - assert (Hr' : runs (min_ack_loop epoch dormant_before peers floor) d (Some f) d') by (by destruct (ack_in_epoch epoch id d)).
    destruct (IH floor Hfl Hr') as [Hf Hall]. split; [done|]. intros Hpos. constructor; [|auto]. by intros Hnd; cbn in Hnd; congruence.
  - destruct (ack_in_epoch epoch id d) as [ack|] eqn:Hack; [|by eapply Hzero]. case_decide as Hz; [by eapply Hzero|].
    destruct (IH (Z.min floor (Z.max ack 0)) ltac:(lia) Hr) as [Hf Hall]. split; [lia|]. intros Hpos. constructor; [|auto].
    intros _. exists id, ack. split_and!; [done..|lia].
Qed.

Lemma min_peer_ack_sound local epoch dormant_before d f d' :
  runs (min_peer_ack local epoch dormant_before) d (Some f) d' → (0 < f)%Z →
  ∀ r, r ∈ trusted_peers local d → walked (vec_to_list epoch) dormant_before d f (dv_device_id r, dv_last_seen_at r).
Proof.
  intros Hr Hpos r Hin. unfold min_peer_ack in Hr.
  apply runs_bind in Hr as ([] & d0 & <-%runs_try & Hr); [|apply _].
  apply runs_bind in Hr as ([] & d0 & <-%runs_try & Hr); [|apply _].
  apply runs_bind in Hr as (rows & d0 & [-> <-]%runs_get & Hr); [|apply _].
  apply runs_bind in Hr as (peers & d0 & Hp & Hr); [|apply _].
  apply (runs_rows _ (λ r, Some (dv_device_id r, dv_last_seen_at r))) in Hp as [-> <-].
  case_decide as Hnil; [by apply runs_ret in Hr as [[=] _]|].
  apply runs_bind in Hr as ([] & d0 & <-%runs_try & Hr); [|apply _].
  apply min_ack_loop_sound in Hr as [_ Hall]; [|done]. specialize (Hall Hpos). rewrite Forall_forall in Hall.
  apply Hall. apply list_elem_of_omap. eauto.
Qed.

(** An arrival of that number is past the cutoff. *)
Definition past (cutoff : Z) (d : Db) (seq : Z) : Prop := ∃ z, z ∈ db_arrivals d ∧ ar_seq z = seq ∧ (ar_arrived_at z ≤ cutoff)%Z.

Lemma floor_search_past cutoff fuel lo hi best d f d' :
  runs (floor_search cutoff fuel lo hi best) d f d' → past cutoff d best → past cutoff d f ∧ d' = d.
Proof.
  revert lo hi best; induction fuel as [|fuel IH]; intros lo hi best Hr Hb; cbn [floor_search] in Hr; [by apply runs_ret in Hr as [<- <-]|].
  case_decide; [|by apply runs_ret in Hr as [<- <-]].
  apply runs_bind in Hr as ([] & d0 & <-%runs_try & Hr); [|apply _].
  apply runs_bind in Hr as (row & d0 & [-> <-]%runs_get & Hr); [|apply _].
  destruct (arrival_at_or_below _ d) as [a|] eqn:Ha; [|by eapply IH]. case_decide as Hc; [|by eapply IH].
  eapply IH; [exact Hr|]. apply arrival_at_or_below_some in Ha as (Hin & _). destruct (Z.max_spec best (ar_seq a)) as [[_ ->]|[_ ->]]; [by exists a|done].
Qed.
(** The floor of the horizon, whatever the stamps are. *)
Lemma horizon_floor_past cutoff d f d' : runs (horizon_relay_floor cutoff) d f d' → (f = 0%Z ∨ past cutoff d f) ∧ d' = d.
Proof.
  intros Hr. unfold horizon_relay_floor in Hr. apply runs_bind in Hr as ([] & d0 & <-%runs_try & Hr); [|apply _].
  apply runs_bind in Hr as (first & d0 & [-> <-]%runs_get & Hr); [|apply _].
  destruct (oldest ar_seq (db_arrivals d)) as [first|] eqn:Hf; [|apply runs_ret in Hr as [<- <-]; auto].
  apply oldest_some in Hf as [Hf _]. case_decide as Hc; [apply runs_ret in Hr as [<- <-]; auto|].
  apply runs_bind in Hr as ([] & d0 & <-%runs_try & Hr); [|apply _].
  apply runs_bind in Hr as (last & d0 & [-> <-]%runs_get & Hr); [|apply _].
  apply runs_bind in Hr as (last & d0 & [Hl%ok_or_ok <-]%runs_lift & Hr); [|apply _]. apply newest_some in Hl as [Hl _].
  case_decide; [apply runs_ret in Hr as [<- <-]; split; [right; by exists last|done]|].
  apply runs_bind in Hr as ([] & d0 & <-%runs_try & Hr); [|apply _].
  apply floor_search_past in Hr as [? ->]; [by auto|]. exists first. split_and!; [done..|lia].
Qed.

(** The trusted peers that are not dormant have acknowledged an arrival. *)
Definition acknowledged (rfc3339 : Z → string) (later : Z) (local : DeviceId) (horizon : Z) (d : Db) (a : Arrival) : Prop :=
  ∃ epoch, fst <$> db_relay_state d = Some (vec_to_list (n := 32) epoch) ∧
    ∀ r, r ∈ trusted_peers local d →
      walked (vec_to_list epoch) (Some (rfc3339 (later - as_i64 horizon)%Z)) d (ar_seq a) (dv_device_id r, dv_last_seen_at r).

(** C21: The safe floor is safe, whenever it is computed and however the arrivals
    are stamped: of every arrival at or below it, every trusted peer that is not
    dormant has acknowledged the current stream at or beyond it, or some arrival
    at or after it in the stream is stamped before the retention horizon; so it is
    past the horizon itself as long as the stamps, readings of the wall clock,
    never step back along the stream. *)
Theorem safe_floor_sound rfc3339 now later local horizon d fs b d' fs' a :
  safe_relay_floor rfc3339 now later local horizon d fs = (Ok b, (d', fs')) →
  a ∈ db_arrivals d → (0 < ar_seq a ≤ cb_safe_floor b)%Z →
  acknowledged rfc3339 later local horizon d a ∨
  (∃ z, z ∈ db_arrivals d ∧ (ar_seq a ≤ ar_seq z)%Z ∧ (ar_arrived_at z ≤ now - as_i64 horizon)%Z) ∧
  (arrivals_monotone d → (ar_arrived_at a ≤ now - as_i64 horizon)%Z).
Proof.
  intros Hr%quiet Ha Hs. unfold safe_relay_floor in Hr.
  apply runs_bind in Hr as ([] & d0 & <-%runs_try & Hr); [|apply _].
  apply runs_bind in Hr as (peers & d0 & [-> <-]%runs_get & Hr); [|apply _].
  apply runs_bind in Hr as (hf & d0 & Hh & Hr); [|apply _]. apply horizon_floor_past in Hh as [Hh ->].
  assert (Hpast : (ar_seq a ≤ hf)%Z →
    (∃ z, z ∈ db_arrivals d ∧ (ar_seq a ≤ ar_seq z)%Z ∧ (ar_arrived_at z ≤ now - as_i64 horizon)%Z) ∧
    (arrivals_monotone d → (ar_arrived_at a ≤ now - as_i64 horizon)%Z)).
  { intros Hle. destruct Hh as [->|(z & Hz & <- & Hc)]; [lia|]. split; [by exists z|].
    intros [_ Hm]. specialize (Hm a z Ha Hz Hle). lia. }
  case_decide as Hp; [apply runs_ret in Hr as [<- _]; right; apply Hpast; cbn in Hs; lia|].
  apply runs_bind in Hr as (epoch & d0 & He & Hr); [|apply _].
  pose proof (current_stream_epoch_runs _ _ _ He) as Hepoch.
  destruct Hepoch as [Hepoch ->].
  apply runs_bind in Hr as (ack & d0 & Hack & [<- <-]%runs_ret); [|apply _]. cbn in Hs.
  destruct (decide (ar_seq a ≤ hf)%Z) as [|Hgt]; [right; auto|]. left.
  exists epoch. split; [done|]. intros r Hin. destruct ack as [f|]; cbn [default] in Hs;
    [|unfold i64_try in Hs; rewrite decide_True in Hs by done; cbn in Hs; lia].
  assert (Hf : (ar_seq a ≤ f)%Z).
  { unfold i64_try, id in Hs. destruct (decide (f ≤ i64_max)%Z); cbn in Hs; unfold id in Hs; lia. }
  intros Hlive. destruct (min_peer_ack_sound _ _ _ _ _ _ Hack ltac:(lia) r Hin Hlive) as (id & k & Hid & Hk & Hle).
  exists id, k. split_and!; [done..|lia].
Qed.
End retention.
