(* ===== verification/SqlCompaction.v ===== *)
(** * What a compaction pass keeps ([src/sqlite/retention.rs])

    The candidates a scan returns and the state deleting them leaves: the winner
    and the origin of every row outside the drained tables, every pinned op, the
    arrival head and everything above the safe floor. *)

From S2P Require Import Prelude Ordered External Toy Identity Words Op RowOp Log Pull Sql SqlDb SqlLog SqlHeads SqlEdges SqlRetention.
Import BTree.

Section compaction.
Context `{Rusqlite, Postcard, !Wire EnvelopeRepr, !Wire ProxyDbOp}.

#[export] Instance any_pin_quiet pins : Quiet (any_pin pins).
Proof. induction pins as [|[c f] pins IH]; cbn [any_pin]; solve_quiet. Qed.
#[export] Instance scan_row_quiet policy row st : Quiet (scan_row policy row st).
Proof. destruct row as [a r]. unfold scan_row. solve_quiet. Qed.
#[export] Instance scan_page_quiet policy rows st : Quiet (scan_page policy rows st).
Proof. revert st; induction rows as [|row rows IH]; intros st; cbn [scan_page]; solve_quiet. Qed.
#[export] Instance scan_loop_quiet policy cap safe_floor top fuel st : Quiet (scan_loop policy cap safe_floor top fuel st).
Proof. revert st; induction fuel as [|fuel IH]; intros st; cbn [scan_loop]; solve_quiet. Qed.
#[export] Instance prepare_all_quiet cs : Quiet (prepare_all cs).
Proof. induction cs; cbn [prepare_all]; apply _. Qed.
#[export] Instance needs_probe_index_quiet p : Quiet (needs_probe_index p).
Proof. unfold needs_probe_index. solve_quiet. Qed.
#[export] Instance compaction_candidates_quiet policy safe_floor due resume probe :
  Quiet (compaction_candidates policy safe_floor due resume probe).
Proof. unfold compaction_candidates. solve_quiet. Qed.

(** ** Candidates *)

(** What the scan established of an op before it listed it. *)
Record candidate_ok (policy : CompactionPolicy) (safe_floor top : Z) (s : StoreDb) (c : OpId * Z) (a : Arrival) (r : OplogRow) : Prop := {
  cand_joined : (a, r) ∈ joined (sd_db s);
  cand_seq : ar_seq a = c.2;
  cand_id : or_op_id r = vec_to_list c.1;
  cand_applied : or_applied r = 1%Z;
  cand_floor : (c.2 ≤ safe_floor)%Z;
  cand_top : (c.2 < top)%Z;
  cand_free : ¬ pinned (or_op_id r) s;
  cand_row : bulk_row r = false → ¬ head_pinned r s ∧
    keep_per_row policy ≤ length (newer_rows r (sd_db s)) ∧ older_rows r (sd_db s) ≠ [];
}.
Definition candidates_ok (policy : CompactionPolicy) (safe_floor top : Z) (s : StoreDb) (cs : list (OpId * Z)) : Prop :=
  Forall (λ c, ∃ a r, candidate_ok policy safe_floor top s c a r) cs.

Lemma any_pin_runs pins s b s' :
  runs (any_pin pins) s b s' → s' = s ∧ (b = false → Forall (λ p, p.2 s = false) pins).
Proof.
  induction pins as [|[c f] pins IH]; cbn [any_pin]; intros Hr; [by apply runs_ret in Hr as [_ <-]|].
  apply runs_bind in Hr as ([] & s0 & <-%runs_try & Hr); [|apply _].
  apply runs_bind in Hr as (hit & s0 & [-> <-]%runs_get & Hr); [|apply _].
  destruct (f s) eqn:Hf; [by apply runs_ret in Hr as [<- <-]|]. destruct (IH Hr) as [-> Hall]. split; [done|].
  intros Hb. constructor; [done|auto].
Qed.

Lemma scan_pins_free bulk r s :
  Forall (λ p, p.2 s = false) (scan_pins bulk r) →
  ¬ pinned (or_op_id r) s ∧ (bulk = false → ¬ head_pinned r s).
Proof.
  unfold scan_pins. rewrite !Forall_app, !Forall_cons. cbn [snd]. rewrite !bool_decide_eq_false.
  intros ((He & Hf & _) & Hh & Hp & Hrp & _). split; [unfold pinned; tauto|].
  intros ->. apply Forall_cons in Hh as [Hh _]. cbn [snd] in Hh. by apply bool_decide_eq_false in Hh.
Qed.

Lemma is_shadowed_runs policy r s b s' :
  runs (is_shadowed policy r) s b s' → s' = s ∧
  (b = true → keep_per_row policy ≤ length (newer_rows r (sd_db s)) ∧ older_rows r (sd_db s) ≠ []).
Proof.
  intros Hr. unfold is_shadowed in Hr. apply runs_bind in Hr as (sh & s0 & Hsh & Hr); [|solve_quiet].
  assert (s0 = s ∧ (sh = true → keep_per_row policy ≤ length (newer_rows r (sd_db s)))) as [-> Hk].
  { case_decide as Hz; [apply runs_ret in Hsh as [_ <-]; split; [done|lia]|].
    apply runs_bind in Hsh as ([] & s1 & <-%runs_try & Hsh); [|apply _].
    apply runs_get in Hsh as [-> <-]. split; [done|]. rewrite bool_decide_eq_true. lia. }
  destruct sh; [|by apply runs_ret in Hr as [<- <-]].
  apply runs_bind in Hr as ([] & s1 & <-%runs_try & Hr); [|apply _].
  apply runs_get in Hr as [-> <-]. split; [done|]. rewrite bool_decide_eq_true. auto.
Qed.

Lemma in_time_same st b st' : in_time st = (b, st') → sc_candidates st' = sc_candidates st ∧ sc_after st' = sc_after st.
Proof. unfold in_time. destruct (sc_due st); intros [= _ <-]; done. Qed.

Definition scan_page_row (safe_floor top : Z) (s : StoreDb) (row : Arrival * OplogRow) : Prop :=
  row ∈ joined (sd_db s) ∧ or_applied row.2 = 1%Z ∧ (ar_seq row.1 ≤ safe_floor)%Z ∧ (ar_seq row.1 < top)%Z.

Lemma scan_row_ok policy safe_floor top a r st s res s' :
  runs (scan_row policy (a, r) st) s res s' → scan_page_row safe_floor top s (a, r) →
  candidates_ok policy safe_floor top s (sc_candidates st) →
  s' = s ∧ candidates_ok policy safe_floor top s (sc_candidates res.2) ∧ sc_after res.2 = ar_seq a.
Proof.
  intros Hr (Hin & Happ & Hfl & Htop) Hall. unfold scan_row in Hr.
  destruct (in_time _) as [ok st1] eqn:H1. apply in_time_same in H1 as [Hc1 Ha1]. cbn in Hc1, Ha1.
  destruct ok; cbn [negb] in Hr; [|apply runs_ret in Hr as [<- <-]; cbn; by rewrite Hc1].
  apply runs_bind in Hr as (cand & s0 & Hcand & Hr); [|solve_quiet].
  assert (s0 = s ∧ (cand = true → bulk_row r = false →
    keep_per_row policy ≤ length (newer_rows r (sd_db s)) ∧ older_rows r (sd_db s) ≠ [])) as [-> Hsh].
  { unfold bulk_row. destruct (is_self_draining_bulk_table _ _); [by apply runs_ret in Hcand as [_ <-]|].
    apply is_shadowed_runs in Hcand as [-> ?]. auto. }
  destruct cand; cbn [negb] in Hr; [|apply runs_ret in Hr as [<- <-]; cbn; by rewrite Hc1].
  destruct (in_time st1) as [ok st2] eqn:H2. apply in_time_same in H2 as [Hc2 Ha2].
  destruct ok; cbn [negb] in Hr; [|apply runs_ret in Hr as [<- <-]; cbn; by rewrite Hc2, Hc1, Ha2].
  apply runs_bind in Hr as (pin & s0 & Hpin & Hr); [|apply _].
  apply any_pin_runs in Hpin as [-> Hfree].
  destruct pin; [apply runs_ret in Hr as [<- <-]; cbn; by rewrite Hc2, Hc1, Ha2|].
  destruct (scan_pins_free _ _ _ (Hfree eq_refl)) as [Hnp Hnh].
  destruct (vec_of_list 32 (or_op_id r)) as [i|] eqn:Hv; [|apply runs_ret in Hr as [<- <-]; cbn; by rewrite Hc2, Hc1, Ha2].
  apply vec_of_list_some in Hv. apply runs_ret in Hr as [<- <-]. cbn. rewrite Hc2, Hc1, Ha2. split_and!; [done| |done].
  apply Forall_app. split; [done|]. constructor; [|done]. exists a, r. split; cbn; try done.
  intros Hb. split; [by apply Hnh|by apply Hsh].
Qed.

Lemma scan_page_ok policy safe_floor top rows st s res s' :
  runs (scan_page policy rows st) s res s' → Forall (scan_page_row safe_floor top s) rows →
  candidates_ok policy safe_floor top s (sc_candidates st) →
  s' = s ∧ candidates_ok policy safe_floor top s (sc_candidates res.2).
Proof.
  revert st; induction rows as [|[a r] rows IH]; intros st Hr Hrows Hall; cbn [scan_page] in Hr.
  { by apply runs_ret in Hr as [<- <-]. }
  apply Forall_cons in Hrows as [Hrow Hrows]. apply runs_bind in Hr as (res1 & s1 & H1 & Hr); [|apply _].
  destruct (scan_row_ok _ _ _ _ _ _ _ _ _ H1 Hrow Hall) as (-> & Hall1 & _).
  destruct res1 as [[] st1]; cbn in *; [by apply runs_ret in Hr as [<- <-]|]. by apply (IH st1).
Qed.

Lemma scan_rows_ok after safe_floor top s : Forall (scan_page_row safe_floor top s) (scan_rows after safe_floor top (sd_db s)).
Proof.
  apply Forall_forall. intros p Hp%elem_of_takeZ. rewrite order_by_perm in Hp.
  apply list_elem_of_filter in Hp as ((? & _ & ? & ?) & ?). done.
Qed.

Lemma scan_loop_ok policy cap safe_floor top fuel st s res s' :
  runs (scan_loop policy cap safe_floor top fuel st) s res s' →
  candidates_ok policy safe_floor top s (sc_candidates st) →
  s' = s ∧ candidates_ok policy safe_floor top s (sc_candidates res.2).
Proof.
  revert st; induction fuel as [|fuel IH]; intros st Hr Hall; cbn [scan_loop] in Hr; [by apply runs_ret in Hr as [<- <-]|].
  case_decide as Hc; [|by apply runs_ret in Hr as [<- <-]].
  destruct (in_time st) as [ok st1] eqn:H1. apply in_time_same in H1 as [Hc1 _].
  destruct ok; cbn [negb] in Hr; [|apply runs_ret in Hr as [<- <-]; cbn; by rewrite Hc1].
  apply runs_bind in Hr as ([] & s0 & <-%runs_try & Hr); [|apply _].
  apply runs_bind in Hr as ([] & s0 & <-%runs_try & Hr); [|apply _].
  apply runs_bind in Hr as (page & s0 & [-> <-]%runs_get & Hr); [|apply _].
  apply runs_bind in Hr as (page & s0 & Hp & Hr); [|apply _].
  apply (runs_rows _ Some) in Hp as [Hp <-].
  assert (page = scan_rows (sc_after st1) safe_floor top (sd_db s)) as ->.
  { rewrite Hp. generalize (scan_rows (sc_after st1) safe_floor top (sd_db s)). clear. induction l; cbn; congruence. }
  case_decide; [apply runs_ret in Hr as [<- <-]; cbn; by rewrite Hc1|].
  apply runs_bind in Hr as (res1 & s1 & Hpage & Hr); [|apply _].
  destruct (scan_page_ok policy safe_floor top _ _ _ _ _ Hpage) as [-> Hall1]; [apply scan_rows_ok|by rewrite Hc1|].
  destruct res1 as [[] st2]; cbn in *; [by apply runs_ret in Hr as [<- <-]|]. by apply (IH st2).
Qed.

Lemma prepare_all_runs cs s u s' : runs (prepare_all cs) s u s' → s' = s.
Proof.
  induction cs as [|c cs IH]; cbn [prepare_all]; intros Hr; [by apply runs_ret in Hr as [_ <-]|].
  apply runs_bind in Hr as ([] & s0 & <-%runs_try & Hr); [|apply _]. auto.
Qed.

(** Every candidate was checked against the state it was read from. *)
Lemma candidates_sound policy safe_floor due resume probe s scan s' :
  runs (compaction_candidates policy safe_floor due resume probe) s scan s' →
  s' = s ∧ candidates_ok policy safe_floor (max_seq (sd_db s)) s (cs_candidates scan).
Proof.
  intros Hr. unfold compaction_candidates in Hr.
  apply runs_bind in Hr as ([] & s0 & <-%runs_try & Hr); [|apply _].
  apply runs_bind in Hr as ([] & s0 & <-%runs_try & Hr); [|apply _].
  apply runs_bind in Hr as (top & s0 & [-> <-]%runs_get & Hr); [|apply _].
  apply runs_bind in Hr as (u & s0 & Hix & Hr); [|apply _].
  assert (s0 = s) as ->.
  { unfold needs_probe_index in Hix. apply runs_bind in Hix as (b & s1 & [-> <-]%runs_get & Hix); [|apply _].
    destruct probe; [destruct (sd_applied_index s)|]; by run_all. }
  apply runs_bind in Hr as (u2 & s0 & ->%prepare_all_runs & Hr); [|apply _].
  apply runs_bind in Hr as (n & s0 & [-> <-]%runs_get & Hr); [|apply _].
  apply runs_bind in Hr as ([ex st] & s0 & Hloop & [<- <-]%runs_ret); [|apply _]. cbn.
  apply scan_loop_ok in Hloop; [done|]. constructor.
Qed.

(** ** Deletion *)

(** Heads of which only the image of a drained row may be gone. *)
Definition trimmed (heads heads' : gmap RowKey HeadRow) : Prop :=
  ∀ s t p, heads' !! (s, t, p) = heads !! (s, t, p) ∨
    is_self_draining_bulk_table s t = true ∧ heads' !! (s, t, p) = trim_head <$> heads !! (s, t, p).

#[export] Instance trimmed_refl : Reflexive trimmed.
Proof. intros heads s t p. by left. Qed.
#[export] Instance trimmed_trans : Transitive trimmed.
Proof.
  intros h1 h2 h3 H12 H23 s t p. destruct (H23 s t p) as [->|[Hb ->]]; [apply H12|].
  destruct (H12 s t p) as [->|[_ ->]]; right; (split; [done|]); [done|]. by destruct (h1 !! (s, t, p)).
Qed.

Lemma trimmed_op_id heads heads' s t p :
  trimmed heads heads' → h_op_id <$> heads' !! (s, t, p) = h_op_id <$> heads !! (s, t, p).
Proof. intros Ht. destruct (Ht s t p) as [->|[_ ->]]; [done|]. by destruct (heads !! (s, t, p)). Qed.

Lemma trim_table_bulk t : t ∈ SELF_DRAINING_HEAD_TRIM_TABLES → is_self_draining_bulk_table STORE_ID t = true.
Proof.
  revert t. refine (proj1 (Forall_forall (λ t, is_self_draining_bulk_table STORE_ID t = true) _) _).
  apply (bool_decide_unpack _). vm_compute. exact I.
Qed.

Lemma trim_fold_runs rows u s u' s' :
  Forall (λ row, row.1.1.1 = STORE_ID) rows →
  runs (sql_fold (λ _ row,
    let '((store, table, row_pk), payload) := row in
    _ ← sql_try "compaction head trim row";
    if decide (table ∉ SELF_DRAINING_HEAD_TRIM_TABLES) then mret ()
    else if is_upsert payload then
      _ ← sql_try "compaction head trim update";
      sql_mod (λ s, set_db (set_heads (alter trim_head (store, table, row_pk) (db_heads (sd_db s))) (sd_db s)) s)
    else mret ()) u rows) s u' s' →
  ∃ heads, s' = set_db (set_heads heads (sd_db s)) s ∧ trimmed (db_heads (sd_db s)) heads.
Proof.
  revert u s; induction rows as [|[[[st t] p] payload] rows IH]; intros u s Hst Hr; cbn [sql_fold] in Hr.
  { apply runs_ret in Hr as [_ <-]. exists (db_heads (sd_db s)). split; [by destruct s as [[]]|done]. }
  apply Forall_cons in Hst as [Hst Hrest]. cbn in Hst. subst st.
  apply runs_bind in Hr as (u1 & s1 & H1 & Hr); [|solve_quiet].
  apply runs_bind in H1 as ([] & s0 & <-%runs_try & H1); [|apply _].
  apply IH in Hr as (heads & -> & Ht); [|done].
  case_decide as Hnt; [apply runs_ret in H1 as [_ <-]; eauto|].
  destruct (is_upsert payload); [|apply runs_ret in H1 as [_ <-]; eauto].
  apply runs_bind in H1 as ([] & s0 & <-%runs_try & H1); [|apply _]. apply runs_mod in H1 as ->. cbn in *.
  exists heads. split; [done|]. etransitivity; [|exact Ht]. intros s' t' p'.
  destruct (decide ((s', t', p') = (STORE_ID, t, p))) as [[= -> -> ->]|Hne].
  - right. split; [by apply trim_table_bulk|]. by rewrite lookup_alter_eq.
  - left. by rewrite lookup_alter_ne.
Qed.

Lemma trim_runs ids s u s' :
  runs (trim_upsert_head_payloads ids) s u s' →
  ∃ heads, s' = set_db (set_heads heads (sd_db s)) s ∧ trimmed (db_heads (sd_db s)) heads.
Proof.
  intros Hr. unfold trim_upsert_head_payloads in Hr.
  apply runs_bind in Hr as ([] & s0 & <-%runs_try & Hr); [|apply _].
  apply runs_bind in Hr as ([] & s0 & <-%runs_try & Hr); [|apply _].
  apply runs_bind in Hr as (rows & s0 & [-> <-]%runs_get & Hr); [|apply _].
  apply runs_bind in Hr as ([] & s0 & <-%runs_try & Hr); [|apply _].
  apply trim_fold_runs in Hr; [done|]. apply Forall_forall. intros row Hin. unfold trim_rows in Hin.
  apply list_elem_of_omap in Hin as (r & _ & Hrow). destruct (head_at _ _ _ _); [|done].
  case_decide as Hc; [|done]. injection Hrow as <-. cbn. tauto.
Qed.

(** The log and its arrivals list the same ops, once each. *)
Definition log_wf (d : Db) : Prop :=
  ids_distinct d ∧ NoDup (ar_op_id <$> db_arrivals d) ∧
  ∀ i, i ∈ or_op_id <$> db_oplog d ↔ i ∈ ar_op_id <$> db_arrivals d.

Definition same_pins (s s' : StoreDb) : Prop :=
  sd_edges s' = sd_edges s ∧ sd_fires s' = sd_fires s ∧ sd_projection s' = sd_projection s ∧ sd_replay s' = sd_replay s.
Lemma same_pins_pinned s s' i : same_pins s s' → pinned i s' ↔ pinned i s.
Proof.
  intros (He & Hf & Hp & Hr). unfold pinned, edge_pinned, fire_pinned, projection_pinned, replay_pinned, undispatched_fires.
  by rewrite He, Hf, Hp, Hr.
Qed.

(** The compacted position moves up, to no more than [bound]. *)
Definition relay_advanced (bound : Z) (o o' : option (bytes * Z)) : Prop :=
  match o, o' with
  | Some (e, f), Some (e', f') => e' = e ∧ (f ≤ f' ≤ Z.max f (Z.max bound 0))%Z
  | None, None => True
  | _, _ => False
  end.

(** What deleting ops by id leaves: [gone] are the ids that went. *)
Record pruned (gone : list bytes) (bound : Z) (s s' : StoreDb) : Prop := {
  pr_oplog : db_oplog (sd_db s') = filter (λ r, or_op_id r ∉ gone) (db_oplog (sd_db s));
  pr_arrivals : db_arrivals (sd_db s') = filter (λ a, ar_op_id a ∉ gone) (db_arrivals (sd_db s));
  pr_heads : trimmed (db_heads (sd_db s)) (db_heads (sd_db s'));
  pr_pins : same_pins s s';
  pr_relay : relay_advanced bound (db_relay_state (sd_db s)) (db_relay_state (sd_db s'));
}.

Lemma pruned_refl bound s : pruned [] bound s s.
Proof.
  split; try done.
  - symmetry. apply filter_all, Forall_forall. intros r _. apply not_elem_of_nil.
  - symmetry. apply filter_all, Forall_forall. intros r _. apply not_elem_of_nil.
  - unfold relay_advanced. destruct (db_relay_state _) as [[e f]|]; [|done]. split; [done|lia].
Qed.
Lemma pruned_trans g1 g2 bound s1 s2 s3 : pruned g1 bound s1 s2 → pruned g2 bound s2 s3 → pruned (g1 ++ g2) bound s1 s3.
Proof.
  intros [Ho Ha Hh Hp Hr] [Ho' Ha' Hh' Hp' Hr']. split.
  - rewrite Ho', Ho, list_filter_filter. apply list_filter_iff. intros r. rewrite elem_of_app. tauto.
  - rewrite Ha', Ha, list_filter_filter. apply list_filter_iff. intros r. rewrite elem_of_app. tauto.
  - by etransitivity.
  - unfold same_pins in *. destruct Hp as (E1 & E2 & E3 & E4). by rewrite E1, E2, E3, E4 in Hp'.
  - unfold relay_advanced in *. destruct (db_relay_state (sd_db s1)) as [[e f]|], (db_relay_state (sd_db s2)) as [[e' f']|],
      (db_relay_state (sd_db s3)) as [[e'' f'']|]; try done. destruct Hr as [-> ?], Hr' as [-> ?]. split; [done|lia].
Qed.

Lemma elem_of_joined d a r : (a, r) ∈ joined d ↔ a ∈ db_arrivals d ∧ r ∈ db_oplog d ∧ or_op_id r = ar_op_id a.
Proof.
  unfold joined. rewrite list_elem_of_bind. setoid_rewrite list_elem_of_fmap. setoid_rewrite list_elem_of_filter. naive_solver.
Qed.

Lemma pruned_joined gone bound s s' p : pruned gone bound s s' → p ∈ joined (sd_db s') → p ∈ joined (sd_db s).
Proof.
  destruct p as [a r]. intros Hp. rewrite !elem_of_joined, (pr_oplog _ _ _ _ Hp), (pr_arrivals _ _ _ _ Hp), !list_elem_of_filter. tauto.
Qed.

Lemma pruned_wf gone bound s s' : pruned gone bound s s' → log_wf (sd_db s) → log_wf (sd_db s').
Proof.
  intros Hp (Hid & Ha & Hiff). unfold log_wf, ids_distinct. rewrite (pr_oplog _ _ _ _ Hp), (pr_arrivals _ _ _ _ Hp). split_and!.
  - by apply NoDup_ids_filter.
  - eapply sublist_NoDup; [exact Ha|]. apply fmap_sublist, sublist_filter.
  - intros i. specialize (Hiff i). rewrite !list_elem_of_fmap in *. setoid_rewrite list_elem_of_filter. split.
    + intros (r & -> & Hn & Hr). destruct (proj1 Hiff) as (a & Hai & Hain); [eauto|]. exists a. rewrite <-Hai. done.
    + intros (a & -> & Hn & Hr). destruct (proj2 Hiff) as (r & Hri & Hrin); [eauto|]. exists r. rewrite <-Hri. done.
Qed.

Lemma filter_ids (P : OplogRow → Prop) `{!∀ r, Decision (P r)} rows :
  NoDup (or_op_id <$> rows) → filter (λ r, ¬ P r) rows = filter (λ r, or_op_id r ∉ or_op_id <$> filter P rows) rows.
Proof.
  intros Hnd. apply filter_ext. intros r Hr. split.
  - intros Hn (r' & Hi & [HP Hr']%list_elem_of_filter)%list_elem_of_fmap.
    by rewrite (key_inj or_op_id rows r r' Hnd Hr Hr' Hi) in Hn.
  - intros Hn HP. apply Hn. apply list_elem_of_fmap_2. by apply list_elem_of_filter.
Qed.

Lemma deletable_same ids s s' r :
  same_pins s s' → trimmed (db_heads (sd_db s)) (db_heads (sd_db s')) → deletable ids s' r ↔ deletable ids s r.
Proof.
  intros Hp Ht. unfold deletable, head_pinned, head_at. by rewrite (same_pins_pinned s s'), (trimmed_op_id _ _ _ _ _ Ht).
Qed.

(** An arrival goes exactly when its op does. *)
Lemma arrival_deletable_iff ids s a r :
  ids_distinct (sd_db s) → r ∈ db_oplog (sd_db s) → or_op_id r = ar_op_id a →
  arrival_deletable ids s a ↔ deletable ids s r.
Proof.
  intros Hnd Hr Hi. unfold arrival_deletable, deletable. rewrite Hi, Exists_exists.
  assert (Hex : (∃ x, x ∈ db_oplog (sd_db s) ∧ or_op_id x = ar_op_id a ∧ head_pinned x s ∧ bulk_row x = false) ↔
                head_pinned r s ∧ bulk_row r = false).
  { split; [|eauto]. intros (x & Hx & Hxi & Hh). by rewrite (key_inj or_op_id _ r x Hnd Hr Hx) by congruence. }
  rewrite Hex. destruct (bulk_row r); destruct (decide (head_pinned r s)); naive_solver.
Qed.

Lemma chunk_floor_bound ids s bound :
  (∀ p, p ∈ joined (sd_db s) → or_op_id p.2 ∈ ids → (ar_seq p.1 ≤ bound)%Z) → (chunk_floor ids s ≤ Z.max bound 0)%Z.
Proof.
  intros Hb. unfold chunk_floor, max_of.
  assert (Hall : Forall (λ z, z ≤ bound)%Z ((λ p, ar_seq p.1) <$> filter (λ p, deletable ids s p.2) (joined (sd_db s)))).
  { apply Forall_forall. intros z (p & -> & [(Hi & _) Hp]%list_elem_of_filter)%list_elem_of_fmap. by apply Hb. }
  induction Hall as [|z l Hz _ IH]; cbn; lia.
Qed.

#[export] Instance trim_quiet ids : Quiet (trim_upsert_head_payloads ids).
Proof. unfold trim_upsert_head_payloads. solve_quiet. Qed.
#[export] Instance delete_ops_chunk_quiet chunk : Quiet (delete_ops_chunk chunk).
Proof. unfold delete_ops_chunk. solve_quiet. Qed.

Definition chunk_ids (chunk : list (OpId * Z)) : list bytes := (λ c, vec_to_list c.1) <$> chunk.

Lemma delete_chunk_pruned chunk s res s' bound :
  runs (delete_ops_chunk chunk) s res s' → log_wf (sd_db s) →
  (∀ p, p ∈ joined (sd_db s) → or_op_id p.2 ∈ chunk_ids chunk → (ar_seq p.1 ≤ bound)%Z) →
  ∃ gone, pruned gone bound s s' ∧
    ∀ i, i ∈ gone ↔ ∃ r, r ∈ db_oplog (sd_db s) ∧ or_op_id r = i ∧ deletable (chunk_ids chunk) s r.
Proof.
  intros Hr (Hnd & _ & Hiff) Hb. unfold delete_ops_chunk in Hr. fold (chunk_ids chunk) in Hr.
  apply runs_bind in Hr as ([] & s0 & <-%runs_try & Hr); [|apply _].
  apply runs_bind in Hr as (bytes & s0 & [-> <-]%runs_get & Hr); [|apply _].
  apply runs_bind in Hr as (floor & s0 & [-> <-]%runs_get & Hr); [|apply _].
  apply runs_bind in Hr as (u & s1 & (heads & Hs1 & Ht)%trim_runs & Hr); [|apply _].
  apply runs_bind in Hr as ([] & s0 & <-%runs_try & Hr); [|apply _].
  apply runs_bind in Hr as ([] & s2 & Hs2%runs_mod & Hr); [|apply _].
  apply runs_bind in Hr as ([] & s0 & <-%runs_try & Hr); [|apply _].
  apply runs_bind in Hr as (deleted & s0 & [-> <-]%runs_get & Hr); [|apply _].
  apply runs_bind in Hr as ([] & s3 & Hs3%runs_mod & Hr); [|apply _].
  apply runs_bind in Hr as ([] & s0 & <-%runs_try & Hr); [|apply _].
  apply runs_bind in Hr as ([] & s4 & Hs4%runs_mod & Hr); [|apply _].
  apply runs_bind in Hr as (u2 & s5 & H5 & [<- <-]%runs_ret); [|solve_quiet].
  set (gone := or_op_id <$> filter (deletable (chunk_ids chunk) s) (db_oplog (sd_db s))).
  assert (Hdel : ∀ r, deletable (chunk_ids chunk) s2 r ↔ deletable (chunk_ids chunk) s r).
  { intros r. apply deletable_same; subst; done. }
  assert (Harr : db_arrivals (sd_db s2) = filter (λ a, ar_op_id a ∉ gone) (db_arrivals (sd_db s))).
  { subst s2 s1. cbn. apply filter_ext. intros a Ha.
    assert (Hin : ar_op_id a ∈ or_op_id <$> db_oplog (sd_db s)) by (apply Hiff; by apply list_elem_of_fmap_2).
    apply list_elem_of_fmap in Hin as (r & Hri & Hr).
    rewrite (arrival_deletable_iff _ _ a r) by done. rewrite (deletable_same _ s (set_db (set_heads heads (sd_db s)) s) r) by done.
    subst gone. rewrite Hri. rewrite list_elem_of_fmap. setoid_rewrite list_elem_of_filter. split.
    - intros Hn (x & Hxi & Hx & Hxin). by rewrite (key_inj or_op_id _ r x Hnd Hr Hxin Hxi) in Hn.
    - intros Hn Hd. apply Hn. eauto. }
  assert (Hlog : db_oplog (sd_db s3) = filter (λ r, or_op_id r ∉ gone) (db_oplog (sd_db s))).
  { subst s3. cbn [sd_db set_db db_oplog set_oplog]. subst gone. rewrite <-filter_ids by done.
    transitivity (filter (λ r, ¬ deletable (chunk_ids chunk) s r) (db_oplog (sd_db s2))); [|by subst s2 s1].
    apply filter_ext. intros r _. by rewrite Hdel. }
  assert (Hfloor : (chunk_floor (chunk_ids chunk) s ≤ Z.max bound 0)%Z) by (by apply chunk_floor_bound).
  exists gone. split.
  - case_decide as Hpos.
    + apply runs_bind in H5 as ([] & s0 & <-%runs_try & H5); [|apply _]. apply runs_mod in H5 as ->.
      split; subst s4; cbn; [by rewrite Hlog|subst s3; cbn; by rewrite Harr|subst s3 s2 s1; done..|].
      subst s3 s2 s1. cbn. unfold relay_advanced. destruct (db_relay_state (sd_db s)) as [[e f]|]; [|done]. cbn. split; [done|lia].
    + apply runs_ret in H5 as [_ <-]. split; subst s4; cbn; [by rewrite Hlog|subst s3; cbn; by rewrite Harr|subst s3 s2 s1; done..|].
      subst s3 s2 s1. cbn. unfold relay_advanced. destruct (db_relay_state (sd_db s)) as [[e f]|]; [|done]. split; [done|lia].
  - intros i. subst gone. rewrite list_elem_of_fmap. setoid_rewrite list_elem_of_filter. naive_solver.
Qed.

(** A pass: the chunks of the candidates in turn. *)
Definition compact_chunks (chunks : list (list (OpId * Z))) : sql StoreDb nat :=
  sql_fold (λ n chunk, res ← delete_ops_chunk chunk; mret (n + res.1)) 0 chunks.

Lemma compact_chunks_pruned chunks n s n' s' bound :
  runs (sql_fold (λ n chunk, res ← delete_ops_chunk chunk; mret (n + res.1)) n chunks) s n' s' →
  log_wf (sd_db s) →
  (∀ p, p ∈ joined (sd_db s) → or_op_id p.2 ∈ chunk_ids (concat chunks) → (ar_seq p.1 ≤ bound)%Z) →
  ∃ gone, pruned gone bound s s' ∧
    ∀ i, i ∈ gone → i ∈ chunk_ids (concat chunks) ∧ ∃ r, r ∈ db_oplog (sd_db s) ∧ or_op_id r = i ∧
      ¬ pinned i s ∧ (bulk_row r = true ∨ ¬ head_pinned r s).
Proof.
  revert n s; induction chunks as [|chunk chunks IH]; intros n s Hr Hwf Hb; cbn [sql_fold] in Hr.
  { apply runs_ret in Hr as [_ <-]. exists []. split; [apply pruned_refl|]. intros i Hi. by apply not_elem_of_nil in Hi. }
  apply runs_bind in Hr as (n1 & s1 & H1 & Hr); [|solve_quiet].
  apply runs_bind in H1 as (res & s0 & H1 & [_ <-]%runs_ret); [|apply _].
  assert (Hids : ∀ i, i ∈ chunk_ids (concat (chunk :: chunks)) ↔ i ∈ chunk_ids chunk ∨ i ∈ chunk_ids (concat chunks)).
  { intros i. unfold chunk_ids. cbn [concat]. by rewrite fmap_app, elem_of_app. }
  destruct (delete_chunk_pruned _ _ _ _ bound H1 Hwf) as (g1 & Hp1 & Hg1).
  { intros p Hp Hi. apply Hb; [done|]. apply Hids. by left. }
  destruct (IH _ _ Hr (pruned_wf _ _ _ _ Hp1 Hwf)) as (g2 & Hp2 & Hg2).
  { intros p Hp Hi. apply Hb; [by eapply pruned_joined|]. apply Hids. by right. }
  exists (g1 ++ g2). split; [by eapply pruned_trans|]. intros i [Hi|Hi]%elem_of_app.
  - apply Hg1 in Hi as (r & Hr1 & Hri & (Hin & Hnp & Hh)). rewrite Hids. subst i. split; [by left|eauto].
  - destruct (Hg2 i Hi) as (Hin & r & Hr2 & Hri & Hnp & Hh). rewrite Hids. split; [by right|]. exists r.
    rewrite (pr_oplog _ _ _ _ Hp1) in Hr2. apply list_elem_of_filter in Hr2 as [_ Hr2]. split_and!; [done..| |].
    + by rewrite <-(same_pins_pinned _ _ i (pr_pins _ _ _ _ Hp1)).
    + unfold head_pinned, head_at in *. by rewrite (trimmed_op_id _ _ _ _ _ (pr_heads _ _ _ _ Hp1)) in Hh.
Qed.

(** ** What a pass keeps *)

(** The ops a pass dropped were candidates of the scan, and not pinned. *)
Definition gone_ok (policy : CompactionPolicy) (safe_floor : Z) (s : StoreDb) (gone : list bytes) : Prop :=
  ∀ i, i ∈ gone → ∃ c a r, candidate_ok policy safe_floor (max_seq (sd_db s)) s c a r ∧ or_op_id r = i ∧
    ¬ pinned i s ∧ (bulk_row r = true ∨ ¬ head_pinned r s).

Lemma pass_pruned policy safe_floor due resume probe chunks s fs scan s0 fs1 n s' fs2 :
  compaction_candidates policy safe_floor due resume probe s fs = (Ok scan, (s0, fs1)) →
  compact_chunks chunks s0 fs1 = (Ok n, (s', fs2)) →
  (∀ c, c ∈ concat chunks → c ∈ cs_candidates scan) → log_wf (sd_db s) →
  ∃ gone, pruned gone (Z.min safe_floor (max_seq (sd_db s) - 1)) s s' ∧ gone_ok policy safe_floor s gone.
Proof.
  intros Hscan%quiet Hrun Hsub Hwf. apply quiet in Hrun.
  apply candidates_sound in Hscan as [-> Hc]. unfold candidates_ok in Hc. rewrite Forall_forall in Hc.
  assert (Hcand : ∀ i, i ∈ chunk_ids (concat chunks) →
    ∃ c a r, candidate_ok policy safe_floor (max_seq (sd_db s)) s c a r ∧ or_op_id r = i).
  { intros i (c & -> & Hin)%list_elem_of_fmap. destruct (Hc c (Hsub c Hin)) as (a & r & Ha).
    exists c, a, r. split; [done|]. apply Ha. }
  destruct Hwf as (Hid & Harr & Hiff).
  destruct (compact_chunks_pruned chunks 0 s n s' (Z.min safe_floor (max_seq (sd_db s) - 1)) Hrun) as (gone & Hp & Hg); [done| |].
  - intros [a' r'] Hj Hi. cbn in *. destruct (Hcand _ Hi) as (c & a & r & Hok & Hri).
    apply elem_of_joined in Hj as (Ha' & _ & Hai'). destruct Hok as [Hj Hseq _ _ Hfl Htop _ _].
    apply elem_of_joined in Hj as (Ha & _ & Hai).
    rewrite (key_inj ar_op_id _ a' a Harr Ha' Ha) by congruence. lia.
  - exists gone. split; [done|]. intros i Hi. destruct (Hg i Hi) as (Hin & r' & Hr' & Hri' & Hnp & Hh).
    destruct (Hcand i Hin) as (c & a & r & Hok & Hri). exists c, a, r. split_and!; [done..|].
    destruct (proj1 (elem_of_joined _ _ _) (cand_joined _ _ _ _ _ _ _ Hok)) as (_ & Hr & _).
    by rewrite (key_inj or_op_id _ r r' Hid Hr Hr') by congruence.
Qed.

Lemma distinct_le_one (i : bytes) (l : list OplogRow) :
  NoDup (or_op_id <$> l) → (∀ x, x ∈ l → or_op_id x = i) → length l ≤ 1.
Proof.
  intros Hnd Hi. destruct l as [|x [|y l]]; cbn; [lia..|]. exfalso. rewrite !fmap_cons in Hnd.
  apply NoDup_cons in Hnd as [Hn _]. apply Hn. rewrite (Hi x), (Hi y) by set_solver. left.
Qed.

Section kept.
Context (policy : CompactionPolicy) (safe_floor : Z) (s s' : StoreDb) (gone : list bytes) (bound : Z).
Context (Hp : pruned gone bound s s') (Hg : gone_ok policy safe_floor s gone) (Hwf : log_wf (sd_db s)).
Context (st tb pk : string) (Hbulk : is_self_draining_bulk_table st tb = false).
Context (Hhead : head_for (head_at st tb pk (sd_db s)) (rows_at st tb pk (sd_db s))).
Notation rows := (rows_at st tb pk (sd_db s)).

Lemma kept_keys : NoDup (row_key <$> rows).
Proof. apply rows_at_keys, Hwf. Qed.

Lemma kept_rows : rows_at st tb pk (sd_db s') = filter (λ r, or_op_id r ∉ gone) rows.
Proof.
  unfold rows_at, lww_rows. rewrite (pr_oplog _ _ _ _ Hp), !list_filter_filter. apply list_filter_iff. tauto.
Qed.

(** A dropped op of the row, as the scan saw it. *)
Lemma gone_row r : r ∈ rows → or_op_id r ∈ gone →
  ¬ head_pinned r s ∧ keep_per_row policy ≤ length (filter (λ x, row_key r ≺ row_key x) rows) ∧
  filter (λ x, row_key x ≺ row_key r) rows ≠ [].
Proof.
  intros [(Hs & Ht & Hpk & Ha) Hr]%list_elem_of_filter Hi. destruct (Hg _ Hi) as (c & a & r' & Hok & Hri & _ & Hh).
  destruct (proj1 (elem_of_joined _ _ _) (cand_joined _ _ _ _ _ _ _ Hok)) as (_ & Hr' & _).
  rewrite (key_inj or_op_id _ r' r (proj1 Hwf) Hr' Hr Hri) in *.
  assert (Hb : bulk_row r = false) by (unfold bulk_row; by rewrite Hs, Ht).
  destruct (cand_row _ _ _ _ _ _ _ Hok Hb) as (Hnh & Hn & Ho). unfold newer_rows, older_rows in *. by rewrite Hs, Ht, Hpk in *.
Qed.

Lemma kept_winner : newest row_key (rows_at st tb pk (sd_db s')) = newest row_key rows.
Proof.
  rewrite kept_rows. destruct (newest row_key rows) as [w|] eqn:Hw.
  - apply (newest_sub row_key rows); [apply kept_keys|done| |by intros x [_ ?]%list_elem_of_filter].
    destruct (newest_some _ _ _ Hw) as [Hin _]. apply list_elem_of_filter. split; [|done]. intros Hi.
    destruct (gone_row w Hin Hi) as [Hnh _]. apply Hnh. apply list_elem_of_filter in Hin as [(Hs & Ht & Hpk & _) _].
    unfold head_pinned. rewrite Hs, Ht, Hpk. unfold head_for in Hhead. rewrite Hw in Hhead. by destruct Hhead as [o ->].
  - apply newest_none in Hw. by rewrite Hw.
Qed.

Lemma kept_oldest : oldest row_key (rows_at st tb pk (sd_db s')) = oldest row_key rows.
Proof.
  rewrite kept_rows. destruct (oldest row_key rows) as [w|] eqn:Hw.
  - apply (oldest_sub row_key rows); [apply kept_keys|done| |by intros x [_ ?]%list_elem_of_filter].
    destruct (oldest_some _ _ _ Hw) as [Hin Hmin]. apply list_elem_of_filter. split; [|done]. intros Hi.
    destruct (gone_row w Hin Hi) as (_ & _ & Ho). apply Ho. apply filter_none, Forall_forall.
    intros x Hx Hlt. apply ole_not_olt in Hlt; [done|]. by apply Hmin.
  - apply oldest_none in Hw. by rewrite Hw.
Qed.

Lemma kept_others (i : OpId) : 2 ≤ keep_per_row policy → others_winner st tb pk i (sd_db s') = others_winner st tb pk i (sd_db s).
Proof.
  intros Hk. unfold others_winner. fold (rows_at st tb pk (sd_db s')) rows. rewrite kept_rows.
  destruct (newest row_key (filter (λ r, or_op_id r ≠ vec_to_list i) rows)) as [v|] eqn:Hv.
  - assert (Hkeys : NoDup (row_key <$> filter (λ r, or_op_id r ≠ vec_to_list i) rows)).
    { apply NoDup_row_keys, NoDup_ids_filter, NoDup_ids_filter, Hwf. }
    destruct (newest_some _ _ _ Hv) as [[Hvi Hin]%list_elem_of_filter Hmax].
    eapply newest_sub; [exact Hkeys|done| |].
    + rewrite !list_elem_of_filter. split_and!; [done| |done]. intros Hgv. destruct (gone_row v Hin Hgv) as (_ & Hn & _).
      enough (length (filter (λ x, row_key v ≺ row_key x) rows) ≤ 1) by lia.
      apply (distinct_le_one (vec_to_list i)); [apply NoDup_ids_filter, NoDup_ids_filter, Hwf|].
      intros x [Hlt Hx]%list_elem_of_filter. apply dec_stable. intros Hne. apply (proj1 (ole_not_olt (row_key x) (row_key v))); [|exact Hlt].
      apply Hmax. by apply list_elem_of_filter.
    + intros x. rewrite !list_elem_of_filter. tauto.
  - apply newest_none in Hv. apply newest_none. apply filter_none, Forall_forall. intros x [_ Hx]%list_elem_of_filter Hxi.
    eapply (not_elem_of_nil x). rewrite <-Hv. by apply list_elem_of_filter.
Qed.
End kept.

(** C11: A compaction pass, a scan and the deletion of any of its candidates in
    any chunks, changes no answer: for every row outside the drained tables the
    head, the newest and the oldest op stay, and with at least two ops kept per
    row so does the winner when any op is excluded; and no op an edge, a
    callback, a projection or a replay still needs is dropped. *)
Theorem compaction_keeps_winners policy safe_floor due resume probe chunks s fs scan s0 fs1 n s' fs2 :
  compaction_candidates policy safe_floor due resume probe s fs = (Ok scan, (s0, fs1)) →
  compact_chunks chunks s0 fs1 = (Ok n, (s', fs2)) →
  (∀ c, c ∈ concat chunks → c ∈ cs_candidates scan) → log_wf (sd_db s) →
  (∀ r, r ∈ db_oplog (sd_db s) → pinned (or_op_id r) s → r ∈ db_oplog (sd_db s')) ∧
  ∀ st tb pk, is_self_draining_bulk_table st tb = false →
    head_for (head_at st tb pk (sd_db s)) (rows_at st tb pk (sd_db s)) →
    head_at st tb pk (sd_db s') = head_at st tb pk (sd_db s) ∧
    row_winner st tb pk (sd_db s') = row_winner st tb pk (sd_db s) ∧
    row_origin st tb pk (sd_db s') = row_origin st tb pk (sd_db s) ∧
    (2 ≤ keep_per_row policy → ∀ i, others_winner st tb pk i (sd_db s') = others_winner st tb pk i (sd_db s)).
Proof.
  intros Hscan Hrun Hsub Hwf. destruct (pass_pruned _ _ _ _ _ _ _ _ _ _ _ _ _ _ Hscan Hrun Hsub Hwf) as (gone & Hp & Hg). split.
  - intros r Hr Hpin. rewrite (pr_oplog _ _ _ _ Hp). apply list_elem_of_filter. split; [|done].
    intros Hi. by destruct (Hg _ Hi) as (_ & _ & _ & _ & _ & ? & _).
  - intros st tb pk Hb Hh. split_and!.
    + unfold head_at. by destruct (pr_heads _ _ _ _ Hp st tb pk) as [?|[? _]]; [|congruence].
    + by eapply kept_winner.
    + unfold row_origin. f_equal. by eapply kept_oldest.
    + intros Hk i. by eapply kept_others.
Qed.

(** A pass stays below its bounds: every arrival above the safe floor is
    kept, the newest arrival is kept, so the stream's head does not move, and
    the compacted position never moves back, never passes the safe floor and
    never reaches the head. *)
Lemma compaction_bounded policy safe_floor due resume probe chunks s fs scan s0 fs1 n s' fs2 e f :
  compaction_candidates policy safe_floor due resume probe s fs = (Ok scan, (s0, fs1)) →
  compact_chunks chunks s0 fs1 = (Ok n, (s', fs2)) →
  (∀ c, c ∈ concat chunks → c ∈ cs_candidates scan) → log_wf (sd_db s) →
  db_relay_state (sd_db s) = Some (e, f) →
  max_seq (sd_db s') = max_seq (sd_db s) ∧ log_wf (sd_db s') ∧
  (∀ a, a ∈ db_arrivals (sd_db s) → (safe_floor < ar_seq a)%Z → a ∈ db_arrivals (sd_db s')) ∧
  ∃ f', db_relay_state (sd_db s') = Some (e, f') ∧ (f ≤ f' ≤ Z.max f (Z.max safe_floor 0))%Z ∧
    ((0 ≤ f < max_seq (sd_db s))%Z → (f' < max_seq (sd_db s))%Z).
Proof.
  intros Hscan Hrun Hsub Hwf Hst. destruct (pass_pruned _ _ _ _ _ _ _ _ _ _ _ _ _ _ Hscan Hrun Hsub Hwf) as (gone & Hp & Hg).
  assert (Hkeep : ∀ a, a ∈ db_arrivals (sd_db s) → (Z.min safe_floor (max_seq (sd_db s) - 1) < ar_seq a)%Z → a ∈ db_arrivals (sd_db s')).
  { intros a Ha Hlt. rewrite (pr_arrivals _ _ _ _ Hp). apply list_elem_of_filter. split; [|done]. intros Hi.
    destruct (Hg _ Hi) as (c & a' & r & Hok & Hri & _). destruct Hok as [Hj Hseq _ _ Hfl Htop _ _].
    apply elem_of_joined in Hj as (Ha' & _ & Hai). destruct Hwf as (_ & Hnd & _).
    rewrite (key_inj ar_op_id _ a a' Hnd Ha Ha') in Hlt by congruence. lia. }
  split_and!.
  - apply Z.le_antisymm.
    + unfold max_seq. destruct (max_of_cases (ar_seq <$> db_arrivals (sd_db s'))) as [->|(a & Ha & Hin)%list_elem_of_fmap]; [apply max_of_pos|].
      rewrite Ha. apply max_of_le, list_elem_of_fmap_2. rewrite (pr_arrivals _ _ _ _ Hp) in Hin. by apply list_elem_of_filter in Hin as [_ ?].
    + unfold max_seq at 1. destruct (max_of_cases (ar_seq <$> db_arrivals (sd_db s))) as [->|(a & Ha & Hin)%list_elem_of_fmap]; [apply max_of_pos|].
      rewrite Ha. apply max_of_le, list_elem_of_fmap_2, Hkeep; [done|]. unfold max_seq. lia.
  - by eapply pruned_wf.
  - intros a Ha Hlt. apply Hkeep; [done|lia].
  - pose proof (pr_relay _ _ _ _ Hp) as Hr. rewrite Hst in Hr. unfold relay_advanced in Hr.
    destruct (db_relay_state (sd_db s')) as [[e' f']|]; [|done]. destruct Hr as [-> Hf]. exists f'. split_and!; [done|lia|lia|].
    intros Hlt. lia.
Qed.
End compaction.
