(* ===== verification/SqlMaintain.v ===== *)
(** * The log under maintenance

    Everything the server does to the op log of a shard over its life, as steps
    on the database: appends, compaction passes, and the head maintenance the
    host calls once it has demoted an op, moved ops between rows or re-applied a
    demoted op ([src/sqlite/oplog.rs], [oplog_heads.rs], [retention.rs]).
    The heads stay the winners of their rows along every sequence of them, so
    the head-first reads answer as a scan of the whole log would. *)

From S2P Require Import Prelude Ordered External Toy Identity Words Op RowOp Log Pull Sql SqlDb SqlLog SqlHeads SqlEdges SqlRetention SqlCompaction.
Import BTree.

Section maintain.
Context `{Rusqlite, Postcard, !Wire EnvelopeRepr, !Wire ProxyDbOp, !WireOk EnvelopeRepr}.
Implicit Types (s : StoreDb) (d : Db).

#[local] Instance demote_head_quiet i : Quiet (demote_head i).
Proof. unfold demote_head. solve_quiet. Qed.

(** One maintenance step that committed. A statement that fails rolls its
    transaction back and is no step. *)
Inductive maintain s : StoreDb → Prop :=
  | mt_append stamp op t p origin fs new d' fs' :
      op_v (op_body op) = ENVELOPE_VERSION → u64_ok (op_hlc (op_body op)) →
      oplog_append stamp op t p origin (sd_db s) fs = (Ok new, (d', fs')) →
      maintain s (set_db d' s)
  | mt_demote i f fs d' fs' :
      host_update f → marks_unapplied i f →
      demote_head i (rewritten f (sd_db s)) fs = (Ok (), (d', fs')) →
      maintain s (set_db d' s)
  | mt_merge st t from to f fs d1 fs1 d2 fs2 :
      host_update f → moves_rows st t from to f →
      rebuild_head st t from (rewritten f (sd_db s)) fs = (Ok (), (d1, fs1)) →
      rebuild_head st t to d1 fs1 = (Ok (), (d2, fs2)) →
      maintain s (set_db d2 s)
  | mt_reapply op r t p f fs d' fs' :
      r ∈ db_oplog (sd_db s) → row_of_op op r → or_applied r ≠ 1%Z →
      host_update f → marks_applied (op_id op) t p f →
      upsert_head op t p (rewritten f (sd_db s)) fs = (Ok (), (d', fs')) →
      maintain s (set_db d' s)
  | mt_compact policy safe_floor due resume probe chunks fs scan s0 fs1 n s' fs2 :
      compaction_candidates policy safe_floor due resume probe s fs = (Ok scan, (s0, fs1)) →
      compact_chunks chunks s0 fs1 = (Ok n, (s', fs2)) →
      (∀ c, c ∈ concat chunks → c ∈ cs_candidates scan) →
      maintain s s'.

(** The database a shard starts with. *)
Definition fresh s : Prop :=
  db_oplog (sd_db s) = [] ∧ db_arrivals (sd_db s) = [] ∧ db_heads (sd_db s) = ∅.

(** What every step keeps. *)
Record maintained s : Prop := {
  mn_wf : log_wf (sd_db s);
  mn_typed : Forall row_typed (db_oplog (sd_db s));
  mn_heads st tb pk : is_self_draining_bulk_table st tb = false →
    head_for (head_at st tb pk (sd_db s)) (rows_at st tb pk (sd_db s));
}.

Lemma fresh_maintained s : fresh s → maintained s.
Proof.
  intros (Ho & Ha & Hh). split.
  - unfold log_wf, ids_distinct. rewrite Ho, Ha. split_and!; [apply NoDup_nil_2..|done].
  - by rewrite Ho.
  - intros st tb pk _. unfold head_at, rows_at, lww_rows. rewrite Ho, Hh. done.
Qed.

Lemma rewritten_maintained f s d' :
  host_update f → maintained s → db_oplog d' = f <$> db_oplog (sd_db s) → db_arrivals d' = db_arrivals (sd_db s) →
  (∀ st tb pk, head_for (head_at st tb pk (sd_db s)) (rows_at st tb pk (sd_db s)) →
    head_for (head_at st tb pk d') (rows_at st tb pk d')) →
  maintained (set_db d' s).
Proof.
  intros Hf [(Hnd & Ha & Hiff) Hty Hh] Hlog Harr Hheads. split; cbn.
  - assert (Hids : or_op_id <$> db_oplog d' = or_op_id <$> db_oplog (sd_db s))
      by (rewrite Hlog, <-list_fmap_compose; apply list_fmap_ext; intros; by apply hu_id).
    unfold log_wf, ids_distinct. by rewrite Hids, Harr.
  - rewrite Hlog. apply Forall_fmap. eapply Forall_impl; [exact Hty|]. intros r (op & Hu & Hr). exists op. eauto using hu_op.
  - eauto.
Qed.

Lemma demote_head_frame i d u d' :
  runs (demote_head i) d u d' → db_arrivals d' = db_arrivals d ∧ db_oplog d' = db_oplog d.
Proof.
  intros ->%demote_head_runs. destruct (op_coordinates i d) as [[[st t] p]|]; [|done]. case_decide; [|done].
  by destruct (row_winner st t p d).
Qed.
Lemma rebuild_head_arrivals st t p d u d' : runs (rebuild_head st t p) d u d' → db_arrivals d' = db_arrivals d.
Proof.
  intros Hr. unfold rebuild_head in Hr. apply runs_bind in Hr as ([] & d0 & <-%runs_try & Hr); [|apply _].
  apply runs_bind in Hr as (w & d0 & [-> <-]%runs_get & Hr); [|apply _].
  destruct (row_winner st t p d); apply runs_bind in Hr as ([] & d0 & <-%runs_try & ->%runs_mod); done || apply _.
Qed.

Lemma append_maintained stamp op t p origin s d' :
  op_v (op_body op) = ENVELOPE_VERSION → u64_ok (op_hlc (op_body op)) →
  appended stamp op t p origin (sd_db s) d' → maintained s → maintained (set_db d' s).
Proof.
  intros Hv Hu Ha [(Hnd & Hna & Hiff) Hty Hh]. destruct (app_env _ _ _ _ _ _ _ Ha) as (envelope & Henv & Hlog).
  pose proof (app_fresh _ _ _ _ _ _ _ Ha) as Hfresh. pose proof (app_arrivals _ _ _ _ _ _ _ Ha) as Harr. split; cbn.
  - split_and!; [by eapply append_ids| |].
    + rewrite Harr, fmap_app. apply NoDup_app. split_and!; [done| |apply NoDup_singleton].
      intros i Hi ->%list_elem_of_singleton. by apply Hfresh, Hiff.
    + intros i. rewrite Hlog, Harr, !fmap_app, !elem_of_app, Hiff. done.
  - rewrite Hlog. apply Forall_app. split; [done|]. constructor; [|done]. exists op. split; [done|]. by apply op_row_of_op.
  - intros st tb pk Hb. by eapply append_head; eauto.
Qed.

Lemma maintain_maintained s s' : maintain s s' → maintained s → maintained s'.
Proof.
  intros Hstep Hm. pose proof (mn_wf _ Hm) as (Hnd & _ & _).
  destruct Hstep as [stamp op t p origin fs new d' fs' Hv Hu Hr%quiet|i f fs d' fs' Hf Hmark Hr%quiet|st t from to f fs d1 fs1 d2 fs2 Hf Hmove Hr1%quiet Hr2%quiet
    |op r t p f fs d' fs' Hin Hop Happ Hf Hmark Hr%quiet|policy safe_floor due resume probe chunks fs scan s0 fs1 n s' fs2 Hscan Hrun Hsub].
  - apply oplog_append_runs in Hr. destruct new; [by eapply append_maintained|]. destruct Hr as [-> _]. by destruct s.
  - destruct (demote_head_frame _ _ _ _ Hr) as [Harr Hlog]. apply (rewritten_maintained f); [done..|].
    intros s1 t1 p1 ?. by apply (demote_head_ok i f (sd_db s) () d').
  - pose proof (rebuild_head_arrivals _ _ _ _ _ _ Hr1) as Ha1. pose proof (rebuild_head_arrivals _ _ _ _ _ _ Hr2) as Ha2.
    apply (rewritten_maintained f); [done|done| |by rewrite Ha2, Ha1|].
    + apply rebuild_head_ok in Hr1 as [Hl1 _], Hr2 as [Hl2 _]. by rewrite Hl2, Hl1.
    + intros s1 t1 p1 ?. by apply (merge_head_ok st t from to f (sd_db s) d1 d2 () ()).
  - destruct (upsert_head_runs _ _ _ _ _ _ Hr) as (Hlog & Hd' & _).
    apply (rewritten_maintained f); [done|done|done|by rewrite Hd'|].
    intros s1 t1 p1 ?. by apply (reapply_head_ok op t p f (sd_db s) () d' r).
  - destruct (pass_pruned _ _ _ _ _ _ _ _ _ _ _ _ _ _ Hscan Hrun Hsub (mn_wf _ Hm)) as (gone & Hp & Hg). split.
    + by eapply pruned_wf, (mn_wf _ Hm).
    + rewrite (pr_oplog _ _ _ _ Hp). apply Forall_forall. intros r [_ Hr]%list_elem_of_filter.
      by apply (proj1 (Forall_forall _ _) (mn_typed _ Hm)).
    + intros s1 t1 p1 Hb. pose proof (mn_heads _ Hm _ _ p1 Hb) as Hh. unfold head_for.
      rewrite (kept_winner _ _ _ _ _ _ Hp Hg (mn_wf _ Hm) _ _ _ Hb Hh). unfold head_at. destruct (pr_heads _ _ _ _ Hp s1 t1 p1) as [->|[? _]]; [exact Hh|congruence].
Qed.

Lemma maintain_reachable s s' : fresh s → rtc maintain s s' → maintained s'.
Proof. intros Hs Hr. apply fresh_maintained in Hs. induction Hr; eauto using maintain_maintained. Qed.

(** C5: A shard's log starts empty and goes through committed steps: appends of
    ops of the current envelope version, compaction passes, and calls of
    [demote_head], [rebuild_head] (of both rows of a merge) and [upsert_head] by a
    host that has rewritten the log as their comments say (it marked the op
    unapplied, moved ops between the two rows, or marked an unapplied op applied
    under another row, and left key, store, payload and envelope of every op as
    they were).  However many of them, the log and its arrivals list the same ops
    once each; the envelope of every logged row decodes to an op, of which the
    row has the key, the store and the payload; and [oplog_heads] holds for every
    row outside the drained tables exactly the newest applied op of the log with
    its payload, and no row otherwise. *)
Theorem heads_maintained s s' :
  fresh s → rtc maintain s s' →
  (NoDup (or_op_id <$> db_oplog (sd_db s')) ∧ NoDup (ar_op_id <$> db_arrivals (sd_db s')) ∧
   ∀ i, i ∈ or_op_id <$> db_oplog (sd_db s') ↔ i ∈ ar_op_id <$> db_arrivals (sd_db s')) ∧
  (∀ r, r ∈ db_oplog (sd_db s') → ∃ op, u64_ok (op_hlc (op_body op)) ∧ row_of_op op r) ∧
  ∀ st tb pk, is_self_draining_bulk_table st tb = false →
    head_for (head_at st tb pk (sd_db s')) (rows_at st tb pk (sd_db s')).
Proof.
  intros Hs Hr. destruct (maintain_reachable _ _ Hs Hr) as [Hwf Hty Hh]. split; [exact Hwf|split; [|exact Hh]].
  by apply Forall_forall.
Qed.

Lemma stored_nonneg op r :
  u64_ok (op_hlc (op_body op)) → row_key r = bind_key (order_key op) → (0 ≤ or_hlc r)%Z →
  (ok_hlc (order_key op) ≤ i64_max)%Z.
Proof.
  intros Hu Hkey Hpos. injection Hkey as Hh _ _. rewrite Hh in Hpos. unfold as_i64 in Hpos. unfold u64_ok in Hu.
  cbn in *. case_decide; lia.
Qed.

(** The applied ops of a row besides one. *)
Definition other_op (st tb pk : string) (i : OpId) d (op : SignedOp) : Prop :=
  ∃ r, r ∈ rows_at st tb pk d ∧ row_of_op op r ∧ op_id op ≠ i.

(** The last-writer-wins guard reads right: along every such life the newest
    key it compares an incoming op with, read from the head first, is the key
    of an applied op of that row other than the incoming one and no other such
    op's key is above it, as long as no clock has its top bit set; with no such
    op it answers that there is none. *)
Lemma newest_applied_exact s s' st tb pk i :
  fresh s → rtc maintain s s' → is_self_draining_bulk_table st tb = false →
  Forall (λ r, (0 ≤ or_hlc r)%Z) (rows_at st tb pk (sd_db s')) →
  ∃ answer, newest_applied_in_store st tb pk i (sd_db s') [] = (Ok answer, (sd_db s', [])) ∧
    match answer with
    | Some k => (∃ op, other_op st tb pk i (sd_db s') op ∧ order_key op = k) ∧
                ∀ op, other_op st tb pk i (sd_db s') op → u64_ok (op_hlc (op_body op)) → order_key op ⪯ k
    | None => ∀ op, ¬ other_op st tb pk i (sd_db s') op
    end.
Proof.
  intros Hs Hr Hb Hpos. pose proof (maintain_reachable _ _ Hs Hr) as [(Hnd & _) Hty Hh].
  assert (Hty' : Forall row_typed (rows_at st tb pk (sd_db s'))).
  { apply Forall_forall. intros r [_ Hin]%list_elem_of_filter. by apply (proj1 (Forall_forall _ _) Hty). }
  destruct (newest_applied_winner (sd_db s') st tb pk i Hnd (Hh _ _ _ Hb) Hty') as (k & Hrun & Hk).
  exists k. split; [done|]. unfold winner_key, others_winner in Hk.
  assert (Hex : ∀ op r, r ∈ rows_at st tb pk (sd_db s') → row_of_op op r → op_id op ≠ i →
    r ∈ filter (λ r, or_op_id r ≠ vec_to_list i) (rows_at st tb pk (sd_db s'))).
  { intros op r Hin Hop Hne. apply list_elem_of_filter. split; [|done]. destruct Hop as ([= _ _ ->] & _).
    by intros Heq%vec_to_list_inj2. }
  fold (rows_at st tb pk (sd_db s')) in Hk. destruct (newest row_key _) as [r|] eqn:Hn.
  - destruct Hk as (op & Hu & Hop & ->). apply newest_some in Hn as [Hin Hmax].
    apply list_elem_of_filter in Hin as [Hne Hin]. split.
    + exists op. split; [|done]. exists r. split_and!; [done..|]. destruct Hop as ([= _ _ Hid] & _). congruence.
    + intros op' (r' & Hin' & Hop' & Hne') Hu'. rewrite Forall_forall in Hpos.
      pose proof (Hpos _ Hin) as Hp. pose proof (Hpos _ Hin') as Hp'. specialize (Hmax _ (Hex _ _ Hin' Hop' Hne')).
      destruct Hop as [Hkey _], Hop' as [Hkey' _]. rewrite Hkey, Hkey' in Hmax.
      apply (bind_key_ole (order_key op') (order_key op)); [by eapply stored_nonneg; eauto..|done].
  - subst k. intros op (r & Hin & Hop & Hne). apply newest_none in Hn. specialize (Hex _ _ Hin Hop Hne). rewrite Hn in Hex. by apply not_elem_of_nil in Hex.
Qed.
End maintain.
