(* ===== verification/SqlTypes.v ===== *)
(** * The stored log stays well-typed

    SQLite columns have no types: a blob of another width or an integer out of
    range is an error of the read that meets it.  The writes of
    [src/sqlite/oplog.rs], [oplog_heads.rs] and [coverage.rs] store values the
    reads convert back, but for one: a reset of a relay cursor to a position past
    the column's range, which fails every later read of that cursor. *)

From S2P Require Import Prelude Ordered External Toy Identity Words Op RowOp Log Pull Sql SqlDb SqlLog SqlHeads SqlRefine SqlMaintain.
Import BTree.

Section types.
Context `{Rusqlite, Postcard, !Wire EnvelopeRepr, !WireOk EnvelopeRepr}.
Implicit Types d : Db.

Definition width (n : nat) (bs : bytes) : Prop := length bs = n.
Definition key_typed (k : Z * (bytes * bytes)) : Prop := ∃ key : OrderKey, u64_ok (ok_hlc key) ∧ k = bind_key key.
Record row_ok (r : OplogRow) : Prop := {
  rk_key : key_typed (row_key r);
  rk_envelope : ∃ op, op_from_bytes (or_envelope r) = Ok op;
}.
Record head_ok (h : HeadRow) : Prop := {
  hk_key : key_typed (head_key h);
  hk_origin o : h_origin h = Some o → width 32 o;
}.

(** The peers whose relay cursor may have been reset past the column's range. *)
Context (far : DeviceId → Prop).
Record db_typed d : Prop := {
  dt_rows : Forall row_ok (db_oplog d);
  dt_heads : map_Forall (λ _ h, head_ok h) (db_heads d);
  dt_stream : ∃ epoch floor, db_relay_state d = Some (epoch, floor) ∧ width 32 epoch ∧ (0 ≤ floor)%Z;
  dt_cursors : map_Forall (λ k c, width 32 c.1.2 ∧ ((0 ≤ c.2)%Z ∨ ∃ peer, far peer ∧ k = vec_to_list peer)) (db_relay_cursors d);
  dt_acks : map_Forall (λ _ a, width 32 a.1 ∧ (0 ≤ a.2)%Z) (db_acks d);
}.

(** The writes that committed. *)
Inductive db_write d : Db → Prop :=
  | dw_append stamp op t p origin fs new d' fs' :
      op_v (op_body op) = ENVELOPE_VERSION → u64_ok (op_hlc (op_body op)) →
      oplog_append stamp op t p origin d fs = (Ok new, (d', fs')) → db_write d d'
  | dw_demote i f fs d' fs' : host_update f → demote_head i (rewritten f d) fs = (Ok (), (d', fs')) → db_write d d'
  | dw_merge st t from to f fs d1 fs1 d' fs2 : host_update f →
      rebuild_head st t from (rewritten f d) fs = (Ok (), (d1, fs1)) →
      rebuild_head st t to d1 fs1 = (Ok (), (d', fs2)) → db_write d d'
  | dw_reapply op t p f fs d' fs' : host_update f → u64_ok (op_hlc (op_body op)) →
      upsert_head op t p (rewritten f d) fs = (Ok (), (d', fs')) → db_write d d'
  | dw_save peer cursor fs d' fs' : u64_ok (rc_after cursor) →
      sql_save_relay_cursor peer cursor d fs = (Ok (), (d', fs')) → db_write d d'
  | dw_reset peer epoch seq fs d' fs' : u64_ok seq → ((i64_max < seq)%Z → far peer) →
      sql_reset_relay_cursor peer epoch seq d fs = (Ok (), (d', fs')) → db_write d d'
  | dw_ack peer epoch seq fs d' fs' : u64_ok seq →
      sql_record_peer_ack peer epoch seq d fs = (Ok (), (d', fs')) → db_write d d'
  | dw_rotate random fs d' fs' : rotate_relay_stream_epoch random d fs = (Ok (), (d', fs')) → db_write d d'
  | dw_cursor peer cursor fs d' fs' : sql_save_cursor peer cursor d fs = (Ok (), (d', fs')) → db_write d d'
  | dw_coverage origin key fs d' fs' : sql_advance_local_coverage origin key d fs = (Ok (), (d', fs')) → db_write d d'.

(** ** Every write keeps the types *)

Lemma key_typed_widths k : key_typed k → width 32 k.2.1 ∧ width 32 k.2.2.
Proof. intros (key & _ & ->). cbn. unfold width. by rewrite !length_vec_to_list. Qed.
Lemma row_head_ok r origin : row_ok r → (∀ o, origin = Some o → width 32 o) → head_ok (head_of r origin).
Proof. intros [Hk _] Ho. by split. Qed.

Lemma upsert_heads_ok op t p d u d' :
  u64_ok (op_hlc (op_body op)) → runs (upsert_head op t p) d u d' → map_Forall (λ _ h, head_ok h) (db_heads d) → map_Forall (λ _ h, head_ok h) (db_heads d').
Proof.
  intros Hu (_ & _ & Hk)%upsert_head_runs Hh k h. rewrite Hk. clear Hk. destruct (decide (k = (as_str (op_store (op_body op)), t, p))) as [Hkk|]; [|exact (Hh k h)].
  set (key := bind_key (order_key op)). assert (Hkey : key_typed key) by (exists (order_key op); split; [exact Hu|reflexivity]).
  destruct (key_typed_widths _ Hkey) as [Hdev _].
  assert (Hadv : ∀ h, advance_head (as_str (op_store (op_body op)), t, p) key (op_payload (op_body op)) (db_heads d) !! k = Some h → head_ok h).
  { intros h0. rewrite advance_head_at, decide_True by done. intros [= <-]. destruct (db_heads d !! (_, t, p)) as [h1|] eqn:Hl1.
    - apply Hh in Hl1. case_decide; [|done]. destruct Hl1 as [_ Ho]. by split; [exact Hkey|].
    - split; [exact Hkey|]. cbn. by intros o [= <-]. }
  destruct (advance_head _ key _ _ !! k) as [h0|]; [|done]. specialize (Hadv h0 eq_refl). cbn. case_decide; [by intros [= <-]|].
  intros [= <-]. destruct Hadv as [Hk0 _]. split; [done|]. cbn. by intros o [= <-].
Qed.

Lemma winner_ok st t p d r : Forall row_ok (db_oplog d) → row_winner st t p d = Some r → row_ok r.
Proof.
  intros Hr [Hin _]%newest_some. apply list_elem_of_filter in Hin as [_ Hin]. by apply (proj1 (Forall_forall _ _) Hr).
Qed.
Lemma rebuild_heads_ok st t p d u d' :
  runs (rebuild_head st t p) d u d' → Forall row_ok (db_oplog d) → map_Forall (λ _ h, head_ok h) (db_heads d) →
  map_Forall (λ _ h, head_ok h) (db_heads d').
Proof.
  intros Hr Hrows Hh. unfold rebuild_head in Hr. apply runs_bind in Hr as ([] & d0 & <-%runs_try & Hr); [|apply _].
  apply runs_bind in Hr as (w & d0 & [-> <-]%runs_get & Hr); [|apply _].
  destruct (row_winner st t p d) as [r|] eqn:Hw; apply runs_bind in Hr as ([] & d0 & <-%runs_try & ->%runs_mod); try apply _; cbn.
  - apply map_Forall_insert_2; [|done]. apply (row_head_ok r); [by eapply winner_ok|]. intros o. unfold row_origin.
    destruct (oldest row_key _) as [x|] eqn:Ho; [|done]. cbn. intros [= <-]. apply oldest_some in Ho as [Hin _].
    apply list_elem_of_filter in Hin as [_ Hin]. exact (proj1 (key_typed_widths _ (rk_key _ (proj1 (Forall_forall _ _) Hrows _ Hin)))).
  - by apply map_Forall_delete.
Qed.
Lemma demote_heads_ok i d u d' :
  runs (demote_head i) d u d' → Forall row_ok (db_oplog d) → map_Forall (λ _ h, head_ok h) (db_heads d) →
  map_Forall (λ _ h, head_ok h) (db_heads d').
Proof.
  intros ->%demote_head_runs Hrows Hh. destruct (op_coordinates i d) as [[[st t] p]|]; [|done]. case_decide; [|done].
  destruct (row_winner st t p d) as [r|] eqn:Hw; cbn; [|by apply map_Forall_delete]. intros k h Hl.
  destruct (decide (k = (st, t, p))) as [->|Hne]; [|rewrite lookup_alter_ne in Hl by done; by apply Hh in Hl].
  rewrite lookup_alter_eq in Hl. destruct (db_heads d !! (st, t, p)) as [h0|] eqn:Hl0; [|done]. injection Hl as <-.
  apply Hh in Hl0. apply row_head_ok; [by eapply winner_ok|apply Hl0].
Qed.

Lemma rewritten_rows_ok f rows : host_update f → Forall row_ok rows → Forall row_ok (f <$> rows).
Proof.
  intros Hf Hr. apply Forall_fmap. eapply Forall_impl; [exact Hr|]. intros r [Hk He].
  split; cbn; [by rewrite (hu_key f Hf)|by rewrite (hu_envelope f Hf)].
Qed.

#[local] Instance demote_quiet i : Quiet (demote_head i).
Proof. unfold demote_head. solve_quiet. Qed.
#[local] Instance ack_quiet peer epoch seq : Quiet (sql_record_peer_ack peer epoch seq).
Proof. unfold sql_record_peer_ack, current_stream_epoch. solve_quiet. Qed.

Lemma append_typed stamp op t p origin d d' :
  op_v (op_body op) = ENVELOPE_VERSION → u64_ok (op_hlc (op_body op)) → runs (oplog_append stamp op t p origin) d true d' →
  db_typed d → db_typed d'.
Proof.
  intros Hv Hu Hr%oplog_append_runs [Hrows Hh Hs Hc Ha]. destruct (app_env _ _ _ _ _ _ _ Hr) as (e & He & Hlog).
  destruct (app_heads _ _ _ _ _ _ _ Hr) as (d1 & Hup & Hheads). split.
  - rewrite Hlog. apply Forall_app. split; [done|]. constructor; [|done]. split; [by exists (order_key op)|].
    exists op. cbn. rewrite (op_to_bytes_inv _ _ He). by rewrite decide_True.
  - rewrite Hheads. by eapply upsert_heads_ok.
  - by rewrite (app_relay _ _ _ _ _ _ _ Hr).
  - by rewrite (app_cursors _ _ _ _ _ _ _ Hr).
  - by rewrite (app_acks _ _ _ _ _ _ _ Hr).
Qed.

(** A write of the heads alone. *)
Lemma heads_typed d d' :
  d' = set_heads (db_heads d') d → db_typed d → map_Forall (λ _ h, head_ok h) (db_heads d') → db_typed d'.
Proof. intros -> [] Hh. by split. Qed.
Lemma demote_heads_only i d u d' : runs (demote_head i) d u d' → d' = set_heads (db_heads d') d.
Proof.
  intros ->%demote_head_runs. destruct (op_coordinates i d) as [[[st t] p]|]; [|by destruct d]. case_decide; [|by destruct d].
  by destruct (row_winner st t p d).
Qed.
Lemma rebuild_heads_only st t p d u d' : runs (rebuild_head st t p) d u d' → d' = set_heads (db_heads d') d.
Proof.
  intros Hr. unfold rebuild_head in Hr. apply runs_bind in Hr as ([] & d0 & <-%runs_try & Hr); [|apply _].
  apply runs_bind in Hr as (w & d0 & [-> <-]%runs_get & Hr); [|apply _].
  destruct (row_winner st t p d); apply runs_bind in Hr as ([] & d0 & <-%runs_try & ->%runs_mod); done || apply _.
Qed.
Lemma rewritten_typed f d : host_update f → db_typed d → db_typed (rewritten f d).
Proof. intros Hf [Hrows Hh Hs Hc Ha]. split; [by apply rewritten_rows_ok|done..]. Qed.

Lemma log_write_typed f d :
  host_update f → db_typed d →
  (∀ i u d', runs (demote_head i) (rewritten f d) u d' → db_typed d') ∧
  (∀ st t from to u1 d1 u2 d', runs (rebuild_head st t from) (rewritten f d) u1 d1 → runs (rebuild_head st t to) d1 u2 d' → db_typed d') ∧
  (∀ op t p u d', u64_ok (op_hlc (op_body op)) → runs (upsert_head op t p) (rewritten f d) u d' → db_typed d').
Proof.
  intros Hf Hd. pose proof (rewritten_typed f d Hf Hd) as Hm. split_and!.
  - intros i u d' Hr. eapply heads_typed; [by eapply demote_heads_only|done|]. by eapply demote_heads_ok; [|apply Hm..].
  - intros st t from to u1 d1 u2 d' Hr1 Hr2.
    assert (H1d : db_typed d1) by (eapply heads_typed; [by eapply rebuild_heads_only|done|]; by eapply rebuild_heads_ok; [|apply Hm..]).
    eapply heads_typed; [by eapply rebuild_heads_only|done|]. by eapply rebuild_heads_ok; [|apply H1d..].
  - intros op t p u d' Hu Hr. eapply heads_typed; [by apply (upsert_head_runs _ _ _ _ _ _ Hr)|done|]. eapply upsert_heads_ok; [done..|apply Hm].
Qed.

Lemma cursor_write_typed d :
  db_typed d →
  (∀ peer cursor u d', u64_ok (rc_after cursor) → runs (sql_save_relay_cursor peer cursor) d u d' → db_typed d') ∧
  (∀ peer epoch seq u d', u64_ok seq → ((i64_max < seq)%Z → far peer) → runs (sql_reset_relay_cursor peer epoch seq) d u d' → db_typed d') ∧
  (∀ peer epoch seq u d', u64_ok seq → runs (sql_record_peer_ack peer epoch seq) d u d' → db_typed d').
Proof.
  intros [Hrows Hh Hs Hc Ha]. split_and!.
  - intros peer cursor u d' Hu Hr. unfold sql_save_relay_cursor in Hr. apply runs_bind in Hr as (seq & d0 & [Hseq%ok_or_ok <-]%runs_lift & Hr); [|apply _].
    apply runs_bind in Hr as ([] & d0 & <-%runs_try & ->%runs_mod); [|apply _]. split; [done..| |done].
    assert (Hnn : (0 ≤ seq)%Z) by (unfold i64_try in Hseq; case_decide; simplify_eq; apply Hu).
    cbn. apply map_Forall_insert_2; [|done]. unfold fold_cursor.
    destruct (db_relay_cursors d !! vec_to_list peer) as [[[v e] q]|] eqn:Hl; cbn; (split; [unfold width; apply length_vec_to_list|]); [|by left].
    left. case_decide; lia.
  - intros peer epoch seq u d' [Hu _] Hfar Hr. unfold sql_reset_relay_cursor in Hr. apply runs_bind in Hr as ([] & d0 & <-%runs_try & ->%runs_mod); [|apply _].
    split; [done..| |done]. cbn. apply map_Forall_insert_2; [|done]. cbn. split; [unfold width; apply length_vec_to_list|].
    destruct (decide (i64_max < seq)%Z); [right; by eauto|left]. rewrite as_i64_small; lia.
  - intros peer epoch seq u d' Hu Hr. unfold sql_record_peer_ack in Hr.
    apply runs_bind in Hr as (cur & d0 & [_ ->]%current_stream_epoch_runs & Hr); [|unfold current_stream_epoch; apply _].
    case_decide; [by apply runs_ret in Hr as [_ <-]|].
    apply runs_bind in Hr as (q & d0 & [Hq%ok_or_ok <-]%runs_lift & Hr); [|apply _].
    apply runs_bind in Hr as ([] & d0 & <-%runs_try & ->%runs_mod); [|apply _]. split; [done..|].
    assert (Hnn : (0 ≤ q)%Z) by (unfold i64_try in Hq; case_decide; simplify_eq; apply Hu).
    cbn. apply map_Forall_insert_2; [|done]. unfold fold_ack.
    destruct (db_acks d !! vec_to_list peer) as [[e a]|] eqn:Hl; cbn; (split; [unfold width; apply length_vec_to_list|]); [|done].
    apply Ha in Hl as [_ Hq']. cbn in Hq'. case_decide; lia.
Qed.

Lemma write_typed d d' : db_write d d' → db_typed d → db_typed d'.
Proof.
  intros Hw Hd. destruct (cursor_write_typed d Hd) as (Hsave & Hreset & Hack).
  destruct Hw as [stamp op t p origin fs new d' fs' Hv Hu Hr%quiet|i f fs d' fs' Hf Hr%quiet|st t from to f fs d1 fs1 d' fs2 Hf Hr1%quiet Hr2%quiet
    |op t p f fs d' fs' Hf Hu Hr%quiet|peer cursor fs d' fs' Hu Hr%quiet|peer epoch seq fs d' fs' Hs Hfar Hr%quiet|peer epoch seq fs d' fs' Hu Hr%quiet
    |random fs d' fs' Hr%quiet|peer cursor fs d' fs' Hr%quiet|origin key fs d' fs' Hr%quiet]; [| | | |by eauto..| | |].
  - destruct new; [by eapply append_typed|]. apply oplog_append_runs in Hr as [-> _]. done.
  - destruct (log_write_typed f d Hf Hd) as (Hdem & _). eauto.
  - destruct (log_write_typed f d Hf Hd) as (_ & Hmerge & _). eauto.
  - destruct (log_write_typed f d Hf Hd) as (_ & _ & Hre). eauto.
  - unfold rotate_relay_stream_epoch in Hr. apply runs_bind in Hr as ([] & d0 & <-%runs_try & ->%runs_mod); [|apply _].
    destruct Hd as [Hrows Hh (e & f & Hst & _ & _) Hc Ha]. split; [done..| |done|done]. cbn. rewrite Hst. cbn.
    exists (vec_to_list random), 0%Z. split_and!; [done|unfold width; apply length_vec_to_list|done].
  - unfold sql_save_cursor in Hr. apply runs_bind in Hr as ([] & d0 & <-%runs_try & ->%runs_mod); [|apply _]. by destruct Hd.
  - unfold sql_advance_local_coverage in Hr. apply runs_bind in Hr as ([] & d0 & <-%runs_try & ->%runs_mod); [|apply _]. by destruct Hd.
Qed.

(** ** The typed reads answer *)

Lemma key_read k : key_typed k → ∃ key, order_key_from_row k = Ok key.
Proof.
  intros (key & Hu & ->). exists key. unfold bind_key, order_key_from_row. rewrite !vec_of_list_to_list. cbn. rewrite as_u64_i64 by done. by destruct key.
Qed.
Lemma optional_read {A B} context (f : A → result string B) (row : option A) d :
  (∀ a, row = Some a → ∃ b, f a = Ok b) → ∃ b, runs (optional_row context f row) d b d.
Proof.
  intros Hf. destruct row as [a|]; [|by exists None]. destruct (Hf a eq_refl) as [b Hb]. exists (Some b). cbn. unfold runs. by rewrite Hb.
Qed.
Lemma optional_query {A B} context (get : Db → option A) (f : A → result string B) d :
  (∀ a, get d = Some a → ∃ b, f a = Ok b) →
  ∃ b, runs (_ ← sql_try context; row ← sql_get get; optional_row context f row) d b d.
Proof.
  intros Hf. destruct (optional_read context f (get d) d Hf) as [b Hb]. exists b.
  eapply (runs_then _ _ ()); [by apply runs_try|]. eapply runs_then; [by apply runs_get|]. exact Hb.
Qed.
Lemma newest_row_ok (P : OplogRow → Prop) `{!∀ r, Decision (P r)} d r :
  db_typed d → newest row_key (filter P (db_oplog d)) = Some r → row_ok r.
Proof. intros Hd [[_ Hin]%list_elem_of_filter _]%newest_some. by apply (proj1 (Forall_forall _ _) (dt_rows _ Hd)). Qed.

Lemma newest_read st t p i d : db_typed d → ∃ k, runs (newest_applied_in_store st t p i) d k d.
Proof.
  intros Hd. unfold newest_applied_in_store.
  assert (Hscan : ∃ k, runs (_ ← sql_try "oplog newest_applied_in_store"; row ← sql_get (others_winner st t p i);
    optional_row "oplog newest_applied_in_store" (λ r, order_key_from_row (row_key r)) row) d k d).
  { apply optional_query. intros r [[_ [_ Hin]%list_elem_of_filter]%list_elem_of_filter _]%newest_some. apply key_read, rk_key.
    by apply (proj1 (Forall_forall _ _) (dt_rows _ Hd)). }
  destruct (optional_read "oplog newest_applied_in_store head" (λ h, order_key_from_row (head_key h)) (db_heads d !! (st, t, p)) d) as [head Hhead].
  { intros h Hh. apply key_read. by apply (dt_heads _ Hd) in Hh as [? _]. }
  destruct head as [key|]; [destruct (decide (ok_op_id key ≠ i)) as [Hne|Heq]|].
  - exists (Some key). eapply (runs_then _ _ ()); [by apply runs_try|]. eapply runs_then; [by apply runs_get|]. eapply runs_then; [exact Hhead|].
    cbn beta iota. rewrite decide_True by done. by apply runs_ret.
  - destruct Hscan as [k Hk]. exists k. eapply (runs_then _ _ ()); [by apply runs_try|]. eapply runs_then; [by apply runs_get|]. eapply runs_then; [exact Hhead|].
    cbn beta iota. rewrite decide_False by done. exact Hk.
  - destruct Hscan as [k Hk]. exists k. eapply (runs_then _ _ ()); [by apply runs_try|]. eapply runs_then; [by apply runs_get|]. eapply runs_then; [exact Hhead|].
    exact Hk.
Qed.

Lemma vec_read n (bs : bytes) : width n bs → ∃ v, vec_of_list n bs = Some v.
Proof. intros <-. exists (list_to_vec bs). rewrite <-(vec_of_list_to_list (list_to_vec bs)). by rewrite vec_to_list_to_vec. Qed.

Lemma cursor_read peer d : db_typed d → ¬ far peer → ∃ c, runs (sql_load_relay_cursor peer) d c d.
Proof.
  intros Hd Hnear. apply optional_query.
  intros row Hrow. destruct (db_relay_cursors d !! vec_to_list peer) as [[[v e] q]|] eqn:Hl; [|done]. apply (dt_cursors _ Hd) in Hl as [He Hq].
  case_decide; [|done]. injection Hrow as <-. cbn in He, Hq.
  destruct Hq as [Hq|(peer' & Hfar & Hp%vec_to_list_inj2)]; [|by subst]. destruct (vec_read 32 e He) as [epoch Hv]. eexists. unfold relay_cursor_row. cbn.
  rewrite Hv. cbn. unfold u64_try. by rewrite decide_True.
Qed.

Lemma stream_read d : db_typed d → (0 ≤ max_seq d)%Z → ∃ st, runs sql_relay_stream_state d st d.
Proof.
  intros Hd Hmax. destruct (dt_stream _ Hd) as (e & f & Hst & He & Hf). destruct (vec_read 32 e He) as [epoch Hv].
  exists (mk_stream epoch (max_seq d) f). unfold sql_relay_stream_state. eapply (runs_then _ _ ()); [by apply runs_try|].
  eapply runs_then; [by apply runs_get|]. eapply runs_then; [by apply runs_get|]. cbn beta.
  eapply (runs_then _ _ (e, f)); [by apply runs_lift|].
  apply runs_lift. split; [|done]. unfold relay_state_row. cbn. rewrite Hv. cbn. unfold u64_try. by rewrite !decide_True.
Qed.

(** C26: What is stored can be read back.  From a well-typed database, any
    sequence of committed writes: appends of ops of the current envelope version,
    head maintenance after a host's rewrite that leaves keys, stores, payloads and
    envelopes alone, saves and resets of relay cursors at any [u64] position,
    acknowledgments, epoch rotations, legacy cursors and coverage claims.  When no
    statement fails the typed reads all answer, never with a conversion error: the
    stream state, the newest applied key, the heads of the log and of a store, an
    op by its id, and the relay cursor of every peer that is not among [far], the
    peers some reset of the sequence put past [i64::MAX]. *)
Theorem stored_state_typed d d' :
  db_typed d → rtc db_write d d' →
  db_typed d' ∧
  (∃ st, runs sql_relay_stream_state d' st d') ∧
  (∀ peer, ¬ far peer → ∃ c, runs (sql_load_relay_cursor peer) d' c d') ∧
  (∀ st t p i, ∃ k, runs (newest_applied_in_store st t p i) d' k d') ∧
  (∃ k, runs oplog_head d' k d') ∧
  (∀ store, ∃ k, runs (head_in_store store) d' k d') ∧
  ∀ i, ∃ op, runs (load_op i) d' op d'.
Proof.
  intros Hd Hr. assert (Hd' : db_typed d') by (induction Hr; eauto using write_typed). split; [done|]. split_and!.
  - apply stream_read; [done|apply max_of_pos].
  - intros. by apply cursor_read.
  - intros. by apply newest_read.
  - apply optional_query.
    intros r [Hin _]%newest_some. apply key_read, rk_key. by apply (proj1 (Forall_forall _ _) (dt_rows _ Hd')).
  - intros store. apply optional_query.
    intros r Hn. eapply key_read, rk_key, newest_row_ok; [done|exact Hn].
  - intros i. unfold load_op. destruct (find_op i d') as [r|] eqn:Hf.
    + assert (Hin : r ∈ db_oplog d').
      { unfold find_op in Hf. apply head_Some in Hf as [l Hl]. assert (Hx : r ∈ filter (λ r, or_op_id r = vec_to_list i) (db_oplog d')) by (rewrite Hl; by left).
        by apply list_elem_of_filter in Hx as [_ ?]. }
      destruct (rk_envelope _ (proj1 (Forall_forall _ _) (dt_rows _ Hd') _ Hin)) as [op Hop]. exists (Some op).
      eapply (runs_then _ _ ()); [by apply runs_try|]. eapply runs_then; [by apply runs_get|]. cbn beta. rewrite ?Hf. eapply (runs_then _ _ op); [apply runs_lift; by rewrite Hop|]. by apply runs_ret.
    + exists None. eapply (runs_then _ _ ()); [by apply runs_try|]. eapply runs_then; [by apply runs_get|]. by rewrite ?Hf.
Qed.

(** A reset at a position past the column's range is stored negative, and no
    later read of that cursor succeeds. *)
Lemma reset_past_range peer epoch seq d d' fs fs' :
  u64_ok seq → (i64_max < seq)%Z → sql_reset_relay_cursor peer epoch seq d fs = (Ok (), (d', fs')) →
  ∃ e, (sql_load_relay_cursor peer d' []).1 = Err e.
Proof.
  intros Hu Hs Hr%quiet. unfold sql_reset_relay_cursor in Hr. apply runs_bind in Hr as ([] & d0 & <-%runs_try & ->%runs_mod); [|apply _].
  unfold sql_load_relay_cursor, mbind, sql_bind, sql_get. cbn [sql_try]. cbn [db_relay_cursors set_relay_cursors]. rewrite lookup_insert_eq.
  rewrite decide_True by done. eexists. unfold optional_row, relay_cursor_row, row_error, mbind, sql_bind, sql_lift. cbn [fst snd].
  rewrite vec_of_list_to_list. cbn. unfold u64_try, as_i64. rewrite (decide_False (P := (seq ≤ i64_max)%Z)) by lia.
  rewrite decide_False; [done|]. unfold u64_ok in Hu. lia.
Qed.
End types.
