(* ===== verification/SqlRows.v ===== *)
(** * The relational row store ([src/sqlite/rows.rs])

    Row ops applied to the host's tables, guarded by the log's newest key; the
    full-row images read back, their comparison with logged images, and the
    keyset scan the row reconcile walks.

    The tables are the host's: which value a column keeps of a bound one, when
    a kept value equals a bound one, a column's default, the order of a key, and
    which constraint of which table a write violates are its schema's
    ([HostSchema]).  Triggers and foreign-key actions are not modelled. *)

From stdpp Require Import pretty.
From S2P Require Import Prelude Ordered External Toy Identity Text Words Op RowOp Log Pull Sql SqlDb SqlLog SqlHeads.
Import BTree.

Definition ROW_RECONCILE_REPAIR_VERSION : Z := 1.
Definition CHUNK_ROWS : nat := 128.

(** ** Values *)

(** [rusqlite::types::Value]; a text is one SQLite got from a [String]. *)
Inductive SqlValue : Type :=
  | SqlNull
  | SqlInteger (v : Z)
  | SqlReal (bits : Z)
  | SqlText (v : string)
  | SqlBlob (v : bytes).
#[export] Instance SqlValue_eq_dec : EqDecision SqlValue.
Proof. solve_decision. Defined.
Definition into_sql (s : Scalar) : SqlValue :=
  match s with
  | Null => SqlNull
  | Int i => SqlInteger i
  | Real f => SqlReal f
  | TextVal s => SqlText s
  | Blob b => SqlBlob b
  end.
Definition from_sql (v : SqlValue) : Scalar :=
  match v with
  | SqlNull => Null
  | SqlInteger i => Int i
  | SqlReal f => Real f
  | SqlText s => TextVal s
  | SqlBlob b => Blob b
  end.
Lemma from_into_sql s : from_sql (into_sql s) = s.
Proof. by destruct s. Qed.

(** [f64 == f64], on the bits: no NaN equals anything, the zeros are equal. *)
Definition f64_is_nan (bits : Z) : bool := bool_decide (2047 * 2 ^ 52 < bits mod 2 ^ 63)%Z.
Definition f64_eqb (a b : Z) : bool :=
  negb (f64_is_nan a) && negb (f64_is_nan b) &&
  (bool_decide (a = b) || (bool_decide (a mod 2 ^ 63 = 0)%Z && bool_decide (b mod 2 ^ 63 = 0)%Z)).
(** The derived [PartialEq] of [Scalar]. *)
Definition scalar_eqb (a b : Scalar) : bool :=
  match a, b with
  | Real a, Real b => f64_eqb a b
  | _, _ => bool_decide (a = b)
  end.

(** ** The host's tables *)

(** A row, column by column in the table's order. *)
Notation Row := (list (string * SqlValue)) (only parsing).
Definition cell (c : string) (r : Row) : option SqlValue := snd <$> head (filter (λ p, p.1 = c) r).
Record Table : Type := mk_table { tb_columns : list string; tb_rows : list Row }.

(** The extended code of a [SqliteFailure]: the two the code takes for an answer,
    and the others, with what the driver prints. *)
Inductive ExtendedCode : Type :=
  | SQLITE_CONSTRAINT_UNIQUE
  | SQLITE_CONSTRAINT_FOREIGNKEY
  | OtherCode (message : string).
#[export] Instance ExtendedCode_eq_dec : EqDecision ExtendedCode.
Proof. solve_decision. Defined.

Class HostSchema := {
  (** What a column keeps of a bound value. *)
  stored : string → string → SqlValue → SqlValue;
  (** [column = ?]: a kept value against a bound or kept one. *)
  matches : string → string → SqlValue → SqlValue → bool;
  default_of : string → string → SqlValue;
  (** [ORDER BY cols] and [(cols) > (?, ..)]. *)
  key_order : string → list string → list Row → list Row;
  key_above : string → list string → list SqlValue → Row → bool;
  (** The constraint that [INSERT INTO t .. ON CONFLICT (target) DO ..] of a row,
      or [DELETE FROM t] of some rows, violates, foreign keys being enforced or
      not, given the rows of every table. *)
  insert_violates : bool → gmap string Table → string → list string → Row → option ExtendedCode;
  delete_violates : bool → gmap string Table → string → list Row → option ExtendedCode;
  code_display : ExtendedCode → string;
  (** What preparing a statement with an empty clause answers. *)
  syntax_error : string;
  (** Parameters bound, parameters of the statement. *)
  invalid_parameter_count : nat → nat → string;
}.

(** A connection: the log, the tables, whether foreign keys are enforced and
    whether a transaction is open, and [mesh_pull_drains]. *)
Record RowDb : Type := mk_row_db {
  rd_db : Db;
  rd_tables : gmap string Table;
  rd_fk : bool;
  rd_in_txn : bool;
  rd_drains : gmap bytes string;
}.
Definition set_rd_db (d : Db) (s : RowDb) : RowDb := mk_row_db d (rd_tables s) (rd_fk s) (rd_in_txn s) (rd_drains s).
Definition set_table (t : string) (rows : list Row) (s : RowDb) : RowDb :=
  mk_row_db (rd_db s) (alter (λ tb, mk_table (tb_columns tb) rows) t (rd_tables s)) (rd_fk s) (rd_in_txn s) (rd_drains s).
Definition rows_of (t : string) (s : RowDb) : list Row := default [] (tb_rows <$> rd_tables s !! t).
Definition columns_of (t : string) (s : RowDb) : list string := default [] (tb_columns <$> rd_tables s !! t).
Definition on_log {A} (m : sql Db A) : sql RowDb A := sql_zoom rd_db set_rd_db m.


Section rows.
Context `{Rusqlite, Postcard, !Wire EnvelopeRepr, !Wire ProxyDbOp, HostSchema} (f64_debug : Z → string).
Implicit Types (s : RowDb) (op : ProxyDbOp).

(** A write with one violation the caller takes for an answer: whether it was
    made. *)
Definition sql_execute (context : string) (violates : RowDb → option ExtendedCode) (benign : ExtendedCode) : sql RowDb bool :=
  _ ← sql_try context;
  violated ← sql_get violates;
  match violated with
  | None => mret true
  | Some code => if decide (code = benign) then mret false else sql_lift (Err (sql_error context (code_display code)))
  end.

(** ** Foreign keys around a write *)

(** [PRAGMA foreign_keys] does nothing inside a transaction. *)
Definition set_fk (b : bool) (s : RowDb) : RowDb :=
  if rd_in_txn s then s else mk_row_db (rd_db s) (rd_tables s) b (rd_in_txn s) (rd_drains s).
(** [FkSuspendGuard::for_mutation]: whether a guard is held. *)
Definition fk_suspend (m : Mutation) : sql RowDb bool :=
  match m with
  | Upsert _ => _ ← sql_try "mesh fk suspend"; _ ← sql_mod (set_fk false); mret true
  | Delete => mret false
  end.
(** Its [drop]; [ran] is whether the pragma ran, its error is ignored. *)
Definition fk_drop (held ran : bool) (s : RowDb) : RowDb := if held && ran then set_fk true s else s.

(** ** Writing a row *)

(** A [WHERE] clause joined from no term does not parse. *)
Definition needs_clause {A} (context : string) (terms : list A) : sql RowDb () :=
  sql_lift (match terms with [] => Err (sql_error context syntax_error) | _ :: _ => Ok () end).

Definition key_matches (t : string) (key : list KeyField) (r : Row) : bool :=
  forallb (λ f, match cell (kf_col f) r with Some v => matches t (kf_col f) v (into_sql (kf_val f)) | None => false end) key.

Definition image_equals (columns : list Column) (r : Row) : bool :=
  forallb (λ c, match cell (c_name c) r with Some v => scalar_eqb (from_sql v) (c_value c) | None => false end) columns.
Definition upsert_matches_current_row (op : ProxyDbOp) (columns : list Column) : sql RowDb bool :=
  _ ← needs_clause ("mesh row compare " +:+ ro_table op) (ro_key op);
  _ ← sql_try ("mesh row compare " +:+ ro_table op);
  row ← sql_get (λ s, head (filter (λ r, key_matches (ro_table op) (ro_key op) r = true) (rows_of (ro_table op) s)));
  mret (match row with Some r => image_equals columns r | None => false end).

Definition local_table_columns (t : string) : sql RowDb (option (list string)) :=
  _ ← sql_try ("mesh table probe " +:+ t);
  _ ← sql_try ("mesh table probe " +:+ t);
  columns ← sql_get (columns_of t);
  mret (if decide (columns = []) then None else Some columns).

(** The row an [INSERT] of the columns proposes. *)
Definition proposed (t : string) (schema : list string) (columns : list Column) : Row :=
  (λ c, (c, match head (filter (λ x, c_name x = c) columns) with
            | Some x => stored t c (into_sql (c_value x))
            | None => default_of t c
            end)) <$> schema.
(** [ON CONFLICT (target)]: a row that agrees with the proposed one on the target. *)
Definition conflicts (t : string) (target : list string) (new r : Row) : bool :=
  forallb (λ c, match cell c r, cell c new with Some v, Some w => matches t c v w | _, _ => false end) target.
(** [DO UPDATE SET c = excluded.c, ..] *)
Definition updated (assigned : list string) (new r : Row) : Row :=
  (λ p, if decide (p.1 ∈ assigned) then (p.1, default p.2 (cell p.1 new)) else p) <$> r.
Definition upsert_rows (t : string) (target assigned : list string) (new : Row) (rows : list Row) : list Row :=
  if existsb (conflicts t target new) rows
  then (λ r, if conflicts t target new r then updated assigned new r else r) <$> rows
  else rows ++ [new].

Definition bad_column (columns : list Column) : option string :=
  head (c_name <$> filter (λ c, is_valid_ident (c_name c) = false) columns).
Definition bad_key (key : list KeyField) : option string :=
  head (kf_col <$> filter (λ f, is_valid_ident (kf_col f) = false) key).
Definition ident_check (what : string) (bad : option string) : sql RowDb () :=
  sql_lift (match bad with Some c => Err (SqlOther (what +:+ ": " +:+ c)) | None => Ok () end).
Definition key_missing (columns : list string) (key : list KeyField) : bool :=
  existsb (λ f, bool_decide (kf_col f ∉ columns)) key.

(** The arm of an upsert, and the statement it ends in. *)
Definition upsert_statement (op : ProxyDbOp) (local : list Column) (schema : list string) : sql RowDb bool :=
  let t := ro_table op in
  let target := kf_col <$> ro_key op in
  let assigned := filter (λ c, c ∉ target) (c_name <$> local) in
  let new := proposed t schema local in
  done ← sql_execute ("mesh upsert " +:+ t) (λ s, insert_violates (rd_fk s) (rd_tables s) t target new) SQLITE_CONSTRAINT_UNIQUE;
  if (done : bool) then
    _ ← sql_mod (λ s, set_table t (upsert_rows t target assigned new (rows_of t s)) s);
    mret true
  else mret false.
Definition write_upsert (op : ProxyDbOp) (columns : list Column) (schema : list string) : sql RowDb bool :=
  _ ← ident_check "invalid column" (bad_column columns);
  _ ← ident_check "invalid key column" (bad_key (ro_key op));
  if key_missing schema (ro_key op) then mret false
  else
    let local := filter (λ c, c_name c ∈ schema) columns in
    if decide (local = []) then mret false
    else
      same ← upsert_matches_current_row op local;
      if (same : bool) then mret false else upsert_statement op local schema.
(** The arm of a delete. *)
Definition write_delete (op : ProxyDbOp) (schema : list string) : sql RowDb bool :=
  let t := ro_table op in
  _ ← ident_check "invalid key column" (bad_key (ro_key op));
  if key_missing schema (ro_key op) then mret false
  else
    _ ← needs_clause ("mesh delete " +:+ t) (ro_key op);
    done ← sql_execute ("mesh delete " +:+ t)
      (λ s, delete_violates (rd_fk s) (rd_tables s) t (filter (λ r, key_matches t (ro_key op) r = true) (rows_of t s)))
      SQLITE_CONSTRAINT_FOREIGNKEY;
    if (done : bool) then
      _ ← sql_mod (λ s, set_table t (filter (λ r, key_matches t (ro_key op) r = false) (rows_of t s)) s);
      mret true
    else mret false.

Definition write_row (op : ProxyDbOp) (device_local_tables : list string) : sql RowDb bool :=
  let t := ro_table op in
  if negb (is_valid_ident t) then sql_lift (Err (SqlOther ("invalid table name: " +:+ t)))
  else if decide (t ∈ device_local_tables) then mret false
  else
    local ← local_table_columns t;
    match local with
    | None => mret false
    | Some schema =>
        match ro_mutation op with
        | Upsert columns => write_upsert op columns schema
        | Delete => write_delete op schema
        end
    end.

Definition write_row_if_newer (store : string) (op : ProxyDbOp) (key : OrderKey) (device_local_tables : list string)
    : sql RowDb bool :=
  newest ← on_log (newest_applied_in_store store (ro_table op) (row_pk f64_debug op) (ok_op_id key));
  match newest with
  | Some current => if decide (key ⪯ current) then mret false else write_row op device_local_tables
  | None => write_row op device_local_tables
  end.

(** ** Images *)

(** [HashMap::from_iter] keeps the last of equal names. *)
Definition column_map (columns : list Column) : gmap string Scalar :=
  foldl (λ m c, <[c_name c := c_value c]> m) ∅ columns.
Definition image_matches (logged live : list Column) : bool :=
  bool_decide (length logged = length live) &&
  forallb (λ c, match column_map logged !! c_name c with Some v => scalar_eqb v (c_value c) | None => false end) live.
Definition material (volatile : list string) (columns : list Column) : list Column :=
  filter (λ c, c_name c ∉ volatile) columns.
Definition material_image_matches (logged live : list Column) (volatile : list string) : bool :=
  if decide (volatile = []) then image_matches logged live
  else image_matches (material volatile logged) (material volatile live).

Definition row_image (r : Row) : list Column := (λ p, mk_Column p.1 (from_sql p.2)) <$> r.
(** A column a statement names has to be one of the table's. *)
Definition missing_column (columns : list string) (named : list string) : option string :=
  head (filter (λ c, c ∉ columns) named).
Definition needs_columns (context t : string) (named : list string) : sql RowDb () :=
  missing ← sql_get (λ s, missing_column (columns_of t s) named);
  sql_lift (match missing with Some c => Err (sql_error context (no_such_column c)) | None => Ok () end).
Definition pair_matches (t : string) (key : list (string * string)) (r : Row) : bool :=
  forallb (λ p, match cell p.1 r with Some v => matches t p.1 v (SqlText p.2) | None => false end) key.

Definition idents_ok (t : string) (columns : list string) : bool :=
  is_valid_ident t && forallb is_valid_ident columns.
Definition read_row_image_keyed (t : string) (key : list (string * string)) : sql RowDb (option (list Column)) :=
  if negb (idents_ok t key.*1) then sql_lift (Err (SqlOther ("invalid identifier on " +:+ t)))
  else
    let prepare := "row image prepare " +:+ t in
    _ ← needs_clause prepare key;
    _ ← needs_columns prepare t key.*1;
    _ ← sql_try prepare;
    _ ← sql_try ("row image query " +:+ t);
    _ ← sql_try ("row image row " +:+ t);
    row ← sql_get (λ s, head (filter (λ r, pair_matches t key r = true) (rows_of t s)));
    mret (row_image <$> row).
Definition read_row_image (t id_col id : string) : sql RowDb (option (list Column)) := read_row_image_keyed t [(id_col, id)].

(** The key of a row as [String]s, which only a text is read as. *)
Definition key_texts (key_cols : list string) (r : Row) : result string (list string) :=
  try_map (λ c, match cell c r with Some (SqlText v) => Ok v | _ => Err (invalid_column_type 0) end) key_cols.

Fixpoint chunk_images (t : string) (key_cols : list string) (rows : list Row) (images : gmap string (list Column))
    : sql RowDb (gmap string (list Column)) :=
  match rows with
  | [] => mret images
  | r :: rows =>
      _ ← sql_try ("row reconcile chunk row " +:+ t);
      values ← sql_lift (row_error ("row reconcile chunk key " +:+ t) (key_texts key_cols r));
      chunk_images t key_cols rows (<[row_pk_of (zip key_cols values) := row_image r]> images)
  end.
Definition read_row_images_chunk (t : string) (key_cols : list string) (chunk : list (list string))
    : sql RowDb (gmap string (list Column)) :=
  if decide (chunk = []) then mret ∅
  else if negb (idents_ok t key_cols)
  then sql_lift (Err (SqlOther ("invalid identifier in row reconcile chunk for " +:+ t)))
  else
    let prepare := "row reconcile chunk prepare " +:+ t in
    _ ← needs_clause prepare key_cols;
    _ ← needs_columns prepare t key_cols;
    _ ← sql_try prepare;
    let parameters := concat chunk in
    let expected := length chunk * length key_cols in
    _ ← sql_lift (if decide (length parameters = expected) then Ok ()
                  else Err (sql_error ("row reconcile chunk query " +:+ t)
                    (invalid_parameter_count (length parameters) expected)));
    _ ← sql_try ("row reconcile chunk query " +:+ t);
    rows ← sql_get (λ s, filter (λ r, existsb (λ key, pair_matches t (zip key_cols key) r)
      (chunks (length parameters) (length key_cols) parameters) = true) (rows_of t s));
    images ← chunk_images t key_cols rows ∅;
    _ ← sql_try ("row reconcile chunk row " +:+ t);
    mret images.

Definition table_key_page (t : string) (key_cols : list string) (after : list string) (limit : Z)
    : sql RowDb (list (list string)) :=
  let context := "row reconcile scan " +:+ t in
  if negb (idents_ok t key_cols) then sql_lift (Err (SqlOther ("invalid identifier in row reconcile scan for " +:+ t)))
  else if bool_decide (after ≠ []) && bool_decide (length after ≠ length key_cols)
  then sql_lift (Err (SqlOther ("row reconcile cursor for " +:+ t +:+ " has " +:+ pretty (length after) +:+
    " values for " +:+ pretty (length key_cols) +:+ " key columns")))
  else
    _ ← needs_clause context key_cols;
    _ ← needs_columns context t key_cols;
    _ ← sql_try context;
    _ ← sql_try context;
    rows ← sql_get (λ s,
      let rows := rows_of t s in
      let rows := if decide (after = []) then rows
                  else filter (λ r, key_above t key_cols (SqlText <$> after) r = true) rows in
      sql_limit (as_i64 limit) (key_order t key_cols rows));
    sql_rows context (λ r, Some <$> row_error context (key_texts key_cols r)) rows.

Definition delete_row (t : string) (key : list (string * string)) : sql RowDb () :=
  let context := "row reconcile tombstone finish " +:+ t in
  _ ← needs_clause context key;
  _ ← needs_columns context t key.*1;
  _ ← sql_try context;
  violated ← sql_get (λ s, delete_violates (rd_fk s) (rd_tables s) t (filter (λ r, pair_matches t key r = true) (rows_of t s)));
  _ ← sql_lift (match violated with Some code => Err (sql_error context (code_display code)) | None => Ok () end);
  sql_mod (λ s, set_table t (filter (λ r, pair_matches t key r = false) (rows_of t s)) s).

Definition key_fields (key : list (string * string)) : list KeyField := (λ p, mk_KeyField p.1 (TextVal p.2)) <$> key.

(** ** Batches, sweeps and cursors *)

Record OpBatch : Type := mk_batch { ob_records : list ProxyDbOp }.
Definition batch_upsert (b : OpBatch) (t : string) (key : list KeyField) (columns : list Column) : OpBatch :=
  mk_batch (ob_records b ++ [mk_ProxyDbOp t key (Upsert columns)]).
Definition batch_delete (b : OpBatch) (t : string) (key : list KeyField) : OpBatch :=
  mk_batch (ob_records b ++ [mk_ProxyDbOp t key Delete]).
Definition batch_is_empty (b : OpBatch) : bool := bool_decide (ob_records b = []).

Record RowSweep : Type := mk_sweep { rw_minted : Z; rw_deleted : Z; rw_deferred : bool }.
Definition sweep_is_noop (w : RowSweep) : bool := bool_decide (rw_minted w = 0)%Z && bool_decide (rw_deleted w = 0)%Z.

Inductive RowReconcilePhase : Type := Tombstones | Mint.
Record RowReconcileCursor : Type := mk_reconcile {
  rr_version : Z;
  rr_phase : RowReconcilePhase;
  rr_table_index : nat;
  rr_after : list string;
}.
Definition reconcile_initial : RowReconcileCursor := mk_reconcile ROW_RECONCILE_REPAIR_VERSION Tombstones 0 [].
Definition reconcile_is_valid (c : RowReconcileCursor) (tables : list (string * list string)) : bool :=
  if decide (rr_version c ≠ ROW_RECONCILE_REPAIR_VERSION ∨ length tables < rr_table_index c) then false
  else match tables !! rr_table_index c with
       | None => bool_decide (rr_after c = [])
       | Some (_, key_cols) => bool_decide (rr_after c = []) || bool_decide (length (rr_after c) = length key_cols)
       end.

Definition note_peer_drained (peer : DeviceId) (now : string) : sql RowDb () :=
  _ ← sql_try "note peer drained";
  sql_mod (λ s, mk_row_db (rd_db s) (rd_tables s) (rd_fk s) (rd_in_txn s) (<[vec_to_list peer := now]> (rd_drains s))).

(** ** Divergence *)

Inductive RowDivergence : Type := Covered | Uncovered | Tombstoned.
Definition row_divergence (newest_payload : option bytes) (live : list Column) (volatile : list string)
    : result SqliteError RowDivergence :=
  match newest_payload with
  | None => Ok Uncovered
  | Some [] => Ok Covered
  | Some payload =>
      op ← map_err (λ e, sql_error "decode row op" (pc_display e)) (decode_bytes payload);
      Ok (match ro_mutation op with
          | Upsert columns => if material_image_matches columns live volatile then Covered else Uncovered
          | Delete => Tombstoned
          end)
  end.
End rows.
