(* ===== verification/SqlConverge.v ===== *)
(** * Rows converge whatever order their ops arrive in

    Admitting a row op appends it to the log and writes it if no newer op of
    its row is logged ([oplog::append], [rows::write_row_if_newer]).  For ops
    that carry full row images the row left behind is the one of the op with
    the greatest key, in every order of arrival. *)

From S2P Require Import Prelude Ordered External Toy Identity Text Words Op RowOp Log Pull Sql SqlDb SqlLog SqlHeads SqlRefine SqlRows.
Import BTree.

(** ** Values that compare equal *)

(** The zeros of [f64] are equal and have different bits. *)
Definition same_value (a b : SqlValue) : Prop :=
  a = b ∨ ∃ x y, a = SqlReal x ∧ b = SqlReal y ∧ (x mod 2 ^ 63 = 0)%Z ∧ (y mod 2 ^ 63 = 0)%Z.
#[export] Instance same_value_equiv : Equivalence same_value.
Proof.
  split.
  - by left.
  - intros a b [->|(x & y & -> & -> & Hx & Hy)]; [by left|]. right. by exists y, x.
  - intros a b c [->|(x & y & -> & -> & Hx & Hy)]; [done|]. intros [<-|(x' & z & [= <-] & -> & _ & Hz)]; right; eauto 10.
Qed.
Definition same_row (r r' : Row) : Prop := Forall2 (λ p q, p.1 = q.1 ∧ same_value p.2 q.2) r r'.
#[export] Instance same_row_equiv : Equivalence same_row.
Proof.
  unfold same_row. split.
  - intros r. apply Forall_Forall2_diag, Forall_forall. done.
  - intros r r' Hr. apply Forall2_flip. eapply Forall2_impl; [exact Hr|]. by intros p q [-> ?%symmetry].
  - intros r1 r2 r3 H12. revert r3. induction H12 as [|p q r1 r2 [Hn Hv] _ IH]; intros r3; inversion 1 as [|? w ? r3' [Hn' Hv']]; subst; constructor; [|auto].
    split; [by rewrite Hn|]. by etrans.
Qed.

Lemma scalar_eqb_same v x : scalar_eqb (from_sql v) x = true → same_value v (into_sql x).
Proof.
  unfold scalar_eqb, f64_eqb. destruct v, x; cbn; intros Heq;
    repeat match goal with
    | H : _ && _ = true |- _ => apply andb_true_iff in H as [? H]
    | H : _ || _ = true |- _ => apply orb_true_iff in H as [H|H]
    | H : bool_decide _ = true |- _ => apply bool_decide_eq_true in H
    end; simplify_eq; try by left. right. eauto 10.
Qed.

(** ** One row's table *)

Section table.
Context `{Rusqlite, HostSchema}.

(** A key column of text affinity and binary collation. *)
Definition text_column (t c : string) : Prop :=
  (∀ v, stored t c (SqlText v) = SqlText v) ∧ ∀ w v, matches t c w (SqlText v) = true ↔ w = SqlText v.

Context (t : string) (schema : list string) (key : list (string * string)).
Context (Htable : is_valid_ident t = true) (Hidents : Forall (λ c, is_valid_ident c = true) schema).
Context (Hschema : NoDup schema) (Hkey : key ≠ []) (Hcols : ∀ c, c ∈ key.*1 → c ∈ schema).
Context (Htext : ∀ c, c ∈ key.*1 → text_column t c).
(** What a column keeps, it keeps as it is. *)
Context (Hstored : ∀ c v, stored t c (stored t c v) = stored t c v).
Context (Hzeros : ∀ c v w, same_value v w → same_value (stored t c v) (stored t c w)).
(** The table has no constraint but its key, and no other table refers to it. *)
Context (Hinsert : ∀ fk tables new, insert_violates fk tables t key.*1 new = None).
Context (Hdelete : ∀ fk tables rows, delete_violates fk tables t rows = None).
Implicit Types (s : RowDb) (r : Row).

Definition row_wf r : Prop := r.*1 = schema ∧ Forall (λ p, stored t p.1 p.2 = p.2) r.
Definition keyed (s : RowDb) : list Row := filter (λ r, key_matches t (key_fields key) r = true) (rows_of t s).
Record table_ok (s : RowDb) : Prop := {
  to_table : ∃ rows, rd_tables s !! t = Some (mk_table schema rows);
  to_rows : Forall row_wf (rows_of t s);
  to_one : length (keyed s) ≤ 1;
}.
(** A full image of the row of that key. *)
Definition full_image (columns : list Column) : Prop :=
  c_name <$> columns = schema ∧ ∀ c v, (c, v) ∈ key → mk_Column c (TextVal v) ∈ columns.

Lemma cell_in r c v : NoDup r.*1 → (c, v) ∈ r ↔ cell c r = Some v.
Proof.
  intros Hnd. unfold cell. induction r as [|[c' v'] r IH]; [split; [by intros ?%not_elem_of_nil|done]|].
  cbn in Hnd. apply NoDup_cons in Hnd as [Hni Hnd]. rewrite elem_of_cons, filter_cons. cbn. destruct (decide (c' = c)) as [->|Hne].
  - cbn. split; [|by intros [= ->]; left]. intros [[= ->]|Hin]; [done|]. exfalso. apply Hni. by apply (list_elem_of_fmap_2 fst) in Hin.
  - rewrite <-IH by done. split; [|by right]. intros [[= -> ->]|?]; done.
Qed.

Lemma schema_nonempty : schema ≠ [].
Proof. destruct key as [|[c v] l]; [done|]. intros Hs. specialize (Hcols c). rewrite Hs in Hcols. apply not_elem_of_nil in Hcols; [done|by left]. Qed.

Lemma head_named columns c x :
  c_name <$> columns = schema → x ∈ columns → c_name x = c → head (filter (λ x, c_name x = c) columns) = Some x.
Proof.
  intros Hn Hx Hc. rewrite <-Hn in Hschema. destruct (filter (λ x, c_name x = c) columns) as [|y l] eqn:Hf.
  - assert (Hin : x ∈ filter (λ x, c_name x = c) columns) by (by apply list_elem_of_filter). rewrite Hf in Hin. by apply not_elem_of_nil in Hin.
  - assert (Hin : y ∈ filter (λ x, c_name x = c) columns) by (rewrite Hf; by left). apply list_elem_of_filter in Hin as [Hy Hin].
    cbn. f_equal. apply (key_inj c_name columns); [done..|congruence].
Qed.

Lemma proposed_wf columns : full_image columns → row_wf (proposed t schema columns).
Proof.
  intros [Hn _]. split.
  - unfold proposed. rewrite <-list_fmap_compose. by apply list_fmap_id.
  - apply Forall_fmap, Forall_forall. intros c Hc. cbn. rewrite <-Hn in Hc. apply list_elem_of_fmap in Hc as (x & -> & Hx).
    by rewrite (head_named _ _ x Hn Hx).
Qed.

Lemma rows_eq r r' : r.*1 = r'.*1 → NoDup r.*1 → (∀ c, c ∈ r.*1 → cell c r = cell c r') → r = r'.
Proof.
  revert r'. induction r as [|[c v] r IH]; intros [|[c' v'] r'] Hf Hnd Hc; try done. cbn in Hf. injection Hf as <- Hf.
  cbn in Hnd. apply NoDup_cons in Hnd as [Hni Hnd]. f_equal.
  - specialize (Hc c ltac:(by left)). unfold cell in Hc. rewrite !filter_cons_True in Hc by done. cbn in Hc. congruence.
  - apply IH; [done..|]. intros c' Hin. specialize (Hc c' ltac:(by right)). unfold cell in *.
    rewrite !filter_cons_False in Hc by (cbn; by intros ->). done.
Qed.

Lemma cell_some r c : c ∈ r.*1 → ∃ v, cell c r = Some v ∧ (c, v) ∈ r.
Proof.
  intros ([c' v] & -> & Hin)%list_elem_of_fmap. cbn. unfold cell. destruct (filter (λ p, p.1 = c') r) as [|[c'' w] l] eqn:Hf.
  - assert (Hx : (c', v) ∈ filter (λ p, p.1 = c') r) by (by apply list_elem_of_filter). rewrite Hf in Hx. by apply not_elem_of_nil in Hx.
  - assert (Hx : (c'', w) ∈ filter (λ p, p.1 = c') r) by (rewrite Hf; by left). apply list_elem_of_filter in Hx as [Hc Hx]. cbn in Hc. subst. by exists w.
Qed.

Lemma proposed_cell columns x :
  full_image columns → x ∈ columns → cell (c_name x) (proposed t schema columns) = Some (stored t (c_name x) (into_sql (c_value x))).
Proof.
  intros Hi Hx. destruct (proposed_wf columns Hi) as [Hf _]. apply cell_in; [by rewrite Hf|]. destruct Hi as [Hn _].
  apply list_elem_of_fmap. exists (c_name x). rewrite (head_named _ _ x Hn Hx) by done. split; [done|].
  rewrite <-Hn. by apply list_elem_of_fmap_2.
Qed.
Lemma proposed_key columns c v : full_image columns → (c, v) ∈ key → cell c (proposed t schema columns) = Some (SqlText v).
Proof.
  intros Hi Hin. destruct (Htext c) as [Hst _]; [by apply (list_elem_of_fmap_2 fst) in Hin|].
  pose proof (proposed_cell columns (mk_Column c (TextVal v)) Hi (proj2 Hi _ _ Hin)) as Hp. cbn in Hp. by rewrite Hp, Hst.
Qed.

Lemma key_matches_iff r :
  key_matches t (key_fields key) r = true ↔ ∀ c v, (c, v) ∈ key → cell c r = Some (SqlText v).
Proof.
  unfold key_matches, key_fields. rewrite forallb_forall. split.
  - intros Hall c v Hin. specialize (Hall (mk_KeyField c (TextVal v))). cbn in Hall.
    assert (Hx : In (mk_KeyField c (TextVal v)) ((λ p, mk_KeyField p.1 (TextVal p.2)) <$> key)).
    { apply list_elem_of_In, list_elem_of_fmap. by exists (c, v). }
    specialize (Hall Hx). destruct (cell c r) as [w|]; [|done]. f_equal. apply (proj2 (Htext c (list_elem_of_fmap_2 fst _ _ Hin))), Hall.
  - intros Hall x Hx. apply list_elem_of_In, list_elem_of_fmap in Hx as ([c v] & -> & Hin). cbn. rewrite (Hall c v Hin).
    by apply (proj2 (Htext c (list_elem_of_fmap_2 fst _ _ Hin))).
Qed.

Lemma target_fields : kf_col <$> key_fields key = key.*1.
Proof. unfold key_fields. rewrite <-list_fmap_compose. by apply list_fmap_ext. Qed.

Lemma conflicts_key columns r :
  full_image columns → conflicts t key.*1 (proposed t schema columns) r = key_matches t (key_fields key) r.
Proof.
  intros Hi. unfold conflicts, key_matches, key_fields. assert (Hsub : ∀ p, p ∈ key → p ∈ key) by done. revert Hsub.
  generalize key at 1 3 4 as l. intros l. induction l as [|[c v] l IH]; intros Hsub; [done|]. cbn.
  rewrite (proposed_key columns c v Hi) by (apply Hsub; by left). f_equal. apply IH. intros p Hp. apply Hsub. by right.
Qed.

(** A row of that key, every other column assigned, is the proposed row. *)
Lemma updated_row columns r :
  full_image columns → row_wf r → key_matches t (key_fields key) r = true →
  updated (filter (λ c, c ∉ key.*1) schema) (proposed t schema columns) r = proposed t schema columns.
Proof.
  intros Hi [Hf _] Hk. destruct (proposed_wf columns Hi) as [Hp _].
  assert (Hu : (updated (filter (λ c, c ∉ key.*1) schema) (proposed t schema columns) r).*1 = r.*1).
  { unfold updated. rewrite <-list_fmap_compose. apply list_fmap_ext. intros i [c v] _. cbn. by case_decide. }
  apply rows_eq; [by rewrite Hu, Hf, Hp|by rewrite Hu, Hf|]. intros c Hc. rewrite Hu in Hc.
  destruct (cell_some _ _ Hc) as (v & _ & Hin). rewrite Hf in Hc.
  destruct (cell_some (proposed t schema columns) c) as (w & Hw & _); [by rewrite Hp|]. rewrite Hw. apply cell_in; [by rewrite Hu, Hf|].
  apply list_elem_of_fmap. exists (c, v). split; [|done]. cbn. rewrite Hw. case_decide as Hd; [done|].
  rewrite list_elem_of_filter in Hd. destruct (decide (c ∈ key.*1)) as [Hck|]; [|tauto].
  apply list_elem_of_fmap in Hck as ([c' k] & -> & Hck). cbn in *. rewrite (proposed_key _ _ _ Hi Hck) in Hw.
  pose proof (proj1 (key_matches_iff r) Hk c' k Hck) as Hr. apply cell_in in Hin; [|by rewrite Hf]. congruence.
Qed.

(** A row whose image compares equal is the proposed row, zeros aside. *)
Lemma equal_row columns r :
  full_image columns → row_wf r → image_equals columns r = true → same_row r (proposed t schema columns).
Proof.
  intros Hi [Hf Hst] Heq. unfold same_row, proposed. rewrite <-Hf at 1. rewrite <-list_fmap_compose.
  apply Forall2_fmap_r, Forall_Forall2_diag, Forall_forall. intros [c v] Hin. cbn. split; [done|].
  assert (Hc : c ∈ schema) by (rewrite <-Hf; by apply (list_elem_of_fmap_2 fst) in Hin).
  destruct Hi as [Hn _]. rewrite <-Hn in Hc. apply list_elem_of_fmap in Hc as (x & -> & Hx).
  rewrite (head_named _ _ x Hn Hx) by done. unfold image_equals in Heq. rewrite forallb_forall in Heq.
  specialize (Heq x (proj1 (list_elem_of_In _ _) Hx)). rewrite (proj1 (cell_in r (c_name x) v ltac:(by rewrite Hf)) Hin) in Heq.
  apply scalar_eqb_same in Heq. rewrite Forall_forall in Hst. specialize (Hst _ Hin). cbn in Hst. rewrite <-Hst at 1. by apply Hzeros.
Qed.

(** ** Writing *)

Lemma no_bad_column columns : c_name <$> columns = schema → bad_column columns = None.
Proof.
  intros Hn. unfold bad_column. rewrite filter_none; [done|]. apply Forall_forall. intros x Hx.
  rewrite (proj1 (Forall_forall _ _) Hidents); [done|]. rewrite <-Hn. by apply list_elem_of_fmap_2.
Qed.
Lemma no_bad_key : bad_key (key_fields key) = None.
Proof.
  unfold bad_key. rewrite filter_none; [done|]. apply Forall_forall. intros f (p & -> & Hp)%list_elem_of_fmap. cbn.
  rewrite (proj1 (Forall_forall _ _) Hidents); [done|]. by apply Hcols, list_elem_of_fmap_2.
Qed.
Lemma key_present : key_missing schema (key_fields key) = false.
Proof.
  unfold key_missing, key_fields. apply not_true_iff_false. intros (f & Hf%list_elem_of_In & Hn%bool_decide_eq_true)%existsb_exists.
  apply list_elem_of_fmap in Hf as (p & -> & Hp). apply Hn. by apply Hcols, (list_elem_of_fmap_2 fst).
Qed.

Lemma rows_of_set_table s rows rows' : rd_tables s !! t = Some (mk_table schema rows) → rows_of t (set_table t rows' s) = rows'.
Proof. intros Ht. unfold rows_of, set_table. cbn. by rewrite lookup_alter_eq, Ht. Qed.
Lemma table_set_table s rows rows' :
  rd_tables s !! t = Some (mk_table schema rows) → rd_tables (set_table t rows' s) !! t = Some (mk_table schema rows').
Proof. intros Ht. unfold set_table. cbn. by rewrite lookup_alter_eq, Ht. Qed.

(** An [INSERT .. ON CONFLICT] of a full image leaves that image in the key's row. *)
Lemma upsert_rows_keyed columns s rows :
  full_image columns → rd_tables s !! t = Some (mk_table schema rows) → table_ok s →
  let new := proposed t schema columns in
  let s' := set_table t (upsert_rows t key.*1 (filter (λ c, c ∉ key.*1) schema) new (rows_of t s)) s in
  table_ok s' ∧ keyed s' = [new].
Proof.
  intros Hi Ht [_ Hwf Hone] new s'. pose proof (proposed_wf columns Hi) as Hnew. fold new in Hnew.
  assert (Hkn : key_matches t (key_fields key) new = true) by (apply key_matches_iff; intros c v Hin; by apply proposed_key).
  assert (Hrows : rows_of t s' = upsert_rows t key.*1 (filter (λ c, c ∉ key.*1) schema) new (rows_of t s)) by (by eapply rows_of_set_table).
  assert (Hmap : ((λ r, if conflicts t key.*1 new r then updated (filter (λ c, c ∉ key.*1) schema) new r else r) <$> rows_of t s) =
    (λ r, if key_matches t (key_fields key) r then new else r) <$> rows_of t s).
  { apply list_fmap_ext. intros i r Hr%list_elem_of_lookup_2. subst new. rewrite conflicts_key by done.
    destruct (key_matches t (key_fields key) r) eqn:Hk; [|done]. apply updated_row; [done| |done]. by apply (proj1 (Forall_forall _ _) Hwf). }
  assert (Hres : Forall row_wf (rows_of t s') ∧ keyed s' = [new]).
  2:{ destruct Hres as [? Hk]. split; [|done]. split; [eexists; by eapply table_set_table|done|]. by rewrite Hk. }
  unfold keyed in *. rewrite Hrows. unfold upsert_rows. destruct (existsb (conflicts t key.*1 new) (rows_of t s)) eqn:Hex.
  - rewrite Hmap. apply existsb_exists in Hex as (r & Hr%list_elem_of_In & Hc). subst new. rewrite conflicts_key in Hc by done.
    clear Hmap Hrows. split.
    + apply Forall_fmap. eapply Forall_impl; [exact Hwf|]. intros x Hx. cbn. by destruct (key_matches _ _ x).
    + clear Hwf. induction (rows_of t s) as [|x l IH]; [by apply not_elem_of_nil in Hr|]. rewrite fmap_cons, filter_cons.
      rewrite filter_cons in Hone. destruct (key_matches t (key_fields key) x) eqn:Hx.
      * rewrite decide_True in Hone by done. rewrite decide_True by done. f_equal. cbn in Hone.
        assert (Hnil : filter (λ r, key_matches t (key_fields key) r = true) l = []) by (apply length_zero_iff_nil; lia).
        clear -Hnil. induction l as [|y l IH]; [done|]. rewrite filter_cons in Hnil. rewrite fmap_cons, filter_cons.
        destruct (decide (key_matches t (key_fields key) y = true)) as [|Hy]; [done|]. apply not_true_is_false in Hy. rewrite Hy.
        rewrite decide_False by congruence. by apply IH.
      * rewrite decide_False in Hone by congruence. rewrite decide_False by congruence. apply IH; [done|].
        apply elem_of_cons in Hr as [->|]; [congruence|done].
  - split; [apply Forall_app; split; [done|by constructor]|]. rewrite filter_app, filter_cons_True, filter_nil by done.
    rewrite filter_none; [done|]. apply Forall_forall. intros r Hr Hk. apply not_true_iff_false in Hex. apply Hex.
    apply existsb_exists. exists r. split; [by apply list_elem_of_In|]. subst new. by rewrite conflicts_key.
Qed.

Lemma columns_runs s rows : rd_tables s !! t = Some (mk_table schema rows) → runs (local_table_columns t) s (Some schema) s.
Proof.
  intros Ht. unfold local_table_columns. do 2 (apply runs_bind; [apply _|]; exists (), s; split; [done|]).
  apply runs_bind; [apply _|]. eexists _, s. split; [by apply runs_get|]. apply runs_ret. split; [|done].
  unfold columns_of. rewrite Ht. cbn. rewrite decide_False; [done|]. by apply schema_nonempty.
Qed.

Lemma clause_runs context s : runs (needs_clause context (key_fields key)) s () s.
Proof. apply runs_lift. by destruct key. Qed.

Context (local : list string) (Hlocal : t ∉ local).

Lemma execute_runs context violates benign s :
  violates s = None → runs (sql_execute context violates benign) s true s.
Proof.
  intros Hv. unfold sql_execute. eapply (runs_then _ _ ()); [by apply runs_try|]. eapply (runs_then _ _ None); [by apply runs_get|]. by apply runs_ret.
Qed.
Lemma upsert_runs op columns s :
  ro_table op = t → ro_key op = key_fields key → ro_mutation op = Upsert columns → full_image columns → table_ok s →
  ∃ b s', runs (write_row op local) s b s' ∧ rd_db s' = rd_db s ∧ table_ok s' ∧
    ∃ r, keyed s' = [r] ∧ same_row r (proposed t schema columns).
Proof.
  intros Hop Hk Hm Hi Hok. destruct (to_table _ Hok) as (rows & Ht). pose proof (proj1 Hi) as Hn.
  assert (Hall : filter (λ c, c_name c ∈ schema) columns = columns).
  { apply filter_all, Forall_forall. intros x Hx. rewrite <-Hn. by apply list_elem_of_fmap_2. }
  assert (Hne : columns ≠ []) by (intros ->; by apply schema_nonempty).
  assert (Hpre : ∀ b s', runs (same ← upsert_matches_current_row op columns; if (same : bool) then mret false else upsert_statement op columns schema) s b s' →
    runs (write_row op local) s b s').
  { intros b s' Hr. unfold write_row. rewrite Hop, Htable, Hm. cbn [negb]. rewrite decide_False by done.
    eapply runs_then; [by eapply columns_runs|]. cbn beta iota. unfold write_upsert. rewrite no_bad_column by done. rewrite Hk, no_bad_key.
    do 2 (eapply runs_then; [by apply runs_lift|]). rewrite key_present, Hall. by rewrite decide_False. }
  set (cur := head (filter (λ r, key_matches t (key_fields key) r = true) (rows_of t s))).
  assert (Hcur : runs (upsert_matches_current_row op columns) s (match cur with Some r => image_equals columns r | None => false end) s).
  { unfold upsert_matches_current_row. rewrite Hop, Hk. eapply runs_then; [apply clause_runs|].
    eapply (runs_then _ _ ()); [by apply runs_try|]. eapply runs_then; [by apply runs_get|]. by apply runs_ret. }
  destruct (match cur with Some r => image_equals columns r | None => false end) eqn:Hsame.
  - exists false, s. split_and!; [|done..|].
    + apply Hpre. eapply runs_then; [exact Hcur|]. by apply runs_ret.
    + unfold keyed. pose proof (to_one _ Hok) as Hone. unfold keyed in Hone. subst cur.
      destruct (filter _ (rows_of t s)) as [|r [|r' l]] eqn:Hf; cbn in Hsame, Hone; [done| |lia].
      exists r. split; [done|]. apply equal_row; [done| |done].
      assert (Hin : r ∈ filter (λ r, key_matches t (key_fields key) r = true) (rows_of t s)) by (rewrite Hf; by left).
      apply list_elem_of_filter in Hin as [_ Hin]. by apply (proj1 (Forall_forall _ _) (to_rows _ Hok)).
  - destruct (upsert_rows_keyed columns s rows Hi Ht Hok) as [Hok' Hkeyed].
    eexists true, _. split_and!; [|..|exists (proposed t schema columns); split; [exact Hkeyed|done]]; [|done|exact Hok'].
    apply Hpre. eapply runs_then; [exact Hcur|]. cbn beta iota. unfold upsert_statement. rewrite Hop, Hk, Hn, target_fields.
    eapply runs_then; [by apply execute_runs|]. cbn beta iota. eapply (runs_then _ _ ()); [by apply runs_mod|]. by apply runs_ret.
Qed.

Lemma delete_runs op s :
  ro_table op = t → ro_key op = key_fields key → ro_mutation op = Delete → table_ok s →
  ∃ b s', runs (write_row op local) s b s' ∧ rd_db s' = rd_db s ∧ table_ok s' ∧ keyed s' = [].
Proof.
  intros Hop Hk Hm Hok. destruct (to_table _ Hok) as (rows & Ht).
  set (s' := set_table t (filter (λ r, key_matches t (key_fields key) r = false) (rows_of t s)) s).
  assert (Hrows : rows_of t s' = filter (λ r, key_matches t (key_fields key) r = false) (rows_of t s)) by (by eapply rows_of_set_table).
  assert (Hnil : keyed s' = []).
  { unfold keyed. rewrite Hrows. apply filter_none, Forall_forall. intros r [Hr _]%list_elem_of_filter. congruence. }
  exists true, s'. split_and!; [|done| |done].
  - unfold write_row. rewrite Hop, Htable, Hm. cbn [negb]. rewrite decide_False by done.
    eapply runs_then; [by eapply columns_runs|]. cbn beta iota. unfold write_delete. rewrite Hop, Hk, no_bad_key.
    eapply runs_then; [by apply runs_lift|]. rewrite key_present. eapply runs_then; [apply clause_runs|].
    eapply runs_then; [by apply execute_runs|]. cbn beta iota. eapply (runs_then _ _ ()); [by apply runs_mod|]. by apply runs_ret.
  - split; [eexists; by eapply table_set_table| |by rewrite Hnil; cbn; lia].
    rewrite Hrows. apply Forall_forall. intros r [_ Hr]%list_elem_of_filter. by apply (proj1 (Forall_forall _ _) (to_rows _ Hok)).
Qed.
End table.

(** ** Admission *)

Lemma newest_aligned {A B K L} `{OrdOk K, OrdOk L} (ka : A → K) (kb : B → L) (R : A → B → Prop) l l' :
  Forall2 R l l' → NoDup (ka <$> l) → (∀ a b a' b', R a b → R a' b' → kb b ⪯ kb b' → ka a ⪯ ka a') →
  option_Forall2 R (newest ka l) (newest kb l').
Proof.
  intros Hall Hnd Hle. destruct (newest kb l') as [r|] eqn:Hn.
  - apply newest_some in Hn as [Hr Hmax]. apply list_elem_of_lookup in Hr as (i & Hi).
    destruct (Forall2_lookup_r _ _ _ _ _ Hall Hi) as (a & Ha & Hra).
    rewrite (newest_unique ka l a); [by constructor|done|by eapply list_elem_of_lookup_2|].
    intros x (j & Hj)%list_elem_of_lookup. destruct (Forall2_lookup_l _ _ _ _ _ Hall Hj) as (b & Hb & Hxb).
    eapply Hle; [exact Hxb|exact Hra|]. apply Hmax. by eapply list_elem_of_lookup_2.
  - apply newest_none in Hn. subst l'. apply Forall2_nil_inv_r in Hall. subst l. constructor.
Qed.

Section converge.
Context `{Rusqlite, Postcard, !Wire EnvelopeRepr, !WireOk EnvelopeRepr, !Wire ProxyDbOp, HostSchema} (f64_debug : Z → string).

(** An op that arrives is appended and, when it is new, written unless a newer
    op of its row is logged. *)
Definition admit_row (origin : Z) (local : list string) (stamp : ArrivalStamp) (sop : SignedOp) (op : ProxyDbOp) : sql RowDb bool :=
  new ← on_log (oplog_append stamp sop (ro_table op) (row_pk f64_debug op) origin);
  if (new : bool) then write_row_if_newer f64_debug (as_str (op_store (op_body sop))) op (order_key sop) local else mret false.
Fixpoint admit_rows (origin : Z) (local : list string) (l : list (ArrivalStamp * (SignedOp * ProxyDbOp))) : sql RowDb () :=
  match l with
  | [] => mret ()
  | (stamp, (sop, op)) :: l => _ ← admit_row origin local stamp sop op; admit_rows origin local l
  end.

Context (store t : string) (schema : list string) (key : list (string * string)) (origin : Z) (local : list string).

(** The schema of the row, and what its ops carry. *)
Record host_table : Prop := {
  ht_table : is_valid_ident t = true;
  ht_idents : Forall (λ c, is_valid_ident c = true) schema;
  ht_schema : NoDup schema;
  ht_key : key ≠ [];
  ht_cols c : c ∈ key.*1 → c ∈ schema;
  ht_text c : c ∈ key.*1 → text_column t c;
  ht_stored c v : stored t c (stored t c v) = stored t c v;
  ht_zeros c v w : same_value v w → same_value (stored t c v) (stored t c w);
  ht_insert fk tables new : insert_violates fk tables t key.*1 new = None;
  ht_delete fk tables rows : delete_violates fk tables t rows = None;
  ht_local : t ∉ local;
}.
Record row_item (it : SignedOp * ProxyDbOp) : Prop := {
  ri_decodes : decode_bytes (op_payload (op_body it.1)) = Ok it.2;
  ri_store : as_str (op_store (op_body it.1)) = store;
  ri_table : ro_table it.2 = t;
  ri_key : ro_key it.2 = key_fields key;
  ri_image columns : ro_mutation it.2 = Upsert columns → full_image schema key columns;
  ri_version : op_v (op_body it.1) = ENVELOPE_VERSION;
  ri_hlc : (0 ≤ op_hlc (op_body it.1) ≤ i64_max)%Z;
  ri_encodes : ∃ envelope, op_to_bytes it.1 = Ok envelope;
}.
Definition item_key (it : SignedOp * ProxyDbOp) : OrderKey := order_key it.1.

(** What the newest op leaves of the row it found. *)
Definition row_left (before : list Row) (w : option (SignedOp * ProxyDbOp)) (rows : list Row) : Prop :=
  match w with
  | None => rows = before
  | Some (_, op) =>
      match ro_mutation op with
      | Upsert columns => ∃ r, rows = [r] ∧ same_row r (proposed t schema columns)
      | Delete => rows = []
      end
  end.

Let pk := row_pk_of key.
Record admitted (before : list Row) (P : list (SignedOp * ProxyDbOp)) (s : RowDb) : Prop := {
  ad_ids : ids_distinct (rd_db s);
  ad_head : head_for (head_at store t pk (rd_db s)) (rows_at store t pk (rd_db s));
  ad_rows : Forall2 (λ it r, row_of_op it.1 r) P (rows_at store t pk (rd_db s));
  ad_table : table_ok t schema key s;
  ad_left : row_left before (newest item_key P) (keyed t key s);
}.

Lemma item_pk op : ro_key op = key_fields key → row_pk f64_debug op = pk.
Proof.
  intros Hk. unfold row_pk, pk, row_pk_of. rewrite Hk. unfold key_fields. rewrite <-list_fmap_compose. f_equal.
Qed.

Lemma item_u64 it : row_item it → u64_ok (op_hlc (op_body it.1)).
Proof. intros Hit. pose proof (ri_hlc _ Hit). unfold u64_ok. change i64_max with 9223372036854775807%Z in *. change u64_modulus with 18446744073709551616%Z. lia. Qed.

Lemma item_rows_le it r it' r' :
  row_item it → row_item it' → row_of_op it.1 r → row_of_op it'.1 r' → row_key r ⪯ row_key r' ↔ item_key it ⪯ item_key it'.
Proof.
  intros Hit Hit' (-> & _) (-> & _). pose proof (ri_hlc _ Hit). pose proof (ri_hlc _ Hit'). apply bind_key_ole; cbn; lia.
Qed.

Lemma on_log_runs {A} (m : sql Db A) s a d' : runs m (rd_db s) a d' → runs (on_log m) s a (set_rd_db d' s).
Proof. intros Hr. unfold runs, on_log, sql_zoom. by rewrite Hr. Qed.

(** The log after an append: one more row of the key, and the guard reads the
    newest of the others. *)
Lemma append_step P d stamp it :
  Forall row_item P → row_item it → ids_distinct d → head_for (head_at store t pk d) (rows_at store t pk d) →
  Forall2 (λ it r, row_of_op it.1 r) P (rows_at store t pk d) → NoDup (item_key <$> P) →
  vec_to_list (op_id it.1) ∉ or_op_id <$> db_oplog d →
  ∃ d', runs (oplog_append stamp it.1 t pk origin) d true d' ∧
    ids_distinct d' ∧ head_for (head_at store t pk d') (rows_at store t pk d') ∧
    Forall2 (λ it r, row_of_op it.1 r) (P ++ [it]) (rows_at store t pk d') ∧
    or_op_id <$> db_oplog d' = (or_op_id <$> db_oplog d) ++ [vec_to_list (op_id it.1)] ∧
    runs (newest_applied_in_store store t pk (op_id it.1)) d' (item_key <$> newest item_key P) d'.
Proof.
  intros HP Hit Hids Hhead Hrows Hnd Hfresh. destruct (ri_encodes _ Hit) as (envelope & Henv).
  destruct (append_runs d stamp it.1 t pk origin envelope Henv) as (new & d' & Hr). exists d'.
  pose proof (oplog_append_runs _ _ _ _ _ _ _ _ Hr) as Happ. destruct new; [|by destruct Happ].
  pose proof (append_ids _ _ _ _ _ _ _ Happ Hids) as Hids'.
  destruct (append_head _ _ _ _ _ _ _ store t pk Happ (ri_version _ Hit) Hids Hhead) as [Hhead' _].
  destruct (app_env _ _ _ _ _ _ _ Happ) as (env' & Henv' & Hlog).
  pose proof (rows_at_snoc d d' _ store t pk Hlog) as Hsnoc. rewrite decide_True in Hsnoc by (split_and!; [apply (ri_store _ Hit)|done..]).
  set (row := op_row _ _ _ _ _ _) in *.
  assert (Hrow : row_of_op it.1 row) by (apply op_row_of_op; [done|apply (ri_version _ Hit)]).
  assert (Hall : Forall2 (λ it r, row_of_op it.1 r) (P ++ [it]) (rows_at store t pk d')).
  { rewrite Hsnoc. apply Forall2_app; [done|]. by constructor. }
  assert (Hids_eq : or_op_id <$> db_oplog d' = (or_op_id <$> db_oplog d) ++ [vec_to_list (op_id it.1)])
    by (rewrite Hlog, fmap_app; done).
  split_and!; [done..|]. 
  assert (Hty : Forall row_typed (rows_at store t pk d')).
  { apply Forall_forall. intros r (j & Hj)%list_elem_of_lookup. destruct (Forall2_lookup_r _ _ _ _ _ Hall Hj) as (x & Hx & Hxr).
    exists x.1. split; [|done]. apply item_u64. apply (proj1 (Forall_forall _ _) (proj2 (Forall_app _ _ _) (conj HP (proj2 (Forall_singleton _ _) Hit)))).
    by eapply list_elem_of_lookup_2. }
  destruct (newest_applied_winner d' store t pk (op_id it.1) Hids' Hhead' Hty) as (k & Hk & Hw). unfold runs. rewrite Hk. do 2 f_equal.
  assert (Hothers : others_winner store t pk (op_id it.1) d' = newest row_key (rows_at store t pk d)).
  { unfold others_winner. fold (rows_at store t pk d'). rewrite Hsnoc, filter_app, filter_cons_False, filter_nil, app_nil_r by (intros Hn; by apply Hn).
    f_equal. apply filter_all, Forall_forall. intros r Hr' Heq. apply Hfresh. rewrite <-Heq. apply list_elem_of_fmap_2.
    by apply list_elem_of_filter in Hr' as [_ ?]. }
  rewrite Hothers in Hw.
  assert (Hal : option_Forall2 (λ it r, row_of_op it.1 r ∧ row_item it) (newest item_key P) (newest row_key (rows_at store t pk d))).
  { apply newest_aligned; [|done|].
    - clear -Hrows HP. induction Hrows; constructor; apply Forall_cons in HP as [? ?]; auto.
    - intros a b a' b' [Hab Ha] [Hab' Ha']. by apply item_rows_le. }
  destruct Hal as [w r [Hwr Hwi]|]; cbn in Hw; [|done]. destruct Hw as (op' & Hu' & Hop' & ->). cbn. f_equal.
  pose proof (order_key_of_row _ _ Hu' Hop') as Hko. rewrite (order_key_of_row _ _ (item_u64 _ Hwi) Hwr) in Hko. unfold item_key. congruence.
Qed.

Lemma table_frame d s : table_ok t schema key s → table_ok t schema key (set_rd_db d s).
Proof. by intros [Ht Hr Ho]. Qed.

(** A write of the newest op leaves its row. *)
Lemma write_step s it :
  host_table → row_item it → table_ok t schema key s →
  ∃ b s', runs (write_row it.2 local) s b s' ∧ rd_db s' = rd_db s ∧ table_ok t schema key s' ∧
    ∀ before, row_left before (Some it) (keyed t key s').
Proof.
  intros [] Hit Hok. destruct it as [sop op]. cbn [fst snd] in *. unfold row_left. destruct (ro_mutation op) as [columns|] eqn:Hm.
  - edestruct (upsert_runs t schema key) as (b & s' & Hr & Hd & Ht & Hk); [done..|apply (ri_table _ Hit)|apply (ri_key _ Hit)|exact Hm|by apply (ri_image _ Hit)|exact Hok|].
    exists b, s'. eauto.
  - edestruct (delete_runs t schema key) as (b & s' & Hr & Hd & Ht & Hk); [done..|apply (ri_table _ Hit)|apply (ri_key _ Hit)|exact Hm|exact Hok|].
    exists b, s'. eauto.
Qed.

Lemma admit_step before P s stamp it :
  host_table → Forall row_item P → row_item it → NoDup (item_key <$> P ++ [it]) →
  vec_to_list (op_id it.1) ∉ or_op_id <$> db_oplog (rd_db s) → admitted before P s →
  ∃ b s', runs (admit_row origin local stamp it.1 it.2) s b s' ∧ admitted before (P ++ [it]) s' ∧
    or_op_id <$> db_oplog (rd_db s') = (or_op_id <$> db_oplog (rd_db s)) ++ [vec_to_list (op_id it.1)].
Proof.
  intros Hht HP Hit Hnd Hfresh [Hids Hhead Hrows Htab Hleft].
  assert (HndP : NoDup (item_key <$> P)) by (rewrite fmap_app in Hnd; by apply NoDup_app in Hnd as [? _]).
  destruct (append_step P (rd_db s) stamp it HP Hit Hids Hhead Hrows HndP Hfresh) as (d' & Happ & Hids' & Hhead' & Hrows' & Hlog & Hnew).
  set (s1 := set_rd_db d' s). pose proof (table_frame d' s Htab) as Htab1.
  assert (Hpre : ∀ b s', runs (match item_key <$> newest item_key P with
      | Some current => if decide (item_key it ⪯ current) then mret false else write_row it.2 local
      | None => write_row it.2 local end) s1 b s' → runs (admit_row origin local stamp it.1 it.2) s b s').
  { intros b s' Hr. unfold admit_row. rewrite (item_pk _ (ri_key _ Hit)), (ri_table _ Hit).
    eapply runs_then; [apply on_log_runs, Happ|]. cbn beta iota. unfold write_row_if_newer.
    rewrite (item_pk _ (ri_key _ Hit)), (ri_table _ Hit), (ri_store _ Hit). eapply runs_then; [|exact Hr].
    change (runs (on_log (newest_applied_in_store store t pk (op_id it.1))) s1 (item_key <$> newest item_key P) s1).
    apply (on_log_runs _ s1 _ d'), Hnew. }
  assert (Hmax : newest item_key (P ++ [it]) = Some (match newest item_key P with
      | Some w => if decide (item_key w ≺ item_key it) then it else w | None => it end)).
  { apply newest_insert; [done|]. by rewrite Permutation_app_comm. }
  assert (Hwrite : newest item_key (P ++ [it]) = Some it → (∀ b s', runs (write_row it.2 local) s1 b s' → runs (admit_row origin local stamp it.1 it.2) s b s') →
    ∃ b s', runs (admit_row origin local stamp it.1 it.2) s b s' ∧ admitted before (P ++ [it]) s' ∧
    or_op_id <$> db_oplog (rd_db s') = (or_op_id <$> db_oplog (rd_db s)) ++ [vec_to_list (op_id it.1)]).
  { intros Hwin Hrun. destruct (write_step s1 it Hht Hit Htab1) as (b & s' & Hr & Hd & Ht & Hk). exists b, s'.
    assert (Hd' : rd_db s' = d') by (by rewrite Hd). split; [by apply Hrun|]. rewrite Hd'. split; [|done].
    split; rewrite ?Hd', ?Hwin; [done..|apply Hk]. }
  destruct (newest item_key P) as [w|]; cbn in Hpre.
  - destruct (decide (item_key w ≺ item_key it)) as [Hlt|Hge].
    + apply Hwrite; [done|]. intros b s' Hr. apply Hpre. rewrite decide_False; [done|]. by apply olt_not_ole.
    + exists false, s1. split; [|split; [|done]].
      * apply Hpre. rewrite decide_True by (by apply ole_not_olt). by apply runs_ret.
      * split; rewrite ?Hmax; done.
  - apply Hwrite; done.
Qed.

Lemma admit_all before P s l :
  host_table → Forall row_item P → Forall row_item l.*2 → NoDup (item_key <$> P ++ l.*2) →
  (∀ it, it ∈ l.*2 → vec_to_list (op_id it.1) ∉ or_op_id <$> db_oplog (rd_db s)) → NoDup ((λ it, op_id it.1) <$> l.*2) →
  admitted before P s → ∃ s', runs (admit_rows origin local l) s () s' ∧ admitted before (P ++ l.*2) s'.
Proof.
  intros Hht. revert P s. induction l as [|[stamp [sop op]] l IH]; intros P s HP Hl Hnd Hfresh Hid Had.
  { exists s. split; [done|]. by rewrite app_nil_r. }
  cbn in Hl, Hnd, Hid. apply Forall_cons in Hl as [Hit Hl]. apply NoDup_cons in Hid as [Hni Hid].
  rewrite (cons_middle (sop, op)), app_assoc in Hnd.
  destruct (admit_step before P s stamp (sop, op) Hht HP Hit) as (b & s1 & Hr & Had1 & Hlog).
  { rewrite fmap_app in Hnd. by apply NoDup_app in Hnd as [? _]. }
  { apply Hfresh. by left. }
  { done. }
  destruct (IH (P ++ [(sop, op)]) s1) as (s' & Hr' & Had').
  - apply Forall_app. by split; [|constructor].
  - done.
  - done.
  - intros it Hin. rewrite Hlog. intros [Hx|Hx%list_elem_of_singleton]%elem_of_app.
    + by apply (Hfresh it); [right|].
    + apply vec_to_list_inj2 in Hx. apply Hni. cbn in Hx. rewrite <-Hx. by apply (list_elem_of_fmap_2 (λ it, op_id it.1)).
  - done.
  - done.
  - exists s'. split; [|rewrite fmap_cons; cbn [snd]; by rewrite (cons_middle (sop, op)), app_assoc].
    cbn [admit_rows]. by eapply runs_then.
Qed.

(** The log and the table when [P] are the ops of the row logged so far: the row
    is the one the newest of them leaves, and any one when there are none. *)
Definition row_state (P : list (SignedOp * ProxyDbOp)) (s : RowDb) : Prop := Forall row_item P ∧ admitted (keyed t key s) P s.

(** C4: Rows converge.  The table is one of the host's whose key columns are text
    compared byte by byte, with no uniqueness constraint but the key and no table
    that refers to it ([host_table]); the log has the ops [P] of one of its rows,
    none at first, and the table the row they leave ([row_state]).  Further ops of
    the row, each a full image or a delete, new to the log and of an hlc an [i64]
    holds, are admitted in any two orders, when no statement fails, and both orders
    leave the same row: that of the op with the greatest key among [P] and the new
    ones (up to the sign of a floating-point zero), or no row when it is a delete. *)
Theorem row_lww_converges s P l1 l2 :
  host_table → row_state P s → l1.*2 ≡ₚ l2.*2 → Forall row_item l1.*2 →
  NoDup ((λ it, op_id it.1) <$> P ++ l1.*2) →
  (∀ it, it ∈ l1.*2 → vec_to_list (op_id it.1) ∉ or_op_id <$> db_oplog (rd_db s)) →
  ∃ s1 s2, runs (admit_rows origin local l1) s () s1 ∧ runs (admit_rows origin local l2) s () s2 ∧
    Forall2 same_row (keyed t key s1) (keyed t key s2) ∧
    row_left (keyed t key s) (newest item_key (P ++ l1.*2)) (keyed t key s1).
Proof.
  intros Hht [HP Had] Hp Hitems Hnd Hfresh.
  assert (Hkeys : ∀ l : list (SignedOp * ProxyDbOp), NoDup ((λ it, op_id it.1) <$> l) → NoDup (item_key <$> l)).
  { intros l Hl. apply (NoDup_fmap_1 ok_op_id). by rewrite <-list_fmap_compose. }
  assert (Hnew : NoDup ((λ it, op_id it.1) <$> l1.*2)) by (rewrite fmap_app in Hnd; by apply NoDup_app in Hnd as (_ & _ & ?)).
  destruct (admit_all (keyed t key s) P s l1 Hht) as (s1 & Hr1 & Had1); [done|done|by apply Hkeys|done|done|done|].
  destruct (admit_all (keyed t key s) P s l2 Hht) as (s2 & Hr2 & Had2); [done|by rewrite <-Hp|apply Hkeys; by rewrite <-Hp|intros it; rewrite <-Hp; apply Hfresh|by rewrite <-Hp|done|].
  exists s1, s2. pose proof (ad_left _ _ _ Had1) as Hl1. pose proof (ad_left _ _ _ Had2) as Hl2.
  rewrite (newest_perm item_key (P ++ l1.*2) (P ++ l2.*2)) in Hl2 by (by apply Hkeys || by rewrite Hp). split_and!; [done..| |done].
  unfold row_left in Hl1, Hl2. destruct (newest item_key (P ++ l1.*2)) as [[w op]|].
  - destruct (ro_mutation op) as [columns|].
    + destruct Hl1 as (r1 & -> & Hs1), Hl2 as (r2 & -> & Hs2). constructor; [|done]. etrans; [exact Hs1|]. by symmetry.
    + by rewrite Hl1, Hl2.
  - rewrite Hl1, Hl2. apply Forall_Forall2_diag, Forall_forall. done.
Qed.

(** A delete that a reference forbids is an answer, not a failure: the op stays
    in the log as the row's newest, and the row stays in the table. *)
Lemma referenced_delete_kept s op schema' :
  is_valid_ident (ro_table op) = true → ro_table op ∉ local → ro_mutation op = Delete → ro_key op ≠ [] →
  columns_of (ro_table op) s = schema' → schema' ≠ [] → bad_key (ro_key op) = None → key_missing schema' (ro_key op) = false →
  delete_violates (rd_fk s) (rd_tables s) (ro_table op)
    (filter (λ r, key_matches (ro_table op) (ro_key op) r = true) (rows_of (ro_table op) s)) = Some SQLITE_CONSTRAINT_FOREIGNKEY →
  runs (write_row op local) s false s.
Proof.
  intros Ht Hl Hm Hk Hc Hne Hbad Hkey Hv. unfold write_row. rewrite Ht, Hm. cbn [negb]. rewrite decide_False by done.
  apply (runs_then _ _ (Some schema') s).
  { unfold local_table_columns. do 2 (eapply (runs_then _ _ ()); [by apply runs_try|]).
    apply (runs_then _ _ schema' s); [by apply runs_get|]. apply runs_ret. by rewrite decide_False. }
  unfold write_delete. rewrite Hbad. eapply (runs_then _ _ ()); [by apply runs_lift|]. rewrite Hkey.
  apply (runs_then _ _ () s); [apply runs_lift; by destruct (ro_key op)|]. apply (runs_then _ _ false s); [|by apply runs_ret].
  unfold sql_execute. eapply (runs_then _ _ ()); [by apply runs_try|].
  apply (runs_then _ _ (Some SQLITE_CONSTRAINT_FOREIGNKEY) s); [by apply runs_get|]. rewrite decide_True by done. by apply runs_ret.
Qed.
End converge.
