(* ===== verification/SqlQuarantine.v ===== *)
(** * Quarantine and provenance ([src/sqlite/quarantine.rs])

    Ops whose signer no registry attests wait in [mesh_unverified_ops], within
    fixed capacities, until a replay applies or rejects them; and
    [mesh_verified_ops] records which logged envelopes were verified, so a
    repeated delivery is recognised as complete. *)

From stdpp Require Import pretty.
From S2P Require Import Prelude Ordered External Toy Identity Words Op RowOp Log Pull Sql SqlDb SqlLog SqlHeads SqlEdges.
Import BTree.

Definition MAX_QUARANTINED_OPS : Z := 250000.
Definition MAX_QUARANTINED_OPS_PER_PEER : Z := 50000.
Definition MAX_QUARANTINE_BYTES : Z := 2 * 1024 * 1024 * 1024.
Definition MAX_QUARANTINE_BYTES_PER_PEER : Z := 512 * 1024 * 1024.
Definition MAX_QUARANTINED_ENVELOPE_BYTES : Z := 64 * 1024 * 1024.
Definition MAX_INVALID_QUARANTINE_AUDIT_ROWS : Z := 10000.
Definition MAX_INVALID_QUARANTINE_ENVELOPE_BYTES : Z := 4 * 1024.
Definition QUARANTINE_REPLAY_BYTE_LIMIT : Z := 8 * 1024 * 1024.

Record QuarantineWriteReport : Type := mk_write_report { qw_inserted : nat; qw_total : Z }.
Record QuarantinedRow : Type := mk_quarantined { qr_candidate_id : bytes; qr_claimed_op_id : bytes; qr_envelope : bytes }.
Record QuarantineReplayError : Type := mk_replay_error { qe_candidate_id : bytes; qe_message : string; qe_terminal : bool }.

(** ** The replay's cadence *)

(** Readings of the monotonic clock, in milliseconds. *)
Record QuarantineReplayCadence : Type := mk_cadence { qc_last_attempt : option Z; qc_follow_up_due : bool }.
Definition cadence_due (c : QuarantineReplayCadence) (now : Z) (attestation_refreshed : bool) (rescan_interval : Z) : bool :=
  attestation_refreshed || qc_follow_up_due c ||
  match qc_last_attempt c with Some last => bool_decide (rescan_interval ≤ Z.max 0 (now - last))%Z | None => true end.
Definition record_attempt (now : Z) (applied : nat) : QuarantineReplayCadence :=
  mk_cadence (Some now) (bool_decide (0 < applied)).

Section quarantine.
Context `{Rusqlite, Crypto, Postcard, !Wire EnvelopeRepr}.
(** Which stored row an insert is ignored for: the host's unique constraint. *)
Context (conflicts : Unverified → Unverified → bool).
Implicit Types s : StoreDb.

(** ** Storing *)

Definition encode_candidate (op : SignedOp) : result SqliteError (SignedOp * barr 32 * bytes) :=
  envelope ← map_err (λ e, sql_error "encode quarantined op" (OpError_display e)) (op_to_bytes op);
  if decide (MAX_QUARANTINED_ENVELOPE_BYTES < len envelope)%Z
  then Err (SqlOther ("unverified envelope is " +:+ pretty (len envelope) +:+ " bytes; limit is " +:+
         pretty MAX_QUARANTINED_ENVELOPE_BYTES +:+ "; cursor held"))
  else Ok (op, sha256 envelope, envelope).
Definition encode_quarantined_candidates (skipped : list SignedOp) : result SqliteError (list (SignedOp * barr 32 * bytes)) :=
  try_map encode_candidate skipped.

Definition same_candidate (candidate peer : bytes) (u : Unverified) : Prop := uv_candidate u = candidate ∧ uv_peer u = peer.
#[export] Instance same_candidate_dec candidate peer u : Decision (same_candidate candidate peer u).
Proof. unfold same_candidate. apply _. Defined.

Definition pending_row (rowid : Z) (peer : DeviceId) (op : SignedOp) (candidate : barr 32) (envelope : bytes) (now : string) : Unverified :=
  mk_unverified rowid (vec_to_list candidate) (vec_to_list (op_id op)) (vec_to_list (op_device (op_body op)))
    (vec_to_list peer) envelope (len envelope) now now 0 None "pending".
Definition with_last_seen (now : string) (u : Unverified) : Unverified :=
  mk_unverified (uv_rowid u) (uv_candidate u) (uv_claimed u) (uv_signer u) (uv_peer u) (uv_envelope u) (uv_bytes u)
    (uv_first_seen u) now (uv_attempts u) (uv_error u) (uv_state u).
(** [UPDATE .. WHERE candidate_id = ?1 AND source_peer_id = ?2] *)
Definition update_candidate (candidate peer : bytes) (f : Unverified → Unverified) (us : list Unverified) : list Unverified :=
  (λ u, if decide (same_candidate candidate peer u) then f u else u) <$> us.

Definition live (u : Unverified) : Prop := uv_state u ≠ "invalid".
#[export] Instance live_dec u : Decision (live u).
Proof. unfold live. apply _. Defined.
Definition live_rows (us : list Unverified) : list Unverified := filter live us.
Definition peer_rows (peer : DeviceId) (us : list Unverified) : list Unverified :=
  filter (λ u, uv_peer u = vec_to_list peer) (live_rows us).
Definition sum_bytes (us : list Unverified) : Z := foldr Z.add 0%Z (uv_bytes <$> us).

Definition quarantine_one (peer : DeviceId) (now : string) (inserted : nat) (e : SignedOp * barr 32 * bytes) : sql StoreDb nat :=
  let '(op, candidate, envelope) := e in
  _ ← sql_try "quarantine mesh op";
  us ← sql_get sd_unverified;
  let row := pending_row (max_of (uv_rowid <$> us) + 1) peer op candidate envelope now in
  let fresh := negb (existsb (conflicts row) us) in
  _ ← sql_mod (λ s, if fresh then set_unverified (sd_unverified s ++ [row]) s else s);
  _ ← sql_try "refresh quarantined mesh op";
  _ ← sql_mod (λ s, set_unverified (update_candidate (vec_to_list candidate) (vec_to_list peer) (with_last_seen now) (sd_unverified s)) s);
  mret (if fresh then S inserted else inserted).

Definition quarantine_ops (peer : DeviceId) (envelopes : list (SignedOp * barr 32 * bytes)) (now : string)
    : sql StoreDb QuarantineWriteReport :=
  inserted ← sql_fold (quarantine_one peer now) 0 envelopes;
  _ ← sql_try "count quarantined mesh ops";
  rows ← sql_get (λ s, live_rows (sd_unverified s));
  _ ← sql_try "count peer quarantined mesh ops";
  own ← sql_get (λ s, peer_rows peer (sd_unverified s));
  if decide (MAX_QUARANTINED_OPS < len rows ∨ MAX_QUARANTINE_BYTES < sum_bytes rows ∨
             MAX_QUARANTINED_OPS_PER_PEER < len own ∨ MAX_QUARANTINE_BYTES_PER_PEER < sum_bytes own)%Z
  then sql_lift (Err (SqlOther ("mesh unverified-op quarantine capacity reached: total=" +:+ pretty (len rows) +:+
         " bytes=" +:+ pretty (sum_bytes rows) +:+ " peer_total=" +:+ pretty (len own) +:+
         " peer_bytes=" +:+ pretty (sum_bytes own) +:+ "; cursor held")))
  else mret (mk_write_report inserted (len rows)).

(** The signers not reported before, with the set of those reported; a poisoned
    lock reports none. *)
Definition new_unattested_signers (peer : DeviceId) (skipped : list SignedOp) (poisoned : bool)
    (reported : gset (string * string)) : list string * gset (string * string) :=
  if poisoned then ([], reported)
  else
    let signers := remove_dups ((λ op, DeviceId_to_hex (op_device (op_body op))) <$> skipped) in
    let fresh := filter (λ signer, (DeviceId_to_hex peer, signer) ∉ reported) signers in
    (fresh, list_to_set ((λ signer, (DeviceId_to_hex peer, signer)) <$> fresh) ∪ reported).

(** ** Replaying *)

Definition globally_trusted (s : StoreDb) (u : Unverified) : Prop :=
  Exists (λ r, dv_device_id r = encode_hex (uv_signer u) ∧ dv_trusted r = 1%Z) (db_devices (sd_db s)).
#[export] Instance globally_trusted_dec s u : Decision (globally_trusted s u).
Proof. unfold globally_trusted. apply _. Defined.

(** The loop over the rows, within the bytes of one replay: the first fits. *)
Fixpoint select_rows (rows : list Unverified) (selected : list QuarantinedRow) (selected_bytes : Z) : sql StoreDb (list QuarantinedRow) :=
  match rows with
  | [] => mret selected
  | u :: rows =>
      _ ← sql_try "read quarantined mesh replay";
      let bytes := Z.min usize_max (selected_bytes + len (uv_envelope u)) in
      if bool_decide (selected ≠ []) && bool_decide (QUARANTINE_REPLAY_BYTE_LIMIT < bytes)%Z then mret selected
      else select_rows rows (selected ++ [mk_quarantined (uv_candidate u) (uv_claimed u) (uv_envelope u)]) bytes
  end.
Definition quarantined_rows (peer : DeviceId) (limit : Z) (globally_trusted_only : bool) : sql StoreDb (list QuarantinedRow) :=
  _ ← sql_try "prepare quarantined mesh replay";
  _ ← sql_try "query quarantined mesh replay";
  rows ← sql_get (λ s, sql_limit (as_i64 limit) (order_by (λ u, (uv_attempts u, uv_first_seen u))
    (filter (λ u, globally_trusted_only = false ∨ globally_trusted s u) (peer_rows peer (sd_unverified s)))));
  select_rows rows [] 0.

Definition advance_attempt (u : Unverified) : Unverified :=
  mk_unverified (uv_rowid u) (uv_candidate u) (uv_claimed u) (uv_signer u) (uv_peer u) (uv_envelope u) (uv_bytes u)
    (uv_first_seen u) (uv_last_seen u) (uv_attempts u + 1) (uv_error u)
    (if decide (uv_state u = "out_of_scope") then "pending" else uv_state u).
Definition record_error (e : QuarantineReplayError) (u : Unverified) : Unverified :=
  mk_unverified (uv_rowid u) (uv_candidate u) (uv_claimed u) (uv_signer u) (uv_peer u) (uv_envelope u) (uv_bytes u)
    (uv_first_seen u) (uv_last_seen u) (uv_attempts u) (Some (qe_message e)) (if qe_terminal e then "invalid" else uv_state u).
Definition retain_out_of_scope (u : Unverified) : Unverified :=
  mk_unverified (uv_rowid u) (uv_candidate u) (uv_claimed u) (uv_signer u) (uv_peer u) (uv_envelope u) (uv_bytes u)
    (uv_first_seen u) (uv_last_seen u) (uv_attempts u) None "out_of_scope".
(** [SET envelope = substr(envelope, 1, ?1), envelope_bytes = MIN(envelope_bytes, ?1)] *)
Definition bound_evidence (u : Unverified) : Unverified :=
  if decide (uv_state u = "invalid" ∧ (MAX_INVALID_QUARANTINE_ENVELOPE_BYTES < uv_bytes u)%Z) then
    mk_unverified (uv_rowid u) (uv_candidate u) (uv_claimed u) (uv_signer u) (uv_peer u)
      (takeZ MAX_INVALID_QUARANTINE_ENVELOPE_BYTES (uv_envelope u)) (Z.min (uv_bytes u) MAX_INVALID_QUARANTINE_ENVELOPE_BYTES)
      (uv_first_seen u) (uv_last_seen u) (uv_attempts u) (uv_error u) (uv_state u)
  else u.
(** The row ids of the newest invalid rows, as many as the audit keeps. *)
Definition audit_rowids (us : list Unverified) : list Z :=
  uv_rowid <$> takeZ MAX_INVALID_QUARANTINE_AUDIT_ROWS
    (reverse (order_by (λ u, (uv_last_seen u, uv_rowid u)) (filter (λ u, uv_state u = "invalid") us))).
Definition bound_audit (us : list Unverified) : list Unverified :=
  let kept := audit_rowids us in
  filter (λ u, ¬ (uv_state u = "invalid" ∧ uv_rowid u ∉ kept)) us.

Definition update_each (context : string) (peer : DeviceId) (f : Unverified → Unverified) (ids : list bytes) : sql StoreDb () :=
  sql_fold (λ _ i, _ ← sql_try context;
    sql_mod (λ s, set_unverified (update_candidate i (vec_to_list peer) f (sd_unverified s)) s)) () ids.
Definition finish_quarantine_replay (peer : DeviceId) (scanned applied out_of_scope : list bytes) (errors : list QuarantineReplayError)
    : sql StoreDb () :=
  _ ← update_each "advance quarantined mesh attempt" peer advance_attempt scanned;
  _ ← sql_fold (λ _ e, _ ← sql_try "record quarantined mesh error";
        sql_mod (λ s, set_unverified (update_candidate (qe_candidate_id e) (vec_to_list peer) (record_error e) (sd_unverified s)) s)) () errors;
  _ ← sql_try "bound invalid mesh quarantine evidence";
  _ ← sql_mod (λ s, set_unverified (bound_evidence <$> sd_unverified s) s);
  _ ← sql_try "bound invalid mesh quarantine audit rows";
  _ ← sql_mod (λ s, set_unverified (bound_audit (sd_unverified s)) s);
  _ ← update_each "retain out-of-scope quarantined mesh op" peer retain_out_of_scope out_of_scope;
  sql_fold (λ _ i, _ ← sql_try "delete applied quarantined mesh op";
    sql_mod (λ s, set_unverified (filter (λ u, uv_claimed u ≠ i) (sd_unverified s)) s)) () applied.

(** ** Provenance *)

Record RemoteOpClassification : Type := mk_classification { rc_durable_exact : gset bytes; rc_completed : gset bytes }.

(** One envelope per claimed id; two different ones void it. *)
Definition add_candidate (m : gmap bytes (option (bytes * barr 32))) (i envelope : bytes) : gmap bytes (option (bytes * barr 32)) :=
  match m !! i with
  | None => <[i := Some (envelope, sha256 envelope)]> m
  | Some known => if decide (fst <$> known ≠ Some envelope) then <[i := None]> m else m
  end.
Fixpoint collect_candidates (ops : list SignedOp) (m : gmap bytes (option (bytes * barr 32)))
    : result SqliteError (gmap bytes (option (bytes * barr 32))) :=
  match ops with
  | [] => Ok m
  | op :: ops =>
      envelope ← map_err (λ e, sql_error "encode completed remote op candidate" (OpError_display e)) (op_to_bytes op);
      collect_candidates ops (add_candidate m (vec_to_list (op_id op)) envelope)
  end.

(** The applied, settled rows of a chunk of ids. *)
Definition settled (s : StoreDb) (chunk : list bytes) : list OplogRow :=
  filter (λ r, or_op_id r ∈ chunk ∧ or_applied r = 1%Z ∧ or_origin r ∈ [0; 1]%Z ∧ or_op_id r ∉ sd_pending_rows s) (db_oplog (sd_db s)).
Definition classify_row (candidates : gmap bytes (option (bytes * barr 32))) (c : RemoteOpClassification)
    (row : OplogRow * option bytes) : RemoteOpClassification :=
  let '(r, verified_digest) := row in
  match candidates !! or_op_id r with
  | Some (Some (envelope, digest)) =>
      let provenance_matches := bool_decide (or_origin r = ORIGIN_LOCAL) || bool_decide (verified_digest = Some (vec_to_list digest)) in
      if decide (envelope = or_envelope r) then
        mk_classification ({[or_op_id r]} ∪ rc_durable_exact c)
          (if provenance_matches then {[or_op_id r]} ∪ rc_completed c else rc_completed c)
      else c
  | _ => c
  end.
Definition classify_chunk (candidates : gmap bytes (option (bytes * barr 32))) (c : RemoteOpClassification) (chunk : list bytes)
    : sql StoreDb RemoteOpClassification :=
  _ ← sql_try "prepare completed remote ops";
  _ ← sql_try "query completed remote ops";
  rows ← sql_get (λ s, (λ r, (r, sd_verified s !! or_op_id r)) <$> settled s chunk);
  rows ← sql_rows "read completed remote op" (λ row, Ok (Some row)) rows;
  mret (foldl (classify_row candidates) c rows).
Definition CLASSIFY_CHUNK : nat := 500.
Definition classify_remote_ops (ops : list SignedOp) : sql StoreDb RemoteOpClassification :=
  if decide (ops = []) then mret (mk_classification ∅ ∅)
  else
    candidates ← sql_lift (collect_candidates ops ∅);
    let ids := (map_to_list candidates).*1 in
    sql_fold (classify_chunk candidates) (mk_classification ∅ ∅) (chunks (length ids) CLASSIFY_CHUNK ids).

Definition encode_verified_op (op : SignedOp) : result SqliteError (bytes * bytes * barr 32) :=
  envelope ← map_err (λ e, sql_error "encode verified remote op" (OpError_display e)) (op_to_bytes op);
  Ok (vec_to_list (op_id op), envelope, sha256 envelope).
Definition encode_verified_remote_ops (ops : list SignedOp) : result SqliteError (list (bytes * bytes * barr 32)) :=
  try_map encode_verified_op ops.

Definition record_verified_one (e : bytes * bytes * barr 32) : sql StoreDb () :=
  let '(i, envelope, digest) := e in
  _ ← sql_try "record verified remote op";
  logged ← sql_get (λ s, bool_decide (Exists (λ r, or_op_id r = i ∧ or_envelope r = envelope) (db_oplog (sd_db s))));
  _ ← sql_mod (λ s, if logged && bool_decide (sd_verified s !! i = None)
                     then set_verified (<[i := vec_to_list digest]> (sd_verified s)) s else s);
  _ ← sql_try "confirm verified remote op";
  recorded ← sql_get (λ s, bool_decide (sd_verified s !! i = Some (vec_to_list digest)));
  sql_lift (if (recorded : bool) then Ok ()
            else Err (SqlOther ("verified remote op " +:+ encode_hex i +:+ " is not durably present with the verified envelope"))).
Definition record_verified_ops (encoded : list (bytes * bytes * barr 32)) : sql StoreDb () :=
  _ ← sql_try "prepare verified-op record";
  _ ← sql_try "prepare verified-op check";
  sql_fold (λ _ e, record_verified_one e) () encoded.

(** ** The classification is exact *)

Definition cand_ok (P : list SignedOp) (m : gmap bytes (option (bytes * barr 32))) : Prop :=
  ∀ i, match m !! i with
       | None => ∀ op, op ∈ P → vec_to_list (op_id op) ≠ i
       | Some None => ∃ op op' e e', op ∈ P ∧ op' ∈ P ∧ vec_to_list (op_id op) = i ∧ vec_to_list (op_id op') = i ∧
           op_to_bytes op = Ok e ∧ op_to_bytes op' = Ok e' ∧ e ≠ e'
       | Some (Some (e, dig)) => dig = sha256 e ∧ (∃ op, op ∈ P ∧ vec_to_list (op_id op) = i) ∧
           ∀ op, op ∈ P → vec_to_list (op_id op) = i → op_to_bytes op = Ok e
       end.

Lemma add_candidate_ok P m op e : cand_ok P m → op_to_bytes op = Ok e → cand_ok (P ++ [op]) (add_candidate m (vec_to_list (op_id op)) e).
Proof.
  intros Hm He i. unfold add_candidate. pose proof (Hm (vec_to_list (op_id op))) as Hop. pose proof (Hm i) as Hi.
  destruct (decide (vec_to_list (op_id op) = i)) as [<-|Hne].
  - clear Hi. destruct (m !! vec_to_list (op_id op)) as [[[e0 dig]|]|] eqn:Hl.
    + destruct Hop as (-> & (op0 & Hin0 & Hid0) & Hall). cbn. case_decide as Hd.
      * rewrite lookup_insert_eq. exists op0, op, e0, e. rewrite !elem_of_app. split_and!; [by left|by right; left|done|done|by apply Hall|done|].
        intros ->. by apply Hd.
      * rewrite Hl. split_and!; [done|exists op0; rewrite elem_of_app; by split; [left|]|]. injection Hd as ->.
        intros x [Hx| ->%list_elem_of_singleton]%elem_of_app Hid; [by apply Hall|done].
    + destruct Hop as (o1 & o2 & e1 & e2 & Hp1 & Hp2 & ?). cbn. rewrite decide_True by done. rewrite lookup_insert_eq.
      exists o1, o2, e1, e2. rewrite !elem_of_app. split_and!; try (by left); naive_solver.
    + rewrite lookup_insert_eq. split_and!; [done|exists op; rewrite elem_of_app; by split; [right; left|]|].
      intros x [Hx| ->%list_elem_of_singleton]%elem_of_app Hid; [by destruct (Hop x Hx)|done].
  - assert (Hsame : (match m !! vec_to_list (op_id op) with
      | Some known => if decide (fst <$> known ≠ Some e) then <[vec_to_list (op_id op):=None]> m else m
      | None => <[vec_to_list (op_id op):=Some (e, sha256 e)]> m end) !! i = m !! i).
    { destruct (m !! vec_to_list (op_id op)) as [known|]; [case_decide|]; by rewrite ?lookup_insert_ne. }
    rewrite Hsame. destruct (m !! i) as [[[e0 dig]|]|].
    + destruct Hi as (-> & (o & Ho & Hid) & Hall). split_and!; [done|exists o; rewrite elem_of_app; by split; [left|]|].
      intros x [Hx| ->%list_elem_of_singleton]%elem_of_app Hx'; [by apply Hall|done].
    + destruct Hi as (o1 & o2 & e1 & e2 & Hp1 & Hp2 & ?). exists o1, o2, e1, e2. rewrite !elem_of_app. naive_solver.
    + intros x [Hx| ->%list_elem_of_singleton]%elem_of_app; [by apply Hi|done].
Qed.

Lemma collect_ok P ops m m' : cand_ok P m → collect_candidates ops m = Ok m' → cand_ok (P ++ ops) m'.
Proof.
  revert P m. induction ops as [|op ops IH]; intros P m Hm; cbn [collect_candidates].
  - intros [= <-]. by rewrite app_nil_r.
  - destruct (op_to_bytes op) as [e|] eqn:He; [|done]. cbn. intros Hc. rewrite (cons_middle op), app_assoc.
    eapply IH, Hc. by apply add_candidate_ok.
Qed.

Lemma candidate_iff ops m i e :
  cand_ok ops m → (∃ dig, m !! i = Some (Some (e, dig))) ↔
  (∃ op, op ∈ ops ∧ vec_to_list (op_id op) = i) ∧ ∀ op, op ∈ ops → vec_to_list (op_id op) = i → op_to_bytes op = Ok e.
Proof.
  intros Hm. specialize (Hm i). split.
  - intros [dig Hl]. rewrite Hl in Hm. naive_solver.
  - intros [(op & Hop & Hid) Hall]. destruct (m !! i) as [[[e0 dig]|]|].
    + destruct Hm as (-> & _ & Hall'). pose proof (Hall op Hop Hid) as Hp1. rewrite (Hall' op Hop Hid) in Hp1. injection Hp1 as ->. by eexists.
    + destruct Hm as (o1 & o2 & e1 & e2 & Hp1 & Hp2 & Hi1 & Hi2 & He1 & He2 & Hne). rewrite (Hall o1 Hp1 Hi1) in He1. rewrite (Hall o2 Hp2 Hi2) in He2. congruence.
    + exfalso; by apply (Hm op Hop).
Qed.
Lemma chunks_concat {A} fuel n (l : list A) : 0 < n → length l ≤ fuel → concat (chunks fuel n l) = l.
Proof.
  intros Hn. revert l. induction fuel as [|fuel IH]; intros l Hl; [by destruct l; [|cbn in Hl; lia]|].
  destruct l as [|x l]; [done|]. cbn [chunks]. cbn [concat]. rewrite IH; [by rewrite take_drop|]. rewrite length_drop. cbn in *. lia.
Qed.

Definition settled_rows (s : StoreDb) (ids : list bytes) : list (OplogRow * option bytes) :=
  (λ r, (r, sd_verified s !! or_op_id r)) <$> settled s ids.

#[export] Instance classify_chunk_quiet candidates c chunk : Quiet (classify_chunk candidates c chunk).
Proof. unfold classify_chunk. apply _. Qed.

Lemma classify_chunks_runs candidates c cs s c' s' :
  runs (sql_fold (classify_chunk candidates) c cs) s c' s' →
  s' = s ∧ c' = foldl (classify_row candidates) c (concat (settled_rows s <$> cs)).
Proof.
  revert c. induction cs as [|ids cs IH]; intros c; cbn [sql_fold]; [by intros [-> ->]%runs_ret|]. intros Hr.
  apply runs_bind in Hr as (c1 & s1 & Hp1 & Hr); [|apply _]. unfold classify_chunk in Hp1.
  do 2 apply runs_bind in Hp1 as ([] & s2 & <-%runs_try & Hp1); [|apply _..].
  apply runs_bind in Hp1 as (rows & s2 & [-> <-]%runs_get & Hp1); [|apply _].
  apply runs_bind in Hp1 as (rows & s2 & [-> <-]%runs_rows & [<- <-]%runs_ret); [|apply _].
  destruct (IH _ Hr) as [-> ->]. split; [done|]. rewrite fmap_cons. cbn [concat]. rewrite foldl_app. do 2 f_equal.
  fold (settled_rows s ids). generalize (settled_rows s ids). intros l. induction l as [|x l IHl]; [done|]. cbn. by rewrite IHl.
Qed.

Lemma settled_chunks s ids r v :
  (r, v) ∈ concat (settled_rows s <$> chunks (length ids) CLASSIFY_CHUNK ids) ↔ v = sd_verified s !! or_op_id r ∧ r ∈ settled s ids.
Proof.
  assert (Hids : ∀ i, i ∈ ids ↔ ∃ ch, ch ∈ chunks (length ids) CLASSIFY_CHUNK ids ∧ i ∈ ch).
  { intros i. rewrite <-(chunks_concat (length ids) CLASSIFY_CHUNK ids) at 1 by (unfold CLASSIFY_CHUNK; lia).
    rewrite list_elem_of_In, in_concat. setoid_rewrite list_elem_of_In. done. }
  rewrite list_elem_of_In, in_concat. split.
  - intros (l & Hl%list_elem_of_In & Hin%list_elem_of_In). apply list_elem_of_fmap in Hl as (ch & -> & Hch).
    apply list_elem_of_fmap in Hin as (r' & [= -> ->] & Hr). split; [done|]. unfold settled in *. apply list_elem_of_filter in Hr as [(Hi & ?) ?].
    apply list_elem_of_filter. split; [|done]. split; [|done]. apply Hids. eauto.
  - intros [-> Hr]. unfold settled in Hr. apply list_elem_of_filter in Hr as [(Hi & Hrest) Hr]. apply Hids in Hi as (ch & Hch & Hi).
    exists (settled_rows s ch). split; [by apply list_elem_of_In, list_elem_of_fmap_2|]. apply list_elem_of_In, list_elem_of_fmap.
    exists r. split; [done|]. by apply list_elem_of_filter.
Qed.

(** What one row adds. *)
Definition row_exact (candidates : gmap bytes (option (bytes * barr 32))) (row : OplogRow * option bytes) (dig : barr 32) : Prop :=
  candidates !! or_op_id row.1 = Some (Some (or_envelope row.1, dig)).
Lemma classify_fold candidates rows c i :
  let c' := foldl (classify_row candidates) c rows in
  (i ∈ rc_durable_exact c' ↔ i ∈ rc_durable_exact c ∨ ∃ row dig, row ∈ rows ∧ or_op_id row.1 = i ∧ row_exact candidates row dig) ∧
  (i ∈ rc_completed c' ↔ i ∈ rc_completed c ∨ ∃ row dig, row ∈ rows ∧ or_op_id row.1 = i ∧ row_exact candidates row dig ∧
     (or_origin row.1 = ORIGIN_LOCAL ∨ row.2 = Some (vec_to_list dig))).
Proof.
  revert c. induction rows as [|[r v] rows IH]; intros c; cbn [foldl].
  { split; (split; [by left|intros [?|(row & dig & Hin & _)]; [done|by apply not_elem_of_nil in Hin]]). }
  destruct (IH (classify_row candidates c (r, v))) as [Hd Hc]. cbn zeta in Hd, Hc |- *. rewrite Hd, Hc.
  assert (Hone : (i ∈ rc_durable_exact (classify_row candidates c (r, v)) ↔ i ∈ rc_durable_exact c ∨ ∃ dig, or_op_id r = i ∧ row_exact candidates (r, v) dig) ∧
    (i ∈ rc_completed (classify_row candidates c (r, v)) ↔ i ∈ rc_completed c ∨ ∃ dig, or_op_id r = i ∧ row_exact candidates (r, v) dig ∧
      (or_origin r = ORIGIN_LOCAL ∨ v = Some (vec_to_list dig)))).
  { clear. unfold classify_row, row_exact. cbn [fst snd]. destruct (candidates !! or_op_id r) as [[[e dig]|]|]; [|naive_solver..].
    case_decide as He; [|naive_solver]. subst e. cbn [rc_durable_exact rc_completed]. split; [set_solver|].
    destruct (bool_decide (or_origin r = ORIGIN_LOCAL) || bool_decide (v = Some (vec_to_list dig))) eqn:Hb.
    - apply orb_true_iff in Hb. rewrite !bool_decide_eq_true in Hb. set_solver.
    - apply orb_false_iff in Hb. rewrite !bool_decide_eq_false in Hb. naive_solver. }
  destruct Hone as [-> ->]. split; split.
  - intros [[?|(dig & ? & ?)]|(row & dig & ? & ?)]; [by left|right; exists (r, v), dig; by split; [left|]|right; exists row, dig; by split; [right|]].
  - intros [?|(row & dig & [->|?]%elem_of_cons & ? & ?)]; [by left; left|left; right; by exists dig|right; by exists row, dig].
  - intros [[?|(dig & ? & ?)]|(row & dig & ? & ?)]; [by left|right; exists (r, v), dig; by split; [left|]|right; exists row, dig; by split; [right|]].
  - intros [?|(row & dig & [->|?]%elem_of_cons & ? & ?)]; [by left; left|left; right; by exists dig|right; by exists row, dig].
Qed.

(** C27: A repeated delivery is recognised exactly. Of the ops of a batch, those
    classified durable are the ones logged as applied and settled with the very
    envelope that arrived, every op of the batch with that id being that
    envelope; and those classified complete are the durable ones this device
    wrote itself or whose verification is recorded for that envelope. *)
Theorem classification_exact ops s fs c s' fs' :
  classify_remote_ops ops s fs = (Ok c, (s', fs')) →
  let durable i r envelope := r ∈ db_oplog (sd_db s) ∧ or_op_id r = i ∧ or_applied r = 1%Z ∧ or_origin r ∈ [0; 1]%Z ∧
    i ∉ sd_pending_rows s ∧ or_envelope r = envelope ∧ (∃ op, op ∈ ops ∧ vec_to_list (op_id op) = i) ∧
    ∀ op, op ∈ ops → vec_to_list (op_id op) = i → op_to_bytes op = Ok envelope in
  s' = s ∧
  (∀ i, i ∈ rc_durable_exact c ↔ ∃ r envelope, durable i r envelope) ∧
  ∀ i, i ∈ rc_completed c ↔ ∃ r envelope, durable i r envelope ∧
    (or_origin r = ORIGIN_LOCAL ∨ sd_verified s !! i = Some (vec_to_list (sha256 envelope))).
Proof.
  intros Hr durable. assert (Hq : runs (classify_remote_ops ops) s c s') by (eapply quiet, Hr). clear Hr.
  unfold classify_remote_ops in Hq. case_decide as Hops.
  { apply runs_ret in Hq as [<- <-]. subst ops. cbn. split; [done|].
    split; intros i; (split; [by intros ?%not_elem_of_empty|]); subst durable; cbn; intros Hd; exfalso;
      [destruct Hd as (r & e & Hd)|destruct Hd as (r & e & Hd & _)]; destruct Hd as (_ & _ & _ & _ & _ & _ & (op & Ho & _) & _); by apply not_elem_of_nil in Ho. }
  apply runs_bind in Hq as (m & s1 & [Hm <-]%runs_lift & Hq); [|apply _].
  apply (collect_ok []) in Hm; [|intros i; rewrite lookup_empty; by intros ? ?%not_elem_of_nil]. cbn [app] in Hm.
  apply classify_chunks_runs in Hq as [-> ->]. split; [done|].
  set (ids := (map_to_list m).*1). set (rows := concat _).
  assert (Hrows : ∀ r v, (r, v) ∈ rows ↔ v = sd_verified s !! or_op_id r ∧ r ∈ settled s ids) by (intros; apply settled_chunks).
  assert (Hiff : ∀ i r v, (r, v) ∈ rows ∧ or_op_id r = i ∧ (∃ dig, row_exact m (r, v) dig) ↔ v = sd_verified s !! i ∧ ∃ envelope, durable i r envelope).
  { intros i r v. rewrite Hrows. unfold row_exact, settled. cbn [fst snd]. rewrite (candidate_iff _ _ _ _ Hm), list_elem_of_filter. split.
    - intros ((-> & (_ & Happ & Ho & Hp) & Hr) & <- & Hc). split; [done|]. exists (or_envelope r). subst durable. cbn. by destruct Hc.
    - intros (-> & e & Hr & <- & Happ & Ho & Hp & He & Hex & Hall). subst e. split_and!; try done.
      assert (Hd : ∃ dig, m !! or_op_id r = Some (Some (or_envelope r, dig))) by (by apply (candidate_iff _ _ _ _ Hm)). destruct Hd as [dig Hd].
      apply (list_elem_of_fmap_2 fst (map_to_list m) (or_op_id r, Some (or_envelope r, dig))), elem_of_map_to_list, Hd. }
  assert (Hdig : ∀ i r v dig, or_op_id r = i → row_exact m (r, v) dig → dig = sha256 (or_envelope r)).
  { intros i r v dig <- Hx. unfold row_exact in Hx. specialize (Hm (or_op_id r)). cbn in Hx. rewrite Hx in Hm. by destruct Hm. }
  split; intros i; destruct (classify_fold m rows (mk_classification ∅ ∅) i) as [Hd Hc]; cbn [rc_durable_exact rc_completed] in Hd, Hc.
  - rewrite Hd. split.
    + intros [?%not_elem_of_empty|([r v] & dig & Hin & Hid & Hx)]; [done|]. exists r. by apply (Hiff i r v); eauto.
    + intros (r & e & Hdur). destruct (proj2 (Hiff i r (sd_verified s !! i))) as (Hin & Hid & dig & Hx); [eauto|]. right. by exists (r, sd_verified s !! i), dig.
  - rewrite Hc. split.
    + intros [?%not_elem_of_empty|([r v] & dig & Hin & Hid & Hx & Hprov)]; [done|]. cbn in Hid, Hprov.
      destruct (proj1 (Hiff i r v)) as (Hv & e & Hdur); [eauto|]. exists r, e. split; [done|]. destruct Hprov as [?|Hv']; [by left|right].
      assert (He : or_envelope r = e) by apply Hdur. by rewrite <-Hv, Hv', (Hdig i r v dig Hid Hx), He.
    + intros (r & e & Hdur & Hprov). destruct (proj2 (Hiff i r (sd_verified s !! i))) as (Hin & Hid & dig & Hx); [eauto|].
      right. exists (r, sd_verified s !! i), dig. split_and!; [done..|]. destruct Hprov as [?|Hv]; [by left|right]. cbn.
      assert (He : or_envelope r = e) by apply Hdur. by rewrite Hv, (Hdig i r _ dig Hid Hx), He.
Qed.

(** ** What the quarantine keeps *)

Definition erase (u : Unverified) : Unverified := with_last_seen "" u.
Lemma refresh_erase candidate peer now us : erase <$> update_candidate candidate peer (with_last_seen now) us = erase <$> us.
Proof.
  unfold update_candidate. rewrite <-list_fmap_compose. apply list_fmap_ext. intros i u _. cbn. by destruct (decide (same_candidate _ _ _)).
Qed.
Definition held (candidate : barr 32) (peer : DeviceId) (us : list Unverified) : Prop :=
  ∃ u, u ∈ us ∧ same_candidate (vec_to_list candidate) (vec_to_list peer) u.
Lemma held_erase candidate peer us : held candidate peer (erase <$> us) ↔ held candidate peer us.
Proof.
  unfold held. split.
  - intros (u & (v & -> & Hv)%list_elem_of_fmap & Hu). by exists v.
  - intros (u & Hu & Hc). exists (erase u). split; [by apply list_elem_of_fmap_2|done].
Qed.
Lemma refresh_held candidate peer c p now us : held candidate peer us → held candidate peer (update_candidate c p (with_last_seen now) us).
Proof. by rewrite <-(held_erase _ _ us), <-(held_erase _ _ (update_candidate _ _ _ _)), refresh_erase. Qed.

#[local] Instance quarantine_one_quiet peer now n e : Quiet (quarantine_one peer now n e).
Proof. destruct e as [[op c] envelope]. unfold quarantine_one. apply _. Qed.

Section stores.
Context (Hconf : ∀ a b, conflicts a b = true → uv_candidate b = uv_candidate a ∧ uv_peer b = uv_peer a).

Lemma quarantine_one_runs peer now n op candidate envelope s n' s' :
  runs (quarantine_one peer now n (op, candidate, envelope)) s n' s' →
  ∃ added, erase <$> sd_unverified s' = (erase <$> sd_unverified s) ++ added ∧ n' = n + length added ∧ held candidate peer (sd_unverified s').
Proof.
  intros Hr. unfold quarantine_one in Hr. apply runs_bind in Hr as ([] & s1 & <-%runs_try & Hr); [|apply _].
  apply runs_bind in Hr as (us & s1 & [-> <-]%runs_get & Hr); [|apply _].
  apply runs_bind in Hr as ([] & s1 & Hs1%runs_mod & Hr); [|apply _].
  apply runs_bind in Hr as ([] & s2 & <-%runs_try & Hr); [|apply _].
  apply runs_bind in Hr as ([] & s2 & Hs2%runs_mod & [<- <-]%runs_ret); [|apply _]. rewrite Hs2. cbn. rewrite refresh_erase.
  set (row := pending_row _ _ _ _ _ _) in *. destruct (existsb (conflicts row) (sd_unverified s)) eqn:Hex; cbn in Hs1; rewrite Hs1.
  - exists []. rewrite app_nil_r. split_and!; [done|rewrite ?Hex; cbn; lia|]. apply refresh_held. apply existsb_exists in Hex as (u & Hu%list_elem_of_In & Hc).
    apply Hconf in Hc as [? ?]. exists u. by split.
  - exists [erase row]. cbn. rewrite fmap_app. split_and!; [done|rewrite ?Hex; cbn; lia|]. apply refresh_held. exists row. cbn. rewrite elem_of_app. by split; [right; left|].
Qed.

Lemma quarantine_fold_runs peer now envelopes n s n' s' :
  runs (sql_fold (quarantine_one peer now) n envelopes) s n' s' →
  ∃ added, erase <$> sd_unverified s' = (erase <$> sd_unverified s) ++ added ∧ n' = n + length added ∧
    ∀ e, e ∈ envelopes → held e.1.2 peer (sd_unverified s').
Proof.
  revert n s. induction envelopes as [|[[op c] env] l IH]; intros n s; cbn [sql_fold].
  - intros [<- <-]%runs_ret. exists []. rewrite app_nil_r. split_and!; [done|cbn; lia|by intros ? ?%not_elem_of_nil].
  - intros Hr. apply runs_bind in Hr as (n1 & s1 & Hone & Hr); [|apply _].
    apply quarantine_one_runs in Hone as (a1 & He1 & -> & Hh). destruct (IH _ _ Hr) as (a2 & He2 & -> & Hall).
    exists (a1 ++ a2). rewrite He2, He1, app_assoc. split_and!; [done|rewrite length_app; lia|].
    intros e [->|Hin]%elem_of_cons; [|by apply Hall]. cbn. rewrite <-held_erase in Hh |- *. rewrite He2.
    destruct Hh as (u & Hu & Hc). exists u. rewrite elem_of_app. by split; [left|].
Qed.

(** The quarantine admits within its capacity or not at all: when a batch of
    unattested ops is stored, the rows awaiting replay and their bytes are
    within the limits, in all and for that peer, the report counts them; no row
    was dropped or altered but for the time it was last seen, and every op of
    the batch is held for that peer. *)
Lemma quarantine_capacity peer envelopes now s fs report s' fs' :
  quarantine_ops peer envelopes now s fs = (Ok report, (s', fs')) →
  let rows := live_rows (sd_unverified s') in
  let own := peer_rows peer (sd_unverified s') in
  (len rows ≤ MAX_QUARANTINED_OPS ∧ sum_bytes rows ≤ MAX_QUARANTINE_BYTES ∧
   len own ≤ MAX_QUARANTINED_OPS_PER_PEER ∧ sum_bytes own ≤ MAX_QUARANTINE_BYTES_PER_PEER)%Z ∧
  qw_total report = len rows ∧
  (∃ added, erase <$> sd_unverified s' = (erase <$> sd_unverified s) ++ added ∧ length added = qw_inserted report) ∧
  ∀ e, e ∈ envelopes → held e.1.2 peer (sd_unverified s').
Proof.
  intros Hr rows own. assert (Hq : runs (quarantine_ops peer envelopes now) s report s') by (eapply quiet, Hr). clear Hr.
  unfold quarantine_ops in Hq. apply runs_bind in Hq as (n & s1 & Hfold & Hq); [|apply _].
  apply quarantine_fold_runs in Hfold as (added & He & -> & Hall).
  apply runs_bind in Hq as ([] & s2 & <-%runs_try & Hq); [|apply _].
  apply runs_bind in Hq as (r1 & s2 & [-> <-]%runs_get & Hq); [|apply _].
  apply runs_bind in Hq as ([] & s2 & <-%runs_try & Hq); [|apply _].
  apply runs_bind in Hq as (r2 & s2 & [-> <-]%runs_get & Hq); [|apply _].
  case_decide as Hcap; [by apply runs_lift in Hq as [? _]|]. apply runs_ret in Hq as [<- <-]. subst rows own.
  split_and!; [lia..|done|by exists added|done].
Qed.
End stores.
End quarantine.

(** ** What a replay leaves *)

Section replay.
Context `{Rusqlite, Crypto, Postcard, !Wire EnvelopeRepr}.
Implicit Types s : StoreDb.

Lemma statements_inv {A} (f : A → list Unverified → list Unverified) context (P : list Unverified → Prop) l s u s' :
  runs (sql_fold (λ _ a, _ ← sql_try context; sql_mod (λ s, set_unverified (f a (sd_unverified s)) s)) () l) s u s' →
  (∀ a us, a ∈ l → P us → P (f a us)) → P (sd_unverified s) → P (sd_unverified s').
Proof.
  revert s u. induction l as [|a l IH]; intros s u; cbn [sql_fold]; [by intros [_ <-]%runs_ret|]. intros Hr Hf Hs.
  apply runs_bind in Hr as ([] & s1 & Hone & Hr); [|apply _]. apply runs_bind in Hone as ([] & s2 & <-%runs_try & ->%runs_mod); [|apply _].
  eapply IH; [exact Hr|intros; apply Hf; [by right|done]|]. cbn. apply Hf; [by left|done].
Qed.

(** The columns no update of a replay writes. *)
Definition same_columns (f : Unverified → Unverified) : Prop :=
  ∀ u, uv_rowid (f u) = uv_rowid u ∧ uv_candidate (f u) = uv_candidate u ∧ uv_claimed (f u) = uv_claimed u ∧
    uv_envelope (f u) = uv_envelope u ∧ uv_bytes (f u) = uv_bytes u.
Definition stored_wf (us : list Unverified) : Prop :=
  NoDup (uv_rowid <$> us) ∧ Forall (λ u, uv_bytes u = len (uv_envelope u)) us.
Lemma update_wf i p f us : same_columns f → stored_wf us → stored_wf (update_candidate i p f us).
Proof.
  intros Hf [Hnd Hb]. unfold update_candidate. split.
  - rewrite <-list_fmap_compose. erewrite list_fmap_ext; [exact Hnd|]. intros j u _. cbn. case_decide; [apply Hf|done].
  - apply Forall_fmap. eapply Forall_impl; [exact Hb|]. intros u Hu. cbn. case_decide; [|done]. destruct (Hf u) as (_ & _ & _ & -> & ->). done.
Qed.
Lemma advance_columns : same_columns advance_attempt.
Proof. done. Qed.
Lemma error_columns e : same_columns (record_error e).
Proof. done. Qed.
Lemma scope_columns : same_columns retain_out_of_scope.
Proof. done. Qed.

(** A row that still waits. *)
Definition waits (u : Unverified) (us : list Unverified) : Prop :=
  ∃ u', u' ∈ us ∧ live u' ∧ uv_rowid u' = uv_rowid u ∧ uv_candidate u' = uv_candidate u ∧ uv_claimed u' = uv_claimed u ∧ uv_envelope u' = uv_envelope u.
Lemma update_waits i p f u us :
  same_columns f → (∀ u', live u' → uv_candidate u' = i → uv_candidate u' = uv_candidate u → live (f u')) →
  waits u us → waits u (update_candidate i p f us).
Proof.
  intros Hf Hl (u' & Hin & Hlive & Hr & Hc & Hcl & He). exists (if decide (same_candidate i p u') then f u' else u').
  split; [apply list_elem_of_fmap; by exists u'|]. case_decide as Hs; [|done].
  destruct Hs as [Hi _]. destruct (Hf u') as (-> & -> & -> & -> & _). split_and!; [by apply Hl|done..].
Qed.

Definition invalid_rows (us : list Unverified) : list Unverified := filter (λ u, uv_state u = "invalid") us.
Definition evidence_bounded (us : list Unverified) : Prop :=
  Forall (λ u, (len (uv_envelope u) ≤ MAX_INVALID_QUARANTINE_ENVELOPE_BYTES)%Z) (invalid_rows us).
Definition audit_bounded (us : list Unverified) : Prop := (len (invalid_rows us) ≤ MAX_INVALID_QUARANTINE_AUDIT_ROWS)%Z.

Lemma bound_evidence_ok (us : list Unverified) : stored_wf us → evidence_bounded (bound_evidence <$> us).
Proof.
  intros [_ Hb]. apply Forall_forall. intros u [Hst (v & -> & Hv)%list_elem_of_fmap]%list_elem_of_filter.
  rewrite Forall_forall in Hb. specialize (Hb v Hv). revert Hst. unfold bound_evidence. case_decide as Hd; cbn.
  - intros _. rewrite len_takeZ by (unfold MAX_INVALID_QUARANTINE_ENVELOPE_BYTES; lia). lia.
  - intros Hst. rewrite <-Hb. destruct (decide (MAX_INVALID_QUARANTINE_ENVELOPE_BYTES < uv_bytes v)%Z); [tauto|lia].
Qed.
Lemma bound_audit_ok us : NoDup (uv_rowid <$> us) → audit_bounded (bound_audit us).
Proof.
  intros Hnd. unfold audit_bounded, len. assert (Hle : length (uv_rowid <$> invalid_rows (bound_audit us)) ≤ length (audit_rowids us)).
  { apply submseteq_length, NoDup_submseteq.
    - eapply sublist_NoDup; [exact Hnd|]. apply fmap_sublist. etrans; [apply sublist_filter|apply sublist_filter].
    - intros z (u & -> & [Hi [Hk _]%list_elem_of_filter]%list_elem_of_filter)%list_elem_of_fmap. apply dec_stable. tauto. }
  rewrite length_fmap in Hle. unfold audit_rowids in Hle. rewrite length_fmap in Hle.
  pose proof (len_takeZ MAX_INVALID_QUARANTINE_AUDIT_ROWS (reverse (order_by (λ u, (uv_last_seen u, uv_rowid u)) (filter (λ u, uv_state u = "invalid") us)))) as Hl.
  unfold len in Hl. specialize (Hl ltac:(done)). lia.
Qed.

(** The bounds survive what follows them. *)
Definition bounded (us : list Unverified) : Prop := evidence_bounded us ∧ audit_bounded us.
Lemma bounded_filter (P : Unverified → Prop) `{!∀ u, Decision (P u)} us : bounded us → bounded (filter P us).
Proof.
  intros [He Ha]. assert (Hsub : sublist (invalid_rows (filter P us)) (invalid_rows us)).
  { unfold invalid_rows. rewrite !list_filter_filter. rewrite (list_filter_iff _ (λ u, P u ∧ uv_state u = "invalid")) by tauto.
    rewrite <-list_filter_filter. apply sublist_filter. }
  split.
  { apply Forall_forall. intros u Hu. apply (proj1 (Forall_forall _ _) He). by eapply elem_of_submseteq, sublist_submseteq. }
  unfold audit_bounded, len in *. apply sublist_length in Hsub. lia.
Qed.
Lemma bounded_retain i p us : bounded us → bounded (update_candidate i p retain_out_of_scope us).
Proof.
  intros Hb. assert (Heq : invalid_rows (update_candidate i p retain_out_of_scope us) = invalid_rows (filter (λ u, ¬ same_candidate i p u) us)).
  { unfold invalid_rows, update_candidate. clear Hb. induction us as [|u us IH]; [done|]. rewrite fmap_cons, !filter_cons. cbn.
    destruct (decide (same_candidate i p u)) as [Hs|Hs].
    - rewrite (decide_False (P := uv_state (retain_out_of_scope u) = "invalid")) by done. rewrite decide_False by (intros Hn; by apply Hn). exact IH.
    - rewrite (decide_True (P := ¬ same_candidate i p u)) by done. rewrite filter_cons. by case_decide; rewrite IH. }
  pose proof (bounded_filter (λ u, ¬ same_candidate i p u) us Hb) as [He Ha]. unfold bounded, evidence_bounded, audit_bounded in *. by rewrite Heq.
Qed.

#[local] Instance statements_quiet {A} (f : A → list Unverified → list Unverified) context l :
  Quiet (sql_fold (λ _ a, _ ← sql_try context; sql_mod (λ s, set_unverified (f a (sd_unverified s)) s)) () l).
Proof. apply fold_quiet. apply _. Qed.

Lemma deleted_gone context l s u' s' v :
  runs (sql_fold (λ _ i, _ ← sql_try context; sql_mod (λ s, set_unverified (filter (λ u, uv_claimed u ≠ i) (sd_unverified s)) s)) () l) s u' s' →
  v ∈ sd_unverified s' → uv_claimed v ∉ l.
Proof.
  revert s. induction l as [|i l IH]; intros s; cbn [sql_fold]; [by intros _ _ ?%not_elem_of_nil|]. intros Hr Hv.
  apply runs_bind in Hr as ([] & s1 & Hone & Hr); [|apply _]. apply runs_bind in Hone as ([] & s2 & <-%runs_try & Hs1%runs_mod); [|apply _].
  rewrite not_elem_of_cons. split; [|by eapply IH]. intros Heq.
  assert (Hno : ∀ v, v ∈ sd_unverified s' → uv_claimed v ≠ i); [|by apply (Hno v)].
  eapply (statements_inv (λ j us, filter (λ u, uv_claimed u ≠ j) us) context (λ us, ∀ v, v ∈ us → uv_claimed v ≠ i)); [exact Hr| |].
  - intros j us _ Hus w [_ Hw]%list_elem_of_filter. by apply Hus.
  - rewrite Hs1. cbn. by intros w [? _]%list_elem_of_filter.
Qed.

Lemma audit_waits u us : waits u us → waits u (bound_audit us).
Proof.
  intros (u' & Hin & Hlive & Hsame). exists u'. split; [|done]. apply list_elem_of_filter. split; [|done]. intros [Hi _]. by apply Hlive.
Qed.
Lemma evidence_waits u us : waits u us → waits u (bound_evidence <$> us).
Proof.
  intros (u' & Hin & Hlive & Hsame). exists u'. split; [|done]. apply list_elem_of_fmap. exists u'. split; [|done].
  unfold bound_evidence. rewrite decide_False; [done|]. intros [Hi _]. by apply Hlive.
Qed.
Lemma evidence_rowids (us : list Unverified) : uv_rowid <$> (bound_evidence <$> us) = uv_rowid <$> us.
Proof. rewrite <-list_fmap_compose. apply list_fmap_ext. intros i u _. cbn. unfold bound_evidence. by case_decide. Qed.

(** A finished replay keeps its audit small and loses nothing that waits:
    at most ten thousand rejected rows stay, each with at most four kilobytes of
    evidence, nothing of an applied op stays, and a waiting row whose op was not
    applied and drew no terminal error still waits with its whole envelope. *)
Lemma replay_bounds_and_keeps peer scanned applied out_of_scope errors s fs s' fs' :
  finish_quarantine_replay peer scanned applied out_of_scope errors s fs = (Ok (), (s', fs')) → stored_wf (sd_unverified s) →
  (len (invalid_rows (sd_unverified s')) ≤ MAX_INVALID_QUARANTINE_AUDIT_ROWS)%Z ∧
  (∀ u, u ∈ invalid_rows (sd_unverified s') → (len (uv_envelope u) ≤ MAX_INVALID_QUARANTINE_ENVELOPE_BYTES)%Z) ∧
  (∀ u, u ∈ sd_unverified s' → uv_claimed u ∉ applied) ∧
  ∀ u, u ∈ sd_unverified s → live u → uv_claimed u ∉ applied →
    (∀ e, e ∈ errors → qe_terminal e = true → qe_candidate_id e ≠ uv_candidate u) → waits u (sd_unverified s').
Proof.
  intros Hr Hwf. assert (Hq : runs (finish_quarantine_replay peer scanned applied out_of_scope errors) s () s') by (eapply quiet, Hr). clear Hr.
  unfold finish_quarantine_replay, update_each in Hq. apply runs_bind in Hq as ([] & s1 & Ha & Hq); [|apply _].
  apply runs_bind in Hq as ([] & s2 & Hb & Hq); [|apply _]. apply runs_bind in Hq as ([] & s3 & <-%runs_try & Hq); [|apply _].
  apply runs_bind in Hq as ([] & s3 & Hs3%runs_mod & Hq); [|apply _]. apply runs_bind in Hq as ([] & s4 & <-%runs_try & Hq); [|apply _].
  apply runs_bind in Hq as ([] & s4 & Hs4%runs_mod & Hq); [|apply _]. apply runs_bind in Hq as ([] & s5 & Hc & Hd); [|apply _].
  pose (adv := λ i, update_candidate i (vec_to_list peer) advance_attempt). pose (err := λ e, update_candidate (qe_candidate_id e) (vec_to_list peer) (record_error e)).
  pose (ret := λ i, update_candidate i (vec_to_list peer) retain_out_of_scope). pose (del := λ (i : bytes) (us : list Unverified), filter (λ u, uv_claimed u ≠ i) us).
  assert (Hwf2 : stored_wf (sd_unverified s2)).
  { eapply (statements_inv err); [exact Hb|intros; by apply update_wf|]. eapply (statements_inv adv); [exact Ha|intros; by apply update_wf|done]. }
  assert (Hbd : bounded (sd_unverified s')).
  { eapply (statements_inv del); [exact Hd|intros; by apply bounded_filter|]. eapply (statements_inv ret); [exact Hc|intros; by apply bounded_retain|].
    rewrite Hs4, Hs3. cbn. split; [|apply bound_audit_ok; rewrite evidence_rowids; apply Hwf2].
    pose proof (bound_evidence_ok _ Hwf2) as He. apply Forall_forall. intros u [Hi [_ Hu]%list_elem_of_filter]%list_elem_of_filter.
    apply (proj1 (Forall_forall _ _) He). by apply list_elem_of_filter. }
  destruct Hbd as [Hev Haud]. split_and!; [done|by apply Forall_forall| |].
  - intros u Hu. by eapply deleted_gone.
  - intros u Hu Hl Happ Herr. eapply (statements_inv del _ (waits u)); [exact Hd| |].
    { intros i us Hi (u' & Hin & Hlive & Hr & Hc' & Hcl & He). exists u'. split; [|by split_and!]. apply list_elem_of_filter. split; [|done].
      cbn. intros Heq. rewrite <-Heq, Hcl in Hi. by apply Happ. }
    eapply (statements_inv ret); [exact Hc|intros i us _; by apply update_waits|]. rewrite Hs4, Hs3. cbn. apply audit_waits, evidence_waits.
    eapply (statements_inv err); [exact Hb| |].
    { intros e us He. apply update_waits; [done|]. intros u' Hl' Hi Hcu. unfold live, record_error. cbn. destruct (qe_terminal e) eqn:Ht; [|done].
      exfalso. apply (Herr e He Ht). congruence. }
    eapply (statements_inv adv); [exact Ha| |].
    { intros i us _. apply update_waits; [done|]. intros u' Hl' _ _. unfold live, advance_attempt. cbn. by case_decide. }
    exists u. by split_and!.
Qed.
End replay.
