(* ===== verification/Transport.v ===== *)
(** * Transport errors and the HTTP exchange ([TransportError] of
      [src/error.rs], [src/net/client.rs])

    The network is a parameter: what a [GET] or a [POST] answers, and the world
    it leaves. *)

From stdpp Require Import pretty.
From S2P Require Import Prelude Ordered External Http Identity Op Registry Store Log Durable Pull.

Section transport.
Context `{Postcard}.

Inductive TransportError : Type :=
  | HttpErr (msg : string)
  | WireErr (msg : string)
  | RelayRelayUnsupported (status : Z)
  | ReplayErr (msg : string)
  | VerifyErr (device reason : string)
  | DriftErr (device : string) (hlc : Z) (reason : string)
  | TransOp (e : OpError)
  | TransIdentity (e : IdentityError)
  | TransDurability (e : DurabilityError)
  | IdentityMismatch (advertised derived : string).

Definition IoError_display (e : IoError) : string :=
  match e with
  | UnexpectedEof => "failed to fill whole buffer"
  | NotFound => "entity not found"
  | IoOther msg => msg
  end.
Definition DurabilityError_display (e : DurabilityError) : string :=
  match e with
  | DurIo e => "op-log file io error: " +:+ IoError_display e
  | DurOp e => OpError_display e
  | Poisoned => "op-log writer poisoned: a torn frame could not be rolled back"
  end.

Definition TransportError_display (e : TransportError) : string :=
  match e with
  | HttpErr msg => "http request failed: " +:+ msg
  | WireErr msg => "malformed wire payload: " +:+ msg
  | RelayRelayUnsupported status => "relay v2 unsupported by peer (status " +:+ pretty status +:+ ")"
  | ReplayErr msg => "replay failed during sync: " +:+ msg
  | VerifyErr device reason => "op from device " +:+ device +:+ " failed verification: " +:+ reason
  | DriftErr device hlc reason =>
      "op from device " +:+ device +:+ " rejected by drift guard (hlc " +:+ pretty hlc +:+ "): " +:+ reason
  | TransOp e => OpError_display e
  | TransIdentity e => IdentityError_display e
  | TransDurability e => DurabilityError_display e
  | IdentityMismatch advertised derived =>
      "peer advertised device " +:+ advertised +:+ " but its key derives " +:+ derived
  end.

Definition is_relay_unsupported (e : TransportError) : bool :=
  match e with RelayRelayUnsupported _ => true | _ => false end.

(** ** The exchange *)

(** What [reqwest] answers: an error, or a status, headers, the announced
    length and the body (which may fail to arrive). *)
Record HttpReply : Type := mk_reply {
  rep_status : Z;
  rep_headers : list (string * string);
  rep_content_length : option Z;
  rep_body : result string bytes;
}.

Class HttpWorld (W : Type) := {
  http_get : W → string → list (string * string) → result string HttpReply * W;
  http_post : W → string → bytes → result string HttpReply * W;
}.
#[global] Hint Mode HttpWorld ! : typeclass_instances.

(** [StatusCode::is_success] *)
Definition is_success (status : Z) : bool := (200 <=? status)%Z && (status <? 300)%Z.

(** The parts of [http] and of a URL's text the client prints with: [Display for
    StatusCode]. *)
Class StatusText := { status_display : Z → string }.

Record HttpPullSource : Type := mk_source { base_url : string; src_limit : Z }.

(** [HttpPullSource::pull_bytes] *)
Definition pull_bytes {W} `{!HttpWorld W} (w : W) (source : HttpPullSource) (signed_request : bytes)
    : result TransportError (Z * bytes) * W :=
  match http_post w (base_url source +:+ PULL_PATH) signed_request with
  | (Err e, w) => (Err (HttpErr e), w)
  | (Ok reply, w) =>
      if match rep_content_length reply with
         | Some length => bool_decide (MAX_PULL_RESPONSE_BYTES < length)%Z | None => false end
      then (Err (WireErr "oversized v3 pull page"), w)
      else
        match rep_body reply with
        | Err e => (Err (HttpErr e), w)
        | Ok body =>
            if decide (MAX_PULL_RESPONSE_BYTES < len body)%Z
            then (Err (WireErr "oversized v3 pull page"), w)
            else (Ok (rep_status reply, body), w)
        end
  end.
End transport.
#[export] Hint Mode HttpWorld ! : typeclass_instances.
