(* ===== verification/Persistence.v ===== *)
(** * Cursors and keys on disk ([src/net/persistence.rs])

    Each save writes a temporary file, syncs it, renames it over the old one and
    syncs the directory.  The file system is a map from names to files, with
    the directory as of its last sync beside it: a crash leaves, for every
    name, one or the other, and any prefix of a file that was not synced. *)

From stdpp Require Import pretty.
From S2P Require Import Prelude Ordered External Toy Identity Op Registry Store Log Durable Pull.

(** ** The file system *)

Record FsFile : Type := mk_fs_file { ff_data : bytes; ff_synced : bool }.
Record Fs : Type := mk_fs { fs_live : gmap string FsFile; fs_durable : gmap string bytes }.

(** What a crash may leave under one name. *)
Definition survives (live : option FsFile) (durable : option bytes) (left : option bytes) : Prop :=
  left = durable ∨
  match live with
  | None => left = None
  | Some f => if ff_synced f then left = Some (ff_data f) else ∃ k, left = Some (take k (ff_data f))
  end.
Definition crash (fs : Fs) (disk : gmap string bytes) : Prop :=
  ∀ name, survives (fs_live fs !! name) (fs_durable fs !! name) (disk !! name).

(** [std::fs::read] on a running system, and after a restart. *)
Definition fs_read (fs : Fs) (name : string) : option bytes := ff_data <$> fs_live fs !! name.
Definition fs_mount (disk : gmap string bytes) : Fs := mk_fs ((λ d, mk_fs_file d true) <$> disk) disk.

(** A system call: it fails with the error [out] names, or takes effect. *)
Definition Step : Type := Fs → result IoError () * Fs.
Definition step_call (out : option IoError) (effect : Fs → Fs) : Step := λ fs,
  match out with Some e => (Err e, fs) | None => (Ok (), effect fs) end.

(** [File::create] truncates; [write_all] may write a part before it fails. *)
Definition fs_create (name : string) (fs : Fs) : Fs :=
  mk_fs (<[name := mk_fs_file [] false]> (fs_live fs)) (fs_durable fs).
Definition fs_append (name : string) (buf : bytes) (fs : Fs) : Fs :=
  match fs_live fs !! name with
  | Some f => mk_fs (<[name := mk_fs_file (ff_data f ++ buf) false]> (fs_live fs)) (fs_durable fs)
  | None => fs
  end.
Definition step_write (out : option (nat * IoError)) (name : string) (buf : bytes) : Step := λ fs,
  match out with
  | Some (n, e) => (Err e, fs_append name (take n buf) fs)
  | None => (Ok (), fs_append name buf fs)
  end.

(** [File::sync_all], [std::fs::rename], and [sync_all] of the directory. *)
Definition fs_sync (name : string) (fs : Fs) : Fs :=
  match fs_live fs !! name with
  | Some f => mk_fs (<[name := mk_fs_file (ff_data f) true]> (fs_live fs)) (fs_durable fs)
  | None => fs
  end.
Definition fs_rename (src dst : string) (fs : Fs) : Fs :=
  match fs_live fs !! src with
  | Some f => mk_fs (<[dst := f]> (delete src (fs_live fs))) (fs_durable fs)
  | None => fs
  end.
Definition fs_sync_dir (fs : Fs) : Fs :=
  mk_fs (fs_live fs) (omap (λ f, if ff_synced f then Some (ff_data f) else None) (fs_live fs)).

(** Calls in order, up to the first that fails; with the states passed through. *)
Fixpoint run_steps (steps : list Step) (fs : Fs) : result IoError () * Fs * list Fs :=
  match steps with
  | [] => (Ok (), fs, [fs])
  | step :: steps =>
      match step fs with
      | (Err e, fs') => (Err e, fs', [fs; fs'])
      | (Ok _, fs') => let '(r, fs'', trace) := run_steps steps fs' in (r, fs'', fs :: trace)
      end
  end.

(** The outcomes of the system calls of one save, its writes apart. *)
Record SaveIo : Type := mk_save_io {
  sio_mkdir : option IoError;
  sio_create : option IoError;
  sio_write : nat → option (nat * IoError);
  sio_sync : option IoError;
  sio_rename : option IoError;
  sio_sync_dir : option IoError;
}.

(** The calls every save makes: [create_dir_all], [create], the writes,
    [sync_all], [rename], [fsync_dir]. *)
Definition tmp_steps (io : SaveIo) (tmp : string) (chunks : list bytes) : list Step :=
  [step_call (sio_mkdir io) (λ fs, fs); step_call (sio_create io) (fs_create tmp)]
  ++ imap (λ i chunk, step_write (sio_write io i) tmp chunk) chunks
  ++ [step_call (sio_sync io) (fs_sync tmp)].
Definition save_steps (io : SaveIo) (path tmp : string) (chunks : list bytes) : list Step :=
  tmp_steps io tmp chunks
  ++ [step_call (sio_rename io) (fs_rename tmp path); step_call (sio_sync_dir io) fs_sync_dir].

(** ** Names *)

Fixpoint before_last_dot (s : string) : option string :=
  match s with
  | "" => None
  | String c rest =>
      match before_last_dot rest with
      | Some stem => Some (String c stem)
      | None => if decide (c = "."%char) then Some "" else None
      end
  end.
(** [Path::with_extension]; a leading dot is part of the stem. *)
Definition with_extension (name extension : string) : string :=
  match before_last_dot name with
  | Some "" | None => name +:+ "." +:+ extension
  | Some stem => stem +:+ "." +:+ extension
  end.

(** The files of the directory [cursors], and of the data directory, by name. *)
Definition cursor_path (peer : DeviceId) : string := DeviceId_to_hex peer +:+ ".cursor".
Definition relay_cursor_path (peer : DeviceId) : string := DeviceId_to_hex peer +:+ ".relay-v2.cursor".
Definition peers_path : string := "peers.bin".
Definition relay_callers_path : string := "relay-callers.bin".

(** ** Cursors *)

Definition load_cursor (fs : Fs) (peer : DeviceId) : OrderKey :=
  match fs_read fs (cursor_path peer) with
  | Some bs => match vec_of_list 72 bs with Some arr => from_wire arr | None => OrderKey_MIN end
  | None => OrderKey_MIN
  end.

Definition save_cursor (io : SaveIo) (peer : DeviceId) (cursor : OrderKey) (fs : Fs)
    : result IoError () * Fs * list Fs :=
  let path := cursor_path peer in
  run_steps (save_steps io path (with_extension path "cursor.tmp") [vec_to_list (to_wire cursor)]) fs.

Definition load_relay_cursor (fs : Fs) (peer : DeviceId) : RelayCursor :=
  match fs_read fs (relay_cursor_path peer) with
  | None => RelayCursor_START
  | Some bs =>
      match vec_of_list 32 (take 32 bs), vec_of_list 8 (drop 32 bs) with
      | Some epoch, Some after =>
          let after := be_val after in
          if decide (epoch = zeros 32 ∧ after ≠ 0%Z) then RelayCursor_START else mk_cursor epoch after
      | _, _ => RelayCursor_START
      end
  end.

Definition save_relay_cursor (io : SaveIo) (peer : DeviceId) (cursor : RelayCursor) (fs : Fs)
    : result IoError () * Fs * list Fs :=
  let path := relay_cursor_path peer in
  run_steps (save_steps io path (with_extension path "cursor.tmp") [vec_to_list (rc_epoch cursor); vec_to_list (be_vec 8 (rc_after cursor))]) fs.

(** ** Keys *)

Section keys.
Context `{Crypto, Postcard, !Wire (list bytes)}.

Fixpoint load_loop (keys : list bytes) (registry : DeviceRegistry) (n : nat) : nat * DeviceRegistry :=
  match keys with
  | [] => (n, registry)
  | key :: keys =>
      match vec_of_list 33 key with
      | None => load_loop keys registry n
      | Some sec1 =>
          match insert_sec1 registry sec1 with
          | (Ok _, registry) => load_loop keys registry (S n)
          | (Err _, registry) => load_loop keys registry n
          end
      end
  end.

Definition load_keys (fs : Fs) (path : string) (registry : DeviceRegistry) : nat * DeviceRegistry :=
  match fs_read fs path with
  | None => (0, registry)
  | Some bs =>
      match from_bytes bs with
      | Err _ => (0, registry)
      | Ok keys => load_loop keys registry 0
      end
  end.
Definition load_peer_keys (fs : Fs) (registry : DeviceRegistry) := load_keys fs peers_path registry.
Definition load_relay_caller_keys (fs : Fs) (registry : DeviceRegistry) := load_keys fs relay_callers_path registry.

Definition save_keys (io : SaveIo) (path : string) (registry : DeviceRegistry) (fs : Fs)
    : result IoError () * Fs * list Fs :=
  match to_allocvec (vec_to_list <$> sec1_keys registry) with
  | Err e => (Err (IoOther ("encode peer keys: " +:+ pc_display e)), fs, [fs])
  | Ok bs => run_steps (save_steps io path (with_extension path "bin.tmp") [bs]) fs
  end.
Definition save_peer_keys (io : SaveIo) (registry : DeviceRegistry) (fs : Fs) := save_keys io peers_path registry fs.
Definition save_relay_caller_keys (io : SaveIo) (registry : DeviceRegistry) (fs : Fs) :=
  save_keys io relay_callers_path registry fs.
End keys.

(** ** A save is atomic *)

Lemma run_steps_app s1 s2 fs :
  run_steps (s1 ++ s2) fs =
  match run_steps s1 fs with
  | (Err e, fs1, t1) => (Err e, fs1, t1)
  | (Ok _, fs1, t1) => let '(r, fs2, t2) := run_steps s2 fs1 in (r, fs2, removelast t1 ++ t2)
  end.
Proof.
  revert fs; induction s1 as [|step s1 IH]; intros fs; cbn; [by destruct (run_steps s2 fs) as [[] ?]|].
  destruct (step fs) as [[[]|e] fs']; [|done]. rewrite IH.
  destruct (run_steps s1 fs') as [[[[]|e] fs1] t1] eqn:Hr; [|done].
  destruct (run_steps s2 fs1) as [[r fs2] t2]. destruct t1; [|done].
  by destruct s1 as [|st s1]; cbn in Hr; [|destruct (st fs') as [[] ?]; [destruct (run_steps s1 _) as [[] ?]|]].
Qed.

Lemma run_steps_final steps fs r fs' t : run_steps steps fs = (r, fs', t) → fs' ∈ t.
Proof.
  revert fs t; induction steps as [|step steps IH]; intros fs t; cbn; [intros [= _ <- <-]; by apply list_elem_of_singleton|].
  destruct (step fs) as [[[]|e] fs1]; [|intros [= _ <- <-]; apply elem_of_cons; right; by apply list_elem_of_singleton].
  destruct (run_steps steps fs1) as [[r2 fs2] t2] eqn:Hr. intros [= -> -> <-].
  apply elem_of_cons. right. by eapply IH.
Qed.

Lemma removelast_elem {A} (x : A) l : x ∈ removelast l → x ∈ l.
Proof.
  destruct l as [|y l _] using rev_ind; [done|]. rewrite removelast_last. intros Hx. apply elem_of_app. by left.
Qed.

Section save.
Context (path tmp : string) (Hne : tmp ≠ path).

(** The calls before the rename leave the file alone. *)
Definition untouched (fs fs' : Fs) : Prop :=
  fs_live fs' !! path = fs_live fs !! path ∧ fs_durable fs' !! path = fs_durable fs !! path.

Definition quiet_step (step : Step) : Prop := ∀ fs, untouched fs (step fs).2.

Lemma append_quiet buf fs : untouched fs (fs_append tmp buf fs).
Proof.
  unfold fs_append, untouched. destruct (fs_live fs !! tmp); cbn; [|done]. by rewrite lookup_insert_ne by done.
Qed.

Lemma tmp_steps_quiet io chunks : Forall quiet_step (tmp_steps io tmp chunks).
Proof.
  unfold tmp_steps. repeat (apply Forall_app; split); [| |].
  - constructor; [|constructor; [|constructor]]; intros fs; unfold step_call; case_match; cbn; try done.
    split; cbn; [|done]. by rewrite lookup_insert_ne by done.
  - apply Forall_forall. intros st (i & chunk & -> & _)%elem_of_lookup_imap_1 fs. unfold step_write.
    case_match; [case_match|]; apply append_quiet.
  - constructor; [|constructor]. intros fs. unfold step_call, fs_sync. case_match; [done|].
    unfold untouched. cbn. case_match; cbn; [|done]. by rewrite lookup_insert_ne by done.
Qed.

Lemma run_quiet steps fs : Forall quiet_step steps → Forall (untouched fs) (run_steps steps fs).2.
Proof.
  intros Hq. revert fs. induction Hq as [|step steps Hs _ IH]; intros fs; cbn; [by apply Forall_singleton|].
  specialize (Hs fs). destruct (step fs) as [[[]|e] fs']; cbn in *.
  - specialize (IH fs'). destruct (run_steps steps fs') as [[r fs2] t]. cbn in *. constructor; [done|].
    eapply Forall_impl; [exact IH|]. intros x [H1 H2]. destruct Hs as [H3 H4]. split; congruence.
  - by apply Forall_cons_2, Forall_singleton.
Qed.

(** When they succeed, the temporary file is whole and synced. *)
Lemma write_chunks_ok io chunks i fs data fs1 t :
  fs_live fs !! tmp = Some data →
  run_steps (imap (λ j chunk, step_write (io (i + j)) tmp chunk) chunks) fs = (Ok (), fs1, t) →
  ∃ b, fs_live fs1 !! tmp = Some (mk_fs_file (ff_data data ++ concat chunks) b).
Proof.
  revert i fs data t; induction chunks as [|chunk chunks IH]; intros i fs data t Hl; cbn.
  { intros [= <- _]. rewrite app_nil_r. destruct data as [d b]. by exists b. }
  unfold step_write at 1. destruct (io (i + 0)) as [[n e]|]; [done|].
  destruct (run_steps _ (fs_append tmp chunk fs)) as [[r fs2] t2] eqn:Hr. intros [= -> <- _].
  replace (imap _ chunks) with (imap (λ j chunk, step_write (io (S i + j)) tmp chunk) chunks) in Hr
    by (apply imap_ext; intros; cbn; do 2 f_equal; lia).
  destruct (IH (S i) (fs_append tmp chunk fs) (mk_fs_file (ff_data data ++ chunk) false) t2) as [b Hb]; [|done|].
  - unfold fs_append. rewrite Hl. cbn. apply lookup_insert_eq.
  - exists b. rewrite Hb. cbn. by rewrite <-app_assoc.
Qed.

Lemma tmp_steps_ok io chunks fs fs1 t :
  run_steps (tmp_steps io tmp chunks) fs = (Ok (), fs1, t) →
  fs_live fs1 !! tmp = Some (mk_fs_file (concat chunks) true).
Proof.
  unfold tmp_steps. rewrite !run_steps_app. cbn [run_steps]. unfold step_call.
  destruct (sio_mkdir io); [done|]. destruct (sio_create io); [done|]. rewrite run_steps_app.
  match goal with |- context [run_steps (imap ?f chunks) ?fs0] =>
    destruct (run_steps (imap f chunks) fs0) as [[[[]|] fs2] t2] eqn:Hw; [|done] end.
  apply (write_chunks_ok (sio_write io) chunks 0 _ (mk_fs_file [] false)) in Hw as [b Hb];
    [|cbn; apply lookup_insert_eq].
  cbn [run_steps]. destruct (sio_sync io); [done|]. unfold fs_sync. rewrite Hb. cbn. intros [= <- _]. cbn. apply lookup_insert_eq.
Qed.

(** The contents a crash at a state may leave in the file, given the state
    before the save and the new contents. *)
Definition old_or_new (fs : Fs) (new : bytes) (left : option bytes) : Prop :=
  left = fs_durable fs !! path ∨ left = fs_read fs path ∨ left = Some new.
Definition synced (fs : Fs) : Prop := ∀ f, fs_live fs !! path = Some f → ff_synced f = true.

Lemma untouched_crash fs st new disk :
  synced fs → untouched fs st → crash st disk → old_or_new fs new (disk !! path).
Proof.
  intros Hs [Hl Hd] Hc. specialize (Hc path). rewrite Hl, Hd in Hc. unfold old_or_new, fs_read.
  destruct Hc as [Hc|Hc]; [by left|right; left]. destruct (fs_live fs !! path) as [f|] eqn:Hf; [|done].
  by rewrite (Hs f) in Hc.
Qed.

(** The file after the rename. *)
Record renamed (fs fs2 : Fs) (new : bytes) : Prop := {
  rn_live : fs_live fs2 !! path = Some (mk_fs_file new true);
  rn_durable : fs_durable fs2 !! path = fs_durable fs !! path ∨ fs_durable fs2 !! path = Some new;
}.
Lemma renamed_crash fs fs2 new disk :
  renamed fs fs2 new → crash fs2 disk → old_or_new fs new (disk !! path).
Proof.
  intros [Hl Hd] Hc. specialize (Hc path). rewrite Hl in Hc. unfold old_or_new.
  destruct Hc as [->|Hc]; [destruct Hd as [->| ->]; auto|auto].
Qed.

(** What the file holds after a crash at any point of a save, and after it. *)
Lemma save_steps_atomic io chunks fs r fs' trace :
  synced fs → run_steps (save_steps io path tmp chunks) fs = (r, fs', trace) →
  let new := concat chunks in
  synced fs' ∧
  (r = Ok () → fs_read fs' path = Some new ∧ ∀ disk, crash fs' disk → disk !! path = Some new) ∧
  (∀ st disk, st ∈ trace → crash st disk → old_or_new fs new (disk !! path)).
Proof.
  intros Hs Hrun new. unfold save_steps in Hrun. rewrite run_steps_app in Hrun.
  pose proof (run_quiet (tmp_steps io tmp chunks) fs (tmp_steps_quiet io chunks)) as Hq.
  destruct (run_steps (tmp_steps io tmp chunks) fs) as [[[[]|e] fs1] t1] eqn:Ht; cbn in Hq.
  all: rewrite Forall_forall in Hq; pose proof (run_steps_final _ _ _ _ _ Ht) as Hfin.
  2:{ injection Hrun as <- <- <-. split_and!; [|done|intros st disk Hst; by apply (untouched_crash fs), Hq].
      intros f Hf. destruct (Hq _ Hfin) as [Hl _]. rewrite Hl in Hf. by apply Hs. }
  apply tmp_steps_ok in Ht. destruct (Hq _ Hfin) as [Hl Hd].
  assert (Hold : ∀ st disk, st ∈ removelast t1 ++ [fs1; fs1] ∨ st = fs1 ∨ st ∈ removelast t1 → crash st disk →
    old_or_new fs new (disk !! path)).
  { intros st disk Hst. apply (untouched_crash fs); [done|]. apply Hq.
    destruct Hst as [[Hst|[->|[->|[]%elem_of_nil]%elem_of_cons]%elem_of_cons]%elem_of_app|[->|Hst]];
      eauto using removelast_elem. }
  cbn in Hrun. unfold step_call at 1 in Hrun. destruct (sio_rename io) as [e|].
  { injection Hrun as <- <- <-. split_and!; [|done|intros st disk Hst; by apply Hold; left].
    intros f Hf. rewrite Hl in Hf. by apply Hs. }
  set (fs2 := fs_rename tmp path fs1) in *.
  assert (Hfs2 : renamed fs fs2 new).
  { unfold fs2, fs_rename. rewrite Ht. split; cbn; [apply lookup_insert_eq|by left]. }
  assert (Hfs3 : renamed fs (fs_sync_dir fs2) new ∧ fs_durable (fs_sync_dir fs2) !! path = Some new).
  { destruct Hfs2 as [Hl2 _]. assert (fs_durable (fs_sync_dir fs2) !! path = Some new)
      by (cbn; by rewrite lookup_omap, Hl2). split; [split; [done|by right]|done]. }
  unfold step_call in Hrun. destruct (sio_sync_dir io) as [e|]; cbn in Hrun; injection Hrun as <- <- <-.
  - split_and!; [|done|].
    + intros f Hf. rewrite (rn_live _ _ _ Hfs2) in Hf. by injection Hf as <-.
    + intros st disk [Hst|[->|[->|[->|[]%elem_of_nil]%elem_of_cons]%elem_of_cons]%elem_of_cons]%elem_of_app;
        [apply Hold; tauto|apply Hold; tauto|by apply renamed_crash|by apply renamed_crash].
  - destruct Hfs3 as [Hfs3 Hdur]. split_and!.
    + intros f Hf. rewrite (rn_live _ _ _ Hfs3) in Hf. by injection Hf as <-.
    + intros _. unfold fs_read. rewrite (rn_live _ _ _ Hfs3). split; [done|]. intros disk Hc. specialize (Hc path).
      rewrite (rn_live _ _ _ Hfs3), Hdur in Hc. by destruct Hc as [->| ->].
    + intros st disk [Hst|[->|[->|[->|[]%elem_of_nil]%elem_of_cons]%elem_of_cons]%elem_of_cons]%elem_of_app;
        [apply Hold; tauto|apply Hold; tauto|by apply renamed_crash|by apply renamed_crash].
Qed.
End save.

(** ** Names of temporary files *)

Lemma before_last_dot_app a b st : before_last_dot b = Some st → before_last_dot (a +:+ b) = Some (a +:+ st).
Proof. intros Hb. induction a as [|c a IH]; [done|].
  change (String c a +:+ b) with (String c (a +:+ b)). cbn [before_last_dot]. by rewrite IH. Qed.

Lemma length_append a b : String.length (a +:+ b) = String.length a + String.length b.
Proof.
  induction a as [|c a IH]; [done|]. change (String c a +:+ b) with (String c (a +:+ b)).
  cbn [String.length]. by rewrite IH.
Qed.

Lemma with_extension_ne name extension suffix stem :
  before_last_dot suffix = Some stem →
  String.length stem + S (String.length extension) ≠ String.length suffix →
  with_extension (name +:+ suffix) extension ≠ name +:+ suffix.
Proof.
  intros Hs Hne Heq%(f_equal String.length). revert Heq. unfold with_extension.
  rewrite (before_last_dot_app _ _ _ Hs).
  destruct (name +:+ stem) as [|c rest] eqn:Hn; apply (f_equal String.length) in Hn;
    rewrite !length_append in *; cbn [String.length] in *; lia.
Qed.

(** ** Properties *)

Lemma mount_read disk name : fs_read (fs_mount disk) name = disk !! name.
Proof. unfold fs_read, fs_mount. cbn. rewrite lookup_fmap. by destruct (disk !! name). Qed.

(** The relay cursors a file represents: the sentinel epoch only at the start. *)
Definition cursor_wf (c : RelayCursor) : Prop :=
  u64_ok (rc_after c) ∧ (rc_epoch c = zeros 32 → rc_after c = 0%Z).

Lemma load_relay_cursor_saved fs peer c :
  cursor_wf c → fs_read fs (relay_cursor_path peer) = Some (rc_epoch c ++ be_vec 8 (rc_after c)) →
  load_relay_cursor fs peer = c.
Proof.
  intros [Hu Hz] Hr. unfold load_relay_cursor. rewrite Hr.
  rewrite take_app_length', drop_app_length' by (by rewrite length_vec_to_list).
  rewrite !vec_of_list_to_list, be_val_be_vec_u64 by done. rewrite decide_False by naive_solver. by destruct c.
Qed.

(** Saving a relay cursor is atomic and durable.  Whatever system calls
    fail, and wherever in the save a crash strikes: after the restart the
    cursor read back is the new one, or the one read before the save, or the
    one that was durable before it, never a torn or a default one; and once the
    save has reported success, it is the new one. *)
Lemma save_relay_cursor_atomic io peer cursor fs r fs' trace :
  cursor_wf cursor → synced (relay_cursor_path peer) fs →
  save_relay_cursor io peer cursor fs = (r, fs', trace) →
  synced (relay_cursor_path peer) fs' ∧
  (r = Ok () → load_relay_cursor fs' peer = cursor ∧
     ∀ disk, crash fs' disk → load_relay_cursor (fs_mount disk) peer = cursor) ∧
  ∀ st disk, st ∈ trace → crash st disk →
    let read := load_relay_cursor (fs_mount disk) peer in
    read = cursor ∨ read = load_relay_cursor fs peer ∨ read = load_relay_cursor (fs_mount (fs_durable fs)) peer.
Proof.
  intros Hwf Hs Hrun. apply save_steps_atomic in Hrun as (Hs' & Hok & Hcrash);
    [|by eapply with_extension_ne; [reflexivity|]|done].
  cbn [concat] in Hok, Hcrash. rewrite app_nil_r in Hok, Hcrash. split_and!; [done| |].
  - intros Hr. destruct (Hok Hr) as [Hread Hdisk]. split; [by apply load_relay_cursor_saved|].
    intros disk Hc. apply load_relay_cursor_saved; [done|]. rewrite mount_read. by apply Hdisk.
  - intros st disk Hst Hc. destruct (Hcrash st disk Hst Hc) as [Hd|[Hd|Hd]]; cbn zeta.
    + right. right. unfold load_relay_cursor. by rewrite !mount_read, Hd.
    + right. left. unfold load_relay_cursor. by rewrite mount_read, Hd.
    + left. apply load_relay_cursor_saved; [done|]. by rewrite mount_read.
Qed.

(** The semantic cursor likewise. *)
Lemma load_cursor_saved fs peer k :
  u64_ok (ok_hlc k) → fs_read fs (cursor_path peer) = Some (vec_to_list (to_wire k)) → load_cursor fs peer = k.
Proof.
  intros Hu Hr. unfold load_cursor. rewrite Hr, vec_of_list_to_list. by apply from_wire_to_wire.
Qed.
Lemma save_cursor_atomic io peer cursor fs r fs' trace :
  u64_ok (ok_hlc cursor) → synced (cursor_path peer) fs → save_cursor io peer cursor fs = (r, fs', trace) →
  synced (cursor_path peer) fs' ∧
  (r = Ok () → load_cursor fs' peer = cursor ∧ ∀ disk, crash fs' disk → load_cursor (fs_mount disk) peer = cursor) ∧
  ∀ st disk, st ∈ trace → crash st disk →
    let read := load_cursor (fs_mount disk) peer in
    read = cursor ∨ read = load_cursor fs peer ∨ read = load_cursor (fs_mount (fs_durable fs)) peer.
Proof.
  intros Hwf Hs Hrun. apply save_steps_atomic in Hrun as (Hs' & Hok & Hcrash);
    [|by eapply with_extension_ne; [reflexivity|]|done].
  cbn [concat] in Hok, Hcrash. rewrite app_nil_r in Hok, Hcrash. split_and!; [done| |].
  - intros Hr. destruct (Hok Hr) as [Hread Hdisk]. split; [by apply load_cursor_saved|].
    intros disk Hc. apply load_cursor_saved; [done|]. rewrite mount_read. by apply Hdisk.
  - intros st disk Hst Hc. destruct (Hcrash st disk Hst Hc) as [Hd|[Hd|Hd]]; cbn zeta.
    + right. right. unfold load_cursor. by rewrite !mount_read, Hd.
    + right. left. unfold load_cursor. by rewrite mount_read, Hd.
    + left. apply load_cursor_saved; [done|]. by rewrite mount_read.
Qed.

Section keys_roundtrip.
Context `{Crypto, !CryptoOk, Postcard, !Wire (list bytes), !WireOk (list bytes)}.

Lemma load_loop_ok (l : list (DeviceId * VerifyingKey)) registry n :
  NoDup l.*1 → Forall (λ kv, kv.1 = device_id_of_key kv.2) l →
  load_loop ((λ kv, vec_to_list (sec1_compressed kv.2)) <$> l) registry n =
    (n + length l, mk_registry (list_to_map l ∪ keys registry)).
Proof.
  revert registry n; induction l as [|[id key] l IH]; intros registry n Hnd Hwf.
  { destruct registry as [m]. cbn. by rewrite Nat.add_0_r, (left_id_L ∅ (∪)). }
  apply NoDup_cons in Hnd as [Hni Hnd]. apply Forall_cons in Hwf as [Hid Hwf]. cbn in Hni, Hid.
  rewrite fmap_cons. cbn [load_loop snd]. rewrite vec_of_list_to_list. unfold insert_sec1, sec1_compressed at 1.
  rewrite sec1_roundtrip. cbn [insert_key]. rewrite IH by done. cbn [keys length list_to_map foldr].
  rewrite <-Hid, Nat.add_succ_r. do 2 f_equal. cbn.
  rewrite <-insert_union_l, insert_union_r; [done|]. by apply not_elem_of_list_to_map_1.
Qed.

(** The key files round-trip.  Once a save of a registry has succeeded,
    loading after any crash restores exactly that registry, and counts its
    keys; whatever the file held before. *)
Lemma save_keys_roundtrip io path registry fs fs' trace disk :
  path ∈ [peers_path; relay_callers_path] → registry_wf registry → synced path fs →
  save_keys io path registry fs = (Ok (), fs', trace) → crash fs' disk →
  load_keys (fs_mount disk) path registry_new = (size (keys registry), registry).
Proof.
  intros Hpath Hwf Hs Hsave Hcrash. unfold save_keys in Hsave.
  destruct (to_allocvec _) as [bs|e] eqn:Hbs; [|done].
  assert (Hne : with_extension path "bin.tmp" ≠ path)
    by (apply elem_of_cons in Hpath as [->|[->|[]%elem_of_nil]%elem_of_cons]; done).
  destruct (save_steps_atomic _ _ Hne _ _ _ _ _ _ Hs Hsave) as (_ & Hok & _).
  destruct (Hok eq_refl) as [_ Hd]. specialize (Hd disk Hcrash). cbn in Hd. rewrite app_nil_r in Hd.
  unfold load_keys. rewrite mount_read, Hd, (wire_roundtrip _ _ Hbs).
  unfold sec1_keys. rewrite <-list_fmap_compose.
  rewrite (load_loop_ok (map_to_list (keys registry))).
  - cbn. rewrite (right_id_L ∅ (∪)), list_to_map_to_list, length_map_to_list. by destruct registry.
  - apply NoDup_fst_map_to_list.
  - apply Forall_forall. intros [id key] Hin%elem_of_map_to_list. exact (Hwf id key Hin).
Qed.
End keys_roundtrip.
