(* ===== verification/Relay.v ===== *)
(** * Relay v2: signatures and wire responses ([src/net/relay.rs])

    Authenticated requests with a replay cache, signed responses, the attested
    device book, and the client's validation of a response.  The relay types of
    [src/net/mod.rs] are here too. *)

From stdpp Require Import pretty.
From S2P Require Import Prelude Ordered External Toy Http Identity Op Registry Store Log Durable Pull Transport.

Definition context (s : string) : bytes := String.list_byte_of_string s ++ [Byte.x00].
Definition RELAY_OPS_SIGNING_CONTEXT : bytes := context "proxy-node-server/relay/ops/v2".
Definition RELAY_HEAD_SIGNING_CONTEXT : bytes := context "proxy-node-server/relay/head/v2".
Definition RELAY_WATCH_SIGNING_CONTEXT : bytes := context "proxy-node-server/relay/watch/v2".
Definition RELAY_OPS_REQUEST_CONTEXT : bytes := context "proxy-node-server/relay/request/ops/v2".
Definition RELAY_HEAD_REQUEST_CONTEXT : bytes := context "proxy-node-server/relay/request/head/v2".
Definition RELAY_WATCH_REQUEST_CONTEXT : bytes := context "proxy-node-server/relay/request/watch/v2".
Definition DEVICE_BOOK_SIGNING_CONTEXT : bytes := context "proxy-node-server/device-book/v2".

Definition RELAY_NONCE_HEADER : string := "x-proxy-relay-nonce".
Definition RELAY_CALLER_HEADER : string := "x-proxy-relay-caller".
Definition RELAY_REQUEST_SIGNATURE_HEADER : string := "x-proxy-relay-request-signature".
Definition RELAY_SIGNATURE_HEADER : string := "x-proxy-relay-signature".
Definition DEVICE_BOOK_NONCE_HEADER : string := "x-proxy-device-book-nonce".
Definition DEVICE_BOOK_SIGNATURE_HEADER : string := "x-proxy-device-book-signature".

(** Instants and durations in nanoseconds. *)
Definition RELAY_REPLAY_TTL : Z := 5 * 60 * 1000000000.
Definition RELAY_REPLAY_LIMIT : nat := 4096.
Notation RelayReplayCache := (gmap (DeviceId * vec Init.Byte.byte 32) Z) (only parsing).

Definition RELAY_PROTOCOL_VERSION : Z := 2.
Definition DEFAULT_PULL_LIMIT : Z := 512.

(** ** Wire types *)

Record RelayRequestAuth : Type := mk_auth {
  ra_epoch : barr 32;
  ra_nonce : barr 32;
  ra_caller : DeviceId;
}.

Record RelayWireEntry : Type := mk_wire_entry { we_seq : Z; we_envelope : bytes }.

Record RelayResponse : Type := mk_RelayResponse {
  rr_v : Z;
  rr_epoch : barr 32;
  rr_head : Z;
  rr_floor : Z;
  rr_next : Z;
  rr_reset : bool;
  rr_entries : list RelayWireEntry;
}.

Record RelayOp : Type := mk_RelayOp { ro_seq : Z; ro_op : SignedOp }.

Record RelayPage : Type := mk_RelayPage {
  rg_epoch : barr 32;
  rg_head : Z;
  rg_floor : Z;
  rg_next : Z;
  rg_reset : bool;
  rg_entries : list RelayOp;
}.

Definition RelayPage_cursor (p : RelayPage) : RelayCursor := mk_cursor (rg_epoch p) (rg_next p).

(** [HeaderValue::from_str]: a header value without control characters but the tab. *)
Definition header_char (c : ascii) : bool :=
  let n := char_code c in bool_decide (32 ≤ n)%Z && negb (bool_decide (n = 127)%Z) || bool_decide (n = 9)%Z.
Fixpoint header_text (s : string) : bool :=
  match s with "" => true | String c s => header_char c && header_text s end.
Definition header_value_from_str (v : string) : option string := if header_text v then Some v else None.

(** ** Stream bounds *)

Definition relay_needs_reset (request_epoch : barr 32) (after : Z) (state : RelayStreamState) : bool :=
  bool_decide (request_epoch = zeros 32) && bool_decide (rs_floor state > 0)%Z
  || negb (bool_decide (request_epoch = zeros 32)) && negb (bool_decide (request_epoch = rs_epoch state))
  || bool_decide (request_epoch = rs_epoch state)
     && (bool_decide (after < rs_floor state)%Z || bool_decide (after > rs_head state)%Z).

Definition valid_relay_state (state : RelayStreamState) : bool :=
  negb (bool_decide (rs_epoch state = zeros 32)) && bool_decide (rs_floor state ≤ rs_head state)%Z.

(** ** Signing inputs *)

Definition relay_request_signing_input (context : bytes) (caller serving_peer : DeviceId)
    (request_epoch : barr 32) (after request_bound : Z) (nonce : barr 32) : bytes :=
  context ++ caller ++ serving_peer ++ request_epoch ++ be_vec 8 after ++ be_vec 8 request_bound ++ nonce.

Definition relay_response_signing_input (context : bytes) (signer caller : DeviceId)
    (request_epoch : barr 32) (after request_bound : Z) (nonce : barr 32) (body : bytes) : bytes :=
  context ++ signer ++ caller ++ request_epoch ++ be_vec 8 after ++ be_vec 8 request_bound ++ nonce ++ body.

Definition device_book_signing_input (signer : DeviceId) (nonce : barr 32) (body : bytes) : bytes :=
  DEVICE_BOOK_SIGNING_CONTEXT ++ signer ++ nonce ++ body.

(** ** Prefix-free contexts

    Every context ends in the only NUL it has, so the fields after it can be
    read back from the input. *)

Definition nul_free (s : string) : Prop := Byte.x00 ∉ String.list_byte_of_string s.
#[export] Instance nul_free_dec s : Decision (nul_free s).
Proof. apply _. Defined.

Lemma stop_app_inj {A} (z : A) (l k x y : list A) :
  z ∉ l → z ∉ k → l ++ z :: x = k ++ z :: y → l = k ∧ x = y.
Proof.
  revert k; induction l as [|b l IH]; intros [|c k]; rewrite ?not_elem_of_cons; cbn; intros Hl Hk Heq;
    simplify_eq; [done | by destruct Hk | by destruct Hl |].
  destruct Hl as [_ Hl], Hk as [_ Hk]. by destruct (IH k Hl Hk) as [-> ->].
Qed.

Lemma context_app_inj (s t : string) (x y : bytes) :
  nul_free s → nul_free t → context s ++ x = context t ++ y →
  String.list_byte_of_string s = String.list_byte_of_string t ∧ x = y.
Proof.
  unfold context. rewrite <-!(assoc (++)). cbn. intros. by apply (stop_app_inj Byte.x00).
Qed.

(** A fixed-size field is read back from the front of an input. *)
Lemma vec_app_inj {n} (v w : barr n) (x y : bytes) :
  vec_to_list v ++ x = vec_to_list w ++ y → v = w ∧ x = y.
Proof.
  intros Heq. apply app_inj_1 in Heq as [Hv ->]; [|by rewrite !length_vec_to_list].
  split; [by apply vec_to_list_inj2 | done].
Qed.

Lemma be_vec_u64_inj a b : u64_ok a → u64_ok b → be_vec 8 a = be_vec 8 b → a = b.
Proof. intros Ha Hb Heq. by rewrite <-(be_val_be_vec_u64 a), <-(be_val_be_vec_u64 b), Heq. Qed.

(** The messages the node signs outside the pull protocol, by route. *)
Inductive RelayRoute : Type := RouteOps | RouteHead | RouteWatch.
Definition request_context (r : RelayRoute) : bytes :=
  match r with
  | RouteOps => RELAY_OPS_REQUEST_CONTEXT
  | RouteHead => RELAY_HEAD_REQUEST_CONTEXT
  | RouteWatch => RELAY_WATCH_REQUEST_CONTEXT
  end.
Definition response_context (r : RelayRoute) : bytes :=
  match r with
  | RouteOps => RELAY_OPS_SIGNING_CONTEXT
  | RouteHead => RELAY_HEAD_SIGNING_CONTEXT
  | RouteWatch => RELAY_WATCH_SIGNING_CONTEXT
  end.

Inductive Attested : Type :=
  | AttOp (canon : bytes)
  | AttRequest (r : RelayRoute) (caller serving_peer : DeviceId) (epoch : barr 32) (after bound : Z)
      (nonce : barr 32)
  | AttResponse (r : RelayRoute) (signer caller : DeviceId) (epoch : barr 32) (after bound : Z)
      (nonce : barr 32) (body : bytes)
  | AttBook (signer : DeviceId) (nonce : barr 32) (body : bytes).

Definition attested_ok (m : Attested) : Prop :=
  match m with
  | AttRequest _ _ _ _ after bound _ => u64_ok after ∧ u64_ok bound
  | AttResponse _ _ _ _ after bound _ _ => u64_ok after ∧ u64_ok bound
  | _ => True
  end.

Definition attested_input (m : Attested) : bytes :=
  match m with
  | AttOp canon => signing_input canon
  | AttRequest r caller peer epoch after bound nonce =>
      relay_request_signing_input (request_context r) caller peer epoch after bound nonce
  | AttResponse r signer caller epoch after bound nonce body =>
      relay_response_signing_input (response_context r) signer caller epoch after bound nonce body
  | AttBook signer nonce body => device_book_signing_input signer nonce body
  end.

(** The context of a message, as a string, and the fields after it. *)
Definition attested_context (m : Attested) : string :=
  match m with
  | AttOp _ => "proxy-node-server/op/v1"
  | AttRequest RouteOps _ _ _ _ _ _ => "proxy-node-server/relay/request/ops/v2"
  | AttRequest RouteHead _ _ _ _ _ _ => "proxy-node-server/relay/request/head/v2"
  | AttRequest RouteWatch _ _ _ _ _ _ => "proxy-node-server/relay/request/watch/v2"
  | AttResponse RouteOps _ _ _ _ _ _ _ => "proxy-node-server/relay/ops/v2"
  | AttResponse RouteHead _ _ _ _ _ _ _ => "proxy-node-server/relay/head/v2"
  | AttResponse RouteWatch _ _ _ _ _ _ _ => "proxy-node-server/relay/watch/v2"
  | AttBook _ _ _ => "proxy-node-server/device-book/v2"
  end.
Definition attested_fields (m : Attested) : bytes :=
  match m with
  | AttOp canon => canon
  | AttRequest _ caller peer epoch after bound nonce =>
      caller ++ peer ++ epoch ++ be_vec 8 after ++ be_vec 8 bound ++ nonce
  | AttResponse _ signer caller epoch after bound nonce body =>
      signer ++ caller ++ epoch ++ be_vec 8 after ++ be_vec 8 bound ++ nonce ++ body
  | AttBook signer nonce body => signer ++ nonce ++ body
  end.

Lemma attested_split m : attested_input m = context (attested_context m) ++ attested_fields m.
Proof. destruct m as [|[]|[]|]; reflexivity. Qed.

Lemma attested_context_nul_free m : nul_free (attested_context m).
Proof. destruct m as [|[]|[]|]; apply (bool_decide_unpack _); vm_compute; exact I. Qed.

(** Domain separation.  Two well-formed messages the node signs or verifies
    (op bodies, relay requests and responses of each route, device books) that
    have the same signing input are the same message: no signature made for one
    purpose, route, caller, peer, cursor, bound, nonce or body is valid for
    another. *)
Lemma signing_inputs_separate (m1 m2 : Attested) :
  attested_ok m1 → attested_ok m2 → attested_input m1 = attested_input m2 → m1 = m2.
Proof.
  intros Hok1 Hok2. rewrite !attested_split.
  intros [Hc Hf]%context_app_inj; try apply attested_context_nul_free.
  destruct m1 as [|[]|[]|], m2 as [|[]|[]|]; try discriminate Hc; clear Hc; cbn in Hf, Hok1, Hok2;
    repeat match goal with
    | H : vec_to_list _ ++ _ = vec_to_list _ ++ _ |- _ => apply vec_app_inj in H as [? ?]
    | H : vec_to_list ?v = vec_to_list ?w |- _ => apply vec_to_list_inj2 in H
    | H : _ ∧ _ |- _ => destruct H
    | H : be_vec 8 _ = be_vec 8 _ |- _ => apply be_vec_u64_inj in H; [|assumption..]
    end; by subst.
Qed.

Section relay.
Context `{Crypto, Postcard, !Wire BodyRepr, !Wire EnvelopeRepr, !Wire RelayResponse}.

(** ** Signing *)

Definition sign_relay_request (identity : DeviceIdentity) (context : bytes) (serving_peer : DeviceId)
    (request_epoch : barr 32) (after request_bound : Z) (nonce : barr 32) : barr 64 :=
  let signature := identity_sign identity
    (relay_request_signing_input context (device_id identity) serving_peer request_epoch after
       request_bound nonce) in
  sig_to_bytes (default signature (normalize_s signature)).

Definition sign_relay_response (identity : DeviceIdentity) (caller : DeviceId) (context : bytes)
    (request_epoch : barr 32) (after request_bound : Z) (nonce : barr 32) (body : bytes) : barr 64 :=
  let signature := identity_sign identity
    (relay_response_signing_input context (device_id identity) caller request_epoch after
       request_bound nonce body) in
  sig_to_bytes (default signature (normalize_s signature)).

Definition sign_device_book (identity : DeviceIdentity) (nonce : barr 32) (body : bytes) : barr 64 :=
  let signature := identity_sign identity (device_book_signing_input (device_id identity) nonce body) in
  sig_to_bytes (default signature (normalize_s signature)).

(** ** The request guard and its replay cache *)

(** [replays.retain(|_, seen| now.saturating_duration_since( *seen) <= RELAY_REPLAY_TTL)] *)
Definition fresh_replays (now : Z) (replays : RelayReplayCache) : RelayReplayCache :=
  filter (λ kv, (Z.max 0 (now - kv.2) ≤ RELAY_REPLAY_TTL)%Z) replays.

(** The checks before the cache: what the caller signed. *)
Definition relay_authenticate {D} `{!DeviceBook D} (epoch : string) (after request_bound : Z)
    (headers : list (string * string)) (request_context : bytes) (serving_peer : DeviceId) (devices : D)
    : result Z RelayRequestAuth :=
  epoch ← ok_or (decode_fixed_hex 32 epoch) BAD_REQUEST;
  if decide (epoch = zeros 32 ∧ after ≠ 0%Z) then Err BAD_REQUEST else
  nonce ← ok_or (header RELAY_NONCE_HEADER headers) BAD_REQUEST;
  nonce ← ok_or (header_to_str nonce ≫= decode_fixed_hex 32) UNAUTHORIZED;
  caller ← ok_or ((header RELAY_CALLER_HEADER headers ≫= header_to_str) ≫= decode_fixed_hex 32) UNAUTHORIZED;
  signature ← ok_or (((header RELAY_REQUEST_SIGNATURE_HEADER headers ≫= header_to_str)
                        ≫= decode_fixed_hex 64) ≫= λ bs : barr 64, sig_from_slice bs) UNAUTHORIZED;
  if normalize_s signature then Err UNAUTHORIZED else
  sec1 ← map_err (λ _, SERVICE_UNAVAILABLE) (try_key_for_device devices caller);
  sec1 ← ok_or sec1 UNAUTHORIZED;
  if decide (ok (device_id_from_sec1 sec1) ≠ Some caller) then Err UNAUTHORIZED else
  verifying ← ok_or (vk_from_sec1 sec1) UNAUTHORIZED;
  _ ← map_err (λ _, UNAUTHORIZED)
        (identity_verify verifying
           (relay_request_signing_input request_context caller serving_peer epoch after request_bound nonce)
           signature);
  Ok (mk_auth epoch nonce caller).

(** [relay_request]; [now] is the monotonic clock. *)
Definition relay_request {D} `{!DeviceBook D} (epoch : string) (after request_bound : Z)
    (headers : list (string * string)) (request_context : bytes) (serving_peer : DeviceId) (devices : D)
    (now : Z) (replays : RelayReplayCache) : result Z RelayRequestAuth * RelayReplayCache :=
  match relay_authenticate epoch after request_bound headers request_context serving_peer devices with
  | Err status => (Err status, replays)
  | Ok auth =>
      let replays := fresh_replays now replays in
      if decide (is_Some (replays !! (ra_caller auth, ra_nonce auth))) then (Err CONFLICT, replays) else
      if decide (RELAY_REPLAY_LIMIT ≤ size replays) then (Err TOO_MANY_REQUESTS, replays) else
      (Ok auth, <[(ra_caller auth, ra_nonce auth) := now]> replays)
  end.

(** ** Responses *)

Definition wire_entry (entry : RelayLogEntry) : result OpError RelayWireEntry :=
  envelope ← op_to_bytes (re_op entry);
  Ok (mk_wire_entry (re_seq entry) envelope).

Definition signed_relay_response (identity : DeviceIdentity) (caller : DeviceId) (context : bytes)
    (request_epoch : barr 32) (after request_bound : Z) (nonce : barr 32) (state : RelayStreamState)
    (reset : bool) (next : Z) (entries : list RelayLogEntry) : Response :=
  match try_map wire_entry entries with
  | Err _ => status_response INTERNAL_SERVER_ERROR
  | Ok wire_entries =>
      let response := mk_RelayResponse RELAY_PROTOCOL_VERSION (rs_epoch state) (rs_head state)
                        (rs_floor state) next reset wire_entries in
      match to_allocvec response with
      | Err _ => status_response INTERNAL_SERVER_ERROR
      | Ok body =>
          let signature :=
            sign_relay_response identity caller context request_epoch after request_bound nonce body in
          match header_value_from_str (encode_hex signature) with
          | None => status_response INTERNAL_SERVER_ERROR
          | Some signature => with_header (octet body) RELAY_SIGNATURE_HEADER signature
          end
      end
  end.

(** ** Verification of a response *)

(** The signature checks [verify_device_book] and [verify_relay_signature] make
    on their input, the messages being [what]'s. *)
Definition verify_attested (what : string) (expected_peer : DeviceId) (expected_sec1 : barr 33)
    (input : bytes) (signature_hex : string) : result TransportError () :=
  derived ← map_err TransIdentity (device_id_from_sec1 expected_sec1);
  if decide (derived ≠ expected_peer)
  then Err (IdentityMismatch (DeviceId_to_hex expected_peer) (DeviceId_to_hex derived)) else
  verifying ← ok_or (vk_from_sec1 expected_sec1) (TransIdentity InvalidPublicKey);
  signature_bytes ← ok_or (decode_fixed_hex 64 signature_hex)
                      (WireErr ("invalid " +:+ what +:+ " signature header"));
  signature ← ok_or (sig_from_slice (signature_bytes : barr 64)) (WireErr ("invalid " +:+ what +:+ " P-256 signature"));
  if normalize_s signature then Err (WireErr (what +:+ " signature is not low-S canonical")) else
  map_err TransIdentity (identity_verify verifying input signature).

Definition verify_device_book (expected_peer : DeviceId) (expected_sec1 : barr 33) (nonce : barr 32)
    (body : bytes) (signature_hex : string) : result TransportError () :=
  verify_attested "device-book" expected_peer expected_sec1
    (device_book_signing_input expected_peer nonce body) signature_hex.

Definition verify_relay_signature (caller expected_peer : DeviceId) (expected_sec1 : barr 33)
    (context : bytes) (cursor : RelayCursor) (request_bound : Z) (nonce : barr 32) (body : bytes)
    (signature_hex : string) : result TransportError () :=
  verify_attested "relay" expected_peer expected_sec1
    (relay_response_signing_input context expected_peer caller (rc_epoch cursor) (rc_after cursor)
       request_bound nonce body) signature_hex.

(** The loop over the entries: each sequence number is the successor of the one
    before and at most [head]. *)
Fixpoint contiguous (previous head : Z) (seqs : list Z) : bool :=
  match seqs with
  | [] => true
  | seq :: seqs =>
      bool_decide (checked_add_u64 previous 1 = Some seq) && bool_decide (seq ≤ head)%Z
      && contiguous seq head seqs
  end.

(** [entries.last().map(|entry| entry.seq).unwrap_or(after)] *)
Definition last_seq (after : Z) (seqs : list Z) : Z := default after (last seqs).

Definition relay_op (entry : RelayWireEntry) : result TransportError RelayOp :=
  op ← map_err TransOp (op_from_bytes (we_envelope entry));
  Ok (mk_RelayOp (we_seq entry) op).

Definition decode_relay_response (wire : RelayResponse) (cursor : RelayCursor) (max_entries : Z)
    (status_only : bool) : result TransportError RelayPage :=
  if decide (rr_v wire ≠ RELAY_PROTOCOL_VERSION)
  then Err (WireErr ("unsupported relay protocol version " +:+ pretty (rr_v wire))) else
  if decide (rr_epoch wire = zeros 32 ∨ (rr_floor wire > rr_head wire)%Z)
  then Err (WireErr "invalid relay stream bounds") else
  let cursor_invalid := relay_needs_reset (rc_epoch cursor) (rc_after cursor)
                          (mk_stream (rr_epoch wire) (rr_head wire) (rr_floor wire)) in
  if rr_reset wire then
    if negb cursor_invalid || negb (bool_decide (length (rr_entries wire) = 0))
       || negb (bool_decide (rr_next wire = rr_floor wire))
    then Err (WireErr "invalid relay reset response")
    else Ok (mk_RelayPage (rr_epoch wire) (rr_head wire) (rr_floor wire) (rr_next wire) true [])
  else if cursor_invalid then Err (WireErr "relay response did not reset an invalid cursor") else
  _ ← (if status_only then
         if negb (bool_decide (length (rr_entries wire) = 0)) || negb (bool_decide (rr_next wire = rc_after cursor))
         then Err (WireErr "invalid relay status response") else Ok ()
       else
         let seqs := we_seq <$> rr_entries wire in
         if decide (max_entries < len (rr_entries wire))%Z
         then Err (WireErr "relay page exceeds requested limit") else
         if negb (contiguous (rc_after cursor) (rr_head wire) seqs)
         then Err (WireErr "relay sequence is not strictly increasing as a contiguous prefix") else
         if decide (rr_next wire ≠ last_seq (rc_after cursor) seqs
                    ∨ (rr_next wire < rr_floor wire)%Z ∨ (rr_next wire > rr_head wire)%Z)
         then Err (WireErr "invalid relay page next cursor") else Ok ());
  entries ← try_map relay_op (rr_entries wire);
  Ok (mk_RelayPage (rr_epoch wire) (rr_head wire) (rr_floor wire) (rr_next wire) false entries).

(** ** The request guard *)

(** The headers [request_relay] attaches. *)
Definition relay_headers (identity : DeviceIdentity) (nonce : barr 32) (signature : barr 64)
    : list (string * string) :=
  [(RELAY_NONCE_HEADER, encode_hex nonce);
   (RELAY_CALLER_HEADER, DeviceId_to_hex (device_id identity));
   (RELAY_REQUEST_SIGNATURE_HEADER, encode_hex signature)].

Lemma fresh_replays_lookup now replays k t :
  fresh_replays now replays !! k = Some t ↔ replays !! k = Some t ∧ (Z.max 0 (now - t) ≤ RELAY_REPLAY_TTL)%Z.
Proof. apply map_lookup_filter_Some. Qed.

Lemma fresh_replays_size now replays : size (fresh_replays now replays) ≤ size replays.
Proof. apply map_subseteq_size, map_filter_subseteq. Qed.

(** One accepted request: it authenticates, its pair was not seen within the
    window, there was room, and the pair is now recorded. *)
Lemma relay_request_ok {D} `{!DeviceBook D} epoch after bound headers context peer (devices : D) now
    replays auth replays' :
  relay_request epoch after bound headers context peer devices now replays = (Ok auth, replays') ↔
  relay_authenticate epoch after bound headers context peer devices = Ok auth ∧
  fresh_replays now replays !! (ra_caller auth, ra_nonce auth) = None ∧
  size (fresh_replays now replays) < RELAY_REPLAY_LIMIT ∧
  replays' = <[(ra_caller auth, ra_nonce auth) := now]> (fresh_replays now replays).
Proof.
  unfold relay_request.
  destruct (relay_authenticate _ _ _ _ _ _ _) as [a|st]; [|naive_solver].
  repeat case_decide; rewrite ?eq_None_not_Some; split;
    [naive_solver | naive_solver | naive_solver lia | naive_solver lia | naive_solver lia |].
  intros ([= ->] & _ & _ & ->). done.
Qed.

(** A refused request records nothing. *)
Lemma relay_request_err {D} `{!DeviceBook D} epoch after bound headers context peer (devices : D) now
    replays st replays' :
  relay_request epoch after bound headers context peer devices now replays = (Err st, replays') →
  replays' ⊆ replays.
Proof.
  unfold relay_request. intros Hr. assert (fresh_replays now replays ⊆ replays) by apply map_filter_subseteq.
  crush_match; by simplify_eq.
Qed.

(** ** Signed requests are accepted, accepted requests were signed *)

Lemma hex_byte_chars (b : byte) :
  let hi := hex_digit (Z.shiftr (byte.unsigned b) 4) in
  let lo := hex_digit (Z.land (byte.unsigned b) 15) in
  (visible_char hi && visible_char lo) && (header_char hi && header_char lo) = true.
Proof. destruct b; vm_compute; reflexivity. Qed.

Lemma hex_visible bs : header_to_str (encode_hex bs) = Some (encode_hex bs).
Proof.
  unfold header_to_str. enough (header_visible (encode_hex bs) = true) as -> by done.
  induction bs as [|b bs IH]; [done|]. pose proof (hex_byte_chars b) as [[Hh Hl]%andb_true_iff _]%andb_true_iff.
  cbn [encode_hex header_visible]. by rewrite Hh, Hl, IH.
Qed.

Lemma hex_header_value bs : header_value_from_str (encode_hex bs) = Some (encode_hex bs).
Proof.
  unfold header_value_from_str. enough (header_text (encode_hex bs) = true) as -> by done.
  induction bs as [|b bs IH]; [done|]. pose proof (hex_byte_chars b) as [_ [Hh Hl]%andb_true_iff]%andb_true_iff.
  cbn [encode_hex header_text]. by rewrite Hh, Hl, IH.
Qed.

Lemma relay_headers_get i nonce signature :
  header RELAY_NONCE_HEADER (relay_headers i nonce signature) = Some (encode_hex nonce) ∧
  header RELAY_CALLER_HEADER (relay_headers i nonce signature) = Some (encode_hex (device_id i)) ∧
  header RELAY_REQUEST_SIGNATURE_HEADER (relay_headers i nonce signature) = Some (encode_hex signature).
Proof. repeat split; reflexivity. Qed.

(** A request the caller signed passes every check. *)
Lemma relay_authenticate_signed `{!CryptoOk} {D} `{!DeviceBook D} i context peer epoch after bound nonce
    (devices : D) :
  identity_wf i → try_key_for_device devices (device_id i) = Ok (Some (public_key_sec1 i)) →
  (epoch = zeros 32 → after = 0%Z) →
  relay_authenticate (encode_hex epoch) after bound
    (relay_headers i nonce (sign_relay_request i context peer epoch after bound nonce))
    context peer devices = Ok (mk_auth epoch nonce (device_id i)).
Proof.
  intros Hwf Hkey Hepoch. pose proof (identity_wf_verifying _ Hwf) as [Hv Hid].
  unfold relay_authenticate. rewrite decode_fixed_hex_encode. cbn [ok_or mbind result_bind].
  rewrite decide_False by naive_solver.
  destruct (relay_headers_get i nonce (sign_relay_request i context peer epoch after bound nonce))
    as (-> & -> & ->). cbn [ok_or mbind result_bind option_bind].
  rewrite !hex_visible. cbn [ok_or mbind result_bind option_bind].
  rewrite !decode_fixed_hex_encode. cbn [ok_or mbind result_bind option_bind].
  unfold sign_relay_request. rewrite sig_roundtrip. cbn [ok_or mbind result_bind option_bind].
  destruct (sign_low_verifies i
    (relay_request_signing_input context (device_id i) peer epoch after bound nonce) Hwf) as [Hok ->].
  rewrite Hkey. cbn [map_err ok_or mbind result_bind]. unfold public_key_sec1.
  rewrite device_id_from_sec1_key, Hid. cbn [ok]. rewrite decide_False by naive_solver.
  unfold sec1_compressed. rewrite sec1_roundtrip. cbn [ok_or mbind result_bind]. rewrite <-Hid, Hok. done.
Qed.

(** C23: Authentication of the relay routes.  Whatever the epoch text, headers
    and device book, a request the guard accepts names a device the book holds
    a key for, the key derives exactly that device id, and the key verifies a
    low-S signature over this route, this server, and the epoch, position,
    bound and nonce the guard answers; a first-contact request asks from zero. *)
Theorem relay_request_authentic {D} `{!DeviceBook D} epoch after bound headers context peer (devices : D)
    now replays auth replays' :
  relay_request epoch after bound headers context peer devices now replays = (Ok auth, replays') →
  decode_fixed_hex 32 epoch = Some (ra_epoch auth) ∧
  (ra_epoch auth = zeros 32 → after = 0%Z) ∧
  replays' !! (ra_caller auth, ra_nonce auth) = Some now ∧
  ∃ sec1 key signature,
    try_key_for_device devices (ra_caller auth) = Ok (Some sec1) ∧
    vk_from_sec1 sec1 = Some key ∧ device_id_of_key key = ra_caller auth ∧
    normalize_s signature = None ∧
    vk_verify key (relay_request_signing_input context (ra_caller auth) peer (ra_epoch auth) after bound
                     (ra_nonce auth)) signature = true.
Proof.
  intros (Ha & _ & _ & ->)%relay_request_ok. rewrite lookup_insert_eq. unfold relay_authenticate in Ha.
  inv_bind Ha. apply ok_or_ok in Hr as ->. case_decide as He; [done|].
  inv_bind Ha. inv_bind Ha. inv_bind Ha. inv_bind Ha. destruct (normalize_s r3) eqn:Hn; [done|].
  inv_bind Ha. inv_bind Ha. case_decide as Hd; [done|]. inv_bind Ha. inv_bind Ha.
  injection Ha as <-. cbn [ra_epoch ra_nonce ra_caller].
  apply map_err_ok in Hr3. apply ok_or_ok in Hr4 as ->. apply ok_or_ok in Hr5.
  apply map_err_ok in Hr6. unfold identity_verify in Hr6.
  destruct (vk_verify _ _ _) eqn:Hvk in Hr6; [|done].
  split_and!; [done | by intros ->; destruct (decide (after = 0%Z)); naive_solver | done |].
  exists r5, r6, r3. split_and!; [done.. | | done | done].
  unfold device_id_from_sec1 in Hd. rewrite Hr5 in Hd. cbn in Hd.
  destruct (decide (device_id_of r6 = r2)); naive_solver.
Qed.

(** ** Runs of the guard *)

Record RelayCall : Type := mk_call {
  call_epoch : string;
  call_after : Z;
  call_bound : Z;
  call_headers : list (string * string);
  call_context : bytes;
  call_now : Z;
}.

Section runs.
Context {D : Type} `{!DeviceBook D} (peer : DeviceId) (devices : D).

Definition serve_call (replays : RelayReplayCache) (c : RelayCall)
    : result Z RelayRequestAuth * RelayReplayCache :=
  relay_request (call_epoch c) (call_after c) (call_bound c) (call_headers c) (call_context c) peer
    devices (call_now c) replays.

Fixpoint serve_calls (replays : RelayReplayCache) (calls : list RelayCall)
    : list (result Z RelayRequestAuth) * RelayReplayCache :=
  match calls with
  | [] => ([], replays)
  | c :: calls =>
      let '(out, replays) := serve_call replays c in
      let '(outs, replays) := serve_calls replays calls in
      (out :: outs, replays)
  end.

Lemma serve_calls_cons replays c calls :
  serve_calls replays (c :: calls) =
    ((serve_call replays c).1 :: (serve_calls (serve_call replays c).2 calls).1,
     (serve_calls (serve_call replays c).2 calls).2).
Proof. cbn. destruct (serve_call replays c) as [out r]. cbn. by destruct (serve_calls r calls). Qed.

Lemma serve_call_size replays c :
  size replays ≤ RELAY_REPLAY_LIMIT → size (serve_call replays c).2 ≤ RELAY_REPLAY_LIMIT.
Proof.
  intros Hs. destruct (serve_call replays c) as [[auth|st] replays'] eqn:Hc.
  - apply relay_request_ok in Hc as (_ & Hn & Hlt & ->). cbn. rewrite map_size_insert_None by done. lia.
  - apply relay_request_err, map_subseteq_size in Hc. cbn. lia.
Qed.

Lemma serve_calls_size replays calls :
  size replays ≤ RELAY_REPLAY_LIMIT → size (serve_calls replays calls).2 ≤ RELAY_REPLAY_LIMIT.
Proof.
  revert replays; induction calls as [|c calls IH]; intros replays Hs; [done|].
  rewrite serve_calls_cons. cbn. by apply IH, serve_call_size.
Qed.

(** What one call does to a recorded pair: it stays, or its window has passed. *)
Lemma serve_call_keeps replays c k t :
  (t ≤ call_now c)%Z → replays !! k = Some t →
  (RELAY_REPLAY_TTL < call_now c - t)%Z ∨
  (serve_call replays c).2 !! k = Some t ∧
  ∀ auth, (serve_call replays c).1 = Ok auth → (ra_caller auth, ra_nonce auth) ≠ k.
Proof.
  intros Ht Hk. destruct (decide (RELAY_REPLAY_TTL < call_now c - t)%Z) as [|Hw]; [by left | right].
  assert (Hf : fresh_replays (call_now c) replays !! k = Some t)
    by (apply fresh_replays_lookup; split; [done | lia]).
  unfold serve_call, relay_request. destruct (relay_authenticate _ _ _ _ _ _ _) as [a|]; [|done].
  case_decide as Hd; [|case_decide]; cbn [fst snd]; [by split | by split |].
  assert ((ra_caller a, ra_nonce a) ≠ k) by (intros <-; apply Hd; eauto).
  split; [by rewrite lookup_insert_ne | by intros ? [= <-]].
Qed.

Lemma serve_calls_recorded replays calls k t :
  StronglySorted Z.le (t :: (call_now <$> calls)) → replays !! k = Some t →
  ∀ j c auth, calls !! j = Some c → (serve_calls replays calls).1 !! j = Some (Ok auth) →
    (ra_caller auth, ra_nonce auth) = k → (RELAY_REPLAY_TTL < call_now c - t)%Z.
Proof.
  revert replays; induction calls as [|c0 calls IH]; intros replays Hs Hk j c auth Hc Ho Hak; [done|].
  apply StronglySorted_inv in Hs as [Hs Ht]. apply Forall_cons in Ht as [Ht0 Ht].
  destruct (serve_call_keeps replays c0 k t) as [Hw | [Hk' Hne]]; try done.
  - enough (call_now c0 ≤ call_now c)%Z by lia.
    destruct j as [|j]; cbn in Hc; [by simplify_eq|].
    apply StronglySorted_inv in Hs as [_ Hs]. eapply Forall_forall; [exact Hs|].
    apply list_elem_of_fmap. eauto using list_elem_of_lookup_2.
  - rewrite serve_calls_cons in Ho. destruct j as [|j]; cbn in Hc, Ho.
    + injection Ho as Ho. by destruct (Hne _ Ho).
    + eapply (IH _ _ Hk'); [exact Hc | exact Ho | exact Hak].
      Unshelve. apply StronglySorted_inv in Hs as [Hs _]. by constructor.
Qed.

(** C20: Replay protection of the relay routes.  Over any run of the request
    guard, whatever the requests, on a monotonic clock: the cache never holds
    more than [RELAY_REPLAY_LIMIT] pairs, and two accepted requests of the run
    with the same caller and nonce are more than [RELAY_REPLAY_TTL] apart. *)
Theorem relay_no_replay replays calls :
  size replays ≤ RELAY_REPLAY_LIMIT → StronglySorted Z.le (call_now <$> calls) →
  let '(outs, replays') := serve_calls replays calls in
  size replays' ≤ RELAY_REPLAY_LIMIT ∧
  ∀ i j ci cj ai aj, i < j → calls !! i = Some ci → calls !! j = Some cj →
    outs !! i = Some (Ok ai) → outs !! j = Some (Ok aj) →
    ra_caller ai = ra_caller aj → ra_nonce ai = ra_nonce aj →
    (RELAY_REPLAY_TTL < call_now cj - call_now ci)%Z.
Proof.
  intros Hsize Hs. rewrite (surjective_pairing (serve_calls _ _)).
  split; [by apply serve_calls_size|]. clear Hsize. revert replays Hs.
  induction calls as [|c calls IH]; intros replays Hs i j ci cj ai aj Hij Hi Hj Hoi Hoj Hc Hn; [done|].
  rewrite serve_calls_cons in Hoi, Hoj. destruct j as [|j]; [lia|]. cbn in Hj, Hoj.
  destruct i as [|i]; cbn in Hi, Hoi.
  - injection Hi as ->. injection Hoi as Hoi. destruct (serve_call replays ci) as [out r] eqn:Hcall.
    cbn in Hoi, Hoj. subst out. apply relay_request_ok in Hcall as (_ & _ & _ & ->).
    refine (serve_calls_recorded _ calls (ra_caller ai, ra_nonce ai) _ Hs _ j cj aj Hj Hoj _).
    + apply lookup_insert_eq.
    + by rewrite Hc, Hn.
  - apply StronglySorted_inv in Hs as [Hs _].
    by apply (IH (serve_call replays c).2 Hs i j ci cj ai aj); [lia | ..].
Qed.
End runs.

(** ** Responses are accepted exactly when they were signed *)

Lemma verify_attested_signed `{!CryptoOk} what i input :
  identity_wf i →
  verify_attested what (device_id i) (public_key_sec1 i) input
    (encode_hex (sig_to_bytes (default (identity_sign i input) (normalize_s (identity_sign i input))))) = Ok ().
Proof.
  intros Hwf. pose proof (identity_wf_verifying _ Hwf) as [_ Hid]. unfold verify_attested, public_key_sec1.
  rewrite device_id_from_sec1_key. cbn [map_err mbind result_bind]. rewrite decide_False by (rewrite Hid; naive_solver).
  unfold sec1_compressed. rewrite sec1_roundtrip. cbn [ok_or mbind result_bind].
  rewrite decode_fixed_hex_encode. cbn [ok_or mbind result_bind]. rewrite sig_roundtrip. cbn [ok_or mbind result_bind].
  by destruct (sign_low_verifies i input Hwf) as [-> ->].
Qed.

Lemma verify_attested_sound what peer sec1 input signature_hex :
  verify_attested what peer sec1 input signature_hex = Ok () →
  ∃ key signature, vk_from_sec1 sec1 = Some key ∧ device_id_of_key key = peer ∧
    normalize_s signature = None ∧ vk_verify key input signature = true.
Proof.
  unfold verify_attested, device_id_from_sec1. destruct (vk_from_sec1 sec1) as [key|] eqn:Hkey; [|done].
  cbn [ok_or mbind result_bind map_err]. case_decide as Hd; [done|]. intros Hv. inv_bind Hv. inv_bind Hv.
  destruct (normalize_s r0) eqn:Hn; [done|]. apply map_err_ok in Hv. unfold identity_verify in Hv.
  destruct (vk_verify key input r0) eqn:Hk; [|done]. exists key, r0.
  by split_and!.
Qed.

(** ** What a decoded page satisfies *)

Lemma contiguous_seqs previous head seqs :
  contiguous previous head seqs = true →
  seqs = seqZ (previous + 1) (len seqs) ∧ (seqs ≠ [] → previous + len seqs ≤ head)%Z.
Proof.
  revert previous; induction seqs as [|seq seqs IH]; intros previous; cbn [contiguous]; [done|].
  rewrite !andb_true_iff, !bool_decide_eq_true. intros [[[_ ->]%checked_add_u64_some Hle] Hrest].
  apply IH in Hrest as [Hs Hb]. rewrite len_cons. pose proof (len_nonneg seqs). split.
  - rewrite seqZ_cons by lia. f_equal. rewrite Hs at 1. f_equal; lia.
  - intros _. destruct seqs as [|x l]; [rewrite len_nil; lia|]. specialize (Hb ltac:(done)). lia.
Qed.

Lemma seqZ_contiguous previous head {A} (l : list A) :
  (0 ≤ previous)%Z → (previous + len l ≤ head)%Z → (head < u64_modulus)%Z →
  contiguous previous head (seqZ (previous + 1) (len l)) = true.
Proof.
  revert previous; induction l as [|x l IH]; intros previous Hp Hle Hh; [done|].
  pose proof (len_nonneg l). rewrite len_cons in *.
  rewrite seqZ_cons by lia. cbn [contiguous]. unfold checked_add_u64. rewrite decide_True by lia.
  rewrite !bool_decide_eq_true_2 by (done || lia). cbn [andb].
  replace (Z.pred (1 + len l)) with (len l) by lia.
  replace (Z.succ (previous + 1)) with (previous + 1 + 1)%Z by lia. apply IH; lia.
Qed.

Lemma last_seqZ after {A} (l : list A) : last_seq after (seqZ (after + 1) (len l)) = (after + len l)%Z.
Proof.
  unfold last_seq. destruct l as [|x l _] using rev_ind; [rewrite len_nil, seqZ_nil by lia; cbn; lia|].
  pose proof (len_nonneg l). rewrite len_app, len_cons, len_nil.
  rewrite seqZ_app, last_app, (seqZ_cons _ (1 + 0)), seqZ_nil by lia. cbn. lia.
Qed.

(** The stream a page describes, and the pages a client may hold for a cursor:
    a reset of a cursor the stream does not have, or consecutive entries after
    a cursor it has, within the bounds. *)
Definition page_stream (page : RelayPage) : RelayStreamState :=
  mk_stream (rg_epoch page) (rg_head page) (rg_floor page).
Definition relay_page_ok (cursor : RelayCursor) (max_entries : Z) (status_only : bool) (page : RelayPage) : Prop :=
  valid_relay_state (page_stream page) = true ∧
  rg_reset page = relay_needs_reset (rc_epoch cursor) (rc_after cursor) (page_stream page) ∧
  if rg_reset page then rg_entries page = [] ∧ rg_next page = rg_floor page
  else
    ro_seq <$> rg_entries page = seqZ (rc_after cursor + 1) (len (rg_entries page)) ∧
    rg_next page = (rc_after cursor + len (rg_entries page))%Z ∧
    if status_only then rg_entries page = []
    else (len (rg_entries page) ≤ max_entries)%Z ∧ (rg_floor page ≤ rg_next page ≤ rg_head page)%Z.

Lemma relay_op_seq entries ops :
  try_map relay_op entries = Ok ops → ro_seq <$> ops = we_seq <$> entries ∧ len ops = len entries.
Proof.
  rewrite try_map_ok. induction 1 as [|e o entries ops Ho _ [IH IHl]]; [done|].
  unfold relay_op in Ho. inv_bind Ho. injection Ho as <-. rewrite !fmap_cons, !len_cons, IH, IHl. done.
Qed.

Lemma decode_relay_response_ok wire cursor max_entries status_only page :
  decode_relay_response wire cursor max_entries status_only = Ok page →
  relay_page_ok cursor max_entries status_only page.
Proof.
  unfold decode_relay_response, relay_page_ok. case_decide; [done|]. case_decide as Hb; [done|].
  assert (Hvalid : valid_relay_state (mk_stream (rr_epoch wire) (rr_head wire) (rr_floor wire)) = true).
  { unfold valid_relay_state. cbn. apply andb_true_iff. rewrite negb_true_iff, bool_decide_eq_false, bool_decide_eq_true.
    split; [naive_solver|]. destruct (decide (rr_floor wire ≤ rr_head wire)%Z); [done|]. destruct Hb. right. lia. }
  set (bad := relay_needs_reset _ _ _).
  destruct (rr_reset wire).
  { case_match eqn:Hc; [done|]. intros [= <-]. cbn. apply orb_false_iff in Hc as [[Hbad%negb_false_iff _]%orb_false_iff Hn].
    apply negb_false_iff, bool_decide_eq_true in Hn. by split_and!. }
  destruct bad eqn:Hbad; [done|]. intros Hd. inv_bind Hd. inv_bind Hd. injection Hd as <-. cbn.
  apply relay_op_seq in Hr0 as [Hseq Hlen]. rewrite Hseq, Hlen.
  split; [done|]. split; [done|]. destruct status_only.
  - case_match eqn:Hc; [done|]. apply orb_false_iff in Hc as [He Hn].
    apply negb_false_iff, bool_decide_eq_true, nil_length_inv in He. apply negb_false_iff, bool_decide_eq_true in Hn.
    rewrite He in *. unfold len in *. cbn in *. split_and!; [done|lia|]. destruct r0; [done|cbn in *; lia].
  - case_decide; [done|]. case_match eqn:Hc; [done|]. apply negb_false_iff in Hc.
    apply contiguous_seqs in Hc as [Hs _]. unfold len in Hs. rewrite length_fmap in Hs. fold (len (rr_entries wire)) in Hs.
    assert (Hlast : last_seq (rc_after cursor) (we_seq <$> rr_entries wire) =
      (rc_after cursor + len (rr_entries wire))%Z) by (rewrite Hs; apply last_seqZ).
    rewrite Hlast in Hr. case_decide as Hnx; [done|]. assert (rr_next wire = rc_after cursor + len (rr_entries wire))%Z.
    { destruct (decide (rr_next wire = rc_after cursor + len (rr_entries wire))%Z); [done|]. destruct Hnx. by left. }
    split_and!; try done; lia.
Qed.
End relay.
