(* ===== verification/Gate.v ===== *)
(** * The tunnel's admission gate ([src/net/gate.rs])

    Signed device requests, the scope family a path belongs to, the routes of a
    party guest, bearer tokens, and the loopback guards. *)

From S2P Require Import Prelude Ordered External Toy Http Identity Op Text Words Registry Store Log Durable Pull Transport OAuth AskProof Relay.

Definition DEVICE_REQUEST_PAYLOAD_VERSION : string := "proxy.ing-device-request-v2".
Definition DEVICE_TIMESTAMP_HEADER : string := "x-proxy-device-timestamp".
Definition DEVICE_SIGNATURE_HEADER : string := "x-proxy-device-signature".
Definition DEVICE_REQUEST_MAX_SKEW_SECONDS : Z := 300.

(** What the gate leaves on a request it lets through: the device that signed
    it, who came through the tunnel, the party token, the caller at the address. *)
Definition RequestDeviceId : Type := DeviceId.
Inductive TunnelPrincipal : Type :=
  | Account
  | OAuthPrincipal (scope : option string).
Record PartyBearer : Type := mk_PartyBearer {
  pb_token_id : string;
  pb_scope : PartyScope;
  pb_signed : bool;
}.
Record AddressCaller : Type := mk_AddressCaller { owner_proven : bool }.

Inductive PartyRoute : Type :=
  | OpenThread
  | Thread (id : string)
  | Avatar (agent : string)
  | Nothing.

(** ** Paths *)

(** [under(prefix)] *)
Definition under (path prefix : string) : bool :=
  bool_decide (path = prefix) || starts_with (prefix +:+ "/") path.

Definition agent_of_avatar_path (path : string) : option string :=
  agent ← strip_prefix "/client/v1/agents/" path;
  agent ← strip_suffix "/avatar" agent;
  if bool_decide (agent = "") || contains_char "/"%char agent then None else Some agent.

Definition is_inference_path (path : string) : bool := under path "/inference".

Definition is_public_pages_request (method path : string) : bool :=
  (bool_decide (method = "GET") || bool_decide (method = "HEAD"))
  && (under path "/client/p" || under path "/p").

(** The families of a [GET], in the order the source tests them. *)
Definition get_family (path : string) : option string :=
  let agents :=
    match strip_prefix "/client/v1/agents" path with
    | Some rest =>
        bool_decide (rest = "")
        || match rest with String "/" tail => negb (contains_char "/"%char tail) | _ => false end
        || bool_decide (is_Some (agent_of_avatar_path path))
    | None => false
    end in
  if agents then Some "threads"
  else if under path "/client/v1/map" || bool_decide (path = "/client/v1/graph/map") || under path "/client/v1/timeline"
  then Some "life-map-read"
  else if decide (path = "/client/v1/moves") then Some "moves"
  else None.

Definition resolve_path (path : string) : bool :=
  match strip_prefix "/client/v1/moves/" path with
  | Some rest => ends_with "/resolve" rest && bool_decide (count_char "/"%char rest = 1)
  | None => false
  end.

Definition family_of (method path : string) : option string :=
  if under path "/client/v1/threads" || under path "/client/v1/content" then Some "threads"
  else
    match (if decide (method = "GET") then get_family path else None) with
    | Some family => Some family
    | None =>
        if bool_decide (method = "POST") && bool_decide (path = "/client/v1/map/mutations/score")
        then Some "life-map-read"
        else if (under path "/client/v1/map/nodes" || under path "/client/v1/map/edges"
                 || under path "/client/v1/graph/nodes")
                && (bool_decide (method = "PATCH") || bool_decide (method = "POST"))
        then Some "life-map-write"
        else if bool_decide (method = "POST") && resolve_path path then Some "moves"
        else if under path "/mcp/proxy" then Some "life-map-write"
        else if under path "/mcp/computer" || under path "/mcp/phone" then Some "computer"
        else if under path "/mcp/mail" then Some "mail"
        else if under path "/mcp/messages" then Some "messages"
        else if is_inference_path path then Some "inference"
        else None
    end.

(** [rest.splitn(2, '/')]: the id and the tail. *)
Definition split_id (rest : string) : string * string :=
  match split_once "/"%char rest with Some (id, tail) => (id, tail) | None => (rest, "") end.

Definition thread_allowed (method tail : string) : bool :=
  if decide (tail ∈ [""; "queue-idle"; "events"]) then bool_decide (method = "GET")
  else if decide (tail = "messages") then bool_decide (method = "GET") || bool_decide (method = "POST")
  else false.

Definition thread_route (method path : string) : PartyRoute :=
  match strip_prefix "/client/v1/threads" path with
  | None => Nothing
  | Some rest =>
      if bool_decide (rest = "") || bool_decide (rest = "/")
      then if decide (method = "POST") then OpenThread else Nothing
      else
        match strip_prefix "/" rest with
        | None => Nothing
        | Some rest =>
            let '(id, tail) := split_id rest in
            if decide (id = "") then Nothing
            else if thread_allowed method tail then Thread id else Nothing
        end
  end.
Definition party_route (method path : string) : PartyRoute :=
  match (if decide (method = "GET") then agent_of_avatar_path path else None) with
  | Some agent => Avatar agent
  | None => thread_route method path
  end.

(** ** Headers *)

Definition header_str (headers : list (string * string)) (name : string) : option string :=
  value ← header name headers;
  value ← header_to_str value;
  let value := trim value in
  if decide (value = "") then None else Some value.

Definition parse_bearer_token (headers : list (string * string)) : option string :=
  value ← header "authorization" headers;
  value ← header_to_str value;
  token ← strip_prefix "Bearer " value;
  let token := trim token in
  if decide (token = "") then None else Some token.

Definition normalize_token (token : option string) : option string :=
  token ← token;
  let token := trim token in
  if decide (token = "") then None else Some token.

(** [headers.insert(name, value)]: one value replaces every old one. *)
Definition insert_header (name value : string) (headers : list (string * string)) : list (string * string) :=
  filter (λ h, h.1 ≠ name) headers ++ [(name, value)].
Definition apply_verified_mesh_header (headers : list (string * string)) (mesh_id : string)
    : list (string * string) :=
  match header_value_from_str mesh_id with
  | Some value => insert_header "x-proxy-device-id" value headers
  | None => headers
  end.

(** ** Origins *)

Definition is_allowed_browser_origin (origin : string) : bool :=
  match strip_prefix "http://" origin with
  | None => false
  | Some rest =>
      match split_once ":"%char rest with
      | None => false
      | Some (host, port) =>
          (bool_decide (host = "localhost") || bool_decide (host = "127.0.0.1"))
          && negb (bool_decide (port = "")) && all_chars is_ascii_digit port
      end
  end.

(** The two guards: [None] lets the request through. *)
Definition enforce_loopback_peer (peer : option IpAddr) : option Response :=
  if match peer with Some ip => ip_is_loopback ip | None => false end
  then None else Some (status_response FORBIDDEN).
Definition enforce_localhost_origin (headers : list (string * string)) : option Response :=
  match header "origin" headers with
  | Some origin =>
      if match header_to_str origin with Some o => is_allowed_browser_origin o | None => false end
      then None else Some (status_response FORBIDDEN)
  | None => None
  end.

(** ** Signed device requests *)


Definition canonical_payload (username method path timestamp body_sha256 : string) : string :=
  DEVICE_REQUEST_PAYLOAD_VERSION +:+ nl +:+ "username=" +:+ username +:+ nl +:+ "method=" +:+ method +:+ nl
    +:+ "path=" +:+ path +:+ nl +:+ "timestamp=" +:+ timestamp +:+ nl +:+ "body_sha256=" +:+ body_sha256.


Inductive DeviceDispatchVerify : Type :=
  | VerifiedMeshId (id : string)
  | OwnerPhone
  | Rejected.

Section dispatch.
Context `{Crypto, Base64Url}.

Definition sign_device_request (identity : DeviceIdentity) (username method path timestamp : string)
    (body : bytes) : string * string :=
  let body_sha256 := b64url_encode (sha256 body) in
  let payload := canonical_payload username method path timestamp body_sha256 in
  let signature := identity_sign identity (payload_bytes payload) in
  (body_sha256, b64url_encode (sig_to_bytes signature)).

Definition decode_signature (value : string) : option Signature :=
  bs ← b64url_decode value; sig_from_slice bs.

(** [payloads.iter().any(|payload| verify(key, payload, signature).is_ok())] *)
Definition verifies_any (payloads : list string) (signature : Signature) (key : VerifyingKey) : bool :=
  existsb (λ payload, is_ok (identity_verify key (payload_bytes payload) signature)) payloads.

Definition signed_paths (local_registry_id : option string) (uri_path : string) : list string :=
  match local_registry_id with
  | Some registry_id => [("/devices/" +:+ registry_id +:+ uri_path); uri_path]
  | None => [uri_path]
  end.

(** [now] is the wall clock in seconds, or none before the epoch. *)
Definition verify_device_dispatch_bytes (username : string) (local_registry_id : option string)
    (method uri_path timestamp : string) (signature : Signature) (body_bytes : bytes)
    (trusted_mesh_keys owner_phone_keys : list VerifyingKey) (now : option Z) : DeviceDispatchVerify :=
  match parse_u64 timestamp, now with
  | Some issued, Some now =>
      if decide (DEVICE_REQUEST_MAX_SKEW_SECONDS < Z.abs (now - issued))%Z then Rejected
      else
        let body_sha256 := b64url_encode (sha256 body_bytes) in
        let payloads :=
          (λ path, canonical_payload username method path timestamp body_sha256)
            <$> signed_paths local_registry_id uri_path in
        match List.find (verifies_any payloads signature) trusted_mesh_keys with
        | Some key => VerifiedMeshId (DeviceId_to_hex (device_id_of_key key))
        | None =>
            if existsb (verifies_any payloads signature) owner_phone_keys then OwnerPhone else Rejected
        end
  | _, _ => Rejected
  end.
End dispatch.

(** ** Properties *)

Lemma under_iff path prefix :
  under path prefix = true ↔ path = prefix ∨ ∃ rest, path = prefix +:+ "/" +:+ rest.
Proof.
  unfold under, starts_with. rewrite orb_true_iff, !bool_decide_eq_true. unfold is_Some.
  setoid_rewrite strip_prefix_some. setoid_rewrite append_assoc. done.
Qed.

Lemma agent_of_avatar_path_some path agent :
  agent_of_avatar_path path = Some agent → path = "/client/v1/agents/" +:+ agent +:+ "/avatar" ∧
    agent ≠ "" ∧ contains_char "/"%char agent = false.
Proof.
  unfold agent_of_avatar_path. intros (r & ->%strip_prefix_some & (a & ->%strip_suffix_some & Hif)%bind_Some)%bind_Some.
  destruct (_ || _) eqn:Ho; [done|]. injection Hif as <-. apply orb_false_iff in Ho as [He Hc].
  apply bool_decide_eq_false in He. done.
Qed.

(** What a guest may write through. *)
Definition guest_write (method path : string) : Prop :=
  method = "POST" ∧
  (path ∈ ["/client/v1/threads"; "/client/v1/threads/"] ∧ party_route method path = OpenThread ∨
   ∃ id, path = "/client/v1/threads/" +:+ id +:+ "/messages" ∧ id ≠ "" ∧ contains_char "/"%char id = false ∧
     party_route method path = Thread id).

Lemma split_id_some rest id tail :
  split_id rest = (id, tail) → contains_char "/"%char id = false ∧
    (rest = id +:+ "/" +:+ tail ∨ rest = id ∧ tail = "").
Proof.
  unfold split_id. destruct (split_once _ rest) as [[i t]|] eqn:Hs; intros [= <- <-].
  - apply split_once_some in Hs as [-> Hc]. auto.
  - apply split_once_none in Hs. auto.
Qed.

Lemma thread_allowed_some method tail :
  thread_allowed method tail = true → method = "GET" ∨ method = "POST" ∧ tail = "messages".
Proof.
  unfold thread_allowed. case_decide; [rewrite bool_decide_eq_true; auto|]. case_decide; [|done].
  rewrite orb_true_iff, !bool_decide_eq_true. naive_solver.
Qed.

Lemma thread_route_some method path :
  thread_route method path ≠ Nothing → under path "/client/v1/threads" = true ∧
    (method = "GET" ∨
     method = "POST" ∧
       (path ∈ ["/client/v1/threads"; "/client/v1/threads/"] ∧ thread_route method path = OpenThread ∨
        ∃ id, path = "/client/v1/threads/" +:+ id +:+ "/messages" ∧ id ≠ "" ∧
          contains_char "/"%char id = false ∧ thread_route method path = Thread id)).
Proof.
  unfold thread_route. destruct (strip_prefix "/client/v1/threads" path) as [rest|] eqn:Hp; [|done].
  apply strip_prefix_some in Hp as ->. rewrite under_iff.
  destruct (bool_decide (rest = "") || bool_decide (rest = "/")) eqn:He.
  { apply orb_true_iff in He as [->%bool_decide_eq_true| ->%bool_decide_eq_true]; case_decide; try done; intros _;
      (split; [|right; split; [done|]; left; split; [|done]; set_solver]); [by left|right; by exists ""]. }
  destruct (strip_prefix "/" rest) as [tail|] eqn:Hs; [|done]. apply strip_prefix_some in Hs as ->.
  destruct (split_id tail) as [id t] eqn:Hid. destruct (split_id_some _ _ _ Hid) as [Hc Ht].
  destruct (decide (id = "")) as [|Hne]; [done|]. destruct (thread_allowed method t) eqn:Ha; [|done]. intros _.
  split; [right; by exists tail|]. destruct (thread_allowed_some _ _ Ha) as [->|[-> ->]]; [by left|right].
  split; [done|]. right. exists id. destruct Ht as [->|[_ ?]]; [|done]. by split_and!.
Qed.

Lemma under_threads_family method path :
  under path "/client/v1/threads" = true → family_of method path = Some "threads".
Proof. intros Hu. unfold family_of. by rewrite Hu. Qed.

(** No path is both an agent's avatar and in the other families tested first. *)
Lemma avatar_family path agent :
  agent_of_avatar_path path = Some agent → family_of "GET" path = Some "threads".
Proof.
  intros Ha. unfold family_of. destruct (_ || _); [done|]. rewrite decide_True by done.
  unfold get_family. pose proof (agent_of_avatar_path_some _ _ Ha) as (-> & _ & _).
  assert (Hs : strip_prefix "/client/v1/agents" ("/client/v1/agents/" +:+ agent +:+ "/avatar") =
    Some ("/" +:+ agent +:+ "/avatar")) by (by apply strip_prefix_some).
  rewrite Hs, Ha, (bool_decide_eq_true_2 (is_Some (Some agent))), orb_true_r by done. done.
Qed.

(** A party guest stays in its lane.  Whatever the method and path, a route
    open to a guest is in the [threads] scope family; it is a [GET], or a
    [POST] that opens a thread or posts a message to one thread. *)
Lemma party_route_bounded (method path : string) :
  party_route method path ≠ Nothing →
  family_of method path = Some "threads" ∧ (method = "GET" ∨ guest_write method path).
Proof.
  unfold guest_write, party_route. destruct (decide (method = "GET")) as [->|Hm].
  - destruct (agent_of_avatar_path path) as [agent|] eqn:Ha.
    + intros _. split; [by eapply avatar_family|by left].
    + intros [Hu _]%thread_route_some. split; [by apply under_threads_family|by left].
  - intros [Hu [?|Hw]]%thread_route_some; [done|]. split; [by apply under_threads_family|by right].
Qed.

(** ** Device requests *)

(** Whoever signs one payload signs one request: the fields are read back. *)
Lemma canonical_payload_inj u m p t b u' m' p' t' b' :
  one_line u → one_line m → one_line p → one_line t → one_line u' → one_line m' → one_line p' → one_line t' →
  canonical_payload u m p t b = canonical_payload u' m' p' t' b' → u = u' ∧ m = m' ∧ p = p' ∧ t = t' ∧ b = b'.
Proof.
  intros Hu Hm Hp Ht Hu' Hm' Hp' Ht'. unfold canonical_payload.
  intros Heq%append_inj_l%append_inj_l. revert Heq.
  intros [-> Heq]%append_inj_l%nl_app_inj; [|done..]. revert Heq.
  intros [-> Heq]%append_inj_l%nl_app_inj; [|done..]. revert Heq.
  intros [-> Heq]%append_inj_l%nl_app_inj; [|done..]. revert Heq.
  intros [-> Heq]%append_inj_l%nl_app_inj; [|done..]. by apply append_inj_l in Heq as ->.
Qed.

Section dispatch_ok.
Context `{Crypto, Base64Url}.

Lemma verifies_any_iff payloads signature key :
  verifies_any payloads signature key = true ↔
  ∃ payload, payload ∈ payloads ∧ vk_verify key (payload_bytes payload) signature = true.
Proof.
  unfold verifies_any. rewrite existsb_exists. setoid_rewrite list_elem_of_In. unfold identity_verify.
  split; intros (x & Hx & Hv); exists x; (split; [done|]); destruct (vk_verify _ _ _); done.
Qed.

(** Device requests are bound to what was signed.  A dispatch the gate
    attributes to a mesh device, at any clock: some trusted key verified the
    signature over the payload for this username and method, this path or its
    registry form, this timestamp and the digest of this body; the timestamp is
    within the tolerated skew; and the id is that key's.  The key signed no
    other request: any one-line fields with the same payload are these fields. *)
Lemma device_dispatch_bound username registry_id method uri_path timestamp signature body mesh phones now id :
  verify_device_dispatch_bytes username registry_id method uri_path timestamp signature body mesh phones now =
    VerifiedMeshId id →
  ∃ key issued t path, key ∈ mesh ∧ id = DeviceId_to_hex (device_id_of_key key) ∧
    parse_u64 timestamp = Some issued ∧ now = Some t ∧
    (Z.abs (t - issued) ≤ DEVICE_REQUEST_MAX_SKEW_SECONDS)%Z ∧
    path ∈ signed_paths registry_id uri_path ∧
    vk_verify key (payload_bytes (canonical_payload username method path timestamp
                                    (b64url_encode (sha256 body)))) signature = true ∧
    ∀ u m p ts digest, Forall one_line [username; method; path; timestamp; u; m; p; ts] →
      payload_bytes (canonical_payload u m p ts digest) =
        payload_bytes (canonical_payload username method path timestamp (b64url_encode (sha256 body))) →
      u = username ∧ m = method ∧ p = path ∧ ts = timestamp ∧ digest = b64url_encode (sha256 body).
Proof.
  unfold verify_device_dispatch_bytes. destruct (parse_u64 timestamp) as [issued|]; [|done].
  destruct now as [t|]; [|done]. case_decide as Hskew; [done|].
  destruct (List.find _ mesh) as [key|] eqn:Hf; [|by destruct (existsb _ _)]. intros [= <-].
  apply find_some in Hf as [Hin Hv]. apply verifies_any_iff in Hv as (payload & Hp & Hv).
  apply list_elem_of_fmap in Hp as (path & -> & Hpath).
  exists key, issued, t, path. split_and!; try done; [by apply list_elem_of_In|lia|].
  intros u m p ts digest Hlines Heq%payload_bytes_inj. rewrite !Forall_cons in Hlines. destruct_and! Hlines.
  by apply canonical_payload_inj in Heq.
Qed.

(** A request signed with a trusted key within the skew is attributed. *)
Lemma device_dispatch_accepts `{!CryptoOk, !Base64UrlOk} identity username registry_id method uri_path timestamp
    body mesh phones t issued digest signature path :
  identity_wf identity → verifying identity ∈ mesh → path ∈ signed_paths registry_id uri_path →
  parse_u64 timestamp = Some issued → (Z.abs (t - issued) ≤ DEVICE_REQUEST_MAX_SKEW_SECONDS)%Z →
  sign_device_request identity username method path timestamp body = (digest, signature) →
  ∃ s id, decode_signature signature = Some s ∧
    verify_device_dispatch_bytes username registry_id method uri_path timestamp s body mesh phones (Some t) =
      VerifiedMeshId id.
Proof.
  intros Hwf Hmesh Hpath Hts Hskew [= <- <-]. unfold decode_signature. rewrite b64url_roundtrip. cbn [mbind option_bind].
  rewrite sig_roundtrip. eexists. unfold verify_device_dispatch_bytes. rewrite Hts, decide_False by lia.
  destruct (List.find _ mesh) as [key|] eqn:Hf; [by eexists|].
  exfalso. apply list_elem_of_In, (find_none _ _ Hf (verifying identity)) in Hmesh.
  apply not_true_iff_false in Hmesh. apply Hmesh, verifies_any_iff. eexists. split; [by apply list_elem_of_fmap_2|].
  apply identity_wf_verifying in Hwf as [-> _]. apply sign_verifies.
Qed.
End dispatch_ok.

Module GateToy.
#[export] Instance toy_base64url : Base64Url := {|
  b64url_encode := encode_hex;
  b64url_decode := decode_hex;
|}.
#[export] Instance toy_base64url_ok : Base64UrlOk.
Proof.
  split; [apply decode_hex_encode|done|]. intros bs. change (b64url_encode bs) with (encode_hex bs).
  induction bs as [|b bs IH]; cbn [encode_hex]; [constructor|].
  assert (Hc : ∀ c s, String.list_ascii_of_string (String c s) = c :: String.list_ascii_of_string s) by done.
  rewrite !Hc. do 2 (apply Forall_cons_2; [destruct b; reflexivity|]). exact IH.
Qed.
End GateToy.
