(* ===== verification/JsonValue.v ===== *)
(** * JSON values

    [serde_json::Value] as the program uses it: the constructors the [json!]
    macro reaches, the accessors, and the conversions of the derived types.  A
    value and its accessors are a class; the laws say what an accessor answers
    on a constructed value. *)

From S2P Require Import Prelude External.

Inductive ValueKind : Type := KNull | KBool | KNumber | KString | KArray | KObject.
#[export] Instance ValueKind_eq_dec : EqDecision ValueKind.
Proof. solve_decision. Defined.

Class JsonValue := {
  Value : Type;
  v_null : Value;
  v_bool : bool → Value;
  v_int : Z → Value;
  v_string : string → Value;
  v_array : list Value → Value;
  (** an object literal: its keys are distinct *)
  v_object : list (string * Value) → Value;
  v_kind : Value → ValueKind;
  (** [Value::get], [as_str], [as_bool], [as_u64], [as_array] *)
  v_get : Value → string → option Value;
  v_as_str : Value → option string;
  v_as_bool : Value → option bool;
  v_as_u64 : Value → option Z;
  v_as_array : Value → option (list Value);
  (** [Display for Value] *)
  v_to_string : Value → string;
}.

Class JsonValueOk `{JsonValue} : Prop := {
  v_get_in kvs k v : NoDup kvs.*1 → (k, v) ∈ kvs → v_get (v_object kvs) k = Some v;
  v_get_out kvs k : k ∉ kvs.*1 → v_get (v_object kvs) k = None;
  v_as_str_string s : v_as_str (v_string s) = Some s;
  v_as_array_array l : v_as_array (v_array l) = Some l;
  v_as_bool_bool b : v_as_bool (v_bool b) = Some b;
  v_kind_object kvs : v_kind (v_object kvs) = KObject;
}.

(** [serde_json::to_value] and [serde_json::from_value] at one type. *)
Class ToValue `{Json, JsonValue} (A : Type) := to_value : A → result JsonError Value.
#[export] Hint Mode ToValue - - ! : typeclass_instances.
Class FromValue `{Json, JsonValue} (A : Type) := from_value : Value → result JsonError A.
#[export] Hint Mode FromValue - - ! : typeclass_instances.

(** A field with [skip_serializing_if = "Option::is_none"], and one without it. *)
Definition skipped_field `{JsonValue} (k : string) (v : option Value) : list (string * Value) :=
  match v with Some v => [(k, v)] | None => [] end.
Definition v_option `{JsonValue} {A} (f : A → Value) (o : option A) : Value :=
  match o with Some a => f a | None => v_null end.
