(* ===== verification/McpProtocol.v ===== *)
(** * Model Context Protocol types ([src/mcp_protocol.rs])

    The JSON-RPC messages, the capabilities a server announces, tools, tool
    calls and their results, and the grants that bound a caller.  The
    serialised forms follow the [serde] attributes of the types. *)

From S2P Require Import Prelude Ordered External JsonValue.

Definition MCP_PROTOCOL_VERSION : string := "2025-11-25".
(** The package version the build stamps in. *)
Definition CARGO_PKG_VERSION : string := "0.0.0".

(** ** Grants *)

Inductive ToolGrant : Type := Nothing | Seat | Writer | Full.
#[export] Instance ToolGrant_eq_dec : EqDecision ToolGrant.
Proof. solve_decision. Defined.
(** The derived order: the order of the variants. *)
Definition grant_rank (g : ToolGrant) : Z :=
  match g with Nothing => 0 | Seat => 1 | Writer => 2 | Full => 3 end.
#[export] Instance grant_rank_inj : Inj (=) (=) grant_rank.
Proof. by intros [] []. Qed.
#[export] Instance ToolGrant_ord : Ord ToolGrant := λ a b, Z.compare (grant_rank a) (grant_rank b).
#[export] Instance ToolGrant_ord_ok : OrdOk ToolGrant.
Proof. exact (ord_ok_inj grant_rank). Qed.

(** [self.min(other)] *)
Definition narrowed_to (self other : ToolGrant) : ToolGrant :=
  if decide (other ≺ self) then other else self.

Inductive ToolAvailability : Type := Always | Participant | Moderator.

Inductive ToolCaller : Type :=
  | Owner
  | Agent
  | AddressOf (owner_proven : bool).
#[export] Instance ToolCaller_eq_dec : EqDecision ToolCaller.
Proof. solve_decision. Defined.
Definition ToolCaller_default : ToolCaller := Agent.

Record ServerInfo : Type := mk_ServerInfo {
  si_name : string;
  si_version : string;
  si_description : option string;
}.
Definition ServerInfo_default : ServerInfo :=
  mk_ServerInfo "proxy" CARGO_PKG_VERSION
    (Some "Proxy's local coordination layer - agents, graph, content, MCP tools").

(** [ServerCapabilities] without its [experimental] value, and the value. *)
Record ResourcesCapability : Type := mk_ResourcesCapability {
  rc_subscribe : option bool;
  rc_list_changed : option bool;
}.
Record TasksCapability : Type := mk_TasksCapability {
  tk_list : option ();
  tk_cancel : option ();
  (** [requests.tools.call] *)
  tk_requests : option (option (option ()));
}.

Record InitializeParams : Type := mk_InitializeParams { ip_protocol_version : option string }.

Section protocol.
Context `{JsonValue}.

Record ServerCapabilities : Type := mk_ServerCapabilities {
  sc_tools : option (option bool);
  sc_resources : option ResourcesCapability;
  sc_prompts : option (option bool);
  sc_logging : option ();
  sc_completions : option ();
  sc_tasks : option TasksCapability;
  sc_experimental : option Value;
}.
Definition ServerCapabilities_default : ServerCapabilities :=
  mk_ServerCapabilities (Some (Some true)) (Some (mk_ResourcesCapability (Some true) (Some true))) (Some (Some true))
    (Some ()) (Some ()) (Some (mk_TasksCapability (Some ()) (Some ()) (Some (Some (Some ()))))) (Some (v_object [])).

Record InitializeResult : Type := mk_InitializeResult {
  ir_protocol_version : string;
  ir_capabilities : ServerCapabilities;
  ir_server_info : ServerInfo;
  ir_instructions : option string;
}.
Definition InitializeResult_default : InitializeResult :=
  mk_InitializeResult MCP_PROTOCOL_VERSION ServerCapabilities_default ServerInfo_default None.

Record ToolDefinition : Type := mk_ToolDefinition {
  td_name : string;
  td_title : option string;
  td_description : string;
  td_annotations : Value;
  td_input_schema : Value;
  td_output_schema : option Value;
}.
Record CatalogTool : Type := mk_CatalogTool {
  ct_name : string;
  ct_title : option string;
  ct_description : option string;
  ct_input_schema : Value;
  ct_availability : ToolAvailability;
}.

Record JsonRpcRequest : Type := mk_JsonRpcRequest {
  jq_jsonrpc : string;
  jq_id : option Value;
  jq_method : string;
  jq_params : option Value;
}.
Record JsonRpcError : Type := mk_JsonRpcError {
  je_code : Z;
  je_message : string;
  je_data : option Value;
}.
Record JsonRpcResponse : Type := mk_JsonRpcResponse {
  jr_jsonrpc : string;
  jr_id : option Value;
  jr_result : option Value;
  jr_error : option JsonRpcError;
}.
Definition rpc_success (id : option Value) (result : Value) : JsonRpcResponse :=
  mk_JsonRpcResponse "2.0" id (Some result) None.
Definition rpc_error (id : option Value) (code : Z) (message : string) : JsonRpcResponse :=
  mk_JsonRpcResponse "2.0" id None (Some (mk_JsonRpcError code message None)).

Inductive McpMessage : Type :=
  | MessageRequest (r : JsonRpcRequest)
  | MessageResponse (r : JsonRpcResponse)
  | MessageNotification (method : string) (params : option Value).

Record ToolCallRequest : Type := mk_ToolCallRequest {
  tc_name : string;
  tc_arguments : option Value;
  tc_caller : ToolCaller;
}.
Inductive ToolContent : Type :=
  | Text (text : string)
  | Image (data mime_type : string)
  | Resource (resource : Value).
Record ToolCallResult : Type := mk_ToolCallResult {
  tr_content : list ToolContent;
  tr_structured_content : option Value;
  tr_is_error : option bool;
}.
Definition result_text (text : string) : ToolCallResult := mk_ToolCallResult [Text text] None None.
Definition result_success (data : Value) : ToolCallResult := mk_ToolCallResult [Text (v_to_string data)] None None.
Definition text_and_structured (text : string) (data : Value) : ToolCallResult :=
  let structured :=
    match v_kind data with
    | KObject => data
    | KArray => v_object [("items", data)]
    | _ => v_object [("value", data)]
    end in
  mk_ToolCallResult [Text text] (Some structured) None.
Definition result_structured (data : Value) : ToolCallResult := text_and_structured (v_to_string data) data.
Definition error_text (message : string) : ToolCallResult := mk_ToolCallResult [Text message] None (Some true).

(** ** Serialised forms *)

Definition availability_value (a : ToolAvailability) : Value :=
  v_string (match a with Always => "always" | Participant => "participant" | Moderator => "moderator" end).
Definition unit_value (_ : ()) : Value := v_object [].
Definition list_changed_value (c : option bool) : Value := v_object [("listChanged", v_option v_bool c)].
Definition resources_value (c : ResourcesCapability) : Value :=
  v_object [("subscribe", v_option v_bool (rc_subscribe c)); ("listChanged", v_option v_bool (rc_list_changed c))].
Definition tasks_value (c : TasksCapability) : Value :=
  v_object ([("list", v_option unit_value (tk_list c)); ("cancel", v_option unit_value (tk_cancel c))]
    ++ skipped_field "requests"
         ((λ tools, v_object (skipped_field "tools" ((λ call, v_object [("call", v_option unit_value call)]) <$> tools)))
            <$> tk_requests c)).
Definition capabilities_value (c : ServerCapabilities) : Value :=
  v_object (skipped_field "tools" (list_changed_value <$> sc_tools c)
    ++ skipped_field "resources" (resources_value <$> sc_resources c)
    ++ skipped_field "prompts" (list_changed_value <$> sc_prompts c)
    ++ skipped_field "logging" (unit_value <$> sc_logging c)
    ++ skipped_field "completions" (unit_value <$> sc_completions c)
    ++ skipped_field "tasks" (tasks_value <$> sc_tasks c)
    ++ skipped_field "experimental" (sc_experimental c)).
Definition server_info_value (i : ServerInfo) : Value :=
  v_object ([("name", v_string (si_name i)); ("version", v_string (si_version i))]
    ++ skipped_field "description" (v_string <$> si_description i)).
Definition initialize_value (r : InitializeResult) : Value :=
  v_object ([("protocolVersion", v_string (ir_protocol_version r)); ("capabilities", capabilities_value (ir_capabilities r));
             ("serverInfo", server_info_value (ir_server_info r))]
    ++ skipped_field "instructions" (v_string <$> ir_instructions r)).
Definition tool_value (t : ToolDefinition) : Value :=
  v_object ([("name", v_string (td_name t))] ++ skipped_field "title" (v_string <$> td_title t)
    ++ [("description", v_string (td_description t)); ("annotations", td_annotations t); ("inputSchema", td_input_schema t)]
    ++ skipped_field "outputSchema" (td_output_schema t)).
Definition catalog_value (t : CatalogTool) : Value :=
  v_object ([("name", v_string (ct_name t))] ++ skipped_field "title" (v_string <$> ct_title t)
    ++ skipped_field "description" (v_string <$> ct_description t)
    ++ [("inputSchema", ct_input_schema t); ("availability", availability_value (ct_availability t))]).
Definition content_value (c : ToolContent) : Value :=
  match c with
  | Text text => v_object [("type", v_string "text"); ("text", v_string text)]
  | Image data mime_type => v_object [("type", v_string "image"); ("data", v_string data); ("mimeType", v_string mime_type)]
  | Resource resource => v_object [("type", v_string "resource"); ("resource", resource)]
  end.
Definition tool_result_value (r : ToolCallResult) : Value :=
  v_object ([("content", v_array (content_value <$> tr_content r))]
    ++ skipped_field "structuredContent" (tr_structured_content r)
    ++ skipped_field "isError" (v_bool <$> tr_is_error r)).
Definition rpc_error_value (e : JsonRpcError) : Value :=
  v_object ([("code", v_int (je_code e)); ("message", v_string (je_message e))] ++ skipped_field "data" (je_data e)).
Definition rpc_response_value (r : JsonRpcResponse) : Value :=
  v_object ([("jsonrpc", v_string (jr_jsonrpc r)); ("id", v_option id (jr_id r))]
    ++ skipped_field "result" (jr_result r) ++ skipped_field "error" (rpc_error_value <$> jr_error r)).

(** The [protocolVersion] and the [name] a reader of the serialised form finds. *)
Context `{!JsonValueOk}.
Lemma initialize_value_version r :
  v_get (initialize_value r) "protocolVersion" ≫= v_as_str = Some (ir_protocol_version r).
Proof.
  unfold initialize_value. rewrite (v_get_in _ _ (v_string (ir_protocol_version r))).
  - cbn. apply v_as_str_string.
  - destruct (ir_instructions r); cbn; apply (bool_decide_unpack _); vm_compute; exact I.
  - cbn. apply elem_of_cons. by left.
Qed.
Lemma tool_value_name t : v_get (tool_value t) "name" ≫= v_as_str = Some (td_name t).
Proof.
  unfold tool_value. rewrite (v_get_in _ _ (v_string (td_name t))).
  - cbn. apply v_as_str_string.
  - destruct (td_title t), (td_output_schema t); cbn; apply (bool_decide_unpack _); vm_compute; exact I.
  - cbn. apply elem_of_cons. by left.
Qed.
(** What a tool answers as structured content is an object. *)
Lemma structured_object text data :
  ∃ v, tr_structured_content (text_and_structured text data) = Some v ∧ v_kind v = KObject.
Proof. eexists. split; [done|]. destruct (v_kind data) eqn:Hk; [..|done]; apply v_kind_object. Qed.
End protocol.

(** ** Narrowing *)

Lemma narrowed_to_l a b : narrowed_to a b ⪯ a.
Proof. by destruct a, b. Qed.
Lemma narrowed_to_r a b : narrowed_to a b ⪯ b.
Proof. by destruct a, b. Qed.
Lemma narrowed_to_greatest a b c : c ⪯ a → c ⪯ b → c ⪯ narrowed_to a b.
Proof. by destruct a, b, c. Qed.
