(* ===== verification/McpServer.v ===== *)
(** * The MCP server ([src/mcp_server])

    The tool surface and the agent resolver the host plugs in, the sessions of
    the transport, the JSON-RPC dispatch and the HTTP handlers.  The host's
    state is a type of its own: the surface and the resolver read it, and a tool
    call may change it.  The request as the framework hands it over, the random
    bytes of a session id and the outcome of a blocking task are arguments. *)

From stdpp Require Import pretty.
From S2P Require Import Prelude Ordered External Http Identity Text Words Op Registry Store Log Durable Pull Transport OAuth AskProof Relay Gate JsonValue McpProtocol.

Definition ACCEPTED : Z := 202.
Definition HARNESS_TOOL_POLICY_HEADER : string := "x-proxy-tool-policy".
Definition HARNESS_TOOL_POLICY_SEAT : string := "seat".
Definition HARNESS_TOOL_POLICY_WRITER : string := "writer".
Definition PARTY_JOIN_TOOL : string := "party_join".
Definition ASSUMED_VERSION : string := "2025-03-26".

(** ** The host's side *)

Record RuntimeAgentInfo : Type := mk_RuntimeAgentInfo {
  ra_id : string;
  ra_harness : string;
  ra_harness_id : option string;
  ra_pid : option Z;
}.

Definition runtime_source_provider (harness : string) : option string :=
  if decide (harness ∈ ["claude-code"; "claude_code"]) then Some "claude_code"
  else if decide (harness = "codex") then Some "codex"
  else if decide (harness ∈ ["hermes"; "hermes-agent"]) then Some "hermes"
  else None.

Record McpAgentResolver (W : Type) : Type := mk_McpAgentResolver {
  correlate_agent_by_port : W → Z → option (Z * string);
  resolve_runtime_agent : W → string → bool → option RuntimeAgentInfo;
  sanitize_error : W → string → string;
}.
Arguments correlate_agent_by_port {W} _ _ _.
Arguments resolve_runtime_agent {W} _ _ _ _.
Arguments sanitize_error {W} _ _ _.

(** The default methods of the trait. *)
Definition NoopMcpAgentResolver {W} : McpAgentResolver W :=
  mk_McpAgentResolver W (λ _ _, None) (λ _ _ _, None) (λ _ message, message).

Section surface.
Context `{JsonValue} (W : Type).

Record McpToolSurface : Type := mk_McpToolSurface {
  sf_name : string;
  sf_session_prefix : string;
  sf_server_info : ServerInfo;
  sf_instructions : option string;
  all_tools : W → list ToolDefinition;
  tools_for_participant : W → option string → list ToolDefinition;
  harness_seat_may_call : W → string → bool;
  map_writer_may_call : W → string → bool;
  participant_grant : W → string → ToolGrant;
  grant_allows : W → ToolGrant → string → bool;
  participant_may_call : W → option string → ToolGrant → string → bool;
  tool_availability : W → string → ToolAvailability;
  participant_for_runtime_agent : W → RuntimeAgentInfo → result string (option string);
  attach_event_tx : W → W;
  handle_tool_call : W → ToolCallRequest → option string → option string → ToolCallResult * W;
}.

(** [grant_allows] as the trait gives it, over the two predicates. *)
Definition default_grant_allows (seat writer : W → string → bool) (w : W) (grant : ToolGrant) (tool_name : string) : bool :=
  match grant with
  | Full => true
  | Writer => writer w tool_name
  | Seat => seat w tool_name
  | Nothing => false
  end.
(** A surface that overrides the two predicates and the participants' grants and
    leaves every other provided method as the trait has it. *)
Definition default_surface (name session_prefix : string) (info : ServerInfo) (tools : W → list ToolDefinition)
    (seat writer : W → string → bool) (granted : W → string → ToolGrant)
    (call : W → ToolCallRequest → option string → option string → ToolCallResult * W) : McpToolSurface :=
  mk_McpToolSurface name session_prefix info None tools (λ w _, tools w) seat writer granted
    (default_grant_allows seat writer) (λ w _ grant tool_name, default_grant_allows seat writer w grant tool_name)
    (λ _ _, Always) (λ _ _, Ok None) (λ w, w) call.
(** The trait's own predicates: a seat calls every tool, a writer what a seat does,
    and every participant has the full grant. *)
Definition default_seat_may_call (w : W) (tool_name : string) : bool := true.
Definition default_writer_may_call (seat : W → string → bool) (w : W) (tool_name : string) : bool := seat w tool_name.
Definition default_participant_grant (w : W) (participant_id : string) : ToolGrant := Full.

Definition catalog (surface : McpToolSurface) (w : W) : list CatalogTool :=
  (λ def, mk_CatalogTool (td_name def) (td_title def)
            (if decide (td_description def = "") then None else Some (td_description def))
            (td_input_schema def) (tool_availability surface w (td_name def))) <$> all_tools surface w.
End surface.
Arguments sf_session_prefix {_ W} _.
Arguments sf_server_info {_ W} _.
Arguments sf_instructions {_ W} _.
Arguments all_tools {_ W} _ _.
Arguments tools_for_participant {_ W} _ _ _.
Arguments participant_grant {_ W} _ _ _.
Arguments participant_may_call {_ W} _ _ _ _ _.
Arguments participant_for_runtime_agent {_ W} _ _ _.
Arguments attach_event_tx {_ W} _ _.
Arguments handle_tool_call {_ W} _ _ _ _ _.
Arguments tool_availability {_ W} _ _ _.

(** ** The transport's state

    A poisoned mutex answers an error; nothing the handlers do while they hold
    one panics.  [ms_calls] records what has been handed to the surface. *)

Record McpServerState `{JsonValue} (W : Type) : Type := mk_McpServerState {
  ms_host : W;
  initialized_sessions : gset string;
  initialized_poisoned : bool;
  session_protocol_versions : gmap string string;
  versions_poisoned : bool;
  session_agent_ids : gmap string string;
  agents_poisoned : bool;
  session_participants : gmap string string;
  session_prefix : string;
  server_info : ServerInfo;
  ms_port : Z;
  mcp_endpoint_path : string;
  sse_endpoint_path : string;
  ms_calls : list (ToolCallRequest * option string * option string);
}.
Arguments mk_McpServerState {_ W} _ _ _ _ _ _ _ _ _ _ _ _ _ _.
Arguments ms_host {_ W} _.
Arguments initialized_sessions {_ W} _.
Arguments initialized_poisoned {_ W} _.
Arguments session_protocol_versions {_ W} _.
Arguments versions_poisoned {_ W} _.
Arguments session_agent_ids {_ W} _.
Arguments agents_poisoned {_ W} _.
Arguments session_participants {_ W} _.
Arguments session_prefix {_ W} _.
Arguments server_info {_ W} _.
Arguments ms_port {_ W} _.
Arguments mcp_endpoint_path {_ W} _.
Arguments sse_endpoint_path {_ W} _.
Arguments ms_calls {_ W} _.

Section state.
Context `{JsonValue} {W : Type}.
Implicit Types st : McpServerState W.

Definition build_surface_state (port : Z) (surface : McpToolSurface W) (mcp_path sse_path : string) (w : W) : McpServerState W :=
  mk_McpServerState (attach_event_tx surface w) ∅ false ∅ false ∅ false ∅ (sf_session_prefix surface) (sf_server_info surface)
    port mcp_path sse_path [].

Definition with_sessions st (sessions : gset string) : McpServerState W :=
  mk_McpServerState (ms_host st) sessions (initialized_poisoned st) (session_protocol_versions st) (versions_poisoned st)
    (session_agent_ids st) (agents_poisoned st) (session_participants st) (session_prefix st) (server_info st)
    (ms_port st) (mcp_endpoint_path st) (sse_endpoint_path st) (ms_calls st).
Definition with_versions st (versions : gmap string string) : McpServerState W :=
  mk_McpServerState (ms_host st) (initialized_sessions st) (initialized_poisoned st) versions (versions_poisoned st)
    (session_agent_ids st) (agents_poisoned st) (session_participants st) (session_prefix st) (server_info st)
    (ms_port st) (mcp_endpoint_path st) (sse_endpoint_path st) (ms_calls st).
Definition with_agents st (agents : gmap string string) : McpServerState W :=
  mk_McpServerState (ms_host st) (initialized_sessions st) (initialized_poisoned st) (session_protocol_versions st)
    (versions_poisoned st) agents (agents_poisoned st) (session_participants st) (session_prefix st) (server_info st)
    (ms_port st) (mcp_endpoint_path st) (sse_endpoint_path st) (ms_calls st).
Definition with_participants st (participants : gmap string string) : McpServerState W :=
  mk_McpServerState (ms_host st) (initialized_sessions st) (initialized_poisoned st) (session_protocol_versions st)
    (versions_poisoned st) (session_agent_ids st) (agents_poisoned st) participants (session_prefix st) (server_info st)
    (ms_port st) (mcp_endpoint_path st) (sse_endpoint_path st) (ms_calls st).
(** The host after a call, with the call recorded. *)
Definition with_call st (w : W) (call : ToolCallRequest * option string * option string) : McpServerState W :=
  mk_McpServerState w (initialized_sessions st) (initialized_poisoned st) (session_protocol_versions st)
    (versions_poisoned st) (session_agent_ids st) (agents_poisoned st) (session_participants st) (session_prefix st)
    (server_info st) (ms_port st) (mcp_endpoint_path st) (sse_endpoint_path st) (ms_calls st ++ [call]).

Definition store_session_participant st (session_id participant_id : string) : McpServerState W :=
  with_participants st (<[session_id := participant_id]> (session_participants st)).
Definition lookup_session_participant st (session_id : string) : option string := session_participants st !! session_id.
Definition remove_session_participant st (session_id : string) : McpServerState W :=
  with_participants st (delete session_id (session_participants st)).
End state.

(** ** Responses *)

(** [str::contains] *)
Fixpoint str_contains (needle s : string) : bool :=
  starts_with needle s || match s with "" => false | String _ s => str_contains needle s end.

Section responses.
Context `{Json, JsonValue, !JsonWire JsonRpcResponse}.
(** [Display for http::Error] of a refused header value. *)
Context (http_error : string).

Definition build_plain_http_response_with_protocol (status : Z) (body : string) (protocol_version : string) : Response :=
  match header_value_from_str protocol_version with
  | Some value => mk_Response status [("mcp-protocol-version", value)] (payload_bytes body)
  | None => mk_Response INTERNAL_SERVER_ERROR [("mcp-protocol-version", MCP_PROTOCOL_VERSION)] (payload_bytes "Internal server error")
  end.
Definition build_plain_http_response (status : Z) (body : string) : Response :=
  build_plain_http_response_with_protocol status body MCP_PROTOCOL_VERSION.
Definition lock_error_response : Response := build_plain_http_response INTERNAL_SERVER_ERROR "Session state lock error".

(** The headers of a builder, when every value is one. *)
Definition builder_headers (headers : list (string * string)) : option (list (string * string)) :=
  if forallb (λ h, bool_decide (is_Some (header_value_from_str h.2))) headers then Some headers else None.

Definition build_jsonrpc_http_response (response : JsonRpcResponse) (accepts_sse : bool) (session_id : option string)
    (protocol_version : string) : Response :=
  match json_to_vec response with
  | Err err => build_plain_http_response INTERNAL_SERVER_ERROR ("Failed to serialize response: " +:+ json_display err)
  | Ok response_json =>
      let headers := [("mcp-protocol-version", protocol_version)]
        ++ match session_id with Some session_id => [("mcp-session-id", session_id)] | None => [] end
        ++ (if accepts_sse then [("cache-control", "no-cache"); ("content-type", "text/event-stream")]
            else [("content-type", "application/json")]) in
      let body := if accepts_sse
                  then payload_bytes ("event: message" +:+ nl +:+ "data: ") ++ response_json ++ payload_bytes (nl +:+ nl)
                  else response_json in
      match builder_headers headers with
      | Some headers => mk_Response OK headers body
      | None => build_plain_http_response INTERNAL_SERVER_ERROR ("Failed to build response: " +:+ http_error)
      end
  end.
End responses.

(** ** Headers *)

Definition mint_session_id (session_prefix : string) (random : barr 16) : string := session_prefix +:+ encode_hex random.

Definition supported_protocol_version (version : string) : bool :=
  let version := trim version in
  negb (bool_decide (version = "")) && bool_decide (version ⪯ MCP_PROTOCOL_VERSION).

Definition header_string (headers : list (string * string)) (name : string) : option string :=
  header name headers ≫= header_to_str.
Definition request_session_id_from_headers (headers : list (string * string)) (session_prefix : string) : option string :=
  filter_opt (starts_with session_prefix) (header_string headers "mcp-session-id").
Definition accepts_event_stream (headers : list (string * string)) : bool :=
  match header_string headers "accept" with Some s => str_contains "text/event-stream" s | None => false end.

(** ** Grants *)

Section grants.
Context `{Percent}.
Definition tunnel_grant (principal : option TunnelPrincipal) : ToolGrant :=
  match principal with
  | None | Some Account => Full
  | Some (OAuthPrincipal (Some scope)) => if decide (is_Some (party_parse scope)) then Nothing else Seat
  | Some (OAuthPrincipal None) => Seat
  end.
End grants.

Definition requested_grant (requested_policy : option string) : ToolGrant :=
  match requested_policy with
  | Some policy =>
      if decide (policy = HARNESS_TOOL_POLICY_SEAT) then Seat
      else if decide (policy = HARNESS_TOOL_POLICY_WRITER) then Writer
      else Full
  | None => Full
  end.
Definition combined_grant (tunnel participant requested : ToolGrant) : ToolGrant :=
  narrowed_to (narrowed_to tunnel participant) requested.
Definition tool_caller (address : option AddressCaller) (grant : ToolGrant) : ToolCaller :=
  match address with
  | Some address => AddressOf (owner_proven address)
  | None => if decide (grant = Full) then Owner else Agent
  end.

Section grant_lookup.
Context `{JsonValue, Percent} {W : Type} (surface : McpToolSurface W).
(** [joined] is false when the blocking lookup did not run to its end. *)
Definition participant_lookup (w : W) (participant_id : option string) (joined : bool) : ToolGrant :=
  match participant_id with
  | Some participant_id => if joined then participant_grant surface w participant_id else Seat
  | None => Full
  end.
Definition caller_grant (w : W) (tunnel_principal : option TunnelPrincipal) (participant_id requested_policy : option string)
    (joined : bool) : ToolGrant :=
  combined_grant (tunnel_grant tunnel_principal) (participant_lookup w participant_id joined) (requested_grant requested_policy).
End grant_lookup.

(** ** JSON-RPC dispatch ([rpc.rs]) *)

Definition unimplemented_methods : list string :=
  ["resources/read"; "resources/subscribe"; "resources/unsubscribe"; "prompts/get"; "logging/setLevel"; "completion/complete";
   "tasks/list"; "tasks/get"; "tasks/result"; "tasks/cancel"].

Section rpc.
Context `{Json, JsonValue, !FromValue InitializeParams, !ToValue InitializeResult, !FromValue ToolCallRequest, !ToValue ToolCallResult}.
Context {W : Type} (surface : McpToolSurface W) (resolver : McpAgentResolver W).
Implicit Types st : McpServerState W.

Definition negotiated_version (params : option Value) : string :=
  let client := p ← params; p ← ok (from_value p); ip_protocol_version p in
  default MCP_PROTOCOL_VERSION (filter_opt (λ v, bool_decide (v ≺ MCP_PROTOCOL_VERSION)) client).
Definition handle_initialize (id params : option Value) (info : ServerInfo) (instructions : option string) : JsonRpcResponse :=
  match to_value (mk_InitializeResult (negotiated_version params) ServerCapabilities_default info instructions) with
  | Ok value => rpc_success id value
  | Err err => rpc_error id (-32603) ("Failed to serialize initialize response: " +:+ json_display err)
  end.

Definition tool_result_response (id : option Value) (result : ToolCallResult) : JsonRpcResponse :=
  match to_value result with
  | Ok value => rpc_success id value
  | Err err => rpc_error id (-32603) ("Failed to serialize tool result: " +:+ json_display err)
  end.

(** The tools listed to a participant with a grant. *)
Definition listed_tools (w : W) (participant_id : option string) (grant : ToolGrant) : list ToolDefinition :=
  let tools := tools_for_participant surface w participant_id in
  if decide (grant = Full) then tools
  else List.filter (λ tool, participant_may_call surface w participant_id grant (td_name tool)) tools.
Definition handle_tools_list st (id : option Value) (participant_id : option string) (grant : ToolGrant) : JsonRpcResponse :=
  rpc_success id (v_object [("tools", v_array (tool_value <$> listed_tools (ms_host st) participant_id grant))]).

(** The participant a successful join names. *)
Definition joined_participant (call : ToolCallRequest) (result : ToolCallResult) : option string :=
  if decide (tc_name call = PARTY_JOIN_TOOL ∧ tr_is_error result ≠ Some true)
  then payload ← tr_structured_content result; id ← v_get payload "participant_id"; v_as_str id
  else None.
Definition handle_tools_call st (request : JsonRpcRequest) (agent_id participant_id : option string) (grant : ToolGrant)
    (caller : ToolCaller) (session_id : option string) : JsonRpcResponse * McpServerState W :=
  match jq_params request with
  | None => (rpc_error (jq_id request) (-32602) "Missing params", st)
  | Some params =>
      match from_value params with
      | Err e => (rpc_error (jq_id request) (-32602) ("Invalid params: " +:+ json_display e), st)
      | Ok parsed =>
          let may := participant_may_call surface (ms_host st) participant_id grant in
          let call := mk_ToolCallRequest (tc_name parsed) (tc_arguments parsed)
                        (if bool_decide (caller = Agent) && may "proxy_make_move" then Owner else caller) in
          if negb (may (tc_name call)) then
            let msg := sanitize_error resolver (ms_host st)
                         (tc_name call +:+ " is not open to this connection. Only the tools in tools/list are.") in
            (tool_result_response (jq_id request) (error_text msg), st)
          else
            let '(result, w) := handle_tool_call surface (ms_host st) call agent_id participant_id in
            let st := with_call st w (call, agent_id, participant_id) in
            let st := match session_id, joined_participant call result with
                      | Some session_id, Some joined => store_session_participant st session_id joined
                      | _, _ => st
                      end in
            (tool_result_response (jq_id request) result, st)
      end
  end.

Definition handle_request st (request : JsonRpcRequest) (agent_id participant_id : option string) (grant : ToolGrant)
    (caller : ToolCaller) (session_id : option string) : JsonRpcResponse * McpServerState W :=
  let method := jq_method request in
  let id := jq_id request in
  if decide (method = "initialize") then
    (handle_initialize id (jq_params request) (server_info st) (sf_instructions surface), st)
  else if decide (method ∈ ["initialized"; "notifications/initialized"]) then (rpc_success id (v_object []), st)
  else if decide (method = "tools/list") then (handle_tools_list st id participant_id grant, st)
  else if decide (method = "tools/call") then handle_tools_call st request agent_id participant_id grant caller session_id
  else if decide (method = "resources/list") then (rpc_success id (v_object [("resources", v_array [])]), st)
  else if decide (method = "prompts/list") then (rpc_success id (v_object [("prompts", v_array [])]), st)
  else if decide (method ∈ unimplemented_methods) then (rpc_error id (-32601) (method +:+ ": not yet implemented"), st)
  else if decide (method = "ping") then (rpc_success id (v_object []), st)
  else (rpc_error id (-32601) ("Method not found: " +:+ method), st).
End rpc.

(** ** Handlers ([handlers.rs])

    A handler reads and changes the state and may answer early. *)

Definition handler `{JsonValue} (W A : Type) : Type := McpServerState W → result Response A * McpServerState W.
#[export] Instance handler_ret `{JsonValue} W : MRet (handler W) := λ A a st, (Ok a, st).
#[export] Instance handler_bind `{JsonValue} W : MBind (handler W) :=
  λ A B f c st, match c st with (Ok a, st) => f a st | (Err r, st) => (Err r, st) end.
Definition answer `{JsonValue} {W A} (r : Response) : handler W A := λ st, (Err r, st).
Definition answers `{JsonValue} {W A} (r : result Response A) : handler W A := λ st, (r, st).
Definition acts `{JsonValue} {W A} (f : McpServerState W → A * McpServerState W) : handler W A :=
  λ st, let '(a, st) := f st in (Ok a, st).
Definition reads `{JsonValue} {W A} (f : McpServerState W → A) : handler W A := λ st, (Ok (f st), st).
Definition updates `{JsonValue} {W} (f : McpServerState W → McpServerState W) : handler W () := λ st, (Ok (), f st).

(** A request as the handler receives it: the extensions the gate left, the
    outcome of reading the body, the port of the peer. *)
Record McpRequest : Type := mk_McpRequest {
  mq_headers : list (string * string);
  mq_principal : option TunnelPrincipal;
  mq_device : option RequestDeviceId;
  mq_address : option AddressCaller;
  mq_body : option bytes;
  mq_port : Z;
}.
(** [axum::body::to_bytes(body, 1 MiB)] *)
Definition body_limit : Z := 1024 * 1024.
Definition to_bytes (body : option bytes) (limit : Z) : option bytes :=
  filter_opt (λ b, (len b <=? limit)%Z) body.

Section handlers.
Context `{Json, JsonValue, Percent, !JsonWire JsonRpcRequest, !JsonWire JsonRpcResponse}.
Context `{!FromValue InitializeParams, !ToValue InitializeResult, !FromValue ToolCallRequest, !ToValue ToolCallResult}.
Context {W : Type} (surface : McpToolSurface W) (resolver : McpAgentResolver W) (http_error : string).
Implicit Types st : McpServerState W.

(** *** Sessions: each lock is taken for one step *)

Definition insert_session (sid : string) : handler W bool := λ st,
  if initialized_poisoned st then (Err lock_error_response, st)
  else (Ok (bool_decide (sid ∉ initialized_sessions st)), with_sessions st ({[sid]} ∪ initialized_sessions st)).
Definition insert_version (sid version : string) : handler W () := λ st,
  if versions_poisoned st then (Err lock_error_response, st)
  else (Ok (), with_versions st (<[sid := version]> (session_protocol_versions st))).
Definition read_version (sid : string) : handler W string := λ st,
  if versions_poisoned st then (Err lock_error_response, st)
  else (ok_or (session_protocol_versions st !! sid)
          (build_plain_http_response INTERNAL_SERVER_ERROR "Missing protocol version for initialized session"), st).
Definition insert_agent (sid agent_id : string) : handler W () := λ st,
  if agents_poisoned st then (Err lock_error_response, st)
  else (Ok (), with_agents st (<[sid := agent_id]> (session_agent_ids st))).

Definition invalid_version (version : string) : Response :=
  build_plain_http_response BAD_REQUEST ("Invalid or unsupported MCP-Protocol-Version: " +:+ version).
Definition check_version (mcp_protocol_version : option string) (expected : string) : result Response string :=
  match filter_opt (λ v, negb (bool_decide (v = expected))) mcp_protocol_version with
  | Some version => Err (invalid_version version)
  | None => Ok expected
  end.

Definition resolve_or_recover_session_protocol (sid : string) (mcp_protocol_version : option string) : handler W string :=
  newly_inserted ← insert_session sid;
  _ ← (if (newly_inserted : bool) then insert_version sid (default ASSUMED_VERSION mcp_protocol_version) else mret ());
  expected ← read_version sid;
  answers (check_version mcp_protocol_version expected).

Definition record_initialized_session (session_id protocol_version : string) (agent_id : option string) : handler W () :=
  _ ← insert_session session_id;
  _ ← insert_version session_id protocol_version;
  match agent_id with
  | Some agent_id => insert_agent session_id agent_id
  | None => mret ()
  end.

(** *** Who is calling *)

Definition resolve_participant_from_agent st (session_id agent_id : option string) (refresh_from_pid_event : bool)
    : result string (option string) * McpServerState W :=
  match agent_id with
  | None => (Ok None, st)
  | Some agent_id =>
      match resolve_runtime_agent resolver (ms_host st) agent_id refresh_from_pid_event with
      | None => (Ok None, st)
      | Some agent =>
          match participant_for_runtime_agent surface (ms_host st) agent with
          | Err error => (Err error, st)
          | Ok None => (Ok None, st)
          | Ok (Some participant_id) =>
              (Ok (Some participant_id),
               match session_id with Some sid => store_session_participant st sid participant_id | None => st end)
          end
      end
  end.

(** The protocol version a request that does not initialize speaks. *)
Definition request_version (session_id mcp_protocol_version : option string) : handler W string :=
  match session_id with
  | Some sid => resolve_or_recover_session_protocol sid mcp_protocol_version
  | None =>
      match mcp_protocol_version with
      | Some version => if supported_protocol_version version then mret version else answer (invalid_version version)
      | None => mret ASSUMED_VERSION
      end
  end.

(** The agent, and whether the session names it. *)
Definition request_agent (is_initialize : bool) (session_id agent_id_from_header : option string) (port : Z)
    : handler W (option string * bool) :=
  match agent_id_from_header with
  | Some id => mret (Some id, false)
  | None =>
      match session_id with
      | Some sid => λ st,
          if agents_poisoned st then (Err lock_error_response, st)
          else
            match session_agent_ids st !! sid with
            | Some id => (Ok (Some id, true), st)
            | None =>
                match correlate_agent_by_port resolver (ms_host st) port with
                | Some (_, adopted) => (Ok (Some adopted, true), with_agents st (<[sid := adopted]> (session_agent_ids st)))
                | None => (Ok (None, false), st)
                end
            end
      | None =>
          if is_initialize then reads (λ st, (snd <$> correlate_agent_by_port resolver (ms_host st) port, false))
          else mret (None, false)
      end
  end.

Definition request_participant (is_initialize : bool) (session_id from_header agent_id : option string) (from_session : bool)
    : handler W (option string) :=
  participant_id ←
    match from_header with
    | Some participant_id => acts (λ st,
        (Some participant_id,
         match session_id with Some sid => store_session_participant st sid participant_id | None => st end))
    | None => reads (λ st, sid ← session_id; lookup_session_participant st sid)
    end;
  match participant_id with
  | Some participant_id => mret (Some participant_id)
  | None => acts (λ st,
      let '(resolved, st) := resolve_participant_from_agent st session_id agent_id (negb is_initialize && from_session) in
      (match resolved with Ok resolved => resolved | Err _ => None end, st))
  end.

(** The body as a JSON-RPC request. *)
Definition read_request (req : McpRequest) : handler W JsonRpcRequest :=
  match to_bytes (mq_body req) body_limit with
  | None => answer (build_plain_http_response BAD_REQUEST "Failed to read request body")
  | Some body_bytes =>
      match json_from_slice body_bytes with
      | Ok r => mret r
      | Err e => answer (build_plain_http_response BAD_REQUEST ("Failed to parse JSON: " +:+ json_display e))
      end
  end.

(** The version the request speaks, its agent and its participant. *)
Definition identify (headers : list (string * string)) (port : Z) (is_initialize : bool) (session_id : option string)
    : handler W (option string * option string * option string) :=
  request_protocol_version ←
    (if is_initialize then mret None
     else version ← request_version session_id (header_string headers "mcp-protocol-version"); mret (Some version));
  agent ← request_agent is_initialize session_id (header_string headers "x-proxy-agent-id") port;
  participant_id ← request_participant is_initialize session_id (header_string headers "x-proxy-participant-id") agent.1 agent.2;
  mret (request_protocol_version, agent.1, participant_id).

(** The session an [initialize] opens, and the HTTP response. *)
Definition response_version (is_initialize : bool) (response : JsonRpcResponse) (request_protocol_version : option string) : string :=
  if is_initialize then
    default MCP_PROTOCOL_VERSION (result ← jr_result response; v ← v_get result "protocolVersion"; v_as_str v)
  else default MCP_PROTOCOL_VERSION request_protocol_version.
Definition open_session (headers : list (string * string)) (session_id version : string) (agent_id : option string) : handler W () :=
  _ ← record_initialized_session session_id version agent_id;
  match header_string headers "x-proxy-participant-id" with
  | Some participant_id => updates (λ st, store_session_participant st session_id participant_id)
  | None => mret ()
  end.
Definition conclude (headers : list (string * string)) (request : JsonRpcRequest) (response : JsonRpcResponse)
    (request_protocol_version agent_id : option string) (response_session_id : string) : handler W Response :=
  let is_initialize := bool_decide (jq_method request = "initialize") in
  let version := response_version is_initialize response request_protocol_version in
  let initialize_succeeded := is_initialize && bool_decide (jr_error response = None) in
  _ ← (if initialize_succeeded then open_session headers response_session_id version agent_id else mret ());
  mret (if decide (jq_id request = None)
        then build_plain_http_response_with_protocol ACCEPTED "" version
        else build_jsonrpc_http_response http_error response (accepts_event_stream headers)
               (if initialize_succeeded then Some response_session_id else None) version).

Definition message_run (req : McpRequest) (random : barr 16) (joined : bool) : handler W Response :=
  let headers := mq_headers req in
  prefix ← reads session_prefix;
  request ← read_request req;
  let is_initialize := bool_decide (jq_method request = "initialize") in
  let session_id := if is_initialize then None else request_session_id_from_headers headers prefix in
  '(version, agent_id, participant_id) ← identify headers (mq_port req) is_initialize session_id;
  grant ← reads (λ st, caller_grant surface (ms_host st) (mq_principal req) participant_id
                         (header_string headers HARNESS_TOOL_POLICY_HEADER) joined);
  response ← acts (λ st, handle_request surface resolver st request agent_id participant_id grant
                           (tool_caller (mq_address req) grant) session_id);
  conclude headers request response version agent_id (mint_session_id prefix random).

Definition message_handler (req : McpRequest) (random : barr 16) (joined : bool) st : Response * McpServerState W :=
  match message_run req random joined st with (Ok r, st) | (Err r, st) => (r, st) end.
End handlers.

(** ** Event streams

    What a stream wakes up to: the shutdown flag it reads first, then a change
    of the flag or an answer of the broadcast channel. *)

Inductive SseWake : Type :=
  | ShutdownChanged
  | Received (data : string)
  | Lagged
  | ClosedChannel.
Inductive SsePhase : Type := Initial | Running.
Inductive SseNext : Type :=
  | SseEnd
  | SseEvent (event data : string) (rest : list (bool * SseWake))
  | SsePending.

(** The loop of [sse_next_event]. *)
Fixpoint sse_next (inputs : list (bool * SseWake)) : SseNext :=
  match inputs with
  | [] => SsePending
  | (shutdown, wake) :: inputs =>
      if shutdown then SseEnd
      else
        match wake with
        | ShutdownChanged | ClosedChannel => SseEnd
        | Received data => SseEvent "message" data inputs
        | Lagged => sse_next inputs
        end
  end.

Section sse.
Context `{JsonValue} {W : Type}.
Implicit Types st : McpServerState W.

Definition sse_next_event st (stream_session_id : option string) (inputs : list (bool * SseWake)) : SseNext * McpServerState W :=
  match sse_next inputs with
  | SseEnd => (SseEnd, match stream_session_id with Some sid => remove_session_participant st sid | None => st end)
  | next => (next, st)
  end.

(** [stream::unfold] over a bounded number of polls: the events, whether the
    stream has ended, and the state it leaves. *)
Fixpoint sse_unfold (polls : nat) (phase : SsePhase) (endpoint stream_session_id : option string)
    (inputs : list (bool * SseWake)) st : list (string * string) * bool * McpServerState W :=
  match polls with
  | 0 => ([], false, st)
  | S polls =>
      match phase, endpoint with
      | Initial, Some endpoint_url =>
          let '(events, ended, st) := sse_unfold polls Running None stream_session_id inputs st in
          (("endpoint", endpoint_url) :: events, ended, st)
      | _, _ =>
          match sse_next_event st stream_session_id inputs with
          | (SseEnd, st) => ([], true, st)
          | (SsePending, st) => ([], false, st)
          | (SseEvent event data rest, st) =>
              let '(events, ended, st) := sse_unfold polls Running None stream_session_id rest st in
              ((event, data) :: events, ended, st)
          end
      end
  end.

Definition sse_stream_response st (headers : list (string * string)) (initial_endpoint : option string)
    (inputs : list (bool * SseWake)) : list (string * string) * bool * McpServerState W :=
  sse_unfold (S (S (length inputs))) Initial initial_endpoint (request_session_id_from_headers headers (session_prefix st)) inputs st.
Definition get_message_handler st (headers : list (string * string)) (inputs : list (bool * SseWake)) :=
  sse_stream_response st headers None inputs.
Definition sse_handler st (headers : list (string * string)) (inputs : list (bool * SseWake)) :=
  sse_stream_response st headers (Some ("http://localhost:" +:+ pretty (ms_port st) +:+ mcp_endpoint_path st)) inputs.
End sse.
