(* ===== verification/McpRuns.v ===== *)
(** * What the MCP server guarantees

    The authority of a tool call, what is listed against what may be called,
    the life of a session over any run of requests, the interleavings of two
    requests of one session, and the events of a stream. *)

From S2P Require Import Prelude Ordered External Http Identity Text Words Op OAuth AskProof Relay Gate JsonValue McpProtocol McpServer.

Section mcp.
Context `{Json, JsonValue, Percent, !JsonWire JsonRpcRequest, !JsonWire JsonRpcResponse}.
Context `{!FromValue InitializeParams, !ToValue InitializeResult, !FromValue ToolCallRequest, !ToValue ToolCallResult}.
Context {W : Type} (surface : McpToolSurface W) (resolver : McpAgentResolver W) (http_error : string).
Implicit Types st : McpServerState W.
Notation message_run := (message_run surface resolver http_error).
Notation message_handler := (message_handler surface resolver http_error).

(** ** Frames *)

(** A handler whose every outcome is related to the state it began in. *)
Definition keeps {A} (R : McpServerState W → McpServerState W → Prop) (h : handler W A) : Prop :=
  ∀ st, R st (h st).2.
Lemma keeps_bind {A B} R (h : handler W A) (k : A → handler W B) :
  PreOrder R → keeps R h → (∀ a, keeps R (k a)) → keeps R (h ≫= k).
Proof.
  intros [_ Htrans] Hh Hk st. unfold mbind, handler_bind. specialize (Hh st). destruct (h st) as [[a|r] st1]; [|done].
  by etrans; [|apply Hk].
Qed.

(** The host is untouched, and no call was made. *)
Definition same_host st st' : Prop := ms_host st' = ms_host st ∧ ms_calls st' = ms_calls st.
#[local] Instance same_host_preorder : PreOrder same_host.
Proof. split; [done|]. intros s1 s2 s3 [? ?] [? ?]. split; congruence. Qed.

(** The prefix and the locks do not change, and a session keeps its version. *)
Definition fixed_parts st st' : Prop :=
  session_prefix st' = session_prefix st ∧ initialized_poisoned st' = initialized_poisoned st ∧
  versions_poisoned st' = versions_poisoned st ∧ agents_poisoned st' = agents_poisoned st.
Definition known st (sid v : string) : Prop :=
  sid ∈ initialized_sessions st ∧ session_protocol_versions st !! sid = Some v.
Definition keeps_session (sid : string) st st' : Prop := fixed_parts st st' ∧ ∀ v, known st sid v → known st' sid v.
#[local] Instance fixed_parts_preorder : PreOrder fixed_parts.
Proof.
  split; [done|]. intros s1 s2 s3 (Ha & Hb & Hc & Hd) (Ha' & Hb' & Hc' & Hd').
  unfold fixed_parts. by rewrite Ha', Hb', Hc', Hd', Ha, Hb, Hc, Hd.
Qed.
#[local] Instance keeps_session_preorder sid : PreOrder (keeps_session sid).
Proof.
  split; [done|]. intros s1 s2 s3 [Hf12 H12] [Hf23 H23]. split; [by etrans|]. intros v Hv. by apply H23, H12.
Qed.

(** ** Each step of a request *)

Lemma insert_session_same_host sid : keeps same_host (insert_session sid).
Proof. intros st. unfold insert_session. by case_match. Qed.
Lemma insert_version_same_host sid v : keeps same_host (insert_version sid v).
Proof. intros st. unfold insert_version. by case_match. Qed.
Lemma resolve_same_host sid v : keeps same_host (resolve_or_recover_session_protocol sid v).
Proof.
  apply keeps_bind; [apply _|apply insert_session_same_host|]. intros [].
  - apply keeps_bind; [apply _|apply insert_version_same_host|]. intros _. apply keeps_bind; [apply _| |done].
    intros st. unfold read_version. by case_match.
  - apply keeps_bind; [apply _|done|]. intros _. apply keeps_bind; [apply _| |done].
    intros st. unfold read_version. by case_match.
Qed.
Lemma request_version_same_host sid v : keeps same_host (request_version sid v).
Proof. unfold request_version. destruct sid; [apply resolve_same_host|]. by repeat case_match. Qed.
Lemma request_agent_same_host b sid header port : keeps same_host (request_agent resolver b sid header port).
Proof. intros st. unfold request_agent. by repeat (case_match; cbn). Qed.
Lemma resolve_participant_same_host st sid agent b :
  same_host st (resolve_participant_from_agent surface resolver st sid agent b).2.
Proof. unfold resolve_participant_from_agent. by repeat (case_match; cbn). Qed.
Lemma request_participant_same_host b sid header agent s :
  keeps same_host (request_participant surface resolver b sid header agent s).
Proof.
  apply keeps_bind; [apply _|intros st; by repeat (case_match; cbn)|]. intros [p|]; [done|]. intros st. unfold acts.
  pose proof (resolve_participant_same_host st sid agent (negb b && s)) as Hs.
  by destruct (resolve_participant_from_agent _ _ _ _ _ _).
Qed.
Lemma record_same_host sid v agent : keeps same_host (record_initialized_session sid v agent).
Proof.
  apply keeps_bind; [apply _|apply insert_session_same_host|]. intros _.
  apply keeps_bind; [apply _|apply insert_version_same_host|]. intros _. destruct agent; [|done].
  intros st. unfold insert_agent. by case_match.
Qed.

(** ** The authority of a call *)

(** What is handed to the surface: one call at most, of a tool the grant opens. *)
Definition called st st' (agent participant : option string) (grant : ToolGrant) (caller : ToolCaller) : Prop :=
  ∃ call, ms_calls st' = ms_calls st ++ [(call, agent, participant)] ∧
    participant_may_call surface (ms_host st) participant grant (tc_name call) = true ∧
    (tc_caller call = caller ∨
     caller = Agent ∧ tc_caller call = Owner ∧ participant_may_call surface (ms_host st) participant grant "proxy_make_move" = true).

Lemma handle_tools_call_calls st request agent participant grant caller sid :
  let st' := (handle_tools_call surface resolver st request agent participant grant caller sid).2 in
  st' = st ∨ called st st' agent participant grant caller.
Proof.
  unfold handle_tools_call. destruct (jq_params request) as [params|]; [|by left].
  destruct (from_value params) as [parsed|e]; [|by left]. cbn -[bool_decide].
  destruct (participant_may_call surface (ms_host st) participant grant (tc_name parsed)) eqn:Hmay; [|by left]. cbn -[bool_decide].
  set (call := mk_ToolCallRequest _ _ _).
  destruct (handle_tool_call _ _ _ _ _) as [result w]. right. exists call. split_and!; [..|exact Hmay|].
  - destruct sid, (joined_participant call result); reflexivity.
  - cbn. destruct (bool_decide (caller = Agent)) eqn:Hagent; cbn; [|by left].
    apply bool_decide_eq_true in Hagent. case_match; [|by left]. by right.
Qed.

Lemma handle_request_calls st request agent participant grant caller sid :
  let st' := (handle_request surface resolver st request agent participant grant caller sid).2 in
  st' = st ∨ jq_method request = "tools/call" ∧ called st st' agent participant grant caller.
Proof.
  unfold handle_request. do 3 (case_decide; [by left|]). case_decide.
  - destruct (handle_tools_call_calls st request agent participant grant caller sid) as [Hc|Hc]; [by left|by right].
  - repeat (case_decide; [by left|]). by left.
Qed.

(** One step of a handler: it answers early, or goes on. *)
Lemma bind_ok_run {A B} (h : handler W A) (k : A → handler W B) st a st1 : h st = (Ok a, st1) → (h ≫= k) st = k a st1.
Proof. unfold mbind, handler_bind. by intros ->. Qed.
Lemma bind_err_run {A B} (h : handler W A) (k : A → handler W B) st r st1 : h st = (Err r, st1) → (h ≫= k) st = (Err r, st1).
Proof. unfold mbind, handler_bind. by intros ->. Qed.
Lemma keeps_run {A} R (h : handler W A) st a st1 : keeps R h → h st = (a, st1) → R st st1.
Proof. intros Hk Hh. specialize (Hk st). by rewrite Hh in Hk. Qed.

Lemma read_request_same req st : (read_request req st).2 = st.
Proof. unfold read_request. by repeat case_match. Qed.
Lemma identify_same_host headers port b sid : keeps same_host (identify surface resolver headers port b sid).
Proof.
  apply keeps_bind; [apply _| |].
  - destruct b; [done|]. apply keeps_bind; [apply _|apply request_version_same_host|done].
  - intros v. apply keeps_bind; [apply _|apply request_agent_same_host|]. intros agent.
    apply keeps_bind; [apply _|apply request_participant_same_host|done].
Qed.
Lemma conclude_same_host headers request response v agent sid :
  keeps same_host (conclude http_error headers request response v agent sid).
Proof.
  apply keeps_bind; [apply _| |done]. case_match; [|done].
  apply keeps_bind; [apply _|apply record_same_host|]. intros _. by case_match.
Qed.

(** A request answers early, or is dispatched once. *)
Definition early req st r st1 : Prop :=
  read_request req st = (Err r, st1) ∨
  ∃ b sid, identify surface resolver (mq_headers req) (mq_port req) b sid st = (Err r, st1).
Lemma message_run_dispatch req random joined st :
  let headers := mq_headers req in
  let out := message_run req random joined st in
  (∃ r st1, early req st r st1 ∧ out = (Err r, st1)) ∨
  ∃ request version agent participant st1,
    let is_initialize := bool_decide (jq_method request = "initialize") in
    let sid := if is_initialize then None else request_session_id_from_headers headers (session_prefix st) in
    let grant := caller_grant surface (ms_host st) (mq_principal req) participant (header_string headers HARNESS_TOOL_POLICY_HEADER) joined in
    let dispatched := handle_request surface resolver st1 request agent participant grant (tool_caller (mq_address req) grant) sid in
    read_request req st = (Ok request, st) ∧
    identify surface resolver headers (mq_port req) is_initialize sid st = (Ok (version, agent, participant), st1) ∧
    same_host st st1 ∧
    out = conclude http_error headers request dispatched.1 version agent (mint_session_id (session_prefix st) random) dispatched.2.
Proof.
  intros headers out. subst out. unfold McpServer.message_run. erewrite bind_ok_run by done.
  pose proof (read_request_same req st) as Hr. destruct (read_request req st) as [[request|r] st0] eqn:Hread; cbn in Hr; subst st0.
  2:{ left. exists r, st. split; [by left|]. by apply bind_err_run. }
  erewrite bind_ok_run by done. set (sid := if bool_decide _ then _ else _).
  cbv zeta.
  destruct (identify surface resolver headers (mq_port req) (bool_decide (jq_method request = "initialize")) sid st) as [[[[version agent] participant]|r] st1] eqn:Hid.
  2:{ left. exists r, st1. split; [right; by eexists _, _|]. by apply bind_err_run. }
  erewrite bind_ok_run by done. right. exists request, version, agent, participant, st1.
  pose proof (keeps_run _ _ _ _ _ (identify_same_host _ _ _ _) Hid) as Hsame. split_and!; [done..|].
  cbv beta iota. erewrite bind_ok_run by done. rewrite (proj1 Hsame). set (grant := caller_grant _ _ _ _ _ _).
  erewrite bind_ok_run; [reflexivity|]. unfold acts. by destruct (handle_request _ _ _ _ _ _ _ _ _).
Qed.

Lemma early_same_host req st r st1 : early req st r st1 → same_host st st1.
Proof.
  intros [Hr|(b & sid & Hi)]; [|by apply (keeps_run _ _ _ _ _ (identify_same_host _ _ _ _) Hi)].
  pose proof (read_request_same req st) as Hs. rewrite Hr in Hs. by cbn in Hs; subst st1.
Qed.

(** C13: every tool call that reaches the surface is one the surface opens to the
    caller's participant under a grant no wider than what the tunnel's
    principal, the participant and the caller's own policy header allow; a
    request hands over at most one call; a caller at the address is passed on as
    such, and [Owner] only by the full grant or to a participant who may make
    moves. *)
Theorem mcp_call_authorized req random joined st :
  let st' := (message_handler req random joined st).2 in
  ms_calls st' = ms_calls st ∨
  ∃ call agent participant grant,
    ms_calls st' = ms_calls st ++ [(call, agent, participant)] ∧
    participant_may_call surface (ms_host st) participant grant (tc_name call) = true ∧
    grant ⪯ tunnel_grant (mq_principal req) ∧
    grant ⪯ participant_lookup surface (ms_host st) participant joined ∧
    grant ⪯ requested_grant (header_string (mq_headers req) HARNESS_TOOL_POLICY_HEADER) ∧
    (∀ address, mq_address req = Some address → tc_caller call = AddressOf (owner_proven address)) ∧
    (tc_caller call = Owner →
     grant = Full ∨ participant_may_call surface (ms_host st) participant grant "proxy_make_move" = true).
Proof.
  assert (Hout : (message_handler req random joined st).2 = (message_run req random joined st).2).
  { unfold McpServer.message_handler. by destruct (message_run req random joined st) as [[r|r] st']. }
  rewrite Hout. destruct (message_run_dispatch req random joined st) as [(r & st1 & He & ->)|(request & version & agent & participant & st1 & _ & _ & [Hhost Hcalls] & Hrun)];
    [left; by destruct (early_same_host _ _ _ _ He)|].
  cbv zeta. rewrite Hrun. clear Hrun. rewrite (proj2 (conclude_same_host _ _ _ _ _ _ _)).
  set (grant := caller_grant _ _ _ _ _ _). set (sid := if bool_decide _ then _ else _).
  destruct (handle_request_calls st1 request agent participant grant (tool_caller (mq_address req) grant) sid) as [->|[_ (call & Hcall & Hmay & Hcaller)]]; [by left|].
  right. exists call, agent, participant, grant. rewrite Hcall, Hcalls. rewrite Hhost in Hmay, Hcaller. split_and!; [done..| | | | |].
  - subst grant. unfold caller_grant, combined_grant. etrans; [apply narrowed_to_l|]. apply narrowed_to_l.
  - subst grant. unfold caller_grant, combined_grant. etrans; [apply narrowed_to_l|]. apply narrowed_to_r.
  - subst grant. apply narrowed_to_r.
  - intros address Ha. rewrite Ha in Hcaller. cbn in Hcaller. by destruct Hcaller as [|(? & ? & ?)].
  - intros Ho. destruct Hcaller as [Hc|(_ & _ & Hm)]; [|by right]. left. rewrite Ho in Hc. unfold tool_caller in Hc.
    destruct (mq_address req); [done|]. by case_decide.
Qed.

(** ** What is listed against what may be called *)

(** The names a client reads from the answer to [tools/list]. *)
Definition value_name (tool : Value) : option string := name ← v_get tool "name"; v_as_str name.
Definition value_names (tools : list Value) : list string := omap value_name tools.
Definition listed_names (response : JsonRpcResponse) : option (list string) :=
  result ← jr_result response; tools ← v_get result "tools"; value_names <$> v_as_array tools.
Lemma listed_names_tools `{!JsonValueOk} st id participant grant :
  listed_names (handle_tools_list surface st id participant grant) =
  Some (td_name <$> listed_tools surface (ms_host st) participant grant).
Proof.
  unfold listed_names, handle_tools_list. cbn [rpc_success jr_result mbind option_bind].
  set (tools := v_array _). rewrite (v_get_in [("tools", tools)] "tools" tools);
    [|apply NoDup_singleton|apply list_elem_of_here]. cbn [mbind option_bind]. subst tools. rewrite v_as_array_array. cbn. f_equal. unfold value_names. induction (listed_tools _ _ _ _) as [|t l IH]; [done|]. cbn.
  change (value_name (tool_value t)) with (v_get (tool_value t) "name" ≫= v_as_str). by rewrite tool_value_name, IH.
Qed.
Lemma elem_of_listed_tools w participant grant tool :
  tool ∈ listed_tools surface w participant grant ↔
  tool ∈ tools_for_participant surface w participant ∧
  (grant = Full ∨ participant_may_call surface w participant grant (td_name tool) = true).
Proof.
  unfold listed_tools. case_decide as Hg; [naive_solver|]. rewrite list_elem_of_In, filter_In, <-list_elem_of_In. naive_solver.
Qed.

(** A restricted caller is shown exactly the offered tools it may call: the
    names a client reads from the answer to [tools/list] are those of the offered
    tools for which [tools/call], made in the same state under the same grant,
    reaches the surface; a call of any other leaves the state as it is. *)
Lemma tools_list_exact `{!JsonValueOk} st id participant grant request agent caller sid parsed :
  grant ≠ Full →
  jq_params request ≫= (λ p, ok (from_value p)) = Some parsed →
  ∃ names, listed_names (handle_tools_list surface st id participant grant) = Some names ∧
    let st' := (handle_tools_call surface resolver st request agent participant grant caller sid).2 in
    (tc_name parsed ∈ td_name <$> tools_for_participant surface (ms_host st) participant →
     tc_name parsed ∈ names ↔ called st st' agent participant grant caller) ∧
    (tc_name parsed ∉ names → tc_name parsed ∈ td_name <$> tools_for_participant surface (ms_host st) participant → st' = st).
Proof.
  intros Hg Hparse. eexists. split; [apply listed_names_tools|]. cbv zeta.
  assert (Hin : tc_name parsed ∈ td_name <$> tools_for_participant surface (ms_host st) participant →
    tc_name parsed ∈ td_name <$> listed_tools surface (ms_host st) participant grant ↔
    participant_may_call surface (ms_host st) participant grant (tc_name parsed) = true).
  { intros (t & Hn & Ht)%list_elem_of_fmap. split.
    - intros (t' & Hn' & [_ [->|Hm]]%elem_of_listed_tools)%list_elem_of_fmap; [done|]. by rewrite Hn'.
    - intros Hm. apply list_elem_of_fmap. exists t. split; [done|]. apply elem_of_listed_tools.
      split; [done|]. right. by rewrite <-Hn. }
  assert (Hcall : participant_may_call surface (ms_host st) participant grant (tc_name parsed) = false →
    (handle_tools_call surface resolver st request agent participant grant caller sid).2 = st).
  { unfold handle_tools_call. destruct (jq_params request) as [p|]; [|done]. cbn in Hparse.
    apply ok_some in Hparse. rewrite Hparse. cbn. by intros ->. }
  split.
  - intros Ho. rewrite Hin by done. destruct (participant_may_call _ _ _ _ (tc_name parsed)) eqn:Hmay.
    + split; [intros _|done]. destruct (handle_tools_call_calls st request agent participant grant caller sid) as [Hs|Hs]; [|done].
      exfalso. revert Hs. unfold handle_tools_call. destruct (jq_params request) as [p|]; [|done]. cbn in Hparse.
      apply ok_some in Hparse. rewrite Hparse. cbn. rewrite Hmay. cbn. destruct (handle_tool_call _ _ _ _ _) as [r w].
      intros Hs. apply (f_equal ms_calls) in Hs. revert Hs. repeat case_match; cbn; intros Hs%(f_equal length);
      rewrite length_app in Hs; cbn in Hs; lia.
    + split; [done|]. intros (call & Hc & _). rewrite Hcall in Hc by done. apply (f_equal length) in Hc.
      rewrite length_app in Hc. cbn in Hc. lia.
  - intros Hn Ho. apply Hcall. rewrite Hin in Hn by done. by apply not_true_is_false.
Qed.

(** ** Sessions *)

Lemma with_sessions_id st : with_sessions st (initialized_sessions st) = st.
Proof. by destruct st. Qed.
Lemma insert_session_known st sid v : initialized_poisoned st = false → known st sid v → insert_session sid st = (Ok false, st).
Proof.
  intros Hp [Hs _]. unfold insert_session. rewrite Hp. rewrite bool_decide_eq_false_2 by tauto.
  replace ({[sid]} ∪ initialized_sessions st) with (initialized_sessions st) by set_solver. by rewrite with_sessions_id.
Qed.
(** A request of a known session reads its version and changes nothing. *)
Lemma resolve_known st sid v w :
  initialized_poisoned st = false → versions_poisoned st = false → known st sid v →
  resolve_or_recover_session_protocol sid w st = (check_version w v, st).
Proof.
  intros Hi Hv Hk. unfold resolve_or_recover_session_protocol.
  rewrite (bind_ok_run _ _ _ _ _ (insert_session_known st sid v Hi Hk)). erewrite bind_ok_run by done.
  unfold mbind, handler_bind, read_version. rewrite Hv. destruct Hk as [_ ->]. done.
Qed.
(** A recovered session speaks the version its request names. *)
Lemma resolve_unknown st sid w :
  initialized_poisoned st = false → versions_poisoned st = false → sid ∉ initialized_sessions st →
  ∃ st', resolve_or_recover_session_protocol sid w st = (Ok (default ASSUMED_VERSION w), st') ∧
    known st' sid (default ASSUMED_VERSION w).
Proof.
  intros Hi Hv Hn. unfold resolve_or_recover_session_protocol, mbind, handler_bind, insert_session. rewrite Hi.
  rewrite bool_decide_eq_true_2 by done. cbn. unfold insert_version. cbn. rewrite Hv. cbn. unfold read_version. cbn.
  rewrite Hv, lookup_insert_eq. cbn. eexists. split.
  - unfold answers. f_equal. unfold check_version. destruct w as [w|]; cbn; [|done]. by rewrite bool_decide_eq_true_2.
  - split; cbn; [set_solver|]. apply lookup_insert_eq.
Qed.

Lemma insert_session_keeps sid sid' : keeps (keeps_session sid) (insert_session sid').
Proof.
  intros st. unfold insert_session. case_match; [done|]. split; [done|]. intros v [Hs Hv]. split; [set_solver|done].
Qed.
Lemma insert_version_keeps sid sid' v : sid' ≠ sid → keeps (keeps_session sid) (insert_version sid' v).
Proof.
  intros Hne st. unfold insert_version. case_match; [done|]. split; [done|]. intros v' [Hs Hv].
  split; [done|]. cbn. by rewrite lookup_insert_ne.
Qed.
Lemma read_version_keeps sid sid' : keeps (keeps_session sid) (read_version sid').
Proof. intros st. unfold read_version. by case_match. Qed.
Lemma resolve_keeps sid sid' w : keeps (keeps_session sid) (resolve_or_recover_session_protocol sid' w).
Proof.
  destruct (decide (sid' = sid)) as [->|Hne].
  - assert (Hf : keeps fixed_parts (resolve_or_recover_session_protocol sid w)).
    { apply keeps_bind; [apply _|intros st; unfold insert_session; by case_match|]. intros newly.
      apply keeps_bind; [apply _|intros st; unfold insert_version; by repeat case_match|]. intros _.
      apply keeps_bind; [apply _|intros st; unfold read_version; by case_match|done]. }
    intros st. split; [apply Hf|]. unfold resolve_or_recover_session_protocol. intros v Hk.
    destruct (initialized_poisoned st) eqn:Hp.
      { erewrite bind_err_run; [done|]. unfold insert_session. by rewrite Hp. }
      rewrite (bind_ok_run _ _ _ _ _ (insert_session_known st sid v Hp Hk)). erewrite bind_ok_run by done.
      unfold mbind, handler_bind, read_version. by repeat (case_match; simplify_eq/=).
  - apply keeps_bind; [apply _|apply insert_session_keeps|]. intros [].
    + apply keeps_bind; [apply _|by apply insert_version_keeps|]. intros _. apply keeps_bind; [apply _|apply read_version_keeps|done].
    + apply keeps_bind; [apply _|done|]. intros _. apply keeps_bind; [apply _|apply read_version_keeps|done].
Qed.
Lemma identify_keeps sid headers port b session_id :
  keeps (keeps_session sid) (identify surface resolver headers port b session_id).
Proof.
  apply keeps_bind; [apply _| |].
  - destruct b; [done|]. apply keeps_bind; [apply _| |done]. unfold request_version.
    destruct session_id; [apply resolve_keeps|]. by repeat case_match.
  - intros v. apply keeps_bind; [apply _|intros st; unfold request_agent; by repeat (case_match; cbn)|]. intros agent.
    apply keeps_bind; [apply _| |done]. apply keeps_bind; [apply _|intros st; by repeat (case_match; cbn)|].
    intros [p|]; [done|]. intros st. unfold acts, resolve_participant_from_agent. by repeat (case_match; simplify_eq/=).
Qed.
Lemma handle_request_keeps sid st request agent participant grant caller session_id :
  keeps_session sid st (handle_request surface resolver st request agent participant grant caller session_id).2.
Proof.
  unfold handle_request. do 3 (case_decide; [done|]). case_decide; [|by repeat (case_decide; [done|])].
  unfold handle_tools_call. by repeat (case_match; simplify_eq/=).
Qed.
Lemma conclude_keeps sid headers request response v agent minted :
  minted ≠ sid → keeps (keeps_session sid) (conclude http_error headers request response v agent minted).
Proof.
  intros Hne. apply keeps_bind; [apply _| |done]. case_match; [|done].
  apply keeps_bind; [apply _| |intros _; by case_match].
  apply keeps_bind; [apply _|apply insert_session_keeps|]. intros _.
  apply keeps_bind; [apply _|by apply insert_version_keeps|]. intros _. destruct agent; [|done].
  intros st. unfold insert_agent. by case_match.
Qed.
Lemma message_handler_state req random joined st :
  (message_handler req random joined st).2 = (message_run req random joined st).2.
Proof. unfold McpServer.message_handler. by destruct (message_run req random joined st) as [[r|r] st']. Qed.
Lemma message_keeps sid req random joined st :
  mint_session_id (session_prefix st) random ≠ sid → keeps_session sid st (message_handler req random joined st).2.
Proof.
  intros Hne. rewrite message_handler_state.
  destruct (message_run_dispatch req random joined st) as [(r & st1 & [Hr|(b & sid' & Hi)] & ->)|(request & version & agent & participant & st1 & _ & Hid & _ & ->)].
  - pose proof (read_request_same req st) as Hs. rewrite Hr in Hs. by cbn in Hs; subst st1.
  - by apply (keeps_run _ _ _ _ _ (identify_keeps sid _ _ _ _) Hi).
  - apply (keeps_run _ _ _ _ _ (identify_keeps sid _ _ _ _)) in Hid. etrans; [exact Hid|].
    etrans; [|by apply conclude_keeps]. apply handle_request_keeps.
Qed.

(** A run of requests, each with the random bytes of its session id. *)
Definition serve st (reqs : list (McpRequest * barr 16 * bool)) : McpServerState W :=
  foldl (λ st r, (message_handler r.1.1 r.1.2 r.2 st).2) st reqs.
Definition fresh_mints (prefix sid : string) (reqs : list (McpRequest * barr 16 * bool)) : Prop :=
  Forall (λ r, mint_session_id prefix r.1.2 ≠ sid) reqs.
Lemma serve_keeps sid st reqs : fresh_mints (session_prefix st) sid reqs → keeps_session sid st (serve st reqs).
Proof.
  revert st; induction reqs as [|[[req random] joined] reqs IH]; intros st Hf; [done|].
  apply Forall_cons in Hf as [Hr Hf]. pose proof (message_keeps sid req random joined st Hr) as Hk.
  etrans; [exact Hk|]. apply IH. destruct Hk as [(Hp & _) _]. unfold fresh_mints. by rewrite Hp.
Qed.

(** Early answers open no session. *)
Definition sessionless (r : Response) : Prop := header "mcp-session-id" (resp_headers r) = None.
Lemma plain_sessionless status body v : sessionless (build_plain_http_response_with_protocol status body v).
Proof. unfold build_plain_http_response_with_protocol. by case_match. Qed.
Definition answers_sessionless {A} (h : handler W A) : Prop := ∀ st r st1, h st = (Err r, st1) → sessionless r.
Lemma answers_sessionless_bind {A B} (h : handler W A) (k : A → handler W B) :
  answers_sessionless h → (∀ a, answers_sessionless (k a)) → answers_sessionless (h ≫= k).
Proof.
  intros Hh Hk st r st1. unfold mbind, handler_bind. destruct (h st) as [[a|r'] st'] eqn:Ha; [apply Hk|].
  intros [= <- <-]. by eapply Hh.
Qed.
Ltac sessionless := intros ? ? ?; repeat (case_match; simplify_eq/=; try done); intros; simplify_eq/=; try apply plain_sessionless.
Lemma insert_session_sessionless sid : answers_sessionless (insert_session sid).
Proof. unfold insert_session. sessionless. Qed.
Lemma insert_version_sessionless sid v : answers_sessionless (insert_version sid v).
Proof. unfold insert_version. sessionless. Qed.
Lemma read_version_sessionless sid : answers_sessionless (read_version sid).
Proof. unfold read_version, ok_or. sessionless. Qed.
Lemma resolve_sessionless sid w : answers_sessionless (resolve_or_recover_session_protocol sid w).
Proof.
  apply answers_sessionless_bind; [apply insert_session_sessionless|]. intros newly.
  apply answers_sessionless_bind; [destruct newly; [apply insert_version_sessionless|done]|]. intros _.
  apply answers_sessionless_bind; [apply read_version_sessionless|]. intros v. unfold answers, check_version. sessionless.
Qed.
Lemma identify_sessionless headers port b sid : answers_sessionless (identify surface resolver headers port b sid).
Proof.
  apply answers_sessionless_bind.
  - destruct b; [done|]. apply answers_sessionless_bind; [|done]. unfold request_version. destruct sid; [apply resolve_sessionless|].
    unfold answer. sessionless.
  - intros v. apply answers_sessionless_bind; [unfold request_agent; sessionless|]. intros agent.
    apply answers_sessionless_bind; [|done]. apply answers_sessionless_bind; [sessionless|]. intros [p|]; [done|]. unfold acts. sessionless.
Qed.
Lemma read_request_sessionless req : answers_sessionless (read_request req).
Proof. unfold read_request, answer. sessionless. Qed.
Lemma open_session_sessionless headers sid v agent : answers_sessionless (open_session headers sid v agent).
Proof.
  apply answers_sessionless_bind; [|intros _; by case_match].
  apply answers_sessionless_bind; [apply insert_session_sessionless|]. intros _.
  apply answers_sessionless_bind; [apply insert_version_sessionless|]. intros _. unfold insert_agent. sessionless.
Qed.

(** A session that was opened is known, and its locks are sound. *)
Lemma open_session_known headers sid v agent st st1 :
  open_session headers sid v agent st = (Ok (), st1) →
  known st1 sid v ∧ initialized_poisoned st1 = false ∧ versions_poisoned st1 = false ∧ session_prefix st1 = session_prefix st.
Proof.
  unfold open_session, record_initialized_session, mbind, handler_bind, insert_session. destruct (initialized_poisoned st) eqn:Hi; [done|].
  unfold insert_version. cbn. destruct (versions_poisoned st) eqn:Hv; [done|]. cbn. unfold insert_agent. cbn. intros Hrun.
  assert (Hst : initialized_sessions st1 = {[sid]} ∪ initialized_sessions st ∧
    session_protocol_versions st1 = <[sid:=v]> (session_protocol_versions st) ∧
    initialized_poisoned st1 = initialized_poisoned st ∧ versions_poisoned st1 = versions_poisoned st ∧
    session_prefix st1 = session_prefix st).
  { unfold updates, mret, handler_ret in Hrun. repeat (case_match; simplify_eq/=); done. }
  destruct Hst as (Hs & Hp & -> & -> & ->). split_and!; [|done..]. unfold known. rewrite Hs, Hp.
  split; [set_solver|apply lookup_insert_eq].
Qed.

(** What a JSON-RPC response carries in its headers. *)
Lemma jsonrpc_headers response sse sid v :
  let r := build_jsonrpc_http_response http_error response sse sid v in
  resp_status r = INTERNAL_SERVER_ERROR ∧ sessionless r ∨
  header_text v = true ∧ header "mcp-protocol-version" (resp_headers r) = Some v ∧ header "mcp-session-id" (resp_headers r) = sid.
Proof.
  unfold build_jsonrpc_http_response. destruct (json_to_vec response) as [json|e]; [|by left].
  set (headers := _ ++ _ ++ _). unfold builder_headers.
  destruct (forallb _ headers) eqn:Hall; [|by left]. right.
  assert (Hv : In ("mcp-protocol-version", v) headers) by by left.
  apply (proj1 (forallb_forall _ _) Hall), bool_decide_eq_true in Hv. cbn in Hv. unfold header_value_from_str in Hv.
  destruct (header_text v); [|by destruct Hv]. split_and!; [done..|]. by destruct sid, sse.
Qed.

Definition response_of (out : result Response Response) : Response := match out with Ok r | Err r => r end.
Lemma conclude_opened headers request response version agent minted st out st1 s v :
  conclude http_error headers request response version agent minted st = (out, st1) →
  header "mcp-session-id" (resp_headers (response_of out)) = Some s →
  header "mcp-protocol-version" (resp_headers (response_of out)) = Some v →
  s = minted ∧ header_text v = true ∧ known st1 s v ∧
  initialized_poisoned st1 = false ∧ versions_poisoned st1 = false ∧ session_prefix st1 = session_prefix st.
Proof.
  intros Hrun Hs Hv. assert (Hno : ¬ sessionless (response_of out)) by (unfold sessionless; congruence). unfold conclude in Hrun.
  destruct (bool_decide (jq_method request = "initialize") && bool_decide (jr_error response = None)).
  - destruct (open_session headers minted (response_version (bool_decide (jq_method request = "initialize")) response version) agent st)
      as [[[]|e] st2] eqn:Hopen.
    2:{ erewrite bind_err_run in Hrun by done. simplify_eq. exfalso. by eapply Hno, open_session_sessionless. }
    erewrite bind_ok_run in Hrun by done. unfold mret, handler_ret in Hrun. simplify_eq. cbn in Hs, Hv, Hno.
    case_decide; [exfalso; apply Hno, plain_sessionless|]. apply open_session_known in Hopen as (Hk & Hi & Hvp & Hpre2).
    destruct (jsonrpc_headers response (accepts_event_stream headers) (Some minted)
      (response_version (bool_decide (jq_method request = "initialize")) response version)) as [[_ Hbad]|(Ht & Hv' & Hs')]; [by destruct Hno|].
    rewrite Hs in Hs'. rewrite Hv in Hv'. by simplify_eq.
  - erewrite bind_ok_run in Hrun by done. unfold mret, handler_ret in Hrun. simplify_eq. cbn in Hs, Hv, Hno. exfalso.
    case_decide; [apply Hno, plain_sessionless|].
    destruct (jsonrpc_headers response (accepts_event_stream headers) None
      (response_version (bool_decide (jq_method request = "initialize")) response version)) as [[_ Hbad]|(Ht & Hv' & Hs')]; [by destruct Hno|]. congruence.
Qed.
Lemma message_handler_run req random joined st :
  message_handler req random joined st = (response_of (message_run req random joined st).1, (message_run req random joined st).2).
Proof. unfold McpServer.message_handler. by destruct (message_run req random joined st) as [[r|r] st']. Qed.
Lemma session_opened req random joined st r st1 s v :
  message_handler req random joined st = (r, st1) →
  header "mcp-session-id" (resp_headers r) = Some s → header "mcp-protocol-version" (resp_headers r) = Some v →
  s = mint_session_id (session_prefix st) random ∧ header_text v = true ∧ known st1 s v ∧
  initialized_poisoned st1 = false ∧ versions_poisoned st1 = false ∧ session_prefix st1 = session_prefix st.
Proof.
  rewrite message_handler_run. intros [= <- <-] Hs Hv.
  destruct (message_run_dispatch req random joined st) as [(r' & st' & He & Hout)|(request & version & agent & participant & st' & _ & Hid & _ & Hout)];
    cbv zeta in Hout; rewrite Hout in Hs, Hv |- *.
  { exfalso. cbn in Hs. enough (sessionless r') by (unfold sessionless in *; congruence).
    destruct He as [Hr|(b & sid & Hi)]; [by eapply read_request_sessionless|by eapply identify_sessionless]. }
  destruct (conclude _ _ _ _ _ _ _ _) as [out st2] eqn:Hc. cbn in Hs, Hv |- *.
  destruct (conclude_opened _ _ _ _ _ _ _ _ _ _ _ Hc Hs Hv) as (-> & Ht & Hk & Hi & Hvp & Hpre). split_and!; [done..|].
  apply (keeps_run _ _ _ _ _ (identify_keeps "" _ _ _ _)) in Hid as [(Hpre' & _) _]. rewrite Hpre, <-Hpre'.
  by apply (handle_request_keeps "").
Qed.

(** What a request of a known session runs into. *)
Lemma identify_known headers port s v st :
  initialized_poisoned st = false → versions_poisoned st = false → agents_poisoned st = false → known st s v →
  match check_version (header_string headers "mcp-protocol-version") v with
  | Err r => identify surface resolver headers port false (Some s) st = (Err r, st)
  | Ok _ => ∃ agent participant st', identify surface resolver headers port false (Some s) st = (Ok (Some v, agent, participant), st')
  end.
Proof.
  intros Hi Hv Ha Hk. pose proof (resolve_known st s v (header_string headers "mcp-protocol-version") Hi Hv Hk) as Hr.
  unfold identify. destruct (check_version _ v) as [v'|r] eqn:Hc.
  - assert (v' = v) as -> by (unfold check_version in Hc; by case_match; simplify_eq).
    assert (Hag : ∃ a st1, request_agent resolver false (Some s) (header_string headers "x-proxy-agent-id") port st = (Ok a, st1)).
    { unfold request_agent. destruct (header_string headers "x-proxy-agent-id"); [by eexists _, _|]. cbn beta iota. rewrite Ha.
      repeat case_match; by eexists _, _. }
    destruct Hag as (a & st1 & Hag).
    assert (Hp : ∃ p st2, request_participant surface resolver false (Some s) (header_string headers "x-proxy-participant-id") a.1 a.2 st1 = (Ok p, st2)).
    { unfold request_participant, mbind, handler_bind, acts, reads, mret, handler_ret. repeat (case_match; simplify_eq/=); by eexists _, _. }
    destruct Hp as (p & st2 & Hp). exists a.1, p, st2. unfold mbind, handler_bind in *. cbn [request_version]. rewrite Hr.
    unfold mret at 1, handler_ret at 1. rewrite Hag, Hp. done.
  - unfold mbind, handler_bind. cbn [request_version]. by rewrite Hr.
Qed.

(** The rest of a request that names a session. *)
Lemma message_run_session req random joined st request s :
  read_request req st = (Ok request, st) → jq_method request ≠ "initialize" →
  request_session_id_from_headers (mq_headers req) (session_prefix st) = Some s →
  message_run req random joined st =
    (identify surface resolver (mq_headers req) (mq_port req) false (Some s) ≫= λ '(version, agent_id, participant_id),
       grant ← reads (λ st, caller_grant surface (ms_host st) (mq_principal req) participant_id
                              (header_string (mq_headers req) HARNESS_TOOL_POLICY_HEADER) joined);
       response ← acts (λ st, handle_request surface resolver st request agent_id participant_id grant
                                (tool_caller (mq_address req) grant) (Some s));
       conclude http_error (mq_headers req) request response version agent_id (mint_session_id (session_prefix st) random)) st.
Proof.
  intros Hread Hm Hs. unfold McpServer.message_run. erewrite bind_ok_run by done. erewrite bind_ok_run by done. cbv zeta.
  by rewrite (bool_decide_eq_false_2 _ Hm), Hs.
Qed.

(** An answer that serialises is sent, under the version. *)
Lemma jsonrpc_sent response sse v json :
  header_text v = true → json_to_vec response = Ok json →
  let r := build_jsonrpc_http_response http_error response sse None v in
  resp_status r = OK ∧ header "mcp-protocol-version" (resp_headers r) = Some v ∧
  resp_body r = if sse then payload_bytes ("event: message" +:+ nl +:+ "data: ") ++ json ++ payload_bytes (nl +:+ nl) else json.
Proof.
  intros Ht Hjson. unfold build_jsonrpc_http_response. rewrite Hjson. set (headers := _ ++ _ ++ _).
  assert (Hall : builder_headers headers = Some headers).
  { unfold builder_headers. replace (forallb _ headers) with true; [done|]. symmetry. subst headers.
    destruct sse; cbn; unfold header_value_from_str; rewrite Ht; done. }
  rewrite Hall. by destruct sse.
Qed.

(** C14: a session lasts: once [initialize] has answered a session id and a
    version, and after any further requests of any clients (with other random
    ids), when the lock of the session's agents is not poisoned: a request that
    names the session, other than [initialize], and no version or this one is
    served.  It is identified under that version, its method is run for the agent
    and participant it was identified as, with the grant of that caller, the state
    is the one the method leaves, and the answer is [ACCEPTED] for a notification
    and otherwise [OK] with the method's answer, when that serialises, both under
    that version.  A request that names another version is refused, with nothing
    changed. *)
Theorem mcp_session_lasts init random joined st r st1 s v reqs req random' joined' request :
  message_handler init random joined st = (r, st1) →
  header "mcp-session-id" (resp_headers r) = Some s →
  header "mcp-protocol-version" (resp_headers r) = Some v →
  fresh_mints (session_prefix st) s reqs →
  agents_poisoned (serve st1 reqs) = false →
  header_string (mq_headers req) "mcp-session-id" = Some s →
  read_request req (serve st1 reqs) = (Ok request, serve st1 reqs) → jq_method request ≠ "initialize" →
  (∀ w, header_string (mq_headers req) "mcp-protocol-version" = Some w → w ≠ v →
     message_handler req random' joined' (serve st1 reqs) = (invalid_version w, serve st1 reqs)) ∧
  (default v (header_string (mq_headers req) "mcp-protocol-version") = v →
     ∃ agent participant st3,
       identify surface resolver (mq_headers req) (mq_port req) false (Some s) (serve st1 reqs) = (Ok (Some v, agent, participant), st3) ∧
       let grant := caller_grant surface (ms_host st3) (mq_principal req) participant
                      (header_string (mq_headers req) HARNESS_TOOL_POLICY_HEADER) joined' in
       let '(response, st4) := handle_request surface resolver st3 request agent participant grant
                                 (tool_caller (mq_address req) grant) (Some s) in
       let '(answer, st5) := message_handler req random' joined' (serve st1 reqs) in
       st5 = st4 ∧
       if decide (jq_id request = None) then answer = mk_Response ACCEPTED [("mcp-protocol-version", v)] []
       else ∀ json, json_to_vec response = Ok json →
         resp_status answer = OK ∧ header "mcp-protocol-version" (resp_headers answer) = Some v ∧
         resp_body answer = if accepts_event_stream (mq_headers req)
           then payload_bytes ("event: message" +:+ nl +:+ "data: ") ++ json ++ payload_bytes (nl +:+ nl) else json).
Proof.
  intros Hinit Hs Hv Hfresh Hag Hsid Hread Hm.
  destruct (session_opened _ _ _ _ _ _ _ _ Hinit Hs Hv) as (Hmint & Ht & Hk & Hi & Hvp & Hpre).
  rewrite <-Hpre in Hfresh. destruct (serve_keeps s st1 reqs Hfresh) as [(Hp2 & Hi2 & Hv2 & _) Hk2]. apply Hk2 in Hk.
  rewrite Hi in Hi2. rewrite Hvp in Hv2. set (st2 := serve st1 reqs) in *.
  assert (Hsession : request_session_id_from_headers (mq_headers req) (session_prefix st2) = Some s).
  { unfold request_session_id_from_headers. rewrite Hsid. cbn. rewrite Hp2, Hpre, Hmint. unfold mint_session_id.
    unfold starts_with. rewrite strip_prefix_app. by rewrite bool_decide_eq_true_2. }
  pose proof (identify_known (mq_headers req) (mq_port req) s v st2 Hi2 Hv2 Hag Hk) as Hid.
  pose proof (message_run_session req random' joined' st2 request s Hread Hm Hsession) as Hrun.
  split.
  - intros w Hw Hne. rewrite Hw in Hid. unfold check_version in Hid. cbn in Hid. rewrite bool_decide_eq_false_2 in Hid by done.
    cbn in Hid. rewrite message_handler_run, Hrun. by rewrite (bind_err_run _ _ _ _ _ Hid).
  - intros Hw. assert (Hc : check_version (header_string (mq_headers req) "mcp-protocol-version") v = Ok v).
    { revert Hw. generalize (header_string (mq_headers req) "mcp-protocol-version"). intros [w|]; [|done].
      change (w = v → check_version (Some w) v = Ok v). intros ->. unfold check_version, filter_opt. by rewrite bool_decide_eq_true_2. }
    rewrite Hc in Hid. destruct Hid as (agent & participant & st3 & Hid).
    exists agent, participant, st3. split; [done|]. cbv zeta. set (grant := caller_grant _ _ _ _ _ _).
    destruct (handle_request _ _ _ _ _ _ _ _ _) as [response st4] eqn:Hh.
    assert (Hfin : message_run req random' joined' st2 =
      (Ok (if decide (jq_id request = None) then build_plain_http_response_with_protocol ACCEPTED "" v
           else build_jsonrpc_http_response http_error response (accepts_event_stream (mq_headers req)) None v), st4)).
    { rewrite Hrun, (bind_ok_run _ _ _ _ _ Hid). erewrite bind_ok_run by done. fold grant. unfold mbind at 1, handler_bind at 1, acts at 1.
      rewrite Hh. unfold conclude. cbv zeta. rewrite (bool_decide_eq_false_2 _ Hm). cbn [andb]. by erewrite bind_ok_run by done. }
    rewrite message_handler_run, Hfin. cbn [fst snd response_of]. split; [done|]. case_decide.
    + unfold build_plain_http_response_with_protocol, header_value_from_str. by rewrite Ht.
    + intros json Hjson. by apply jsonrpc_sent.
Qed.
End mcp.

(** ** Interleavings

    Two requests of one session take the locks in turns.  A task is where a
    request stands in [resolve_or_recover_session_protocol] or in
    [record_initialized_session]; every step holds one lock. *)

Section race.
Context `{Json, JsonValue} {W : Type}.
Implicit Types st : McpServerState W.

Inductive Pc : Type :=
  | AtInsert
  | AtVersion
  | AtRead
  | Finished (r : result Response string).
Record Task : Type := mk_Task {
  (** the version an [initialize] records, or the header of a later request *)
  tk_records : bool;
  tk_sid : string;
  tk_version : option string;
  tk_pc : Pc;
}.
Definition at_pc (t : Task) (pc : Pc) : Task := mk_Task (tk_records t) (tk_sid t) (tk_version t) pc.
Definition next_pc {A} (out : result Response A) (k : A → Pc) : Pc := match out with Ok a => k a | Err r => Finished (Err r) end.

Definition task_step (t : Task) st : option (Task * McpServerState W) :=
  match tk_pc t with
  | AtInsert =>
      let '(out, st) := insert_session (tk_sid t) st in
      Some (at_pc t (next_pc out (λ newly, if newly || tk_records t then AtVersion else AtRead)), st)
  | AtVersion =>
      let '(out, st) := insert_version (tk_sid t) (default ASSUMED_VERSION (tk_version t)) st in
      Some (at_pc t (next_pc out (λ _, if tk_records t then Finished (Ok (default ASSUMED_VERSION (tk_version t))) else AtRead)), st)
  | AtRead =>
      let '(out, st) := read_version (tk_sid t) st in
      Some (at_pc t (next_pc out (λ expected, Finished (check_version (tk_version t) expected))), st)
  | Finished _ => None
  end.

Definition config : Type := McpServerState W * list Task.
Inductive steps : config → config → Prop :=
  | steps_here c : steps c c
  | steps_more st ts i t t' st' c :
      ts !! i = Some t → task_step t st = Some (t', st') → steps (st', <[i := t']> ts) c → steps (st, ts) c.

(** A session without a version is one that a task is about to give one; a task
    that writes or reads a version has seen its session. *)
Definition race_ok (c : config) : Prop :=
  initialized_poisoned c.1 = false ∧ versions_poisoned c.1 = false ∧
  (∀ sid, sid ∈ initialized_sessions c.1 → session_protocol_versions c.1 !! sid = None →
     ∃ t, t ∈ c.2 ∧ tk_sid t = sid ∧ tk_pc t = AtVersion) ∧
  (∀ t, t ∈ c.2 → tk_pc t = AtVersion ∨ tk_pc t = AtRead → tk_sid t ∈ initialized_sessions c.1).

Lemma race_ok_step st ts i t t' st' :
  race_ok (st, ts) → ts !! i = Some t → task_step t st = Some (t', st') → race_ok (st', <[i := t']> ts).
Proof.
  intros (Hi & Hv & Hmiss & Hread) Ht. cbn in Hi, Hv, Hmiss, Hread. pose proof (lookup_lt_Some _ _ _ Ht) as Hlt.
  assert (Hin : ∀ u, u ∈ <[i:=t']> ts → u = t' ∨ u ∈ ts).
  { intros u [j Hj]%list_elem_of_lookup. destruct (decide (j = i)) as [->|Hne].
    - rewrite list_lookup_insert_eq in Hj by done. left. congruence.
    - rewrite list_lookup_insert_ne in Hj by done. right. by eapply list_elem_of_lookup_2. }
  assert (Hhere : t' ∈ <[i:=t']> ts) by (apply (list_elem_of_lookup_2 _ i); by apply list_lookup_insert_eq).
  assert (Hkeep : ∀ u, u ∈ ts → u ≠ t → u ∈ <[i:=t']> ts).
  { intros u [j Hj]%list_elem_of_lookup Hne. apply (list_elem_of_lookup_2 _ j).
    rewrite list_lookup_insert_ne; [done|]. intros ->. congruence. }
  unfold task_step. destruct (tk_pc t) eqn:Hpc; [..|done].
  - unfold insert_session. rewrite Hi. cbn. intros [= <- <-]. split_and!; [done..| |]; cbn.
    + intros sid Hsid Hnone. destruct (decide (sid = tk_sid t ∧ sid ∉ initialized_sessions st)) as [[-> Hnew]|Hold].
      * eexists. split_and!; [exact Hhere|done|]. cbn. by rewrite bool_decide_eq_true_2.
      * destruct (Hmiss sid) as (u & Hu & Hus & Hupc); [set_solver|done|]. exists u. split_and!; [|done..]. apply Hkeep; [done|]. congruence.
    + intros u [->|Hu]%Hin Hupc; cbn in *; [set_solver|]. specialize (Hread u Hu Hupc). set_solver.
  - unfold insert_version. rewrite Hv. cbn. intros [= <- <-]. split_and!; [done..| |]; cbn.
    + intros sid Hsid Hnone. rewrite lookup_insert_None in Hnone. destruct Hnone as [Hnone Hne].
      destruct (Hmiss sid Hsid Hnone) as (u & Hu & Hus & Hupc). exists u. split_and!; [|done..]. apply Hkeep; [done|]. congruence.
    + intros u [->|Hu]%Hin Hupc; cbn in *; [|by apply Hread].
      apply Hread; [by eapply list_elem_of_lookup_2|by left].
  - unfold read_version. rewrite Hv. cbn. intros [= <- <-]. split_and!; [done..| |]; cbn.
    + intros sid Hsid Hnone. destruct (Hmiss sid Hsid Hnone) as (u & Hu & Hus & Hupc). exists u.
      split_and!; [|done..]. apply Hkeep; [done|]. congruence.
    + intros u [->|Hu]%Hin Hupc; [|by apply Hread]. destruct (session_protocol_versions st !! tk_sid t); by destruct Hupc.
Qed.
Lemma race_ok_steps c c' : steps c c' → race_ok c → race_ok c'.
Proof. induction 1 as [|st ts i t t' st' c Ht Hs _ IH]; [done|]. intros Hok. by eapply IH, race_ok_step. Qed.

(** A task that runs alone is the request handler's own code. *)
Fixpoint run_alone (n : nat) (t : Task) st : Task * McpServerState W :=
  match n with
  | 0 => (t, st)
  | S n => match task_step t st with Some (t, st) => run_alone n t st | None => (t, st) end
  end.
Lemma task_alone sid version st :
  let '(out, st') := resolve_or_recover_session_protocol sid version st in
  run_alone 3 (mk_Task false sid version AtInsert) st = (mk_Task false sid version (Finished out), st').
Proof.
  unfold resolve_or_recover_session_protocol, mbind, handler_bind. cbn [run_alone]. unfold task_step at 1. cbn [tk_pc tk_sid].
  unfold insert_session. destruct (initialized_poisoned st) eqn:Hi; [done|]. cbn [tk_records next_pc at_pc]. rewrite orb_false_r.
  destruct (bool_decide (sid ∉ initialized_sessions st)) eqn:Hnew.
  - unfold task_step at 1, insert_version. cbn. destruct (versions_poisoned st) eqn:Hv; [done|]. cbn.
    unfold task_step, read_version. cbn. rewrite Hv, lookup_insert_eq. done.
  - unfold task_step at 1, mret, handler_ret, read_version. cbn. destruct (versions_poisoned st) eqn:Hv; [done|].
    by destruct (session_protocol_versions st !! sid).
Qed.

(** C33: in any interleaving of requests that recover, name or open sessions, a
    request is answered that its session has no protocol version only while
    another request of the same session stands between its two locks: it has
    entered the session and not yet its version.  So a request that runs on its
    own is never answered so. *)
Theorem recovery_race st ts st1 ts1 i t t' st2 r :
  initialized_poisoned st = false → versions_poisoned st = false →
  (∀ sid, sid ∈ initialized_sessions st → is_Some (session_protocol_versions st !! sid)) →
  Forall (λ t, tk_pc t = AtInsert) ts →
  steps (st, ts) (st1, ts1) →
  ts1 !! i = Some t → task_step t st1 = Some (t', st2) → tk_pc t' = Finished (Err r) → resp_status r = INTERNAL_SERVER_ERROR →
  ∃ j u, j ≠ i ∧ ts1 !! j = Some u ∧ tk_sid u = tk_sid t ∧ tk_pc u = AtVersion.
Proof.
  intros Hi Hv Hall Hts Hsteps Ht Hstep Hpc Hr.
  assert (Hok : race_ok (st, ts)).
  { split_and!; [done..| |]; cbn; [intros sid [v Hsid]%Hall; congruence|].
    intros u Hu. rewrite Forall_forall in Hts. specialize (Hts u Hu). cbn in Hts. intros [|]; congruence. }
  apply (race_ok_steps _ _ Hsteps) in Hok as (Hi1 & Hv1 & Hmiss & Hread). cbn in Hi1, Hv1, Hmiss, Hread. unfold task_step in Hstep.
  destruct (tk_pc t) eqn:Hpct; [..|done].
  - unfold insert_session in Hstep. rewrite Hi1 in Hstep. cbn in Hstep. simplify_eq. cbn in Hpc. by repeat case_match.
  - unfold insert_version in Hstep. rewrite Hv1 in Hstep. cbn in Hstep. simplify_eq. cbn in Hpc. by repeat case_match.
  - unfold read_version in Hstep. rewrite Hv1 in Hstep. destruct (session_protocol_versions st1 !! tk_sid t) as [v|] eqn:Hl; cbn in Hstep; simplify_eq.
    + cbn in Hpc. simplify_eq. unfold check_version in Hpc. exfalso. by case_match; simplify_eq.
    + destruct (Hmiss (tk_sid t)) as (u & [j Hj]%list_elem_of_lookup & Hus & Hupc); [|done|].
      { apply Hread; [by eapply list_elem_of_lookup_2|by right]. }
      exists j, u. split_and!; [|done..]. intros ->. congruence.
Qed.

(** Two requests of a session the server has forgotten: the second to take the
    locks is answered as a server failure, though either order of the two on
    their own serves both. *)
Definition recovery_pair (sid : string) : list Task := [mk_Task false sid None AtInsert; mk_Task false sid None AtInsert].
Lemma recovery_race_happens st sid :
  initialized_poisoned st = false → versions_poisoned st = false →
  sid ∉ initialized_sessions st → session_protocol_versions st !! sid = None →
  ∃ st1 t1, steps (st, recovery_pair sid)
    (st1, [t1; mk_Task false sid None (Finished (Err (build_plain_http_response INTERNAL_SERVER_ERROR "Missing protocol version for initialized session")))]).
Proof.
  intros Hi Hv Hs Hn. eexists _, _.
  eapply (steps_more _ _ 0); [done|unfold task_step, insert_session; cbn; rewrite Hi; reflexivity|]. cbn. rewrite bool_decide_eq_true_2 by done.
  eapply (steps_more _ _ 1); [done|unfold task_step, insert_session; cbn; rewrite Hi; reflexivity|]. cbn. rewrite bool_decide_eq_false_2 by set_solver.
  eapply (steps_more _ _ 1); [done|unfold task_step, read_version; cbn; rewrite Hv, Hn; reflexivity|]. cbn. apply steps_here.
Qed.
End race.

(** ** Party guests *)

Section guests.
Context `{Percent}.
(** A guest's token opens nothing when its party word comes first. *)
Lemma party_first_nothing scope word :
  head (split_whitespace scope) = Some word → is_Some (party_parse word) → contains_white word = false → word ≠ "" →
  tunnel_grant (Some (OAuthPrincipal (Some scope))) = Nothing.
Proof.
  intros Hw [p Hp] Hwhite Hne. unfold tunnel_grant. rewrite decide_True; [done|]. unfold party_parse in *. rewrite Hw. cbn.
  assert (Hs : split_whitespace word = [word]).
  { change word with (join " " [word]) at 1. apply split_whitespace_join. by apply Forall_singleton. }
  rewrite Hs in Hp. by eexists.
Qed.
(** A token whose scope names a party after another word has the seat's tools,
    though the scope names no family of the address. *)
Lemma party_later_seat scope word :
  head (split_whitespace scope) = Some word → starts_with PARTY_PREFIX word = false →
  tunnel_grant (Some (OAuthPrincipal (Some scope))) = Seat.
Proof.
  intros Hw Hp. unfold tunnel_grant. rewrite decide_False; [done|]. intros [p Hparse]. unfold party_parse in Hparse.
  rewrite Hw in Hparse. cbn [mbind option_bind] in Hparse. unfold starts_with in Hp. apply bool_decide_eq_false in Hp.
  destruct (strip_prefix PARTY_PREFIX word); [by destruct Hp|done].
Qed.
End guests.

(** ** Event streams *)

(** What a stream delivers before it ends: the messages up to the first shutdown
    or closed channel. *)
Fixpoint delivered (inputs : list (bool * SseWake)) : list (string * string) * bool :=
  match inputs with
  | [] => ([], false)
  | (true, _) :: _ | (_, ShutdownChanged) :: _ | (_, ClosedChannel) :: _ => ([], true)
  | (_, Lagged) :: inputs => delivered inputs
  | (_, Received data) :: inputs => let '(events, ended) := delivered inputs in (("message", data) :: events, ended)
  end.
Section streams.
Context `{JsonValue} {W : Type}.
Implicit Types st : McpServerState W.

Lemma sse_next_delivered inputs :
  match sse_next inputs with
  | SseEnd => delivered inputs = ([], true)
  | SsePending => delivered inputs = ([], false)
  | SseEvent event data rest =>
      delivered inputs = ((event, data) :: (delivered rest).1, (delivered rest).2) ∧ length rest < length inputs
  end.
Proof.
  induction inputs as [|[[] wake] inputs IH]; [done..|]. destruct wake; cbn; [done| | |done].
  - destruct (delivered inputs). split; [done|cbn; lia].
  - destruct (sse_next inputs); [done| |done]. split; [apply IH|]. destruct IH. lia.
Qed.
Lemma sse_unfold_running n sid inputs st :
  length inputs < n →
  sse_unfold n Running None sid inputs st =
    ((delivered inputs).1, (delivered inputs).2,
     if (delivered inputs).2 then match sid with Some sid => remove_session_participant st sid | None => st end else st).
Proof.
  revert inputs; induction n as [|n IH]; intros inputs Hn; [lia|]. cbn [sse_unfold]. unfold sse_next_event.
  pose proof (sse_next_delivered inputs) as Hd. destruct (sse_next inputs) as [|event data rest|]; [by rewrite Hd| |by rewrite Hd].
  destruct Hd as [-> Hlt]. rewrite IH by lia. done.
Qed.
(** A stream announces its endpoint first, delivers the messages in order, and when
    it ends the participant of its session is forgotten and nothing else. *)
Lemma sse_stream_exact st headers endpoint inputs :
  sse_stream_response st headers endpoint inputs =
    (match endpoint with Some url => [("endpoint", url)] | None => [] end ++ (delivered inputs).1, (delivered inputs).2,
     if (delivered inputs).2
     then match request_session_id_from_headers headers (session_prefix st) with Some sid => remove_session_participant st sid | None => st end
     else st).
Proof.
  unfold sse_stream_response. set (sid := request_session_id_from_headers _ _).
  pose proof (sse_unfold_running (S (length inputs)) sid inputs st ltac:(lia)) as Hone.
  pose proof (sse_unfold_running (S (S (length inputs))) sid inputs st ltac:(lia)) as Htwo.
  destruct endpoint as [url|]; [|exact Htwo]. revert Hone. generalize (S (length inputs)). intros n Hone.
  cbn [sse_unfold]. by rewrite Hone.
Qed.
End streams.
