(* ===== verification/McpToy.v ===== *)
(** * A concrete MCP server

    JSON values as an inductive type, a surface with three tools, and the runs on
    which the theorems about sessions, lists and interleavings are applied. *)

From S2P Require Import Prelude Ordered External Toy Http Identity Text Words OAuth AskProof Relay Gate JsonValue McpProtocol McpServer McpRuns.

Inductive tvalue : Type :=
  | TNull
  | TBool (b : bool)
  | TInt (z : Z)
  | TString (s : string)
  | TArray (l : list tvalue)
  | TObject (l : list (string * tvalue)).
Fixpoint assoc {A} (k : string) (l : list (string * A)) : option A :=
  match l with [] => None | (k', v) :: l => if decide (k' = k) then Some v else assoc k l end.
#[export] Instance toy_value : JsonValue := {|
  Value := tvalue;
  v_null := TNull;
  v_bool := TBool;
  v_int := TInt;
  v_string := TString;
  v_array := TArray;
  v_object := TObject;
  v_kind v := match v with TNull => KNull | TBool _ => KBool | TInt _ => KNumber | TString _ => KString | TArray _ => KArray | TObject _ => KObject end;
  v_get v k := match v with TObject l => assoc k l | _ => None end;
  v_as_str v := match v with TString s => Some s | _ => None end;
  v_as_bool v := match v with TBool b => Some b | _ => None end;
  v_as_u64 v := match v with TInt z => if decide (u64_ok z) then Some z else None | _ => None end;
  v_as_array v := match v with TArray l => Some l | _ => None end;
  v_to_string v := match v with TString s => s | _ => "" end;
|}.
Lemma assoc_in {A} k (v : A) l : NoDup l.*1 → (k, v) ∈ l → assoc k l = Some v.
Proof.
  induction l as [|[k' v'] l IH]; cbn; [by intros _ ?%elem_of_nil|]. intros [Hn Hd]%NoDup_cons [[= -> ->]|Hin]%elem_of_cons.
  - by rewrite decide_True.
  - rewrite decide_False; [by apply IH|]. intros ->. apply Hn. apply list_elem_of_fmap. by exists (k, v).
Qed.
Lemma assoc_out {A} k (l : list (string * A)) : k ∉ l.*1 → assoc k l = None.
Proof.
  induction l as [|[k' v'] l IH]; cbn; [done|]. rewrite not_elem_of_cons. intros [Hk Hl]. rewrite decide_False by congruence. by apply IH.
Qed.
#[export] Instance toy_value_ok : JsonValueOk.
Proof. split; try done; intros; [by apply assoc_in|by apply assoc_out]. Qed.

Module McpToy.
Import Toy.
(** A request is its method; a call names its tool. *)
#[export] Instance toy_rpc_request : JsonWire JsonRpcRequest := {|
  json_to_vec r := Ok (payload_bytes (jq_method r));
  json_from_slice b := Ok (mk_JsonRpcRequest "2.0" (Some (v_int 1)) (String.string_of_list_byte b) (Some (v_string "look")));
|}.
#[export] Instance toy_rpc_response : JsonWire JsonRpcResponse := {| json_to_vec r := Ok []; json_from_slice b := Err () |}.
#[export] Instance toy_params : FromValue InitializeParams := λ v, Ok (mk_InitializeParams None).
#[export] Instance toy_result : ToValue InitializeResult := λ r, Ok (initialize_value r).
#[export] Instance toy_call : FromValue ToolCallRequest := λ v,
  match v with TString name => Ok (mk_ToolCallRequest name None ToolCaller_default) | _ => Err () end.
#[export] Instance toy_call_result : ToValue ToolCallResult := λ r, Ok (tool_result_value r).

Definition tool (name : string) : ToolDefinition := mk_ToolDefinition name None "" (v_object []) (v_object []) None.
(** The host counts its calls; a seat looks, a writer also writes. *)
Definition surface : McpToolSurface nat :=
  default_surface nat "toy" "toy-" ServerInfo_default (λ _, [tool "look"; tool "write"; tool "rule"])
    (λ _ name, bool_decide (name = "look")) (λ _ name, bool_decide (name ≠ "rule")) (default_participant_grant nat)
    (λ w call _ _, (result_text "done", S w)).
Notation handler := (message_handler surface NoopMcpAgentResolver "bad header").
Definition st0 : McpServerState nat := build_surface_state 8080 surface "/mcp" "/mcp/sse" 0.
Definition request (method : string) (headers : list (string * string)) : McpRequest :=
  mk_McpRequest headers None None None (Some (payload_bytes method)) 50000.

Definition opened : Response * McpServerState nat := handler (request "initialize" []) (zeros 16) true st0.
Definition opened_id : string := "toy-00000000000000000000000000000000".
Definition others : list (McpRequest * barr 16 * bool) := [(request "initialize" [], vreplicate 16 Byte.x01, true)].
Definition later (version : string) : McpRequest := request "ping" [("mcp-session-id", opened_id); ("mcp-protocol-version", version)].
Definition served : McpServerState nat := serve surface NoopMcpAgentResolver "bad header" opened.2 others.
Definition ping : JsonRpcRequest := mk_JsonRpcRequest "2.0" (Some (v_int 1)) "ping" (Some (v_string "look")).
(** The session's version is served, another one is refused. *)
Lemma mcp_session_lasts_witness :
  resp_status (handler (later MCP_PROTOCOL_VERSION) (zeros 16) true served).1 = OK ∧
  handler (later "2024-01-01") (zeros 16) true served = (invalid_version "2024-01-01", served).
Proof.
  split.
  - destruct (mcp_session_lasts surface NoopMcpAgentResolver "bad header" (request "initialize" []) (zeros 16) true st0
      opened.1 opened.2 opened_id MCP_PROTOCOL_VERSION others (later MCP_PROTOCOL_VERSION) (zeros 16) true ping) as [_ Hserved].
    + unfold opened. apply surjective_pairing.
    + vm_compute. reflexivity.
    + vm_compute. reflexivity.
    + apply (bool_decide_unpack _). vm_compute. exact I.
    + vm_compute. reflexivity.
    + vm_compute. reflexivity.
    + reflexivity.
    + discriminate.
    + destruct Hserved as (agent & participant & st3 & _ & Hans); [vm_compute; reflexivity|]. fold served in Hans.
      cbv zeta in Hans. match type of Hans with let '(_, _) := ?h in _ => destruct h as [response st4] end.
      destruct (handler (later MCP_PROTOCOL_VERSION) (zeros 16) true served) as [answer st5].
      destruct Hans as [_ Hans]. rewrite decide_False in Hans by discriminate.
      destruct (Hans _ eq_refl) as [Hok _]. exact Hok.
  - destruct (mcp_session_lasts surface NoopMcpAgentResolver "bad header" (request "initialize" []) (zeros 16) true st0
      opened.1 opened.2 opened_id MCP_PROTOCOL_VERSION others (later "2024-01-01") (zeros 16) true ping) as [Hrefused _].
    + unfold opened. apply surjective_pairing.
    + vm_compute. reflexivity.
    + vm_compute. reflexivity.
    + apply (bool_decide_unpack _). vm_compute. exact I.
    + vm_compute. reflexivity.
    + vm_compute. reflexivity.
    + reflexivity.
    + discriminate.
    + apply Hrefused; [vm_compute; reflexivity|discriminate].
Defined.

(** Two requests of a session the server does not know. *)
Definition race0 : McpServerState nat := (insert_session "toy-x" (insert_session "toy-x" st0).2).2.
Definition race_tasks : list Task := [mk_Task false "toy-x" None AtVersion; mk_Task false "toy-x" None AtRead].
Definition missing : Response := build_plain_http_response INTERNAL_SERVER_ERROR "Missing protocol version for initialized session".
Lemma race_steps : steps (st0, recovery_pair "toy-x") (race0, race_tasks).
Proof.
  assert (Hone : task_step (mk_Task false "toy-x" None AtInsert) st0 = Some (mk_Task false "toy-x" None AtVersion, (insert_session "toy-x" st0).2)).
  { unfold task_step, insert_session. cbn [tk_pc tk_sid initialized_poisoned st0 build_surface_state]. by rewrite bool_decide_eq_true_2 by set_solver. }
  assert (Htwo : task_step (mk_Task false "toy-x" None AtInsert) (insert_session "toy-x" st0).2 = Some (mk_Task false "toy-x" None AtRead, race0)).
  { unfold task_step, insert_session at 1. cbn [tk_pc tk_sid]. change (initialized_poisoned _) with false. cbv iota.
    by rewrite bool_decide_eq_false_2 by (cbn; set_solver). }
  exact (steps_more st0 (recovery_pair "toy-x") 0 _ _ _ _ eq_refl Hone
    (steps_more _ [mk_Task false "toy-x" None AtVersion; mk_Task false "toy-x" None AtInsert] 1 _ _ _ _ eq_refl Htwo
       (steps_here (race0, race_tasks)))).
Qed.
Lemma recovery_race_witness :
  ∃ j u, j ≠ 1 ∧ race_tasks !! j = Some u ∧ tk_sid u = "toy-x" ∧ tk_pc u = AtVersion.
Proof.
  apply (recovery_race st0 (recovery_pair "toy-x") race0 race_tasks 1 (mk_Task false "toy-x" None AtRead)
    (mk_Task false "toy-x" None (Finished (Err missing))) race0 missing).
  - reflexivity.
  - reflexivity.
  - intros sid Hsid. exfalso. apply elem_of_empty in Hsid. exact Hsid.
  - repeat constructor.
  - exact race_steps.
  - reflexivity.
  - unfold task_step, read_version. cbn [tk_pc tk_sid]. change (versions_poisoned _) with false. cbv iota.
    change (session_protocol_versions race0) with (∅ : gmap string string). by rewrite lookup_empty.
  - reflexivity.
  - reflexivity.
Defined.

(** A purpose scope whose party is not its first word. *)
Definition two_purposes : string := "ask:1 party:p1".
Lemma two_purposes_seat :
  normalize_scope (Some two_purposes) = Ok two_purposes ∧ scope_is_purpose_only two_purposes = true ∧
  is_Some (party_scope_of (Some two_purposes)) ∧ tunnel_grant (Some (OAuthPrincipal (Some two_purposes))) = Seat ∧
  tunnel_grant (Some (OAuthPrincipal (Some "party:p1 ask:1"))) = Nothing.
Proof. split_and!; try (vm_compute; reflexivity). vm_compute. by eexists. Qed.
End McpToy.
