(* ===== verification/Tunnel.v ===== *)
(** * The tunnel's process manager ([src/tunnel.rs])

    The manager runs [cloudflared] and restarts it.  Its tasks (a call of
    [start] or [stop], the task that starts the process, the health loop, the
    timers of scheduled restarts) interleave between their awaits; an action is
    what one of them does from one await to the next.  Processes, ports and the
    configuration answer as the environment decides. *)

From stdpp Require Import pretty.
From S2P Require Import Prelude Identity Text Words.

Record TunnelConfig : Type := mk_TunnelConfig {
  tg_id : string;
  tg_username : string;
  tg_tunnel_token : string;
  tg_local_port : Z;
  tg_metrics_port : Z;
  tg_enabled : bool;
  tg_updated_at : string;
}.
Inductive TunnelState : Type :=
  | Stopped
  | Starting
  | Connected
  | TunnelError (message : string).
#[export] Instance TunnelState_eq_dec : EqDecision TunnelState.
Proof. solve_decision. Defined.

(** ** Delays *)

(** Durations in seconds. *)
Definition RESTART_BACKOFF_BASE : Z := 5.
Definition RESTART_BACKOFF_MAX : Z := 120.
Definition MAX_RESTART_ATTEMPTS : Z := 10.
Definition u32_max : Z := 2 ^ 32 - 1.

(** [1_u32.checked_shl(exponent)] *)
Definition checked_shl_one (exponent : Z) : option Z :=
  if (exponent <? 32)%Z then Some (Z.shiftl 1 exponent mod 2 ^ 32)%Z else None.
Definition exponential_backoff_interval (base max consecutive_failures : Z) : Z :=
  let exponent := Z.min (Z.max 0 (consecutive_failures - 1)) 5 in
  let multiplier := default u32_max (checked_shl_one exponent) in
  let interval := Z.min (base * multiplier) u64_max in
  if (max <? interval)%Z then max else interval.
Definition restart_delay (attempt : Z) : option Z :=
  if ((1 <=? attempt) && (attempt <=? MAX_RESTART_ATTEMPTS))%Z
  then Some (exponential_backoff_interval RESTART_BACKOFF_BASE RESTART_BACKOFF_MAX attempt) else None.

Definition UNHEALTHY_INTERVAL_BASE : Z := 5.
Definition UNHEALTHY_INTERVAL_MAX : Z := 60.
Definition HEALTHY_INTERVAL : Z := 60.

(** ** The manager *)

(** Where the holder of [lifecycle] stands. *)
Inductive Holder : Type :=
  | StartLocked (only_if_generation : option Z)
  | StartConfigured (config : TunnelConfig)
  | StartBumped (config : TunnelConfig) (generation : Z)
  | StopLocked
  | StopBumped
  | StopNoHealth
  | StopNoChild
  | StopSet.
(** Where [start_inner] stands. *)
Inductive Inner : Type :=
  | WantBinary (config : TunnelConfig) (generation : Z)
  | WantReap (config : TunnelConfig) (generation : Z)
  | WantSpawn (generation port : Z)
  | WantCheck (generation port pid : Z)
  | WantChild (port pid : Z)
  | WantPort (port : Z)
  | WantHealth (port : Z).
(** Where the health loop stands, with its consecutive failures. *)
Inductive Health : Type :=
  | HealthPoll (failures : Z)
  | HealthFailed (message : string)
  | HealthSchedule
  | HealthProbe (failures : Z)
  | HealthEnd.

Record Tunnel : Type := mk_Tunnel {
  tn_state : TunnelState;
  tn_port : option Z;
  tn_lifecycle : option Holder;
  tn_child : option Z;
  tn_start : option Inner;
  tn_health : option Health;
  tn_generation : Z;
  tn_attempts : Z;
  tn_timers : list (Z * Z);
}.
Definition TunnelManager_new : Tunnel := mk_Tunnel Stopped None None None None None 0 0 [].

Definition set_state (v : TunnelState) (m : Tunnel) : Tunnel :=
  mk_Tunnel v (tn_port m) (tn_lifecycle m) (tn_child m) (tn_start m) (tn_health m) (tn_generation m) (tn_attempts m) (tn_timers m).
Definition set_port (v : option Z) (m : Tunnel) : Tunnel :=
  mk_Tunnel (tn_state m) v (tn_lifecycle m) (tn_child m) (tn_start m) (tn_health m) (tn_generation m) (tn_attempts m) (tn_timers m).
Definition set_lifecycle (v : option Holder) (m : Tunnel) : Tunnel :=
  mk_Tunnel (tn_state m) (tn_port m) v (tn_child m) (tn_start m) (tn_health m) (tn_generation m) (tn_attempts m) (tn_timers m).
Definition set_child (v : option Z) (m : Tunnel) : Tunnel :=
  mk_Tunnel (tn_state m) (tn_port m) (tn_lifecycle m) v (tn_start m) (tn_health m) (tn_generation m) (tn_attempts m) (tn_timers m).
Definition set_start (v : option Inner) (m : Tunnel) : Tunnel :=
  mk_Tunnel (tn_state m) (tn_port m) (tn_lifecycle m) (tn_child m) v (tn_health m) (tn_generation m) (tn_attempts m) (tn_timers m).
Definition set_health (v : option Health) (m : Tunnel) : Tunnel :=
  mk_Tunnel (tn_state m) (tn_port m) (tn_lifecycle m) (tn_child m) (tn_start m) v (tn_generation m) (tn_attempts m) (tn_timers m).
Definition set_generation (v : Z) (m : Tunnel) : Tunnel :=
  mk_Tunnel (tn_state m) (tn_port m) (tn_lifecycle m) (tn_child m) (tn_start m) (tn_health m) v (tn_attempts m) (tn_timers m).
Definition set_attempts (v : Z) (m : Tunnel) : Tunnel :=
  mk_Tunnel (tn_state m) (tn_port m) (tn_lifecycle m) (tn_child m) (tn_start m) (tn_health m) (tn_generation m) v (tn_timers m).
Definition set_timers (v : list (Z * Z)) (m : Tunnel) : Tunnel :=
  mk_Tunnel (tn_state m) (tn_port m) (tn_lifecycle m) (tn_child m) (tn_start m) (tn_health m) (tn_generation m) (tn_attempts m) v.

Definition is_current_generation (m : Tunnel) (generation : Z) : bool := bool_decide (tn_generation m = generation).
Definition set_error_if_current (generation : Z) (message : string) (m : Tunnel) : Tunnel :=
  if is_current_generation m generation then set_state (TunnelError message) m else m.
(** [set_state] also answers whether anything changed. *)
Definition state_changed (old new : TunnelState) : bool :=
  match old, new with
  | Connected, Connected | Stopped, Stopped | Starting, Starting => false
  | _, _ => true
  end.
Definition bump_generation (m : Tunnel) : Tunnel := set_generation ((tn_generation m + 1) mod u64_modulus)%Z m.

Definition schedule_restart (m : Tunnel) : Tunnel :=
  let attempt := ((tn_attempts m + 1) mod 2 ^ 32)%Z in
  let m' := set_attempts attempt m in
  match restart_delay attempt with
  | Some delay => set_timers (tn_timers m ++ [(tn_generation m, delay)]) m'
  | None => m'
  end.

(** What [start_from_config] does with the configuration it loaded. *)
Definition loaded (only_if_generation : option Z) (config : result string (option TunnelConfig)) (m : Tunnel) : Tunnel :=
  match config with
  | Err _ => set_lifecycle None m
  | Ok None => set_lifecycle None (set_state (TunnelError "Tunnel is not configured yet") m)
  | Ok (Some config) =>
      if decide (trim (tg_username config) = "") then set_lifecycle None (set_state (TunnelError "Tunnel config username cannot be empty") m)
      else if decide (trim (tg_tunnel_token config) = "") then set_lifecycle None (set_state (TunnelError "Tunnel config token cannot be empty") m)
      else if bool_decide (is_Some only_if_generation) && negb (tg_enabled config) then set_lifecycle None m
      else set_lifecycle (Some (StartConfigured config)) m
  end.

Inductive Poll : Type :=
  | Exited (status : string)
  | StillRunning
  | PollFailed (err : string).

Inductive Action : Type :=
  (** [start]: the reset of the counter, and the lock *)
  | ResetAttempts
  | LockStart
  (** a scheduled restart wakes up and takes the lock *)
  | FireTimer (i : nat)
  | LoadConfig (config : result string (option TunnelConfig))
  | CheckState
  | SpawnStart
  (** [start_inner] *)
  | GotBinary (path : result string string)
  | GotPort (port : result string Z)
  | Spawned (pid : result string Z)
  | Recheck
  | StoreChild
  | PublishPort
  | SpawnHealth
  (** [run_health_loop] *)
  | PollChild (answer : Poll)
  | SetFailed
  | Schedule
  | Probe (is_ready : bool)
  | EndHealth
  (** [stop] *)
  | LockStop
  | BumpStop
  | AbortHealth
  | TakeChild
  | SetStopped
  | ClearPort.

(** [start] and [start_from_config], up to the spawn of the start task. *)
Definition act_start (a : Action) (m : Tunnel) : option Tunnel :=
  match a, tn_lifecycle m with
  | ResetAttempts, _ => Some (set_attempts 0 m)
  | LockStart, None => Some (set_lifecycle (Some (StartLocked None)) m)
  | FireTimer i, None =>
      '(generation, _) ← tn_timers m !! i;
      let m := set_timers (delete i (tn_timers m)) m in
      Some (if is_current_generation m generation then set_lifecycle (Some (StartLocked (Some generation))) m else m)
  | LoadConfig config, Some (StartLocked only_if) => Some (loaded only_if config m)
  | CheckState, Some (StartConfigured config) =>
      match tn_state m with
      | Starting | Connected => Some (set_lifecycle None m)
      | _ =>
          let m := bump_generation (set_start None m) in
          Some (set_lifecycle (Some (StartBumped config (tn_generation m))) m)
      end
  | SpawnStart, Some (StartBumped config generation) =>
      Some (set_lifecycle None (set_start (Some (WantBinary config generation)) (set_state Starting m)))
  | _, _ => None
  end.
(** [start_inner], between its checks of the generation. *)
Definition act_inner (a : Action) (m : Tunnel) : option Tunnel :=
  match a, tn_start m with
  | GotBinary path, Some (WantBinary config generation) =>
      match path with
      | Err err => Some (set_start None (set_error_if_current generation err m))
      | Ok _ => Some (if is_current_generation m generation then set_start (Some (WantReap config generation)) m else set_start None m)
      end
  | GotPort port, Some (WantReap config generation) =>
      match port with
      | Err err => Some (set_start None (set_error_if_current generation err m))
      | Ok port => Some (if is_current_generation m generation then set_start (Some (WantSpawn generation port)) m else set_start None m)
      end
  | Spawned pid, Some (WantSpawn generation port) =>
      match pid with
      | Err err => Some (set_start None (set_error_if_current generation ("Failed to start cloudflared: " +:+ err) m))
      | Ok pid => Some (set_start (Some (WantCheck generation port pid)) m)
      end
  | Recheck, Some (WantCheck generation port pid) =>
      Some (if is_current_generation m generation then set_start (Some (WantChild port pid)) m else set_start None m)
  | StoreChild, Some (WantChild port pid) => Some (set_start (Some (WantPort port)) (set_child (Some pid) m))
  | PublishPort, Some (WantPort port) => Some (set_start (Some (WantHealth port)) (set_port (Some port) m))
  | SpawnHealth, Some (WantHealth port) => Some (set_start None (set_health (Some (HealthPoll 0)) m))
  | _, _ => None
  end.
(** One turn of [run_health_loop], and its end. *)
Definition act_health (a : Action) (m : Tunnel) : option Tunnel :=
  match a, tn_health m with
  | PollChild answer, Some (HealthPoll failures) =>
      match tn_child m, answer with
      | None, _ => Some (set_health (Some HealthEnd) m)
      | Some _, Exited status => Some (set_health (Some (HealthFailed ("cloudflared exited with status " +:+ status))) (set_child None m))
      | Some _, StillRunning => Some (set_health (Some (HealthProbe failures)) m)
      | Some _, PollFailed err => Some (set_health (Some (HealthFailed ("Failed to poll cloudflared process: " +:+ err))) (set_child None m))
      end
  | SetFailed, Some (HealthFailed message) => Some (set_health (Some HealthSchedule) (set_state (TunnelError message) m))
  | Schedule, Some HealthSchedule => Some (set_health (Some HealthEnd) (schedule_restart m))
  | Probe is_ready, Some (HealthProbe failures) =>
      Some (if is_ready : bool then set_health (Some (HealthPoll 0)) (set_state Connected (set_attempts 0 m))
            else set_health (Some (HealthPoll (Z.min (failures + 1) u32_max))) (set_state Starting m))
  | EndHealth, Some HealthEnd => Some (set_health None (set_port None m))
  | _, _ => None
  end.
(** [stop], part by part. *)
Definition act_stop (a : Action) (m : Tunnel) : option Tunnel :=
  match a, tn_lifecycle m with
  | LockStop, None => Some (set_lifecycle (Some StopLocked) m)
  | BumpStop, Some StopLocked => Some (set_lifecycle (Some StopBumped) (set_start None (bump_generation m)))
  | AbortHealth, Some StopBumped => Some (set_lifecycle (Some StopNoHealth) (set_health None m))
  | TakeChild, Some StopNoHealth => Some (set_lifecycle (Some StopNoChild) (set_child None m))
  | SetStopped, Some StopNoChild => Some (set_lifecycle (Some StopSet) (set_state Stopped m))
  | ClearPort, Some StopSet => Some (set_lifecycle None (set_port None m))
  | _, _ => None
  end.
Definition act (a : Action) (m : Tunnel) : option Tunnel :=
  match a with
  | ResetAttempts | LockStart | FireTimer _ | LoadConfig _ | CheckState | SpawnStart => act_start a m
  | GotBinary _ | GotPort _ | Spawned _ | Recheck | StoreChild | PublishPort | SpawnHealth => act_inner a m
  | PollChild _ | SetFailed | Schedule | Probe _ | EndHealth => act_health a m
  | LockStop | BumpStop | AbortHealth | TakeChild | SetStopped | ClearPort => act_stop a m
  end.

(** The delay of the health loop after a probe. *)
Definition probe_interval (is_ready : bool) (failures : Z) : Z :=
  if is_ready then HEALTHY_INTERVAL
  else exponential_backoff_interval UNHEALTHY_INTERVAL_BASE UNHEALTHY_INTERVAL_MAX failures.

Fixpoint acts (l : list Action) (m : Tunnel) : option Tunnel :=
  match l with [] => Some m | a :: l => m ← act a m; acts l m end.

(** *** Status *)

Definition state_fields (state : TunnelState) : string * option string :=
  match state with
  | Stopped => ("stopped", None)
  | Starting => ("starting", None)
  | Connected => ("connected", None)
  | TunnelError message => ("error", Some message)
  end.
Record TunnelStatus (P : Type) : Type := mk_TunnelStatus {
  ts_state : string;
  ts_error_message : option string;
  ts_username : option string;
  ts_local_port : option Z;
  ts_metrics_port : option Z;
  ts_install : option P;
}.
Arguments mk_TunnelStatus {P} _ _ _ _ _ _.
(** [config] is the answer of the configuration source, when its task was joined. *)
Definition load_config (joined : result string (result string (option TunnelConfig))) : result string (option TunnelConfig) :=
  match joined with Ok config => config | Err e => Err ("Failed to join tunnel config task: " +:+ e) end.
Definition status {P} (m : Tunnel) (joined : result string (result string (option TunnelConfig))) (install : option P)
    : result string (TunnelStatus P) :=
  let '(state, error_message) := state_fields (tn_state m) in
  config ← load_config joined;
  Ok (mk_TunnelStatus state error_message (tg_username <$> config) (tg_local_port <$> config)
        (match tn_port m with Some port => Some port | None => tg_metrics_port <$> config end) install).

(** ** What holds of every interleaving *)

Ltac act_cases Ha :=
  unfold act, act_start, act_inner, act_health, act_stop, loaded, set_error_if_current, mbind, option_bind in Ha; repeat (case_match; simplify_eq/=); simplify_eq/=; try done.
Lemma Forall_delete {A} (P : A → Prop) l i : Forall P l → Forall P (delete i l).
Proof. intros Hl. rewrite delete_take_drop. apply Forall_app. split; [by apply Forall_take|by apply Forall_drop]. Qed.

Definition timers_below (bound : Z) (m : Tunnel) : Prop := Forall (λ t, t.1 < bound)%Z (tn_timers m).

Lemma bump_small m : (0 ≤ tn_generation m)%Z → (tn_generation m + 1 < u64_modulus)%Z → tn_generation (bump_generation m) = (tn_generation m + 1)%Z.
Proof. intros H0 Hb. unfold bump_generation. cbn. apply Z.mod_small. lia. Qed.

(** The generation moves by one at most, and timers carry generations of the past. *)
Lemma act_generation a m m' :
  act a m = Some m' → (0 ≤ tn_generation m)%Z → (tn_generation m + 1 < u64_modulus)%Z →
  (tn_generation m ≤ tn_generation m' ≤ tn_generation m + 1)%Z ∧
  (timers_below (tn_generation m + 1) m → timers_below (tn_generation m' + 1) m').
Proof.
  intros Ha H0 Hb. pose proof (bump_small m H0 Hb) as Hbump. unfold timers_below, bump_generation in *. cbn in Hbump.
  assert (Hmono : ∀ l g, (tn_generation m ≤ g)%Z → Forall (λ t : Z * Z, t.1 < tn_generation m + 1)%Z l → Forall (λ t, t.1 < g + 1)%Z l).
  { intros l g Hg Hl. eapply Forall_impl; [exact Hl|]. cbn. lia. }
  destruct a; act_cases Ha; try (split; [lia|by auto]); try (rewrite Hbump; split; [lia|apply Hmono; lia]).
  - split; [lia|]. apply Forall_delete.
  - split; [lia|]. apply Forall_delete.
  - unfold schedule_restart. destruct (restart_delay _); cbn; [|split; [lia|done]]. split; [lia|].
    intros Hl. apply Forall_app. split; [done|]. apply Forall_singleton. cbn. lia.
Qed.

(** The timers and the generation of a manager that has run for a while. *)
Lemma acts_generation l m m' :
  acts l m = Some m' → (0 ≤ tn_generation m)%Z → (tn_generation m + len l < u64_modulus)%Z →
  (tn_generation m ≤ tn_generation m' ≤ tn_generation m + len l)%Z ∧
  (timers_below (tn_generation m + 1) m → timers_below (tn_generation m' + 1) m').
Proof.
  revert m; induction l as [|a l IH]; intros m Ha H0 Hb; [cbn in Ha; simplify_eq; rewrite len_nil; split; [lia|done]|].
  rewrite len_cons in *. pose proof (len_nonneg l). cbn in Ha. destruct (act a m) as [m1|] eqn:Hact; [|done]. cbn in Ha.
  destruct (act_generation a m m1 Hact H0 ltac:(lia)) as [Hg Ht]. destruct (IH m1 Ha) as [Hg' Ht']; [lia..|]. split; [lia|]. auto.
Qed.

(** ** Stopping *)

Definition all_stopped (m : Tunnel) : Prop :=
  tn_state m = Stopped ∧ tn_child m = None ∧ tn_health m = None ∧ tn_port m = None.
(** From the bump of [stop] on: nothing is starting, every timer is stale, and the
    parts are taken away one after the other. *)
Definition stopping (m : Tunnel) : Prop :=
  tn_start m = None ∧ timers_below (tn_generation m) m ∧ (0 ≤ tn_generation m)%Z ∧
  match tn_lifecycle m with
  | Some StopBumped => True
  | Some StopNoHealth => tn_health m = None
  | Some StopNoChild => tn_health m = None ∧ tn_child m = None
  | Some StopSet => tn_state m = Stopped ∧ tn_child m = None ∧ tn_health m = None
  | Some StopLocked | None => all_stopped m
  | _ => False
  end.
Lemma stopping_step a m m' :
  act a m = Some m' → (tn_generation m + 1 < u64_modulus)%Z → a ≠ LockStart → a ≠ Schedule → stopping m → stopping m'.
Proof.
  intros Ha Hb Hstart Hsched (Hs & Ht & H0 & Hp). pose proof (bump_small m H0 Hb) as Hbump. unfold bump_generation in Hbump. cbn in Hbump.
  unfold stopping, timers_below, all_stopped in *.
  destruct a; act_cases Ha; try (split_and!; try done; naive_solver).
  - pose proof (Forall_lookup_1 _ _ _ _ Ht H1) as Hz. cbn in Hz. unfold is_current_generation in *. cbn in *.
    match goal with Hc : bool_decide _ = true |- _ => apply bool_decide_eq_true in Hc end. lia.
  - split_and!; try done; [by apply Forall_delete|naive_solver..].
  - rewrite Hbump. split_and!; [done| |lia|done]. eapply Forall_impl; [exact Ht|]. cbn. lia.
Qed.
Lemma stopping_acts l m m' :
  acts l m = Some m' → (tn_generation m + len l < u64_modulus)%Z → LockStart ∉ l → Schedule ∉ l → stopping m → stopping m'.
Proof.
  revert m; induction l as [|a l IH]; intros m Ha Hb Hstart Hsched Hp; [by cbn in Ha; simplify_eq|].
  rewrite len_cons in Hb. pose proof (len_nonneg l). cbn in Ha. destruct (act a m) as [m1|] eqn:Hact; [|done]. cbn in Ha.
  apply not_elem_of_cons in Hstart as [Ha1 Hstart], Hsched as [Ha2 Hsched]. pose proof Hp as (_ & _ & H0 & _).
  destruct (act_generation a m m1 Hact H0 ltac:(lia)) as [Hg _].
  apply (IH m1 Ha); [lia|done|done|]. apply (stopping_step a m); [done|lia|congruence|congruence|done].
Qed.

(** C12: a stopped tunnel stays stopped: in any history of the manager, once
    [stop] has moved the generation and unless [start] is called again, no
    interleaving of the restart timers, the starting task, the health loop and
    further stops that does not let the health loop schedule a restart after that
    moment leaves anything running: whenever no call holds the lifecycle, the
    state is stopped, and no process, no starting task, no health loop and no
    port is left, however many timers fire. *)
Theorem stop_sticks before after m1 m2 m3 :
  acts before TunnelManager_new = Some m1 → act BumpStop m1 = Some m2 → acts after m2 = Some m3 →
  (len before + len after + 1 < u64_modulus)%Z → LockStart ∉ after → Schedule ∉ after →
  tn_lifecycle m3 = None →
  all_stopped m3 ∧ tn_start m3 = None.
Proof.
  intros Hb Hbump Ha Hlen Hstart Hsched Hdone. pose proof (len_nonneg after).
  destruct (acts_generation before TunnelManager_new m1 Hb) as [Hg Ht]; [done|cbn; lia|]. cbn in Hg.
  specialize (Ht (Forall_nil_2 _)).
  assert (Hgen : tn_generation m2 = (tn_generation m1 + 1)%Z).
  { pose proof (bump_small m1 ltac:(lia) ltac:(lia)) as Hs. unfold bump_generation in Hs. cbn in Hs. act_cases Hbump. }
  assert (Hstop : stopping m2).
  { unfold stopping. rewrite Hgen. clear Hgen. act_cases Hbump. split_and!; [done|done|lia|done]. }
  apply (stopping_acts after m2 m3 Ha) in Hstop as (Hs & _ & _ & Hp); [|lia|done|done]. by rewrite Hdone in Hp.
Qed.

(** The health loop that schedules its restart between the bump and its abortion
    takes the new generation: the timer is not stale, and the tunnel starts again
    after [stop] has returned. *)
Definition race_config : TunnelConfig := mk_TunnelConfig "t1" "alex" "token" 8080 20241 true "".
Definition up : list Action :=
  [LockStart; LoadConfig (Ok (Some race_config)); CheckState; SpawnStart; GotBinary (Ok "cloudflared"); GotPort (Ok 20241%Z);
   Spawned (Ok 77%Z); Recheck; StoreChild; PublishPort; SpawnHealth].
Definition stop_race : list Action :=
  up ++ [PollChild (Exited "1"); SetFailed; LockStop; BumpStop; Schedule; AbortHealth; TakeChild; SetStopped; ClearPort].
Lemma restart_after_stop :
  (∃ m, acts stop_race TunnelManager_new = Some m ∧ all_stopped m ∧ tn_lifecycle m = None) ∧
  (∃ m, acts (stop_race ++ [FireTimer 0; LoadConfig (Ok (Some race_config)); CheckState; SpawnStart]) TunnelManager_new = Some m ∧
     tn_state m = Starting).
Proof. split; eexists; (split; [vm_compute; reflexivity|]); done. Qed.

(** ** Restarting *)

Definition is_fire (a : Action) : bool := match a with FireTimer _ => true | _ => false end.
(** The timers there are, and the ones the counter still allows. *)
Definition restarts_left (m : Tunnel) : Z := len (tn_timers m) + Z.max 0 (MAX_RESTART_ATTEMPTS - tn_attempts m).
Lemma restarts_step a m m' :
  act a m = Some m' → (0 ≤ tn_attempts m)%Z → (tn_attempts m + 1 < 2 ^ 32)%Z → a ≠ ResetAttempts → a ≠ Probe true →
  (restarts_left m' + (if is_fire a then 1 else 0) = restarts_left m)%Z ∧ (tn_attempts m ≤ tn_attempts m' ≤ tn_attempts m + 1)%Z.
Proof.
  intros Ha H0 Hb Hreset Hprobe. unfold restarts_left.
  assert (Hdel : ∀ i t, tn_timers m !! i = Some t → (len (delete i (tn_timers m)) + 1 = len (tn_timers m))%Z).
  { intros i t Hi. pose proof (lookup_lt_Some _ _ _ Hi). unfold len. rewrite length_delete by (by eexists). lia. }
  destruct a; act_cases Ha; try (split; lia); try (erewrite <-Hdel by eassumption; split; lia).
  unfold schedule_restart. rewrite Z.mod_small by lia. unfold restart_delay, MAX_RESTART_ATTEMPTS.
  destruct (Z.leb_spec 1 (tn_attempts m + 1)), (Z.leb_spec (tn_attempts m + 1) 10); cbn; rewrite ?len_app; change (len [(tn_generation m, _)]) with 1%Z; split; lia.
Qed.

(** C32: restarts are bounded: however the tasks interleave, while no probe finds
    the tunnel ready and nobody calls [start], no more restarts wake up than were
    already scheduled and than the counter leaves of the ten attempts. *)
Theorem restarts_bounded l m m' :
  acts l m = Some m' → (0 ≤ tn_attempts m)%Z → (tn_attempts m + len l < 2 ^ 32)%Z → ResetAttempts ∉ l → Probe true ∉ l →
  (len (List.filter is_fire l) + len (tn_timers m') ≤ len (tn_timers m) + Z.max 0 (MAX_RESTART_ATTEMPTS - tn_attempts m))%Z.
Proof.
  intros Ha H0 Hb Hreset Hprobe.
  enough (len (List.filter is_fire l) + restarts_left m' ≤ restarts_left m)%Z as He by (unfold restarts_left in He; lia).
  revert m Ha H0 Hb Hreset Hprobe. induction l as [|a l IH]; intros m Ha H0 Hb Hreset Hprobe; [cbn in Ha |- *; simplify_eq; rewrite (len_nil (A:=Action)); lia|].
  rewrite len_cons in Hb. pose proof (len_nonneg l). cbn in Ha. destruct (act a m) as [m1|] eqn:Hact; [|done]. cbn in Ha.
  apply not_elem_of_cons in Hreset as [Ha1 Hreset], Hprobe as [Ha2 Hprobe].
  destruct (restarts_step a m m1 Hact H0 ltac:(lia) ltac:(congruence) ltac:(congruence)) as [Hr Hat].
  specialize (IH m1 Ha ltac:(lia) ltac:(lia) Hreset Hprobe). cbn [List.filter]. destruct (is_fire a); rewrite ?len_cons; lia.
Qed.

(** The delays grow from five seconds to two minutes. *)
Lemma restart_delay_bounds attempt delay :
  restart_delay attempt = Some delay →
  (RESTART_BACKOFF_BASE ≤ delay ≤ RESTART_BACKOFF_MAX)%Z ∧
  ∀ attempt' delay', restart_delay attempt' = Some delay' → (attempt ≤ attempt')%Z → (delay ≤ delay')%Z.
Proof.
  assert (Hat : ∀ a d, restart_delay a = Some d → (1 ≤ a ≤ 10)%Z ∧ d = Z.min (5 * 2 ^ Z.min (a - 1) 5) 120).
  { intros a d. unfold restart_delay, MAX_RESTART_ATTEMPTS. destruct (Z.leb_spec 1 a), (Z.leb_spec a 10); cbn; intros Hd; try done.
    split; [lia|]. injection Hd as <-. assert ((a = 1 ∨ a = 2 ∨ a = 3 ∨ a = 4 ∨ a = 5 ∨ a = 6 ∨ a = 7 ∨ a = 8 ∨ a = 9 ∨ a = 10)%Z) as Ha by lia.
    repeat (destruct Ha as [->|Ha]; [reflexivity|]). by subst a. }
  intros [Ha ->]%Hat.
  assert (Hpow : ∀ k k', (0 ≤ k ≤ k')%Z → (1 ≤ 2 ^ k ≤ 2 ^ k')%Z).
  { intros k k' Hk. pose proof (Z.pow_le_mono_r 2 k k'). pose proof (Z.pow_le_mono_r 2 0 k). change (2 ^ 0)%Z with 1%Z in *. lia. }
  split.
  - pose proof (Hpow (Z.min (attempt - 1) 5) 5%Z ltac:(lia)). unfold RESTART_BACKOFF_BASE, RESTART_BACKOFF_MAX. lia.
  - intros a' d' [Ha' ->]%Hat Hle. pose proof (Hpow (Z.min (attempt - 1) 5) (Z.min (a' - 1) 5) ltac:(lia)). lia.
Qed.

(** ** Witnesses *)

(** A tunnel that fails, schedules its restart, and is stopped before the timer fires. *)
Definition failed_once : list Action := up ++ [PollChild (Exited "1"); SetFailed; Schedule; EndHealth; LockStop].
Definition stopped_run : list Action := [AbortHealth; TakeChild; SetStopped; ClearPort; FireTimer 0].
Definition manager_after (l : list Action) : Tunnel := default TunnelManager_new (acts l TunnelManager_new).
Lemma stop_sticks_witness :
  all_stopped (manager_after (failed_once ++ BumpStop :: stopped_run)) ∧ tn_start (manager_after (failed_once ++ BumpStop :: stopped_run)) = None.
Proof.
  apply (stop_sticks failed_once stopped_run (manager_after failed_once) (manager_after (failed_once ++ [BumpStop])));
    try (vm_compute; reflexivity).
  - unfold stopped_run. rewrite !not_elem_of_cons. split_and!; try discriminate. apply not_elem_of_nil.
  - unfold stopped_run. rewrite !not_elem_of_cons. split_and!; try discriminate. apply not_elem_of_nil.
Defined.
Definition failing_run : list Action :=
  up ++ [PollChild (Exited "1"); SetFailed; Schedule; EndHealth; FireTimer 0].
Lemma restarts_bounded_witness : (len (List.filter is_fire failing_run) + len (tn_timers (manager_after failing_run)) ≤ 0 + 10)%Z.
Proof.
  apply (restarts_bounded failing_run TunnelManager_new (manager_after failing_run)).
  - vm_compute. reflexivity.
  - discriminate.
  - reflexivity.
  - unfold failing_run, up. cbn [app]. rewrite !not_elem_of_cons. split_and!; try discriminate. apply not_elem_of_nil.
  - unfold failing_run, up. cbn [app]. rewrite !not_elem_of_cons. split_and!; try discriminate. apply not_elem_of_nil.
Defined.
