(* ===== verification/TunnelHost.v ===== *)
(** * The tunnel's surroundings ([src/tunnel.rs], [src/tunnel/install.rs])

    The port of the metrics, the processes a crashed node left behind, and the
    installation of the binary. *)

From stdpp Require Import pretty.
From S2P Require Import Prelude Identity Text Words Tunnel.

(** ** Ports *)

(** [bind port] is whether the loopback port is free, [fallback] the outcome of
    binding port zero and reading it back. *)
Definition try_ports (bind : Z → bool) (preferred : Z) : option Z :=
  List.find (λ port, (port <? 65536)%Z && bind port) ((λ offset, preferred + offset)%Z <$> [0; 1; 2; 3; 4]%Z).
Definition select_metrics_port (bind : Z → bool) (range_error : string) (fallback : result string (result string Z))
    (preferred : Z) : result string Z :=
  if ((0 <=? preferred) && (preferred <? 65536))%Z then
    if (preferred =? 0)%Z then Err "Invalid cloudflared metrics port: port must be in 1...65535"
    else
      match try_ports bind preferred with
      | Some port => Ok port
      | None =>
          match fallback with
          | Err err => Err ("Failed to reserve cloudflared metrics port near " +:+ pretty preferred +:+ ": " +:+ err)
          | Ok (Err err) => Err ("Failed to read fallback cloudflared metrics port near " +:+ pretty preferred +:+ ": " +:+ err)
          | Ok (Ok port) => Ok port
          end
      end
  else Err ("Invalid cloudflared metrics port: " +:+ range_error).

(** ** Orphans *)

(** [str::lines]: a line feed ends a line, a carriage return before it goes with
    it, and nothing follows the last line feed. *)
Definition cr : string := String (Ascii.ascii_of_nat 13) "".
Fixpoint split_lines (line s : string) : list string :=
  match s with
  | "" => if decide (line = "") then [] else [line]
  | String c s =>
      if decide (c = Ascii.ascii_of_nat 10) then default line (strip_suffix cr line) :: split_lines "" s
      else split_lines (line +:+ String c "") s
  end.
Definition lines (s : string) : list string := split_lines "" s.
Definition trim_start (s : string) : string := trim_start_fuel (String.length s) s.
(** [split_once(char::is_whitespace)] *)
Fixpoint split_once_white (s : string) : option (string * string) :=
  match s with
  | "" => None
  | String c rest =>
      match white_at s with
      | Some w => Some ("", default "" (strip_prefix w s))
      | None => '(a, b) ← split_once_white rest; Some (String c a, b)
      end
  end.
(** [str::parse::<i32>] *)
Definition parse_i32 (s : string) : option Z :=
  match s with
  | String "-" rest => n ← (if all_chars is_ascii_digit rest then parse_unsigned (2 ^ 31 + 1) rest else None); Some (- n)%Z
  | _ => parse_unsigned (2 ^ 31) s
  end.
Definition orphan_of_line (binary_path line : string) : option Z :=
  '(pid, rest) ← split_once_white (trim_start line);
  '(ppid, command) ← split_once_white (trim_start rest);
  pid ← parse_i32 pid;
  ppid ← parse_i32 ppid;
  let command := trim_start command in
  let runs_our_binary :=
    bool_decide (command = binary_path)
    || match strip_prefix binary_path command with Some args => starts_with " " args | None => false end in
  if bool_decide (ppid = 1)%Z && runs_our_binary then Some pid else None.
Definition orphaned_cloudflared_pids (listing binary_path : string) : list Z := omap (orphan_of_line binary_path) (lines listing).
(** The processes killed; [listing] is the output of [ps], when it ran. *)
Definition reap_orphaned_cloudflared (listing : option string) (binary_path : string) : list Z :=
  match listing with Some listing => orphaned_cloudflared_pids listing binary_path | None => [] end.

(** ** The listing of processes *)

Lemma strip_white_start_white s : strip_white_start s = white_at s ≫= λ w, strip_prefix w s.
Proof.
  unfold white_at, strip_white_start. induction white_space as [|w ws IH]; [done|]. cbn. unfold starts_with at 1.
  destruct (strip_prefix w s) as [r|] eqn:Hp; [by rewrite bool_decide_eq_true_2; cbn; rewrite ?Hp|].
  rewrite bool_decide_eq_false_2 by (by intros [? ?]). exact IH.
Qed.
Lemma white_at_blank s : white_at (String " " s) = Some " ".
Proof.
  destruct (white_at_prefix " " s) as [w Hw]; [apply list_elem_of_In; vm_compute; tauto|].
  change (" " +:+ s) with (String " " s) in Hw. rewrite Hw. f_equal. apply white_at_some in Hw as (Hin & rest & Heq).
  apply white_space_blank; [done|]. pose proof (white_space_inner _ Hin) as Hi. destruct w as [|d w]; [done|].
  rewrite append_cons in Heq. by injection Heq as <- _.
Qed.
Fixpoint spaces (n : nat) : string := match n with 0 => "" | S n => String " " (spaces n) end.
Lemma length_spaces n : String.length (spaces n) = n.
Proof. induction n as [|n IH]; cbn; [done|]. by rewrite IH. Qed.
Lemma trim_start_spaces n s : white_at s = None → trim_start (spaces n +:+ s) = s.
Proof.
  intros Hs. unfold trim_start. rewrite length_app_string, length_spaces. induction n as [|n IH].
  - change (spaces 0 +:+ s) with s. destruct (0 + String.length s); cbn [trim_start_fuel]; [done|].
    by rewrite strip_white_start_white, Hs.
  - change (spaces (S n) +:+ s) with (String " " (spaces n +:+ s)). cbn [Nat.add trim_start_fuel].
    rewrite strip_white_start_white, white_at_blank. cbn. rewrite decide_True by done. apply IH.
Qed.
Lemma split_once_white_blank a s : contains_white a = false → split_once_white (a +:+ String " " s) = Some (a, s).
Proof.
  induction a as [|c a IH]; intros Ha.
  - change ("" +:+ String " " s) with (String " " s). cbn [split_once_white]. rewrite white_at_blank. cbn. by rewrite decide_True.
  - rewrite append_cons. cbn [split_once_white]. cbn [contains_white] in Ha. apply orb_false_iff in Ha as [Hn%bool_decide_eq_false Ha].
    destruct (white_at (String c (a +:+ String " " s))) as [w|] eqn:Hw.
    + exfalso. apply Hn, (white_at_space (String c a) s); [done|]. rewrite append_cons. by eexists.
    + by rewrite IH.
Qed.
Lemma digits_white_free s : all_chars is_ascii_digit s = true → contains_white s = false.
Proof.
  intros Hs. apply visible_white_free. eapply all_chars_impl; [|exact Hs]. intros c.
  unfold is_ascii_digit, digit_val, visible. intros Hc%bool_decide_eq_true. case_match eqn:Hd; [|by destruct Hc].
  apply andb_true_iff in Hd as [Hl%Z.leb_le Hr%Z.leb_le]. apply andb_true_iff. rewrite !Z.leb_le. lia.
Qed.
Lemma printed_number z : (0 ≤ z < 2 ^ 31)%Z →
  parse_i32 (pretty z) = Some z ∧ contains_white (pretty z) = false ∧ ∀ s, white_at (pretty z +:+ String " " s) = None.
Proof.
  intros Hz. destruct (parse_unsigned_pretty (2 ^ 31) z Hz) as [Hp Hd]. pose proof (digits_white_free _ Hd) as Hw.
  assert (Hne : pretty z ≠ "") by (intros He; by rewrite He in Hp). split_and!; [|done|].
  - unfold parse_i32. destruct (pretty z) as [|c s]; [done|]. cbn [all_chars] in Hd. apply andb_true_iff in Hd as [Hc _].
    repeat (case_match; try done); exfalso; subst; vm_compute in Hc; done.
  - intros s. apply eq_None_not_Some. intros Hs. apply white_at_space in Hs as [w Hs]; [|done].
    pose proof (proj1 (white_free_iff _) Hw "" (pretty z) eq_refl Hne). congruence.
Qed.

(** A process as [ps] prints it: the numbers padded, the command last. *)
Record Process : Type := mk_Process {
  pr_pads : nat * nat * nat;
  pr_pid : Z;
  pr_ppid : Z;
  pr_command : string;
}.
Definition process_line (p : Process) : string :=
  let '(a, b, c) := pr_pads p in
  spaces a +:+ pretty (pr_pid p) +:+ " " +:+ spaces b +:+ pretty (pr_ppid p) +:+ " " +:+ spaces c +:+ pr_command p.
Definition process_ok (p : Process) : Prop :=
  (0 ≤ pr_pid p < 2 ^ 31)%Z ∧ (0 ≤ pr_ppid p < 2 ^ 31)%Z ∧ white_at (pr_command p) = None ∧ contains_char (Ascii.ascii_of_nat 10) (pr_command p) = false.
(** The command runs the binary: alone, or followed by its arguments. *)
Definition runs (binary_path : string) (p : Process) : Prop :=
  pr_command p = binary_path ∨ ∃ args, pr_command p = binary_path +:+ " " +:+ args.
#[export] Instance runs_dec path p : Decision (runs path p).
Proof.
  refine (cast_if (decide (pr_command p = path ∨ is_Some (strip_prefix (path +:+ " ") (pr_command p))))); unfold runs.
  - destruct o as [He|[args Ha]]; [by left|right]. exists args. apply strip_prefix_some in Ha. by rewrite Ha, append_assoc.
  - intros [He|[args He]]; apply n; [by left|right]. exists args. apply strip_prefix_some. by rewrite He, append_assoc.
Defined.

Lemma orphan_of_process path p : process_ok p →
  orphan_of_line path (process_line p) = if decide (pr_ppid p = 1%Z ∧ runs path p) then Some (pr_pid p) else None.
Proof.
  intros (Hpid & Hppid & Hc & _). destruct p as [[[a b] c] pid ppid command]. cbn [pr_pid pr_ppid pr_command] in *.
  unfold orphan_of_line, process_line. cbn [pr_pads pr_pid pr_ppid pr_command].
  change (spaces a +:+ pretty pid +:+ " " +:+ spaces b +:+ pretty ppid +:+ " " +:+ spaces c +:+ command)
    with (spaces a +:+ (pretty pid +:+ String " " (spaces b +:+ (pretty ppid +:+ String " " (spaces c +:+ command))))).
  destruct (printed_number pid Hpid) as (Hp1 & Hw1 & Hs1), (printed_number ppid Hppid) as (Hp2 & Hw2 & Hs2).
  rewrite trim_start_spaces by apply Hs1. rewrite split_once_white_blank by done. cbn [mbind option_bind].
  rewrite trim_start_spaces by apply Hs2. rewrite split_once_white_blank by done. cbn [mbind option_bind].
  rewrite Hp1. cbn [mbind option_bind]. rewrite Hp2. cbn [mbind option_bind]. rewrite trim_start_spaces by done.
  destruct (decide (ppid = 1%Z)) as [->|Hne]; cbn [bool_decide].
  2:{ rewrite bool_decide_eq_false_2 by done. rewrite decide_False by naive_solver. done. }
  rewrite (bool_decide_eq_true_2 (1 = 1)%Z) by done. cbn [andb]. unfold runs. cbn [pr_command].
  destruct (decide (command = path)) as [->|Hcmd]; [rewrite bool_decide_eq_true_2 by done; rewrite decide_True by naive_solver; done|].
  rewrite bool_decide_eq_false_2 by done. cbn [orb]. destruct (strip_prefix path command) as [args|] eqn:Ha.
  - apply strip_prefix_some in Ha as ->. unfold starts_with. case_bool_decide as Hs.
    + destruct Hs as [rest Hr%strip_prefix_some]. rewrite decide_True; [done|]. split; [done|]. right. exists rest. by rewrite Hr.
    + rewrite decide_False; [done|]. intros [_ [He|[rest He]]]; [done|]. apply Hs. exists rest. apply strip_prefix_some.
      apply (f_equal (strip_prefix path)) in He. rewrite !strip_prefix_app in He. by injection He.
  - rewrite decide_False; [done|]. intros [_ [He|[rest He]]]; [done|]. by rewrite He, strip_prefix_app in Ha.
Qed.

(** Lines that a line feed ends are read back. *)
Definition line_ok (l : string) : Prop := contains_char (Ascii.ascii_of_nat 10) l = false ∧ strip_suffix cr l = None.
Definition listing (ls : list string) : string := foldr (λ l s, l +:+ nl +:+ s) "" ls.
Lemma split_lines_feed line a s : contains_char (Ascii.ascii_of_nat 10) a = false →
  split_lines line (a +:+ nl +:+ s) = default (line +:+ a) (strip_suffix cr (line +:+ a)) :: split_lines "" s.
Proof.
  revert line; induction a as [|c a IH]; intros line Ha.
  - change ("" +:+ nl +:+ s) with (String (Ascii.ascii_of_nat 10) s). cbn [split_lines]. by rewrite decide_True, append_nil_r.
  - rewrite append_cons. cbn [split_lines]. cbn [contains_char] in Ha. apply orb_false_iff in Ha as [Hc%bool_decide_eq_false Ha].
    rewrite decide_False by congruence. rewrite IH by done. by rewrite append_assoc.
Qed.
Lemma lines_listing ls : Forall line_ok ls → lines (listing ls) = ls.
Proof.
  unfold lines. induction 1 as [|l ls [Hl Hcr] _ IH]; [done|]. cbn [listing foldr]. rewrite split_lines_feed by done.
  change ("" +:+ l) with l. rewrite Hcr. cbn. f_equal. exact IH.
Qed.
Lemma spaces_no_feed n : contains_char (Ascii.ascii_of_nat 10) (spaces n) = false.
Proof. induction n as [|n IH]; [done|]. exact IH. Qed.
Lemma process_line_ok p : process_ok p → strip_suffix cr (process_line p) = None → line_ok (process_line p).
Proof.
  intros (Hpid & Hppid & _ & Hc) Hcr. split; [|done]. clear Hcr. destruct p as [[[a b] c] pid ppid command]. cbn in *. unfold process_line. cbn [pr_pads pr_pid pr_ppid pr_command].
  assert (Hd : ∀ z, (0 ≤ z < 2 ^ 31)%Z → contains_char (Ascii.ascii_of_nat 10) (pretty z) = false).
  { intros z Hz. apply digits_not_char; [done|]. by apply (parse_unsigned_pretty (2 ^ 31)). }
  rewrite !contains_char_app, !spaces_no_feed, Hc, !Hd by done. done.
Qed.

(** C37: the processes a node kills on start are its own orphans and no others: on
    the listing of any processes, the ones chosen are exactly those whose parent
    is process 1 and whose command is the binary, alone or followed by arguments,
    in the order of the listing; a longer path that begins with the binary's is
    not one. *)
Theorem orphans_exact path ps :
  Forall process_ok ps → Forall (λ p, strip_suffix cr (process_line p) = None) ps →
  orphaned_cloudflared_pids (listing (process_line <$> ps)) path =
    pr_pid <$> filter (λ p, pr_ppid p = 1%Z ∧ runs path p) ps.
Proof.
  intros Hok Hcr. unfold orphaned_cloudflared_pids. rewrite lines_listing.
  2:{ apply Forall_fmap. apply Forall_forall. intros p Hp. rewrite Forall_forall in Hok, Hcr. by apply process_line_ok; [apply Hok|apply Hcr]. }
  induction Hok as [|p ps Hp _ IH]; [done|]. apply Forall_cons in Hcr as [_ Hcr]. cbn [fmap list_fmap omap list_omap].
  rewrite orphan_of_process, filter_cons by done. destruct (decide _); cbn; rewrite (IH Hcr); done.
Qed.
Definition two_processes : list Process :=
  [mk_Process (2, 3, 0) 77 1 "/opt/cloudflared tunnel run"; mk_Process (2, 3, 0) 78 1 "/opt/cloudflared-old tunnel run";
   mk_Process (0, 0, 0) 79 4 "/opt/cloudflared"].
Lemma orphans_exact_witness :
  orphaned_cloudflared_pids (listing (process_line <$> two_processes)) "/opt/cloudflared" = [77%Z].
Proof.
  rewrite (orphans_exact "/opt/cloudflared" two_processes).
  - vm_compute. reflexivity.
  - repeat (apply Forall_cons; split); [..|apply Forall_nil_2]; (split_and!; [cbn; lia..|vm_compute; reflexivity|vm_compute; reflexivity]).
  - repeat (apply Forall_cons; split); [..|apply Forall_nil_2]; vm_compute; reflexivity.
Defined.

(** The port is a free one of the five from the preferred one, or, when none of
    them is free, the one the system gave. *)
Lemma selected_port bind range_error fallback preferred port :
  select_metrics_port bind range_error fallback preferred = Ok port →
  (1 ≤ preferred < 65536)%Z ∧
  ((preferred ≤ port ≤ preferred + 4)%Z ∧ (port < 65536)%Z ∧ bind port = true ∨
   fallback = Ok (Ok port) ∧ ∀ p, (preferred ≤ p ≤ preferred + 4)%Z → (p < 65536)%Z → bind p = false).
Proof.
  unfold select_metrics_port. destruct (Z.leb_spec 0 preferred), (Z.ltb_spec preferred 65536); cbn [andb]; try done.
  destruct (Z.eqb_spec preferred 0); [done|]. unfold try_ports.
  destruct (List.find _ _) as [p|] eqn:Ht; intros Hport; (split; [lia|]).
  - injection Hport as ->. apply find_some in Ht as [Hin [Hl%Z.ltb_lt Hb]%andb_true_iff]. left. split; [|done].
    cbn in Hin. lia.
  - right. split; [by repeat case_match; simplify_eq|]. intros p Hp Hl. apply not_true_is_false. intros Hb.
    assert (Hf := find_none _ _ Ht p). cbn beta in Hf. rewrite Hb, andb_true_r in Hf. apply Z.ltb_ge in Hf; [lia|]. cbn. lia.
Qed.

(** ** Installing the binary ([install.rs])

    The managed file is its bytes and whether it may be executed; what the system
    calls, the download and the archive answer are the fields of [InstallEnv]. *)

Record Binary : Type := mk_Binary {
  bn_bytes : bytes;
  bn_executable : bool;
}.
Record TarEntry : Type := mk_TarEntry {
  (** the last component of the path, when it is text *)
  te_name : result string (option string);
  te_unpack : result string () * option Binary;
}.
Record InstallEnv : Type := mk_InstallEnv {
  ie_macos : bool;
  ie_x86_64 : bool;
  ie_aarch64 : bool;
  ie_home : option string;
  ie_xdg_data_home : option string;
  (** the output of [which cloudflared]: its status and text *)
  ie_which : option (bool * string);
  ie_parent : option string;
  ie_mkdir : result string ();
  ie_client : result string ();
  ie_send : result string ();
  ie_status : result string ();
  ie_length : option Z;
  ie_chunks : list (result string bytes);
  ie_joined : result string ();
  ie_archive : result string (list (result string TarEntry));
  (** [std::fs::write]: on failure, how many bytes got through *)
  ie_write : result (string * nat) ();
  ie_stat : result string ();
  ie_chmod : result string ();
}.

(** [PathBuf::join] of a relative path. *)
Definition path_join (base rel : string) : string :=
  if decide (base = "") then rel else if ends_with "/" base then base +:+ rel else base +:+ "/" +:+ rel.
Definition managed_cloudflared_path (env : InstallEnv) : result string string :=
  if ie_macos env then
    home ← ok_or (ie_home env) "Could not resolve HOME directory";
    Ok (path_join home "Library/Application Support/com.TheProxyCompany.Eden/bin/cloudflared")
  else
    base ← ok_or (match ie_xdg_data_home env with Some base => Some base | None => (λ h, path_join h ".local/share") <$> ie_home env end)
             "Could not resolve data directory";
    Ok (path_join base "proxy-node-server/bin/cloudflared").
Definition cloudflared_release_url (env : InstallEnv) : string * bool :=
  let releases := "https://github.com/cloudflare/cloudflared/releases/latest/download/" in
  if ie_macos env then
    if ie_x86_64 env then (releases +:+ "cloudflared-darwin-amd64.tgz", true) else (releases +:+ "cloudflared-darwin-arm64.tgz", true)
  else if ie_aarch64 env then (releases +:+ "cloudflared-linux-arm64", false)
  else (releases +:+ "cloudflared-linux-amd64", false).

(** The loop over the stream: the bytes, or the first error. *)
Fixpoint download (chunks : list (result string bytes)) (acc : bytes) : result string bytes :=
  match chunks with
  | [] => Ok acc
  | Ok chunk :: chunks => download chunks (acc ++ chunk)
  | Err err :: _ => Err ("cloudflared download stream error: " +:+ err)
  end.
(** The loop over the archive: whether the binary was found, and the file. *)
Fixpoint unpack_entries (entries : list (result string TarEntry)) (file : option Binary) : result string bool * option Binary :=
  match entries with
  | [] => (Ok false, file)
  | Err err :: _ => (Err ("Tarball entry error: " +:+ err), file)
  | Ok entry :: entries =>
      match te_name entry with
      | Err err => (Err ("Tarball entry path error: " +:+ err), file)
      | Ok name =>
          if decide (default "" name = "cloudflared") then
            match te_unpack entry with
            | (Ok _, file) => (Ok true, file)
            | (Err err, file) => (Err ("Failed to extract cloudflared: " +:+ err), file)
            end
          else unpack_entries entries file
      end
  end.
Definition set_mode (env : InstallEnv) (file : option Binary) : result string () * option Binary :=
  match ie_stat env with
  | Err err => (Err ("stat after extract failed: " +:+ err), file)
  | Ok _ =>
      match ie_chmod env with
      | Err err => (Err ("chmod cloudflared failed: " +:+ err), file)
      | Ok _ => (Ok (), (λ b, mk_Binary (bn_bytes b) true) <$> file)
      end
  end.
Definition extract (env : InstallEnv) (is_tgz : bool) (bytes : bytes) (file : option Binary) : result string () * option Binary :=
  if is_tgz then
    match ie_archive env with
    | Err err => (Err ("Failed to read tarball: " +:+ err), file)
    | Ok entries =>
        match unpack_entries entries file with
        | (Ok true, file) => set_mode env file
        | (Ok false, file) => (Err "Tarball did not contain a cloudflared binary", file)
        | (Err err, file) => (Err err, file)
        end
    end
  else
    match ie_write env with
    | Err (err, n) => (Err ("Failed to write cloudflared: " +:+ err), Some (mk_Binary (take n bytes) (from_option bn_executable false file)))
    | Ok _ => set_mode env (Some (mk_Binary bytes (from_option bn_executable false file)))
    end.
Definition install_cloudflared_inner (env : InstallEnv) (file : option Binary) : result string () * option Binary :=
  let ready :=
    parent ← ok_or (ie_parent env) "Managed cloudflared path has no parent";
    _ ← map_err (λ err, "Failed to create " +:+ parent +:+ ": " +:+ err) (ie_mkdir env);
    _ ← map_err (λ err, "Failed to build HTTP client: " +:+ err) (ie_client env);
    _ ← map_err (λ err, "Failed to download cloudflared: " +:+ err) (ie_send env);
    _ ← map_err (λ err, "cloudflared download returned error: " +:+ err) (ie_status env);
    download (ie_chunks env) [] in
  match ready with
  | Err err => (Err err, file)
  | Ok bytes =>
      match ie_joined env with
      | Err err => (Err ("cloudflared extraction task panicked: " +:+ err), file)
      | Ok _ => extract env (cloudflared_release_url env).2 bytes file
      end
  end.
Definition which_cloudflared (env : InstallEnv) (file : option Binary) : result string string * option Binary :=
  match managed_cloudflared_path env with
  | Err err => (Err err, file)
  | Ok managed =>
      match file with
      | Some _ => (Ok managed, file)
      | None =>
          match match ie_which env with Some (true, out) => if decide (trim out = "") then None else Some (trim out) | _ => None end with
          | Some path => (Ok path, file)
          | None =>
              let '(installed, file) := install_cloudflared_inner env file in
              (_ ← installed; Ok managed, file)
          end
      end
  end.

(** What is installed and answered is the whole download, executable; an error
    before the extraction leaves no file. *)
Lemma installed_complete env managed file :
  ie_macos env = false → which_cloudflared env None = (Ok managed, file) → managed_cloudflared_path env = Ok managed →
  ie_which env = None →
  ∃ bytes, download (ie_chunks env) [] = Ok bytes ∧ file = Some (mk_Binary bytes true).
Proof.
  intros Hmac Hw Hp Hwhich. unfold which_cloudflared in Hw. rewrite Hp, Hwhich in Hw. unfold install_cloudflared_inner in Hw.
  destruct (parent ← _; _) as [bytes|err] eqn:Hr; [|done]. destruct (ie_joined env); [|done].
  assert (Hd : download (ie_chunks env) [] = Ok bytes) by (by repeat apply bind_ok in Hr as (? & _ & Hr)).
  exists bytes. split; [done|]. unfold cloudflared_release_url in Hw. rewrite Hmac in Hw. unfold extract in Hw.
  destruct (ie_aarch64 env); cbn in Hw; (destruct (ie_write env) as [[]|[err n]]; [|done]);
    unfold set_mode in Hw; destruct (ie_stat env); [|done|..|done]; destruct (ie_chmod env); by simplify_eq/=.
Qed.

(** A write that fails part of the way leaves its beginning under the managed
    name: the next call takes that file for the binary and installs nothing. *)
Definition full_disk : InstallEnv :=
  mk_InstallEnv false true false (Some "/home/alex") None None (Some "/home/alex/.local/share/proxy-node-server/bin")
    (Ok ()) (Ok ()) (Ok ()) (Ok ()) None [Ok (String.list_byte_of_string "binary")] (Ok ()) (Ok [])
    (Err ("No space left on device", 3)) (Ok ()) (Ok ()).
Lemma torn_install_kept :
  let '(first, file) := which_cloudflared full_disk None in
  first = Err "Failed to write cloudflared: No space left on device" ∧
  file = Some (mk_Binary (String.list_byte_of_string "bin") false) ∧
  ∀ env managed, managed_cloudflared_path env = Ok managed → which_cloudflared env file = (Ok managed, file).
Proof. vm_compute. split_and!; [done..|]. intros env managed Hm. unfold which_cloudflared. by rewrite Hm. Qed.
