(* ===== verification/AddressClient.v ===== *)
(** * The client of another owner's address ([src/address_client.rs])

    Registering, asking, polling, redeeming and revoking over OAuth, the thread
    and agent routes, and what a refusal is told as.  The HTTP client, the random
    bytes and the JSON reader are arguments. *)

From stdpp Require Import pretty.
From S2P Require Import Prelude Ordered External Http Identity Text Words Chars OAuth AskProof JsonValue.

Definition AVATAR_TINTABLE_HEADER : string := "x-proxy-avatar-tintable".
Definition MAX_AVATAR_BYTES : Z := 4 * 1024 * 1024.
Definition NO_SUCH_CLIENT : string := "No client with that client_id has registered here".
Definition READ_AT_MOST : Z := 64 * 1024.
(** [NON_ALPHANUMERIC] without [-], [_], [.] and [~]. *)
Definition UNRESERVED (c : ascii) : bool := NON_ALPHANUMERIC c && negb (bool_decide (c ∈ ["-"; "_"; "."; "~"]%char)).

(** ** What went wrong *)

Inductive ClientError : Type :=
  | Unauthorized
  | Refused (status : Z) (body : string)
  | Unreachable (why : string)
  | TransportError (why : string).
Definition ClientError_display (e : ClientError) : string :=
  match e with
  | Unauthorized => "the address no longer admits this connection"
  | Refused status body => pretty status +:+ " from the address: " +:+ body
  | Unreachable why | TransportError why => why
  end.

Definition edge_offline (status : Z) : bool :=
  ((502 <=? status) && (status <=? 504) || (520 <=? status) && (status <=? 530))%Z.
Definition is_unreachable (e : ClientError) : bool :=
  match e with
  | Unreachable _ => true
  | Refused status _ => edge_offline status
  | Unauthorized | TransportError _ => false
  end.
Definition is_missing_route (e : ClientError) : bool :=
  match e with Refused status _ => (status =? 404)%Z | _ => false end.
Definition is_refusal (e : ClientError) : bool :=
  match e with
  | Refused status _ => ((400 <=? status) && (status <? 500) && negb ((status =? 408) || (status =? 429)))%Z
  | Unauthorized => true
  | Unreachable _ | TransportError _ => false
  end.
(** [str::contains] of a text. *)
Definition str_has (needle s : string) : bool := bool_decide (is_Some (split_str needle s)).
Definition is_unknown_client (e : ClientError) : bool :=
  match e with Refused status body => (status =? 400)%Z && str_has NO_SUCH_CLIENT body | _ => false end.

(** ** Words of a page *)

(** U+061C, U+200E, U+200F, U+202A to U+202E, U+2066 to U+2069 *)
Definition direction_marks : list string :=
  utf8 <$> ([[216; 156]]%Z ++ ((λ z, [226; 128; z]%Z) <$> [142; 143; 170; 171; 172; 173; 174]%Z)
            ++ ((λ z, [226; 129; z]%Z) <$> [166; 167; 168; 169]%Z)).
Definition is_direction_mark (c : string) : bool := bool_decide (c ∈ direction_marks).

(** The characters of [one_line]. *)
Definition one_line_chars (cs : list string) : list string :=
  join_words (char_words [] ((λ c, if is_control c then " " else c) <$> List.filter (λ c, negb (is_direction_mark c)) cs)).
Definition one_line (text : string) : string := concat_str (one_line_chars (chars text)).

(** The loop of [words]: what is outside the tags, a space for each tag. *)
Fixpoint outside_tags (in_tag : bool) (cs : list string) : list string :=
  match cs with
  | [] => []
  | c :: cs =>
      if decide (c = "<") then outside_tags true cs
      else if in_tag then if decide (c = ">") then " " :: outside_tags false cs else outside_tags true cs
      else c :: outside_tags false cs
  end.
Definition double_quote : string := String (Ascii.ascii_of_nat 34) "".
Definition words (fragment : string) : string :=
  one_line (replace "&amp;" "&" (replace "&#39;" "'" (replace "&quot;" double_quote (concat_str (outside_tags false (chars fragment)))))).

Fixpoint drop_str (n : nat) (s : string) : string :=
  match n, s with S n, String _ s => drop_str n s | _, _ => s end.
Fixpoint take_str (n : nat) (s : string) : string :=
  match n, s with S n, String c s => String c (take_str n s) | _, _ => "" end.
Definition is_ascii_whitespace (c : ascii) : bool := bool_decide (char_code c ∈ [9; 10; 12; 13; 32]%Z).
Definition tag_ends (s : string) : bool :=
  match s with String c _ => bool_decide (c = ">"%char) || is_ascii_whitespace c | "" => false end.
(** The loop that looks for the opening tag: the offset of what it holds. *)
Fixpoint find_inner (fuel : nat) (open lower : string) (from : nat) : option nat :=
  match fuel with
  | 0 => None
  | S fuel =>
      '(before, after) ← split_str open lower;
      let at_ := from + String.length before + String.length open in
      if tag_ends after then '(attributes, _) ← split_once ">" after; Some (at_ + String.length attributes + 1)
      else find_inner fuel open after at_
  end.
Definition element_text (html tag : string) : option (string * string) :=
  let lower := to_ascii_lowercase html in
  let close := "</" +:+ tag +:+ ">" in
  inner ← find_inner (S (String.length lower)) ("<" +:+ tag) lower 0;
  '(held, _) ← split_str close (drop_str inner lower);
  let held_len := String.length held in
  Some (words (take_str held_len (drop_str inner html)), drop_str (inner + held_len + String.length close) html).

Definition page_words (page : string) : option string :=
  '(heading, rest) ← (match element_text page "h1" with Some r => Some r | None => element_text page "title" end);
  let message := match element_text rest "p" with Some (message, _) => message | None => "" end in
  let said :=
    if decide (message = "") then heading
    else if decide (heading = "") then message
    else trim_end_char "." heading +:+ ". " +:+ message in
  if decide (said = "") then None else Some said.

Section reading.
Context `{Json, JsonValue} (value_from_str : string → result JsonError Value).

(** U+FEFF *)
Definition bom : string := utf8 [239; 187; 191]%Z.
Definition readable (body : string) : option string :=
  let cs := trim_chars (λ c, is_white c || bool_decide (c = bom)) (takeZ READ_AT_MOST (chars body)) in
  let body := concat_str cs in
  if decide (body = "") then None
  else
    said ←
      (if starts_with "<" body then page_words body
       else
         match value_from_str body with
         | Ok answer =>
             if decide (v_kind answer = KObject) then
               one_line <$> head (omap (λ key, v ← v_get answer key; v_as_str v) ["error_description"; "error"; "message"])
             else Some (one_line body)
         | Err _ => Some (one_line body)
         end);
    if decide (said = "") then None else Some (concat_str (take 160 (chars said))).
Definition plainly (e : ClientError) : string :=
  match e with
  | Refused status body =>
      match readable body with
      | Some said => "the address answered " +:+ pretty status +:+ ": " +:+ said
      | None => "the address answered " +:+ pretty status
      end
  | other => ClientError_display other
  end.
End reading.

(** ** Addresses and redirects *)

Record Redirect : Type := mk_Redirect {
  rd_code : string;
  rd_state : option string;
  rd_iss : option string;
  rd_client_id : option string;
}.
Section redirects.
Context `{Percent}.
Definition redirect_pair (part : string) (r : Redirect) : option Redirect :=
  let '(name, value) := name_value part in
  value ← str_from_utf8 (percent_decode_str value);
  Some (if decide (name = "code") then mk_Redirect value (rd_state r) (rd_iss r) (rd_client_id r)
        else if decide (name = "state") then mk_Redirect (rd_code r) (Some value) (rd_iss r) (rd_client_id r)
        else if decide (name = "iss") then mk_Redirect (rd_code r) (rd_state r) (Some value) (rd_client_id r)
        else if decide (name = "client_id") then mk_Redirect (rd_code r) (rd_state r) (rd_iss r) (Some value)
        else r).
Fixpoint redirect_pairs (pairs : list string) (r : Redirect) : option Redirect :=
  match pairs with [] => Some r | part :: pairs => r ← redirect_pair part r; redirect_pairs pairs r end.
Definition Redirect_parse (url : string) : option Redirect :=
  '(_, query) ← split_once "?" url;
  let query := default "" (head (split "#" query)) in
  redirect ← redirect_pairs (split "&" query) (mk_Redirect "" None None None);
  if decide (rd_code redirect = "") then None else Some redirect.
End redirects.

Definition is_loopback (base_url : string) : bool :=
  match strip_prefix "http://" base_url with
  | None => false
  | Some rest =>
      let authority := until_chars (λ c, bool_decide (c ∈ ["/"; "?"]%char)) rest in
      let host :=
        match rsplit_once ":" authority with
        | Some (host, port) => if all_chars is_ascii_digit port then host else authority
        | None => authority
        end in
      bool_decide (host ∈ ["127.0.0.1"; "localhost"; "[::1]"])
  end.
Definition base_url_is_allowed (base_url address : string) : bool :=
  if contains_white base_url || contains_char "#" base_url then false
  else if decide (base_url = "https://" +:+ address +:+ ".proxy.ing") then true
  else is_loopback base_url && negb (contains_char "/" (trim_start_str "http://" base_url)).

(** ** Requests *)

Section http_types.
Context `{JsonValue}.
Inductive HttpBody : Type :=
  | NoBody
  | JsonBody (v : Value)
  | TextBody (s : string).
Record HttpRequest : Type := mk_HttpRequest {
  hr_method : string;
  hr_url : string;
  hr_headers : list (string * string);
  hr_body : HttpBody;
}.
End http_types.
(** What an exchange that was not answered says, and whether the request could
    not be built. *)
Record Fault : Type := mk_Fault {
  ft_builder : bool;
  ft_text : string;
}.
Record HttpResponse : Type := mk_HttpResponse {
  hp_status : Z;
  hp_headers : list (string * string);
  hp_text : result Fault string;
  hp_length : option Z;
  hp_chunks : list (result Fault bytes);
}.

Record Asked : Type := mk_Asked {
  as_ask_id : string;
  as_verifier : string;
  as_state : string;
}.
Inductive AskProgress : Type :=
  | AskWaiting
  | AskLetIn (redirect : string)
  | AskRefused
  | AskGone.
Record IssuedToken : Type := mk_IssuedToken {
  it_access_token : string;
  it_scope : option string;
}.
Record RemoteItem : Type := mk_RemoteItem {
  ri_sequence_number : Z;
  ri_role : option string;
  ri_item_type : string;
  ri_content : option string;
}.
Definition is_assistant_message (i : RemoteItem) : bool :=
  bool_decide (ri_role i = Some "assistant") && bool_decide (ri_item_type i = "message").
Record Avatar : Type := mk_Avatar {
  av_bytes : bytes;
  av_extension : string;
  av_tintable : bool;
}.

Definition no_answer (error : Fault) : ClientError :=
  if ft_builder error then TransportError (ft_text error) else Unreachable (ft_text error).
Definition success (status : Z) : bool := ((200 <=? status) && (status <? 300))%Z.
Definition refused (status : Z) (body : string) : ClientError := Refused status (concat_str (takeZ READ_AT_MOST (chars body))).

Section client.
Context `{Crypto, Base64Url, Percent, Json, JsonValue, !FromValue (list RemoteItem)}.
Context (value_from_str : string → result JsonError Value).
(** The outcome of building the HTTP client, and the network. *)
Context (http : result string ()) (world : HttpRequest → result Fault HttpResponse).

Definition request (method base_url path : string) : result ClientError HttpRequest :=
  let base := trim_end_char "/" base_url in
  _ ← map_err TransportError http;
  Ok (mk_HttpRequest method (base +:+ path) (if is_loopback base then [("cf-connecting-ip", "127.0.0.1")] else []) NoBody).
Definition with_request_header (name value : string) (r : HttpRequest) : HttpRequest :=
  mk_HttpRequest (hr_method r) (hr_url r) (hr_headers r ++ [(name, value)]) (hr_body r).
Definition with_body (b : HttpBody) (r : HttpRequest) : HttpRequest :=
  mk_HttpRequest (hr_method r) (hr_url r) (hr_headers r) b.
Definition bearer (token : string) (r : HttpRequest) : HttpRequest := with_request_header "authorization" ("Bearer " +:+ token) r.
Definition send (r : HttpRequest) : result ClientError (Z * string) :=
  response ← map_err no_answer (world r);
  body ← map_err no_answer (hp_text response);
  Ok (hp_status response, body).
Definition parse_json (body : string) : result ClientError Value :=
  map_err (λ error, TransportError ("unreadable answer: " +:+ json_display error)) (value_from_str body).
Definition field (v : Value) (key : string) : option string := v ← v_get v key; v_as_str v.

Definition client_data (status : Z) (body : string) : result ClientError Value :=
  if (status =? 401)%Z then Err Unauthorized
  else if negb (success status) then Err (refused status body)
  else
    answer ← parse_json body;
    if decide ((v_get answer "ok" ≫= v_as_bool) = Some false) then
      Err (Refused status (match v_get answer "error" with
                           | Some error => v_to_string error
                           | None => concat_str (takeZ READ_AT_MOST (chars body))
                           end))
    else Ok (default v_null (v_get answer "data")).

(** The verifier's and the state's random bytes are arguments. *)
Definition generate_pkce_pair (verifier_bytes : barr 32) (state_bytes : barr 16) : string * string * string :=
  let verifier := b64url_encode verifier_bytes in
  let challenge := b64url_encode (sha256 (payload_bytes verifier)) in
  (verifier, challenge, encode_hex state_bytes).

(** *** OAuth *)

Definition register_payload (client_name redirect_uri : string) : Value :=
  v_object [("client_name", v_string client_name); ("redirect_uris", v_array [v_string redirect_uri]);
            ("grant_types", v_array [v_string "authorization_code"]); ("response_types", v_array [v_string "code"]);
            ("token_endpoint_auth_method", v_string "none")].
Definition nonempty_trimmed (s : option string) : option string :=
  s ← s; if decide (trim s = "") then None else Some (trim s).
Definition register (base_url client_name redirect_uri : string) : result ClientError string :=
  r ← request "POST" base_url "/oauth/register";
  '(status, body) ← send (with_body (JsonBody (register_payload client_name redirect_uri)) (with_request_header "accept" "application/json" r));
  if negb (success status) then Err (refused status body)
  else
    answer ← parse_json body;
    ok_or (nonempty_trimmed (field answer "client_id")) (TransportError "registration answered no client_id").

Definition enc (s : string) : string := utf8_percent_encode NON_ALPHANUMERIC s.
Definition authorize_path (client_id redirect_uri scope state challenge : string) : string :=
  "/oauth/authorize?response_type=code&client_id=" +:+ enc client_id +:+ "&redirect_uri=" +:+ enc redirect_uri +:+ "&scope="
    +:+ enc scope +:+ "&state=" +:+ enc state +:+ "&code_challenge=" +:+ enc challenge +:+ "&code_challenge_method=S256".
Definition final_scope (scope : string) (word : option string) : string :=
  match word with Some word => scope +:+ " " +:+ word | None => scope end.
Definition ask_signed (base_url client_id redirect_uri scope : string) (prove : string → option string)
    (verifier_bytes : barr 32) (state_bytes : barr 16) : result ClientError Asked :=
  let '(verifier, challenge, state) := generate_pkce_pair verifier_bytes state_bytes in
  r ← request "GET" base_url (authorize_path client_id redirect_uri (final_scope scope (prove challenge)) state challenge);
  '(status, body) ← send (with_request_header "accept" "application/json" r);
  if negb (status =? 200)%Z then Err (refused status body)
  else
    answer ← parse_json body;
    ask_id ← ok_or (field answer "ask") (TransportError "the authorize answer named no ask");
    Ok (mk_Asked ask_id verifier state).
Definition ask (base_url client_id redirect_uri scope : string) (verifier_bytes : barr 32) (state_bytes : barr 16)
    : result ClientError Asked :=
  ask_signed base_url client_id redirect_uri scope (λ _, None) verifier_bytes state_bytes.

(** [debug] is the [Debug] text of an optional status. *)
Definition poll (debug : option string → string) (base_url ask_id : string) : result ClientError AskProgress :=
  r ← request "GET" base_url ("/oauth/ask/" +:+ enc ask_id);
  '(status, body) ← send r;
  if (status =? 404)%Z then Ok AskGone
  else if negb (status =? 200)%Z then Err (refused status body)
  else
    answer ← parse_json body;
    let redirect := default "" (field answer "redirect") in
    let said := field answer "status" in
    if decide (said = Some "waiting") then Ok AskWaiting
    else if decide (said = Some "let_in") then Ok (AskLetIn redirect)
    else if decide (said = Some "refused") then Ok AskRefused
    else if decide (said = Some "gone") then Ok AskGone
    else Err (TransportError ("the ask answered an unknown status " +:+ debug said)).

Definition redeem_form (client_id redirect_uri code verifier : string) : string :=
  "grant_type=authorization_code&code=" +:+ enc code +:+ "&redirect_uri=" +:+ enc redirect_uri +:+ "&client_id=" +:+ enc client_id
    +:+ "&code_verifier=" +:+ enc verifier.
Definition redeem (base_url client_id redirect_uri code verifier : string) : result ClientError IssuedToken :=
  r ← request "POST" base_url "/oauth/token";
  '(status, body) ← send (with_body (TextBody (redeem_form client_id redirect_uri code verifier))
      (with_request_header "content-type" "application/x-www-form-urlencoded" (with_request_header "accept" "application/json" r)));
  if negb (success status) then Err (refused status body)
  else
    answer ← parse_json body;
    access_token ← ok_or (nonempty_trimmed (field answer "access_token")) (TransportError "the token answer carried no bearer");
    Ok (mk_IssuedToken access_token (field answer "scope")).
Definition revoke (base_url token : string) : result ClientError () :=
  r ← request "POST" base_url "/oauth/revoke";
  '(status, body) ← send (with_body (TextBody ("token=" +:+ enc token))
      (with_request_header "content-type" "application/x-www-form-urlencoded" r));
  if success status then Ok () else Err (refused status body).

(** *** Threads and agents *)

Definition thread_payload (title party_title agent message : string) : Value :=
  v_object [("title", v_string title); ("party_title", v_string party_title); ("kind", v_string "direct");
            ("participant", v_object [("agent_id", v_string agent)]); ("message", v_string message); ("worksite", v_string "none")].
Definition create_thread (base_url token title party_title agent message : string) : result ClientError string :=
  r ← request "POST" base_url "/client/v1/threads";
  '(status, body) ← send (bearer token (with_body (JsonBody (thread_payload title party_title agent message)) r));
  data ← client_data status body;
  ok_or (field data "id") (TransportError "the new thread has no id").
Definition message_payload (content : string) (party_title : option string) : Value :=
  v_object ([("content", v_string content)] ++ match party_title with Some title => [("party_title", v_string title)] | None => [] end).
Definition thread_path (thread_id tail : string) : string :=
  "/client/v1/threads/" +:+ utf8_percent_encode UNRESERVED thread_id +:+ tail.
Definition send_message (base_url token thread_id content : string) (party_title : option string) : result ClientError () :=
  r ← request "POST" base_url (thread_path thread_id "/messages");
  '(status, body) ← send (bearer token (with_body (JsonBody (message_payload content party_title)) r));
  _ ← client_data status body;
  Ok ().
Definition queue_idle (base_url token thread_id : string) : result ClientError bool :=
  r ← request "GET" base_url (thread_path thread_id "/queue-idle");
  '(status, body) ← send (bearer token r);
  data ← client_data status body;
  Ok (default false (v_get data "idle" ≫= v_as_bool)).
Definition messages_after (base_url token thread_id : string) (after : Z) : result ClientError (list RemoteItem) :=
  r ← request "GET" base_url (thread_path thread_id ("/messages?after=" +:+ pretty after +:+ "&limit=500"));
  '(status, body) ← send (bearer token r);
  data ← client_data status body;
  map_err (λ error, TransportError ("unreadable items: " +:+ json_display error)) (from_value (default (v_array []) (v_get data "items"))).

Definition avatar_extension (content_type : option string) : option string :=
  value ← content_type;
  let value := trim (default "" (head (split ";" value))) in
  if decide (value = "image/png") then Some "png"
  else if decide (value = "image/jpeg") then Some "jpg"
  else if decide (value = "image/gif") then Some "gif"
  else if decide (value = "image/webp") then Some "webp"
  else None.
(** The loop over the chunks: [None] when they grow past the limit. *)
Fixpoint avatar_chunks (chunks : list (result Fault bytes)) (acc : bytes) : result ClientError (option bytes) :=
  match chunks with
  | [] => Ok (Some acc)
  | Err error :: _ => Err (no_answer error)
  | Ok chunk :: chunks => if (MAX_AVATAR_BYTES <? len acc + len chunk)%Z then Ok None else avatar_chunks chunks (acc ++ chunk)
  end.
Definition agent_avatar (base_url token agent : string) : result ClientError (option Avatar) :=
  r ← request "GET" base_url ("/client/v1/agents/" +:+ utf8_percent_encode UNRESERVED agent +:+ "/avatar");
  response ← map_err no_answer (world (bearer token r));
  let status := hp_status response in
  let said name := (λ value, to_ascii_lowercase (trim value)) <$> (header name (hp_headers response) ≫= header_to_str) in
  if (status =? 401)%Z then Err Unauthorized
  else if ((status =? 403) || (status =? 404))%Z then Ok None
  else if negb (success status) then Err (refused status (match hp_text response with Ok body => body | Err _ => "" end))
  else
    match avatar_extension (said "content-type") with
    | None => Ok None
    | Some extension =>
        let tintable := bool_decide (said AVATAR_TINTABLE_HEADER = Some "true") in
        if match hp_length response with Some length => (MAX_AVATAR_BYTES <? length)%Z | None => false end then Ok None
        else
          held ← avatar_chunks (hp_chunks response) [];
          match held with
          | None | Some [] => Ok None
          | Some bytes => Ok (Some (mk_Avatar bytes extension tintable))
          end
    end.
End client.

(** ** What a refusal is told as *)

(** Neither a mark that turns the direction of the text nor a control character. *)
Definition clean (c : string) : Prop := is_direction_mark c = false ∧ is_control c = false.
Notation all_ok := (Forall (λ c, char_ok c = true)).

Lemma space_clean : clean " ".
Proof. by split. Qed.
Lemma space_ok : char_ok " " = true.
Proof. done. Qed.
Lemma one_line_chars_ok cs : all_ok cs → all_ok (one_line_chars cs).
Proof.
  intros Hcs. apply join_words_in; [done|]. apply char_words_in; [done|]. apply Forall_fmap, Forall_forall. intros c Hc.
  apply list_elem_of_In, filter_In in Hc as [Hc%list_elem_of_In _]. rewrite Forall_forall in Hcs. cbn. destruct (is_control c); [done|by apply Hcs].
Qed.
Lemma one_line_chars_clean cs : Forall clean (one_line_chars cs).
Proof.
  apply join_words_in; [apply space_clean|]. apply char_words_in; [done|]. apply Forall_fmap, Forall_forall. intros c Hc.
  apply list_elem_of_In, filter_In in Hc as [_ Hc%negb_true_iff]. cbn. destruct (is_control c) eqn:Hctl; [apply space_clean|by split].
Qed.
Lemma one_line_text s : text_ok s = true → text_ok (one_line s) = true ∧ Forall clean (chars (one_line s)).
Proof.
  intros Hs%text_ok_chars. pose proof (one_line_chars_ok _ Hs) as Ho. unfold one_line. split; [by apply text_ok_concat|].
  rewrite chars_concat by done. apply one_line_chars_clean.
Qed.

Lemma outside_tags_ok b cs : all_ok cs → all_ok (outside_tags b cs).
Proof.
  revert b; induction cs as [|c cs IH]; intros b Hcs; [done|]. apply Forall_cons in Hcs as [Hc Hcs]. cbn [outside_tags].
  case_decide; [by apply IH|]. destruct b; [case_decide; [apply Forall_cons; split; [done|]|]; by apply IH|].
  apply Forall_cons. split; [done|]. by apply IH.
Qed.
Lemma words_text fragment : text_ok fragment = true → text_ok (words fragment) = true ∧ Forall clean (chars (words fragment)).
Proof.
  intros Hf. apply one_line_text. do 3 (apply replace_text; [done..|]). apply text_ok_concat, outside_tags_ok. by apply text_ok_chars.
Qed.

(** Cutting a text at a place its lower-case form shows. *)
Lemma take_drop_str n s : take_str n s +:+ drop_str n s = s.
Proof. revert s; induction n as [|n IH]; intros [|c s]; try done. cbn [take_str drop_str]. by rewrite append_cons, IH. Qed.
Lemma take_str_app a b : take_str (String.length a) (a +:+ b) = a.
Proof. induction a as [|c a IH]; [by destruct b|]. rewrite append_cons. cbn [String.length take_str]. by rewrite IH. Qed.
Lemma drop_str_app a b : drop_str (String.length a) (a +:+ b) = b.
Proof. induction a as [|c a IH]; [by destruct b|]. rewrite append_cons. cbn [String.length drop_str]. by rewrite IH. Qed.
Lemma drop_str_add n m s : drop_str (n + m) s = drop_str m (drop_str n s).
Proof. revert s; induction n as [|n IH]; intros s; [done|]. destruct s as [|c s]; [by destruct m|]. apply IH. Qed.
Lemma lower_take n s : to_ascii_lowercase (take_str n s) = take_str n (to_ascii_lowercase s).
Proof. revert s; induction n as [|n IH]; intros [|c s]; try done. cbn [take_str to_ascii_lowercase]. by rewrite IH. Qed.
Lemma lower_drop n s : to_ascii_lowercase (drop_str n s) = drop_str n (to_ascii_lowercase s).
Proof. revert s; induction n as [|n IH]; intros [|c s]; try done. cbn [drop_str to_ascii_lowercase]. by rewrite IH. Qed.
Lemma lower_char_ascii c : is_ascii (lower_char c) = is_ascii c.
Proof. by destruct c as [[] [] [] [] [] [] [] []]. Qed.
Lemma lower_ascii s : all_chars is_ascii (to_ascii_lowercase s) = all_chars is_ascii s.
Proof. induction s as [|c s IH]; [done|]. cbn [to_ascii_lowercase all_chars]. by rewrite lower_char_ascii, IH. Qed.
Lemma cut_text s a x b :
  text_ok s = true → to_ascii_lowercase s = a +:+ x +:+ b → x ≠ "" → all_chars is_ascii x = true →
  text_ok (take_str (String.length a) s) = true ∧ text_ok (drop_str (String.length a + String.length x) s) = true.
Proof.
  intros Hs Hl Hne Hx. rewrite drop_str_add. set (s1 := take_str _ s). set (s2 := drop_str _ s).
  assert (Hs2 : to_ascii_lowercase s2 = x +:+ b) by (unfold s2; by rewrite lower_drop, Hl, drop_str_app).
  set (x' := take_str (String.length x) s2).
  assert (Hx' : to_ascii_lowercase x' = x) by (unfold x'; by rewrite lower_take, Hs2, take_str_app).
  assert (Ha : all_chars is_ascii x' = true) by (by rewrite <-lower_ascii, Hx').
  rewrite <-(take_drop_str (String.length a) s) in Hs. fold s1 s2 in Hs.
  rewrite <-(take_drop_str (String.length x) s2) in Hs. fold x' in Hs. destruct x' as [|c t]; [by subst x|].
  cbn [all_chars] in Ha. apply andb_true_iff in Ha as [Hc Ht]. rewrite append_cons in Hs.
  destruct (text_ok_after _ _ _ Hs Hc) as [Hs1 Hrest]. split; [done|]. by apply text_ok_drop in Hrest.
Qed.

Lemma find_inner_some fuel open lower from inner :
  find_inner fuel open lower from = Some inner → ∃ a b, lower = a +:+ ">" +:+ b ∧ inner = from + (String.length a + 1).
Proof.
  revert lower from; induction fuel as [|fuel IH]; intros lower from; [done|]. cbn [find_inner].
  destruct (split_str open lower) as [[before after]|] eqn:Hs; [|done]. cbn [mbind option_bind]. apply split_str_some in Hs as ->.
  destruct (tag_ends after).
  - destruct (split_once ">" after) as [[attributes b]|] eqn:Ho; [|done]. cbn. intros [= <-].
    apply split_once_some in Ho as [-> _]. exists (before +:+ open +:+ attributes), b. split.
    + by rewrite !append_assoc.
    + rewrite !length_app_string. lia.
  - intros (a & b & -> & ->)%IH. exists (before +:+ open +:+ a), b. split; [by rewrite !append_assoc|]. rewrite !length_app_string. lia.
Qed.
Lemma element_text_ok html tag said rest :
  text_ok html = true → all_chars is_ascii tag = true → element_text html tag = Some (said, rest) →
  text_ok said = true ∧ Forall clean (chars said) ∧ text_ok rest = true.
Proof.
  intros Hh Htag. unfold element_text. destruct (find_inner _ _ _ _) as [inner|] eqn:Hi; [|done]. cbn [mbind option_bind].
  apply find_inner_some in Hi as (a & b & Hl & Hin). cbn [Nat.add] in Hin.
  destruct (cut_text html a ">" b Hh Hl) as [_ Hinner]; [done..|]. change (String.length ">") with 1 in Hinner. rewrite <-Hin in Hinner.
  set (close := "</" +:+ tag +:+ ">"). destruct (split_str close _) as [[held after]|] eqn:Hs; [|done]. cbn. intros [= <- <-].
  apply split_str_some in Hs. rewrite <-lower_drop in Hs.
  destruct (cut_text _ _ _ _ Hinner Hs) as [Hheld Hrest]; [done| |].
  { unfold close. rewrite !all_chars_app, Htag. done. }
  destruct (words_text _ Hheld) as [Hw Hclean]. split_and!; [done..|]. rewrite <-Nat.add_assoc, drop_str_add. exact Hrest.
Qed.

Lemma clean_app a b : text_ok b = true → Forall clean (chars a) → Forall clean (chars b) → Forall clean (chars (a +:+ b)).
Proof. intros Hb Ha Hcb. rewrite chars_app by by apply text_ok_first. by apply Forall_app. Qed.
Lemma trim_end_char_ok c s : is_ascii c = true → text_ok s = true → Forall clean (chars s) →
  text_ok (trim_end_char c s) = true ∧ Forall clean (chars (trim_end_char c s)).
Proof.
  intros Hc Hs Hcl. destruct (trim_end_char_suffix c s) as [[|n] He].
  - rewrite append_nil_r in He. by rewrite <-He.
  - cbn [replicate foldr] in He. set (t := trim_end_char c s) in *. set (tail := foldr _ "" _) in He.
    rewrite He in Hs, Hcl. destruct (text_ok_after _ _ _ Hs Hc) as [Ht _]. split; [done|].
    rewrite chars_app in Hcl; [by apply Forall_app in Hcl as [Hcl _]|]. cbn [cont_first].
    unfold is_ascii in Hc. apply Z.ltb_lt in Hc. destruct (is_cont c) eqn:Hi; [apply is_cont_iff in Hi; lia|done].
Qed.
Lemma page_words_ok page said : text_ok page = true → page_words page = Some said → text_ok said = true ∧ Forall clean (chars said).
Proof.
  intros Hp. unfold page_words. destruct (match element_text page "h1" with Some r => Some r | None => element_text page "title" end)
    as [[heading rest]|] eqn:He; [|done]. cbn [mbind option_bind].
  assert (Hh : text_ok heading = true ∧ Forall clean (chars heading) ∧ text_ok rest = true).
  { destruct (element_text page "h1") as [r|] eqn:H1; [injection He as ->|];
      [exact (element_text_ok _ "h1" _ _ Hp eq_refl H1)|exact (element_text_ok _ "title" _ _ Hp eq_refl He)]. }
  destruct Hh as (Hht & Hhc & Hr).
  set (message := match element_text rest "p" with Some (message, _) => message | None => "" end).
  assert (Hm : text_ok message = true ∧ Forall clean (chars message)).
  { unfold message. destruct (element_text rest "p") as [[m r]|] eqn:Hm; [|done].
    by destruct (element_text_ok _ "p" _ _ Hr eq_refl Hm) as (? & ? & _). }
  destruct Hm as [Hmt Hmc].
  assert (Hsaid : ∀ s, (if decide (message = "") then heading else if decide (heading = "") then message
      else trim_end_char "." heading +:+ ". " +:+ message) = s → text_ok s = true ∧ Forall clean (chars s)).
  { intros s <-. case_decide; [done|]. case_decide; [done|]. destruct (trim_end_char_ok "." heading eq_refl Hht Hhc) as [Htt Htc].
    assert (Hd : text_ok (". " +:+ message) = true) by (by apply text_ok_app). split; [by apply text_ok_app|].
    apply clean_app; [exact Hd|exact Htc|]. apply clean_app; [exact Hmt| |exact Hmc]. repeat constructor. }
  set (line := if decide (message = "") then _ else _) in *. clearbody line. case_decide; [done|]. intros [= <-]. by apply Hsaid.
Qed.

(** [find_map] finds an answer of one of the elements. *)
Lemma head_omap {A B} (f : A → option B) l b : head (omap f l) = Some b → ∃ a, a ∈ l ∧ f a = Some b.
Proof.
  induction l as [|a l IH]; [done|]. cbn. destruct (f a) as [b'|] eqn:Hf.
  - cbn. intros [= ->]. exists a. split; [apply list_elem_of_here|done].
  - intros (a' & Ha' & Hf')%IH. exists a'. split; [by apply elem_of_cons; right|done].
Qed.

Section refusals.
Context `{Json, JsonValue} (value_from_str : string → result JsonError Value).
(** C36: whatever the other side answers, what the person is shown of it is clean:
    at most 160 characters, no control character and no mark that reverses the
    direction of the text, whether it was read from a page, from a JSON answer or
    from plain text. *)
Theorem readable_clean body said :
  utf8_text body = true →
  (∀ t v key s, value_from_str t = Ok v → v_get v key ≫= v_as_str = Some s → utf8_text s = true) →
  readable value_from_str body = Some said →
  length (chars said) ≤ 160 ∧ said ≠ "" ∧ Forall clean (chars said).
Proof.
  intros Hb%utf8_text_ok Hjson. unfold readable. set (cs := trim_chars _ _).
  assert (Hcs : all_ok cs).
  { apply trim_chars_in. rewrite takeZ_take. apply Forall_take. by apply text_ok_chars. }
  assert (Htext : text_ok (concat_str cs) = true) by (by apply text_ok_concat). case_decide; [done|].
  destruct (if starts_with "<" (concat_str cs) then _ else _) as [line|] eqn:Hsaid; [|done]. cbn [mbind option_bind].
  assert (Hline : text_ok line = true ∧ Forall clean (chars line)).
  { destruct (starts_with "<" (concat_str cs)); [by eapply page_words_ok|].
    destruct (value_from_str (concat_str cs)) as [v|e] eqn:Hv; [|injection Hsaid as <-; by apply one_line_text].
    case_decide; [|injection Hsaid as <-; by apply one_line_text]. apply fmap_Some in Hsaid as (t & Ht & ->). apply one_line_text.
    assert (Hkey : ∃ key, v_get v key ≫= v_as_str = Some t).
    { apply head_omap in Ht as (key & _ & Hk). by exists key. }
    destruct Hkey as [key Hk]. by eapply utf8_text_ok, Hjson. }
  case_decide as Hne; [done|]. intros [= <-]. destruct Hline as [Ht Hc].
  rewrite chars_concat by (apply Forall_take; by apply text_ok_chars). split_and!.
  - rewrite length_take. lia.
  - intros He. apply Hne. assert (Hok : all_ok (take 160 (chars line))) by (apply Forall_take; by apply text_ok_chars).
    apply (f_equal chars) in He. rewrite chars_concat in He by done. change (chars "") with (@nil string) in He.
    destruct (chars line) as [|c rest] eqn:Hl; [by apply chars_nil|done].
  - by apply Forall_take.
Qed.
End refusals.

(** ** The redirect a server sends back is read *)

Section roundtrip.
Context `{Percent, !PercentOk}.

Definition pair_text (p : string * string) : string := p.1 +:+ "=" +:+ utf8_percent_encode QUERY_VALUE p.2.
Definition given (params : list (string * string)) : list (string * string) := filter (λ p, p.2 ≠ "") params.

Lemma encoded_free set c v : percent_char set c = false → contains_char c (utf8_percent_encode set v) = false.
Proof.
  intros Hc. pose proof (percent_alphabet set v) as Ha. induction (utf8_percent_encode set v) as [|d s IH]; [done|].
  cbn in Ha |- *. apply Forall_cons in Ha as [Hd Ha]. rewrite IH by done. rewrite orb_false_r. apply bool_decide_eq_false. intros ->. congruence.
Qed.
Lemma push_params_given url sep params :
  push_params url sep params =
    match given params with [] => url | p :: ps => url +:+ String sep (join "&" (pair_text <$> p :: ps)) end.
Proof.
  revert url sep; induction params as [|[n v] params IH]; intros url sep; [done|]. cbn [push_params]. unfold given. rewrite filter_cons.
  cbn [snd]. destruct (decide (v = "")) as [->|Hv]; [rewrite decide_False by tauto; apply IH|]. rewrite decide_True by done. rewrite IH.
  fold (given params). destruct (given params) as [|q qs]; [done|]. rewrite append_assoc. reflexivity.
Qed.
Lemma pair_text_free c p : percent_char QUERY_VALUE c = false → c ≠ "="%char → contains_char c p.1 = false → contains_char c (pair_text p) = false.
Proof.
  intros Hc Hne Hp. unfold pair_text. rewrite !contains_char_app, Hp, encoded_free by done. cbn. rewrite !orb_false_r.
  apply bool_decide_eq_false. congruence.
Qed.
Lemma split_nonempty c s : split c s ≠ [].
Proof. destruct s as [|d s]; [done|]. cbn [split]. case_decide; [done|]. by destruct (split c s). Qed.
Lemma split_app c a b : split c (a +:+ String c b) = split c a ++ split c b.
Proof.
  induction a as [|d a IH]; [change ("" +:+ String c b) with (String c b); cbn [split]; by rewrite decide_True|].
  rewrite append_cons. cbn [split]. rewrite IH. case_decide; [done|]. pose proof (split_nonempty c a). by destruct (split c a).
Qed.

(** Reading the pairs a server wrote. *)
Definition read_pair (r : Redirect) (p : string * string) : Redirect :=
  if decide (p.1 = "code") then mk_Redirect p.2 (rd_state r) (rd_iss r) (rd_client_id r)
  else if decide (p.1 = "state") then mk_Redirect (rd_code r) (Some p.2) (rd_iss r) (rd_client_id r)
  else if decide (p.1 = "iss") then mk_Redirect (rd_code r) (rd_state r) (Some p.2) (rd_client_id r)
  else if decide (p.1 = "client_id") then mk_Redirect (rd_code r) (rd_state r) (rd_iss r) (Some p.2)
  else r.
Definition pair_ok (p : string * string) : Prop := utf8_text p.2 = true ∧ contains_char "=" p.1 = false ∧ contains_char "&" p.1 = false ∧ contains_char "#" p.1 = false.
Lemma redirect_pair_text p r : pair_ok p → redirect_pair (pair_text p) r = Some (read_pair r p).
Proof.
  intros (Hu & He & _). unfold redirect_pair, pair_text, name_value. change ("=" +:+ ?x) with (String "=" x).
  rewrite split_once_app by done. cbn [default from_option id]. rewrite percent_roundtrip by done. rewrite str_from_utf8_bytes by done. done.
Qed.
Lemma redirect_pairs_texts ps r : Forall pair_ok ps → redirect_pairs (pair_text <$> ps) r = Some (foldl read_pair r ps).
Proof. intros Hps. revert r. induction Hps as [|p ps Hp _ IH]; intros r; [done|]. cbn [fmap list_fmap redirect_pairs]. rewrite redirect_pair_text by done. apply IH. Qed.
Lemma redirect_pairs_app l k r : redirect_pairs (l ++ k) r = redirect_pairs l r ≫= redirect_pairs k.
Proof. revert r; induction l as [|x l IH]; intros r; [done|]. cbn. destruct (redirect_pair x r); [apply IH|done]. Qed.

(** What the redirect's own query says before the server adds to it. *)
Definition own_query (uri : string) : option Redirect :=
  match split_once "?" uri with
  | None => Some (mk_Redirect "" None None None)
  | Some (_, query) => redirect_pairs (split "&" query) (mk_Redirect "" None None None)
  end.
Lemma redirect_read uri params own :
  contains_char "#" uri = false → own_query uri = Some own → Forall pair_ok params → given params ≠ [] →
  Redirect_parse (redirect_with uri params) =
    let r := foldl read_pair own (given params) in if decide (rd_code r = "") then None else Some r.
Proof.
  intros Hhash Hown Hok Hne. unfold redirect_with. rewrite push_params_given.
  assert (Hg : Forall pair_ok (given params)) by (apply Forall_forall; intros q [_ Hq]%list_elem_of_filter; rewrite Forall_forall in Hok; by apply Hok).
  destruct (given params) as [|p ps] eqn:Hgiven; [done|]. set (texts := pair_text <$> p :: ps).
  assert (Hamp : Forall (λ s, contains_char "&" s = false) texts).
  { apply Forall_fmap. eapply Forall_impl; [exact Hg|]. intros q (_ & _ & Hq & _). by apply pair_text_free. }
  assert (Hfrag : contains_char "#" (join "&" texts) = false).
  { subst texts. clear Hgiven Hamp Hne. induction Hg as [|q qs (_ & _ & _ & Hq) Hg IH]; [done|]. destruct qs as [|q' qs].
    - by apply pair_text_free.
    - change (join "&" (pair_text <$> q :: q' :: qs)) with (pair_text q +:+ String "&" (join "&" (pair_text <$> q' :: qs))).
      rewrite contains_char_app, pair_text_free by done. cbn [contains_char orb]. by rewrite IH. }
  assert (Hsplit : split "&" (join "&" texts) = texts) by (by apply (split_join "&"%char)).
  unfold Redirect_parse. unfold own_query in Hown. destruct (split_once "?" uri) as [[u q]|] eqn:Hq.
  - apply split_once_some in Hq as [-> Hu]. rewrite contains_char_app. cbn [contains_char]. rewrite bool_decide_eq_true_2, orb_true_r by done.
    rewrite append_assoc, append_cons, split_once_app by done. cbn [mbind option_bind].
    rewrite contains_char_app in Hhash. cbn [contains_char] in Hhash. apply orb_false_iff in Hhash as [_ Hhash]. apply orb_false_iff in Hhash as [_ Hhash].
    rewrite (split_free "#"). 2:{ rewrite contains_char_app, Hhash. exact Hfrag. }
    cbn [head default from_option id]. rewrite split_app, Hsplit, redirect_pairs_app, Hown. cbn [mbind option_bind].
    unfold texts. by rewrite redirect_pairs_texts.
  - apply split_once_none in Hq. rewrite Hq. rewrite split_once_app by done. cbn [mbind option_bind]. rewrite (split_free "#") by done.
    cbn [head default from_option id]. rewrite Hsplit. injection Hown as <-. unfold texts. by rewrite redirect_pairs_texts.
Qed.
End roundtrip.

(** ** Bounds and confinement *)

Lemma avatar_chunks_bounded chunks acc held :
  (len acc ≤ MAX_AVATAR_BYTES)%Z → avatar_chunks chunks acc = Ok (Some held) →
  (len held ≤ MAX_AVATAR_BYTES)%Z ∧ ∃ rest, held = acc ++ rest.
Proof.
  revert acc; induction chunks as [|[chunk|e] chunks IH]; intros acc Hacc; cbn [avatar_chunks]; [|case_match eqn:Hl; [done|]|done].
  - intros [= <-]. split; [done|]. exists []. by rewrite app_nil_r.
  - intros Hh. apply IH in Hh as (Hb & rest & ->); [|rewrite len_app; lia]. split; [done|]. exists (chunk ++ rest). by rewrite app_assoc.
Qed.
(** An avatar that is kept is not empty, within the limit whatever length the
    answer claimed, and of a known image type. *)
Lemma agent_avatar_bounded `{Percent, Json, JsonValue} http world base token agent a :
  agent_avatar http world base token agent = Ok (Some a) →
  (0 < len (av_bytes a) ≤ MAX_AVATAR_BYTES)%Z ∧ av_extension a ∈ ["png"; "jpg"; "gif"; "webp"].
Proof.
  unfold agent_avatar. destruct (request _ _ _ _) as [r|e]; [|done]. cbn [mbind result_bind].
  destruct (map_err no_answer _) as [response|e]; [|done]. cbn [mbind result_bind].
  destruct (_ =? 401)%Z; [done|]. destruct (_ || _); [done|]. destruct (negb _); [done|].
  destruct (avatar_extension _) as [extension|] eqn:Hext; [|done]. case_match; [done|].
  destruct (avatar_chunks _ []) as [[[|b bs]|]|e] eqn:Hch; cbn [mbind result_bind]; [done| |done..]. intros [= <-]. cbn [av_bytes av_extension].
  apply avatar_chunks_bounded in Hch as [Hb _]; [|done]. split; [split; [rewrite len_cons; unfold len; lia|done]|].
  unfold avatar_extension in Hext. destruct (_ <$> _) as [value|]; [|done]. cbn [mbind option_bind] in Hext.
  repeat case_decide; simplify_eq; set_solver.
Qed.

(** The bases a client may be pointed at: the address itself over [https], or an
    authority on the loopback with neither a path nor a fragment. *)
Lemma base_url_confined base address :
  base_url_is_allowed base address = true →
  contains_white base = false ∧ contains_char "#" base = false ∧
  (base = "https://" +:+ address +:+ ".proxy.ing" ∨
   ∃ rest, base = "http://" +:+ rest ∧ is_loopback base = true ∧ contains_char "/" (trim_start_str "http://" base) = false).
Proof.
  unfold base_url_is_allowed. destruct (_ || _) eqn:Hbad; [done|]. apply orb_false_iff in Hbad as [Hw Hh]. intros Hok. split_and!; [done..|].
  case_decide; [by left|right]. apply andb_true_iff in Hok as [Hl Hs%negb_true_iff].
  destruct (strip_prefix "http://" base) as [rest|] eqn:Hp; [|unfold is_loopback in Hl; by rewrite Hp in Hl].
  exists rest. by apply strip_prefix_some in Hp.
Qed.
