(* ===== verification/AddressExchange.v ===== *)
(** * Asking at another owner's address, end to end

    The client of [src/address_client.rs] against the authorization server of
    [src/oauth]: the requests the client builds are routed to the handlers, and
    the answers are what the client reads.  A PKCE pair the client makes is one
    the server accepts, the redirect the server writes is one the client parses,
    and an ask that is let in ends with a bearer the server admits. *)

From stdpp Require Import pretty.
From S2P Require Import Prelude Ordered External Http Identity Text Words Chars OAuth OAuthServer OAuthNet AskProof JsonValue AddressClient.

(** Base64 without padding: between 4/3 of the bytes and twice them. *)
Class Base64UrlLen `{Base64Url} : Prop := {
  b64url_long bs : 4 * length bs ≤ 3 * String.length (b64url_encode bs);
  b64url_short bs : String.length (b64url_encode bs) ≤ 2 * length bs;
}.

(** ** A PKCE pair *)

Section pkce.
Context `{Crypto, Base64Url, !Base64UrlOk, !Base64UrlLen}.

Lemma b64url_chars (P : ascii → bool) bs : (∀ c, b64url_char c = true → P c = true) → all_chars P (b64url_encode bs) = true.
Proof.
  intros HP. pose proof (b64url_alphabet bs) as Ha. induction (b64url_encode bs) as [|c s IH]; [done|].
  apply Forall_cons in Ha as [Hc Ha]. cbn. rewrite HP, IH by done. done.
Qed.
Lemma b64url_challenge c : b64url_char c = true → challenge_char c = true.
Proof. destruct c as [[] [] [] [] [] [] [] []]; vm_compute; congruence. Qed.
Lemma b64url_visible c : b64url_char c = true → visible c = true.
Proof. destruct c as [[] [] [] [] [] [] [] []]; vm_compute; congruence. Qed.
Lemma b64url_32_well_formed (bs : barr 32) : code_challenge_is_well_formed (b64url_encode bs) = true.
Proof.
  unfold code_challenge_is_well_formed. rewrite b64url_chars by apply b64url_challenge. rewrite andb_true_r. apply bool_decide_eq_true.
  pose proof (b64url_long bs) as Hl. pose proof (b64url_short bs) as Hs. rewrite length_vec_to_list in Hl, Hs. lia.
Qed.

(** The verifier and the challenge of a pair are what the server asks for, and
    the verifier opens the challenge. *)
Lemma generated_pair_accepted vb sb verifier challenge state :
  generate_pkce_pair vb sb = (verifier, challenge, state) →
  code_challenge_is_well_formed verifier = true ∧ code_challenge_is_well_formed challenge = true ∧
  pkce_matches verifier challenge = true ∧ String.length state = 32.
Proof.
  intros [= <- <- <-]. unfold pkce_matches. rewrite !b64url_32_well_formed. split_and!; [done..| |].
  - by apply bool_decide_eq_true.
  - by rewrite length_encode_hex, length_vec_to_list.
Qed.
End pkce.

(** ** The redirect *)

Section redirect.
Context `{Percent, !PercentOk}.

Lemma given_four (a b c d : string * string) : a.2 ≠ "" → c.2 ≠ "" → d.2 ≠ "" →
  given [a; b; c; d] = a :: (if decide (b.2 = "") then [] else [b]) ++ [c; d].
Proof.
  intros Ha Hc Hd. unfold given. rewrite filter_cons_True, filter_cons by done. rewrite !filter_cons_True, filter_nil by done.
  destruct (decide (b.2 = "")) as [Hb|Hb]; [rewrite decide_False by (intros Hx; by apply Hx)|rewrite decide_True by done]; done.
Qed.

(** The client reads back the redirect the server wrote: the code, the
    state the client sent, the issuer and the client id, over whatever the
    registered URI's own query says. *)
Lemma redirect_roundtrip (a : Ask) code own :
  redirect_uri_is_allowed (ak_redirect_uri a) = true → own_query (ak_redirect_uri a) = Some own → code ≠ "" →
  utf8_text code = true → utf8_text (default "" (ak_state a)) = true → utf8_text (ak_issuer a) = true → utf8_text (ak_client_id a) = true →
  ak_issuer a ≠ "" → ak_client_id a ≠ "" →
  Redirect_parse (approved_redirect a code) =
    Some (mk_Redirect code (if decide (default "" (ak_state a) = "") then rd_state own else ak_state a) (Some (ak_issuer a)) (Some (ak_client_id a))).
Proof.
  intros (Hhash & _)%redirect_uri_allowed_shape Hown Hcode Huc Hus Hui Hucl Hi Hcl. unfold approved_redirect.
  rewrite (redirect_read _ _ own); [|done|done| |].
  - rewrite given_four by done. destruct (ak_state a) as [st|]; cbn [default from_option id snd];
      [destruct (decide (st = ""))|rewrite !(decide_True (P := "" = "")) by done]; cbn; by rewrite decide_False.
  - repeat constructor; done.
  - unfold given. by rewrite filter_cons_True.
Qed.
End redirect.

(** ** The routes under the client's requests *)

(** The string fields of the bodies the client reads. *)
Definition body_strings (b : OAuthBody) : option (list (string * string)) :=
  match b with
  | BodyAsked ask client_name origin scope poll =>
      Some [("ask", ask); ("client_name", client_name); ("origin", origin); ("scope", scope); ("poll", poll)]
  | BodyProgress status redirect =>
      Some (("status", status) :: match redirect with Some url => [("redirect", url)] | None => [] end)
  | BodyIssued i => Some [("access_token", is_access_token i); ("token_type", is_token_type i); ("scope", is_scope i)]
  | _ => None
  end.
Definition AuthorizeRequest_of (pairs : list (string * string)) : AuthorizeRequest :=
  mk_AuthorizeRequest (header "response_type" pairs) (header "client_id" pairs) (header "redirect_uri" pairs) (header "scope" pairs)
    (header "state" pairs) (header "code_challenge" pairs) (header "code_challenge_method" pairs).
Definition TokenRequest_of (pairs : list (string * string)) : TokenRequest :=
  mk_TokenRequest (header "grant_type" pairs) (header "code" pairs) (header "redirect_uri" pairs) (header "client_id" pairs)
    (header "code_verifier" pairs).

(** What the node's side brings to one request: its address, what the owner
    answered, the random values and the time. *)
Record Moment : Type := mk_Moment {
  mo_issuer : option string;
  mo_consent : result OAuthError ();
  mo_answer : result OAuthError Answer;
  mo_id : string;
  mo_code : string;
  mo_secret : string;
  mo_now : Z;
}.

Section flow.
Context `{Crypto, Base64Url, Percent, Json, JsonValue, !FromValue (list RemoteItem), !JsonWire OAuthBody, HashOrder}.
Context (to_lowercase : string → string) (redirect_to : string → Response) (debug : option string → string).
Context (value_from_str : string → result JsonError Value).
(** [form_urlencoded::parse], behind the query and form extractors. *)
Context (form : string → list (string * string)).
Notation Srv := (@Server MemoryStore).

(** [router], mounted at [/oauth] under [base]. *)
Definition serve (base : string) (m : Moment) (v : Srv) (r : HttpRequest) : Response * Srv :=
  match strip_prefix (base +:+ "/oauth/") (hr_url r) with
  | None => (status_response NOT_FOUND, v)
  | Some rest =>
      let '(path, query) := default (rest, "") (split_once "?" rest) in
      if decide (hr_method r = "GET" ∧ path = "authorize") then
        let '(response, _, v) := authorize_route to_lowercase redirect_to v (mo_issuer m) (hr_headers r) (AuthorizeRequest_of (form query))
                                   (mo_consent m) (Ok ()) (mo_id m) (mo_now m) in (response, v)
      else if decide (hr_method r = "POST" ∧ path = "token") then
        token_route v (match hr_body r with TextBody s => Ok (TokenRequest_of (form s)) | _ => Err "not a form" end) (Ok ())
          (mo_secret m) (mo_id m) (mo_now m)
      else
        match strip_prefix "ask/" path with
        | Some id =>
            match str_from_utf8 (percent_decode_str id) with
            | Some id => if decide (hr_method r = "GET") then ask_route v id (mo_answer m) (Ok ()) (mo_code m) (mo_now m)
                         else (status_response 405, v)
            | None => (status_response BAD_REQUEST, v)
            end
        | None => (status_response NOT_FOUND, v)
        end
  end.
Definition answered (r : Response) : result Fault HttpResponse :=
  Ok (mk_HttpResponse (resp_status r) (resp_headers r) (Ok (String.string_of_list_byte (resp_body r))) None []).

(** A call of the client that makes one request, served. *)
Definition exchange {A} (base : string) (m : Moment) (v : Srv)
    (call : (HttpRequest → result Fault HttpResponse) → result ClientError A) (out : result ClientError A) (v' : Srv) : Prop :=
  ∃ r, (∀ w, call w = call (λ _, w r)) ∧ call (λ _, answered (serve base m v r).1) = out ∧ (serve base m v r).2 = v'.

(** A key and the text of its value in a form: percent-encoded, or plain. *)
Definition plain_char (c : ascii) : bool := is_ascii_alphanumeric c || bool_decide (c = "_"%char).
Inductive form_text : string * string → string → Prop :=
  | FormEncoded k v : all_chars plain_char k = true → utf8_text v = true → form_text (k, v) (k +:+ "=" +:+ enc v)
  | FormPlain k v : all_chars plain_char k = true → all_chars plain_char v = true → form_text (k, v) (k +:+ "=" +:+ v).
Context `{!Base64UrlOk, !Base64UrlLen, !PercentOk, !HashOrderOk}.
Context (form_reads : ∀ pairs texts, Forall2 form_text pairs texts → form (join "&" texts) = pairs).
Context (json_strings : ∀ b ss, body_strings b = Some ss →
  ∃ bs v, json_to_vec b = Ok bs ∧ value_from_str (String.string_of_list_byte bs) = Ok v ∧ ∀ k, field v k = header k ss).

Lemma authorize_query c r s st ch : utf8_text c = true → utf8_text r = true → utf8_text s = true → utf8_text st = true → utf8_text ch = true →
  ∃ q, authorize_path c r s st ch = "/oauth/authorize?" +:+ q ∧
    AuthorizeRequest_of (form q) = mk_AuthorizeRequest (Some "code") (Some c) (Some r) (Some s) (Some st) (Some ch) (Some "S256").
Proof.
  intros. exists (join "&" ["response_type=code"; "client_id" +:+ "=" +:+ enc c; "redirect_uri" +:+ "=" +:+ enc r; "scope" +:+ "=" +:+ enc s;
    "state" +:+ "=" +:+ enc st; "code_challenge" +:+ "=" +:+ enc ch; "code_challenge_method=S256"]). split.
  - unfold authorize_path. cbn [join]. rewrite !append_assoc. reflexivity.
  - rewrite (form_reads [("response_type", "code"); ("client_id", c); ("redirect_uri", r); ("scope", s); ("state", st); ("code_challenge", ch);
      ("code_challenge_method", "S256")]); [reflexivity|].
    repeat (apply Forall2_cons; split); [apply (FormPlain "response_type")|by constructor..|apply (FormPlain "code_challenge_method")|constructor]; done.
Qed.
Lemma redeem_query c r code vf : utf8_text c = true → utf8_text r = true → utf8_text code = true → utf8_text vf = true →
  TokenRequest_of (form (redeem_form c r code vf)) =
    mk_TokenRequest (Some "authorization_code") (Some code) (Some r) (Some c) (Some vf).
Proof.
  intros. replace (redeem_form c r code vf) with (join "&" ["grant_type=authorization_code"; "code" +:+ "=" +:+ enc code;
    "redirect_uri" +:+ "=" +:+ enc r; "client_id" +:+ "=" +:+ enc c; "code_verifier" +:+ "=" +:+ enc vf]).
  - rewrite (form_reads [("grant_type", "authorization_code"); ("code", code); ("redirect_uri", r); ("client_id", c); ("code_verifier", vf)]);
      [reflexivity|]. repeat (apply Forall2_cons; split); [apply (FormPlain "grant_type")|by constructor..|constructor]; done.
  - unfold redeem_form. cbn [join]. rewrite !append_assoc. reflexivity.
Qed.

(** *** The ask *)

Lemma trimmed_word s : word_ok s → trimmed (Some s) = Some s.
Proof. intros [Hne Hw]. unfold trimmed. cbn [fmap option_fmap option_map]. rewrite trim_word by done. by rewrite decide_False. Qed.
Definition ask_headers (base : string) : list (string * string) :=
  (if is_loopback base then [("cf-connecting-ip", "127.0.0.1")] else []) ++ [("accept", "application/json")].
Lemma ask_headers_json base : asks_for_json (ask_headers base) = true.
Proof. unfold ask_headers. destruct (is_loopback base); vm_compute; reflexivity. Qed.

Lemma authorize_accepts (s : MemoryStore) c client redirect scope granted state challenge issuer id now :
  os_clients s !! client = Some c → word_ok client → word_ok redirect → redirect ∈ cl_redirect_uris c →
  code_challenge_is_well_formed challenge = true → contains_white challenge = false → state ≠ "" → normalize_scope (Some scope) = Ok granted →
  let a := mk_Ask id (cl_id c) (cl_name c) (trim_end_char "/" issuer) redirect (Some granted) (Some state) challenge now None None false in
  authorize s (mk_AuthorizeRequest (Some "code") (Some client) (Some redirect) (Some scope) (Some state) (Some challenge) (Some "S256")) issuer (Ok ()) id now
    = (Ok (Ok a), st_ask s id a).
Proof.
  intros Hc Hw Hr Hin Hch Hcw Hst Hn a. unfold authorize. cbn [ar_client_id ar_redirect_uri ar_state]. rewrite trimmed_word by done.
  cbn [get_client memory_store]. rewrite Hc, trimmed_word by done. rewrite decide_False by tauto.
  unfold authorize_checks. cbn [ar_response_type ar_code_challenge_method ar_code_challenge ar_scope fmap option_fmap option_map].
  rewrite decide_False by (intros Hx; by apply Hx). rewrite decide_False by (intros Hx; by apply Hx).
  rewrite trim_word, Hch, Hn by done. rewrite decide_False by done. reflexivity.
Qed.

Lemma ascii_utf8 s : all_chars is_ascii s = true → utf8_text s = true.
Proof.
  unfold utf8_text. induction s as [|c s IH]; [done|]. cbn [all_chars]. intros [Hc Hs]%andb_true_iff.
  change (String.list_byte_of_string (String c s)) with (Ascii.byte_of_ascii c :: String.list_byte_of_string s). cbn [utf8_valid].
  assert (Hb : between 0 127 (Ascii.byte_of_ascii c) = true).
  { apply between_code. unfold is_ascii in Hc. unfold char_code in *. lia. }
  rewrite Hb. by apply IH.
Qed.
Lemma json_answer b ss status : body_strings b = Some ss →
  ∃ v, resp_status (json status b) = status ∧ value_from_str (String.string_of_list_byte (resp_body (json status b))) = Ok v ∧ ∀ k, field v k = header k ss.
Proof. intros (bs & v & Hbs & Hv & Hk)%json_strings. exists v. unfold json. rewrite Hbs. cbn. done. Qed.
Lemma pkce_texts vb sb verifier challenge state : generate_pkce_pair vb sb = (verifier, challenge, state) →
  (utf8_text verifier = true ∧ word_ok verifier) ∧ (utf8_text challenge = true ∧ word_ok challenge) ∧ utf8_text state = true ∧ state ≠ "".
Proof.
  assert (Hb : ∀ bs : barr 32, utf8_text (b64url_encode bs) = true ∧ word_ok (b64url_encode bs)).
  { intros bs. split; [|split].
    - apply ascii_utf8, b64url_chars. intros c Hc%b64url_visible. unfold visible, is_ascii in *. lia.
    - intros He. pose proof (b64url_long bs) as Hl. rewrite He, length_vec_to_list in Hl. cbn in Hl. lia.
    - apply visible_white_free, b64url_chars, b64url_visible. }
  intros [= <- <- <-]. split_and!; [apply Hb..| |].
  - apply ascii_utf8. pose proof (encode_hex_lower sb) as Hl. revert Hl. apply all_chars_impl. by intros [[] [] [] [] [] [] [] []].
  - intros He. apply (f_equal String.length) in He. rewrite length_encode_hex, length_vec_to_list in He. done.
Qed.

Lemma ask_step base m (v : Srv) client c redirect scope granted prove vb sb issuer verifier challenge state :
  trim_end_char "/" base = base → generate_pkce_pair vb sb = (verifier, challenge, state) →
  os_clients (sv_store v) !! client = Some c → word_ok client → utf8_text client = true →
  word_ok redirect → utf8_text redirect = true → redirect ∈ cl_redirect_uris c →
  utf8_text (final_scope scope (prove challenge)) = true → normalize_scope (Some (final_scope scope (prove challenge))) = Ok granted →
  address (mo_issuer m) = Ok issuer → mo_consent m = Ok () → (may_ask v (source_of (ask_headers base)) (mo_now m)).1 = true →
  let a := mk_Ask (mo_id m) (cl_id c) (cl_name c) (trim_end_char "/" issuer) redirect (Some granted) (Some state) challenge (mo_now m) None None false in
  exchange base m v (λ w, ask_signed value_from_str (Ok ()) w base client redirect scope prove vb sb)
    (Ok (mk_Asked (mo_id m) verifier state))
    (with_store (may_ask v (source_of (ask_headers base)) (mo_now m)).2 (st_ask (sv_store v) (mo_id m) a)).
Proof.
  intros Hbase Hpkce Hc Hw Hu Hrw Hru Hin Hsu Hn Hi Hcons Hmay a. destruct (pkce_texts _ _ _ _ _ Hpkce) as (_ & (Hcu & _ & Hcw) & Hsu' & Hs).
  pose proof (generated_pair_accepted _ _ _ _ _ Hpkce) as (_ & Hwf & _ & _).
  destruct (authorize_query client redirect (final_scope scope (prove challenge)) state challenge) as (q & Hq & Hreq); [done..|].
  set (r := mk_HttpRequest "GET" (base +:+ "/oauth/authorize?" +:+ q) (ask_headers base) NoBody).
  assert (Hserve : serve base m v r = (json OK (BodyAsked (mo_id m) (cl_name c) (redirect_origin to_lowercase redirect) granted ("ask/" +:+ mo_id m)),
    with_store (may_ask v (source_of (ask_headers base)) (mo_now m)).2 (st_ask (sv_store v) (mo_id m) a))).
  { unfold serve. cbn [hr_url hr_method hr_headers r]. change ("/oauth/authorize?" +:+ q) with ("/oauth/" +:+ ("authorize?" +:+ q)).
    rewrite <-append_assoc, strip_prefix_app. change ("authorize?" +:+ q) with ("authorize" +:+ String "?" q). rewrite split_once_app by done.
    cbn [default from_option id]. rewrite decide_True by done. rewrite Hreq. unfold authorize_route. rewrite Hi. cbv zeta.
    destruct (may_ask v (source_of (ask_headers base)) (mo_now m)) as [ok v1] eqn:Hm. cbn [fst snd] in Hmay |- *. subst ok. cbn [negb].
    pose proof (may_ask_store v (source_of (ask_headers base)) (mo_now m)) as Hst. rewrite Hm in Hst. cbn [snd] in Hst.
    unfold blocking.
    rewrite Hst, Hcons, (authorize_accepts _ c _ _ _ granted) by done. rewrite ask_headers_json. reflexivity. }
  exists r. unfold ask_signed, request. rewrite Hpkce, Hbase, Hq. cbn [map_err mbind result_bind].
  unfold with_request_header. cbn [hr_method hr_url hr_headers hr_body]. fold (ask_headers base). fold r. split; [done|]. rewrite Hserve.
  split; [|done]. destruct (json_answer (BodyAsked (mo_id m) (cl_name c) (redirect_origin to_lowercase redirect) granted ("ask/" +:+ mo_id m)) _ OK eq_refl)
    as (v' & Hstatus & Hv & Hk).
  unfold send, answered. cbn [fst map_err mbind result_bind hp_text hp_status]. rewrite Hstatus. cbn [negb OK Z.eqb Pos.eqb].
  unfold parse_json. rewrite Hv. cbn [map_err mbind result_bind]. rewrite Hk. reflexivity.
Qed.

(** *** The poll *)

Lemma progress_mints (s : MemoryStore) id a code now :
  os_asks s !! id = Some a → ak_id a = id → ak_code_used a = false → ak_code a = None → (now - ak_asked_at a ≤ ASK_TTL_SECS)%Z →
  progress s id (Ok Approved) code now = (Ok (ProgressRedirect (approved_redirect a code)), st_ask s id (with_code a code now)).
Proof.
  intros Ha Hid Hused Hc Ht. unfold progress. cbn [get_ask memory_store]. rewrite Ha, Hused, Hc.
  rewrite decide_False by (unfold saturating_sub_u64, ASK_TTL_SECS in *; lia). cbn [mint_code memory_store]. rewrite Hid, Ha.
  unfold try_store, minted. rewrite Hc.
  unfold code_progress, code_is_fresh, with_code. cbn [ak_code ak_code_issued_at].
  rewrite bool_decide_eq_true_2 by (unfold saturating_sub_u64, CODE_TTL_SECS; lia). reflexivity.
Qed.
Lemma poll_step base m (v : Srv) aid a :
  trim_end_char "/" base = base → utf8_text aid = true →
  os_asks (sv_store v) !! aid = Some a → ak_id a = aid → ak_code_used a = false → ak_code a = None →
  mo_answer m = Ok Approved → (mo_now m - ak_asked_at a ≤ ASK_TTL_SECS)%Z →
  exchange base m v (λ w, poll value_from_str (Ok ()) w debug base aid) (Ok (AskLetIn (approved_redirect a (mo_code m))))
    (with_store v (st_ask (sv_store v) aid (with_code a (mo_code m) (mo_now m)))).
Proof.
  intros Hbase Hu Ha Hid Hused Hcode Hans Ht.
  set (r := mk_HttpRequest "GET" (base +:+ "/oauth/ask/" +:+ enc aid) (if is_loopback base then [("cf-connecting-ip", "127.0.0.1")] else []) NoBody).
  set (b := BodyProgress "let_in" (Some (approved_redirect a (mo_code m)))).
  assert (Hserve : serve base m v r = (json OK b, with_store v (st_ask (sv_store v) aid (with_code a (mo_code m) (mo_now m))))).
  { unfold serve. cbn [hr_url hr_method hr_headers r]. change ("/oauth/ask/" +:+ enc aid) with ("/oauth/" +:+ ("ask/" +:+ enc aid)).
    rewrite <-append_assoc, strip_prefix_app.
    assert (Hq : split_once "?" ("ask/" +:+ enc aid) = None).
    { apply split_once_none. rewrite contains_char_app. unfold enc. by rewrite encoded_free. }
    rewrite Hq. cbn [default from_option id]. rewrite decide_False by (intros [_ [=]]). rewrite decide_False by (intros [[=] _]).
    rewrite strip_prefix_app. unfold enc. rewrite percent_roundtrip, str_from_utf8_bytes by done. rewrite decide_True by done.
    unfold ask_route, blocking. rewrite Hans, (progress_mints _ aid a) by done. reflexivity. }
  exists r. unfold poll, request. rewrite Hbase. cbn [map_err mbind result_bind]. fold r. split; [done|]. rewrite Hserve. split; [|done].
  destruct (json_answer b _ OK eq_refl) as (v' & Hstatus & Hv & Hk).
  unfold send, answered. cbn [fst map_err mbind result_bind hp_text hp_status]. rewrite Hstatus. cbn [negb OK Z.eqb Pos.eqb].
  unfold parse_json. rewrite Hv. cbn [map_err mbind result_bind]. rewrite !Hk. reflexivity.
Qed.

(** *** The redemption *)

Lemma find_unique (code : string) (asks : gmap string Ask) aid a :
  asks !! aid = Some a → redeemable code a → (∀ i b, asks !! i = Some b → redeemable code b → i = aid) →
  find_redeemable code asks = Some (aid, a).
Proof.
  intros Ha Hr Huniq. unfold find_redeemable. destruct (List.find _ _) as [[i b]|] eqn:Hf.
  - apply find_some in Hf as [Hin Hb%bool_decide_eq_true]. apply list_elem_of_In in Hin. rewrite hash_iter_perm, elem_of_map_to_list in Hin.
    assert (i = aid) as -> by (by eapply Huniq). cbn in Hb. congruence.
  - assert (Hin : In (aid, a) (hash_iter asks)) by (apply list_elem_of_In; by rewrite hash_iter_perm, elem_of_map_to_list).
    apply (find_none _ _ Hf), bool_decide_eq_false in Hin. done.
Qed.
Lemma token_issues (s : MemoryStore) aid a code redirect client verifier secret tid granted now issued :
  os_asks s !! aid = Some a → redeemable code a → (∀ i b, os_asks s !! i = Some b → redeemable code b → i = aid) →
  word_ok code → word_ok verifier → word_ok client → word_ok redirect → ak_client_id a = client → ak_redirect_uri a = redirect →
  pkce_matches verifier (ak_code_challenge a) = true → ak_scope a = Some granted →
  ak_code_issued_at a = Some issued → (now - issued ≤ CODE_TTL_SECS)%Z → os_tokens s !! tid = None →
  let t := token_for (with_used a) secret tid now in
  token s (mk_TokenRequest (Some "authorization_code") (Some code) (Some redirect) (Some client) (Some verifier)) secret tid now
    = (Ok (Ok (mk_Issued secret "Bearer" (if runs_out t then Some TOKEN_TTL_SECS else None) granted)), st_token (st_ask s aid (with_used a)) tid t).
Proof.
  intros Ha Hr Huniq Hc Hv [_ Hcl] [_ Hre] <- <- Hp Hs Hi Ht Htid t. unfold token.
  set (request := mk_TokenRequest _ _ _ _ _).
  assert (Hchk : token_checks request verifier (with_used a) now = Ok ()).
  { unfold token_checks, code_is_fresh, with_used.
    cbn [ak_code_issued_at ak_client_id ak_redirect_uri ak_code_challenge tr_client_id tr_redirect_uri fmap option_fmap option_map request].
    rewrite Hi, bool_decide_eq_true_2 by (unfold saturating_sub_u64, CODE_TTL_SECS in *; lia). cbn [negb]. rewrite !trim_word by done.
    rewrite !decide_False by (intros Hx; by apply Hx). by rewrite Hp. }
  cbn [tr_grant_type tr_code tr_code_verifier request].
  rewrite decide_False by (intros Hx; by apply Hx). rewrite !trimmed_word by done. cbn [redeem_code memory_store].
  rewrite (find_unique code _ aid a) by done. cbn [try_store]. fold request. rewrite Hchk. cbn [put_token memory_store]. fold t.
  unfold memory_put_token. change (tk_id t) with tid. change (os_tokens (st_ask s aid (with_used a))) with (os_tokens s). rewrite Htid.
  cbn [try_store]. change (ak_scope (with_used a)) with (ak_scope a). by rewrite Hs.
Qed.
Lemma redeem_step base m (v : Srv) aid a code redirect client verifier granted issued :
  trim_end_char "/" base = base → utf8_text code = true → utf8_text redirect = true → utf8_text client = true → utf8_text verifier = true →
  os_asks (sv_store v) !! aid = Some a → redeemable code a → (∀ i b, os_asks (sv_store v) !! i = Some b → redeemable code b → i = aid) →
  word_ok code → word_ok verifier → word_ok client → word_ok redirect → ak_client_id a = client → ak_redirect_uri a = redirect →
  pkce_matches verifier (ak_code_challenge a) = true → ak_scope a = Some granted →
  ak_code_issued_at a = Some issued → (mo_now m - issued ≤ CODE_TTL_SECS)%Z → os_tokens (sv_store v) !! mo_id m = None → word_ok (mo_secret m) →
  exchange base m v (λ w, redeem value_from_str (Ok ()) w base client redirect code verifier) (Ok (mk_IssuedToken (mo_secret m) (Some granted)))
    (with_store v (st_token (st_ask (sv_store v) aid (with_used a)) (mo_id m) (token_for (with_used a) (mo_secret m) (mo_id m) (mo_now m)))).
Proof.
  intros Hbase Hcu Hru Hclu Hvu Ha Hr Huniq Hc Hv Hcl Hre Hci Hri Hp Hs Hi Ht Htid [Hse Hsw].
  pose proof (token_issues _ _ _ _ _ _ _ (mo_secret m) (mo_id m) _ _ _ Ha Hr Huniq Hc Hv Hcl Hre Hci Hri Hp Hs Hi Ht Htid) as Htok. cbv zeta in Htok.
  set (t := token_for _ _ _ _) in *. set (i := mk_Issued _ _ _ _) in Htok.
  set (r := mk_HttpRequest "POST" (base +:+ "/oauth/token")
    (((if is_loopback base then [("cf-connecting-ip", "127.0.0.1")] else []) ++ [("accept", "application/json")]) ++ [("content-type", "application/x-www-form-urlencoded")])
    (TextBody (redeem_form client redirect code verifier))).
  assert (Hserve : serve base m v r = (json OK (BodyIssued i), with_store v (st_token (st_ask (sv_store v) aid (with_used a)) (mo_id m) t))).
  { unfold serve. cbn [hr_url hr_method hr_headers hr_body r]. change "/oauth/token" with ("/oauth/" +:+ "token").
    rewrite <-append_assoc, strip_prefix_app. change (split_once "?" "token") with (@None (string * string)). cbn [default from_option id].
    rewrite decide_False by (intros [[=] _]). rewrite decide_True by done. rewrite redeem_query by done.
    unfold token_route, blocking. rewrite Htok. reflexivity. }
  exists r. unfold redeem, request. rewrite Hbase. cbn [map_err mbind result_bind]. unfold with_body, with_request_header.
  cbn [hr_method hr_url hr_headers hr_body]. fold r. split; [done|]. rewrite Hserve. split; [|done].
  destruct (json_answer (BodyIssued i) _ OK eq_refl) as (v' & Hstatus & Hval & Hk).
  unfold send, answered. cbn [fst map_err mbind result_bind hp_text hp_status]. rewrite Hstatus. cbn [success OK negb Z.leb Z.ltb Z.compare Pos.compare Pos.compare_cont andb].
  unfold parse_json. rewrite Hval. cbn [map_err mbind result_bind]. rewrite !Hk.
  change (header "access_token" _) with (Some (mo_secret m)). change (header "scope" _) with (Some granted).
  unfold nonempty_trimmed. cbn [mbind option_bind]. rewrite trim_word by done. by rewrite decide_False.
Qed.

Lemma admit_fresh (s : MemoryStore) tid t secret now :
  os_tokens s !! tid = Some t → tk_hash t = hash_token secret → (∀ i t', os_tokens s !! i = Some t' → tk_hash t' = hash_token secret → i = tid) →
  word_ok secret → is_live_at t now = true → tk_last_used_at t = None →
  (admit_bearer s secret now).1 = Ok (Some (with_last_used t now)).
Proof.
  intros Ht Hh Huniq [Hne Hw] Hlive Hlast. unfold admit_bearer. rewrite trim_word by done. rewrite decide_False by done.
  destruct (token_by_hash s (hash_token secret)) as [o|e] eqn:Hq; [|done]. apply token_by_hash_ok in Hq. unfold id in Hq. destruct o as [t'|].
  - destruct Hq as [[i Hi] Hh']. assert (i = tid) as -> by (by eapply Huniq). replace t' with t by congruence.
    rewrite Hlive, Hlast. cbn [negb touch_token memory_store]. by destruct (os_tokens s !! tk_id t).
  - by destruct (Hq tid t).
Qed.

(** *** The whole visit *)

Record Visit : Type := mk_Visit {
  vi_base : string;
  vi_client : string;
  vi_redirect : string;
  vi_scope : string;
  vi_prove : string → option string;
  vi_verifier_bytes : barr 32;
  vi_state_bytes : barr 16;
}.
Definition vi_pair (x : Visit) : string * string * string := generate_pkce_pair (vi_verifier_bytes x) (vi_state_bytes x).
Definition vi_asked (x : Visit) : string := final_scope (vi_scope x) (vi_prove x (vi_pair x).1.2).

(** A client that registered, a scope that normalises, random values that are
    new, an owner who lets it in, and each request in time. *)
Record welcome (x : Visit) (v : Srv) (c : Client) (m0 m1 m2 : Moment) (issuer granted : string) (own : Redirect) (now : Z) : Prop := {
  wl_base : trim_end_char "/" (vi_base x) = vi_base x;
  wl_client : os_clients (sv_store v) !! vi_client x = Some c ∧ cl_id c = vi_client x ∧ word_ok (vi_client x) ∧ utf8_text (vi_client x) = true;
  wl_redirect : vi_redirect x ∈ cl_redirect_uris c ∧ redirect_uri_is_allowed (vi_redirect x) = true ∧ utf8_text (vi_redirect x) = true ∧
    own_query (vi_redirect x) = Some own;
  wl_scope : utf8_text (vi_asked x) = true ∧ normalize_scope (Some (vi_asked x)) = Ok granted;
  wl_issuer : address (mo_issuer m0) = Ok issuer ∧ utf8_text issuer = true;
  wl_allowed : (may_ask v (source_of (ask_headers (vi_base x))) (mo_now m0)).1 = true;
  wl_consent : mo_consent m0 = Ok () ∧ mo_answer m1 = Ok Approved;
  wl_texts : utf8_text (mo_id m0) = true ∧ utf8_text (mo_code m1) = true ∧ word_ok (mo_code m1) ∧ word_ok (mo_secret m2);
  wl_code_new : ∀ i a, os_asks (sv_store v) !! i = Some a → ak_code a ≠ Some (mo_code m1);
  wl_token_new : os_tokens (sv_store v) !! mo_id m2 = None ∧ ∀ i t, os_tokens (sv_store v) !! i = Some t → tk_hash t ≠ hash_token (mo_secret m2);
  wl_times : (mo_now m1 - mo_now m0 ≤ ASK_TTL_SECS ∧ mo_now m2 - mo_now m1 ≤ CODE_TTL_SECS ∧ now < expires_at_for granted (mo_now m2))%Z;
}.

(** C6: an ask that the owner lets in ends inside.  Against the server's routes,
    the client's ask is taken, its poll answers the redirect, the redirect parses
    to the code with the state that was sent, the issuer and the client; the
    redemption gives a bearer whose scope is the normalised scope of the ask, and
    the server admits that bearer for this client and this scope. *)
Theorem visit_admitted x v c m0 m1 m2 issuer granted own now :
  welcome x v c m0 m1 m2 issuer granted own now →
  let '(verifier, challenge, state) := vi_pair x in
  ∃ v1 v2 v3 url t,
    exchange (vi_base x) m0 v (λ w, ask_signed value_from_str (Ok ()) w (vi_base x) (vi_client x) (vi_redirect x) (vi_scope x) (vi_prove x)
        (vi_verifier_bytes x) (vi_state_bytes x)) (Ok (mk_Asked (mo_id m0) verifier state)) v1 ∧
    exchange (vi_base x) m1 v1 (λ w, poll value_from_str (Ok ()) w debug (vi_base x) (mo_id m0)) (Ok (AskLetIn url)) v2 ∧
    Redirect_parse url = Some (mk_Redirect (mo_code m1) (Some state) (Some issuer) (Some (vi_client x))) ∧
    exchange (vi_base x) m2 v2 (λ w, redeem value_from_str (Ok ()) w (vi_base x) (vi_client x) (vi_redirect x) (mo_code m1) verifier)
        (Ok (mk_IssuedToken (mo_secret m2) (Some granted))) v3 ∧
    (admit_bearer (sv_store v3) (mo_secret m2) now).1 = Ok (Some t) ∧
    tk_client_id t = vi_client x ∧ tk_scope t = Some granted ∧ tk_revoked_at t = None.
Proof.
  intros [Hbase (Hc & Hcid & Hcw & Hcu) (Hin & Hall & Hru & Hown) (Hsu & Hn) (Hi & Hiu) Hmay (Hcons & Hans) (Hidu & Hku & Hkw & Hsw) Hnew (Htid & Htnew) (Ht1 & Ht2 & Ht3)].
  unfold vi_asked in *. destruct (vi_pair x) as [[verifier challenge] state] eqn:Hpair. cbn [fst snd] in *.
  destruct (pkce_texts _ _ _ _ _ Hpair) as ((Hvu & Hvw) & _ & Hstu & Hst). pose proof (generated_pair_accepted _ _ _ _ _ Hpair) as (_ & _ & Hp & _).
  assert (Hrw : word_ok (vi_redirect x)).
  { apply redirect_uri_allowed_shape in Hall as (_ & Hw & Hshape). split; [|done]. intros He. rewrite He in Hshape. naive_solver. }
  assert (Hiss : issuer ≠ "" ∧ trim_end_char "/" issuer = issuer).
  { unfold address in Hi. destruct (mo_issuer m0) as [i|]; [|done]. cbn [fmap option_fmap option_map] in Hi. case_decide; [done|].
    injection Hi as <-. split; [done|apply trim_end_char_idem]. }
  pose proof (ask_step _ _ _ _ _ _ _ _ _ _ _ _ _ _ _ Hbase Hpair Hc Hcw Hcu Hrw Hru Hin Hsu Hn Hi Hcons Hmay) as Hx1. cbv zeta in Hx1.
  destruct Hiss as [Hine Hiid]. rewrite Hiid, Hcid in Hx1. set (a := mk_Ask _ _ _ _ _ _ _ _ _ _ _ _) in Hx1. set (v1 := with_store _ _) in Hx1.
  assert (Hx2 := poll_step (vi_base x) m1 v1 (mo_id m0) a Hbase Hidu (lookup_insert_eq _ _ _) eq_refl eq_refl eq_refl Hans Ht1).
  set (a' := with_code a _ _) in Hx2. set (v2 := with_store v1 _) in Hx2.
  assert (Huniq : ∀ i b, os_asks (sv_store v2) !! i = Some b → redeemable (mo_code m1) b → i = mo_id m0).
  { intros i b Hb [_ Hb']. destruct (decide (i = mo_id m0)) as [->|Hne]; [done|]. exfalso. apply (Hnew i b); [|done].
    cbn in Hb. by rewrite !lookup_insert_ne in Hb. }
  assert (Hx3 := redeem_step (vi_base x) m2 v2 (mo_id m0) a' (mo_code m1) _ _ verifier granted (mo_now m1) Hbase Hku Hru Hcu Hvu
    (lookup_insert_eq _ _ _) (conj eq_refl eq_refl) Huniq Hkw Hvw Hcw Hrw eq_refl eq_refl Hp eq_refl eq_refl Ht2 Htid Hsw).
  set (t := token_for _ _ _ _) in Hx3. set (v3 := with_store v2 _) in Hx3.
  exists v1, v2, v3, (approved_redirect a (mo_code m1)), (with_last_used t now). split_and!; try done.
  - rewrite (redirect_roundtrip a _ own); try done; [by rewrite decide_False|apply Hkw|apply Hcw].
  - apply (admit_fresh _ (mo_id m2)); try done; [apply lookup_insert_eq| |].
    + intros i t' Ht' Hh. destruct (decide (i = mo_id m2)) as [->|Hne]; [done|]. exfalso. apply (Htnew i t'); [|done].
      cbn in Ht'. by rewrite lookup_insert_ne in Ht'.
    + unfold is_live_at. rewrite bool_decide_eq_true_2; [done|]. exact Ht3.
Qed.
End flow.
