(* ===== verification/Roster.v ===== *)
(** * The roster of the account feed ([src/roster.rs])

    Reading the feed's devices, carrying recently pulled peers over, merging the
    devices that share a mesh key, and the checks before the keys are registered.
    The feed's JSON, the key decoding and the clock texts are arguments. *)

From stdpp Require Import pretty.
From S2P Require Import Prelude Ordered External Toy Identity Text Words JsonValue.

Definition RECENT_PULL_GRACE : Z := 15 * 60.

(** [F] is the type of a floating-point number. *)
Record CandidatePeer {F : Type} : Type := mk_CandidatePeer {
  cp_device_id : string;
  cp_is_self : bool;
  cp_label : option string;
  cp_hardware_model : option string;
  cp_device_kind : option string;
  cp_owner : bool;
  cp_mesh_public_key_hex : option string;
  cp_owner_key_hex : option string;
  cp_endpoints : list string;
  cp_last_seen_at : option string;
  cp_chip : option string;
  cp_memory_bytes : option Z;
  cp_gpu_core_count : option Z;
  cp_tflops_fp16 : option F;
  cp_always_on : option bool;
  cp_always_on_ready : bool;
  cp_account_authenticated : bool;
}.
#[global] Arguments CandidatePeer : clear implicits.
#[global] Arguments mk_CandidatePeer {_}.
Record MeshLinkStatus : Type := mk_MeshLinkStatus {
  ml_base_url : string;
  ml_registered : bool;
  ml_last_pull_at : option Z;
  ml_applied_total : Z;
  ml_behind : Z;
}.

(** The addresses of the interfaces, or [None] when they cannot be listed; an
    interface without an IPv4 address is [None]. *)
Definition octets_loopback (o : Z * Z * Z * Z) : bool := let '(a, _, _, _) := o in (a =? 127)%Z.
Definition tailnet_endpoint (mesh_port : Z) (interface : option (Z * Z * Z * Z)) : option string :=
  '(a, b, c, d) ← interface;
  if octets_loopback (a, b, c, d) then None
  else if ((a =? 100) && (64 <=? b) && (b <? 128))%Z
  then Some ("http://" +:+ pretty a +:+ "." +:+ pretty b +:+ "." +:+ pretty c +:+ "." +:+ pretty d +:+ ":" +:+ pretty mesh_port)
  else None.
Definition local_endpoints (interfaces : option (list (option (Z * Z * Z * Z)))) (mesh_port : Z) : list string :=
  match interfaces with None => [] | Some interfaces => take 8 (omap (tailnet_endpoint mesh_port) interfaces) end.

Section roster.
Context `{Crypto} {F : Type}.
Notation Peer := (CandidatePeer F).

Definition decode_sec1 (key_hex : string) : option (barr 33) := bs ← decode_hex key_hex; vec_of_list 33 bs.
Definition candidate_device_id (key_hex : string) : option DeviceId := sec1 ← decode_sec1 key_hex; ok (device_id_from_sec1 sec1).

(** ** The feed *)

Section feed.
Context `{JsonValue, Base64, Base64Url} (v_as_f64 : Value → option F).
(** [str::to_lowercase]; the compressed point of a DER public key. *)
Context (to_lowercase : string → string) (point_of_der : bytes → option bytes).

Definition str_field (value : Value) (key : string) : option string := v ← v_get value key; v_as_str v.
Definition phone_signing_key_hex (device : Value) : option string :=
  kind ← str_field device "device_kind";
  if decide (kind ≠ "phone") then None
  else
    encoded ← str_field device "public_key";
    der ← match b64url_decode (trim_end_char "=" encoded) with Some der => Some der | None => ok (b64_decode encoded) end;
    point ← point_of_der der;
    Some (encode_hex point).
Definition bool_field (value : Value) (key : string) : option bool := v ← v_get value key; v_as_bool v.
Definition str_values (l : list Value) : list string := omap v_as_str l.
Definition u32_try_from (count : Z) : option Z := if decide (count < 2 ^ 32)%Z then Some count else None.
Definition feed_candidate (device : Value) : option Peer :=
  device_id ← str_field device "device_id";
  Some (mk_CandidatePeer device_id
    (default false (bool_field device "is_self"))
    (str_field device "label") (str_field device "hardware_model") (str_field device "device_kind")
    (default false (bool_field device "owner"))
    (to_lowercase <$> (if decide (str_field device "device_kind" ≠ Some "phone") then str_field device "mesh_public_key" else None))
    (phone_signing_key_hex device)
    (default [] (str_values <$> (v_get device "mesh_endpoints" ≫= v_as_array)))
    (str_field device "last_seen_at") (str_field device "chip")
    (v_get device "memory_bytes" ≫= v_as_u64)
    ((v_get device "gpu_core_count" ≫= v_as_u64) ≫= u32_try_from)
    (v_get device "tflops_fp16" ≫= v_as_f64)
    (bool_field device "always_on")
    (default false (bool_field device "always_on_ready"))
    true).
Definition candidates_of (devices : list Value) : list Peer := omap feed_candidate devices.
Definition feed_candidates (feed : result string Value) : result string (list Peer) :=
  feed ← map_err (λ e, "mesh network feed: " +:+ e) feed;
  devices ← ok_or (v_get feed "devices" ≫= v_as_array) "mesh network feed: missing devices array";
  Ok (candidates_of devices).
End feed.

(** ** Carrying peers over *)

Definition set_merged (c : Peer) (endpoints : list string) (always_on : option bool) (ready : bool) : Peer :=
  mk_CandidatePeer (cp_device_id c) (cp_is_self c) (cp_label c) (cp_hardware_model c) (cp_device_kind c) (cp_owner c)
    (cp_mesh_public_key_hex c) (cp_owner_key_hex c) endpoints (cp_last_seen_at c) (cp_chip c) (cp_memory_bytes c)
    (cp_gpu_core_count c) (cp_tflops_fp16 c) always_on ready (cp_account_authenticated c).
Definition carried_forward (kept : Peer) : Peer := set_merged kept (cp_endpoints kept) None (cp_always_on_ready kept).
Definition has_key (key : string) (c : Peer) : bool :=
  match cp_mesh_public_key_hex c with Some k => eq_ignore_ascii_case k key | None => false end.
Definition carry (recent_pulls : list DeviceId) (roster : list Peer) (kept : Peer) : list Peer :=
  if negb (cp_account_authenticated kept) then roster
  else
    match cp_mesh_public_key_hex kept with
    | None => roster
    | Some kept_key =>
        match candidate_device_id kept_key with
        | None => roster
        | Some kept_peer =>
            if decide (kept_peer ∉ recent_pulls) then roster
            else if existsb (has_key kept_key) roster then roster
            else
              match list_find (λ c, cp_device_id c = cp_device_id kept) roster with
              | Some (index, _) => <[index := carried_forward kept]> roster
              | None => roster ++ [carried_forward kept]
              end
        end
    end.
Definition reconcile_roster (incoming previous : list Peer) (recent_pulls : list DeviceId) : list Peer :=
  foldl (carry recent_pulls) incoming previous.

(** ** Devices that share a key *)

Definition mesh_id (c : Peer) : option DeviceId := key ← cp_mesh_public_key_hex c; candidate_device_id key.
(** [by_key.entry(mesh_id).or_default().push(index)] *)
Fixpoint entry_push (k : DeviceId) (index : nat) (groups : list (DeviceId * list nat)) : list (DeviceId * list nat) :=
  match groups with
  | [] => [(k, [index])]
  | (k', indices) :: groups => if decide (k' = k) then (k', indices ++ [index]) :: groups else (k', indices) :: entry_push k index groups
  end.
Definition enumerate {A} (l : list A) : list (nat * A) := imap pair l.
Definition by_key (candidates : list Peer) : list (DeviceId * list nat) :=
  foldl (λ groups ic, match mesh_id ic.2 with Some k => entry_push k ic.1 groups | None => groups end) [] (enumerate candidates).

Definition merge_on (a b : option bool) : option bool :=
  match a, b with
  | Some true, _ | _, Some true => Some true
  | Some false, _ | _, Some false => Some false
  | None, None => None
  end.
Definition push_new (endpoints : list string) (endpoint : string) : list string :=
  if decide (endpoint ∈ endpoints) then endpoints else endpoints ++ [endpoint].
Definition absorb_one (merged sibling : Peer) : Peer :=
  set_merged merged (foldl push_new (cp_endpoints merged) (cp_endpoints sibling))
    (merge_on (cp_always_on merged) (cp_always_on sibling)) (cp_always_on_ready merged || cp_always_on_ready sibling).
Definition absorb (candidates : list Peer) (kept : nat) (first : Peer) (indices : list nat) : Peer :=
  foldl (λ merged index,
    if decide (index = kept) then merged
    else match candidates !! index with Some sibling => absorb_one merged sibling | None => merged end) first indices.

Section merge.
(** The parsed clock texts, and the order in which a hash map's groups come. *)
Context `{Ord T} (parse_seen : string → option T) (order : list (DeviceId * list nat) → list (DeviceId * list nat)).

Definition option_cmp (a b : option T) : comparison :=
  match a, b with Some a, Some b => cmp a b | Some _, None => Gt | None, Some _ => Lt | None, None => Eq end.
Definition seen_at (candidates : list Peer) (index : nat) : option T :=
  c ← candidates !! index; s ← cp_last_seen_at c; parse_seen s.
(** [min_by_key(|index| Reverse(seen_at(index)))]: the first of the latest. *)
Fixpoint latest (candidates : list Peer) (best : nat) (indices : list nat) : nat :=
  match indices with
  | [] => best
  | index :: indices =>
      latest candidates (if decide (option_cmp (seen_at candidates index) (seen_at candidates best) = Gt) then index else best) indices
  end.
Definition self_at (candidates : list Peer) (index : nat) : bool := match candidates !! index with Some c => cp_is_self c | None => false end.
Definition kept_of (candidates : list Peer) (indices : list nat) : nat :=
  match List.find (self_at candidates) indices with
  | Some index => index
  | None => match indices with index :: rest => latest candidates index rest | [] => 0 end
  end.
Definition merge_group (candidates : list Peer) (da : list nat * gmap nat Peer) (group : DeviceId * list nat) : list nat * gmap nat Peer :=
  let indices := group.2 in
  if decide (length indices < 2) then da
  else
    let kept := kept_of candidates indices in
    (filter (λ index, index ≠ kept) indices ++ da.1,
     match candidates !! kept with Some first => <[kept := absorb candidates kept first indices]> da.2 | None => da.2 end).
Definition merge_shared_keys (candidates : list Peer) : list Peer :=
  if decide (¬ NoDup (cp_device_id <$> candidates)) then candidates
  else
    let '(dropped, absorbed) := foldl (merge_group candidates) ([], ∅) (order (by_key candidates)) in
    omap (λ ic : nat * Peer, if decide (ic.1 ∈ dropped) then None else Some (default ic.2 (absorbed !! ic.1))) (enumerate candidates).
End merge.

(** ** The checks *)

Definition feed_carries_always_on (candidates : list Peer) : bool := existsb (λ c, bool_decide (is_Some (cp_always_on c))) candidates.
Definition always_on_mesh_ids (candidates : list Peer) (own_mesh_id : string) : list string :=
  c ← filter (λ c, cp_always_on c = Some true) candidates;
  option_list (DeviceId_to_hex <$> mesh_id c) ++ (if cp_is_self c then [own_mesh_id] else []).
Fixpoint validate_keys (logical_ids : list string) (mesh_ids : list DeviceId) (keys : list (DeviceId * barr 33)) (candidates : list Peer)
    : result string (list (DeviceId * barr 33)) :=
  match candidates with
  | [] => Ok keys
  | c :: candidates =>
      if decide (trim (cp_device_id c) = "" ∨ cp_device_id c ∈ logical_ids)
      then Err ("mesh network feed has an empty or duplicate device id: " +:+ cp_device_id c)
      else
        let logical_ids := cp_device_id c :: logical_ids in
        match cp_mesh_public_key_hex c with
        | None => validate_keys logical_ids mesh_ids keys candidates
        | Some key_hex =>
            sec1 ← ok_or (decode_sec1 key_hex) ("mesh network feed has an invalid public key for " +:+ cp_device_id c);
            mesh_device_id ← map_err (λ error, "mesh network feed has an invalid curve point for " +:+ cp_device_id c +:+ ": " +:+ IdentityError_display error)
              (device_id_from_sec1 sec1);
            if decide (mesh_device_id ∈ mesh_ids)
            then Err ("mesh network feed maps more than one device to key " +:+ DeviceId_to_hex mesh_device_id)
            else validate_keys logical_ids (mesh_device_id :: mesh_ids) (keys ++ [(mesh_device_id, sec1)]) candidates
        end
  end.
Definition validate_candidate_keys (candidates : list Peer) : result string (list (DeviceId * barr 33)) := validate_keys [] [] [] candidates.
End roster.

(** ** One device per key *)

Lemma elem_of_enumerate {A} (l : list A) i x : (i, x) ∈ enumerate l ↔ l !! i = Some x.
Proof.
  unfold enumerate. rewrite elem_of_lookup_imap. split.
  - intros (j & y & [= -> ->] & Hl). done.
  - intros Hl. by exists i, x.
Qed.
Lemma NoDup_enumerate {A} (l : list A) : NoDup (enumerate l).
Proof.
  apply NoDup_alt. intros i j [k x]. unfold enumerate. rewrite !list_lookup_imap.
  destruct (l !! i), (l !! j); cbn; congruence.
Qed.
Lemma NoDup_omap {A B} (f : A → option B) l :
  NoDup l → (∀ x y b, x ∈ l → y ∈ l → f x = Some b → f y = Some b → x = y) → NoDup (omap f l).
Proof.
  intros Hnd. induction Hnd as [|x l Hx Hnd IH]; intros Hinj; cbn; [constructor|].
  assert (Hl : NoDup (omap f l)) by (apply IH; intros y z b Hy Hz; apply Hinj; by apply elem_of_cons; right).
  destruct (f x) as [b|] eqn:Hb; [|done]. constructor; [|done]. intros (y & Hy & Hyb)%list_elem_of_omap.
  apply Hx. rewrite (Hinj x y b); [done|by apply elem_of_cons; left|by apply elem_of_cons; right|done..].
Qed.

Lemma omap_omap {A B C} (f : A → option B) (g : B → option C) (l : list A) : omap g (omap f l) = omap (λ x, f x ≫= g) l.
Proof. induction l as [|x l IH]; [done|]. cbn. destruct (f x) as [b|]; cbn; [|done]. destruct (g b); by rewrite IH. Qed.

Section merged.
Context `{Crypto} {F : Type}.
Notation Peer := (CandidatePeer F).

(** The groups hold exactly the indices of each key, in order of appearance. *)
Record grouped (has : nat → DeviceId → Prop) (groups : list (DeviceId * list nat)) : Prop := {
  gr_keys : NoDup groups.*1;
  gr_in k ns : (k, ns) ∈ groups → ns ≠ [] ∧ NoDup ns ∧ ∀ i, i ∈ ns ↔ has i k;
  gr_all i k : has i k → k ∈ groups.*1;
}.
Lemma entry_push_keys k i groups k' : k' ∈ (entry_push k i groups).*1 ↔ k' = k ∨ k' ∈ groups.*1.
Proof. induction groups as [|[k0 ns] groups IH]; cbn; [set_solver|]. case_decide; cbn; set_solver. Qed.
Lemma entry_push_nodup k i groups : NoDup groups.*1 → NoDup (entry_push k i groups).*1.
Proof.
  induction groups as [|[k0 ns] groups IH]; cbn; [intros _; apply NoDup_singleton|]. intros [Hk Hnd]%NoDup_cons.
  case_decide; cbn; constructor; [done..| |by apply IH]. rewrite entry_push_keys. by intros [?|?].
Qed.
Lemma entry_push_in k i groups k' ns : NoDup groups.*1 → (k', ns) ∈ entry_push k i groups →
  (k' ≠ k ∧ (k', ns) ∈ groups) ∨ (k' = k ∧ ∃ old, ns = old ++ [i] ∧ ((k, old) ∈ groups ∨ old = [] ∧ k ∉ groups.*1)).
Proof.
  induction groups as [|[k0 ns0] groups IH]; cbn; intros Hnd.
  { intros [= -> ->]%list_elem_of_singleton. right. split; [done|]. exists []. split; [done|right; set_solver]. }
  apply NoDup_cons in Hnd as [Hk0 Hnd]. case_decide as Hk.
  - subst k0. intros [[= -> ->]|Hin]%elem_of_cons.
    + right. split; [done|]. exists ns0. split; [done|left; set_solver].
    + left. split; [|set_solver]. intros ->. apply Hk0, list_elem_of_fmap. by exists (k, ns).
  - intros [[= -> ->]|Hin]%elem_of_cons; [left; split; [done|set_solver]|].
    destruct (IH Hnd Hin) as [[Hne Hin']|(-> & old & -> & [Hold|[-> Hold]])]; [left; set_solver| |].
    + right. split; [done|]. exists old. split; [done|left; set_solver].
    + right. split; [done|]. exists []. split; [done|right; set_solver].
Qed.
Lemma grouped_push has groups k i : grouped has groups → (∀ k', ¬ has i k') →
  grouped (λ j k', has j k' ∨ j = i ∧ k' = k) (entry_push k i groups).
Proof.
  intros [Hk Hin Hall] Hnew. split; [by apply entry_push_nodup| |].
  - intros k' ns Hg. apply entry_push_in in Hg as [[Hne Hg]|(-> & old & -> & Hold)]; [| |done].
    + destruct (Hin _ _ Hg) as (Hn & Hd & Hi). split_and!; [done..|]. intros j. rewrite Hi. naive_solver.
    + assert (Hos : NoDup old ∧ ∀ j, j ∈ old ↔ has j k).
      { destruct Hold as [Hold|[-> Hold]]; [by destruct (Hin _ _ Hold) as (_ & ? & ?)|]. split; [constructor|].
        intros j. split; [by intros ?%elem_of_nil|]. intros Hj. by destruct (Hold (Hall _ _ Hj)). }
      destruct Hos as [Hd Hj]. split_and!; [by destruct old| |].
      * apply NoDup_app. split_and!; [done| |apply NoDup_singleton]. intros j Hjo%Hj ->%list_elem_of_singleton. by destruct (Hnew k).
      * intros j. rewrite elem_of_app, Hj, list_elem_of_singleton. naive_solver.
  - intros j k' [Hh|[-> ->]]; rewrite entry_push_keys; [right; by eapply Hall|by left].
Qed.
Definition has_mesh (cs : list Peer) (i : nat) (k : DeviceId) : Prop := ∃ c, cs !! i = Some c ∧ mesh_id c = Some k.
Lemma by_key_grouped cs : grouped (has_mesh cs) (by_key cs).
Proof.
  unfold by_key. induction cs as [|c cs IH] using rev_ind.
  { split; [constructor|by intros k ns ?%elem_of_nil|]. intros i k (c & Hc & _). by rewrite lookup_nil in Hc. }
  unfold enumerate. rewrite imap_app, foldl_app. cbn [imap foldl]. rewrite Nat.add_0_r. fold (enumerate cs) in *.
  assert (Hhas : ∀ i k, has_mesh (cs ++ [c]) i k ↔ has_mesh cs i k ∨ i = length cs ∧ mesh_id c = Some k).
  { intros i k. unfold has_mesh. split.
    - intros (c' & Hc & Hm). apply lookup_app_Some in Hc as [Hc|[Hge Hc]]; [left; by exists c'|].
      apply list_lookup_singleton_Some in Hc as [Hi ->]. right. split; [lia|done].
    - intros [(c' & Hc & Hm)|[-> Hm]]; [exists c'; split; [by apply lookup_app_l_Some|done]|].
      exists c. split; [|done]. rewrite lookup_app_r by lia. by rewrite Nat.sub_diag. }
  cbn [snd fst]. destruct (mesh_id c) as [k|] eqn:Hk.
  - apply (grouped_push _ _ k (length cs)) in IH.
    + destruct IH as [H1 H2 H3]. split; [done| |].
      * intros k' ns Hin. destruct (H2 _ _ Hin) as (Hn & Hd & Hi). split_and!; [done..|]. intros i. rewrite Hi, Hhas. naive_solver.
      * intros i k' Hi%Hhas. apply (H3 i). naive_solver.
    + intros k' (c' & Hc & _). apply lookup_lt_Some in Hc. lia.
  - destruct IH as [H1 H2 H3]. split; [done| |].
    + intros k' ns Hin. destruct (H2 _ _ Hin) as (Hn & Hd & Hi). split_and!; [done..|]. intros i. rewrite Hi, Hhas. naive_solver.
    + intros i k' Hi%Hhas. apply (H3 i). naive_solver.
Qed.

(** What absorbing leaves alone, and what it gathers. *)
Record gathered (first : Peer) (from : list Peer) (m : Peer) : Prop := {
  ga_id : cp_device_id m = cp_device_id first;
  ga_self : cp_is_self m = cp_is_self first;
  ga_key : cp_mesh_public_key_hex m = cp_mesh_public_key_hex first;
  ga_endpoints e : e ∈ cp_endpoints m ↔ e ∈ cp_endpoints first ∨ ∃ c, c ∈ from ∧ e ∈ cp_endpoints c;
  ga_ready : cp_always_on_ready m = true ↔ cp_always_on_ready first = true ∨ ∃ c, c ∈ from ∧ cp_always_on_ready c = true;
  ga_on : cp_always_on m = Some true ↔ cp_always_on first = Some true ∨ ∃ c, c ∈ from ∧ cp_always_on c = Some true;
}.
Lemma push_new_in es es' e : e ∈ foldl push_new es es' ↔ e ∈ es ∨ e ∈ es'.
Proof.
  revert es; induction es' as [|x es' IH]; intros es; cbn [foldl]; [set_solver|]. rewrite IH. unfold push_new. case_decide; set_solver.
Qed.
Lemma merge_on_true a b : merge_on a b = Some true ↔ a = Some true ∨ b = Some true.
Proof. destruct a as [[]|], b as [[]|]; cbn; naive_solver. Qed.
Lemma gathered_one first from m c : gathered first from m → gathered first (c :: from) (absorb_one m c).
Proof.
  intros [Hid Hself Hkey He Hr Ho]. split; cbn; [done..| | |].
  - intros e. rewrite push_new_in, He. setoid_rewrite elem_of_cons. naive_solver.
  - rewrite orb_true_iff, Hr. setoid_rewrite elem_of_cons. naive_solver.
  - rewrite merge_on_true, Ho. setoid_rewrite elem_of_cons. naive_solver.
Qed.
Lemma gathered_ext first from from' m : (∀ c, c ∈ from ↔ c ∈ from') → gathered first from m → gathered first from' m.
Proof. intros Hext [Hid Hself Hkey He Hr Ho]. split; [done..|intros e; rewrite He|rewrite Hr|rewrite Ho]; by setoid_rewrite Hext. Qed.
Lemma absorb_gathers (cs : list Peer) kept first indices :
  gathered first (omap (λ i, if decide (i = kept) then None else cs !! i) indices) (absorb cs kept first indices).
Proof.
  unfold absorb. assert (Hgen : ∀ from m, gathered first from m →
    gathered first (from ++ omap (λ i, if decide (i = kept) then None else cs !! i) indices)
      (foldl (λ merged index, if decide (index = kept) then merged
         else match cs !! index with Some sibling => absorb_one merged sibling | None => merged end) m indices)).
  { induction indices as [|i indices IH]; intros from m Hm; cbn; [by rewrite app_nil_r|].
    destruct (decide (i = kept)); [by apply IH|]. destruct (cs !! i) as [c|]; [|by apply IH].
    eapply gathered_ext; [|apply (IH (c :: from)), gathered_one, Hm]. intros c'. rewrite !elem_of_app, !elem_of_cons. tauto. }
  apply (Hgen []). split; try done; [intros e|..]; split; try (by left); intros [?|(c & []%elem_of_nil & _)]; done.
Qed.

Context `{Ord T} (parse_seen : string → option T) (order : list (DeviceId * list nat) → list (DeviceId * list nat)).
Context (order_perm : ∀ groups, order groups ≡ₚ groups).

Lemma latest_in (cs : list Peer) best indices : latest parse_seen cs best indices ∈ best :: indices.
Proof.
  revert best; induction indices as [|i indices IH]; intros best; cbn [latest]; [by apply elem_of_cons; left|].
  specialize (IH (if decide (option_cmp (seen_at parse_seen cs i) (seen_at parse_seen cs best) = Gt) then i else best)).
  case_decide; rewrite !elem_of_cons in *; tauto.
Qed.
Lemma kept_of_in (cs : list Peer) indices : indices ≠ [] → kept_of parse_seen cs indices ∈ indices.
Proof.
  unfold kept_of. destruct (List.find _ indices) as [i|] eqn:Hf; [intros _; by apply find_some in Hf as [?%list_elem_of_In _]|].
  destruct indices as [|i indices]; [done|]. intros _. apply latest_in.
Qed.
Lemma kept_of_self (cs : list Peer) indices i : i ∈ indices → self_at cs i = true → self_at cs (kept_of parse_seen cs indices) = true.
Proof.
  intros Hi Hs. unfold kept_of. destruct (List.find _ indices) as [j|] eqn:Hf; [by apply find_some in Hf as [_ ?]|].
  apply list_elem_of_In in Hi. apply (find_none _ _ Hf) in Hi. congruence.
Qed.

(** What the loop over the groups drops and absorbs. *)
Definition shares (cs : list Peer) (groups : list (DeviceId * list nat)) (i kept : nat) (ns : list nat) : Prop :=
  ∃ k, (k, ns) ∈ groups ∧ 2 ≤ length ns ∧ i ∈ ns ∧ kept = kept_of parse_seen cs ns.
Lemma merge_fold (cs : list Peer) groups d a :
  let r := foldl (merge_group parse_seen cs) (d, a) groups in
  (∀ i, i ∈ r.1 ↔ i ∈ d ∨ ∃ kept ns, shares cs groups i kept ns ∧ i ≠ kept) ∧
  (∀ i m, r.2 !! i = Some m → a !! i = Some m ∨ ∃ ns first, shares cs groups i i ns ∧ cs !! i = Some first ∧ m = absorb cs i first ns) ∧
  (∀ i, (is_Some (a !! i) ∨ ∃ ns, shares cs groups i i ns ∧ is_Some (cs !! i)) → is_Some (r.2 !! i)).
Proof.
  revert d a; induction groups as [|[k ns] groups IH]; intros d a; cbn [foldl].
  { split_and!; [intros i|intros i m Hm; by left|intros i [Hi|(ns & (k & Hin & _) & _)]; [done|by apply elem_of_nil in Hin]].
    split; [by left|]. intros [Hi|(kept & ns & (k & Hin & _) & _)]; [done|by apply elem_of_nil in Hin]. }
  assert (Hcons : ∀ i kept ns', shares cs ((k, ns) :: groups) i kept ns' ↔
    shares cs groups i kept ns' ∨ ns' = ns ∧ 2 ≤ length ns ∧ i ∈ ns ∧ kept = kept_of parse_seen cs ns).
  { intros i kept ns'. unfold shares. setoid_rewrite elem_of_cons. naive_solver. }
  unfold merge_group at 2 4 6. cbn [snd fst]. case_decide as Hlen.
  - destruct (IH d a) as (H1 & H2 & H3). split_and!.
    + intros i. rewrite H1. setoid_rewrite Hcons. naive_solver lia.
    + intros i m Hm. destruct (H2 i m Hm) as [?|(ns' & first & Hs & Hc & ->)]; [by left|]. right. exists ns', first. rewrite Hcons. auto.
    + intros i Hi. apply H3. setoid_rewrite Hcons in Hi. naive_solver lia.
  - set (kept := kept_of parse_seen cs ns). set (a' := match cs !! kept with Some first => _ | None => _ end).
    destruct (IH (filter (λ index, index ≠ kept) ns ++ d) a') as (H1 & H2 & H3). split_and!.
    + intros i. rewrite H1. setoid_rewrite Hcons. rewrite elem_of_app, list_elem_of_filter. split.
      * intros [[[Hne Hi]|Hi]|(kept' & ns' & Hs & Hne)]; [|by left|right; exists kept', ns'; auto].
        right. exists kept, ns. split; [right|done]. split_and!; [done|lia|done..].
      * intros [Hi|(kept' & ns' & [Hs|(-> & _ & Hi & ->)] & Hne)]; [left; by right| |left; left; done]. right. by exists kept', ns'.
    + intros i m Hm. destruct (H2 i m Hm) as [Ha|(ns' & first & Hs & Hc & ->)].
      * subst a'. destruct (cs !! kept) as [first|] eqn:Hc; [|by left]. destruct (decide (i = kept)) as [->|Hne].
        -- rewrite lookup_insert_eq in Ha. injection Ha as <-. right. exists ns, first. split; [|done]. apply Hcons. right.
           split_and!; [done|lia| |done]. apply kept_of_in. intros ->. cbn in Hlen. lia.
        -- rewrite lookup_insert_ne in Ha by done. by left.
      * right. exists ns', first. rewrite Hcons. auto.
    + intros i Hi. apply H3. setoid_rewrite Hcons in Hi. destruct Hi as [Hi|(ns' & [Hs|(-> & _ & _ & ->)] & Hc)].
      * left. subst a'. destruct (cs !! kept); [|done]. destruct (decide (i = kept)) as [->|]; [by rewrite lookup_insert_eq|by rewrite lookup_insert_ne].
      * right. by exists ns'.
      * left. subst a'. fold kept in Hc |- *. destruct Hc as [first Hc]. rewrite Hc. by rewrite lookup_insert_eq.
Qed.

Definition survives (cs : list Peer) : list nat * gmap nat Peer → nat * Peer → option Peer :=
  λ da ic, if decide (ic.1 ∈ da.1) then None else Some (default ic.2 (da.2 !! ic.1)).
Definition siblings (cs : list Peer) (kept : nat) (ns : list nat) : list Peer :=
  omap (λ i, if decide (i = kept) then None else cs !! i) ns.
Lemma gathered_self (c : Peer) : gathered c [] c.
Proof. split; try done; [intros e|..]; split; try (by left); intros [?|(c' & []%elem_of_nil & _)]; done. Qed.
Lemma fate (cs : list Peer) i c :
  let r := foldl (merge_group parse_seen cs) ([], ∅) (order (by_key cs)) in
  cs !! i = Some c →
  match mesh_id c with
  | None => survives cs r (i, c) = Some c
  | Some k => ∃ ns, (k, ns) ∈ by_key cs ∧ i ∈ ns ∧
      ((i ≠ kept_of parse_seen cs ns ∧ survives cs r (i, c) = None) ∨
       (i = kept_of parse_seen cs ns ∧ ∃ m, survives cs r (i, c) = Some m ∧ gathered c (siblings cs i ns) m))
  end.
Proof.
  intros r Hc. destruct (by_key_grouped cs) as [Hnd Hin Hall]. destruct (merge_fold cs (order (by_key cs)) [] ∅) as (H1 & H2 & H3).
  fold r in H1, H2, H3.
  assert (Hshare : ∀ kept ns, shares cs (order (by_key cs)) i kept ns → ∃ k, mesh_id c = Some k ∧ (k, ns) ∈ by_key cs ∧ 2 ≤ length ns ∧ kept = kept_of parse_seen cs ns).
  { intros kept ns (k & Hg & Hl & Hi & ->). rewrite order_perm in Hg. exists k. split_and!; [|done..].
    destruct (Hin _ _ Hg) as (_ & _ & Hiff). apply Hiff in Hi as (c' & Hc' & Hm). congruence. }
  unfold survives. cbn [fst snd]. destruct (mesh_id c) as [k|] eqn:Hk.
  - assert (Hh : has_mesh cs i k) by (by exists c). pose proof (Hall _ _ Hh) as ([k' ns] & [= <-] & Hg)%list_elem_of_fmap.
    destruct (Hin _ _ Hg) as (Hne & Hndn & Hiff). exists ns. split_and!; [done|by apply Hiff|].
    assert (Hsame : ∀ kept ns', shares cs (order (by_key cs)) i kept ns' → ns' = ns).
    { intros kept ns' (k' & [= <-] & Hg' & _ & _)%Hshare. clear -Hg Hg' Hnd. apply list_elem_of_lookup in Hg as [a Ha], Hg' as [b Hb].
      assert (a = b) as ->; [|congruence]. eapply (NoDup_lookup _ _ _ k Hnd); rewrite list_lookup_fmap; [by rewrite Ha|by rewrite Hb]. }
    destruct (decide (i = kept_of parse_seen cs ns)) as [Hkept|Hkept].
    + right. split; [done|]. rewrite decide_False.
      2:{ rewrite H1. intros [[]%elem_of_nil|(kept & ns' & Hs & Hi)]. rewrite (Hsame _ _ Hs) in Hs. destruct Hs as (? & _ & _ & _ & ->). done. }
      destruct (r.2 !! i) as [m|] eqn:Hr.
      * exists m. split; [done|]. destruct (H2 i m Hr) as [Hx|(ns' & first & Hs & Hc' & ->)]; [by rewrite lookup_empty in Hx|].
        rewrite (Hsame _ _ Hs). replace first with c by congruence. apply absorb_gathers.
      * exists c. split; [done|]. assert (Hone : length ns < 2).
        { destruct (decide (length ns < 2)); [done|]. destruct (H3 i) as [m Hm]; [|congruence]. right. exists ns. split; [|done].
          exists k. rewrite order_perm. split_and!; [done|lia|by apply Hiff|done]. }
        destruct ns as [|j [|j' ns]]; [done| |cbn in Hone; lia]. apply Hiff, list_elem_of_singleton in Hh as ->.
        unfold siblings. cbn. rewrite decide_True by done. apply gathered_self.
    + left. split; [done|]. rewrite decide_True; [done|]. apply H1. right. exists (kept_of parse_seen cs ns), ns. split; [|done].
      exists k. rewrite order_perm. split_and!; [done| |by apply Hiff|done].
      destruct ns as [|j [|j' ns]]; [done| |cbn; lia]. exfalso. apply Hkept. apply Hiff, list_elem_of_singleton in Hh as ->.
      symmetry. by apply list_elem_of_singleton, (kept_of_in cs [j]).
  - rewrite decide_False.
    2:{ rewrite H1. intros [[]%elem_of_nil|(kept & ns & (k & [=] & _)%Hshare & _)]. }
    destruct (r.2 !! i) as [m|] eqn:Hr; [|done]. destruct (H2 i m Hr) as [Hx|(ns & first & (k & [=] & _)%Hshare & _)]. by rewrite lookup_empty in Hx.
Qed.

Lemma merge_survivors (cs : list Peer) : NoDup (cp_device_id <$> cs) →
  merge_shared_keys parse_seen order cs = omap (survives cs (foldl (merge_group parse_seen cs) ([], ∅) (order (by_key cs)))) (enumerate cs).
Proof. intros Hnd. unfold merge_shared_keys, survives. rewrite decide_False by tauto. by destruct (foldl _ _ _) as [d a]. Qed.
Lemma siblings_in (cs : list Peer) kept k ns c : (k, ns) ∈ by_key cs → kept ∈ ns →
  (c ∈ siblings cs kept ns ∨ cs !! kept = Some c) ↔ c ∈ cs ∧ mesh_id c = Some k.
Proof.
  intros Hg Hkept. destruct (by_key_grouped cs) as [_ Hin _]. destruct (Hin _ _ Hg) as (_ & _ & Hiff). unfold siblings. split.
  - intros [(i & Hi & Hc)%list_elem_of_omap|Hc].
    + case_decide; [done|]. apply Hiff in Hi as (c' & Hc' & Hm). replace c' with c in * by congruence. split; [by eapply list_elem_of_lookup_2|done].
    + apply Hiff in Hkept as (c' & Hc' & Hm). replace c' with c in * by congruence. split; [by eapply list_elem_of_lookup_2|done].
  - intros [[i Hi]%list_elem_of_lookup Hm]. assert (Hns : i ∈ ns) by (apply Hiff; by exists c).
    destruct (decide (i = kept)) as [->|Hne]; [by right|]. left. apply list_elem_of_omap. exists i. by rewrite decide_False.
Qed.
Lemma group_unique (cs : list Peer) k ns ns' : (k, ns) ∈ by_key cs → (k, ns') ∈ by_key cs → ns' = ns.
Proof.
  destruct (by_key_grouped cs) as [Hnd _ _]. intros [a Ha]%list_elem_of_lookup [b Hb]%list_elem_of_lookup.
  assert (a = b) as ->; [|congruence]. eapply (NoDup_lookup _ _ _ k Hnd); rewrite list_lookup_fmap; [by rewrite Ha|by rewrite Hb].
Qed.
Lemma mesh_id_key (c c' : Peer) : cp_mesh_public_key_hex c = cp_mesh_public_key_hex c' → mesh_id c = mesh_id c'.
Proof. unfold mesh_id. by intros ->. Qed.

Lemma survivors_nodup (cs : list Peer) :
  NoDup (omap mesh_id (omap (survives cs (foldl (merge_group parse_seen cs) ([], ∅) (order (by_key cs)))) (enumerate cs))).
Proof.
  set (r := foldl _ _ _). rewrite omap_omap. apply NoDup_omap; [apply NoDup_enumerate|].
  intros [i c] [j d] k Hi%elem_of_enumerate Hj%elem_of_enumerate Hci Hdj.
  assert (Hone : ∀ i c, cs !! i = Some c → survives cs r (i, c) ≫= mesh_id = Some k → ∃ ns, (k, ns) ∈ by_key cs ∧ i = kept_of parse_seen cs ns).
  { clear -order_perm. intros i c Hc Hk. pose proof (fate cs i c Hc) as Hf. fold r in Hf.
    destruct (mesh_id c) as [k'|] eqn:Hm; [|rewrite Hf in Hk; cbn in Hk; congruence].
    destruct Hf as (ns & Hg & _ & [[_ Hs]|(-> & m & Hs & Hga)]); rewrite Hs in Hk; [done|]. cbn in Hk.
    rewrite (mesh_id_key _ _ (ga_key _ _ _ Hga)), Hm in Hk. injection Hk as ->. by exists ns. }
  destruct (Hone _ _ Hi Hci) as (ns & Hg & ->), (Hone _ _ Hj Hdj) as (ns' & Hg' & ->). rewrite (group_unique _ _ _ _ Hg Hg') in *. congruence.
Qed.
(** The survivor of a key, and the devices it gathers. *)
Lemma survivor_of (cs : list Peer) i c k :
  cs !! i = Some c → mesh_id c = Some k →
  ∃ ns kept first m, (k, ns) ∈ by_key cs ∧ i ∈ ns ∧ kept = kept_of parse_seen cs ns ∧ kept ∈ ns ∧ cs !! kept = Some first ∧ mesh_id first = Some k ∧
    survives cs (foldl (merge_group parse_seen cs) ([], ∅) (order (by_key cs))) (kept, first) = Some m ∧ gathered first (siblings cs kept ns) m.
Proof.
  intros Hi Hm. pose proof (fate cs i c Hi) as Hf. rewrite Hm in Hf. destruct Hf as (ns & Hg & Hin & _).
  set (kept := kept_of parse_seen cs ns). assert (Hkin : kept ∈ ns) by (apply kept_of_in; intros ->; by apply elem_of_nil in Hin).
  destruct (by_key_grouped cs) as [_ Hgin _]. destruct (Hgin _ _ Hg) as (_ & _ & Hiff). pose proof Hkin as (first & Hfirst & Hfm)%Hiff.
  pose proof (fate cs kept first Hfirst) as Hf. rewrite Hfm in Hf. destruct Hf as (ns' & Hg' & _ & Hf).
  rewrite (group_unique _ _ _ _ Hg Hg') in Hf. destruct Hf as [[Hne _]|(_ & m & Hs & Hga)]; [done|]. by exists ns, kept, first, m.
Qed.

(** C19: devices that share a mesh key become one.  In a feed whose device ids
    are distinct, the merged roster has each mesh key once; every key of the feed
    is still there, under one of the devices that had it (this device when it is
    among them), with every endpoint of them all and always on when any of them is;
    and a device without a key is kept as it is. *)
Theorem merge_one_per_key (cs : list Peer) :
  NoDup (cp_device_id <$> cs) →
  let merged := merge_shared_keys parse_seen order cs in
  NoDup (omap mesh_id merged) ∧
  (∀ c, c ∈ cs → mesh_id c = None → c ∈ merged) ∧
  (∀ c k, c ∈ cs → mesh_id c = Some k → ∃ m first, m ∈ merged ∧ mesh_id m = Some k ∧
     first ∈ cs ∧ mesh_id first = Some k ∧ cp_device_id m = cp_device_id first ∧ (cp_is_self c = true → cp_is_self m = true) ∧
     (∀ e, e ∈ cp_endpoints m ↔ ∃ d, d ∈ cs ∧ mesh_id d = Some k ∧ e ∈ cp_endpoints d) ∧
     (cp_always_on m = Some true ↔ ∃ d, d ∈ cs ∧ mesh_id d = Some k ∧ cp_always_on d = Some true)).
Proof.
  intros Hnd merged. subst merged. rewrite merge_survivors by done. split_and!; [apply survivors_nodup| |].
  - intros c [i Hi]%list_elem_of_lookup Hm. apply list_elem_of_omap. exists (i, c). split; [by apply elem_of_enumerate|].
    pose proof (fate cs i c Hi) as Hf. by rewrite Hm in Hf.
  - intros c k [i Hi]%list_elem_of_lookup Hm. destruct (survivor_of cs i c k Hi Hm) as (ns & kept & first & m & Hg & Hin & Hkept & Hkin & Hfirst & Hfm & Hs & Hga).
    exists m, first.
    assert (Hsib : ∀ (P : Peer → Prop), (P first ∨ ∃ d, d ∈ siblings cs kept ns ∧ P d) ↔ ∃ d, d ∈ cs ∧ mesh_id d = Some k ∧ P d).
    { intros P. split.
      - intros [HP|(d & Hd & HP)]; [exists first|exists d]; (apply and_assoc; split; [|done]); apply (siblings_in cs kept k ns); auto.
      - intros (d & Hd & Hdk & HP). destruct (proj2 (siblings_in cs kept k ns d Hg Hkin) (conj Hd Hdk)) as [Hx|Hx]; [right; by exists d|].
        left. by replace first with d by congruence. }
    split_and!; [| |by eapply list_elem_of_lookup_2|done|apply (ga_id _ _ _ Hga)| | |].
    + apply list_elem_of_omap. exists (kept, first). split; [by apply elem_of_enumerate|done].
    + rewrite <-Hfm. apply mesh_id_key, (ga_key _ _ _ Hga).
    + intros Hself. rewrite (ga_self _ _ _ Hga). assert (Hk : self_at cs kept = true).
      { rewrite Hkept. apply (kept_of_self cs ns i); [done|]. unfold self_at. by rewrite Hi. }
      unfold self_at in Hk. by rewrite Hfirst in Hk.
    + intros e. rewrite (ga_endpoints _ _ _ Hga). apply (Hsib (λ d, e ∈ cp_endpoints d)).
    + rewrite (ga_on _ _ _ Hga). apply (Hsib (λ d, cp_always_on d = Some true)).
Qed.
End merged.

(** ** The checks pass *)

Section validated.
Context `{Crypto} {F : Type}.
Notation Peer := (CandidatePeer F).

Lemma validate_keys_ok (cs : list Peer) lids mids keys :
  NoDup (cp_device_id <$> cs) → NoDup (omap mesh_id cs) → (∀ k, k ∈ omap mesh_id cs → k ∉ mids) →
  (∀ c, c ∈ cs → trim (cp_device_id c) ≠ "" ∧ cp_device_id c ∉ lids ∧ (is_Some (cp_mesh_public_key_hex c) → is_Some (mesh_id c))) →
  ∃ out, validate_keys lids mids keys cs = Ok out ∧ out.*1 = keys.*1 ++ omap mesh_id cs.
Proof.
  revert lids mids keys; induction cs as [|c cs IH]; intros lids mids keys Hids Hmesh Hmids Hcs; cbn [validate_keys].
  { exists keys. by rewrite app_nil_r. }
  cbn in Hids. apply NoDup_cons in Hids as [Hid Hids]. destruct (Hcs c) as (Hblank & Hl & Hkey); [by apply elem_of_cons; left|].
  rewrite decide_False by tauto.
  assert (Hrest : ∀ d, d ∈ cs → trim (cp_device_id d) ≠ "" ∧ cp_device_id d ∉ cp_device_id c :: lids ∧ (is_Some (cp_mesh_public_key_hex d) → is_Some (mesh_id d))).
  { intros d Hd. destruct (Hcs d) as (Hb & Hn & Hk); [by apply elem_of_cons; right|]. split_and!; [done| |done].
    apply not_elem_of_cons. split; [|done]. intros He. apply Hid. rewrite <-He. by apply list_elem_of_fmap_2. }
  cbn [omap list_omap] in Hmesh, Hmids |- *. destruct (cp_mesh_public_key_hex c) as [key|] eqn:Hk.
  - destruct Hkey as [k Hm]; [by eexists|]. rewrite Hm in Hmesh, Hmids |- *. unfold mesh_id in Hm. rewrite Hk in Hm. cbn in Hm.
    unfold candidate_device_id in Hm. destruct (decode_sec1 key) as [sec1|]; [|done]. cbn [mbind option_bind] in Hm.
    assert (Hsec : device_id_from_sec1 sec1 = Ok k) by (destruct (device_id_from_sec1 sec1); [by injection Hm as ->|done]).
    cbn [ok_or mbind result_bind]. rewrite Hsec. cbn [map_err mbind result_bind].
    apply NoDup_cons in Hmesh as [Hkin Hmesh].
    rewrite decide_False by (apply Hmids; by apply elem_of_cons; left).
    destruct (IH (cp_device_id c :: lids) (k :: mids) (keys ++ [(k, sec1)])) as (out & Hout & Heq); [done..| |done|].
    + intros k' Hk'. apply not_elem_of_cons. split; [|apply Hmids; by apply elem_of_cons; right]. intros ->. done.
    + exists out. split; [done|]. rewrite Heq, fmap_app, <-app_assoc. done.
  - assert (Hm : mesh_id c = None) by (unfold mesh_id; by rewrite Hk). rewrite Hm in Hmesh, Hmids |- *. by apply IH.
Qed.

Context `{Ord T} (parse_seen : string → option T) (order : list (DeviceId * list nat) → list (DeviceId * list nat)).
Context (order_perm : ∀ groups, order groups ≡ₚ groups).

Lemma survivor_id (cs : list Peer) i c m :
  cs !! i = Some c → survives cs (foldl (merge_group parse_seen cs) ([], ∅) (order (by_key cs))) (i, c) = Some m →
  cp_device_id m = cp_device_id c ∧ cp_mesh_public_key_hex m = cp_mesh_public_key_hex c.
Proof.
  intros Hc Hs. pose proof (fate parse_seen order order_perm cs i c Hc) as Hf. destruct (mesh_id c); [|by replace m with c by congruence].
  destruct Hf as (ns & _ & _ & [[_ Hn]|(_ & m' & Hs' & Hga)]); [congruence|]. replace m with m' by congruence.
  split; [apply (ga_id _ _ _ Hga)|apply (ga_key _ _ _ Hga)].
Qed.

(** A feed with distinct, non-blank device ids whose keys are all points of the
    curve passes the checks once it is merged, whatever keys its devices share, and
    each key is registered once. *)
Lemma merged_feed_validates (cs : list Peer) :
  NoDup (cp_device_id <$> cs) →
  (∀ c, c ∈ cs → trim (cp_device_id c) ≠ "" ∧ (is_Some (cp_mesh_public_key_hex c) → is_Some (mesh_id c))) →
  ∃ keys, validate_candidate_keys (merge_shared_keys parse_seen order cs) = Ok keys ∧ NoDup keys.*1 ∧
    ∀ k, k ∈ keys.*1 ↔ ∃ c, c ∈ cs ∧ mesh_id c = Some k.
Proof.
  intros Hids Hcs. rewrite merge_survivors by done. pose proof (survivors_nodup parse_seen order order_perm cs) as Hnd.
  set (merged := omap _ (enumerate cs)) in *.
  assert (Hfrom : ∀ m, m ∈ merged → ∃ i c, cs !! i = Some c ∧ cp_device_id m = cp_device_id c ∧ cp_mesh_public_key_hex m = cp_mesh_public_key_hex c).
  { intros m ([i c] & Hin%elem_of_enumerate & Hs)%list_elem_of_omap. exists i, c. split; [done|]. by apply (survivor_id cs i). }
  destruct (validate_keys_ok merged [] [] []) as (keys & Hkeys & Heq); [|done|by intros k _ ?%elem_of_nil| |].
  - unfold merged. clear -Hids order_perm. assert (Hsub : ∀ l, (∀ i c, (i, c) ∈ l → cs !! i = Some c) → NoDup (cp_device_id ∘ snd <$> l) →
      NoDup (cp_device_id <$> omap (survives cs (foldl (merge_group parse_seen cs) ([], ∅) (order (by_key cs)))) l)).
    { induction l as [|[i c] l IH]; intros Hl Hn; cbn; [constructor|]. apply NoDup_cons in Hn as [Hx Hn].
      assert (Hl' : ∀ i c, (i, c) ∈ l → cs !! i = Some c) by (intros j d Hj; apply Hl; by apply elem_of_cons; right).
      destruct (survives _ _ (i, c)) as [m|] eqn:Hs; [|by apply IH]. cbn. constructor; [|by apply IH].
      apply (survivor_id cs i) in Hs as [-> _]; [|apply Hl; by apply elem_of_cons; left].
      intros (m' & Heq & ([j d] & Hj & Hsj)%list_elem_of_omap)%list_elem_of_fmap. apply Hx, list_elem_of_fmap. exists (j, d). split; [|done].
      apply (survivor_id cs j) in Hsj as [Hsj _]; [|by apply Hl']. cbn. congruence. }
    apply Hsub; [intros i c; apply elem_of_enumerate|]. unfold enumerate. replace (cp_device_id ∘ snd <$> imap pair cs) with (cp_device_id <$> cs); [done|].
    rewrite fmap_imap. rewrite <-imap_const. apply imap_ext. done.
  - intros m (i & c & Hc%list_elem_of_lookup_2 & Hid & Hk)%Hfrom. destruct (Hcs c Hc) as [Hb Hm]. rewrite Hid, Hk, (mesh_id_key m c Hk). split_and!; [done|by intros ?%elem_of_nil|done].
  - exists keys. split; [done|]. cbn in Heq. rewrite Heq. split; [done|]. intros k. split.
    + intros (m & (i & c & Hc%list_elem_of_lookup_2 & _ & Hk)%Hfrom & Hm)%list_elem_of_omap. exists c. split; [done|]. by rewrite <-(mesh_id_key m c Hk).
    + intros (c & [i Hi]%list_elem_of_lookup & Hm). destruct (survivor_of parse_seen order order_perm cs i c k Hi Hm) as (ns & kept & first & m & _ & _ & _ & _ & Hfirst & Hfm & Hs & Hga).
      apply list_elem_of_omap. exists m. split; [|rewrite <-Hfm; apply mesh_id_key, (ga_key _ _ _ Hga)].
      apply list_elem_of_omap. exists (kept, first). split; [by apply elem_of_enumerate|done].
Qed.
End validated.

(** ** Recently pulled peers stay *)

Section reconciled.
Context `{Crypto} {F : Type}.
Notation Peer := (CandidatePeer F).
Context (recent : list DeviceId).

Definition same_key (a b : Peer) : Prop := ∃ k l, cp_mesh_public_key_hex a = Some k ∧ cp_mesh_public_key_hex b = Some l ∧ eq_ignore_ascii_case k l = true.
Definition carried (p : Peer) : Prop := cp_account_authenticated p = true ∧ ∃ k, mesh_id p = Some k ∧ k ∈ recent.
Definition holds (p : Peer) (roster : list Peer) : Prop := ∃ c, c ∈ roster ∧ same_key c p.

Lemma same_key_trans a b c : same_key a b → same_key b c → same_key a c.
Proof.
  intros (k & l & Ha & Hb & Hkl) (l' & m & Hb' & Hc & Hlm). exists k, m. split_and!; [done..|]. replace l' with l in * by congruence.
  unfold eq_ignore_ascii_case in *. rewrite bool_decide_eq_true in *. congruence.
Qed.
Lemma same_key_sym a b : same_key a b → same_key b a.
Proof. intros (k & l & Ha & Hb & Hkl). exists l, k. split_and!; [done..|]. unfold eq_ignore_ascii_case in *. rewrite bool_decide_eq_true in *. congruence. Qed.
Lemma carried_same p : carried p → same_key (carried_forward p) p.
Proof.
  intros (_ & k & Hm & _). unfold mesh_id in Hm. destruct (cp_mesh_public_key_hex p) as [key|] eqn:Hk; [|done]. exists key, key. split_and!; [done..|].
  by apply bool_decide_eq_true.
Qed.
(** One step: nothing, a replacement of a device whose key was missing, or an addition. *)
Lemma carry_cases roster (p : Peer) :
  carry recent roster p = roster ∧ (carried p → holds p roster) ∨
  carried p ∧ ¬ holds p roster ∧
    ((∃ i c, roster !! i = Some c ∧ cp_device_id c = cp_device_id p ∧ carry recent roster p = <[i := carried_forward p]> roster) ∨
     cp_device_id p ∉ (cp_device_id <$> roster) ∧ carry recent roster p = roster ++ [carried_forward p]).
Proof.
  unfold carry, carried, mesh_id. destruct (cp_account_authenticated p) eqn:Ha; cbn [negb]; [|left; split; [done|by intros [? _]]].
  destruct (cp_mesh_public_key_hex p) as [key|] eqn:Hk; [|left; split; [done|by intros (_ & k & [=] & _)]]. cbn [mbind option_bind].
  destruct (candidate_device_id key) as [k|] eqn:Hid; [|left; split; [done|by intros (_ & k & [=] & _)]].
  case_decide as Hin; [left; split; [done|]; intros (_ & k' & [= <-] & ?); done|].
  assert (Hholds : existsb (has_key key) roster = true ↔ holds p roster).
  { rewrite existsb_exists. unfold holds, same_key, has_key. setoid_rewrite <-list_elem_of_In. split.
    - intros (c & Hc & Hx). destruct (cp_mesh_public_key_hex c) as [k'|] eqn:Hck; [|done]. exists c. split; [done|]. by exists k', key.
    - intros (c & Hc & k' & l & Hck & Hl & Hx). exists c. split; [done|]. rewrite Hck. replace key with l by congruence. done. }
  destruct (existsb (has_key key) roster); [left; split; [done|]; intros _; by apply Hholds|].
  right. split; [split; [done|]; exists k; split; [done|]; exact Hin|].
  split; [intros ?%Hholds; done|].
  destruct (list_find _ roster) as [[i c]|] eqn:Hf.
  - left. apply list_find_Some in Hf as (Hi & Hc & _). by exists i, c.
  - right. split; [|done]. apply list_find_None in Hf. intros (c & Hc & Hin')%list_elem_of_fmap. rewrite Forall_forall in Hf. by apply (Hf c).
Qed.

Context (incoming previous : list Peer).
(** Distinct ids in the previous roster, and a key belongs to one device. *)
Context (previous_ids : NoDup (cp_device_id <$> previous)).
Context (key_owner : ∀ a b, (a ∈ incoming ∨ a ∈ previous) → b ∈ previous → same_key a b → cp_device_id a = cp_device_id b).
Definition known_peer (c : Peer) : Prop := c ∈ incoming ∨ ∃ p, p ∈ previous ∧ c = carried_forward p.

Lemma carry_known roster p : p ∈ previous → Forall known_peer roster → Forall known_peer (carry recent roster p).
Proof.
  intros Hp Hr. assert (Hnew : known_peer (carried_forward p)) by (right; by exists p).
  destruct (carry_cases roster p) as [[-> _]|(_ & _ & [(i & c & _ & _ & ->)|[_ ->]])]; [done|by apply Forall_insert|].
  apply Forall_app. split; [done|by constructor].
Qed.
Lemma known_owner c p : known_peer c → p ∈ previous → same_key c p → cp_device_id c = cp_device_id p.
Proof.
  intros [Hc|(q & Hq & ->)] Hp Hs; [by apply key_owner; [left|..]|]. change (cp_device_id (carried_forward q)) with (cp_device_id q).
  apply key_owner; [by right|done|]. exact Hs.
Qed.
Lemma carry_holds roster p q : p ∈ previous → q ∈ previous → Forall known_peer roster → holds q roster → holds q (carry recent roster p).
Proof.
  intros Hp Hq Hr (c & Hc & Hs). destruct (carry_cases roster p) as [[-> _]|(Hcar & Hno & [(i & d & Hd & Hid & ->)|[_ ->]])]; [by exists c| |].
  - apply list_elem_of_lookup in Hc as [j Hj]. destruct (decide (j = i)) as [->|Hne].
    + replace d with c in * by congruence. exfalso. apply Hno. assert (cp_device_id c = cp_device_id q) as Hcq.
      { apply known_owner; [|done..]. rewrite Forall_lookup in Hr. by eapply Hr. }
      assert (p = q) as ->; [|exists c; split; [by eapply list_elem_of_lookup_2|done]].
      apply list_elem_of_lookup in Hp as [a Ha], Hq as [b Hb]. assert (a = b) as ->; [|congruence].
      eapply (NoDup_lookup _ _ _ (cp_device_id c) previous_ids); rewrite list_lookup_fmap; [by rewrite Ha; cbn; rewrite Hid|by rewrite Hb; cbn; rewrite Hcq].
    + exists c. split; [|done]. apply list_elem_of_lookup. exists j. by rewrite list_lookup_insert_ne.
  - exists c. split; [|done]. apply elem_of_app. by left.
Qed.
Lemma carry_takes roster p : carried p → holds p (carry recent roster p).
Proof.
  intros Hcar. destruct (carry_cases roster p) as [[-> Hh]|(_ & _ & [(i & d & Hd & _ & ->)|[_ ->]])]; [by apply Hh| |].
  - exists (carried_forward p). split; [|by apply carried_same]. apply list_elem_of_lookup. exists i. apply list_lookup_insert_eq.
    by eapply lookup_lt_Some.
  - exists (carried_forward p). split; [|by apply carried_same]. apply elem_of_app. right. by apply list_elem_of_singleton.
Qed.

(** C25: a peer that was pulled from within the grace window stays.  When a key
    belongs to one device, every authenticated device of the previous roster whose
    key was pulled recently has its key in the reconciled roster, whatever the
    feed now says of it. *)
Theorem recent_peers_stay p :
  p ∈ previous → carried p → holds p (reconcile_roster incoming previous recent).
Proof.
  intros Hp Hcar. unfold reconcile_roster. assert (Hgen : ∀ todo roster, (∀ q, q ∈ todo → q ∈ previous) → Forall known_peer roster →
    (p ∈ todo ∨ holds p roster) → holds p (foldl (carry recent) roster todo)).
  { induction todo as [|q todo IH]; intros roster Htodo Hr Hor; cbn [foldl]; [destruct Hor as [?%elem_of_nil|?]; done|].
    assert (Hq : q ∈ previous) by (apply Htodo; by apply elem_of_cons; left).
    apply IH; [intros q' Hq'; apply Htodo; by apply elem_of_cons; right|by apply carry_known|].
    destruct Hor as [[->|Hin]%elem_of_cons|Hh]; [right; by apply carry_takes|by left|right; by apply carry_holds]. }
  apply Hgen; [done| |by left]. apply Forall_forall. intros c Hc. by left.
Qed.
End reconciled.

Module RosterToy.
Import Toy.
Definition peer (id : string) (self : bool) (key : option string) (endpoints : list string) (seen : string) : CandidatePeer () :=
  mk_CandidatePeer id self None None None false key None endpoints (Some seen) None None None None None false true.
Definition key_a : string := encode_hex (vk_to_sec1 (sk_verifying_key alice)).
Definition key_b : string := encode_hex (vk_to_sec1 (sk_verifying_key bob)).
Definition feed : list (CandidatePeer ()) :=
  [peer "d1" false (Some key_a) ["http://100.64.0.1:1"] "1"; peer "d2" true (Some key_a) ["http://100.64.0.2:1"] "0"; peer "phone" false None [] "2"].
Lemma merge_one_per_key_witness : NoDup (omap mesh_id (merge_shared_keys parse_u64 id feed)).
Proof.
  refine (proj1 (merge_one_per_key parse_u64 id (λ _, Permutation_refl _) feed _)). apply (bool_decide_unpack _). vm_compute. exact I.
Defined.
Definition was : list (CandidatePeer ()) := [peer "d1" false (Some key_a) [] "1"].
Definition recent_ids : list (vec Init.Byte.byte 32) := option_list (candidate_device_id key_a) ++ option_list (candidate_device_id key_b).
Lemma recent_peers_stay_witness : holds (peer "d1" false (Some key_a) [] "1") (reconcile_roster [] was recent_ids).
Proof.
  apply (recent_peers_stay recent_ids [] was).
  - apply NoDup_singleton.
  - intros a b [Ha|Ha] Hb _; [by apply elem_of_nil in Ha|]. apply list_elem_of_singleton in Ha as ->. apply list_elem_of_singleton in Hb as ->. reflexivity.
  - apply list_elem_of_singleton. reflexivity.
  - split; [reflexivity|]. destruct (candidate_device_id key_a) as [k|] eqn:Hk.
    + exists k. split; [exact Hk|]. unfold recent_ids. rewrite Hk. apply elem_of_app. left. apply list_elem_of_singleton. reflexivity.
    + exfalso. revert Hk. vm_compute. discriminate.
Defined.

(** A key that moved between two devices is lost: the feed has the key of [d2]
    under [d1], both were pulled recently, and carrying [d1]'s old key over
    replaces the only entry with the other key. *)
Lemma swapped_key_lost :
  existsb (has_key key_a) (reconcile_roster [peer "d1" false (Some key_a) [] "1"]
    [peer "d2" false (Some key_a) [] "1"; peer "d1" false (Some key_b) [] "1"] recent_ids) = false.
Proof. vm_compute. reflexivity. Qed.
End RosterToy.
