(* ===== verification/Surface.v ===== *)
(** * The node's surface ([src/thread_sources.rs], [file_store.rs], [ports.rs], [usage.rs])

    What a node tells its host: the providers of external threads and the results
    of sends, the ops of a file store and when a sweep emits one, the ledger of
    ports that the instances of one user share, the names of the hardware, and the
    window of usage samples.  The file system, the clock, the answers of the
    system's commands, floating point arithmetic and the JSON codec are arguments. *)

From stdpp Require Import pretty.
From S2P Require Import Prelude External Text Words Chars Identity RowOp McpServer TunnelHost.

(** ** Thread sources *)

Definition CODEX_PROVIDER : string := "codex".
Definition HERMES_PROVIDER : string := "hermes".
Definition CLAUDE_PROVIDER : string := "claude_code".
Definition CURSOR_PROVIDER : string := "cursor".
Definition OPENCLAW_PROVIDER : string := "openclaw".
Definition OPENCODE_PROVIDER : string := "opencode".
Definition PI_PROVIDER : string := "pi".
Definition NCODE_PROVIDER : string := "ncode".
Definition PROXY_HARNESS_PROVIDER : string := "proxy-harness".
Record LiveThreadSourceDescriptor : Type := mk_descriptor {
  lt_provider_id : string;
  lt_harness_id : string;
  lt_display_name : string;
  lt_list : bool;
  lt_read : bool;
  lt_watch : bool;
  lt_send_text : bool;
  lt_approvals : bool;
}.
Definition LIVE_THREAD_SOURCE_DESCRIPTORS : list LiveThreadSourceDescriptor := [
  mk_descriptor CLAUDE_PROVIDER "claude-code" "Claude Code" true true true true false;
  mk_descriptor CODEX_PROVIDER "codex" "Codex" true true true false false;
  mk_descriptor CURSOR_PROVIDER "cursor" "Cursor" true true true false false;
  mk_descriptor HERMES_PROVIDER "hermes-agent" "Hermes" true true true true false;
  mk_descriptor OPENCLAW_PROVIDER "openclaw" "OpenClaw" true true true true false;
  mk_descriptor OPENCODE_PROVIDER "opencode" "OpenCode" true true true true false;
  mk_descriptor PI_PROVIDER "pi" "Pi" true true true false false;
  mk_descriptor NCODE_PROVIDER "ncode" "NCode" true true true true false;
  mk_descriptor PROXY_HARNESS_PROVIDER "proxy-harness" "Proxy Harness" true true true false false].
(** The arms of the match, in order: what is accepted, and the provider it names. *)
Definition provider_names : list (list string * string) := [
  (["claude"; "claude-code"], CLAUDE_PROVIDER);
  (["codex"], CODEX_PROVIDER);
  (["cursor"], CURSOR_PROVIDER);
  (["hermes"; "hermes-agent"], HERMES_PROVIDER);
  (["openclaw"; "open-claw"], OPENCLAW_PROVIDER);
  (["opencode"; "open-code"], OPENCODE_PROVIDER);
  (["pi"], PI_PROVIDER);
  (["ncode"; "n-code"; "noumea"; "noumena"; "noumena-code"], NCODE_PROVIDER);
  (["proxy-harness"], PROXY_HARNESS_PROVIDER)].
Definition normalize_thread_source_provider (value : string) : option string :=
  let name := replace "_" "-" (to_ascii_lowercase (trim value)) in
  snd <$> List.find (λ arm : list string * string, bool_decide (name ∈ arm.1)) provider_names.

Record ThreadSourceSendResult : Type := mk_send_result {
  sr_conversation_id : string;
  sr_message_id : option string;
  sr_queued : bool;
  sr_deferred : bool;
  sr_deferred_reason : option string;
  sr_routed : bool;
  sr_owner_device_id : option string;
  sr_client_message_id : option string;
  sr_delivery_unknown : bool;
  sr_delivery_error : option string;
}.
Definition dispatched (conversation_id message_id : string) : ThreadSourceSendResult :=
  mk_send_result conversation_id (Some message_id) false false None false None None false None.
Definition queued (conversation_id : string) : ThreadSourceSendResult :=
  mk_send_result conversation_id None true false None false None None false None.
Definition deferred (conversation_id reason : string) : ThreadSourceSendResult :=
  mk_send_result conversation_id None false true (Some reason) false None None false None.
Definition unknown (conversation_id client_message_id error : string) : ThreadSourceSendResult :=
  mk_send_result conversation_id None false false None false None (Some client_message_id) true (Some error).
Definition routed (r : ThreadSourceSendResult) (owner_device_id : string) : ThreadSourceSendResult :=
  mk_send_result (sr_conversation_id r) (sr_message_id r) (sr_queued r) (sr_deferred r) (sr_deferred_reason r)
    true (Some owner_device_id) (sr_client_message_id r) (sr_delivery_unknown r) (sr_delivery_error r).
Definition with_client_message_id (r : ThreadSourceSendResult) (client_message_id : option string) : ThreadSourceSendResult :=
  mk_send_result (sr_conversation_id r) (sr_message_id r) (sr_queued r) (sr_deferred r) (sr_deferred_reason r)
    (sr_routed r) (sr_owner_device_id r) client_message_id (sr_delivery_unknown r) (sr_delivery_error r).
Definition with_delivery_unknown (r : ThreadSourceSendResult) (error : string) : ThreadSourceSendResult :=
  mk_send_result (sr_conversation_id r) (sr_message_id r) (sr_queued r) (sr_deferred r) (sr_deferred_reason r)
    (sr_routed r) (sr_owner_device_id r) (sr_client_message_id r) true (Some error).
Definition thread_source_content_sha256 `{Crypto} (content : string) : string :=
  encode_hex (sha256 (String.list_byte_of_string content)).

(** [ThreadSourceAdapter]: an adapter gives its descriptor; the other two have defaults. *)
Record ExternalThreadSummary : Type := mk_thread_summary {
  th_source_provider : string;
  th_source_id : string;
  th_title : option string;
  th_working_directory : option string;
  th_updated_at : string;
}.
Definition default_discover_threads : result string (list ExternalThreadSummary) := Ok [].
Definition default_send_text (descriptor : LiveThreadSourceDescriptor) (_source_id _conversation_id _content : string)
    : result string ThreadSourceSendResult :=
  Err ("provider " +:+ lt_provider_id descriptor +:+ " does not support send_text").

(** ** File stores *)

Inductive RowAuthority : Type := Local | Remote.
Inductive FileMutation : Type := FileUpsert (content : bytes) (mode : Z) | FileDelete.
Record FileStoreOp : Type := mk_FileStoreOp { fo_entity_id : string; fo_path : string; fo_mutation : FileMutation }.
Definition file_row_pk (op : FileStoreOp) : string := row_pk_of [("id", fo_entity_id op); ("path", fo_path op)].
Definition sha256_hex `{Crypto} (bs : bytes) : string := encode_hex (sha256 bs).
Definition should_emit_sweep_file (on_disk_bytes : bytes) (stored_bytes : option bytes) (authority : option RowAuthority) : bool :=
  match authority with
  | Some Remote => false
  | _ => match stored_bytes with Some stored => bool_decide (stored ≠ on_disk_bytes) | None => true end
  end.

(** ** The ledger of ports *)

Definition SIBLING_MAX_AGE_MS : Z := 7 * 24 * 60 * 60 * 1000.
Section ports.
Context {F : Type}.
Record LocalCompute : Type := mk_LocalCompute {
  lc_chip : option string;
  lc_memory_bytes : option Z;
  lc_gpu_core_count : option Z;
  lc_tflops_fp16 : option F;
}.
Record SiblingEntry : Type := mk_SiblingEntry {
  sb_port : Z;
  sb_device_id : string;
  sb_mesh_public_key : string;
  sb_label : string;
  sb_pid : Z;
  sb_updated_at : Z;
  sb_chip : option string;
  sb_memory_bytes : option Z;
  sb_gpu_core_count : option Z;
  sb_tflops_fp16 : option F;
}.
Notation Ledger := (gmap string SiblingEntry).

(** The environment of [ledger_path]. *)
Definition ledger_path (mesh_ledger home xdg_cache : option string) (caches_is_dir : bool) : option string :=
  let set (v : option string) := s ← v; guard (s ≠ "") ;; Some s in
  match set mesh_ledger with
  | Some path => Some path
  | None =>
      home ← home;
      let mac_caches := path_join home "Library/Caches" in
      let base :=
        if caches_is_dir then mac_caches else match set xdg_cache with Some xdg => xdg | None => path_join home ".cache" end in
      Some (path_join base "com.theproxycompany/mesh-ports.json")
  end.

(** The file: its text, when it can be read. *)
Context (from_str : string → option Ledger) (to_vec_pretty : Ledger → string).
Definition read_ledger (file : option string) : Ledger := default ∅ (file ≫= from_str).
(** The directory, the temporary file and the rename; a failure leaves the file. *)
Definition write_ledger (mkdir write rename : bool) (ledger : Ledger) (file : option string) : bool * option string :=
  if mkdir && write && rename then (true, Some (to_vec_pretty ledger)) else (false, file).

(** An instance's own entry: its data root, the key it serves under, its process and the clock. *)
Record MeshInstance : Type := mk_MeshInstance {
  in_root : string;
  in_file_name : option string;
  in_device_id_hex : string;
  in_public_key_sec1 : bytes;
  in_port : Z;
  in_pid : Z;
  in_compute : LocalCompute;
}.
Definition own_entry (i : MeshInstance) (unix_ms : Z) : SiblingEntry :=
  mk_SiblingEntry (in_port i) (in_device_id_hex i) (encode_hex (in_public_key_sec1 i))
    (default (in_root i) (in_file_name i)) (in_pid i) unix_ms (lc_chip (in_compute i)) (lc_memory_bytes (in_compute i))
    (lc_gpu_core_count (in_compute i)) (lc_tflops_fp16 (in_compute i)).
(** [record_port_entry]: the ledger it read, and what it then writes. *)
Definition entry_added (i : MeshInstance) (unix_ms : Z) (ledger : Ledger) : Ledger := <[in_root i := own_entry i unix_ms]> ledger.
Definition record_port_entry (i : MeshInstance) (unix_ms : Z) (mkdir write rename : bool) (file : option string) : option string :=
  (write_ledger mkdir write rename (entry_added i unix_ms (read_ledger file)) file).2.
Definition live (my_root : string) (pid_alive : Z → bool) (now : Z) (re : string * SiblingEntry) : bool :=
  bool_decide (re.1 ≠ my_root) && pid_alive (sb_pid re.2) &&
  bool_decide (saturating_sub_u64 now (sb_updated_at re.2) ≤ SIBLING_MAX_AGE_MS)%Z.
Definition live_siblings (my_root : string) (pid_alive : Z → bool) (now : Z) (file : option string) : list (string * SiblingEntry) :=
  List.filter (live my_root pid_alive now) (map_to_list (read_ledger file)).
End ports.
Arguments LocalCompute : clear implicits.
Arguments SiblingEntry : clear implicits.
Arguments MeshInstance : clear implicits.

(** ** Hardware *)

Definition KEYWORDS : list (string * string) := [
  ("macbook pro", "MacBook Pro"); ("macbookpro", "MacBook Pro"); ("macbook air", "MacBook Air"); ("macbookair", "MacBook Air");
  ("mac studio", "Mac Studio"); ("macstudio", "Mac Studio"); ("mac mini", "Mac mini"); ("macmini", "Mac mini");
  ("imac", "iMac"); ("mac pro", "Mac Pro"); ("macpro", "Mac Pro"); ("macbook", "MacBook"); ("iphone", "iPhone"); ("ipad", "iPad")].
Definition family_from_name (to_lowercase : string → string) (name : string) : option string :=
  let lowered := to_lowercase name in
  snd <$> List.find (λ kf : string * string, str_contains kf.1 lowered) KEYWORDS.
Definition BOARDS : list (list string * string) := [
  (["Mac13,1"; "Mac13,2"; "Mac14,13"; "Mac14,14"; "Mac15,14"; "Mac16,9"], "Mac Studio");
  (["Mac14,3"; "Mac14,12"; "Mac16,10"; "Mac16,11"], "Mac mini");
  (["Mac14,8"], "Mac Pro");
  (["Mac15,4"; "Mac15,5"; "Mac16,2"; "Mac16,3"], "iMac");
  (["Mac14,2"; "Mac14,15"; "Mac15,12"; "Mac15,13"; "Mac16,12"; "Mac16,13"; "Mac17,3"; "Mac17,4"], "MacBook Air");
  (["Mac14,5"; "Mac14,6"; "Mac14,7"; "Mac14,9"; "Mac14,10"; "Mac15,3"; "Mac15,6"; "Mac15,7"; "Mac15,8"; "Mac15,9";
    "Mac15,10"; "Mac15,11"; "Mac16,1"; "Mac16,5"; "Mac16,6"; "Mac16,7"; "Mac16,8"; "Mac17,2"; "Mac17,6"; "Mac17,7";
    "Mac17,8"; "Mac17,9"], "MacBook Pro");
  (["Mac17,5"], "MacBook")].
Definition board_id_family (board_id : string) : option string :=
  snd <$> List.find (λ bf : list string * string, bool_decide (board_id ∈ bf.1)) BOARDS.
(** [compute_hardware_family] on macOS: the product name that [ioreg] printed, and the model. *)
Definition compute_hardware_family (to_lowercase : string → string) (product model : option string) : option string :=
  match product ≫= family_from_name to_lowercase with
  | Some family => Some family
  | None =>
      identifier ← model;
      Some (match family_from_name to_lowercase identifier with
            | Some family => family
            | None => default identifier (board_id_family identifier)
            end)
  end.
Definition dq : string := String (Ascii.ascii_of_nat 34) "".
Definition find_map {A B} (f : A → option B) (l : list A) : option B := head (omap f l).
Definition ioreg_product_name (stdout : string) : option string :=
  value ← find_map (λ line, strip_prefix (dq +:+ "product-name" +:+ dq +:+ " = <" +:+ dq) (trim line)) (lines stdout);
  strip_suffix (dq +:+ ">") value.
Definition agx_gpu_core_count (stdout : string) : option Z :=
  value ← find_map (λ line, strip_prefix (dq +:+ "gpu-core-count" +:+ dq +:+ " = ") (trim line)) (lines stdout);
  parse_unsigned (2 ^ 32) (trim value).
(** The generation of the chip, and what it does per core in thousandths. *)
Definition generation_token (token : string) : bool :=
  match strip_prefix "M" token with Some rest => bool_decide (rest ≠ "") && all_chars is_ascii_digit rest | None => false end.
Definition per_core (generation : string) : option Z :=
  if decide (generation = "M1") then Some 325%Z
  else if decide (generation = "M2" ∨ generation = "M3") then Some 358%Z
  else if decide (generation = "M4") then Some 404%Z
  else None.
Definition tflops_fp16 {F} (thousandths : Z → F) (mul : F → F → F) (from_u32 : Z → F) (chip : option string)
    (gpu_core_count : option Z) : option F :=
  chip ← chip;
  generation ← List.find generation_token (split_whitespace chip);
  per_core ← per_core generation;
  count ← gpu_core_count;
  Some (mul (thousandths per_core) (from_u32 count)).

(** ** Usage *)

Definition RING_CAP : nat := 180.
Section usage.
Context {F : Type} (f64_of_digits : string → option F) (mean : list F → F).
Record UsageSnapshot : Type := mk_UsageSnapshot {
  us_gpu_pct_1m : F;
  us_gpu_pct_15m : F;
  us_mem_used_bytes : Z;
  us_sampled_at : string;
}.
Definition Ring : Type := list (Z * F).
(** One turn of [sample_loop]: nothing on a failed reading, else a push and the trim. *)
Fixpoint trim_ring (ring : Ring) : Ring :=
  match ring with
  | [] => []
  | _ :: rest => if decide (RING_CAP < length ring) then trim_ring rest else ring
  end.
Definition sample (now : Z) (reading : option F) (ring : Ring) : Ring :=
  match reading with Some pct => trim_ring (ring ++ [(now, pct)]) | None => ring end.
Definition parse_device_utilization (stdout : string) : option F :=
  dict ← find_map (λ line, strip_prefix (dq +:+ "PerformanceStatistics" +:+ dq +:+ " = {") (trim line)) (lines stdout);
  '(_, rest) ← split_str (dq +:+ "Device Utilization %" +:+ dq +:+ "=") dict;
  let digits := until_chars (λ c, negb (is_ascii_digit c)) rest in
  guard (digits ≠ "") ;; f64_of_digits digits.
Definition window_mean (ring : Ring) (newest_ms span_ms : Z) : option F :=
  let cutoff := saturating_sub_u64 newest_ms span_ms in
  let window := (List.filter (λ s : Z * F, bool_decide (cutoff ≤ s.1)%Z) ring).*2 in
  guard (window ≠ []) ;; Some (mean window).
(** The products are those of a release build. *)
Definition mem_used_bytes (memsize page_free_count pagesize : option Z) : option Z :=
  total ← memsize; free_pages ← page_free_count; page_size ← pagesize;
  Some (saturating_sub_u64 total ((free_pages * page_size) mod u64_modulus)).
Definition snapshot (ring : Ring) (mem : option Z) : option UsageSnapshot :=
  '(newest_ms, _) ← last ring;
  gpu_pct_1m ← window_mean ring newest_ms 60000;
  gpu_pct_15m ← window_mean ring newest_ms 900000;
  mem_used ← mem;
  Some (mk_UsageSnapshot gpu_pct_1m gpu_pct_15m mem_used (pretty (newest_ms / 1000)%Z)).
End usage.
Arguments UsageSnapshot : clear implicits.
Arguments Ring : clear implicits.

(** ** What holds of them *)

(** Every provider answers to its own id and to its harness's, and a name that is
    accepted names a provider of the table. *)
Lemma descriptors_normalize : Forall (λ d, normalize_thread_source_provider (lt_provider_id d) = Some (lt_provider_id d) ∧
  normalize_thread_source_provider (lt_harness_id d) = Some (lt_provider_id d)) LIVE_THREAD_SOURCE_DESCRIPTORS.
Proof. repeat (constructor; [split; vm_compute; reflexivity|]). constructor. Qed.
Lemma normalized_described value provider :
  normalize_thread_source_provider value = Some provider → provider ∈ lt_provider_id <$> LIVE_THREAD_SOURCE_DESCRIPTORS.
Proof.
  unfold normalize_thread_source_provider. set (name := replace _ _ _). clearbody name. intros Hn.
  apply fmap_Some in Hn as ([names p] & Hf & ->). apply find_some in Hf as [Hin _]. apply list_elem_of_In in Hin. revert Hin. cbn [snd].
  assert (Hall : Forall (λ arm : list string * string, arm.2 ∈ lt_provider_id <$> LIVE_THREAD_SOURCE_DESCRIPTORS) provider_names)
    by (repeat (constructor; [apply (bool_decide_unpack _); vm_compute; exact I|]); constructor).
  intros Hin. by apply (proj1 (Forall_forall _ _) Hall) in Hin.
Qed.

(** The key of a file's row determines the entity and the path. *)
Lemma file_row_pk_injective op op' :
  Forall sep_free [fo_entity_id op; fo_path op] → Forall sep_free [fo_entity_id op'; fo_path op'] →
  file_row_pk op = file_row_pk op' → fo_entity_id op = fo_entity_id op' ∧ fo_path op = fo_path op'.
Proof.
  intros H1 H2 Heq. pose proof (row_pk_text_injective (λ _, "") [("id", fo_entity_id op); ("path", fo_path op)]
    [("id", fo_entity_id op'); ("path", fo_path op')] "" "" Delete Delete ltac:(done) ltac:(done) H1 H2) as [_ [Hinj _]].
  apply Hinj in Heq. cbn in Heq. by injection Heq.
Qed.

Section ledger.
Context {F : Type} (from_str : string → option (gmap string (SiblingEntry F))) (to_vec_pretty : gmap string (SiblingEntry F) → string).
Context (Hjson : ∀ ledger, from_str (to_vec_pretty ledger) = Some ledger).

(** A recorded entry is read back, beside the ones that were there; a step of the
    write that fails leaves the ledger as it was. *)
Lemma entry_recorded i now mkdir write rename file :
  read_ledger from_str (record_port_entry from_str to_vec_pretty i now mkdir write rename file) =
  if mkdir && write && rename then entry_added i now (read_ledger from_str file) else read_ledger from_str file.
Proof. unfold record_port_entry, write_ledger. destruct (mkdir && write && rename); [|done]. cbn. by rewrite Hjson. Qed.

(** Two instances that start together: each reads the ledger before the other
    writes it, and the second write takes the first one's entry out again. *)
Lemma entry_lost i j now file : in_root i ≠ in_root j → read_ledger from_str file !! in_root i = None →
  let read_i := read_ledger from_str file in
  let read_j := read_ledger from_str file in
  let file := (write_ledger to_vec_pretty true true true (entry_added i now read_i) file).2 in
  let file := (write_ledger to_vec_pretty true true true (entry_added j now read_j) file).2 in
  read_ledger from_str file !! in_root i = None ∧ read_ledger from_str file !! in_root j = Some (own_entry j now).
Proof.
  intros Hne Hi. cbn zeta. set (ledger := read_ledger from_str file) in *. cbn. unfold read_ledger. cbn. rewrite Hjson. cbn. unfold entry_added. split.
  - by rewrite lookup_insert_ne by done.
  - by rewrite lookup_insert_eq.
Qed.
(** A sibling that is reported is another root's, its process lives, and it is at most a week old. *)
Lemma live_siblings_exact my_root pid_alive now file root entry :
  (root, entry) ∈ live_siblings from_str my_root pid_alive now file ↔
  read_ledger from_str file !! root = Some entry ∧ root ≠ my_root ∧ pid_alive (sb_pid entry) = true ∧
  (now - sb_updated_at entry ≤ SIBLING_MAX_AGE_MS)%Z.
Proof.
  unfold live_siblings. rewrite list_elem_of_In, filter_In, <-list_elem_of_In, elem_of_map_to_list. unfold live, saturating_sub_u64, SIBLING_MAX_AGE_MS. cbn.
  rewrite !andb_true_iff, !bool_decide_eq_true. split; intros H; destruct_and?; split_and!; try done; lia.
Qed.
End ledger.

Section usage_ok.
Context {F : Type} (mean : list F → F).
Lemma trim_ring_drop (ring : Ring F) : trim_ring ring = drop (length ring - RING_CAP) ring.
Proof.
  induction ring as [|s ring IH]; [done|]. cbn [trim_ring]. case_decide as Hl.
  - rewrite IH. cbn [length] in *. by replace (S (length ring) - RING_CAP) with (S (length ring - RING_CAP)) by lia.
  - by replace (length (s :: ring) - RING_CAP) with 0 by lia.
Qed.
(** The ring holds the last samples that were read, at most [RING_CAP] of them. *)
Lemma ring_holds_last (readings : list (Z * option F)) :
  let read := omap (λ r : Z * option F, (λ pct, (r.1, pct)) <$> r.2) readings in
  foldl (λ ring r, sample r.1 r.2 ring) [] readings = drop (length read - RING_CAP) read.
Proof.
  induction readings as [|[now [pct|]] readings IH] using rev_ind; [done|..];
    cbn; rewrite foldl_snoc, omap_app; cbn [omap list_omap fst snd fmap option_fmap option_map sample]; cbn in IH; rewrite IH.
  - set (read := omap _ readings). rewrite trim_ring_drop, !length_app, length_drop. cbn [length].
    rewrite <-(drop_app_le read [(now, pct)]) by lia. rewrite drop_drop. f_equal. lia.
  - by rewrite app_nil_r.
Qed.
(** As soon as one sample was read, both windows have one: the snapshot is there
    when the memory can be read. *)
Lemma snapshot_available (ring : Ring F) newest pct mem :
  last ring = Some (newest, pct) → (0 ≤ newest)%Z → ∃ one fifteen,
    snapshot mean ring (Some mem) = Some (mk_UsageSnapshot one fifteen mem (pretty (newest / 1000)%Z)).
Proof.
  intros Hl Hn. unfold snapshot. rewrite Hl. cbn.
  assert (Hw : ∀ span, (0 ≤ span)%Z → ∃ m, window_mean mean ring newest span = Some m).
  { intros span Hs. unfold window_mean. rewrite option_guard_True; [by eexists|]. apply last_Some in Hl as [before ->].
    rewrite List.filter_app. cbn. rewrite bool_decide_eq_true_2 by (unfold saturating_sub_u64; lia). rewrite fmap_app. cbn.
    intros Hnil. by apply app_eq_nil in Hnil as [_ Hnil]. }
  destruct (Hw 60000%Z) as [one ->]; [done|]. destruct (Hw 900000%Z) as [fifteen ->]; [done|]. cbn. by exists one, fifteen.
Qed.
End usage_ok.
