(* ===== verification/AddressWeb.v ===== *)
(** * The public page of an address ([src/address_web.rs])

    The body of a [POST /<slug>], the cards, and the pages: templates in which the
    address, the agent's id and its name are put.  The templates and the style are
    arguments: what is shown holds for any of them. *)

From S2P Require Import Prelude Ordered External Http Identity Text Words Chars OAuth OAuthServer OAuthNet JsonValue McpServer.

Definition CONTACT_KINDS : list string := ["seat"; "web"].
Record SlugPostBody : Type := mk_SlugPostBody {
  sp_title : option string;
  sp_prompt : option string;
  sp_message : option string;
  sp_content : option string;
  sp_device : option string;
}.
Definition first_of (a b : option string) : option string := match a with Some x => Some x | None => b end.
Definition parse_slug_post_body `{Json, !JsonWire SlugPostBody} (body : bytes) : option string * option string * option string :=
  if decide (body = []) then (None, None, None)
  else
    match json_from_slice body with
    | Ok parsed =>
        (trimmed (sp_title parsed), trimmed (first_of (first_of (sp_prompt parsed) (sp_message parsed)) (sp_content parsed)), trimmed (sp_device parsed))
    | Err _ =>
        match str_from_utf8 body with
        | Some text => if decide (trim text = "") then (None, None, None) else (None, Some (trim text), None)
        | None => (None, None, None)
        end
    end.

Definition escape_html (raw : string) : string := escape raw.
Definition wants_json (headers : list (string * string)) : bool :=
  let accept := to_ascii_lowercase (default "" (header "accept" headers ≫= header_to_str)) in
  str_contains "application/json" accept && negb (str_contains "text/html" accept).

(** [(status, headers, body).into_response()] *)
Definition with_headers (status : Z) (body : Response) : Response :=
  with_header (with_header (mk_Response status (resp_headers body) (resp_body body)) "cache-control" "no-store") "vary" "Accept".
Definition html_body (html : string) : Response := mk_Response OK [("content-type", "text/html; charset=utf-8")] (payload_bytes html).
Definition html_response (status : Z) (body : string) : Response := with_headers status (html_body body).
Definition failed_response : Response :=
  with_header (text_response INTERNAL_SERVER_ERROR "Something went wrong.") "cache-control" "no-store".

Section cards.
(** [axum::Json] of a value. *)
Context `{JsonValue} (json_body : Value → Response).
Definition party_card_response (address id name memory : string) : Response :=
  with_headers OK (json_body (v_object
    [("address", v_string address); ("party", v_string id); ("name", v_string name); ("kind", v_string "party"); ("memory", v_string memory)])).
Definition agent_card_response (address id name : string) : Response :=
  with_headers OK (json_body (v_object
    [("address", v_string address); ("agent", v_string id); ("name", v_string name);
     ("avatar", v_string ("/client/v1/agents/" +:+ id +:+ "/avatar")); ("addressable", v_bool true);
     ("kinds", v_array (v_string <$> CONTACT_KINDS))])).
Definition not_found_json : Response := with_headers NOT_FOUND (json_body (v_object [("error", v_string "not_found")])).
End cards.

Section pages.
Context (STYLE AGENT_PAGE NOT_FOUND_PAGE : string).
Definition fill (template address : string) : string :=
  replace "{{address}}" (escape_html address) (replace "{{style}}" STYLE template).
Definition agent_html (address id name : string) : string :=
  replace "{{agent_name}}" (escape_html name) (replace "{{agent_id}}" (escape_html id) (fill AGENT_PAGE address)).
Definition not_found_html (address : string) : Response := html_response NOT_FOUND (fill NOT_FOUND_PAGE address).
Definition agent_page_response (address id name : string) : Response := html_response OK (agent_html address id name).
End pages.

(** ** The pages hold no markup but their own *)

Lemma markup_replace old new s : old ≠ "" → markup old = [] → markup new = [] → markup (replace old new s) = markup s.
Proof.
  intros Hne Hold Hnew. unfold replace. remember (String.length s) as n eqn:Hn. revert s Hn. induction (lt_wf n) as [n _ IH]. intros s ->.
  destruct s as [|c s]; [done|]. cbn [replace_skip]. destruct (starts_with old (String c s)) eqn:Hst.
  - unfold starts_with in Hst. apply bool_decide_eq_true in Hst as [r Hr%strip_prefix_some]. rewrite markup_app, Hnew. cbn [app].
    destruct old as [|c0 old']; [done|]. rewrite append_cons in Hr. injection Hr as -> ->. cbn [String.length].
    rewrite Nat.sub_succ, Nat.sub_0_r, replace_skip_past by done.
    rewrite (IH (String.length r)); [|cbn [String.length]; rewrite length_app_string; lia|done]. cbn [markup] in Hold |- *. rewrite markup_app.
    destruct (markup_char c0); [done|]. cbn [app] in Hold |- *. by rewrite Hold.
  - cbn [markup]. by rewrite (IH (String.length s)); [|cbn; lia|].
Qed.
(** C38: nothing that is put into a page opens or closes a tag or an attribute:
    whatever the address, the agent's id and its name are, placeholders of the
    template included, the page's markup characters are the template's own. *)
Theorem agent_page_markup STYLE AGENT_PAGE address id name :
  markup (agent_html STYLE AGENT_PAGE address id name) = markup (replace "{{style}}" STYLE AGENT_PAGE) ∧
  markup (fill STYLE AGENT_PAGE address) = markup (replace "{{style}}" STYLE AGENT_PAGE).
Proof.
  assert (Hput : ∀ slot text s, slot ≠ "" → markup slot = [] → markup (replace slot (escape_html text) s) = markup s)
    by (intros slot text s Hne Hs; apply markup_replace; [done|done|apply markup_escape]).
  unfold agent_html, fill. by rewrite !Hput.
Qed.

(** What a post carries: each part that is there is trimmed and not empty. *)
Lemma trimmed_shape o s : trimmed o = Some s → s ≠ "" ∧ ∃ raw, o = Some raw ∧ s = trim raw.
Proof. unfold trimmed. destruct o as [raw|]; [|done]. cbn. case_decide; [done|]. intros [= <-]. split; [done|by exists raw]. Qed.
Lemma slug_post_parts `{Json, !JsonWire SlugPostBody} body title prompt device :
  parse_slug_post_body body = (title, prompt, device) →
  ∀ s, (title = Some s ∨ prompt = Some s ∨ device = Some s) → s ≠ "" ∧ ∃ raw, s = trim raw.
Proof.
  unfold parse_slug_post_body. case_decide; [intros [= <- <- <-]; naive_solver|]. destruct (json_from_slice body) as [parsed|e].
  - intros [= <- <- <-] s [Hs|[Hs|Hs]]; apply trimmed_shape in Hs as (Hne & raw & _ & ->); (split; [done|by exists raw]).
  - destruct (str_from_utf8 body) as [text|]; [|intros [= <- <- <-]; naive_solver]. case_decide; intros [= <- <- <-] s [[=]|[Hs|[=]]]; [done|].
    injection Hs as <-. split; [done|by exists text].
Qed.
