(* ===== verification/OAuthToy.v ===== *)
(** * A concrete authorization server

    The server over the in-memory store, with the toy crates: a client registers,
    is let in, redeems its code, is admitted and revoked; a signed ask arrives.
    The hypotheses of the components' theorems, discharged. *)

From S2P Require Import Prelude Ordered External Toy Http Identity Text Words Address OAuth OAuthServer OAuthRuns AskProof OAuthNet Op Gate.

Module OAuthToy.
Export Toy OpToy GateToy.

#[export] Instance toy_hash_order : HashOrder := {| hash_iter A m := map_to_list m |}.
#[export] Instance toy_hash_order_ok : HashOrderOk.
Proof. intros A m. reflexivity. Qed.

(** ** Scopes, addresses, limits *)

Lemma address_forms_agree_witness :
  address_parse "HTTP://Alex.proxy.ing/claude/" = Ok (mk_AgentAddress "alex" (Some "claude")) ∧
  address_parse "alex.proxy.ing/claude" = Ok (mk_AgentAddress "alex" (Some "claude")).
Proof.
  assert (Hp : address_parse "HTTP://Alex.proxy.ing/claude/" = Ok (mk_AgentAddress "alex" (Some "claude"))) by (vm_compute; reflexivity).
  exact (conj Hp (proj1 (proj2 (address_forms_agree _ _ "" "" "" Hp)))).
Defined.

(** ** A run of the server *)

Definition verifier : string := "a-verifier-of-at-least-forty-three-characters".
Definition challenge : string := b64url_encode (sha256 (payload_bytes verifier)).
Definition callback : string := "https://client.example/cb".
Definition toy_authorize : AuthorizeRequest :=
  mk_AuthorizeRequest (Some "code") (Some "c1") (Some callback) (Some "threads") None (Some challenge) None.
Definition toy_token_request (code : string) : TokenRequest :=
  mk_TokenRequest (Some "authorization_code") (Some code) (Some callback) (Some "c1") (Some verifier).
Definition toy_calls : list (Z * OCall) :=
  [(1000%Z, CallRegister (mk_Registration (Some "A client") [callback]) "c1");
   (1001%Z, CallAuthorize toy_authorize "https://alex.proxy.ing" (Ok ()) "a1");
   (1002%Z, CallProgress "a1" (Ok Approved) "k1");
   (1003%Z, CallToken (toy_token_request "k1") "s1" "t1");
   (1004%Z, CallAdmit "s1");
   (1005%Z, CallAuthorize toy_authorize "https://alex.proxy.ing" (Ok ()) "a2");
   (1006%Z, CallProgress "a2" (Ok Approved) "k2");
   (1007%Z, CallToken (toy_token_request "k2") "s2" "t2");
   (1008%Z, CallRevoke "s1");
   (1009%Z, CallAdmit "s1")].
Definition toy_run : list Event * MemoryStore := orun (os_empty : MemoryStore) [] toy_calls.
Definition toy_event (i : nat) : Event := default (mk_event 0 (CallAdmit "") (OutAdmit (Ok None))) (toy_run.1 !! i).

Definition toy_token : Token :=
  mk_Token "t1" "c1" "A client" (hash_token "s1") (Some "threads") 1003 (1003 + TOKEN_TTL_SECS) (Some 1004%Z) None.
Lemma oauth_admit_consented_witness :
  was_granted (drop 6 toy_run.1) toy_token ∧ tk_hash toy_token = hash_token (trim "s1").
Proof.
  destruct (oauth_admit_consented id (os_empty : MemoryStore) toy_calls toy_run.1 toy_run.2 (take 5 toy_run.1) 1004 "s1" toy_token
    (drop 6 toy_run.1)) as (Hg & Hh & _).
  - reflexivity.
  - unfold toy_run. apply surjective_pairing.
  - vm_compute. reflexivity.
  - exact (conj Hg Hh).
Defined.

Definition toy_issued (secret : string) : Issued := mk_Issued secret "Bearer" (Some TOKEN_TTL_SECS) "threads".
Lemma oauth_code_once_witness : trimmed (tr_code (toy_token_request "k2")) ≠ trimmed (tr_code (toy_token_request "k1")).
Proof.
  apply (oauth_code_once id (os_empty : MemoryStore) toy_calls toy_run.1 toy_run.2
    (take 2 toy_run.1) 1007 (toy_token_request "k2") "s2" "t2" (toy_issued "s2")
    (take 3 (drop 3 toy_run.1)) 1003 (toy_token_request "k1") "s1" "t1" (toy_issued "s1") (drop 7 toy_run.1)).
  - reflexivity.
  - unfold toy_run. apply surjective_pairing.
  - apply (bool_decide_unpack _). vm_compute. exact I.
  - vm_compute. reflexivity.
Defined.

Definition toy_answer : option Token := match ev_out (toy_event 0) with OutAdmit (Ok o) => o | _ => None end.
Lemma oauth_revoked_stays_out_witness : toy_answer = None.
Proof.
  apply (oauth_revoked_stays_out id (os_empty : MemoryStore) toy_calls toy_run.1 toy_run.2
    [] 1009 "s1" toy_answer [] 1008 "s1" (drop 2 toy_run.1)).
  - reflexivity.
  - unfold toy_run. apply surjective_pairing.
  - apply (bool_decide_unpack _). vm_compute. exact I.
  - vm_compute. reflexivity.
  - reflexivity.
  - apply (bool_decide_unpack _). vm_compute. exact I.
Defined.

(** ** Pages *)

#[export] Instance toy_oauth_json : JsonWire OAuthBody := {| json_to_vec _ := Ok []; json_from_slice _ := Err () |}.
Definition to_see_other (url : string) : Response := mk_Response 303 [("location", url)] [].

(** The same run over the routes; a second ask is denied. *)
Definition toy_requests : list (Z * RouteRequest) :=
  [(1000%Z, RouteRegister [] (Ok (mk_Registration (Some "A client") [callback])) (Ok ()) "c1");
   (1001%Z, RouteAuthorize (Some "https://alex.proxy.ing/") [] toy_authorize (Ok ()) (Ok ()) "a1");
   (1002%Z, RouteAsk "a1" (Ok Approved) (Ok ()) "k1");
   (1003%Z, RouteToken (Ok (toy_token_request "k1")) (Ok ()) "s1" "t1");
   (1004%Z, RouteAuthorize (Some "https://alex.proxy.ing/") [] toy_authorize (Ok ()) (Ok ()) "a2");
   (1005%Z, RouteAsk "a2" (Ok Denied) (Ok ()) "k2");
   (1006%Z, RouteToken (Err "no form") (Ok ()) "s2" "t2")].
Definition toy_route_run : list Exchange * @Server MemoryStore :=
  route_run id id to_see_other (Server_new os_empty) [] toy_requests.
Lemma oauth_routes_consented_witness :
  tk_revoked_at toy_token = None ∧
  ∃ log1 log2 at_ request secret response,
    toy_route_run.1 = log1 ++ mk_exchange at_ (RouteToken (Ok request) (Ok ()) secret "t1") response :: log2 ∧
    Forall (λ x, ¬ revokes "s1" x) log1.
Proof.
  destruct (oauth_routes_consented id id to_see_other id toy_requests (Server_new os_empty) toy_route_run.1 toy_route_run.2
    "s1" 1004 toy_token (admit_bearer (sv_store toy_route_run.2) "s1" 1004).2) as (Hrv & _ & log1 & log2 & at_ & request & secret & issued & a & code & ver & Hlog & Hx).
  - reflexivity.
  - apply surjective_pairing.
  - vm_compute. reflexivity.
  - split; [exact Hrv|]. exists log1, log2, at_, request, secret, (json OK (BodyIssued issued)). split; [exact Hlog|].
    apply Hx. apply (bool_decide_unpack _). vm_compute. exact I.
Defined.
(** ** Signed asks *)

Definition toy_identity : DeviceIdentity := from_signing alice.
Definition toy_party : PartyScope := mk_PartyScope "42" "A party, at nine" "alice.proxy.ing" "claude" "default".
Definition toy_ask0 : Ask :=
  mk_Ask "a4" "c1" "A client" "https://bob.proxy.ing" callback None None challenge 1000 None None false.
Definition toy_nonce : string := "00112233445566778899aabbccddeeff".
Definition toy_proof : AskProof :=
  sign_with_identity toy_identity (signed_fields (recipient "bob.proxy.ing" "claude") toy_party (to_scope toy_party) toy_ask0) toy_nonce 1000.
Definition toy_ask : Ask :=
  mk_Ask "a4" "c1" "A client" "https://bob.proxy.ing" callback (Some (signed_scope toy_party toy_proof)) None challenge 1000 None None false.
Definition toy_keys : KeyBook := λ user key_id,
  if decide (user = "alice") then Ok (Some (vec_to_list (public_key_sec1 toy_identity))) else Ok None.

Definition same_row (r r' : NonceRow) : bool :=
  bool_decide (nr_nonce r = nr_nonce r') && bool_decide (nr_key_id r = nr_key_id r').
Definition toy_attempt (now : Z) : Attempt := mk_Attempt now toy_keys toy_ask "bob.proxy.ing" toy_party (Ok ()) (Ok ()).
Lemma ask_accepted_once_witness :
  NoDup (proof_id <$> accepts same_row [] [toy_attempt 1000; toy_attempt 1100]) ∧
  length (accepts same_row [] [toy_attempt 1000; toy_attempt 1100]) = 1.
Proof.
  split; [|vm_compute; reflexivity]. apply (ask_accepted_once same_row).
  - intros r r' Hn Hk. unfold same_row. rewrite Hn, Hk, !bool_decide_eq_true_2 by reflexivity. reflexivity.
  - repeat constructor; cbn; lia.
Defined.
End OAuthToy.
