(* ===== verification/AddressToy.v ===== *)
(** * A concrete visit

    The client of an address and the server behind it over the toy crates, with a
    form and a JSON reader: the hypotheses of [AddressClient] and
    [AddressExchange], discharged. *)

From S2P Require Import Prelude Ordered External Toy Http Identity Text Words Chars OAuth OAuthServer OAuthNet AskProof Op Gate JsonValue McpProtocol McpServer McpRuns McpToy AddressClient AddressExchange OAuthToy.

Module AddressToy.
Import Toy OpToy GateToy OAuthToy.

(** A form: pairs joined with [&], values percent-encoded; an answer is written the same way. *)
Definition toy_pair (t : string) : string * string :=
  let '(k, v) := name_value t in (k, String.string_of_list_byte (percent_decode_str v)).
Definition toy_form (s : string) : list (string * string) := if decide (s = "") then [] else toy_pair <$> split "&" s.
Definition toy_text (p : string * string) : string := p.1 +:+ "=" +:+ AddressClient.enc p.2.
#[export] Instance toy_oauth_wire : JsonWire OAuthBody := {|
  json_to_vec b := Ok (payload_bytes (join "&" (toy_text <$> default [] (body_strings b))));
  json_from_slice _ := Err ();
|}.
Definition toy_from_str (s : string) : result () tvalue := Ok (TObject ((λ p, (p.1, TString p.2)) <$> toy_form s)).

Lemma plain_not c : plain_char c = false → ∀ s, all_chars plain_char s = true → contains_char c s = false.
Proof. intros Hc s. by apply all_chars_absent. Qed.
Lemma toy_decode_plain s : all_chars plain_char s = true → toy_percent_decode s = String.list_byte_of_string s.
Proof.
  induction s as [|c s IH]; [done|]. cbn [all_chars]. intros [Hc Hs]%andb_true_iff.
  change (String.list_byte_of_string (String c s)) with (Ascii.byte_of_ascii c :: String.list_byte_of_string s).
  rewrite <-IH by done. by destruct c as [[] [] [] [] [] [] [] []].
Qed.
Definition reads (p : string * string) (t : string) : Prop := toy_pair t = p ∧ contains_char "&" t = false ∧ t ≠ "".
Lemma reads_text k v : contains_char "=" k = false → contains_char "&" k = false → reads (k, v) (toy_text (k, v)).
Proof.
  intros Hk Ha. unfold reads, toy_pair, toy_text. cbn [fst snd]. change ("=" +:+ ?x) with (String "=" x). rewrite name_value_app by done.
  unfold AddressClient.enc. rewrite percent_roundtrip, String.string_of_list_byte_of_string by done. split_and!; [done| |by destruct k].
  rewrite contains_char_app, Ha. cbn [contains_char]. by rewrite encoded_free.
Qed.
Lemma form_text_reads p t : form_text p t → reads p t.
Proof.
  intros [k v Hk _|k v Hk Hv]; [apply reads_text; by apply plain_not|].
  unfold reads, toy_pair. change ("=" +:+ ?x) with (String "=" x). rewrite name_value_app by (by apply plain_not).
  cbn [percent_decode_str toy_percent]. rewrite toy_decode_plain, String.string_of_list_byte_of_string by done.
  split_and!; [done| |by destruct k]. rewrite contains_char_app. cbn [contains_char]. by rewrite !plain_not.
Qed.
Lemma toy_form_pairs pairs texts : Forall2 reads pairs texts → toy_form (join "&" texts) = pairs.
Proof.
  intros Hall. unfold toy_form. destruct (decide (texts = [])) as [->|Hne]; [by apply Forall2_nil_inv_r in Hall as ->|].
  rewrite decide_False.
  - rewrite (split_join "&"%char); [|done|]; clear Hne; induction Hall as [|p t pairs texts (Hp & Ha & Ht) _ IH]; [done| |done|by constructor].
    cbn. by rewrite Hp, IH.
  - inversion Hall as [|p t pairs' texts' (_ & _ & Ht) _]; subst; [done|]. by destruct t, texts'.
Qed.
Lemma toy_form_reads pairs texts : Forall2 form_text pairs texts → toy_form (join "&" texts) = pairs.
Proof. intros Hall. apply toy_form_pairs. eapply Forall2_impl; [done|]. apply form_text_reads. Qed.
Lemma toy_fields ss k : field (TObject ((λ p, (p.1, TString p.2)) <$> ss)) k = header k ss.
Proof. unfold field. cbn. induction ss as [|[k' v] ss IH]; [done|]. cbn. by case_decide. Qed.
Lemma toy_json_strings b ss : body_strings b = Some ss →
  ∃ bs v, json_to_vec b = Ok bs ∧ toy_from_str (String.string_of_list_byte bs) = Ok v ∧ ∀ k, field v k = header k ss.
Proof.
  intros Hb. eexists _, _. split; [done|]. rewrite Hb. cbn [default from_option id]. unfold payload_bytes.
  rewrite String.string_of_list_byte_of_string. split; [done|]. intros k. rewrite toy_form_pairs with (pairs := ss); [apply toy_fields|].
  destruct b as [| | | |a n o s p|st [url|]|i]; try done; injection Hb as <-; cbn; repeat (apply Forall2_cons; split); try apply Forall2_nil; try done; by apply reads_text.
Qed.
#[export] Instance toy_b64url_len : Base64UrlLen.
Proof. split; intros bs; cbn [b64url_encode toy_base64url]; rewrite length_encode_hex; lia. Qed.

(** ** What is shown, and what is read back *)

Lemma readable_clean_witness :
  length (chars "no such client") ≤ 160 ∧ "no such client" ≠ "" ∧ Forall clean (chars "no such client").
Proof.
  apply (@readable_clean toy_json toy_value (λ _, Err ()) "  no such client ").
  - vm_compute. reflexivity.
  - intros t v key s [=].
  - vm_compute. reflexivity.
Defined.

(** ** A visit *)

Definition guest : Visit :=
  mk_Visit "https://alex.proxy.ing" "c1" callback "threads" (λ _, None) (vreplicate 32 Byte.x2a) (vreplicate 16 Byte.x2a).
Definition guest_client : Client := mk_Client "c1" "A client" [callback] 900.
Definition door : @Server MemoryStore := Server_new (st_client os_empty guest_client : MemoryStore).
Definition at_ask : Moment := mk_Moment (Some "https://alex.proxy.ing/") (Ok ()) (Ok Pending) "a1" "" "" 1000.
Definition at_poll : Moment := mk_Moment (Some "https://alex.proxy.ing/") (Ok ()) (Ok Approved) "" "k1" "" 1010.
Definition at_redeem : Moment := mk_Moment (Some "https://alex.proxy.ing/") (Ok ()) (Ok Pending) "t1" "" "s1" 1020.
Lemma visit_admitted_witness : ∃ v3 t,
  (admit_bearer (sv_store v3) "s1" 1030).1 = Ok (Some t) ∧ tk_client_id t = "c1" ∧ tk_scope t = Some "threads".
Proof.
  pose proof (visit_admitted id to_see_other (λ _, "") toy_from_str toy_form toy_form_reads toy_json_strings guest door guest_client
    at_ask at_poll at_redeem "https://alex.proxy.ing" "threads" (mk_Redirect "" None None None) 1030) as Hvisit.
  destruct (vi_pair guest) as [[verifier challenge] state]. destruct Hvisit as (v1 & v2 & v3 & url & t & _ & _ & _ & _ & Ht & Hc & Hs & _).
  - split.
    + vm_compute. reflexivity.
    + split_and!; [apply lookup_insert_eq|reflexivity|split; [discriminate|vm_compute; reflexivity]|vm_compute; reflexivity].
    + split_and!; [apply list_elem_of_singleton; reflexivity|vm_compute; reflexivity|vm_compute; reflexivity|vm_compute; reflexivity].
    + split; vm_compute; reflexivity.
    + split; vm_compute; reflexivity.
    + vm_compute. reflexivity.
    + split; reflexivity.
    + split_and!; [vm_compute; reflexivity|vm_compute; reflexivity|split; [discriminate|vm_compute; reflexivity]|split; [discriminate|vm_compute; reflexivity]].
    + intros i a Ha. cbn in Ha. rewrite lookup_empty in Ha. discriminate.
    + split; [reflexivity|]. intros i a Ha. cbn in Ha. rewrite lookup_empty in Ha. discriminate.
    + vm_compute. split_and!; congruence.
  - exists v3, t. split_and!; assumption.
Defined.
End AddressToy.
