(* ===== verification/Watch.v ===== *)
(** * Push wake-ups ([src/net/watch.rs])

    A publisher appends to the log and then signals a [tokio::sync::watch]
    channel; a parked handler waits for the signal or for its deadline, and
    reads the log itself for what it answers.  Both loops of the source,
    [until_head_changes] and [until_relay_changes], are one step relation over
    what they read. *)

From S2P Require Import Prelude Ordered External Toy Identity Op Store Log.

(** Durations and instants in milliseconds. *)
Definition WATCH_DEFAULT_WAIT : Z := 25000.
Definition WATCH_MAX_WAIT : Z := 50000.
Definition DEFAULT_MAX_PARKED_WATCHES : nat := 64.

(** ** The channel

    [tokio::sync::watch]: a value, a version bumped by every send, and whether
    the sender is gone.  A receiver remembers the version it has seen. *)
Record Channel : Type := mk_channel {
  ch_value : Z * OrderKey;
  ch_version : nat;
  ch_closed : bool;
}.

(** [HeadPublisher::new], [HeadPublisher::publish] (the tick wraps), and the drop
    of the publisher. *)
Definition publisher_new (initial : OrderKey) : Channel := mk_channel (0%Z, initial) 0 false.
Definition publish (c : Channel) (head : OrderKey) : Channel :=
  mk_channel (((c.(ch_value).1 + 1) mod u64_modulus)%Z, head) (S (ch_version c)) (ch_closed c).
Definition publisher_drop (c : Channel) : Channel := mk_channel (ch_value c) (ch_version c) true.

(** [HeadWatch]: the version seen, or no channel ([HeadWatch::inert]). *)
Definition HeadWatch : Type := option nat.
Definition watch_inert : HeadWatch := None.
Definition publisher_watch (c : Channel) : HeadWatch := Some (ch_version c).

(** ** The waiting loop

    [look] is the read of the log at the top of the loop, with whether it is an
    answer; [last] the read after the deadline. *)

Section wait.
Context {L R : Type} (look : L → R * bool) (last : L → R).

Inductive WatchPc : Type :=
  | PcTop                 (* [borrow_and_update] *)
  | PcLook                (* the read of the log *)
  | PcCheck (r : R)       (* the read answered nothing: is there time left? *)
  | PcPark                (* [select!] of [changed] and [sleep], or the sleep alone *)
  | PcSleep               (* the channel closed: sleep out the deadline *)
  | PcLast                (* the read after the deadline *)
  | PcDone (r : R).

(** The waiter, what it shares, and the time; [w_unsignalled] is whether the log
    changed since the last signal. *)
Record WatchState : Type := mk_watch {
  w_pc : WatchPc;
  w_rx : HeadWatch;
  w_deadline : Z;
  w_log : L;
  w_channel : Channel;
  w_unsignalled : bool;
  w_now : Z;
}.

Definition goto (s : WatchState) (pc : WatchPc) : WatchState :=
  mk_watch pc (w_rx s) (w_deadline s) (w_log s) (w_channel s) (w_unsignalled s) (w_now s).
Definition with_rx (s : WatchState) (rx : HeadWatch) : WatchState :=
  mk_watch (w_pc s) rx (w_deadline s) (w_log s) (w_channel s) (w_unsignalled s) (w_now s).

(** [let deadline = Instant::now() + wait] *)
Definition wait_start (rx : HeadWatch) (wait : Z) (log : L) (c : Channel) (unsignalled : bool) (now : Z)
    : WatchState := mk_watch PcTop rx (now + wait) log c unsignalled now.

(** [rx.changed()] is ready: a version not seen yet, or else a closed channel. *)
Definition changed_ready (s : WatchState) : bool :=
  match w_rx s with Some seen => negb (bool_decide (seen = ch_version (w_channel s))) | None => false end.
Definition changed_closed (s : WatchState) : bool :=
  match w_rx s with Some _ => negb (changed_ready s) && ch_closed (w_channel s) | None => false end.
Definition elapsed (s : WatchState) : bool := bool_decide (w_deadline s ≤ w_now s)%Z.

Inductive waiter_step : WatchState → WatchState → Prop :=
  | step_top s : w_pc s = PcTop →
      waiter_step s (goto (with_rx s (match w_rx s with Some _ => Some (ch_version (w_channel s)) | None => None end))
                       PcLook)
  | step_look s r b : w_pc s = PcLook → look (w_log s) = (r, b) →
      waiter_step s (goto s (if b then PcDone r else PcCheck r))
  | step_check s r : w_pc s = PcCheck r →
      waiter_step s (goto s (if elapsed s then PcDone r else PcPark))
  | step_changed s : w_pc s = PcPark → changed_ready s = true → waiter_step s (goto s PcTop)
  | step_closed s : w_pc s = PcPark → changed_closed s = true → waiter_step s (goto s PcSleep)
  | step_elapsed s : w_pc s = PcPark ∨ w_pc s = PcSleep → elapsed s = true → waiter_step s (goto s PcLast)
  | step_last s : w_pc s = PcLast → waiter_step s (goto s (PcDone (last (w_log s)))).

(** Meanwhile a writer appends and then signals, the publisher may be dropped,
    and time passes. *)
Inductive env_step : WatchState → WatchState → Prop :=
  | env_append s log :
      env_step s (mk_watch (w_pc s) (w_rx s) (w_deadline s) log (w_channel s) true (w_now s))
  | env_publish s head : ch_closed (w_channel s) = false →
      env_step s (mk_watch (w_pc s) (w_rx s) (w_deadline s) (w_log s) (publish (w_channel s) head) false (w_now s))
  | env_drop s :
      env_step s (mk_watch (w_pc s) (w_rx s) (w_deadline s) (w_log s) (publisher_drop (w_channel s))
                    (w_unsignalled s) (w_now s))
  | env_tick s now : (w_now s ≤ now)%Z →
      env_step s (mk_watch (w_pc s) (w_rx s) (w_deadline s) (w_log s) (w_channel s) (w_unsignalled s) now).

Definition watch_step (s s' : WatchState) : Prop := waiter_step s s' ∨ env_step s s'.
Definition watch_reach (s s' : WatchState) : Prop := rtc watch_step s s'.

(** ** No wake-up is lost *)

(** The receiver never runs ahead of the channel, and past its read of the log
    a receiver that has seen every signal has seen every signalled change. *)
Definition past_look (pc : WatchPc) : bool :=
  match pc with PcCheck _ | PcPark => true | _ => false end.
Record watch_inv (s : WatchState) : Prop := {
  inv_seen : ∀ seen, w_rx s = Some seen → seen ≤ ch_version (w_channel s);
  inv_quiet : past_look (w_pc s) = true → w_rx s = Some (ch_version (w_channel s)) →
    w_unsignalled s = false → (look (w_log s)).2 = false;
  inv_last : w_pc s = PcLast → (w_deadline s ≤ w_now s)%Z;
}.

Lemma waiter_step_inv s s' : watch_inv s → waiter_step s s' → watch_inv s'.
Proof.
  intros [Hseen Hquiet Hlast] Hstep.
  destruct Hstep as [s Hpc | s r b Hpc Hl | s r Hpc | s Hpc Hr | s Hpc Hr | s Hpc He | s Hpc];
    split; cbn; try done.
  - destruct (w_rx s); intros ? [= <-]; lia.
  - destruct b; cbn; [done|]. intros _ _ _. by rewrite Hl.
  - by destruct b.
  - rewrite Hpc in Hquiet. destruct (elapsed s); [done | intros _; by apply Hquiet].
  - by destruct (elapsed s).
  - intros _. by apply bool_decide_eq_true in He.
Qed.

Lemma env_step_inv s s' : watch_inv s → env_step s s' → watch_inv s'.
Proof.
  intros [Hseen Hquiet Hlast] Hstep. destruct Hstep as [s log | s head Hc | s | s now Hn]; split; cbn; try done.
  - intros seen Hrx. specialize (Hseen seen Hrx). lia.
  - intros _ Hrx _. specialize (Hseen _ Hrx). lia.
  - intros Hpc. specialize (Hlast Hpc). lia.
Qed.

Lemma watch_reach_inv s s' : watch_inv s → watch_reach s s' → watch_inv s'.
Proof.
  intros Hi Hr. induction Hr as [|s s1 s2 [Hs|Hs] _ IH]; [done | |];
    eauto using waiter_step_inv, env_step_inv.
Qed.

(** The deadline is the start's. *)
Lemma watch_reach_deadline s s' : watch_reach s s' → w_deadline s' = w_deadline s.
Proof. intros Hr. induction Hr as [|s s1 s2 [Hs|Hs] _ ->]; [done | by destruct Hs | by destruct Hs]. Qed.

Lemma wait_start_inv rx wait log c unsignalled now :
  (∀ seen, rx = Some seen → seen ≤ ch_version c) →
  watch_inv (wait_start rx wait log c unsignalled now).
Proof. intros Hrx. by split. Qed.

(** C35: No wake-up is lost.  However the waiter, the writers that append and
    then signal, the clock and the drop of the publisher interleave: a waiter
    parked on a channel, once every change of the log has been signalled, has a
    pending wake-up whenever the log holds an answer for it; and a waiter that
    answers before its deadline answers what the log it just read holds. *)
Theorem watch_no_lost_wakeup rx wait log c unsignalled now s s' :
  (∀ seen, rx = Some seen → seen ≤ ch_version c) →
  watch_reach (wait_start rx wait log c unsignalled now) s →
  (w_pc s = PcPark → is_Some (w_rx s) → w_unsignalled s = false → (look (w_log s)).2 = true →
     changed_ready s = true ∧ waiter_step s (goto s PcTop)) ∧
  (∀ r, waiter_step s s' → w_pc s' = PcDone r →
     look (w_log s) = (r, true) ∨ (now + wait ≤ w_now s)%Z).
Proof.
  intros Hrx Hreach.
  pose proof (watch_reach_inv _ _ (wait_start_inv rx wait log c unsignalled now Hrx) Hreach) as [Hseen Hquiet Hlast].
  apply watch_reach_deadline in Hreach as Hd. cbn in Hd. split.
  - intros Hpc [seen Hs] Hu Hl. enough (changed_ready s = true) by eauto using step_changed.
    unfold changed_ready. rewrite Hs. apply negb_true_iff, bool_decide_eq_false. intros ->.
    rewrite Hquiet in Hl; [done | by rewrite Hpc | done | done].
  - intros r Hstep Hdone. destruct Hstep as [s | s r' b Hpc Hl | s r' Hpc | | | | s Hpc]; cbn in Hdone; try done.
    + left. destruct b; by simplify_eq.
    + right. destruct (elapsed s) eqn:He; [|done]. apply bool_decide_eq_true in He. lia.
    + right. specialize (Hlast Hpc). lia.
Qed.

(** ** The wait ends *)

Definition rank (pc : WatchPc) : nat :=
  match pc with
  | PcPark => 4 | PcTop => 3 | PcLook => 2 | PcSleep => 2 | PcCheck _ => 1 | PcLast => 1 | PcDone _ => 0
  end.

(** [n] steps of the waiter among any steps of the environment. *)
Inductive waiter_run : nat → WatchState → WatchState → Prop :=
  | run_nil s : waiter_run 0 s s
  | run_env n s s1 s2 : env_step s s1 → waiter_run n s1 s2 → waiter_run n s s2
  | run_step n s s1 s2 : waiter_step s s1 → waiter_run n s1 s2 → waiter_run (S n) s s2.

Lemma waiter_step_rank s s' : elapsed s = true → waiter_step s s' →
  elapsed s' = true ∧ rank (w_pc s') < rank (w_pc s).
Proof.
  intros He Hstep.
  destruct Hstep as [s Hpc | s r b Hpc Hl | s r Hpc | s Hpc Hr | s Hpc Hr | s Hpc _ | s Hpc];
    (split; [exact He|]); cbn; try rewrite Hpc; try rewrite He; cbn; try lia.
  - destruct b; cbn; lia.
  - destruct Hpc as [-> | ->]; cbn; lia.
Qed.

Lemma env_step_elapsed s s' : elapsed s = true → env_step s s' →
  elapsed s' = true ∧ w_pc s' = w_pc s.
Proof.
  unfold elapsed. intros He Hstep. destruct Hstep as [| | | s now Hn]; cbn; try done. split; [|done].
  apply bool_decide_eq_true in He. apply bool_decide_eq_true. lia.
Qed.

Lemma waiter_enabled s : elapsed s = true → rank (w_pc s) ≠ 0 → ∃ s', waiter_step s s'.
Proof.
  intros He. destruct (w_pc s) eqn:Hpc; cbn; intros Hr; try done.
  - eexists. by apply step_top.
  - destruct (look (w_log s)) as [r b] eqn:Hl. eexists. eapply step_look; eauto.
  - eexists. by apply step_check.
  - eexists. apply step_elapsed; eauto.
  - eexists. apply step_elapsed; eauto.
  - eexists. by apply step_last.
Qed.

(** A wait ends.  Once its deadline has passed, a waiter takes at most four
    more steps, however the writers and the channel interleave with it, and as
    long as it has not answered it has a step to take. *)
Lemma watch_wait_ends n s s' :
  elapsed s = true → waiter_run n s s' →
  n ≤ 4 ∧ ((∃ r, w_pc s' = PcDone r) ∨ ∃ s'', waiter_step s' s'').
Proof.
  intros He Hrun.
  enough (n + rank (w_pc s') ≤ rank (w_pc s) ∧ elapsed s' = true) as [Hn He'].
  { assert (rank (w_pc s) ≤ 4) by (destruct (w_pc s); cbn; lia). split; [lia|].
    destruct (decide (rank (w_pc s') = 0)) as [Hz|Hz]; [|right; by apply waiter_enabled].
    left. destruct (w_pc s') eqn:Hpc; try done. eauto. }
  induction Hrun as [s | n s s1 s2 Hs _ IH | n s s1 s2 Hs _ IH]; [by split; [lia|] | |].
  - apply env_step_elapsed in Hs as [He1 Hpc]; [|done]. rewrite Hpc in IH. by apply IH.
  - apply waiter_step_rank in Hs as [He1 Hlt]; [|done]. destruct (IH He1). split; [lia|done].
Qed.
End wait.

(** ** The two loops *)

Section loops.
Context `{Crypto} {L : Type} `{!LogSource L}.

(** [until_head_changes]: the head, an answer when it is above the known one. *)
Definition head_last (log : L) : OrderKey := default OrderKey_MIN (src_head log).
Definition head_look (known : OrderKey) (log : L) : OrderKey * bool :=
  (head_last log, bool_decide (known ≺ head_last log)).

(** [until_relay_changes]: the stream's state, an answer when it differs from
    the caller's position, or when the log has no stream or fails to say. *)
Definition relay_last (log : L) : result string (option RelayStreamState) := src_relay_state log.
Definition relay_look (epoch : barr 32) (after : Z) (log : L)
    : result string (option RelayStreamState) * bool :=
  match src_relay_state log with
  | Err e => (Err e, true)
  | Ok None => (Ok None, true)
  | Ok (Some state) =>
      (Ok (Some state),
       negb (bool_decide (rs_epoch state = epoch)) || bool_decide (after < rs_floor state)%Z
       || bool_decide (after > rs_head state)%Z || bool_decide (rs_head state > after)%Z)
  end.

(** What [watch.until_head_changes(log, known, wait)] may answer, started on a
    log and channel. *)
Definition until_head_changes (rx : HeadWatch) (known : OrderKey) (wait : Z) (log : L) (c : Channel)
    (unsignalled : bool) (now : Z) (answer : OrderKey) : Prop :=
  ∃ s, watch_reach (head_look known) head_last (wait_start rx wait log c unsignalled now) s ∧
       w_pc s = PcDone answer.
Definition until_relay_changes (rx : HeadWatch) (epoch : barr 32) (after wait : Z) (log : L) (c : Channel)
    (unsignalled : bool) (now : Z) (answer : result string (option RelayStreamState)) : Prop :=
  ∃ s, watch_reach (relay_look epoch after) relay_last (wait_start rx wait log c unsignalled now) s ∧
       w_pc s = PcDone answer.
End loops.
