(* ===== verification/Socket.v ===== *)
(** * The pull socket ([src/net/socket.rs])

    [MeshPullSocket] is the contract a host implements so that the pull
    protocol can serve from its storage and drain into it.  Its two
    implementations: the serving state over any log source and device book, and
    the in-memory client over the op-log, registry, clock and store. *)

From S2P Require Import Prelude Ordered External Toy Identity Op Registry Store Log Hlc Pull Watch.
Import BTree.

Section socket.
Context `{Crypto}.

Record PullAdmission (E : Type) : Type := mk_admission {
  adm_admitted : nat;
  adm_claim_safe : nat;
  adm_error : option E;
}.
Arguments mk_admission {E}.
Arguments adm_admitted {E}.
Arguments adm_claim_safe {E}.
Arguments adm_error {E}.

(** The contract.  A method that writes answers the socket it leaves.
    [admit_ops] calls back after each quantum with the totals so far; the
    callback may write to the socket and to the caller's own locals, a value of
    any type. *)
Class MeshPullSocket (S : Type) := {
  SockError : Type;
  sock_display : SockError → string;
  protocol_error : string → SockError;
  invalid_argument : string → SockError;
  own_device_id : S → DeviceId;
  local_identity : S → DeviceIdentity;
  sock_now_ms : S → Z * S;
  next_hlc : S → Hlc * S;
  lookup_peer_sec1 : S → DeviceId → result SockError (option (barr 33));
  is_peer_trusted : S → DeviceId → result SockError bool;
  is_coverage_primed : S → result SockError bool;
  relay_stream_state : S → result SockError RelayStreamState;
  sock_origins : S → result SockError (list DeviceId);
  sock_origin_since : S → DeviceId → option OrderKey → option string → Z →
    result SockError (list (OrderKey * bytes));
  sock_relay_since : S → Z → Z → result SockError (list (Z * SignedOp * bytes));
  record_peer_ack : S → DeviceId → barr 32 → Z → result SockError () * S;
  local_coverage : S → result SockError CoverageVector;
  known_origins : S → result SockError (list DeviceId);
  advance_local_coverage : S → DeviceId → OrderKey → result SockError () * S;
  save_relay_cursor : S → DeviceId → RelayCursor → result SockError () * S;
  reset_relay_cursor : S → DeviceId → RelayCursor → result SockError () * S;
  on_pull_page_applied : S → DeviceId → PullPage → Z → nat → S;
  commit_relay_cursor : S → DeviceId → RelayCursor → result SockError () * S;
  commit_pull_reset : S → DeviceId → RelayCursor → result SockError () * S;
  admit_ops : ∀ {C : Type}, S → DeviceId → list SignedOp → bool → bool →
    (nat → nat → S → C → result SockError () * S * C) → C →
    result SockError (PullAdmission SockError) * S * C;
}.
#[global] Arguments SockError S {_}.
#[export] Hint Mode MeshPullSocket ! : typeclass_instances.

(** ** The default methods of the trait *)

Section defaults.
Context {S E : Type} (protocol : string → E) (now_ms : S → Z * S)
  (origins : S → result E (list DeviceId))
  (save reset : S → DeviceId → RelayCursor → result E () * S).

(** [Hlc((self.now_ms().max(0) as u64) << 16)]: the shift drops the high bits. *)
Definition hlc_of_ms (ms : Z) : Hlc := (Z.shiftl (Z.max ms 0) 16 mod u64_modulus)%Z.
Definition default_next_hlc (s : S) : Hlc * S := let '(ms, s) := now_ms s in (hlc_of_ms ms, s).
Definition default_lookup_peer_sec1 (_ : S) (_ : DeviceId) : result E (option (barr 33)) := Ok None.
Definition default_is_peer_trusted (_ : S) (_ : DeviceId) : result E bool := Ok true.
Definition default_is_coverage_primed (_ : S) : result E bool := Ok true.
Definition default_record_peer_ack (s : S) (_ : DeviceId) (_ : barr 32) (_ : Z) : result E () * S :=
  (Ok (), s).
Definition default_local_coverage (_ : S) : result E CoverageVector := Ok [].
Definition default_known_origins (s : S) : result E (list DeviceId) := origins s.
Definition default_advance_local_coverage (s : S) (_ : DeviceId) (_ : OrderKey) : result E () * S :=
  (Ok (), s).
Definition default_save_relay_cursor (s : S) (_ : DeviceId) (_ : RelayCursor) : result E () * S :=
  (Ok (), s).
Definition default_on_pull_page_applied (s : S) (_ : DeviceId) (_ : PullPage) (_ : Z) (_ : nat) : S := s.
Definition default_commit_relay_cursor (s : S) (peer : DeviceId) (c : RelayCursor) : result E () * S :=
  save s peer c.
Definition default_commit_pull_reset (s : S) (peer : DeviceId) (c : RelayCursor) : result E () * S :=
  reset s peer c.
Definition default_admit_ops {C : Type} (s : S) (_ : DeviceId) (_ : list SignedOp) (_ _ : bool)
    (_ : nat → nat → S → C → result E () * S * C) (c : C) : result E (PullAdmission E) * S * C :=
  (Err (protocol "MeshPullSocket::admit_ops is not implemented"), s, c).
End defaults.

(** ** The serving state ([ServeState] of [src/net/server.rs])

    [ss_permits] is what the semaphore of parked watches has left, [ss_replays]
    the relay replay cache; [ss_clock] the wall clock in milliseconds and
    [ss_instant] the monotonic one, as read during a call. *)

Record ServeState (L D : Type) : Type := mk_serve {
  ss_identity : DeviceIdentity;
  ss_log : L;
  ss_devices : D;
  ss_relay_callers : D;
  ss_watch : HeadWatch;
  ss_permits : nat;
  ss_replays : gmap (DeviceId * barr 32) Z;
  ss_clock : Z;
  ss_instant : Z;
}.
Arguments mk_serve {L D}.
Arguments ss_identity {L D}.
Arguments ss_log {L D}.
Arguments ss_devices {L D}.
Arguments ss_relay_callers {L D}.
Arguments ss_watch {L D}.
Arguments ss_permits {L D}.
Arguments ss_replays {L D}.
Arguments ss_clock {L D}.
Arguments ss_instant {L D}.

Definition serve_new {L D} (identity : DeviceIdentity) (log : L) (devices : D) (clock instant : Z)
    : ServeState L D :=
  mk_serve identity log devices devices watch_inert DEFAULT_MAX_PARKED_WATCHES ∅ clock instant.
Definition with_relay_callers {L D} (s : ServeState L D) (relay_callers : D) : ServeState L D :=
  mk_serve (ss_identity s) (ss_log s) (ss_devices s) relay_callers (ss_watch s) (ss_permits s)
    (ss_replays s) (ss_clock s) (ss_instant s).
Definition with_watch {L D} (s : ServeState L D) (watch : HeadWatch) : ServeState L D :=
  mk_serve (ss_identity s) (ss_log s) (ss_devices s) (ss_relay_callers s) watch (ss_permits s)
    (ss_replays s) (ss_clock s) (ss_instant s).
Definition with_watch_limit {L D} (s : ServeState L D) (max : nat) : ServeState L D :=
  mk_serve (ss_identity s) (ss_log s) (ss_devices s) (ss_relay_callers s) (ss_watch s) max
    (ss_replays s) (ss_clock s) (ss_instant s).

Section serve_socket.
Context `{Postcard, !Wire EnvelopeRepr} {L D : Type} `{!LogSource L, !DeviceBook D}.
Notation St := (ServeState L D).

Definition serve_relay_stream_state (s : St) : result string RelayStreamState :=
  st ← src_relay_state (ss_log s);
  ok_or st "relay stream is not supported by this log source".
Definition serve_relay_since (s : St) (after limit : Z) : result string (list (Z * SignedOp * bytes)) :=
  rows ← src_relay_since_with_envelopes (ss_log s) after limit;
  ok_or rows "relay page is not supported by this log source".

#[export] Instance serve_socket : MeshPullSocket St := {|
  SockError := string;
  sock_display := λ e, e;
  protocol_error := λ m, m;
  invalid_argument := λ m, m;
  own_device_id := λ s, device_id (ss_identity s);
  local_identity := ss_identity;
  sock_now_ms := λ s, (ss_clock s, s);
  next_hlc := default_next_hlc (λ s, (ss_clock s, s));
  lookup_peer_sec1 := λ s peer, try_key_for_device (ss_relay_callers s) peer;
  is_peer_trusted := default_is_peer_trusted;
  is_coverage_primed := default_is_coverage_primed;
  relay_stream_state := serve_relay_stream_state;
  sock_origins := λ s, src_origins (ss_log s);
  sock_origin_since := λ s, src_origin_since (ss_log s);
  sock_relay_since := serve_relay_since;
  record_peer_ack := default_record_peer_ack;
  local_coverage := default_local_coverage;
  known_origins := default_known_origins (λ s, src_origins (ss_log s));
  advance_local_coverage := default_advance_local_coverage;
  save_relay_cursor := default_save_relay_cursor;
  reset_relay_cursor := default_save_relay_cursor;
  on_pull_page_applied := default_on_pull_page_applied;
  commit_relay_cursor := default_commit_relay_cursor default_save_relay_cursor;
  commit_pull_reset := default_commit_pull_reset default_save_relay_cursor;
  admit_ops := @default_admit_ops _ _ (λ m, m);
|}.
End serve_socket.

(** ** The in-memory client ([OpLogPullSocket]) *)

Section oplog_socket.
Context `{Uhlc, Postcard, !Wire BodyRepr, !Wire EnvelopeRepr} {T : Type} `{!Store T}.

(** [os_now] is what the system clock answers, reading by reading. *)
Record OpLogPullSocket : Type := mk_oplog_socket {
  os_identity : DeviceIdentity;
  os_clock : NodeClock;
  os_registry : DeviceRegistry;
  os_log : OpLog;
  os_store : T;
  os_coverage : CoverageVector;
  os_cursors : list (DeviceId * RelayCursor);
  os_now : nat → Z;
}.

Definition os_with_coverage (s : OpLogPullSocket) (c : CoverageVector) : OpLogPullSocket :=
  mk_oplog_socket (os_identity s) (os_clock s) (os_registry s) (os_log s) (os_store s) c
    (os_cursors s) (os_now s).
Definition os_with_cursors (s : OpLogPullSocket) (c : list (DeviceId * RelayCursor)) : OpLogPullSocket :=
  mk_oplog_socket (os_identity s) (os_clock s) (os_registry s) (os_log s) (os_store s)
    (os_coverage s) c (os_now s).
Definition os_with_clock (s : OpLogPullSocket) (c : NodeClock) : OpLogPullSocket :=
  mk_oplog_socket (os_identity s) c (os_registry s) (os_log s) (os_store s)
    (os_coverage s) (os_cursors s) (os_now s).
Definition os_with_log (s : OpLogPullSocket) (c : NodeClock) (l : OpLog) (t : T) : OpLogPullSocket :=
  mk_oplog_socket (os_identity s) c (os_registry s) l t (os_coverage s) (os_cursors s) (os_now s).

(** [unix_ms() as i64] *)
Definition os_now_ms (s : OpLogPullSocket) : Z * OpLogPullSocket :=
  (os_now s 0, mk_oplog_socket (os_identity s) (os_clock s) (os_registry s) (os_log s) (os_store s)
                 (os_coverage s) (os_cursors s) (λ n, os_now s (S n))).

(** [OpLogPullSocket::advance_local_coverage] *)
Definition os_advance_coverage (s : OpLogPullSocket) (origin : DeviceId) (key : OrderKey)
    : result string () * OpLogPullSocket :=
  let claim :=
    match bt_get origin (os_coverage s) with
    | Some existing => if decide (existing ≺ key) then key else existing
    | None => key
    end in
  (Ok (), os_with_coverage s (bt_insert origin claim (os_coverage s))).

(** [OpLogPullSocket::save_relay_cursor] *)
Definition os_save_cursor (s : OpLogPullSocket) (peer : DeviceId) (cursor : RelayCursor)
    : result string () * OpLogPullSocket :=
  let saved :=
    match bt_get peer (os_cursors s) with
    | Some existing =>
        if decide (rc_epoch existing = rc_epoch cursor)
        then mk_cursor (rc_epoch existing) (Z.max (rc_after existing) (rc_after cursor))
        else cursor
    | None => cursor
    end in
  (Ok (), os_with_cursors s (bt_insert peer saved (os_cursors s))).

(** [OpLogPullSocket::reset_relay_cursor] *)
Definition os_reset_cursor (s : OpLogPullSocket) (peer : DeviceId) (cursor : RelayCursor)
    : result string () * OpLogPullSocket :=
  (Ok (), os_with_cursors s (bt_insert peer cursor (os_cursors s))).

Definition panic_clock_id : string := "one non-zero byte is a valid id".

(** The loop of [OpLogPullSocket::admit_ops]: the admitted count, whether an op
    was new, the error it stopped at, and the clock and log it leaves.  A panic
    of the clock id is rendered as an error. *)
Fixpoint admit_loop (registry : DeviceRegistry) (skip_unattested : bool) (ops : list SignedOp)
    (clock : NodeClock) (log : OpLog) (admitted : nat) (appended : bool)
    : nat * bool * option string * NodeClock * OpLog :=
  match ops with
  | [] => (admitted, appended, None, clock, log)
  | op :: ops =>
      match key_for registry (op_device (op_body op)) with
      | None =>
          if skip_unattested
          then admit_loop registry skip_unattested ops clock log (S admitted) appended
          else (admitted, appended,
                Some ("unknown signing device " +:+ DeviceId_to_hex (op_device (op_body op))), clock, log)
      | Some verifying =>
          match verify op verifying with
          | Err e =>
              (admitted, appended,
               Some ("verify op " +:+ encode_hex (op_id op) +:+ ": " +:+ OpError_display e), clock, log)
          | Ok _ =>
              match clock_update clock (op_hlc (op_body op)) (op_device (op_body op)) with
              | None => (admitted, appended, Some panic_clock_id, clock, log)
              | Some (Err e, clock) =>
                  (admitted, appended,
                   Some ("clock update " +:+ encode_hex (op_id op) +:+ ": " +:+ HlcError_display e),
                   clock, log)
              | Some (Ok _, clock) =>
                  let '(fresh, log) := log_append log op in
                  admit_loop registry skip_unattested ops clock log (S admitted) (appended || fresh)
              end
          end
      end
  end.

(** [OpLogPullSocket::admit_ops] *)
Definition os_admit_ops {C : Type} (s : OpLogPullSocket) (_ : DeviceId) (ops : list SignedOp)
    (skip_unattested _ : bool)
    (after_quantum : nat → nat → OpLogPullSocket → C → result string () * OpLogPullSocket * C) (c : C)
    : result string (PullAdmission string) * OpLogPullSocket * C :=
  let '(admitted, appended, error, clock, log) :=
    admit_loop (os_registry s) skip_unattested ops (os_clock s) (os_log s) 0 false in
  let '(error, t) :=
    if appended : bool then
      match replay log (os_store s) with
      | (Ok _, t) => (error, t)
      | (Err e, t) => (Some ("replay store: " +:+ ReplayError_display e), t)
      end
    else (error, os_store s) in
  match after_quantum admitted admitted (os_with_log s clock log t) c with
  | (Err e, s, c) => (Err e, s, c)
  | (Ok _, s, c) => (Ok (mk_admission admitted admitted error), s, c)
  end.

Definition os_relay_since (s : OpLogPullSocket) (after limit : Z)
    : result string (list (Z * SignedOp * bytes)) :=
  rows ← oplog_relay_since (os_log s) after limit; ok_or rows panic_relay_order.

#[export] Instance oplog_socket : MeshPullSocket OpLogPullSocket := {|
  SockError := string;
  sock_display := λ e, e;
  protocol_error := λ m, m;
  invalid_argument := λ m, m;
  own_device_id := λ s, device_id (os_identity s);
  local_identity := os_identity;
  sock_now_ms := os_now_ms;
  next_hlc := λ s, let '(t, c) := clock_now (os_clock s) in (t, os_with_clock s c);
  lookup_peer_sec1 := default_lookup_peer_sec1;
  is_peer_trusted := default_is_peer_trusted;
  is_coverage_primed := default_is_coverage_primed;
  relay_stream_state := λ s, Ok (log_relay_state (os_log s));
  sock_origins := λ s, Ok (log_origins (os_log s));
  sock_origin_since := λ s, log_origin_since (os_log s);
  sock_relay_since := os_relay_since;
  record_peer_ack := default_record_peer_ack;
  local_coverage := λ s, Ok (os_coverage s);
  known_origins := λ s, Ok (registry_entries (os_registry s)).*1;
  advance_local_coverage := os_advance_coverage;
  save_relay_cursor := os_save_cursor;
  reset_relay_cursor := os_reset_cursor;
  on_pull_page_applied := default_on_pull_page_applied;
  commit_relay_cursor := default_commit_relay_cursor os_save_cursor;
  commit_pull_reset := default_commit_pull_reset os_reset_cursor;
  admit_ops := @os_admit_ops;
|}.
End oplog_socket.
End socket.

#[global] Arguments mk_admission {E}.
#[global] Arguments adm_admitted {E}.
#[global] Arguments adm_claim_safe {E}.
#[global] Arguments adm_error {E}.
#[global] Arguments mk_serve {_ L D}.
#[global] Arguments ss_identity {_ L D}.
#[global] Arguments ss_log {_ L D}.
#[global] Arguments ss_devices {_ L D}.
#[global] Arguments ss_relay_callers {_ L D}.
#[global] Arguments ss_watch {_ L D}.
#[global] Arguments ss_permits {_ L D}.
#[global] Arguments ss_replays {_ L D}.
#[global] Arguments ss_clock {_ L D}.
#[global] Arguments ss_instant {_ L D}.
#[global] Arguments OpLogPullSocket {_ _} T.

(** ** What a serving socket promises

    The page builder reads a socket through its serving callbacks only; they
    are functions of the arrival sequence the socket's log represents. *)

Section serves.
Context `{Crypto, Postcard, !Wire EnvelopeRepr}.

Class SocketServes (S : Type) `{!MeshPullSocket S} (rep : S → list SignedOp → Prop) : Prop := {
  serves_nodup s arr : rep s arr → NoDup (op_id <$> arr);
  serves_stream s arr :
    rep s arr → ∃ st, relay_stream_state s = Ok st ∧ rs_epoch st ≠ zeros 32 ∧
      rs_head st = len arr ∧ rs_floor st = 0%Z;
  serves_origin_set s arr :
    rep s arr → ∃ origins, sock_origins s = Ok origins ∧ StronglySorted olt origins ∧
      (∀ d, d ∈ origins ↔ ∃ op, op ∈ arr ∧ op_device (op_body op) = d);
  serves_origin_since s arr origin after store limit rows :
    rep s arr → (0 < limit)%Z →
    try_map encode_row (takeZ limit (filter (origin_row origin after store) (ordered arr))) = Ok rows →
    sock_origin_since s origin after store limit = Ok rows;
  serves_relay_since s arr after limit rows :
    rep s arr → (0 ≤ after)%Z →
    let start := Z.to_nat (Z.min after (len arr)) in
    with_envelopes (numbered start (takeZ limit (drop start arr))) = Ok rows →
    sock_relay_since s after limit = Ok rows;
}.

(** The serving state keeps it over any log source that keeps its own. *)
#[export] Instance serve_state_serves {L D} `{!LogSource L, !DeviceBook D} lrep `{!LogSourceOk L lrep} :
  SocketServes (ServeState L D) (λ s arr, lrep (ss_log s) arr).
Proof.
  split; cbn; unfold serve_relay_stream_state, serve_relay_since.
  - intros s arr. apply src_nodup.
  - intros s arr Hr. destruct (src_relay_state_ok _ _ Hr) as (st & Hst & He & Hh & Hf).
    exists st. by rewrite Hst.
  - intros s arr. apply src_origins_ok.
  - intros s arr origin after store limit rows Hr Hl <-. by rewrite (src_origin_since_ok _ _ _ _ _ _ Hr Hl).
  - intros s arr after limit rows Hr Ha Hrows. by rewrite (src_relay_since_ok _ _ _ _ Hr Ha), Hrows.
Qed.

(** So does the in-memory client. *)
#[export] Instance oplog_socket_serves `{Uhlc, !Wire BodyRepr} {T} `{!Store T} :
  SocketServes (OpLogPullSocket T) (λ s arr, log_rep (os_log s) arr).
Proof.
  split; cbn; unfold os_relay_since.
  - intros s arr. apply rep_nodup.
  - intros s arr Hr. destruct (src_relay_state_ok _ _ Hr) as (st & [= <-] & Hst). by eexists.
  - intros s arr Hr. by destruct (src_origins_ok _ _ Hr) as (o & [= <-] & Ho); eexists.
  - intros s arr origin after store limit rows Hr Hl <-. by apply log_origin_since_ok.
  - intros s arr after limit rows Hr Ha Hrows. by rewrite (oplog_relay_since_ok _ _ _ _ Hr Ha), Hrows.
Qed.
End serves.
