(* ===== verification/Server.v ===== *)
(** * The serving handlers ([src/net/server.rs])

    One definition per route: what it answers and the state it leaves (the
    replay cache is the only part a handler writes).  A query is the value the
    framework's extractor parsed. *)

From S2P Require Import Prelude Ordered External Toy Http Identity Op Registry Store Log Durable Pull Transport Relay Watch Socket.

(** ** Wire types ([src/net/mod.rs]) *)

Record IdentityResp : Type := mk_IdentityResp { ir_device_id : barr 32; ir_public_key_sec1 : bytes }.
Record PullResponse : Type := mk_PullResponse { pl_ops : list bytes; pl_next : bytes }.
Record DeviceEntry : Type := mk_DeviceEntry { de_device_id : barr 32; de_public_key_sec1 : bytes }.
Record DevicesResp : Type := mk_DevicesResp { dr_devices : list DeviceEntry }.

(** ** Queries *)

Record OpsQuery : Type := mk_OpsQuery { oq_since : option string; oq_limit : option Z }.
Record WatchQuery : Type := mk_WatchQuery { wq_head : option string; wq_wait : option Z }.
Record RelayBaseQuery : Type := mk_RelayBaseQuery { bq_epoch : string; bq_after : Z }.
Record RelayOpsQuery : Type := mk_RelayOpsQuery { rq_epoch : string; rq_after : Z; rq_limit : Z }.
Record RelayWatchQuery : Type := mk_RelayWatchQuery { rw_epoch : string; rw_after : Z; rw_wait : Z }.

Section server.
Context `{Crypto, Postcard, !Wire BodyRepr, !Wire EnvelopeRepr, !Wire RelayResponse, !Wire IdentityResp,
          !Wire PullResponse, !Wire DevicesResp} {L D : Type} `{!LogSource L, !DeviceBook D}.
Notation St := (ServeState L D).

Definition with_replays (s : St) (replays : RelayReplayCache) : St :=
  mk_serve (ss_identity s) (ss_log s) (ss_devices s) (ss_relay_callers s) (ss_watch s) (ss_permits s)
    replays (ss_clock s) (ss_instant s).

(** [match postcard::to_allocvec(&resp) { Ok(bytes) => octet(bytes), Err(_) => 500 }] *)
Definition octet_of {A} `{!Wire A} (resp : A) : Response :=
  match to_allocvec resp with
  | Ok bs => octet bs
  | Err _ => status_response INTERNAL_SERVER_ERROR
  end.

(** ** Identity and the semantic-order routes *)

Definition get_identity (s : St) : Response :=
  octet_of (mk_IdentityResp (device_id (ss_identity s)) (public_key_sec1 (ss_identity s))).

(** [Some(s) if !s.is_empty() => decode_order_key(s)], [OrderKey::MIN] otherwise. *)
Definition query_key (q : option string) : option OrderKey :=
  match q with
  | Some hex => if decide (hex = "") then Some OrderKey_MIN else decode_order_key hex
  | None => Some OrderKey_MIN
  end.

(** The loop over [state.log.since(cursor, limit)]. *)
Fixpoint ops_page (ops : list SignedOp) (out : list bytes) (next : OrderKey)
    : result OpError (list bytes * OrderKey) :=
  match ops with
  | [] => Ok (out, next)
  | op :: ops => bs ← op_to_bytes op; ops_page ops (out ++ [bs]) (order_key op)
  end.

Definition get_ops (s : St) (q : OpsQuery) : Response :=
  match query_key (oq_since q) with
  | None => status_response BAD_REQUEST
  | Some cursor =>
      let limit := default DEFAULT_PULL_LIMIT (oq_limit q) in
      match ops_page (src_since (ss_log s) cursor limit) [] cursor with
      | Err _ => status_response INTERNAL_SERVER_ERROR
      | Ok (ops, next) => octet_of (mk_PullResponse ops (to_wire next))
      end
  end.

Definition get_head (s : St) : Response := octet (to_wire (head_last (ss_log s))).

(** [park] is what [watch.until_head_changes(&log, known, wait)] answers. *)
Definition get_watch (s : St) (park : OrderKey → Z → OrderKey) (q : WatchQuery) : Response :=
  match query_key (wq_head q) with
  | None => status_response BAD_REQUEST
  | Some known =>
      let wait := Z.min (default WATCH_DEFAULT_WAIT (wq_wait q)) WATCH_MAX_WAIT in
      octet (to_wire (if decide (0 < ss_permits s) then park known wait else head_last (ss_log s)))
  end.

(** ** The relay routes *)

(** [match log.relay_state() { Ok(Some(stream)) => stream, Ok(None) => return 501,
    Err(_) => return 503 }] *)
Definition stream_or {A} (r : result string (option A)) : result Z A :=
  match r with
  | Ok (Some stream) => Ok stream
  | Ok None => Err NOT_IMPLEMENTED
  | Err _ => Err SERVICE_UNAVAILABLE
  end.

(** [if !valid_relay_state(stream) { return 500 }] *)
Definition valid_or (stream : RelayStreamState) : result Z RelayStreamState :=
  if valid_relay_state stream then Ok stream else Err INTERNAL_SERVER_ERROR.

(** An early [return status.into_response()] of a handler. *)
Definition respond (r : result Z Response) : Response :=
  match r with Ok response => response | Err status => status_response status end.

Definition relay_guard (s : St) (epoch : string) (after bound : Z) (headers : list (string * string))
    (context : bytes) : result Z RelayRequestAuth * St :=
  let '(auth, replays) :=
    relay_request epoch after bound headers context (device_id (ss_identity s)) (ss_relay_callers s)
      (ss_instant s) (ss_replays s) in
  (auth, with_replays s replays).

(** What [get_relay_ops] answers an accepted request; [later] is the shared log
    at the second read. *)
Definition relay_ops_page (s : St) (later : L) (q : RelayOpsQuery) (request : RelayRequestAuth)
    : result Z Response :=
  let answer := signed_relay_response (ss_identity s) (ra_caller request) RELAY_OPS_SIGNING_CONTEXT
                  (ra_epoch request) (rq_after q) (rq_limit q) (ra_nonce request) in
  stream ← stream_or (src_relay_state (ss_log s));
  stream ← valid_or stream;
  if relay_needs_reset (ra_epoch request) (rq_after q) stream
  then Ok (answer stream true (rs_floor stream) []) else
  page ← stream_or (src_relay_page later (rq_after q) (rq_limit q));
  stream ← valid_or (rp_state page);
  if relay_needs_reset (ra_epoch request) (rq_after q) stream
  then Ok (answer stream true (rs_floor stream) []) else
  if decide (rq_limit q < len (rp_entries page))%Z then Err INTERNAL_SERVER_ERROR else
  let seqs := re_seq <$> rp_entries page in
  if negb (contiguous (rq_after q) (rs_head stream) seqs) then Err INTERNAL_SERVER_ERROR else
  Ok (answer stream false (last_seq (rq_after q) seqs) (rp_entries page)).

Definition get_relay_ops (s : St) (later : L) (q : RelayOpsQuery) (headers : list (string * string))
    : Response * St :=
  if decide (rq_limit q = 0 ∨ DEFAULT_PULL_LIMIT < rq_limit q)%Z
  then (status_response BAD_REQUEST, s) else
  let '(request, s) :=
    relay_guard s (rq_epoch q) (rq_after q) (rq_limit q) headers RELAY_OPS_REQUEST_CONTEXT in
  (respond (request ← request; relay_ops_page s later q request), s).

(** The bounds alone, for the head and watch routes. *)
Definition relay_status (s : St) (context : bytes) (request : RelayRequestAuth) (after bound : Z)
    (stream : RelayStreamState) : Response :=
  let reset := relay_needs_reset (ra_epoch request) after stream in
  signed_relay_response (ss_identity s) (ra_caller request) context (ra_epoch request) after bound
    (ra_nonce request) stream reset (if reset then rs_floor stream else after) [].

Definition get_relay_head (s : St) (q : RelayBaseQuery) (headers : list (string * string))
    : Response * St :=
  let '(request, s) := relay_guard s (bq_epoch q) (bq_after q) 0 headers RELAY_HEAD_REQUEST_CONTEXT in
  (respond (request ← request;
            stream ← stream_or (src_relay_state (ss_log s));
            stream ← valid_or stream;
            Ok (relay_status s RELAY_HEAD_SIGNING_CONTEXT request (bq_after q) 0 stream)), s).

(** [park] is what [watch.until_relay_changes(&log, epoch, after, wait)] answers. *)
Definition get_relay_watch (s : St)
    (park : barr 32 → Z → Z → result string (option RelayStreamState)) (q : RelayWatchQuery)
    (headers : list (string * string)) : Response * St :=
  let '(request, s) :=
    relay_guard s (rw_epoch q) (rw_after q) (rw_wait q) headers RELAY_WATCH_REQUEST_CONTEXT in
  (respond (request ← request;
            initial ← stream_or (src_relay_state (ss_log s));
            initial ← valid_or initial;
            stream ← (if relay_needs_reset (ra_epoch request) (rw_after q) initial
                         || bool_decide (ra_epoch request = zeros 32)
                         || bool_decide (rs_head initial > rw_after q)%Z
                         || bool_decide (rs_head initial < rw_after q)%Z
                      then Ok initial
                      else if decide (0 < ss_permits s)
                      then stream_or (park (ra_epoch request) (rw_after q) (Z.min (rw_wait q) WATCH_MAX_WAIT))
                      else Ok initial);
            stream ← valid_or stream;
            Ok (relay_status s RELAY_WATCH_SIGNING_CONTEXT request (rw_after q) (rw_wait q) stream)), s).

(** ** The device book *)

Definition device_entry (kv : DeviceId * barr 33) : DeviceEntry := mk_DeviceEntry kv.1 kv.2.

Definition get_devices (s : St) (headers : list (string * string)) : Response :=
  let nonce :=
    match header DEVICE_BOOK_NONCE_HEADER headers with
    | Some value =>
        encoded ← ok_or (header_to_str value) BAD_REQUEST;
        nonce ← ok_or (decode_fixed_hex 32 encoded) BAD_REQUEST;
        Ok (Some nonce)
    | None => Ok None
    end in
  respond (nonce ← nonce;
           devices ← map_err (λ _, SERVICE_UNAVAILABLE) (try_known_devices (ss_devices s));
           body ← map_err (λ _, INTERNAL_SERVER_ERROR)
                    (to_allocvec (mk_DevicesResp (device_entry <$> devices)));
           match nonce with
           | Some nonce =>
               value ← ok_or (header_value_from_str
                                (encode_hex (sign_device_book (ss_identity s) nonce body)))
                         INTERNAL_SERVER_ERROR;
               Ok (with_header (octet body) DEVICE_BOOK_SIGNATURE_HEADER value)
           | None => Ok (octet body)
           end).

(** ** The routers *)

(** A request the framework routed, with the query it extracted. *)
Inductive Route : Type :=
  | RtIdentity
  | RtOps (q : OpsQuery)
  | RtHead
  | RtWatch (q : WatchQuery)
  | RtRelayOps (q : RelayOpsQuery)
  | RtRelayHead (q : RelayBaseQuery)
  | RtRelayWatch (q : RelayWatchQuery)
  | RtDevices.

Section routers.
Context (later : L) (park_head : OrderKey → Z → OrderKey)
  (park_relay : barr 32 → Z → Z → result string (option RelayStreamState)).

(** [relay_router]: the legacy routes are not registered. *)
Definition relay_router (s : St) (route : Route) (headers : list (string * string)) : Response * St :=
  match route with
  | RtIdentity => (get_identity s, s)
  | RtRelayOps q => get_relay_ops s later q headers
  | RtRelayHead q => get_relay_head s q headers
  | RtRelayWatch q => get_relay_watch s park_relay q headers
  | RtDevices => (get_devices s headers, s)
  | _ => (status_response NOT_FOUND, s)
  end.

(** [router]: the legacy routes beside them. *)
Definition router (s : St) (route : Route) (headers : list (string * string)) : Response * St :=
  match route with
  | RtOps q => (get_ops s q, s)
  | RtHead => (get_head s, s)
  | RtWatch q => (get_watch s park_head q, s)
  | _ => relay_router s route headers
  end.
End routers.
End server.
