(* ===== verification/Client.v ===== *)
(** * The HTTP client ([src/net/client.rs])

    The requests a puller makes, each checked against the pinned peer before its
    body is read.  The network is the world of [Transport.v]; a nonce is what
    the operating system's generator answers. *)

From stdpp Require Import pretty.
From S2P Require Import Prelude Ordered External Toy Http Identity Text Op Registry Store Log Durable Pull Transport Relay Watch Socket Server.

Definition source_new (base : string) : HttpPullSource :=
  mk_source (trim_end_char "/"%char base) DEFAULT_PULL_LIMIT.
Definition with_limit (s : HttpPullSource) (limit : Z) : HttpPullSource := mk_source (base_url s) limit.

Section client.
Context `{Crypto, Postcard, !Wire BodyRepr, !Wire EnvelopeRepr, !Wire RelayResponse, !Wire IdentityResp,
          !Wire PullResponse, !Wire DevicesResp, StatusText} {W : Type} `{!HttpWorld W}.

(** A reply that is a success, or the error the client reports. *)
Definition success (reply : HttpReply) : result TransportError HttpReply :=
  if is_success (rep_status reply) then Ok reply
  else Err (HttpErr ("status " +:+ status_display (rep_status reply))).
Definition reply_bytes (reply : HttpReply) : result TransportError bytes :=
  map_err HttpErr (rep_body reply).

Definition decode_wire {A} `{!Wire A} (bs : bytes) : result TransportError A :=
  map_err (λ e, WireErr (pc_display e)) (from_bytes bs).

Definition get_bytes (w : W) (url : string) : result TransportError bytes * W :=
  let '(sent, w) := http_get w url [] in
  (reply ← map_err HttpErr sent; reply ← success reply; reply_bytes reply, w).

Definition fetch_identity (w : W) (source : HttpPullSource) : result TransportError IdentityResp * W :=
  let '(got, w) := get_bytes w (base_url source +:+ "/identity") in
  (bs ← got; decode_wire bs, w).

Definition fetch_head (w : W) (source : HttpPullSource) : result TransportError OrderKey * W :=
  let '(got, w) := get_bytes w (base_url source +:+ "/head") in
  (bs ← got; arr ← ok_or (vec_of_list 72 bs) (WireErr "head is not 72 bytes"); Ok (from_wire arr), w).

Definition watch_head (w : W) (source : HttpPullSource) (known : OrderKey) (wait : Z)
    : result TransportError OrderKey * W :=
  let url := base_url source +:+ "/watch?head=" +:+ encode_order_key known +:+ "&wait=" +:+ pretty wait in
  let '(sent, w) := http_get w url [] in
  (reply ← map_err HttpErr sent;
   reply ← success reply;
   bs ← reply_bytes reply;
   arr ← ok_or (vec_of_list 72 bs) (WireErr "watch head is not 72 bytes");
   Ok (from_wire arr), w).

Definition fetch_devices (w : W) (source : HttpPullSource) : result TransportError DevicesResp * W :=
  let '(got, w) := get_bytes w (base_url source +:+ "/devices") in
  (bs ← got; decode_wire bs, w).

(** A response header, present and readable. *)
Definition response_header (name : string) (reply : HttpReply) : result TransportError string :=
  value ← ok_or (header name (rep_headers reply)) (WireErr ("missing " +:+ name +:+ " response header"));
  ok_or (header_to_str value) (WireErr ("invalid " +:+ name +:+ " response header")).

Definition fetch_attested_devices (w : W) (source : HttpPullSource) (random : result string (barr 32))
    (expected_peer : DeviceId) (expected_public_key_sec1 : barr 33)
    : result TransportError DevicesResp * W :=
  match random with
  | Err e => (Err (HttpErr ("device-book nonce generation failed: " +:+ e)), w)
  | Ok nonce =>
      let '(sent, w) :=
        http_get w (base_url source +:+ "/devices") [(DEVICE_BOOK_NONCE_HEADER, encode_hex nonce)] in
      (reply ← map_err HttpErr sent;
       reply ← success reply;
       signature ← response_header DEVICE_BOOK_SIGNATURE_HEADER reply;
       bs ← reply_bytes reply;
       _ ← verify_device_book expected_peer expected_public_key_sec1 nonce bs signature;
       decode_wire bs, w)
  end.

(** ** The relay requests *)

(** The checks of [request_relay] on a reply. *)
Definition read_relay (local_identity : DeviceIdentity) (context : bytes) (request_bound : Z)
    (cursor : RelayCursor) (expected_peer : DeviceId) (expected_public_key_sec1 : barr 33)
    (max_entries : Z) (status_only : bool) (nonce : barr 32) (reply : HttpReply)
    : result TransportError RelayPage :=
  if decide (rep_status reply = NOT_FOUND ∨ rep_status reply = NOT_IMPLEMENTED)
  then Err (RelayRelayUnsupported (rep_status reply)) else
  reply ← success reply;
  signature ← response_header RELAY_SIGNATURE_HEADER reply;
  body ← reply_bytes reply;
  _ ← verify_relay_signature (device_id local_identity) expected_peer expected_public_key_sec1 context
        cursor request_bound nonce body signature;
  wire ← decode_wire body;
  decode_relay_response wire cursor max_entries status_only.

Definition request_relay (w : W) (local_identity : DeviceIdentity) (random : result string (barr 32))
    (url : string) (context request_context : bytes) (request_bound : Z) (cursor : RelayCursor)
    (expected_peer : DeviceId) (expected_public_key_sec1 : barr 33) (max_entries : Z) (status_only : bool)
    : result TransportError RelayPage * W :=
  match random with
  | Err e => (Err (HttpErr ("relay nonce generation failed: " +:+ e)), w)
  | Ok nonce =>
      let request_signature :=
        sign_relay_request local_identity request_context expected_peer (rc_epoch cursor)
          (rc_after cursor) request_bound nonce in
      let '(sent, w) := http_get w url (relay_headers local_identity nonce request_signature) in
      (reply ← map_err HttpErr sent;
       read_relay local_identity context request_bound cursor expected_peer expected_public_key_sec1
         max_entries status_only nonce reply, w)
  end.

Definition relay_url (source : HttpPullSource) (path : string) (cursor : RelayCursor) : string :=
  base_url source +:+ path +:+ "?epoch=" +:+ encode_hex (rc_epoch cursor)
    +:+ "&after=" +:+ pretty (rc_after cursor).
Definition relay_ops_url (source : HttpPullSource) (cursor : RelayCursor) : string :=
  relay_url source "/v2/ops" cursor +:+ "&limit=" +:+ pretty (src_limit source).

Definition fetch_relay_ops (w : W) (source : HttpPullSource) (local_identity : DeviceIdentity)
    (random : result string (barr 32)) (expected_peer : DeviceId) (expected_public_key_sec1 : barr 33)
    (cursor : RelayCursor) : result TransportError RelayPage * W :=
  request_relay w local_identity random (relay_ops_url source cursor) RELAY_OPS_SIGNING_CONTEXT
    RELAY_OPS_REQUEST_CONTEXT (src_limit source) cursor expected_peer expected_public_key_sec1
    (src_limit source) false.

Definition fetch_relay_head (w : W) (source : HttpPullSource) (local_identity : DeviceIdentity)
    (random : result string (barr 32)) (expected_peer : DeviceId) (expected_public_key_sec1 : barr 33)
    (cursor : RelayCursor) : result TransportError RelayPage * W :=
  request_relay w local_identity random (relay_url source "/v2/head" cursor) RELAY_HEAD_SIGNING_CONTEXT
    RELAY_HEAD_REQUEST_CONTEXT 0 cursor expected_peer expected_public_key_sec1 0 true.

Definition watch_relay_head (w : W) (source : HttpPullSource) (local_identity : DeviceIdentity)
    (random : result string (barr 32)) (expected_peer : DeviceId) (expected_public_key_sec1 : barr 33)
    (cursor : RelayCursor) (wait : Z) : result TransportError RelayPage * W :=
  let wait_millis := Z.min wait WATCH_MAX_WAIT in
  request_relay w local_identity random
    (relay_url source "/v2/watch" cursor +:+ "&wait=" +:+ pretty wait_millis)
    RELAY_WATCH_SIGNING_CONTEXT RELAY_WATCH_REQUEST_CONTEXT wait_millis cursor expected_peer
    expected_public_key_sec1 0 true.

(** [PullSource::pull] of [HttpPullSource] *)
Definition source_pull (w : W) (source : HttpPullSource) (since : OrderKey)
    : result TransportError (list SignedOp) * W :=
  let url := base_url source +:+ "/ops?since=" +:+ encode_order_key since +:+ "&limit="
               +:+ pretty (src_limit source) in
  let '(got, w) := get_bytes w url in
  (bs ← got;
   resp ← decode_wire bs;
   try_map (λ raw, map_err TransOp (op_from_bytes raw)) (pl_ops resp), w).

(** ** What an accepted answer proves *)

(** C24: A relay answer is authentic.  Against any network: a page that
    [request_relay] returns was decoded from a body that the pinned peer's key,
    which derives the expected peer id, signed low-S over this route, this
    caller, the cursor and bound asked and the nonce just drawn; and the page
    either resets a cursor the signed stream does not have, or carries
    consecutive entries after it, within the bounds asked. *)
Theorem relay_page_authentic (w : W) i random url context request_context bound cursor peer sec1
    max_entries status_only page w' :
  request_relay w i random url context request_context bound cursor peer sec1 max_entries status_only =
    (Ok page, w') →
  ∃ nonce key signature body wire,
    random = Ok nonce ∧ vk_from_sec1 sec1 = Some key ∧ device_id_of_key key = peer ∧
    normalize_s signature = None ∧
    vk_verify key (relay_response_signing_input context peer (device_id i) (rc_epoch cursor)
                     (rc_after cursor) bound nonce body) signature = true ∧
    from_bytes body = Ok wire ∧ decode_relay_response wire cursor max_entries status_only = Ok page ∧
    relay_page_ok cursor max_entries status_only page.
Proof.
  unfold request_relay. destruct random as [nonce|e]; [|done]. destruct (http_get _ _ _) as [sent w1].
  intros [= Hread _]. inv_bind Hread. unfold read_relay in Hread. case_decide; [done|].
  inv_bind Hread. inv_bind Hread. inv_bind Hread. inv_bind Hread. inv_bind Hread.
  destruct r3. apply verify_attested_sound in Hr3 as (key & signature & Hk & Hid & Hn & Hv).
  unfold decode_wire in Hr4. apply map_err_ok in Hr4.
  exists nonce, key, signature, r2, r4. split_and!; try done. by eapply decode_relay_response_ok.
Qed.

(** An attested device book likewise. *)
Lemma attested_devices_authentic (w : W) source random peer sec1 resp w' :
  fetch_attested_devices w source random peer sec1 = (Ok resp, w') →
  ∃ nonce key signature body,
    random = Ok nonce ∧ vk_from_sec1 sec1 = Some key ∧ device_id_of_key key = peer ∧
    normalize_s signature = None ∧
    vk_verify key (device_book_signing_input peer nonce body) signature = true ∧ from_bytes body = Ok resp.
Proof.
  unfold fetch_attested_devices. destruct random as [nonce|e]; [|done]. destruct (http_get _ _ _) as [sent w1].
  intros [= Hread _]. do 5 inv_bind Hread. destruct r3.
  apply verify_attested_sound in Hr3 as (key & signature & Hk & Hid & Hn & Hv).
  unfold decode_wire in Hread. apply map_err_ok in Hread. by exists nonce, key, signature, r2.
Qed.

(** A successful reply is read through its signature header and its body. *)
Lemma read_relay_reply i context bound cursor peer sec1 max_entries status_only nonce reply
    (signature : bytes) body :
  rep_status reply = OK → header RELAY_SIGNATURE_HEADER (rep_headers reply) = Some (encode_hex signature) →
  rep_body reply = Ok body →
  read_relay i context bound cursor peer sec1 max_entries status_only nonce reply =
    (_ ← verify_relay_signature (device_id i) peer sec1 context cursor bound nonce body (encode_hex signature);
     wire ← decode_wire body; decode_relay_response wire cursor max_entries status_only).
Proof.
  intros Hst Hh Hb. unfold read_relay, success, response_header, reply_bytes.
  rewrite Hst, decide_False by (by intros [?|?]). change (is_success OK) with true. cbn [mbind result_bind].
  rewrite Hh, Hb. cbn [ok_or mbind result_bind map_err]. by rewrite hex_visible.
Qed.
End client.
