(* ===== verification/Discovery.v ===== *)
(** * Discovery ([src/discovery/mod.rs], [mdns.rs], [tailscale.rs])

    What a provider of presence tells of a peer, the cache of the multicast
    browser, the probes of the tailnet, and the transport built from a hint.  The
    [mdns-sd] daemon, the [tailscale] command and the text of a socket address are
    arguments. *)

From S2P Require Import Prelude Ordered External Toy Http Identity Text Words Op Registry Store Log Durable Hlc Pull Transport Relay Watch Socket Server Client.

(** An address of a peer: its IP address and its port. *)
Definition SocketAddr : Type := IpAddr * Z.
Record PeerInfo : Type := mk_PeerInfo {
  pf_device_id : option DeviceId;
  pf_addrs : list SocketAddr;
  pf_base_url : option string;
  pf_source : string;
}.
Record LocalAdvert : Type := mk_LocalAdvert {
  la_device_id : DeviceId;
  la_mesh_port : Z;
  la_public_key_sec1 : barr 33;
}.
(** [PresenceProvider] over a state, and [PeerTransport]. *)
Class PresenceProvider (P E : Type) := {
  advertise : P → LocalAdvert → result E () * P;
  browse : P → result E (list PeerInfo);
}.
Class PeerTransport (T S E : Type) := connect : T → PeerInfo → result E S.

Section discovery.
(** [Display for SocketAddr] *)
Context (addr_display : SocketAddr → string).

Definition resolve_base_url (p : PeerInfo) : option string :=
  match pf_base_url p with Some url => Some url | None => (λ a, "http://" +:+ addr_display a) <$> head (pf_addrs p) end.
Inductive HttpTransport : Type := http_transport.
#[export] Instance http_connect `{Crypto, Postcard} : PeerTransport HttpTransport HttpPullSource TransportError := λ _ peer,
  base ← ok_or (resolve_base_url peer) (WireErr "peer has no reachable address");
  Ok (source_new base).

(** ** mDNS *)

Definition SERVICE_TYPE : string := "_proxy-node._tcp.local.".
Record ResolvedService : Type := mk_ResolvedService {
  rv_fullname : string;
  rv_port : Z;
  rv_addresses : list IpAddr;
  rv_device_id : option string;
}.
Record ServiceInfo : Type := mk_ServiceInfo {
  si_type : string;
  si_instance : string;
  si_host : string;
  si_port : Z;
  si_props : list (string * string);
}.
Inductive ServiceEvent : Type :=
  | ServiceResolved (svc : ResolvedService)
  | ServiceRemoved (fullname : string)
  | ServiceOther.
Definition peer_from_resolved (svc : ResolvedService) : option PeerInfo :=
  let addrs := (λ ip, (ip, rv_port svc)) <$> rv_addresses svc in
  base_url ← (λ a, "http://" +:+ addr_display a) <$> head addrs;
  Some (mk_PeerInfo (rv_device_id svc ≫= λ s, ok (DeviceId_from_hex s)) addrs (Some base_url) "mdns").
Definition on_event (cache : gmap string PeerInfo) (event : ServiceEvent) : gmap string PeerInfo :=
  match event with
  | ServiceResolved svc =>
      match peer_from_resolved svc with Some peer => <[rv_fullname svc := peer]> cache | None => cache end
  | ServiceRemoved fullname => delete fullname cache
  | ServiceOther => cache
  end.
Definition resolved (events : list ServiceEvent) : gmap string PeerInfo := foldl on_event ∅ events.
Fixpoint string_take (n : nat) (s : string) : string :=
  match n, s with S n, String c s => String c (string_take n s) | _, _ => "" end.
Definition service_info (me : LocalAdvert) : ServiceInfo :=
  let id_hex := DeviceId_to_hex (la_device_id me) in
  let instance := string_take 16 id_hex in
  mk_ServiceInfo SERVICE_TYPE instance (instance +:+ ".local.") (la_mesh_port me)
    [("device_id", id_hex); ("pk", encode_hex (la_public_key_sec1 me)); ("v", "1")].
(** The provider: what the daemon registered, and the events it has seen. *)
Record MdnsProvider : Type := mk_MdnsProvider {
  mp_registered : list ServiceInfo;
  mp_events : list ServiceEvent;
}.
#[export] Instance mdns_presence (register : ServiceInfo → result string ()) : PresenceProvider MdnsProvider string := {|
  advertise p me :=
    match register (service_info me) with
    | Ok _ => (Ok (), mk_MdnsProvider (mp_registered p ++ [service_info me]) (mp_events p))
    | Err e => (Err e, p)
    end;
  browse p := Ok (map_to_list (resolved (mp_events p))).*2;
|}.

(** ** Tailscale *)

Inductive TailscaleError : Type := TailscaleSpawn (e : string) | TailscaleStatus (stderr : string) | TailscaleParse (e : string).
Record TailPeer : Type := mk_TailPeer { tp_ips : list string; tp_online : bool }.
Record TailscaleProvider : Type := mk_TailscaleProvider { ts_binary : string; ts_mesh_port : Z }.
Definition TailscaleProvider_new (mesh_port : Z) : TailscaleProvider := mk_TailscaleProvider "tailscale" mesh_port.
Definition with_binary (p : TailscaleProvider) (binary : string) : TailscaleProvider := mk_TailscaleProvider binary (ts_mesh_port p).

Section tailscale.
(** Whether a node server answers [/head] at a base URL. *)
Context (answers : string → bool).
Fixpoint probe_peer (addrs : list SocketAddr) : option PeerInfo :=
  match addrs with
  | [] => None
  | addr :: addrs =>
      let base_url := "http://" +:+ addr_display addr in
      if answers base_url then Some (mk_PeerInfo None [addr] (Some base_url) "tailscale") else probe_peer addrs
  end.
Definition tail_addrs (p : TailscaleProvider) (peer : TailPeer) : list SocketAddr :=
  (λ ip, (ip, ts_mesh_port p)) <$> omap parse_ip (tp_ips peer).
Definition found (p : TailscaleProvider) (status : list TailPeer) : list PeerInfo :=
  omap (λ peer, if tp_online peer then probe_peer (tail_addrs p peer) else None) status.
(** The command's outcome: it was not run, it failed, or its status was read. *)
Definition tailscale_browse (p : TailscaleProvider)
    (output : result string (result string (result string (list TailPeer)))) : result TailscaleError (list PeerInfo) :=
  match output with
  | Err e => Err (TailscaleSpawn e)
  | Ok (Err stderr) => Err (TailscaleStatus stderr)
  | Ok (Ok (Err e)) => Err (TailscaleParse e)
  | Ok (Ok (Ok status)) => Ok (found p status)
  end.
#[export] Instance tailscale_presence (output : result string (result string (result string (list TailPeer)))) :
  PresenceProvider TailscaleProvider TailscaleError := {|
  advertise p _ := (Ok (), p);
  browse p := tailscale_browse p output;
|}.

(** The peers that are found: the online ones with an address that answers, each
    under the first of its addresses that does. *)
Lemma probe_peer_first addrs p : probe_peer addrs = Some p ↔
  ∃ before addr after, addrs = before ++ addr :: after ∧ answers ("http://" +:+ addr_display addr) = true ∧
    Forall (λ a, answers ("http://" +:+ addr_display a) = false) before ∧
    p = mk_PeerInfo None [addr] (Some ("http://" +:+ addr_display addr)) "tailscale".
Proof.
  induction addrs as [|a addrs IH]; cbn [probe_peer].
  { split; [done|]. intros ([] & ? & ? & [=] & _). }
  destruct (answers _) eqn:Ha.
  - split.
    + intros [= <-]. by exists [], a, addrs.
    + intros ([|b before] & addr & after & [= -> ->] & Hans & Hb & ->); [done|]. apply Forall_cons in Hb as [Hb _]. congruence.
  - rewrite IH. split.
    + intros (before & addr & after & -> & Hans & Hb & ->). exists (a :: before), addr, after. split_and!; [done|done|by constructor|done].
    + intros ([|b before] & addr & after & [= -> ->] & Hans & Hb & ->); [congruence|]. apply Forall_cons in Hb as [_ Hb]. by exists before, addr, after.
Qed.
Lemma tailscale_found p status peers :
  tailscale_browse p (Ok (Ok (Ok status))) = Ok peers →
  ∀ info, info ∈ peers ↔ ∃ peer, peer ∈ status ∧ tp_online peer = true ∧ probe_peer (tail_addrs p peer) = Some info.
Proof.
  intros [= <-] info. unfold found. rewrite list_elem_of_omap. split.
  - intros (peer & Hin & Hp). exists peer. by destruct (tp_online peer).
  - intros (peer & Hin & Hon & Hp). exists peer. by rewrite Hon.
Qed.
End tailscale.

(** What the cache holds of a service: what the last event that told of it said. *)
Definition tells (name : string) (event : ServiceEvent) : option (option PeerInfo) :=
  match event with
  | ServiceResolved svc => if decide (rv_fullname svc = name) then Some <$> peer_from_resolved svc else None
  | ServiceRemoved fullname => if decide (fullname = name) then Some None else None
  | ServiceOther => None
  end.
Lemma resolved_latest events name : resolved events !! name = default None (last (omap (tells name) events)).
Proof.
  unfold resolved. induction events as [|event events IH] using rev_ind; [apply lookup_empty|].
  rewrite foldl_snoc, omap_app. destruct event as [svc|fullname|]; cbn.
  - destruct (peer_from_resolved svc) as [peer|]; cbn; [|case_decide; cbn; by rewrite app_nil_r]. case_decide as Hn.
    + subst name. by rewrite lookup_insert_eq, last_snoc.
    + by rewrite lookup_insert_ne, app_nil_r by done.
  - case_decide as Hn; [subst name; by rewrite lookup_delete_eq, last_snoc|]. by rewrite lookup_delete_ne, app_nil_r by done.
  - by rewrite app_nil_r.
Qed.
(** Every peer the browser knows can be connected to. *)
Lemma resolved_connects `{Crypto, Postcard} events name peer :
  resolved events !! name = Some peer → ∃ addr rest, pf_addrs peer = addr :: rest ∧
    connect http_transport peer = Ok (source_new ("http://" +:+ addr_display addr)).
Proof.
  rewrite resolved_latest. destruct (last (omap (tells name) events)) as [[p|]|] eqn:Hl; cbn; [|done..]. intros [= ->].
  apply last_Some in Hl as [l' Hl]. assert (Hin : Some peer ∈ omap (tells name) events) by (rewrite Hl; apply elem_of_app; right; by apply list_elem_of_singleton).
  apply list_elem_of_omap in Hin as (event & _ & Ht). destruct event as [svc|fullname|]; cbn in Ht; [|by case_decide|done].
  case_decide; [|done]. unfold peer_from_resolved in Ht. destruct (rv_addresses svc) as [|ip ips]; [done|]. cbn in Ht. injection Ht as <-.
  exists (ip, rv_port svc), ((λ ip, (ip, rv_port svc)) <$> ips). done.
Qed.
End discovery.
