(* ===== verification/Sync.v ===== *)
(** * Registration, key gossip and sync rounds ([src/net/sync.rs])

    A node's shared state is one record; an operation answers its result and
    the state it leaves, with the pull cursor.  [None] is the panic of the
    clock's id ([Hlc.v]), shown impossible under the clock's law. *)

From S2P Require Import Prelude Ordered External Toy Http Identity Op Registry Store Log Durable Hlc Pull Transport Relay Watch Socket Server Client.
Import BTree.

(** ** Registration and gossip *)

Section gossip.
Context `{Crypto, Postcard, !Wire IdentityResp, !Wire DevicesResp, StatusText} {W : Type} `{!HttpWorld W}.

(** The checks of [register_peer_with_key] on what the peer advertises. *)
Definition register_identity (resp : IdentityResp) (registry : DeviceRegistry)
    : result TransportError (DeviceId * barr 33 * bool) * DeviceRegistry :=
  let advertised := ir_device_id resp in
  match vec_of_list 33 (ir_public_key_sec1 resp) with
  | None => (Err (WireErr "public key is not 33 bytes"), registry)
  | Some sec1 =>
      match device_id_from_sec1 sec1 with
      | Err e => (Err (TransIdentity e), registry)
      | Ok derived =>
          if decide (derived ≠ advertised)
          then (Err (IdentityMismatch (DeviceId_to_hex advertised) (DeviceId_to_hex derived)), registry)
          else
            let newly_added := negb (registry_contains registry advertised) in
            match insert_sec1 registry sec1 with
            | (Err e, registry) => (Err (TransIdentity e), registry)
            | (Ok _, registry) => (Ok (advertised, sec1, newly_added), registry)
            end
      end
  end.

Definition register_peer_with_key (w : W) (source : HttpPullSource) (registry : DeviceRegistry)
    : result TransportError (DeviceId * barr 33 * bool) * DeviceRegistry * W :=
  match fetch_identity w source with
  | (Err e, w) => (Err e, registry, w)
  | (Ok resp, w) => (register_identity resp registry, w)
  end.

Definition register_peer (w : W) (source : HttpPullSource) (registry : DeviceRegistry)
    : result TransportError (DeviceId * bool) * DeviceRegistry * W :=
  let '(r, registry, w) := register_peer_with_key w source registry in
  ('(peer, _, newly_added) ← r; Ok (peer, newly_added), registry, w).

(** The loop of [learn_device_entries]; [added] in reverse. *)
Fixpoint learn_loop (entries : list DeviceEntry) (registry : DeviceRegistry) (added : list DeviceId)
    : list DeviceId * DeviceRegistry :=
  match entries with
  | [] => (rev added, registry)
  | e :: entries =>
      let advertised := de_device_id e in
      match vec_of_list 33 (de_public_key_sec1 e) with
      | None => learn_loop entries registry added
      | Some sec1 =>
          match device_id_from_sec1 sec1 with
          | Err _ => learn_loop entries registry added
          | Ok derived =>
              if decide (derived ≠ advertised) then learn_loop entries registry added
              else if registry_contains registry advertised then learn_loop entries registry added
              else
                match insert_sec1 registry sec1 with
                | (Ok _, registry) => learn_loop entries registry (advertised :: added)
                | (Err _, registry) => learn_loop entries registry added
                end
          end
      end
  end.
Definition learn_device_entries (resp : DevicesResp) (registry : DeviceRegistry)
    : list DeviceId * DeviceRegistry := learn_loop (dr_devices resp) registry [].

Definition learn_devices (w : W) (source : HttpPullSource) (registry : DeviceRegistry)
    : result TransportError (list DeviceId) * DeviceRegistry * W :=
  match fetch_devices w source with
  | (Err e, w) => (Err e, registry, w)
  | (Ok resp, w) => let '(added, registry) := learn_device_entries resp registry in (Ok added, registry, w)
  end.

Definition learn_attested_devices (w : W) (source : HttpPullSource) (random : result string (barr 32))
    (expected_peer : DeviceId) (expected_public_key_sec1 : barr 33) (registry : DeviceRegistry)
    : result TransportError (list DeviceId) * DeviceRegistry * W :=
  match fetch_attested_devices w source random expected_peer expected_public_key_sec1 with
  | (Err e, w) => (Err e, registry, w)
  | (Ok resp, w) => let '(added, registry) := learn_device_entries resp registry in (Ok added, registry, w)
  end.
End gossip.

(** ** Sync rounds *)

Inductive ApplyMode : Type := Replay | Incremental.

Record RelaySyncOutcome : Type := mk_outcome { so_received : nat; so_appended : nat; so_reset : bool }.

Section sync.
Context `{Crypto, Uhlc, Postcard, !Wire BodyRepr, !Wire EnvelopeRepr, !Wire RelayResponse, StatusText}.
Context {T W : Type} `{!Store T, !HttpWorld W}.

(** The mutexes a round locks: registry, clock, log, store, op-log writer. *)
Record SyncNode : Type := mk_node {
  sn_registry : DeviceRegistry;
  sn_clock : NodeClock;
  sn_log : OpLog;
  sn_store : T;
  sn_writer : option OplogWriter;
}.
Definition node_with_clock (n : SyncNode) (c : NodeClock) : SyncNode :=
  mk_node (sn_registry n) c (sn_log n) (sn_store n) (sn_writer n).
Definition node_with_log (n : SyncNode) (l : OpLog) : SyncNode :=
  mk_node (sn_registry n) (sn_clock n) l (sn_store n) (sn_writer n).
Definition node_with_store (n : SyncNode) (t : T) : SyncNode :=
  mk_node (sn_registry n) (sn_clock n) (sn_log n) t (sn_writer n).
Definition node_with_writer (n : SyncNode) (w : option OplogWriter) : SyncNode :=
  mk_node (sn_registry n) (sn_clock n) (sn_log n) (sn_store n) w.

(** One iteration of the loops of [sync_once_with] and [sync_relay_once]: the
    op is accepted (with whether it was new), or the loop aborts. *)
Definition accept_op (io : AppendIo) (n : SyncNode) (op : SignedOp)
    : option (result TransportError bool * SyncNode) :=
  let device := op_device (op_body op) in
  match key_for (sn_registry n) device with
  | None => Some (Err (VerifyErr (DeviceId_to_hex device) "unknown device"), n)
  | Some verifying =>
      match verify op verifying with
      | Err e => Some (Err (VerifyErr (DeviceId_to_hex device) (OpError_display e)), n)
      | Ok _ =>
          match clock_update (sn_clock n) (op_hlc (op_body op)) device with
          | None => None
          | Some (Err e, c) =>
              Some (Err (DriftErr (DeviceId_to_hex device) (op_hlc (op_body op)) (HlcError_display e)),
                    node_with_clock n c)
          | Some (Ok _, c) =>
              let n := node_with_clock n c in
              if log_contains (sn_log n) (op_id op) then Some (Ok false, n)
              else
                match sn_writer n with
                | None => Some (Ok true, node_with_log n (log_append (sn_log n) op).2)
                | Some w =>
                    match writer_append io w op with
                    | (Err e, w) => Some (Err (TransDurability e), node_with_writer n (Some w))
                    | (Ok _, w) =>
                        Some (Ok true, node_with_writer (node_with_log n (log_append (sn_log n) op).2) (Some w))
                    end
                end
          end
      end
  end.

(** The loop: the position of the last op accepted, how many were accepted and
    how many of them were new, what it aborted with, and the node it leaves.
    [io i] is what the file system answers the [i]-th append. *)
Fixpoint accept_all {P : Type} (io : nat → AppendIo) (entries : list (P * SignedOp)) (n : SyncNode)
    (position : P) (received appended : nat) : option (P * nat * nat * option TransportError * SyncNode) :=
  match entries with
  | [] => Some (position, received, appended, None, n)
  | (p, op) :: entries =>
      match accept_op (io received) n op with
      | None => None
      | Some (Err e, n) => Some (position, received, appended, Some e, n)
      | Some (Ok fresh, n) =>
          accept_all io entries n p (S received) (if fresh : bool then S appended else appended)
      end
  end.

(** [sync_after_batch] on the writer, if there is one. *)
Definition sync_writer (out : option IoError) (n : SyncNode) : result TransportError () * SyncNode :=
  match sn_writer n with
  | None => (Ok (), n)
  | Some w => let '(r, w) := sync_after_batch out w in
      (map_err TransDurability r, node_with_writer n (Some w))
  end.

(** The replay or the incremental application into the store. *)
Definition apply_store (f : T → result (ReplayError T) () * T) (n : SyncNode)
    : result TransportError () * SyncNode :=
  let '(r, t) := f (sn_store n) in
  (map_err (λ e, ReplayErr (ReplayError_display e)) r, node_with_store n t).

(** What both rounds do once the cursor is to move. *)
Definition settle (sync_out : option IoError) (f : OpLog → T → result (ReplayError T) () * T) (n : SyncNode)
    : result TransportError () * SyncNode :=
  match sync_writer sync_out n with
  | (Err e, n) => (Err e, n)
  | (Ok _, n) => apply_store (f (sn_log n)) n
  end.

(** [sync_once_with]: [pulled] is what [source.pull( *cursor)] answered. *)
Definition sync_once_with (io : nat → AppendIo) (sync_out : option IoError)
    (pulled : result TransportError (list SignedOp)) (mode : ApplyMode) (n : SyncNode) (cursor : OrderKey)
    : option (result TransportError nat * OrderKey * SyncNode) :=
  match pulled with
  | Err e => Some (Err e, cursor, n)
  | Ok ops =>
      '(highest, _, appended, abort, n) ← accept_all io ((λ op, (order_key op, op)) <$> ops) n cursor 0 0;
      let finish n :=
        Some (match abort with Some e => Err e | None => Ok appended end, highest, n) in
      if decide (highest = cursor) then finish n
      else
        match settle sync_out (match mode with
                               | Replay => replay
                               | Incremental => λ log t, apply_range log t cursor highest
                               end) n with
        | (Err e, n) => Some (Err e, cursor, n)
        | (Ok _, n) => finish n
        end
  end.
Definition sync_once (io : nat → AppendIo) (sync_out : option IoError)
    (pulled : result TransportError (list SignedOp)) (n : SyncNode) (cursor : OrderKey)
    : option (result TransportError nat * OrderKey * SyncNode) :=
  sync_once_with io sync_out pulled Replay n cursor.

(** [sync_relay_once] after its fetch. *)
Definition sync_relay_page (io : nat → AppendIo) (sync_out : option IoError)
    (fetched : result TransportError RelayPage) (n : SyncNode) (cursor : RelayCursor)
    : option (result TransportError RelaySyncOutcome * RelayCursor * SyncNode) :=
  match fetched with
  | Err e => Some (Err e, cursor, n)
  | Ok page =>
      if rg_reset page then Some (Ok (mk_outcome 0 0 true), RelayPage_cursor page, n)
      else
        '(after, received, appended, abort, n) ←
           accept_all io ((λ e, (ro_seq e, ro_op e)) <$> rg_entries page) n (rc_after cursor) 0 0;
        let finish n :=
          Some (match abort with Some e => Err e | None => Ok (mk_outcome received appended false) end,
                mk_cursor (rg_epoch page) after, n) in
        if decide (after = rc_after cursor) then finish n
        else
          match settle sync_out replay n with
          | (Err e, n) => Some (Err e, cursor, n)
          | (Ok _, n) => finish n
          end
  end.

Definition sync_relay_once (w : W) (source : HttpPullSource) (local_identity : DeviceIdentity)
    (random : result string (barr 32)) (expected_peer : DeviceId) (expected_public_key_sec1 : barr 33)
    (io : nat → AppendIo) (sync_out : option IoError) (n : SyncNode) (cursor : RelayCursor)
    : option (result TransportError RelaySyncOutcome * RelayCursor * SyncNode) * W :=
  let '(fetched, w) :=
    fetch_relay_ops w source local_identity random expected_peer expected_public_key_sec1 cursor in
  (sync_relay_page io sync_out fetched n cursor, w).

(** ** What a round does to the node *)

(** The node after accepting ops: the same registry and store, a log with the
    [new] arrivals, each written to the op-log file when there is a writer. *)
Record node_extends (n n' : SyncNode) (arr new : list SignedOp) : Prop := {
  ne_registry : sn_registry n' = sn_registry n;
  ne_store : sn_store n' = sn_store n;
  ne_log : log_rep (sn_log n') (arr ++ new);
  ne_writer : match sn_writer n with
    | None => sn_writer n' = None
    | Some w => ∀ ops, writer_inv w ops → ∃ w', sn_writer n' = Some w' ∧ writer_inv w' (ops ++ new)
    end;
}.

Lemma node_extends_refl n n' arr :
  log_rep (sn_log n) arr → sn_registry n' = sn_registry n → sn_store n' = sn_store n →
  sn_log n' = sn_log n → sn_writer n' = sn_writer n → node_extends n n' arr [].
Proof.
  intros Hr Hreg Hst Hl Hw. split; [done|done|by rewrite app_nil_r, Hl|]. rewrite Hw.
  destruct (sn_writer n) as [w|]; [|done]. intros ops Hi. exists w. by rewrite app_nil_r.
Qed.

Lemma node_extends_trans n n1 n2 arr new1 new2 :
  node_extends n n1 arr new1 → node_extends n1 n2 (arr ++ new1) new2 → node_extends n n2 arr (new1 ++ new2).
Proof.
  intros [Hr1 Hs1 Hl1 Hw1] [Hr2 Hs2 Hl2 Hw2]. split; [congruence|congruence|by rewrite app_assoc|].
  destruct (sn_writer n) as [w|]; [|by rewrite Hw1 in Hw2].
  intros ops Hi. destruct (Hw1 ops Hi) as (w1 & Hw1' & Hi1). rewrite Hw1' in Hw2.
  destruct (Hw2 _ Hi1) as (w2 & Hw2' & Hi2). exists w2. by rewrite app_assoc.
Qed.

Lemma accept_op_ok io n op arr r n' :
  frameable op → log_rep (sn_log n) arr → accept_op io n op = Some (r, n') →
  ∃ new, node_extends n n' arr new ∧
    match r with
    | Ok fresh => admits (sn_registry n) op = true ∧ op_id op ∈ op_id <$> arr ++ new ∧
                  new = if fresh : bool then [op] else []
    | Err _ => new = []
    end.
Proof.
  intros Hfr Hr. unfold accept_op, admits. destruct (key_for _ _) as [key|];
    [|intros [= <- <-]; exists []; split; [by apply node_extends_refl|done]].
  destruct (verify op key) as [[]|e];
    [|intros [= <- <-]; exists []; split; [by apply node_extends_refl|done]].
  destruct (clock_update _ _ _) as [[[t|e] c]|]; [| |done];
    [|intros [= <- <-]; exists []; split; [by apply node_extends_refl|done]].
  cbn [sn_log sn_writer node_with_clock is_ok]. rewrite (rep_contains Hr).
  case_bool_decide as Hin.
  { intros [= <- <-]. exists []. rewrite app_nil_r. split; [by apply node_extends_refl|done]. }
  assert (Hlog : log_rep (log_append (sn_log n) op).2 (arr ++ [op])).
  { destruct (log_append_rep _ _ op Hr) as [_ Hl]. unfold arr_append in Hl. by rewrite decide_False in Hl by done. }
  assert (Hnew : op_id op ∈ op_id <$> arr ++ [op]) by (rewrite fmap_app; set_solver).
  destruct (sn_writer n) as [w|] eqn:Hw.
  - destruct (writer_append io w op) as [[[]|e] w'] eqn:Hap; intros [= <- <-].
    + exists [op]. split; [|done]. split; cbn; [done|done|done|]. rewrite Hw. intros ops Hi. exists w'.
      split; [done|]. exact (writer_append_inv _ _ _ _ _ _ Hfr Hi Hap).
    + exists []. split; [|done]. split; cbn; [done|done|by rewrite app_nil_r|]. rewrite Hw. intros ops Hi.
      exists w'. split; [done|]. rewrite app_nil_r. exact (writer_append_inv _ _ _ _ _ _ Hfr Hi Hap).
  - intros [= <- <-]. exists [op]. split; [|done]. split; cbn; [done..|]. by rewrite Hw.
Qed.

(** The loop accepts a prefix of the entries, the whole of it when it does not
    abort; every op of the prefix verifies and is in the log. *)
Lemma accept_all_ok {P} io (entries : list (P * SignedOp)) n arr at0 rcv app at' rcv' app' abort n' :
  Forall frameable entries.*2 → log_rep (sn_log n) arr →
  accept_all io entries n at0 rcv app = Some (at', rcv', app', abort, n') →
  ∃ k new, node_extends n n' arr new ∧ k ≤ length entries ∧
    at' = default at0 (last (take k entries).*1) ∧ rcv' = rcv + k ∧ app' = app + length new ∧
    match abort with None => k = length entries | Some _ => k < length entries end ∧
    (∀ op, op ∈ (take k entries).*2 →
       admits (sn_registry n) op = true ∧ op_id op ∈ op_id <$> arr ++ new) ∧
    (∀ op, op ∈ new → op ∈ (take k entries).*2).
Proof.
  revert n arr at0 rcv app. induction entries as [|[p op] entries IH]; intros n arr at0 rcv app Hfr Hr; cbn.
  { intros [= <- <- <- <- <-]. exists 0, []. split; [by apply node_extends_refl|].
    cbn. split_and!; try done; try lia; intros ? []%elem_of_nil. }
  apply Forall_cons in Hfr as [Hfo Hfr].
  destruct (accept_op (io rcv) n op) as [[[fresh|e] n1]|] eqn:Ha; [..|done];
    apply (accept_op_ok _ _ _ _ _ _ Hfo Hr) in Ha as (new1 & Hext & Ha).
  2:{ subst new1. intros [= <- <- <- <- <-]. exists 0, []. split; [done|].
      cbn. split_and!; try done; try lia; intros ? []%elem_of_nil. }
  destruct Ha as (Hadm & Hin & Hnew).
  intros (k & new & Hext' & Hk & -> & -> & -> & Habort & Hops & Hsub)%(IH _ _ _ _ _ Hfr (ne_log _ _ _ _ Hext)).
  exists (S k), (new1 ++ new). split; [by eapply node_extends_trans|].
  cbn [take firstn fmap list_fmap fst snd length]. split_and!; [lia | | lia | | | |].
  - rewrite last_cons. by destruct (last (take k entries).*1).
  - rewrite length_app. subst new1. destruct fresh; cbn; lia.
  - destruct abort; lia.
  - intros o [->|Ho]%elem_of_cons; rewrite app_assoc.
    + split; [done|]. rewrite fmap_app. apply elem_of_app. by left.
    + rewrite <-(ne_registry _ _ _ _ Hext). by apply Hops.
  - intros o [Ho|Ho]%elem_of_app; [|by apply elem_of_cons; right; apply Hsub].
    subst new1. destruct fresh; [|by apply elem_of_nil in Ho].
    apply list_elem_of_singleton in Ho as ->. apply elem_of_cons. by left.
Qed.

(** Settling touches neither the log nor the writer. *)
Lemma settle_same sync_out f n r n' : settle sync_out f n = (r, n') →
  sn_registry n' = sn_registry n ∧ sn_log n' = sn_log n ∧ sn_writer n' = sn_writer n.
Proof.
  unfold settle, sync_writer, sync_after_batch, apply_store. destruct n as [reg c l t [w|]]; cbn.
  - destruct (syscall sync_out); cbn; [|by intros [= <- <-]]. destruct (f l t). by intros [= <- <-].
  - destruct (f l t). by intros [= <- <-].
Qed.

(** The clock's id never panics, so the loops always answer. *)
Lemma accept_all_total `{!UhlcOk hlast} {P} io (entries : list (P * SignedOp)) n at0 rcv app :
  is_Some (accept_all io entries n at0 rcv app).
Proof.
  revert n at0 rcv app; induction entries as [|[p op] entries IH]; intros n at0 rcv app; cbn; [done|].
  assert (is_Some (accept_op (io rcv) n op)) as [[[fresh|e] n'] ->]; [|apply IH|done].
  unfold accept_op. destruct (key_for _ _); [|done]. destruct (verify _ _); [|done].
  destruct (clock_update_total hlast (sn_clock n) (op_hlc (op_body op)) (op_device (op_body op)))
    as [[[t|e] c] ->]; [|done].
  destruct (log_contains _ _); [done|]. destruct (sn_writer _); [|done]. cbn.
  by destruct (writer_append _ _ _) as [[] ?].
Qed.

(** What a round leaves of the log, the registry and the op-log file. *)
Record round_keeps (n n' : SyncNode) (arr new : list SignedOp) : Prop := {
  rk_registry : sn_registry n' = sn_registry n;
  rk_log : log_rep (sn_log n') (arr ++ new);
  rk_admitted : Forall (λ op, admits (sn_registry n) op = true) new;
  rk_writer : ∀ w ops, sn_writer n = Some w → writer_inv w ops →
    ∃ w', sn_writer n' = Some w' ∧ writer_inv w' (ops ++ new);
}.

Lemma round_keeps_refl n arr : log_rep (sn_log n) arr → round_keeps n n arr [].
Proof.
  intros Hr. split; [done|by rewrite app_nil_r|constructor|]. intros w ops ? ?. exists w. by rewrite app_nil_r.
Qed.

(** The loop and the settling, together: a prefix of the entries is accepted
    and kept, whether or not the settling succeeds. *)
Lemma accept_settle `{!UhlcOk hlast} {P} io sync_out f (entries : list (P * SignedOp)) n arr at0 :
  Forall frameable entries.*2 → log_rep (sn_log n) arr →
  ∃ k abort n1 new, accept_all io entries n at0 0 0 =
      Some (default at0 (last (take k entries).*1), k, length new, abort, n1) ∧
    k ≤ length entries ∧ match abort with None => k = length entries | Some _ => k < length entries end ∧
    ∀ n', n' = n1 ∨ n' = (settle sync_out f n1).2 →
      round_keeps n n' arr new ∧
      ∀ op, op ∈ (take k entries).*2 → log_contains (sn_log n') (op_id op) = true.
Proof.
  intros Hfr Hr. destruct (accept_all_total io entries n at0 0 0) as [[[[[at' rcv] app] abort] n1] Hall].
  destruct (accept_all_ok io entries n arr _ _ _ _ _ _ _ _ Hfr Hr Hall)
    as (k & new & Hext & Hk & -> & -> & -> & Habort & Hacc & Hsub).
  exists k, abort, n1, new. split_and!; [done..|]. intros n' Hn'.
  assert (sn_registry n' = sn_registry n1 ∧ sn_log n' = sn_log n1 ∧ sn_writer n' = sn_writer n1)
    as (Hr' & Hl' & Hw').
  { destruct Hn' as [->| ->]; [done|]. eapply settle_same, surjective_pairing. }
  destruct Hext as [Hreg Hs Hl Hw]. split.
  - split; [congruence|by rewrite Hl'| |].
    + apply Forall_forall. intros op Hop. by apply Hacc, Hsub.
    + intros w ops Hwn Hi. rewrite Hwn in Hw. rewrite Hw'. by apply Hw.
  - intros op Hop. rewrite Hl', (rep_contains Hl). by apply bool_decide_eq_true, Hacc.
Qed.

(** Ops that the log holds already change nothing of it, and are not counted. *)
Lemma accept_known {P} io (entries : list (P * SignedOp)) n position received appended position' received' appended' abort n' :
  Forall (λ e, log_contains (sn_log n) (op_id e.2) = true) entries →
  accept_all io entries n position received appended = Some (position', received', appended', abort, n') →
  appended' = appended ∧ sn_log n' = sn_log n.
Proof.
  revert n position received. induction entries as [|[p op] entries IH]; intros n position received Hk; cbn; [by intros [= <- <- <- <- <-]|].
  apply Forall_cons in Hk as [Hop Hk]. cbn in Hop. unfold accept_op. destruct (key_for _ _); [|by intros [= <- <- <- <- <-]].
  destruct (verify _ _); [|by intros [= <- <- <- <- <-]]. destruct (clock_update _ _ _) as [[[] c]|]; [|by intros [= <- <- <- <- <-]|done].
  cbn. rewrite Hop. intros Hall. by apply IH in Hall.
Qed.
Lemma sync_once_known io sync_out ops n cursor r cursor' n' :
  Forall (λ op, log_contains (sn_log n) (op_id op) = true) ops →
  sync_once io sync_out (Ok ops) n cursor = Some (r, cursor', n') → sn_log n' = sn_log n ∧ ∀ k, r = Ok k → k = 0.
Proof.
  intros Hk. unfold sync_once, sync_once_with.
  destruct (accept_all _ _ _ _ _ _) as [[[[[highest received] appended] abort] n1]|] eqn:Hall; [|done].
  apply accept_known in Hall as [-> Hlog]; [|by apply Forall_fmap]. cbn [mbind option_bind].
  assert (Hr : ∀ k, match abort with Some e => Err e | None => Ok 0 end = Ok k → k = 0) by (intros k; destruct abort; congruence).
  case_decide; [by intros [= <- _ <-]|]. destruct (settle _ _ n1) as [[[]|e] n2] eqn:Hset.
  - apply settle_same in Hset as (_ & Hl & _). intros [= <- _ <-]. by rewrite Hl.
  - apply settle_same in Hset as (_ & Hl & _). intros [= <- _ <-]. by rewrite Hl.
Qed.

(** The cursor at the end of an accepted prefix of a page, whose every op is in
    the log; the prefix is the whole page when the round succeeds. *)
Definition relay_moved (page : RelayPage) (cursor : RelayCursor)
    (r : result TransportError RelaySyncOutcome) (cursor' : RelayCursor) (n' : SyncNode)
    (new : list SignedOp) : Prop :=
  ∃ k, k ≤ length (rg_entries page) ∧
    cursor' = mk_cursor (rg_epoch page)
                (default (rc_after cursor) (last (ro_seq <$> take k (rg_entries page)))) ∧
    (∀ e, e ∈ take k (rg_entries page) → log_contains (sn_log n') (op_id (ro_op e)) = true) ∧
    match r with
    | Ok out => k = length (rg_entries page) ∧ out = mk_outcome k (length new) false
    | Err _ => k < length (rg_entries page)
    end.

(** C7: A relay round is safe against any peer.  Whatever page was fetched and
    however the file system and the store answer, the round ends; the log only
    grows, by ops that verify under a registered key, each of them written to
    the op-log file before the cursor can pass it; a reset adopts the
    authenticated position and admits nothing; otherwise the cursor either
    stays, or moves to the page's epoch at the end of a prefix of the page whose
    every op is in the log, the whole page when the round succeeds. *)
Theorem relay_round_safe `{!UhlcOk hlast} io sync_out fetched n cursor arr :
  log_rep (sn_log n) arr →
  (∀ page, fetched = Ok page → Forall frameable (ro_op <$> rg_entries page)) →
  ∃ r cursor' n' new, sync_relay_page io sync_out fetched n cursor = Some (r, cursor', n') ∧
    round_keeps n n' arr new ∧
    ((∃ e, r = Err e) ∧ cursor' = cursor ∨
     ∃ page, fetched = Ok page ∧
       if rg_reset page
       then cursor' = RelayPage_cursor page ∧ new = [] ∧ r = Ok (mk_outcome 0 0 true)
       else relay_moved page cursor r cursor' n' new).
Proof.
  intros Hr Hfr. unfold sync_relay_page. destruct fetched as [page|e].
  2:{ exists (Err e), cursor, n, []. split_and!; [done|by apply round_keeps_refl|left; eauto]. }
  specialize (Hfr page eq_refl). destruct (rg_reset page) eqn:Hreset.
  { do 3 eexists. exists []. split_and!; [done|by apply round_keeps_refl|]. right. exists page. by rewrite Hreset. }
  set (entries := (λ e, (ro_seq e, ro_op e)) <$> rg_entries page).
  assert (Hops : entries.*2 = ro_op <$> rg_entries page) by (unfold entries; by rewrite <-list_fmap_compose).
  destruct (accept_settle io sync_out replay entries n arr (rc_after cursor) ltac:(by rewrite Hops) Hr)
    as (k & abort & n1 & new & -> & Hk & Habort & Hn').
  unfold entries in *. rewrite length_fmap in *. rewrite <-!fmap_take, <-!list_fmap_compose in *.
  cbn [mbind option_bind].
  assert (Hmoved : ∀ n', n' = n1 ∨ n' = (settle sync_out replay n1).2 → ∃ r cursor' n'' new',
    Some (match abort with Some e => Err e | None => Ok (mk_outcome k (length new) false) end,
      mk_cursor (rg_epoch page) (default (rc_after cursor) (last (ro_seq <$> take k (rg_entries page)))), n') =
      Some (r, cursor', n'') ∧ round_keeps n n'' arr new' ∧ relay_moved page cursor r cursor' n'' new').
  { intros n' Hor. destruct (Hn' n' Hor) as [Hkeep Hin]. do 4 eexists. split_and!; [done|done|].
    exists k. split_and!; [done|done| |by destruct abort].
    intros e He. apply Hin. by apply (list_elem_of_fmap_2 (λ e, ro_op e)). }
  destruct (decide _).
  { destruct (Hmoved n1) as (r & c & n' & new' & ? & ? & ?); [by left|].
    exists r, c, n', new'. split_and!; [done..|]. right. exists page. by rewrite Hreset. }
  destruct (settle sync_out replay n1) as [[[]|e] n2] eqn:Hset.
  - destruct (Hmoved n2) as (r & c & n' & new' & ? & ? & ?); [by right|].
    exists r, c, n', new'. split_and!; [done..|]. right. exists page. by rewrite Hreset.
  - exists (Err e), cursor, n2, new. split_and!; [done|apply Hn'; by right|]. left. eauto.
Qed.
End sync.
