(* ===== verification/Harness.v ===== *)
(** * The in-process mesh ([src/harness.rs])

    The nodes that the convergence tests and the benches drive: a node with its
    store, a local commit, a pull from a peer, and the rounds of a full mesh.
    [None] is a panic ([unwrap]). *)

From S2P Require Import Prelude Ordered External Toy Http Identity Op Registry Store Log Durable Hlc Pull Transport Relay Watch Socket Server Client Sync.
Import BTree.

Section harness.
Context `{Crypto, Uhlc, Postcard, !Wire BodyRepr, !Wire EnvelopeRepr, !Wire RelayResponse, !Wire IdentityResp,
          !Wire PullResponse, !Wire DevicesResp, !Wire KvOp, StatusText} {W : Type} `{!HttpWorld W}.

Record MeshNode : Type := mk_MeshNode {
  mn_identity : DeviceIdentity;
  mn_node : SyncNode (T := KvStore);
  mn_base_url : string;
  mn_head : Channel;
}.
(** [spawn_on], once bound at [bound]; the identity and the log's epoch are drawn at random. *)
Definition spawn_on (sk : SigningKey) (epoch : barr 32) (bound : string) : option MeshNode :=
  let identity := from_signing sk in
  clock ← clock_new (device_id identity);
  let registry := (insert_key registry_new (verifying identity)).2 in
  Some (mk_MeshNode identity (mk_node registry clock (OpLog_new epoch) kv_new None) ("http://" +:+ bound)
          (publisher_new OrderKey_MIN)).

Definition commit (n : MeshNode) (op : KvOp) : option (OpId * MeshNode) :=
  let s := mn_node n in
  payload ← ok (kv_encode kv_new op);
  let '(hlc, clock) := clock_now (sn_clock s) in
  let body := mk_OpBody ENVELOPE_VERSION hlc (device_id (mn_identity n)) kv_store_id payload in
  signed ← ok (seal body (mn_identity n));
  let log := (log_append (sn_log s) signed).2 in
  let new_head := log_head log in
  let '(r, store) := replay log (sn_store s) in
  _ ← ok r;
  let head := match new_head with Some h => publish (mn_head n) h | None => mn_head n end in
  Some (op_id signed, mk_MeshNode (mn_identity n) (mk_node (sn_registry s) clock log store (sn_writer s)) (mn_base_url n) head).

(** The loop of [sync_from]: pull rounds until one appends nothing.  The node has
    no op-log file, so that no answer of a file system is consulted; [None] is also
    a loop that is not over when the fuel is. *)
Fixpoint sync_loop (fuel : nat) (io : nat → AppendIo) (w : W) (source : HttpPullSource) (s : SyncNode (T := KvStore)) (cursor : OrderKey)
    : option (SyncNode (T := KvStore) * W) :=
  match fuel with
  | 0 => None
  | S fuel =>
      let '(pulled, w) := source_pull w source cursor in
      '(r, cursor, s) ← sync_once io None pulled s cursor;
      n ← ok r;
      if decide (n = 0) then Some (s, w) else sync_loop fuel io w source s cursor
  end.
Definition with_registry (s : SyncNode (T := KvStore)) (registry : DeviceRegistry) : SyncNode (T := KvStore) :=
  mk_node registry (sn_clock s) (sn_log s) (sn_store s) (sn_writer s).
Definition sync_from (fuel : nat) (io : nat → AppendIo) (w : W) (n : MeshNode) (peer_base_url : string) : option (MeshNode * W) :=
  let source := source_new peer_base_url in
  let '(r, registry, w) := register_peer w source (sn_registry (mn_node n)) in
  _ ← ok r;
  let '(r, registry, w) := learn_devices w source registry in
  _ ← ok r;
  '(s, w) ← sync_loop fuel io w source (with_registry (mn_node n) registry) OrderKey_MIN;
  Some (mk_MeshNode (mn_identity n) s (mn_base_url n) (mn_head n), w).
Definition mesh_head (n : MeshNode) : option OrderKey := log_head (sn_log (mn_node n)).
Definition mesh_get (n : MeshNode) (key : string) : option bytes := kv_get (sn_store (mn_node n)) key.
Definition heads_equal (nodes : list MeshNode) : bool :=
  match mesh_head <$> nodes with [] => true | first :: heads => forallb (λ h, bool_decide (h = first)) heads end.

(** ** A put is read back *)

Lemma iter_append l arr op : log_rep l arr → op_id op ∉ op_id <$> arr → Forall (λ o, order_key o ≺ order_key op) arr →
  log_iter (log_append l op).2 = log_iter l ++ [op].
Proof.
  intros Hr Hid Hlt. destruct (log_append_rep l arr op Hr) as [_ Hr']. unfold arr_append in Hr'. rewrite decide_False in Hr' by done. cbn [snd] in Hr'.
  rewrite <-(keyed_snd (log_iter _)), <-(keyed_snd (_ ++ _)). f_equal. apply bt_sorted_unique.
  - apply (log_iter_sorted _ _ Hr').
  - apply ops_sorted_app. split_and!; [apply (log_iter_sorted _ _ Hr)|repeat constructor|].
    intros x y Hx ->%list_elem_of_singleton. rewrite (rep_iter_perm Hr) in Hx. by apply (proj1 (Forall_forall _ _) Hlt).
  - intros kv. by rewrite (rep_iter_perm Hr'), (rep_iter_perm Hr).
Qed.

(** A committed put is read back from the store, and wakes the watchers at its own
    position: provided that the clock reads above every op of the log. *)
Lemma commit_put_read `{!WireOk KvOp} n key value payload signed arr :
  let hlc := (clock_now (sn_clock (mn_node n))).1 in
  log_rep (sn_log (mn_node n)) arr →
  (∀ op, op ∈ arr → op_store (op_body op) = kv_store_id → is_Some (ok (from_bytes (A := KvOp) (op_payload (op_body op))))) →
  kv_encode kv_new (Put key value) = Ok payload →
  seal (mk_OpBody ENVELOPE_VERSION hlc (device_id (mn_identity n)) kv_store_id payload) (mn_identity n) = Ok signed →
  op_id signed ∉ op_id <$> arr → Forall (λ o, order_key o ≺ order_key signed) arr →
  ∃ n', commit n (Put key value) = Some (op_id signed, n') ∧ mesh_get n' key = Some value ∧
    mesh_head n' = Some (order_key signed) ∧ (ch_value (mn_head n')).2 = order_key signed.
Proof.
  intros hlc Hr Hdec Henc Hseal Hid Hlt. unfold commit. rewrite Henc. cbn [ok mbind option_bind]. subst hlc.
  destruct (clock_now _) as [hlc clock]. cbn [fst] in Hseal. rewrite Hseal. cbn [ok mbind option_bind].
  pose proof (iter_append _ _ _ Hr Hid Hlt) as Hiter. set (log := (log_append _ signed).2) in *.
  destruct (seal_ok _ _ _ Hseal) as [Hbody _]. cbn in Hbody.
  unfold kv_encode in Henc. destruct (to_allocvec (Put key value)) as [bs|] eqn:Hbs; [|done]. injection Henc as ->.
  apply wire_roundtrip in Hbs.
  destruct (kv_replay_last_write log (sn_store (mn_node n))) as (s' & Hs' & Hget).
  { rewrite Hiter. intros op [Hin| ->%list_elem_of_singleton]%elem_of_app Hst.
    - rewrite (rep_iter_perm Hr) in Hin. by apply Hdec.
    - rewrite Hbody. cbn. rewrite Hbs. done. }
  rewrite Hs'. cbn [ok mbind option_bind].
  assert (Hhead : log_head log = Some (order_key signed)).
  { unfold log_head. replace (bt_keys (log_ops log)) with (order_key <$> log_iter log); [rewrite Hiter, fmap_app; apply last_snoc|].
    destruct (log_append_rep _ _ signed Hr) as [_ Hr']. fold log in Hr'. rewrite (rep_ops_keyed Hr'). unfold bt_keys. by rewrite <-list_fmap_compose. }
  eexists. split; [reflexivity|]. unfold mesh_get, mesh_head. cbn [mn_node sn_store sn_log mn_head]. rewrite Hhead. split_and!; [|done|done].
  rewrite Hget, Hiter. unfold kv_writes. rewrite filter_app, omap_app, filter_cons_True by (by rewrite Hbody). cbn.
  rewrite Hbody. cbn. rewrite Hbs. cbn. unfold kv_last_write. rewrite foldl_snoc. by rewrite decide_True by done.
Qed.

(** ** A page that is known *)

(** The pull from a peer starts over at the lowest position, and a page of ops
    that the node holds already ends it: one request is made, the log is what it was,
    whatever the peer has beyond that page. *)
Lemma known_page_ends fuel io w source s w1 ops s' w' :
  source_pull w source OrderKey_MIN = (Ok ops, w1) → Forall (λ op, log_contains (sn_log s) (op_id op) = true) ops →
  sync_loop (S fuel) io w source s OrderKey_MIN = Some (s', w') → sn_log s' = sn_log s ∧ w' = w1.
Proof.
  intros Hp Hk. cbn. rewrite Hp. destruct (sync_once _ _ _ _ _) as [[[r cursor] s1]|] eqn:Hs; [|done].
  apply sync_once_known in Hs as [Hlog Hr]; [|done]. cbn. destruct r as [k|]; [|done]. rewrite (Hr k eq_refl). cbn. by intros [= <- <-].
Qed.
End harness.
