(* ===== verification/Daemon.v ===== *)
(** * The daemon ([src/bin/pnsd.rs])

    The identity commands, the startup of [serve] (keys, replay, registration of
    the peers and the gossip of their keys, each persisted before it is used), the
    drain of a link, and the wait between rounds.  What the file system, the
    network and the clock answer are arguments; printing is left out. *)

From S2P Require Import Prelude Ordered External Toy Http Identity Text Op Registry Store Log Durable Hlc Pull Transport Persistence Relay Watch Socket Server Client Sync.
Import BTree.

Definition KEY_FILE : string := "device.key".
Definition OPLOG_FILE : string := "oplog.bin".
Definition DEFAULT_DATA_DIR : string := "./pns-data".

(** ** Identities *)

Definition resolve_data_dir (explicit env : option string) : string :=
  match explicit with Some dir => dir | None => default DEFAULT_DATA_DIR env end.

Section identity.
Context `{Crypto}.

(** [fs::read] of a path: its contents, or the error. *)
Definition read_scalar (path : string) (contents : result IoError bytes) : result string (barr 32) :=
  bytes ← map_err (λ e, "read " +:+ path +:+ ": " +:+ IoError_display e) contents;
  ok_or (vec_of_list 32 bytes) (path +:+ ": expected 32 raw scalar bytes, got " +:+ pretty.pretty (length bytes)).

(** The key file, its mode at creation, and the system calls' outcomes. *)
Record KeyIo : Type := mk_KeyIo {
  ki_mkdir : option IoError;
  ki_create : option IoError;
  ki_write : option (nat * IoError);
}.
Definition KeyFile : Type := option (bytes * Z).
(** [create_new] with mode [0o600]: an existing file is an error. *)
Definition create_key_file (io : KeyIo) (path : string) (f : KeyFile) : result string () * KeyFile :=
  match ki_create io, f with
  | Some e, _ => (Err ("create " +:+ path +:+ ": " +:+ IoError_display e), f)
  | None, Some _ => (Err ("create " +:+ path +:+ ": file exists"), f)
  | None, None => (Ok (), Some ([], 384%Z))
  end.
Definition write_key (io : KeyIo) (path : string) (identity : DeviceIdentity) (f : KeyFile) : result string () * KeyFile :=
  match create_key_file io path f with
  | (Err e, f) => (Err e, f)
  | (Ok _, f) =>
      let scalar := vec_to_list (export_raw identity) in
      match f, ki_write io with
      | Some (_, mode), Some (n, e) => (Err ("write " +:+ path +:+ ": " +:+ IoError_display e), Some (take n scalar, mode))
      | Some (_, mode), None => (Ok (), Some (scalar, mode))
      | None, _ => (Ok (), f)
      end
  end.
(** [import] is the file of [--import-raw] and its contents, [generated] the new
    key otherwise; the answer is what is printed. *)
Definition identity_init (io : KeyIo) (data_dir : string) (import : option (string * result IoError bytes)) (generated : SigningKey) (f : KeyFile)
    : result string string * KeyFile :=
  let key_path := data_dir +:+ "/" +:+ KEY_FILE in
  if decide (is_Some f) then (Err (key_path +:+ " already exists"), f)
  else
    match ki_mkdir io with
    | Some e => (Err ("create " +:+ data_dir +:+ ": " +:+ IoError_display e), f)
    | None =>
        match match import with
              | Some (path, contents) =>
                  scalar ← read_scalar path contents;
                  map_err (λ e, "import key: " +:+ IdentityError_display e) (import_raw scalar)
              | None => Ok (from_signing generated)
              end with
        | Err e => (Err e, f)
        | Ok identity =>
            match write_key io key_path identity f with
            | (Err e, f) => (Err e, f)
            | (Ok _, f) => (Ok (DeviceId_to_hex (device_id identity)), f)
            end
        end
    end.
(** The two values [identity show] prints. *)
Definition identity_show (data_dir : string) (f : KeyFile) : result string (string * string) :=
  scalar ← read_scalar (data_dir +:+ "/" +:+ KEY_FILE) (ok_or (fst <$> f) NotFound);
  identity ← map_err (λ e, "load key: " +:+ IdentityError_display e) (import_raw scalar);
  Ok (DeviceId_to_hex (device_id identity), encode_hex (public_key_sec1 identity)).
End identity.

(** ** Startup *)

Record Link : Type := mk_Link {
  lk_source : HttpPullSource;
  lk_peer_id : DeviceId;
  lk_peer_key : barr 33;
  lk_relay_cursor : RelayCursor;
  lk_legacy_cursor : OrderKey;
  lk_poll_only_until : option Z;
}.

Section boot.
Context `{Crypto, Postcard, !Wire IdentityResp, !Wire DevicesResp, !Wire (list bytes), StatusText} {W : Type} `{!HttpWorld W}.

(** What [serve] holds while it registers its peers: the registry, the direct
    relay callers, the data directory, whether keys were learned, the links. *)
Record Boot : Type := mk_Boot {
  bt_registry : DeviceRegistry;
  bt_callers : DeviceRegistry;
  bt_fs : Fs;
  bt_learned : bool;
  bt_links : list Link;
}.
Definition bt_with_registry (d : Boot) (r : DeviceRegistry) : Boot := mk_Boot r (bt_callers d) (bt_fs d) (bt_learned d) (bt_links d).
(** The nonce of the gossip and the outcomes of the saves for one peer. *)
Record PeerIo : Type := mk_PeerIo {
  pi_random : result string (barr 32);
  pi_peers : SaveIo;
  pi_callers : SaveIo;
  pi_gossip : SaveIo;
}.

(** A newly registered key is saved, or taken out again. *)
Definition persist_peer (io : SaveIo) (peer_id : DeviceId) (d : Boot) : bool * Boot :=
  match save_peer_keys io (bt_registry d) (bt_fs d) with
  | (Ok _, fs, _) => (true, mk_Boot (bt_registry d) (bt_callers d) fs true (bt_links d))
  | (Err _, fs, _) => (false, mk_Boot (registry_remove (bt_registry d) peer_id) (bt_callers d) fs (bt_learned d) (bt_links d))
  end.
(** The peer as a direct relay caller, saved when it is new. *)
Definition admit_caller (io : SaveIo) (peer_id : DeviceId) (peer_key : barr 33) (d : Boot) : result string (bool * Boot) :=
  let newly_added := negb (registry_contains (bt_callers d) peer_id) in
  match insert_sec1 (bt_callers d) peer_key with
  | (Err e, _) => Err ("register relay caller " +:+ DeviceId_to_hex peer_id +:+ ": " +:+ IdentityError_display e)
  | (Ok _, callers) =>
      if newly_added then
        match save_relay_caller_keys io callers (bt_fs d) with
        | (Ok _, fs, _) => Ok (true, mk_Boot (bt_registry d) callers fs (bt_learned d) (bt_links d))
        | (Err _, fs, _) => Ok (false, mk_Boot (bt_registry d) (registry_remove callers peer_id) fs (bt_learned d) (bt_links d))
        end
      else Ok (true, mk_Boot (bt_registry d) callers (bt_fs d) (bt_learned d) (bt_links d))
  end.
(** Gossiped keys are saved, or exactly they are taken out again. *)
Definition persist_gossip (io : SaveIo) (added : list DeviceId) (d : Boot) : Boot :=
  match added with
  | [] => d
  | _ =>
      match save_peer_keys io (bt_registry d) (bt_fs d) with
      | (Ok _, fs, _) => mk_Boot (bt_registry d) (bt_callers d) fs true (bt_links d)
      | (Err _, fs, _) => mk_Boot (foldl registry_remove (bt_registry d) added) (bt_callers d) fs (bt_learned d) (bt_links d)
      end
  end.
Definition push_link (source : HttpPullSource) (peer_id : DeviceId) (peer_key : barr 33) (d : Boot) : Boot :=
  mk_Boot (bt_registry d) (bt_callers d) (bt_fs d) (bt_learned d)
    (bt_links d ++ [mk_Link source peer_id peer_key (Persistence.load_relay_cursor (bt_fs d) peer_id) (Persistence.load_cursor (bt_fs d) peer_id) None]).

Definition boot_peer (legacy_v1 : bool) (io : PeerIo) (base : string) (d : Boot) (w : W) : result string Boot * W :=
  let source := source_new base in
  match register_peer_with_key w source (bt_registry d) with
  | (Err _, registry, w) => (Ok (bt_with_registry d registry), w)
  | (Ok (peer_id, peer_key, newly_added), registry, w) =>
      let d := bt_with_registry d registry in
      let '(kept, d) := if newly_added : bool then persist_peer (pi_peers io) peer_id d else (true, d) in
      if negb kept then (Ok d, w)
      else
        match admit_caller (pi_callers io) peer_id peer_key d with
        | Err e => (Err e, w)
        | Ok (false, d) => (Ok d, w)
        | Ok (true, d) =>
            let '(learned, registry, w) :=
              if legacy_v1 then learn_devices w source (bt_registry d)
              else learn_attested_devices w source (pi_random io) peer_id peer_key (bt_registry d) in
            let d := bt_with_registry d registry in
            let d := match learned with Ok added => persist_gossip (pi_gossip io) added d | Err _ => d end in
            (Ok (push_link source peer_id peer_key d), w)
        end
  end.
Fixpoint boot_peers (legacy_v1 : bool) (peers : list (string * PeerIo)) (d : Boot) (w : W) : result string Boot * W :=
  match peers with
  | [] => (Ok d, w)
  | (base, io) :: peers =>
      match boot_peer legacy_v1 io base d w with
      | (Ok d, w) => boot_peers legacy_v1 peers d w
      | (Err e, w) => (Err e, w)
      end
  end.

Definition own_registry (identity : DeviceIdentity) : DeviceRegistry := (insert_key registry_new (verifying identity)).2.
Definition boot_start (identity : DeviceIdentity) (fs : Fs) : Boot :=
  mk_Boot (load_peer_keys fs (own_registry identity)).2 (load_relay_caller_keys fs (own_registry identity)).2 fs false [].

(** What [serve] runs with once it has started. *)
Context `{Uhlc, !Wire BodyRepr, !Wire EnvelopeRepr} {T : Type} `{!Store T}.
Record Daemon : Type := mk_Daemon {
  dm_identity : DeviceIdentity;
  dm_boot : Boot;
  dm_clock : NodeClock;
  dm_log : OpLog;
  dm_store : T;
  dm_writer : OplogWriter;
  dm_head : Channel;
}.
Record StartIo : Type := mk_StartIo {
  st_data_dir : string;
  st_listen : string;
  st_key : result IoError bytes;
  st_replay : ReplayIo;
  st_open : option IoError;
  st_seek : option IoError;
  st_bind : result string ();
  st_rereplay : ReplayIo;
}.
(** The second replay, when keys were learned. *)
Definition rereplay (io : ReplayIo) (dm : Daemon) : option (result string Daemon) :=
  if negb (bt_learned (dm_boot dm)) then Some (Ok dm)
  else
    '(r, log, file) ← replay_oplog_file io (Some (f_data (w_file (dm_writer dm)))) (bt_registry (dm_boot dm)) (dm_log dm);
    match r with
    | Err e => Some (Err ("re-replay oplog: " +:+ DurabilityError_display e))
    | Ok recovered =>
        if decide (recovered = 0) then
          Some (Ok (mk_Daemon (dm_identity dm) (dm_boot dm) (dm_clock dm) log (dm_store dm) (dm_writer dm) (dm_head dm)))
        else
          match replay log (dm_store dm) with
          | (Err e, _) => Some (Err ("replay store: " +:+ ReplayError_display e))
          | (Ok _, store) =>
              Some (Ok (mk_Daemon (dm_identity dm) (dm_boot dm) (dm_clock dm) log store (dm_writer dm)
                (match log_head log with Some head => publish (dm_head dm) head | None => dm_head dm end)))
          end
    end.
(** The startup of [serve]; [None] is the panic of the clock's id. *)
Definition serve_start (io : StartIo) (legacy_v1 : bool) (peers : list (string * PeerIo)) (epoch : barr 32) (fs : Fs) (oplog : option bytes)
    (store : T) (w : W) : option (result string Daemon * W) :=
  match scalar ← read_scalar (st_data_dir io +:+ "/" +:+ KEY_FILE) (st_key io); map_err (λ e, "load key: " +:+ IdentityError_display e) (import_raw scalar) with
  | Err e => Some (Err e, w)
  | Ok identity =>
      clock ← clock_new (device_id identity);
      let d := boot_start identity fs in
      '(replayed, log, oplog) ← replay_oplog_file (st_replay io) oplog (bt_registry d) (OpLog_new epoch);
      match replayed, replay log store, writer_open (st_open io) (st_seek io) oplog, st_bind io with
      | Err e, _, _, _ => Some (Err ("replay oplog: " +:+ DurabilityError_display e), w)
      | Ok _, (Err e, _), _, _ => Some (Err ("replay store: " +:+ ReplayError_display e), w)
      | Ok _, (Ok _, _), Err e, _ => Some (Err ("open oplog: " +:+ DurabilityError_display e), w)
      | Ok _, (Ok _, _), Ok _, Err e => Some (Err ("bind " +:+ st_listen io +:+ ": " +:+ e), w)
      | Ok _, (Ok _, store), Ok writer, Ok _ =>
          match boot_peers legacy_v1 peers d w with
          | (Err e, w) => Some (Err e, w)
          | (Ok d, w) =>
              r ← rereplay (st_rereplay io)
                (mk_Daemon identity d clock log store writer (publisher_new (default OrderKey_MIN (log_head log))));
              Some (r, w)
          end
      end
  end.
End boot.

(** ** The identity commands *)

Section identity_ok.
Context `{Crypto, !CryptoOk}.
(** [init] then [show]: the key file holds the whole key under owner-only
    permissions, and [show] prints the id [init] printed; a second [init] changes
    nothing. *)
Lemma identity_init_show io dir import generated f printed f' :
  identity_init io dir import generated f = (Ok printed, f') →
  f = None ∧ (∃ scalar : barr 32, f' = Some (vec_to_list scalar, 384%Z)) ∧
  (∃ sec1, identity_show dir f' = Ok (printed, sec1)) ∧
  ∀ io' import' generated', identity_init io' dir import' generated' f' = (Err ((dir +:+ "/" +:+ KEY_FILE) +:+ " already exists"), f').
Proof.
  unfold identity_init. destruct (decide (is_Some f)) as [|Hf]; [done|]. apply eq_None_not_Some in Hf as ->.
  destruct (ki_mkdir io); [done|].
  destruct (match import with Some (path, contents) => _ | None => _ end) as [identity|e] eqn:Hid; [|done].
  assert (Hwf : import_raw (export_raw identity) = Ok identity).
  { destruct import as [[path contents]|].
    - destruct (read_scalar path contents) as [scalar|]; [|done]. cbn in Hid. unfold import_raw in *.
      destruct (sk_from_slice scalar) as [sk|]; [|done]. injection Hid as <-. unfold export_raw. cbn. by rewrite sk_roundtrip.
    - injection Hid as <-. unfold import_raw, export_raw. cbn. by rewrite sk_roundtrip. }
  unfold write_key, create_key_file. destruct (ki_create io); [done|]. destruct (ki_write io) as [[n e]|]; [done|]. intros [= <- <-].
  split_and!; [done|by eexists| |].
  - exists (encode_hex (public_key_sec1 identity)). unfold identity_show. cbn [fmap option_fmap option_map fst ok_or]. unfold read_scalar.
    cbn [map_err mbind result_bind]. rewrite vec_of_list_to_list. cbn [ok_or mbind result_bind]. by rewrite Hwf.
  - intros io' import' generated'. by rewrite decide_True by (by eexists).
Qed.

(** A write that stops early leaves a file that is neither a key nor replaced:
    [show] refuses its length and [init] says that it exists. *)
Lemma torn_key_stays io dir generated n e :
  ki_mkdir io = None → ki_create io = None → ki_write io = Some (n, e) → n < 32 →
  ∃ torn why, identity_init io dir None generated None = (Err why, torn) ∧
    (∃ why', identity_show dir torn = Err why') ∧
    ∀ io' import generated', identity_init io' dir import generated' torn = (Err ((dir +:+ "/" +:+ KEY_FILE) +:+ " already exists"), torn).
Proof.
  intros Hm Hc Hw Hn. unfold identity_init at 1. rewrite decide_False by (by intros [? [=]]). rewrite Hm. unfold write_key, create_key_file. rewrite Hc, Hw.
  do 2 eexists. split; [done|]. split.
  - unfold identity_show. cbn [fmap option_fmap option_map fst ok_or]. unfold read_scalar. cbn [map_err mbind result_bind].
    destruct (vec_of_list 32 (take n _)) as [v|] eqn:Hv; [|by eexists]. exfalso. apply vec_of_list_some in Hv. apply (f_equal length) in Hv.
    rewrite length_vec_to_list, length_take, length_vec_to_list in Hv. lia.
  - intros io' import generated'. unfold identity_init. by rewrite decide_True by (by eexists).
Qed.
End identity_ok.

(** ** What a save may leave of the keys *)

Section durable_keys.
Context `{Crypto, !CryptoOk, Postcard, !Wire (list bytes), !WireOk (list bytes)}.

Definition left_at (fs : Fs) (name : string) (left : option bytes) : Prop := survives (fs_live fs !! name) (fs_durable fs !! name) left.
Lemma left_at_disk fs name left : left_at fs name left → ∃ disk, crash fs disk ∧ disk !! name = left.
Proof.
  intros Hl. exists (partial_alter (λ _, left) name (fs_durable fs)). split; [|apply lookup_partial_alter_eq].
  intros n. destruct (decide (n = name)) as [->|Hne]; [by rewrite lookup_partial_alter_eq|]. rewrite lookup_partial_alter_ne by done. by left.
Qed.
(** Loading what was left, over the node's own key. *)
Definition load_left (left : option bytes) (own : DeviceRegistry) : DeviceRegistry :=
  match left with
  | Some bs => match from_bytes bs with Ok keys => (load_loop keys own 0).2 | Err _ => own end
  | None => own
  end.
Lemma load_left_mount disk own : (load_peer_keys (fs_mount disk) own).2 = load_left (disk !! peers_path) own.
Proof. unfold load_peer_keys, load_keys, load_left. rewrite mount_read. destruct (disk !! peers_path) as [bs|]; [|done]. by destruct (from_bytes bs). Qed.

(** A save of the peers' keys leaves what was there, or the keys; once it has succeeded, the keys. *)
Lemma save_peer_left io registry fs r fs' trace :
  registry_wf registry → synced peers_path fs → save_peer_keys io registry fs = (r, fs', trace) →
  synced peers_path fs' ∧
  ∀ left, left_at fs' peers_path left →
    (r ≠ Ok () ∧ left_at fs peers_path left) ∨ ∀ own, keys (load_left left own) = keys registry ∪ keys own.
Proof.
  intros Hwf Hs Hsave. unfold save_peer_keys, save_keys in Hsave. destruct (to_allocvec _) as [bs|e] eqn:Hbs.
  2:{ injection Hsave as <- <- _. split; [done|]. intros left Hl. by left. }
  pose proof (run_steps_final _ _ _ _ _ Hsave) as Hin.
  assert (Hne : with_extension peers_path "bin.tmp" ≠ peers_path) by done.
  destruct (save_steps_atomic _ _ Hne _ _ _ _ _ _ Hs Hsave) as (Hs' & Hok & Hold). split; [done|]. intros left Hl.
  cbn in Hok, Hold. rewrite app_nil_r in Hok, Hold. destruct (left_at_disk _ _ _ Hl) as (disk & Hc & Hd).
  assert (Hnew : left = Some bs → ∀ own, keys (load_left left own) = keys registry ∪ keys own).
  { intros -> own. unfold load_left. rewrite (wire_roundtrip _ _ Hbs). unfold sec1_keys. rewrite <-list_fmap_compose.
    pose proof (load_loop_ok (map_to_list (keys registry)) own 0) as Hload.
    refine (eq_trans (f_equal (λ x : nat * DeviceRegistry, keys x.2) (Hload _ _)) _).
    - apply NoDup_fst_map_to_list.
    - apply Forall_forall. intros [id key] Hin'%elem_of_map_to_list. exact (Hwf id key Hin').
    - cbn. by rewrite list_to_map_to_list. }
  destruct r as [[]|e].
  - right. apply Hnew. destruct (Hok eq_refl) as [_ Hd']. rewrite <-Hd. by apply Hd'.
  - destruct (Hold fs' disk Hin Hc) as [Ho|[Ho|Ho]]; rewrite Hd in Ho; [left; split; [done|by left]| |right; by apply Hnew].
    left. split; [done|]. right. unfold fs_read in Ho. destruct (fs_live fs !! peers_path) as [f|] eqn:Hf; [|done]. by rewrite (Hs f Hf).
Qed.
End durable_keys.

(** A save of another file leaves no more of this one than there was. *)
Lemma append_other q name buf fs : name ≠ q → untouched q fs (fs_append name buf fs).
Proof. intros Hne. unfold fs_append, untouched. destruct (fs_live fs !! name); cbn; [|done]. by rewrite lookup_insert_ne by done. Qed.
Record beside (q : string) (fs fs' : Fs) : Prop := {
  be_live : fs_live fs' !! q = fs_live fs !! q;
  be_durable : fs_durable fs' !! q = fs_durable fs !! q ∨ fs_durable fs' !! q = ff_data <$> fs_live fs !! q;
}.
Lemma save_beside q io path tmp chunks fs r fs' trace :
  path ≠ q → tmp ≠ q → synced q fs → run_steps (save_steps io path tmp chunks) fs = (r, fs', trace) → beside q fs fs'.
Proof.
  intros Hp Ht Hs Hrun. unfold save_steps in Hrun. rewrite run_steps_app in Hrun.
  pose proof (run_quiet q (tmp_steps io tmp chunks) fs (tmp_steps_quiet q tmp Ht io chunks)) as Hq. rewrite Forall_forall in Hq.
  destruct (run_steps (tmp_steps io tmp chunks) fs) as [[[[]|e] fs1] t1] eqn:Hr; cbn in Hq; pose proof (Hq _ (run_steps_final _ _ _ _ _ Hr)) as [Hl Hd].
  2:{ injection Hrun as <- <- <-. split; [done|by left]. }
  assert (Hren : fs_live (fs_rename tmp path fs1) !! q = fs_live fs !! q ∧ fs_durable (fs_rename tmp path fs1) !! q = fs_durable fs !! q).
  { unfold fs_rename. destruct (fs_live fs1 !! tmp); [|done]. cbn. by rewrite lookup_insert_ne, lookup_delete_ne by done. }
  destruct Hren as [Hl2 Hd2]. cbn in Hrun. unfold step_call in Hrun. destruct (sio_rename io); [injection Hrun as <- <- <-; split; [done|by left]|].
  destruct (sio_sync_dir io); injection Hrun as <- <- <-; [split; [done|by left]|]. split; [done|]. right.
  unfold fs_sync_dir. cbn [fs_durable]. rewrite lookup_omap, Hl2. destruct (fs_live fs !! q) as [f|] eqn:Hf; [|done]. cbn. by rewrite (Hs f Hf).
Qed.
Lemma beside_left q fs fs' left : synced q fs → beside q fs fs' → left_at fs' q left → left_at fs q left.
Proof.
  intros Hs [Hl Hd] Hleft. unfold left_at, survives in *. rewrite Hl in Hleft. destruct Hleft as [->|Hleft]; [|by right].
  destruct Hd as [->| ->]; [by left|]. right. destruct (fs_live fs !! q) as [f|] eqn:Hf; [|done]. by rewrite (Hs f Hf).
Qed.
Lemma beside_synced q fs fs' : synced q fs → beside q fs fs' → synced q fs'.
Proof. intros Hs [Hl _] f. rewrite Hl. apply Hs. Qed.

Section boot_ok.
Context `{Crypto, !CryptoOk, Postcard, !Wire IdentityResp, !Wire DevicesResp, !Wire (list bytes), !WireOk (list bytes), StatusText}.
Context {W : Type} `{!HttpWorld W} (own : DeviceRegistry).

Definition knows (r : DeviceRegistry) (id : DeviceId) : Prop := is_Some (keys r !! id).
(** Whatever a crash leaves, every device known now is known again. *)
Record boot_inv (d : Boot) : Prop := {
  bi_wf : registry_wf (bt_registry d);
  bi_synced : synced peers_path (bt_fs d);
  bi_left left : left_at (bt_fs d) peers_path left → ∀ id, knows (bt_registry d) id → knows (load_left left own) id;
}.

Lemma knows_union (a b : gmap DeviceId VerifyingKey) r id : keys r = a ∪ b → is_Some (a !! id) → knows r id.
Proof. intros Hr [k Hk]. unfold knows. rewrite Hr. exists k. by apply lookup_union_Some_l. Qed.
Lemma knows_insert r sec1 id r' j : insert_sec1 r sec1 = (Ok id, r') → knows r' j ↔ knows r j ∨ j = id.
Proof.
  unfold insert_sec1. destruct (vk_from_sec1 sec1) as [key|]; [|done]. cbn. intros [= <- <-]. unfold knows. cbn.
  destruct (decide (j = device_id_of_key key)) as [->|Hne]; [rewrite lookup_insert_eq; split; [by right|by eexists]|].
  rewrite lookup_insert_ne by done. naive_solver.
Qed.
Lemma insert_sec1_id r sec1 id r' derived : insert_sec1 r sec1 = (Ok id, r') → device_id_from_sec1 sec1 = Ok derived → id = derived.
Proof.
  unfold insert_sec1, device_id_from_sec1. destruct (vk_from_sec1 sec1) as [key|]; [|done]. cbn. by intros [= <- _] [= <-].
Qed.
Lemma knows_remove r id j : knows (registry_remove r id) j ↔ knows r j ∧ j ≠ id.
Proof.
  unfold knows, registry_remove. cbn. destruct (decide (j = id)) as [->|Hne]; [rewrite lookup_delete_eq; split; [by intros [? [=]]|by intros [_ ?]]|].
  rewrite lookup_delete_ne by done. tauto.
Qed.
Lemma knows_removes r ids j : knows (foldl registry_remove r ids) j ↔ knows r j ∧ j ∉ ids.
Proof.
  revert r; induction ids as [|id ids IH]; intros r; cbn [foldl]; [split; [intros ?; split; [done|by intros ?%elem_of_nil]|tauto]|].
  rewrite IH, knows_remove, not_elem_of_cons. tauto.
Qed.
Lemma removes_wf r ids : registry_wf r → registry_wf (foldl registry_remove r ids).
Proof. revert r; induction ids as [|id ids IH]; intros r Hr; cbn [foldl]; [done|]. by apply IH, registry_remove_wf. Qed.

(** A save after the registry grew by [new]: kept when it succeeds; when it
    fails, taking [new] out restores the invariant. *)
Lemma save_grown io d registry (new : list DeviceId) r fs trace :
  boot_inv d → registry_wf registry → (∀ id, knows registry id ↔ knows (bt_registry d) id ∨ id ∈ new) →
  save_peer_keys io registry (bt_fs d) = (r, fs, trace) →
  synced peers_path fs ∧
  ∀ registry', match r with Ok _ => registry' = registry | Err _ => ∀ id, knows registry' id → knows (bt_registry d) id end →
    ∀ left, left_at fs peers_path left → ∀ id, knows registry' id → knows (load_left left own) id.
Proof.
  intros [Hwf Hs Hleft] Hwf' Hgrow Hsave. apply save_peer_left in Hsave as [Hs' Hl]; [|done..]. split; [done|].
  intros registry' Hr left Hat id Hk. destruct (Hl left Hat) as [[Hne Hold]|Hnew].
  - destruct r as [[]|e]; [done|]. apply (Hleft left Hold), Hr, Hk.
  - apply (knows_union _ _ _ _ (Hnew own)). destruct r as [[]|e]; [by rewrite <-Hr|]. apply Hgrow. left. by apply Hr.
Qed.

Lemma register_grows (w : W) source registry r registry' w' :
  registry_wf registry → register_peer_with_key w source registry = (r, registry', w') →
  registry_wf registry' ∧
  match r with
  | Err _ => registry' = registry
  | Ok (id, _, newly) => (∀ j, knows registry' j ↔ knows registry j ∨ j = id) ∧ (newly = true ↔ ¬ knows registry id)
  end.
Proof.
  intros Hwf. unfold register_peer_with_key. destruct (fetch_identity w source) as [[resp|e] w1]; [|by intros [= <- <- _]].
  unfold register_identity. destruct (vec_of_list 33 _) as [sec1|]; [|by intros [= <- <- _]].
  destruct (device_id_from_sec1 sec1) as [derived|e] eqn:Hd; [|by intros [= <- <- _]]. case_decide as Hne; [by intros [= <- <- _]|].
  pose proof (insert_sec1_wf registry sec1 Hwf) as Hwf'. destruct (insert_sec1 registry sec1) as [[id|e] reg] eqn:Hins; cbn in Hwf'.
  - intros [= <- <- _]. split; [done|]. assert (Hid : id = ir_device_id resp).
    { rewrite <-Hne. by eapply insert_sec1_id. }
    split; [intros j; rewrite (knows_insert _ _ _ _ _ Hins), Hid; done|]. unfold registry_contains, knows.
    rewrite negb_true_iff, bool_decide_eq_false. done.
  - intros [= <- <- _]. unfold insert_sec1 in Hins. destruct (vk_from_sec1 sec1); [done|]. by injection Hins as _ <-.
Qed.
Lemma learn_loop_grows entries registry added ids registry' :
  registry_wf registry → learn_loop entries registry added = (ids, registry') →
  registry_wf registry' ∧ ∃ new : list DeviceId, (∀ j, j ∈ ids ↔ j ∈ added ∨ j ∈ new) ∧ (∀ j, knows registry' j ↔ knows registry j ∨ j ∈ new) ∧
    ∀ j, j ∈ new → ¬ knows registry j.
Proof.
  revert registry added; induction entries as [|e entries IH]; intros registry added Hwf; cbn [learn_loop].
  { intros [= <- <-]. split; [done|]. exists []. split_and!; [intros j; rewrite list_elem_of_In, <-in_rev, <-list_elem_of_In|intros j|]; set_solver. }
  destruct (vec_of_list 33 _) as [sec1|]; [|by apply IH]. destruct (device_id_from_sec1 sec1) as [derived|] eqn:Hd; [|by apply IH].
  case_decide as Hne; [by apply IH|]. destruct (registry_contains _ _) eqn:Hc; [by apply IH|].
  pose proof (insert_sec1_wf registry sec1 Hwf) as Hwf'. destruct (insert_sec1 registry sec1) as [[id|err] reg] eqn:Hins; cbn in Hwf'.
  2:{ unfold insert_sec1 in Hins. destruct (vk_from_sec1 sec1); [done|]. injection Hins as _ <-. by apply IH. }
  assert (Hid : id = de_device_id e).
  { rewrite <-Hne. by eapply insert_sec1_id. }
  intros Hl. apply IH in Hl as (Hw & new & Hids & Hknow & Hnew); [|done]. split; [done|]. exists (de_device_id e :: new).
  unfold registry_contains in Hc. apply bool_decide_eq_false in Hc. split_and!.
  - intros j. rewrite Hids, !elem_of_cons. tauto.
  - intros j. rewrite Hknow, (knows_insert _ _ _ _ _ Hins), Hid, elem_of_cons. tauto.
  - intros j [->|Hj]%elem_of_cons; [done|]. intros Hk. apply (Hnew j Hj). apply (knows_insert _ _ _ _ _ Hins). by left.
Qed.

Lemma learned_grows (w : W) legacy source random peer key registry r registry' w' :
  registry_wf registry →
  (if legacy : bool then learn_devices w source registry else learn_attested_devices w source random peer key registry) = (r, registry', w') →
  registry_wf registry' ∧
  match r with
  | Err _ => registry' = registry
  | Ok ids => (∀ j, knows registry' j ↔ knows registry j ∨ j ∈ ids) ∧ ∀ j, j ∈ ids → ¬ knows registry j
  end.
Proof.
  intros Hwf. assert (Hfinish : ∀ resp ids reg, learn_device_entries resp registry = (ids, reg) → registry_wf reg ∧
    (∀ j, knows reg j ↔ knows registry j ∨ j ∈ ids) ∧ ∀ j, j ∈ ids → ¬ knows registry j).
  { intros resp ids reg (Hw & new & Hids & Hk & Hn)%learn_loop_grows; [|done]. split_and!; [done|..].
    - intros j. rewrite Hk, Hids, elem_of_nil. tauto.
    - intros j [[]%elem_of_nil|Hj]%Hids. by apply Hn. }
  destruct legacy; [unfold learn_devices; destruct (fetch_devices w source) as [[resp|e] w1]|
    unfold learn_attested_devices; destruct (fetch_attested_devices _ _ _ _ _) as [[resp|e] w1]]; try (by intros [= <- <- _]);
    destruct (learn_device_entries resp registry) as [ids reg] eqn:Hl; intros [= <- <- _]; by apply (Hfinish resp).
Qed.
Lemma persist_peer_inv io d registry peer newly kept d' :
  boot_inv d → registry_wf registry → (∀ j, knows registry j ↔ knows (bt_registry d) j ∨ j = peer) → (newly = true ↔ ¬ knows (bt_registry d) peer) →
  (if newly : bool then persist_peer io peer (bt_with_registry d registry) else (true, bt_with_registry d registry)) = (kept, d') → boot_inv d'.
Proof.
  intros Hinv Hwf Hgrow Hnewly. destruct newly.
  - unfold persist_peer. cbn [bt_registry bt_with_registry bt_fs]. destruct (save_peer_keys _ _ _) as [[r fs] t] eqn:Hsave.
    destruct (save_grown io d registry [peer] r fs t Hinv Hwf) as [Hs1 Hl]; [intros id; rewrite Hgrow, list_elem_of_singleton; done|done|].
    destruct r as [[]|e]; intros [= _ <-]; (split; cbn [bt_registry bt_fs]; [|done|]); [done|by apply Hl|by apply registry_remove_wf|].
    apply Hl. intros id [Hk Hne]%knows_remove. by apply Hgrow in Hk as [Hk| ->].
  - intros [= _ <-]. destruct Hinv as [Hwf0 Hs Hleft]. split; [done|done|]. cbn. intros left Hat id Hk. apply (Hleft left Hat).
    apply Hgrow in Hk as [Hk| ->]; [done|]. destruct (decide (is_Some (keys (bt_registry d) !! peer))) as [|Hn]; [done|]. by apply Hnewly in Hn.
Qed.
Lemma admit_caller_inv io peer key d ok d' : boot_inv d → admit_caller io peer key d = Ok (ok, d') → boot_inv d'.
Proof.
  intros [Hwf Hs Hleft]. unfold admit_caller. destruct (insert_sec1 (bt_callers d) key) as [[id|e] callers]; [|done].
  destruct (negb _); [|intros [= _ <-]; by split]. destruct (save_relay_caller_keys _ _ _) as [[r fs] t] eqn:Hsave.
  assert (Hb : beside peers_path (bt_fs d) fs).
  { unfold save_relay_caller_keys, save_keys in Hsave. destruct (to_allocvec _); [|injection Hsave as _ <- _; split; [done|by left]].
    by apply (save_beside peers_path) in Hsave. }
  destruct r as [[]|e]; intros [= _ <-]; (split; cbn [bt_registry bt_fs]; [done|by eapply beside_synced|]); intros left Hat; eapply Hleft, beside_left; done.
Qed.
Lemma persist_gossip_inv io d registry added : boot_inv d → registry_wf registry →
  (∀ j, knows registry j ↔ knows (bt_registry d) j ∨ j ∈ added) → (∀ j, j ∈ added → ¬ knows (bt_registry d) j) →
  boot_inv (persist_gossip io added (bt_with_registry d registry)).
Proof.
  intros Hinv Hwf Hgrow Hnew. unfold persist_gossip. destruct added as [|id0 added'] eqn:Hadded.
  { destruct Hinv as [_ Hs Hleft]. split; [done|done|]. intros left Hat id Hk. apply (Hleft left Hat). by apply Hgrow in Hk as [Hk|[]%elem_of_nil]. }
  rewrite <-Hadded in *. cbn [bt_registry bt_with_registry bt_fs]. destruct (save_peer_keys _ _ _) as [[r fs] t] eqn:Hsave.
  destruct (save_grown io d registry added r fs t Hinv Hwf Hgrow Hsave) as [Hs2 Hl2].
  destruct r as [[]|e]; (split; cbn [bt_registry bt_fs]; [|done|]); [done|by apply Hl2|by apply removes_wf|].
  apply Hl2. intros id [Hk Hne]%knows_removes. by apply Hgrow in Hk as [Hk|Hk].
Qed.
Lemma boot_peer_inv legacy io base d (w : W) d' w' : boot_inv d → boot_peer legacy io base d w = (Ok d', w') → boot_inv d'.
Proof.
  intros Hinv. unfold boot_peer. destruct (register_peer_with_key w (source_new base) (bt_registry d)) as [[r registry] w1] eqn:Hreg.
  apply register_grows in Hreg as [Hwf1 Hgrow]; [|apply Hinv]. destruct r as [[[peer key] newly]|e].
  2:{ intros [= <- _]. subst registry. by destruct d. }
  destruct Hgrow as [Hgrow Hnewly]. destruct (if newly then _ else _) as [kept d1] eqn:Hp.
  apply persist_peer_inv in Hp as Hd1; [|done..]. clear Hinv Hwf1 Hgrow Hnewly Hp. destruct kept; cbn [negb]; [|intros [= <- _]; done].
  destruct (admit_caller _ _ _ _) as [[ok d2]|e] eqn:Hc; [|done]. apply admit_caller_inv in Hc as Hd2; [|done].
  destruct ok; [|intros [= <- _]; done]. destruct (if legacy then _ else _) as [[learned registry2] w2] eqn:Hl.
  apply learned_grows in Hl as [Hwf2 Hgrow]; [|apply Hd2]. intros [= <- _].
  assert (Hgossip : boot_inv (match learned with Ok added => persist_gossip (pi_gossip io) added (bt_with_registry d2 registry2) | Err _ => bt_with_registry d2 registry2 end)).
  { destruct learned as [added|e]; [|subst registry2; by destruct d2]. destruct Hgrow as [Hgrow Hnew]. by apply persist_gossip_inv. }
  destruct Hgossip. by split.
Qed.
Lemma boot_peers_inv legacy peers d (w : W) d' w' : boot_inv d → boot_peers legacy peers d w = (Ok d', w') → boot_inv d'.
Proof.
  revert d w; induction peers as [|[base io] peers IH]; intros d w Hd; cbn [boot_peers]; [by intros [= <- _]|].
  destruct (boot_peer legacy io base d w) as [[d1|e] w1] eqn:Hb; [|done]. apply IH. by eapply boot_peer_inv.
Qed.

Lemma load_loop_wf ks registry n : registry_wf registry → registry_wf (load_loop ks registry n).2.
Proof.
  revert registry n; induction ks as [|key ks IH]; intros registry n Hr; cbn [load_loop]; [done|]. destruct (vec_of_list 33 key) as [sec1|]; [|by apply IH].
  pose proof (insert_sec1_wf registry sec1 Hr). destruct (insert_sec1 registry sec1) as [[]]; by apply IH.
Qed.
Lemma load_left_wf left : registry_wf own → registry_wf (load_left left own).
Proof. intros Hw. unfold load_left. destruct left as [bs|]; [|done]. destruct (from_bytes bs); [by apply load_loop_wf|done]. Qed.
Lemma boot_start_inv identity fs :
  own = own_registry identity → synced peers_path fs → fs_durable fs !! peers_path = fs_read fs peers_path → boot_inv (boot_start identity fs).
Proof.
  intros Hown Hs Hd. assert (Hwf : registry_wf own) by (rewrite Hown; apply insert_key_wf, registry_new_wf).
  assert (Hload : (load_peer_keys fs own).2 = load_left (fs_read fs peers_path) own).
  { unfold load_peer_keys, load_keys, load_left. destruct (fs_read fs peers_path) as [bs|]; [|done]. by destruct (from_bytes bs). }
  split; cbn [boot_start bt_registry bt_fs]; rewrite <-?Hown, ?Hload; [by apply load_left_wf|done|].
  intros left Hat id. replace left with (fs_read fs peers_path); [done|]. unfold left_at, survives in Hat. rewrite Hd in Hat.
  destruct Hat as [->|Hat]; [done|]. unfold fs_read. destruct (fs_live fs !! peers_path) as [f|] eqn:Hf; [|done]. by rewrite (Hs f Hf) in Hat.
Qed.
End boot_ok.

Section start_ok.
Context `{Crypto, !CryptoOk, Postcard, !Wire IdentityResp, !Wire DevicesResp, !Wire (list bytes), !WireOk (list bytes), StatusText}.
Context {W : Type} `{!HttpWorld W, Uhlc, !Wire BodyRepr, !Wire EnvelopeRepr} {T : Type} `{!Store T}.

Lemma rereplay_boot io dm dm' : rereplay (T := T) io dm = Some (Ok dm') → dm_boot dm' = dm_boot dm ∧ dm_identity dm' = dm_identity dm.
Proof.
  unfold rereplay. destruct (negb _); [by intros [= <-]|]. destruct (replay_oplog_file _ _ _ _) as [[[r log] file]|]; [|done]. cbn [mbind option_bind].
  destruct r as [recovered|]; [|done]. case_decide; [by intros [= <-]|]. destruct (replay log (dm_store dm)) as [[[]|] store]; [by intros [= <-]|done].
Qed.
(** C10: no key that is not on disk ever verifies an op.  [serve] starts on a key
    file that is on disk as it is read; however the peers answer and whichever
    saves fail: after any crash, the next start knows every device this one knows,
    under the same id; so, when keys with one id are one key, it admits every op
    this one admits, and its replay of the op-log file restores every op of the
    current envelope version that this one admits and that is framed there,
    whatever is left on file after those frames. *)
Theorem learned_keys_durable `{!WireOk EnvelopeRepr} io legacy peers epoch fs oplog (store : T) (w : W) dm w' disk :
  synced peers_path fs → fs_durable fs !! peers_path = fs_read fs peers_path →
  serve_start io legacy peers epoch fs oplog store w = Some (Ok dm, w') →
  crash (bt_fs (dm_boot dm)) disk →
  let again := (load_peer_keys (fs_mount disk) (own_registry (dm_identity dm))).2 in
  (∀ id key, key_for (bt_registry (dm_boot dm)) id = Some key →
     ∃ key', key_for again id = Some key' ∧ device_id_of_key key' = id) ∧
  ((∀ k k', device_id_of_key k = device_id_of_key k' → k = k') →
   (∀ op, admits (bt_registry (dm_boot dm)) op = true → admits again op = true) ∧
   ∀ ops bss tail log arr, Forall2 framed ops bss → log_rep log arr →
     ∃ n log' file', replay_oplog_file io_quiet (Some (frames bss ++ tail)) again log = Some (Ok n, log', Some file') ∧
       ∀ op, op ∈ ops → admits (bt_registry (dm_boot dm)) op = true → log_contains log' (op_id op) = true).
Proof.
  intros Hs Hd Hstart Hcrash again. unfold serve_start in Hstart.
  destruct (read_scalar _ _ ≫= _) as [identity|e]; [|done]. destruct (clock_new _) as [clock|]; [|done]. cbn [mbind option_bind] in Hstart.
  destruct (replay_oplog_file _ _ _ _) as [[[replayed log] oplog']|]; [|done]. cbn [mbind option_bind] in Hstart.
  destruct replayed as [n|]; [|done]. destruct (replay log store) as [[[]|] store']; [|done].
  destruct (writer_open _ _ _) as [writer|]; [|done]. destruct (st_bind io) as [[]|]; [|done].
  destruct (boot_peers _ _ _ _) as [[d|] w1] eqn:Hboot; [|done]. destruct (rereplay _ _) as [[dm1|]|] eqn:Hre; try done. injection Hstart as -> _.
  apply rereplay_boot in Hre as [Hb Hid]. cbn in Hb, Hid. subst again. rewrite Hid, Hb in *. set (own := own_registry identity).
  destruct (boot_peers_inv own _ _ _ _ _ _ (boot_start_inv own identity fs eq_refl Hs Hd) Hboot) as [Hwf _ Hleft].
  assert (Hwf' : registry_wf (load_left (disk !! peers_path) own)) by (apply load_left_wf, insert_key_wf, registry_new_wf).
  rewrite load_left_mount.
  assert (Hknown : ∀ id key, key_for (bt_registry d) id = Some key → ∃ key', key_for (load_left (disk !! peers_path) own) id = Some key' ∧ device_id_of_key key' = id).
  { intros id key Hk. destruct (Hleft (disk !! peers_path) (Hcrash peers_path) id) as [key' Hk']; [by eexists|]. exists key'. split; [done|].
    by eapply key_for_wf. }
  split; [done|]. intros Hinj.
  assert (Hadm : ∀ op, admits (bt_registry d) op = true → admits (load_left (disk !! peers_path) own) op = true).
  { intros op. unfold admits. destruct (key_for (bt_registry d) _) as [key|] eqn:Hk; [|done].
    destruct (Hknown _ _ Hk) as (key' & -> & Hid'). rewrite (Hinj key' key); [done|]. rewrite Hid'. symmetry. exact (key_for_wf _ _ _ Hwf Hk). }
  split; [done|]. intros ops bss tail log1 arr Hops Hr.
  destruct (replay_prefix (load_left (disk !! peers_path) own) log1 arr ops bss tail Hr Hops) as (k & log' & file' & Hrep & Hall).
  exists k, log', file'. split; [exact Hrep|]. auto.
Qed.
End start_ok.

(** ** Draining the links *)

Definition lk_with_relay (l : Link) (c : RelayCursor) : Link :=
  mk_Link (lk_source l) (lk_peer_id l) (lk_peer_key l) c (lk_legacy_cursor l) (lk_poll_only_until l).
Definition lk_with_legacy (l : Link) (c : OrderKey) : Link :=
  mk_Link (lk_source l) (lk_peer_id l) (lk_peer_key l) (lk_relay_cursor l) c (lk_poll_only_until l).
Definition lk_with_poll (l : Link) (until : option Z) : Link :=
  mk_Link (lk_source l) (lk_peer_id l) (lk_peer_key l) (lk_relay_cursor l) (lk_legacy_cursor l) until.

Section drain.
Context `{Crypto, Uhlc, Postcard, !Wire BodyRepr, !Wire EnvelopeRepr, !Wire RelayResponse, StatusText}.
Context {T W : Type} `{!Store T, !HttpWorld W}.
Notation Node := (SyncNode (T := T)).

(** What the environment answers one round of a drain. *)
Record RoundIo : Type := mk_RoundIo {
  ri_random : result string (barr 32);
  ri_append : nat → AppendIo;
  ri_sync : option IoError;
  ri_save : SaveIo;
}.
(** A link, the node, its data directory and its published head. *)
Record Drained : Type := mk_Drained {
  dr_link : Link;
  dr_node : Node;
  dr_fs : Fs;
  dr_head : Channel;
  dr_world : W;
}.
Definition publish_head (n : Node) (head : Channel) : Channel :=
  match log_head (sn_log n) with Some h => publish head h | None => head end.

(** The inner loop under relay v2, one round per answer of the environment: whether it broke out, and what it leaves. *)
Fixpoint drain_relay (identity : DeviceIdentity) (ios : list RoundIo) (s : Drained) : option (bool * Drained) :=
  match ios with
  | [] => Some (false, s)
  | io :: ios =>
      let link := dr_link s in
      let before := lk_relay_cursor link in
      match sync_relay_once (dr_world s) (lk_source link) identity (ri_random io) (lk_peer_id link) (lk_peer_key link)
              (ri_append io) (ri_sync io) (dr_node s) before with
      | (None, _) => None
      | (Some (r, cursor, n), w) =>
          let fs := if decide (cursor ≠ before) then (Persistence.save_relay_cursor (ri_save io) (lk_peer_id link) cursor (dr_fs s)).1.2 else dr_fs s in
          let '(keep_draining, head) :=
            match r with
            | Ok outcome =>
                (bool_decide (0 < so_received outcome) || so_reset outcome,
                 if decide (0 < so_appended outcome) then publish_head n (dr_head s) else dr_head s)
            | Err _ => (false, dr_head s)
            end in
          let s := mk_Drained (lk_with_relay link cursor) n fs head w in
          if decide (keep_draining = false ∨ cursor = before) then Some (true, s) else drain_relay identity ios s
      end
  end.
(** The inner loop under the legacy protocol. *)
Fixpoint drain_legacy `{!Wire PullResponse} (ios : list RoundIo) (s : Drained) : option (bool * Drained) :=
  match ios with
  | [] => Some (false, s)
  | io :: ios =>
      let link := dr_link s in
      let before := lk_legacy_cursor link in
      let '(pulled, w) := source_pull (dr_world s) (lk_source link) before in
      match sync_once (ri_append io) (ri_sync io) pulled (dr_node s) before with
      | None => None
      | Some (r, cursor, n) =>
          let fs := if decide (cursor ≠ before) then (Persistence.save_cursor (ri_save io) (lk_peer_id link) cursor (dr_fs s)).1.2 else dr_fs s in
          let '(applied, head) :=
            match r with
            | Ok k => if decide (0 < k) then (k, publish_head n (dr_head s)) else (0, dr_head s)
            | Err _ => (0, dr_head s)
            end in
          let s := mk_Drained (lk_with_legacy link cursor) n fs head w in
          if decide (applied = 0 ∨ cursor = before) then Some (true, s) else drain_legacy ios s
      end
  end.
(** Under the legacy protocol a page of ops that are known already ends the drain of
    the peer: one request is made, and the log is what it was. *)
Lemma legacy_known_page `{!Wire PullResponse} io ios s ops w broke s' :
  source_pull (dr_world s) (lk_source (dr_link s)) (lk_legacy_cursor (dr_link s)) = (Ok ops, w) →
  Forall (λ op, log_contains (sn_log (dr_node s)) (op_id op) = true) ops →
  drain_legacy (io :: ios) s = Some (broke, s') → broke = true ∧ sn_log (dr_node s') = sn_log (dr_node s) ∧ dr_world s' = w.
Proof.
  intros Hp Hk. cbn [drain_legacy]. rewrite Hp. destruct (sync_once _ _ _ _ _) as [[[r cursor] n]|] eqn:Hs; [|done].
  apply sync_once_known in Hs as [Hlog Hr]; [|done]. destruct r as [k|e].
  - rewrite (Hr k eq_refl). rewrite decide_False by lia. rewrite decide_True by (by left). by intros [= <- <-].
  - rewrite decide_True by (by left). by intros [= <- <-].
Qed.
End drain.

(** ** Waiting for the next round *)

Definition WATCH_REPROBE_INTERVAL : Z := 300 * 1000.
Definition WATCH_EMPTY_BACKOFF : Z := 500.
Definition U32_MAX : Z := 2 ^ 32 - 1.
(** [base.mul_f64(0.5 + nanos / u32::MAX)], to the nanosecond below. *)
Definition jitter (base nanos : Z) : Z := (base * (U32_MAX + 2 * nanos)) / (2 * U32_MAX).

Definition due (now : Z) (l : Link) : Prop := match lk_poll_only_until l with Some deadline => (deadline ≤ now)%Z | None => False end.
#[export] Instance due_dec now l : Decision (due now l).
Proof. unfold due. destruct (lk_poll_only_until l); apply _. Defined.
Definition reprobe (now : Z) (links : list Link) : list Link := (λ l, if decide (due now l) then lk_with_poll l None else l) <$> links.
Definition watched (l : Link) : bool := bool_decide (lk_poll_only_until l = None).
Definition capable (links : list Link) : list nat := omap (λ il : nat * Link, if watched il.2 then Some il.1 else None) (imap pair links).
Definition any_poll_only (links : list Link) : bool := existsb (λ l, negb (watched l)) links.

(** What ends the wait, and the wait itself: an interval when nobody is watched,
    the race of the watches, with an interval beside it when somebody is polled. *)
Section wait.
Context `{Crypto, Postcard} {A : Type} (nothing_new : Link → A → bool).
Inductive Woken : Type :=
  | Answered (index : nat) (r : result TransportError A)
  | Elapsed.
Definition may_wake (links : list Link) (wake : Woken) : Prop :=
  match wake with
  | Answered index _ => index ∈ capable links
  | Elapsed => capable links = [] ∨ any_poll_only links = true
  end.
(** A failed watch marks its own link; an answer with nothing new is followed by a pause. *)
Definition woken (wake : Woken) (now : Z) (links : list Link) : list Link * Z :=
  match wake with
  | Answered index (Err _) => (alter (λ l, lk_with_poll l (Some (now + WATCH_REPROBE_INTERVAL)%Z)) index links, 0%Z)
  | Answered index (Ok a) =>
      (links, match links !! index with Some l => if nothing_new l a then WATCH_EMPTY_BACKOFF else 0%Z | None => 0%Z end)
  | Elapsed => (links, 0%Z)
  end.
(** The wait of one round: it starts at [now] and ends at [later]. *)
Definition wait_round (now later : Z) (wake : Woken) (links : list Link) : list Link := (woken wake later (reprobe now links)).1.
End wait.
Definition nothing_relay (l : Link) (page : RelayPage) : bool := negb (rg_reset page) && (rg_head page <=? rc_after (lk_relay_cursor l))%Z.
Definition nothing_legacy (l : Link) (head : OrderKey) : bool := bool_decide (head ⪯ lk_legacy_cursor l).

(** The spread of the fallback interval: from a half to less than three
    quarters of it, since the nanoseconds of a second are below a quarter of
    [u32::MAX]. *)
Lemma jitter_bounds base nanos :
  (0 ≤ base → 0 ≤ nanos < 1000000000 → base / 2 ≤ jitter base nanos ≤ base * 733 / 1000)%Z.
Proof.
  intros Hb [Hn Hn']. unfold jitter, U32_MAX. split.
  - apply Z.div_le_lower_bound; [lia|]. pose proof (Z.mul_div_le base 2). nia.
  - apply Z.div_le_lower_bound; [lia|]. pose proof (Z.mul_div_le (base * (2 ^ 32 - 1 + 2 * nanos)) (2 * (2 ^ 32 - 1))). nia.
Qed.

Section wait_ok.
Context `{Crypto, Postcard} {A : Type}.

(** Rounds of waiting, each with when it starts and ends and what ends it. *)
Fixpoint wait_rounds (now : Z) (rounds : list (Z * Z * Woken (A := A))) (links : list Link) : Prop * Z * list Link :=
  match rounds with
  | [] => (True, now, links)
  | (start, later, wake) :: rounds =>
      let links' := reprobe start links in
      let '(P, last, out) := wait_rounds later rounds (wait_round (λ _ _, false) start later wake links) in
      ((now ≤ start)%Z ∧ (start ≤ later)%Z ∧ may_wake links' wake ∧ P, last, out)
  end.
Definition polled_until (bound : Z) (l : Link) : Prop := ∀ d, lk_poll_only_until l = Some d → (d ≤ bound)%Z.
Lemma reprobe_polled now bound links : Forall (polled_until bound) links → Forall (polled_until bound) (reprobe now links).
Proof.
  intros Hl. unfold reprobe. apply Forall_fmap. eapply Forall_impl; [exact Hl|]. intros l Hp. cbn. case_decide; [by intros d [=]|exact Hp].
Qed.
(** A link is left to polling for at most the re-probe interval: whatever watches
    fail, a round that starts that long after the last one watches every link. *)
Lemma links_rewatched now rounds links P last out t :
  Forall (polled_until (now + WATCH_REPROBE_INTERVAL)%Z) links → wait_rounds now rounds links = (P, last, out) → P →
  (last + WATCH_REPROBE_INTERVAL ≤ t)%Z → any_poll_only (reprobe t out) = false.
Proof.
  revert now links P; induction rounds as [|[[start later] wake] rounds IH]; intros now links P Hl; cbn [wait_rounds].
  - intros [= <- <- <-] _ Ht. unfold any_poll_only, reprobe. apply not_true_iff_false. intros (l' & Hin & Hw)%existsb_exists.
    apply list_elem_of_In, list_elem_of_fmap in Hin as (l & -> & Hin). rewrite Forall_forall in Hl. specialize (Hl l Hin). revert Hw. unfold watched.
    case_decide as Hd; [by rewrite bool_decide_eq_true_2|]. unfold due in Hd. destruct (lk_poll_only_until l) as [d|] eqn:Hp; [|by rewrite bool_decide_eq_true_2].
    specialize (Hl d Hp). lia.
  - destruct (wait_rounds later rounds _) as [[P' last'] out'] eqn:Hr. intros [= <- <- <-] (Hs & Hsl & _ & HP) Ht.
    eapply (IH later); [|exact Hr|done|done].
    assert (Hlater : Forall (polled_until (later + WATCH_REPROBE_INTERVAL)%Z) (reprobe start links)).
    { apply reprobe_polled. eapply Forall_impl; [exact Hl|]. intros l Hp d Hd. specialize (Hp d Hd). lia. }
    unfold wait_round, woken. destruct wake as [i [a|e]|]; cbn [fst]; [done| |done].
    apply Forall_alter; [done|]. intros l _ _ d [= <-]. lia.
Qed.
(** A watch that fails marks its own link and no other. *)
Lemma failed_watch_isolated (i j : nat) (e : TransportError) now links l :
  j ≠ i → links !! j = Some l → (woken (A := A) (λ _ _, false) (Answered i (Err e)) now links).1 !! j = Some l.
Proof. intros Hne Hl. cbn. by rewrite list_lookup_alter_ne. Qed.
End wait_ok.
