(* ===== verification/PullServer.v ===== *)
(** * Pull protocol v3: the server ([src/net/pull_server.rs])

    The two-channel page builder over any pull socket, the admission of
    compaction acknowledgments, the authentication of requests and the route
    handler; with the theorem that the keyed channel serves exactly what the
    claims leave out, and the backbone channel the rest. *)

From S2P Require Import Prelude Ordered External Toy Http Identity Op Registry Store Log Hlc Pull Socket.
Import BTree.

Section pull_server.
Context `{Crypto, Base64}.

Definition pull_needs_reset (request_epoch : barr 32) (after : Z) (st : RelayStreamState) : bool :=
  (bool_decide (request_epoch = zeros 32) && bool_decide (0 < rs_floor st)%Z)
  || (bool_decide (request_epoch ≠ zeros 32) && bool_decide (request_epoch ≠ rs_epoch st))
  || (bool_decide (request_epoch = rs_epoch st)
      && (bool_decide (after < rs_floor st)%Z || bool_decide (rs_head st < after)%Z)).

Definition reset_pull_page (stream : RelayStreamState) : PullPage :=
  mk_PullPage PULL_VERSION (encode_hex (rs_epoch stream)) true (rs_floor stream) [] [] 0
    (rs_head stream) None false false None.

(** [String::len] *)
Definition str_len (s : string) : Z := Z.of_nat (String.length s).

(** The loop of [encode_origin_rows]: the rows it served, with the entries and
    the byte count it accumulated. *)
Fixpoint encode_origin_rows (rows : list (OrderKey * bytes)) (keyed : list string) (nbytes byte_budget : Z)
    (served : Z) (last_key : option OrderKey) : list string * Z * Z * option OrderKey :=
  match rows with
  | [] => (keyed, nbytes, served, last_key)
  | (key, envelope) :: rows =>
      let encoded := b64_encode envelope in
      let nbytes := (nbytes + str_len encoded)%Z in
      let keyed := keyed ++ [encoded] in
      let served := (served + 1)%Z in
      if decide (byte_budget ≤ nbytes)%Z then (keyed, nbytes, served, Some key)
      else encode_origin_rows rows keyed nbytes byte_budget served (Some key)
  end.

Definition keyed_resume (origin : DeviceId) (last_key : option OrderKey) : Resume :=
  mk_Resume Keyed 0 (DeviceId_to_hex origin)
    (match last_key with Some key => encode_hex (to_wire key) | None => "" end).

(** [slice::partition_point] on a partitioned slice. *)
Definition partition_point {A} (P : A → Prop) `{!∀ x, Decision (P x)} (l : list A) : nat :=
  length (take_while P l).

Section page.
Context {S : Type} `{!MeshPullSocket S}.

Definition claim_of (claims : CoverageVector) (audit : bool) (origin : DeviceId) : option OrderKey :=
  if audit then None else bt_get origin claims.

(** Where an origin's rows start: the claim, or the resume key if it is higher. *)
Definition rows_after (claim resume_key : option OrderKey) : option OrderKey :=
  match claim, resume_key with
  | Some claim, Some resume_key => Some (omax claim resume_key)
  | Some claim, None => Some claim
  | None, resume_key => resume_key
  end.

(** The loop over [origins[start..]]. *)
Fixpoint keyed_loop (socket : S) (claims : CoverageVector) (resume_origin : option DeviceId)
    (resume_key : option OrderKey) (audit : bool) (byte_budget : Z) (store : option string)
    (own : DeviceId) (own_served_first : bool) (origins : list DeviceId)
    (remaining : Z) (keyed : list string) (nbytes : Z)
    : result (SockError S) (list string * option Resume) :=
  match origins with
  | [] => Ok (keyed, None)
  | origin :: origins =>
      if own_served_first && bool_decide (origin = own)
      then keyed_loop socket claims resume_origin resume_key audit byte_budget store own
             own_served_first origins remaining keyed nbytes
      else
        let resumed_here := bool_decide (resume_origin = Some origin) in
        let after := rows_after (claim_of claims audit origin) (if resumed_here then resume_key else None) in
        rows ← sock_origin_since socket origin after store remaining;
        let fetched := len rows in
        let '(keyed, nbytes, served, last_key) :=
          encode_origin_rows rows keyed nbytes byte_budget 0 None in
        let count_exhausted := bool_decide (fetched = remaining) in
        let remaining := (remaining - served)%Z in
        if count_exhausted || bool_decide (served < fetched)%Z || bool_decide (byte_budget ≤ nbytes)%Z
        then Ok (keyed, Some (keyed_resume origin last_key))
        else keyed_loop socket claims resume_origin resume_key audit byte_budget store own
               own_served_first origins remaining keyed nbytes
  end.

Definition build_keyed_channel (socket : S) (claims : CoverageVector) (resume : option Resume)
    (audit : bool) (budget byte_budget : Z) (store : option string) (own : DeviceId)
    : result (SockError S) (list string * option Resume) :=
  if decide (budget = 0)%Z then Ok ([], resume)
  else
    origins ← sock_origins socket;
    let resume_origin := r ← resume; ok (DeviceId_from_hex (r_origin r)) in
    let resume_key := r ← resume; decode_order_key (r_after_key r) in
    let start :=
      match resume_origin with
      | Some origin => partition_point (λ candidate, candidate ≺ origin) origins
      | None => 0
      end in
    if bool_decide (resume = None) && bool_decide (own ∈ origins) then
      rows ← sock_origin_since socket own (claim_of claims audit own) store budget;
      let fetched := len rows in
      let '(keyed, nbytes, served, last_key) := encode_origin_rows rows [] 0 byte_budget 0 None in
      let remaining := (budget - served)%Z in
      if bool_decide (remaining = 0)%Z || bool_decide (served < fetched)%Z
         || bool_decide (byte_budget ≤ nbytes)%Z
      then Ok (keyed, Some (keyed_resume own last_key))
      else keyed_loop socket claims resume_origin resume_key audit byte_budget store own true
             (drop start origins) remaining keyed nbytes
    else keyed_loop socket claims resume_origin resume_key audit byte_budget store own false
           (drop start origins) budget [] 0.

(** The scan of channel B: entries above the claims are passed over, they belong
    to channel A. *)
Fixpoint backfill_loop (claims : CoverageVector) (scanned : list (Z * SignedOp * bytes))
    (next_relay_seq : Z) (backfill : list (Z * string)) (page_bytes : Z) (byte_cut : bool)
    : Z * list (Z * string) * bool :=
  match scanned with
  | [] => (next_relay_seq, backfill, byte_cut)
  | (seq, op, envelope) :: scanned =>
      let covered := covers claims (order_key op) in
      if byte_cut && covered then (next_relay_seq, backfill, byte_cut)
      else if covered then
        let encoded := b64_encode envelope in
        let page_bytes := (page_bytes + str_len encoded)%Z in
        backfill_loop claims scanned seq (backfill ++ [(seq, encoded)]) page_bytes
          (bool_decide (PULL_PAGE_BYTE_BUDGET ≤ page_bytes)%Z)
      else backfill_loop claims scanned seq backfill page_bytes byte_cut
  end.

Definition backfill_resume (after_seq : Z) : Resume := mk_Resume Backfill after_seq "" "".

(** The page of [stream] that both channels fill. *)
Definition page_of (stream : RelayStreamState) (backfill : list (Z * string)) (keyed : list string)
    (next_relay_seq : Z) (resume : option Resume) (store : option string) : PullPage :=
  mk_PullPage PULL_VERSION (encode_hex (rs_epoch stream)) false (rs_floor stream) backfill keyed
    next_relay_seq (rs_head stream) resume (bool_decide (resume = None)) false store.

Definition sum_len (keyed : list string) : Z := foldr Z.add 0%Z (str_len <$> keyed).

(** Channel B of the page, with the budget channel A left. *)
Definition build_backfill (socket : S) (stream : RelayStreamState) (claims : CoverageVector)
    (keyed : list string) (start_seq budget : Z) : result (SockError S) PullPage :=
  scanned ← sock_relay_since socket start_seq budget;
  let '(next_relay_seq, backfill, byte_cut) :=
    backfill_loop claims scanned start_seq [] (sum_len keyed) false in
  let resume :=
    if (bool_decide (len scanned = budget)%Z && bool_decide (0 < budget)%Z) || byte_cut
    then Some (backfill_resume next_relay_seq) else None in
  Ok (page_of stream backfill keyed next_relay_seq resume None).

Definition is_phase (phase : PullPhase) (resume : option Resume) : bool :=
  match resume with Some r => bool_decide (r_phase r = phase) | None => false end.

Definition build_pull_page (socket : S) (request : PullRequest) : result (SockError S) PullPage :=
  stream ← relay_stream_state socket;
  request_epoch ← ok_or (decode_epoch (pr_relay_epoch request)) (invalid_argument "invalid relay epoch");
  if bool_decide (pr_store request = None)
     && pull_needs_reset request_epoch (pr_relay_after request) stream
  then Ok (reset_pull_page stream)
  else
    let limit := Z.max 1 (Z.min (pr_limit request) PULL_PAGE_LIMIT_MAX) in
    let claims := decode_coverage request in
    let audit := pr_audit request in
    let resume_keyed := if is_phase Keyed (pr_resume request) then pr_resume request else None in
    let own := own_device_id socket in
    match pr_store request with
    | Some store =>
        '(keyed, resume) ← build_keyed_channel socket claims resume_keyed audit limit
          PULL_PAGE_BYTE_BUDGET (Some store) own;
        Ok (page_of stream [] keyed (pr_relay_after request) resume (Some store))
    | None =>
        let start_seq :=
          match pr_resume request with
          | Some r => if decide (r_phase r = Backfill) then r_after_seq r else pr_relay_after request
          | None => pr_relay_after request
          end in
        if is_phase Backfill (pr_resume request) then build_backfill socket stream claims [] start_seq limit
        else
          '(keyed, resume) ← build_keyed_channel socket claims resume_keyed audit limit
            PULL_PAGE_BYTE_BUDGET None own;
          match resume with
          | Some _ => Ok (page_of stream [] keyed start_seq resume None)
          | None =>
              let budget := (limit - len keyed)%Z in
              if decide (budget = 0)%Z
              then Ok (page_of stream [] keyed start_seq (Some (backfill_resume start_seq)) None)
              else build_backfill socket stream claims keyed start_seq budget
          end
    end.

Definition admit_pull_ack (socket : S) (peer : DeviceId) (request : PullRequest)
    : result (SockError S) (option PullPage) * S :=
  match decode_epoch (pr_relay_epoch request) with
  | None => (Err (invalid_argument "invalid relay epoch"), socket)
  | Some request_epoch =>
      match relay_stream_state socket with
      | Err e => (Err e, socket)
      | Ok stream =>
          if pull_needs_reset request_epoch (pr_relay_after request) stream
          then (Ok (Some (reset_pull_page stream)), socket)
          else if decide (request_epoch = zeros 32) then (Ok None, socket)
          else
            match record_peer_ack socket peer request_epoch (pr_relay_after request) with
            | (Err e, socket) => (Err e, socket)
            | (Ok _, socket) => (Ok None, socket)
            end
      end
  end.
End page.

(** ** Authentication and the route *)

Definition classify_pull_request_error (message : string) : Z :=
  if starts_with "Invalid payload:" message || bool_decide (message = "Unsupported pull protocol version")
  then BAD_REQUEST
  else if decide (message = "Pull request expired") then FORBIDDEN
  else UNAUTHORIZED.

Section auth.
Context `{Postcard, !Wire BodyRepr, !Wire EnvelopeRepr, Json, !JsonWire PullRequest, !JsonWire PullPage}.

(** The closure handed to [verify_pull_request] records the error of the key
    lookup: the error it saw, if the check came as far as the lookup. *)
Definition lookup_error (bs : bytes) (lookup : DeviceId → result string (option (barr 33)))
    : option string :=
  op ← ok (op_from_bytes bs);
  if decide (as_str (op_store (op_body op)) ≠ PULL_REQUEST_STORE_ID) then None
  else match lookup (op_device (op_body op)) with Err e => Some e | Ok _ => None end.

Definition authenticate_pull_request {S} `{!MeshPullSocket S} (socket : S) (bs : bytes)
    : result (Z * string) (DeviceId * PullRequest) :=
  let lookup := λ peer, map_err sock_display (lookup_peer_sec1 socket peer) in
  match verify_pull_request bs (sock_now_ms socket).1 lookup with
  | Err message =>
      match lookup_error bs lookup with
      | Some error => Err (INTERNAL_SERVER_ERROR, error)
      | None => Err (classify_pull_request_error message, message)
      end
  | Ok (peer, request) =>
      match is_peer_trusted socket peer with
      | Err e => Err (INTERNAL_SERVER_ERROR, sock_display e)
      | Ok false => Err (FORBIDDEN, "Pull requester is not a trusted device")
      | Ok true =>
          match is_coverage_primed socket with
          | Err e => Err (INTERNAL_SERVER_ERROR, sock_display e)
          | Ok false => Err (SERVICE_UNAVAILABLE, "Origin coverage is still priming")
          | Ok true => Ok (peer, request)
          end
      end
  end.

(** [trait PullHandler] *)
Class PullHandler (Hd : Type) := {
  ph_identity : Hd → DeviceIdentity;
  ph_now_ms : Hd → Z;
  ph_response_hlc : Hd → Hlc;
  ph_lookup_peer_sec1 : Hd → DeviceId → result string (option (barr 33));
  ph_is_peer_trusted : Hd → DeviceId → result string bool;
  ph_is_coverage_primed : Hd → result string bool;
  ph_admit_pull_ack : Hd → DeviceId → PullRequest → result string (option PullPage) * Hd;
  ph_serve_pull : Hd → DeviceId → PullRequest → result string PullPage;
}.
#[export] Hint Mode PullHandler ! : typeclass_instances.

(** [post_pull] of [pull_router], behind the body limit of its layer. *)
Definition post_pull {Hd} `{!PullHandler Hd} (handler : Hd) (body : bytes) : Response * Hd :=
  let lookup := ph_lookup_peer_sec1 handler in
  match verify_pull_request body (ph_now_ms handler) lookup with
  | Err message =>
      match lookup_error body lookup with
      | Some error => (text_response INTERNAL_SERVER_ERROR error, handler)
      | None => (text_response (classify_pull_request_error message) message, handler)
      end
  | Ok (peer, request) =>
      match ph_is_peer_trusted handler peer with
      | Err message => (text_response INTERNAL_SERVER_ERROR message, handler)
      | Ok false => (text_response FORBIDDEN "Pull requester is not a trusted device", handler)
      | Ok true =>
          match ph_is_coverage_primed handler with
          | Err message => (text_response INTERNAL_SERVER_ERROR message, handler)
          | Ok false => (text_response SERVICE_UNAVAILABLE "Origin coverage is still priming", handler)
          | Ok true =>
              let '(ack, handler) := ph_admit_pull_ack handler peer request in
              let page :=
                match ack with
                | Ok (Some reset) => Ok reset
                | Ok None => ph_serve_pull handler peer request
                | Err message => Err message
                end in
              match page with
              | Err message => (text_response INTERNAL_SERVER_ERROR message, handler)
              | Ok page =>
                  match seal_pull_page page (ph_identity handler) (ph_response_hlc handler) with
                  | Ok bs => (octet bs, handler)
                  | Err message => (text_response INTERNAL_SERVER_ERROR message, handler)
                  end
              end
          end
      end
  end.

(** [impl PullHandler for ServeState] *)
#[export] Instance serve_handler {L D} `{!LogSource L, !DeviceBook D} : PullHandler (ServeState L D) := {|
  ph_identity := ss_identity;
  ph_now_ms := ss_clock;
  ph_response_hlc := λ s, hlc_of_ms (ss_clock s);
  ph_lookup_peer_sec1 := λ s peer, try_key_for_device (ss_relay_callers s) peer;
  ph_is_peer_trusted := λ _ _, Ok true;
  ph_is_coverage_primed := λ _, Ok true;
  ph_admit_pull_ack := λ s peer request, admit_pull_ack s peer request;
  ph_serve_pull := λ s _ request, build_pull_page s request;
|}.
End auth.
End pull_server.

(** ** What the channels serve *)

Section channels.
Context `{Crypto, Base64, Postcard, !Wire EnvelopeRepr}.

(** The envelope of an op, and its page entry. *)
Definition envelope (op : SignedOp) : bytes := default [] (ok (op_to_bytes op)).
Definition encodable (ops : list SignedOp) : Prop :=
  Forall (λ op, op_to_bytes op = Ok (envelope op)) ops.
Definition entry (op : SignedOp) : string := b64_encode (envelope op).
Definition row (op : SignedOp) : OrderKey * bytes := (order_key op, envelope op).

Lemma encode_rows_ok ops : encodable ops → try_map encode_row ops = Ok (row <$> ops).
Proof.
  intros He. apply try_map_total. intros op Hop. unfold encode_row.
  unfold encodable in He. rewrite Forall_forall in He. by rewrite (He op Hop).
Qed.

Lemma encodable_sub ops ops' : (∀ op, op ∈ ops' → op ∈ ops) → encodable ops → encodable ops'.
Proof. unfold encodable. rewrite !Forall_forall. auto. Qed.

(** Serving one origin's rows: a prefix of them, cut only by the byte budget. *)
Lemma encode_origin_rows_ok ops keyed nbytes budget served last_key :
  (nbytes < budget)%Z →
  ∃ p q nbytes', ops = p ++ q ∧
    encode_origin_rows (row <$> ops) keyed nbytes budget served last_key =
      (keyed ++ (entry <$> p), nbytes', (served + len p)%Z,
       match last p with Some op => Some (order_key op) | None => last_key end) ∧
    (nbytes' < budget → q = [])%Z ∧ (p = [] → nbytes' = nbytes).
Proof.
  revert keyed nbytes served last_key; induction ops as [|op ops IH]; intros keyed nbytes served lk Hb.
  { exists [], [], nbytes. cbn. rewrite app_nil_r, Z.add_0_r. auto. }
  rewrite fmap_cons. cbn [encode_origin_rows row].
  change (b64_encode (envelope op)) with (entry op).
  case_decide as Hcut.
  - exists [op], ops, (nbytes + str_len (entry op))%Z. rewrite len_cons. change (len []) with 0%Z.
    split_and!; [done|done|lia|done].
  - destruct (IH (keyed ++ [entry op]) (nbytes + str_len (entry op))%Z (served + 1)%Z (Some (order_key op)))
      as (p & q & nb & -> & He & Hq & Hp); [lia|].
    exists (op :: p), q, nb. split_and!; [done| |done|done].
    rewrite He, fmap_cons, <-app_assoc, len_cons, Z.add_assoc. f_equal.
    destruct p as [|op' p]; [done|]. change (op :: op' :: p) with ([op] ++ (op' :: p)).
    rewrite last_app. by destruct (last (op' :: p)) eqn:Hl; [|apply last_None in Hl].
Qed.

(** The result of serving the origins [os] in turn, each with the ops [sel]
    selects: everything, or everything up to a cut inside one origin. *)
Inductive serves_origins (sel : DeviceId → list SignedOp) (limit : Z)
    : list DeviceId → list SignedOp → option Resume → Prop :=
  | serves_all os :
      (len (concat (sel <$> os)) < limit)%Z →
      serves_origins sel limit os (concat (sel <$> os)) None
  | serves_cut os1 o os2 p op q :
      sel o = p ++ op :: q → (len (concat (sel <$> os1) ++ p ++ [op]) ≤ limit)%Z →
      serves_origins sel limit (os1 ++ o :: os2) (concat (sel <$> os1) ++ p ++ [op])
        (Some (keyed_resume o (Some (order_key op)))).

Lemma serves_origins_cons sel limit o os served res :
  serves_origins sel (limit - len (sel o)) os served res →
  serves_origins sel limit (o :: os) (sel o ++ served) res.
Proof.
  destruct 1 as [os Hlen|os1 o' os2 p op q Hsel Hlen].
  - change (sel o ++ concat (sel <$> os)) with (concat (sel <$> o :: os)). constructor.
    cbn. rewrite len_app. lia.
  - rewrite app_assoc. change (sel o ++ concat (sel <$> os1)) with (concat (sel <$> o :: os1)).
    apply (serves_cut _ _ (o :: os1) o' os2 p op q); [done|]. cbn. rewrite <-app_assoc, len_app. lia.
Qed.

Lemma serves_origins_len sel limit os served res :
  serves_origins sel limit os served res → (len served ≤ limit)%Z.
Proof. by destruct 1; [lia|]. Qed.

Lemma serves_origins_in sel limit os served res op :
  serves_origins sel limit os served res → op ∈ served → ∃ o, o ∈ os ∧ op ∈ sel o.
Proof.
  assert (Hc : ∀ os, op ∈ concat (sel <$> os) → ∃ o, o ∈ os ∧ op ∈ sel o).
  { intros os'. rewrite elem_of_concat. intros (l & Hop & (o & -> & Ho)%list_elem_of_fmap). eauto. }
  destruct 1 as [os Hlen|os1 o os2 p x q Hsel Hlen]; intros Hop; [by apply Hc|].
  apply elem_of_app in Hop as [Hop|Hop].
  - apply Hc in Hop as (o' & ? & ?). exists o'. set_solver.
  - exists o. rewrite Hsel. set_solver.
Qed.

Section keyed.
Context {S : Type} `{!MeshPullSocket S} (rep : S → list SignedOp → Prop) `{!SocketServes S rep}.
Context (socket : S) (arr : list SignedOp) (Hrep : rep socket arr) (Henc : encodable arr).

(** The ops of one origin that a request with these claims is owed. *)
Definition owed (claims : CoverageVector) (audit : bool) (resume_origin : option DeviceId)
    (resume_key : option OrderKey) (store : option string) (origin : DeviceId) : list SignedOp :=
  filter (origin_row origin
    (rows_after (claim_of claims audit origin)
       (if bool_decide (resume_origin = Some origin) then resume_key else None)) store)
    (ordered arr).

Lemma origin_since_owed origin after store limit :
  (0 < limit)%Z →
  sock_origin_since socket origin after store limit =
    Ok (row <$> takeZ limit (filter (origin_row origin after store) (ordered arr))).
Proof.
  intros Hl. apply (serves_origin_since _ _ _ _ _ _ _ Hrep Hl), encode_rows_ok.
  eapply encodable_sub; [|exact Henc]. intros op Hop%elem_of_takeZ.
  apply list_elem_of_filter in Hop as [_ Hop]. by rewrite ordered_perm in Hop by (by eapply serves_nodup).
Qed.

(** A page of one origin's rows: either all of them fit, or the page ends in it. *)
Lemma origin_page_ok (ops : list SignedOp) remaining keyed nbytes budget :
  (0 < remaining)%Z → (nbytes < budget)%Z →
  let rows := takeZ remaining ops in
  ∃ p q nbytes' last_key,
    ops = p ++ q ∧ (len p ≤ remaining)%Z ∧
    encode_origin_rows (row <$> rows) keyed nbytes budget 0 None =
      (keyed ++ (entry <$> p), nbytes', len p, last_key) ∧
    (q = [] ∧ (len p < remaining ∧ nbytes' < budget)%Z ∧ len rows = len p ∨
     (len rows = remaining ∨ len p < len rows ∨ budget ≤ nbytes')%Z ∧
     ∃ p' op, p = p' ++ [op] ∧ last_key = Some (order_key op)).
Proof.
  intros Hr Hb rows. destruct (encode_origin_rows_ok rows keyed nbytes budget 0 None Hb)
    as (p & q & nb & Hrows & He & Hq & Hp).
  assert (Hle : (len p ≤ len rows)%Z) by (rewrite Hrows, len_app; pose proof (len_nonneg q); lia).
  assert (Hrem : len rows = Z.min remaining (len ops)) by (apply len_takeZ; lia).
  eexists p, (q ++ drop (Z.to_nat remaining) ops), nb, _.
  split_and!; [by rewrite app_assoc, <-Hrows; unfold rows; rewrite takeZ_take, take_drop|lia|exact He|].
  destruct (decide (len rows = remaining ∨ len p < len rows ∨ budget ≤ nb)%Z) as [Hcut|Hfit].
  - right. split; [done|]. destruct p as [|op p'] using rev_ind.
    + assert (nb = nbytes) as -> by auto. rewrite (Hq ltac:(lia)) in Hrows. cbn in Hrows.
      rewrite Hrows, len_nil in *. lia.
    + exists p', op. by rewrite last_snoc.
  - left. assert (q = []) as -> by (apply Hq; lia). rewrite app_nil_r in Hrows. split_and!; [|lia|lia|by rewrite Hrows].
    unfold len in *. rewrite drop_ge by lia. done.
Qed.

Lemma keyed_loop_ok claims ro rk audit budget store own osf origins remaining keyed nbytes :
  (0 < remaining)%Z → (nbytes < budget)%Z →
  ∃ served res,
    keyed_loop socket claims ro rk audit budget store own osf origins remaining keyed nbytes =
      Ok (keyed ++ (entry <$> served), res) ∧
    serves_origins (owed claims audit ro rk store) remaining
      (if osf then filter (λ o, o ≠ own) origins else origins) served res.
Proof.
  revert remaining keyed nbytes; induction origins as [|o os IH]; intros remaining keyed nbytes Hr Hb.
  { exists [], None. cbn. rewrite app_nil_r. split; [done|]. destruct osf; apply (serves_all _ _ []); done. }
  cbn [keyed_loop]. destruct (osf && bool_decide (o = own)) eqn:Hown.
  { apply andb_true_iff in Hown as [-> Ho%bool_decide_eq_true]. rewrite filter_cons_False by naive_solver.
    by apply IH. }
  assert (Hos : (if osf then filter (λ o, o ≠ own) (o :: os) else o :: os) =
    o :: (if osf then filter (λ o, o ≠ own) os else os)).
  { destruct osf; [|done]. apply bool_decide_eq_false in Hown. by rewrite filter_cons_True. }
  rewrite Hos. rewrite origin_since_owed by done. fold (owed claims audit ro rk store o).
  set (ops := owed claims audit ro rk store o). cbn [mbind result_bind].
  destruct (origin_page_ok ops remaining keyed nbytes budget Hr Hb)
    as (p & q & nb & lk & Hops & Hlen & He & Hcase).
  rewrite He. assert (Hf : len (row <$> takeZ remaining ops) = len (takeZ remaining ops))
    by (unfold len; by rewrite length_fmap).
  rewrite Hf. destruct Hcase as [(-> & [Hlt Hnb] & Hrows)|(Hcut & p' & op & -> & ->)].
  - rewrite Hrows, !bool_decide_eq_false_2 by lia. cbn [orb]. rewrite app_nil_r in Hops.
    destruct (IH (remaining - len p)%Z (keyed ++ (entry <$> p)) nb) as (served & res & Hl & Hs); [lia|lia|].
    exists (p ++ served), res. rewrite Hl, fmap_app, app_assoc. split; [done|].
    rewrite <-Hops. subst ops. apply serves_origins_cons. by rewrite Hops.
  - assert (Hcond : bool_decide (len (takeZ remaining ops) = remaining) ||
      bool_decide (len (p' ++ [op]) < len (takeZ remaining ops))%Z || bool_decide (budget ≤ nb)%Z = true).
    { destruct Hcut as [?|[?|?]].
      - by rewrite bool_decide_eq_true_2.
      - rewrite (bool_decide_eq_true_2 (_ < _)%Z) by done. by rewrite orb_true_r.
      - rewrite (bool_decide_eq_true_2 (_ ≤ _)%Z) by done. by rewrite orb_true_r. }
    rewrite Hcond. eexists _, _. split; [done|].
    apply (serves_cut _ _ [] o _ p' op q); [|done]. by rewrite <-app_assoc in Hops.
Qed.

(** The origins a request goes through: all of them with the server's own in
    front on a fresh exchange, those from the resume origin on otherwise. *)
Definition origin_order (resume : option Resume) (own : DeviceId) (origins : list DeviceId)
    : list DeviceId :=
  match resume with
  | None => if decide (own ∈ origins) then own :: filter (λ o, o ≠ own) origins else origins
  | Some r =>
      match ok (DeviceId_from_hex (r_origin r)) with
      | Some o => filter (λ c, o ⪯ c) origins
      | None => origins
      end
  end.

Lemma partition_point_sorted (o : DeviceId) origins :
  StronglySorted olt origins →
  drop (partition_point (λ c, c ≺ o) origins) origins = filter (λ c, o ⪯ c) origins.
Proof.
  unfold partition_point. induction 1 as [|c origins Hs IH Hall]; [done|]. cbn [take_while].
  rewrite filter_cons. destruct (decide (c ≺ o)) as [Hlt|Hge].
  - rewrite (decide_False (P := o ⪯ c)) by (by rewrite ole_not_olt; intros []). exact IH.
  - rewrite (decide_True (P := o ⪯ c)) by (by rewrite ole_not_olt). cbn. f_equal.
    symmetry. apply filter_all. eapply Forall_impl; [exact Hall|]. cbn. intros d Hd.
    apply olt_ole. eapply ole_olt_trans; [|exact Hd]. by rewrite ole_not_olt.
Qed.

Definition resume_origin_of (resume : option Resume) : option DeviceId :=
  r ← resume; ok (DeviceId_from_hex (r_origin r)).
Definition resume_key_of (resume : option Resume) : option OrderKey :=
  r ← resume; decode_order_key (r_after_key r).

Lemma build_keyed_channel_ok claims resume audit budget byte_budget store own origins :
  (0 < budget)%Z → (0 < byte_budget)%Z →
  sock_origins socket = Ok origins → StronglySorted olt origins →
  ∃ served res,
    build_keyed_channel socket claims resume audit budget byte_budget store own =
      Ok (entry <$> served, res) ∧
    serves_origins (owed claims audit (resume_origin_of resume) (resume_key_of resume) store) budget
      (origin_order resume own origins) served res.
Proof.
  intros Hbud Hbytes Ho Hs. unfold build_keyed_channel. rewrite decide_False by lia. rewrite Ho.
  cbn [mbind result_bind]. fold (resume_origin_of resume) (resume_key_of resume).
  destruct (bool_decide (resume = None) && bool_decide (own ∈ origins)) eqn:Hfront.
  2:{ assert (Hord : drop (match resume_origin_of resume with
        | Some origin => partition_point (λ c, c ≺ origin) origins | None => 0 end) origins =
        origin_order resume own origins).
      { unfold origin_order, resume_origin_of. destruct resume as [r|]; cbn.
        - destruct (DeviceId_from_hex (r_origin r)); cbn; [by apply partition_point_sorted|done].
        - cbn in Hfront. apply bool_decide_eq_false in Hfront. by rewrite decide_False. }
      rewrite Hord.
      destruct (keyed_loop_ok claims (resume_origin_of resume) (resume_key_of resume) audit byte_budget
        store own false (origin_order resume own origins) budget [] 0 Hbud Hbytes) as (served & res & -> & Hsv).
      by exists served, res. }
  apply andb_true_iff in Hfront as [->%bool_decide_eq_true Hown%bool_decide_eq_true].
  cbn [resume_origin_of resume_key_of origin_order mbind option_bind drop].
  rewrite decide_True by done.
  set (sel := owed claims audit None None store).
  assert (Hsel : sel own = filter (origin_row own (claim_of claims audit own) store) (ordered arr))
    by (unfold sel, owed; cbn; by destruct (claim_of claims audit own)).
  rewrite origin_since_owed by done. rewrite <-Hsel. cbn [mbind result_bind].
  destruct (origin_page_ok (sel own) budget [] 0 byte_budget Hbud Hbytes)
    as (p & q & nb & lk & Hops & Hlen & -> & Hcase).
  assert (Hf : len (row <$> takeZ budget (sel own)) = len (takeZ budget (sel own)))
    by (unfold len; by rewrite length_fmap).
  rewrite Hf. destruct Hcase as [(-> & [Hlt Hnb] & Hrows)|(Hcut & p' & op & -> & ->)].
  - rewrite Hrows, !bool_decide_eq_false_2 by lia. cbn [orb]. rewrite app_nil_r in Hops.
    destruct (keyed_loop_ok claims None None audit byte_budget store own true origins
      (budget - len p) (entry <$> p) nb) as (served & res & Hl & Hsv); [lia|lia|].
    exists (p ++ served), res. rewrite app_nil_l, drop_0, Hl, fmap_app. split; [done|].
    rewrite <-Hops. apply serves_origins_cons. by rewrite Hops.
  - assert (Hcond : bool_decide (budget - len (p' ++ [op]) = 0)%Z ||
      bool_decide (len (p' ++ [op]) < len (takeZ budget (sel own)))%Z || bool_decide (byte_budget ≤ nb)%Z = true).
    { destruct (decide (len (p' ++ [op]) < len (takeZ budget (sel own)))%Z) as [Hlt|Hge].
      - rewrite (bool_decide_eq_true_2 (_ < _)%Z) by done. by rewrite orb_true_r.
      - destruct Hcut as [Heq|[?|?]]; [|lia|].
        + by rewrite bool_decide_eq_true_2 by lia.
        + rewrite (bool_decide_eq_true_2 (_ ≤ _)%Z) by done. by rewrite orb_true_r. }
    rewrite Hcond. eexists _, _. split; [done|].
    apply (serves_cut _ _ [] own _ p' op q); [|done]. by rewrite <-app_assoc in Hops.
Qed.
End keyed.

(** ** Channel B *)

(** Arrivals with their sequence numbers, from [start] on. *)
Definition positions (start : nat) (ops : list SignedOp) : list (Z * SignedOp) :=
  imap (λ i op, (Z.of_nat (start + i) + 1, op)%Z) ops.
Definition covered (claims : CoverageVector) (so : Z * SignedOp) : Prop :=
  Is_true (covers claims (order_key so.2)).
Definition backfill_entries (claims : CoverageVector) (start : nat) (ops : list SignedOp)
    : list (Z * string) :=
  (λ so, (so.1, entry so.2)) <$> filter (covered claims) (positions start ops).

Lemma positions_cons start op ops :
  positions start (op :: ops) = (Z.of_nat start + 1, op)%Z :: positions (S start) ops.
Proof.
  unfold positions. rewrite imap_cons. f_equal; [by rewrite Nat.add_0_r|].
  apply imap_ext. intros i x _. cbn. do 2 f_equal. lia.
Qed.

Lemma scan_ok start ops :
  encodable ops →
  with_envelopes (numbered start ops) = Ok ((λ so, (so.1, so.2, envelope so.2)) <$> positions start ops).
Proof.
  revert start; induction ops as [|op ops IH]; intros start He; [done|].
  apply Forall_cons in He as [Hop He]. rewrite positions_cons. unfold with_envelopes, numbered.
  rewrite imap_cons, Nat.add_0_r. cbn [try_map re_op re_seq]. rewrite Hop. cbn [map_err mbind result_bind].
  specialize (IH (S start) He). unfold with_envelopes, numbered in IH.
  replace (imap _ ops) with (imap (λ i op, mk_relay_entry (Z.of_nat (S start + i) + 1) op) ops).
  - rewrite IH. done.
  - apply imap_ext. intros i x _. cbn. f_equal. lia.
Qed.

(** The scan takes a prefix of the arrivals, cut only by the byte budget, and
    serves the covered ones among them. *)
Lemma backfill_loop_ok claims start ops bf nbytes cut :
  ∃ p q cut', ops = p ++ q ∧
    backfill_loop claims ((λ so, (so.1, so.2, envelope so.2)) <$> positions start ops)
      (Z.of_nat start) bf nbytes cut =
      (Z.of_nat (start + length p), bf ++ backfill_entries claims start p, cut') ∧
    (q ≠ [] → cut' = true) ∧ (cut = false → p = [] → q = [] ∧ cut' = false).
Proof.
  revert start bf nbytes cut; induction ops as [|op ops IH]; intros start bf nbytes cut.
  { exists [], [], cut. cbn. rewrite Nat.add_0_r, app_nil_r. done. }
  rewrite positions_cons, fmap_cons. cbn [backfill_loop fst snd].
  assert (Hseq : (Z.of_nat start + 1)%Z = Z.of_nat (S start)) by lia.
  destruct (cut && covers claims (order_key op)) eqn:Hcut.
  { apply andb_true_iff in Hcut as [-> _]. exists [], (op :: ops), true.
    cbn. rewrite Nat.add_0_r, app_nil_r. done. }
  destruct (covers claims (order_key op)) eqn:Hc.
  - destruct (IH (S start) (bf ++ [(Z.of_nat (S start), entry op)]) (nbytes + str_len (entry op))%Z
      (bool_decide (PULL_PAGE_BYTE_BUDGET ≤ nbytes + str_len (entry op))%Z)) as (p & q & c & -> & He & Hq & _).
    exists (op :: p), q, c. split_and!; [done| |done|done].
    change (b64_encode (envelope op)) with (entry op). rewrite Hseq, He.
    unfold backfill_entries. rewrite positions_cons, filter_cons_True by (unfold covered; cbn; by rewrite Hc).
    rewrite fmap_cons, <-app_assoc, Hseq. cbn. by rewrite Nat.add_succ_r.
  - destruct (IH (S start) bf nbytes cut) as (p & q & c & -> & He & Hq & _).
    exists (op :: p), q, c. split_and!; [done| |done|done]. rewrite Hseq, He.
    unfold backfill_entries. rewrite positions_cons, filter_cons_False by (unfold covered; cbn; rewrite Hc; by intros []).
    cbn. by rewrite Nat.add_succ_r.
Qed.

(** Where channel B stands after scanning [p]: at the end of the arrivals, or at
    a resume token behind at least one more of them. *)
Definition backfill_ends (arr : list SignedOp) (start : nat) (p : list SignedOp) (res : option Resume)
    : Prop :=
  ∃ q, drop start arr = p ++ q ∧
    (res = None ∧ q = [] ∨ res = Some (backfill_resume (Z.of_nat (start + length p))) ∧ p ≠ []).

Lemma build_backfill_ok {S} `{!MeshPullSocket S} rep `{!SocketServes S rep} socket arr stream claims
    keyed (start : nat) budget :
  rep socket arr → encodable arr → start ≤ length arr → (0 < budget)%Z →
  ∃ p res, backfill_ends arr start p res ∧ (len p ≤ budget)%Z ∧
    build_backfill socket stream claims keyed (Z.of_nat start) budget =
      Ok (page_of stream (backfill_entries claims start p) keyed (Z.of_nat (start + length p)) res None).
Proof.
  intros Hrep Henc Hstart Hbud. unfold build_backfill.
  assert (Hops : encodable (takeZ budget (drop start arr))).
  { eapply encodable_sub; [|exact Henc]. intros op Hop%elem_of_takeZ. by eapply elem_of_drop_1. }
  assert (Hmin : Z.to_nat (Z.min (Z.of_nat start) (len arr)) = start) by (unfold len; lia).
  rewrite (serves_relay_since socket arr (Z.of_nat start) budget
    ((λ so, (so.1, so.2, envelope so.2)) <$> positions start (takeZ budget (drop start arr))) Hrep);
    [|lia|rewrite Hmin; by apply scan_ok].
  cbn [mbind result_bind]. set (ops := takeZ budget (drop start arr)) in *.
  destruct (backfill_loop_ok claims start ops [] (sum_len keyed) false) as (p & q & cut & Hpq & -> & Hq & Hp).
  assert (Hlen : len ((λ so, (so.1, so.2, envelope so.2)) <$> positions start ops) = len ops)
    by (unfold len, positions; by rewrite length_fmap, length_imap).
  rewrite Hlen, (bool_decide_eq_true_2 (0 < budget)%Z), andb_true_r by done. cbn [app].
  assert (Hsplit : drop start arr = p ++ (q ++ drop (Z.to_nat budget) (drop start arr))).
  { rewrite app_assoc, <-Hpq. subst ops. by rewrite takeZ_take, take_drop. }
  assert (Hops_len : len ops = Z.min budget (len (drop start arr))) by (by apply len_takeZ; lia).
  assert (Hle : (len p ≤ len ops)%Z) by (rewrite Hpq, len_app; unfold len; lia).
  destruct (bool_decide (len ops = budget)%Z || cut) eqn:Hcut; eexists p, _; (split; [|split; [lia|done]]);
    exists (q ++ drop (Z.to_nat budget) (drop start arr)); (split; [exact Hsplit|]).
  - right. split; [done|]. intros ->. destruct (Hp eq_refl eq_refl) as [-> ->].
    rewrite Hpq, orb_false_r in Hcut. apply bool_decide_eq_true in Hcut. unfold len in Hcut. cbn in Hcut. lia.
  - left. split; [done|]. apply orb_false_iff in Hcut as [Hb ->]. apply bool_decide_eq_false in Hb.
    destruct q; [|by discriminate Hq]. cbn. apply drop_ge. unfold len in *. lia.
Qed.
End channels.
