(* ===== verification/SqlSocket.v ===== *)
(** * Serving from SQLite ([src/sqlite/pull_socket.rs], [device_book.rs])

    The pull socket over the stored log and the device table, and the device
    book read from it.  The socket serves the pages the in-memory log with the
    same arrivals would. *)

From S2P Require Import Prelude Ordered External Toy Http Identity Words Op RowOp Registry Store Log Hlc Pull Sql SqlDb SqlLog SqlHeads SqlRefine Socket Server PullServer.
Import BTree.

Section book.
Context `{Rusqlite, Crypto}.

(** A statement naming a column of [device_vouches] the schema lacks is refused. *)
Definition needs_vouch_columns (context : string) (columns : list string) : sql Db () :=
  missing ← sql_get (λ d, head (filter (λ c, c ∉ db_vouch_columns d) columns));
  match missing with
  | Some column => sql_lift (Err (sql_error context (no_such_column column)))
  | None => mret ()
  end.

(** ** The peer's key and trust *)

Definition device_public_key (hex : string) (d : Db) : option bytes :=
  head (omap dv_public_key (filter (λ r, dv_device_id r = hex) (db_devices d))).
(** [ORDER BY updated_at DESC, voucher_device_id ASC LIMIT 1] *)
Definition newest_vouch (hex : string) (d : Db) : option VouchRow :=
  let rows := filter (λ v, vo_device_id v = hex) (db_vouches d) in
  match newest vo_updated_at rows with
  | Some top => oldest vo_voucher (filter (λ v, vo_updated_at v = vo_updated_at top) rows)
  | None => None
  end.
Definition coalesced_key (hex : string) (d : Db) : option bytes :=
  match device_public_key hex d with Some key => Some key | None => vo_public_key <$> newest_vouch hex d end.

(** The row is always there and its column read as a blob: [NULL] is an error of
    the read, which [optional] passes on. *)
Definition sql_lookup_peer_sec1 (peer : DeviceId) : sql Db (option (barr 33)) :=
  let context := "lookup peer verifying key" in
  _ ← needs_vouch_columns context ["public_key"; "device_id"; "updated_at"; "voucher_device_id"];
  _ ← sql_try context;
  key ← sql_get (coalesced_key (DeviceId_to_hex peer));
  key ← sql_lift (ok_or key (sql_error context (invalid_column_type 0)));
  mret (vec_of_list 33 key).

Definition trusted_with_key (r : DeviceRow) : Prop := dv_trusted r = 1%Z ∧ is_Some (dv_public_key r).
#[export] Instance trusted_with_key_dec r : Decision (trusted_with_key r).
Proof. unfold trusted_with_key. apply _. Defined.
Definition vouched (hex : string) (d : Db) : Prop :=
  Exists (λ v, vo_device_id v = hex ∧
    Exists (λ r, dv_device_id r = vo_voucher v ∧ trusted_with_key r ∧ dv_device_id r ∉ db_retirements d) (db_devices d))
    (db_vouches d).
#[export] Instance vouched_dec hex d : Decision (vouched hex d).
Proof. unfold vouched. apply _. Defined.
Definition peer_trust (hex : string) (d : Db) : Z :=
  if decide (hex ∈ db_retirements d) then 0%Z
  else if decide (Exists (λ r, dv_device_id r = hex ∧ trusted_with_key r) (db_devices d)) then 1%Z
  else if decide (vouched hex d) then 1%Z
  else 0%Z.
Definition sql_is_peer_trusted (peer : DeviceId) : sql Db bool :=
  let context := "check peer trust" in
  _ ← needs_vouch_columns context ["voucher_device_id"; "device_id"];
  _ ← sql_try context;
  trusted ← sql_get (peer_trust (DeviceId_to_hex peer));
  mret (bool_decide (trusted ≠ 0%Z)).

(** ** The device book *)

(** A row of a book query: kept when the id and the key parse and agree. *)
Definition keyed_device (row : string * bytes) : option (DeviceId * barr 33) :=
  match DeviceId_from_hex row.1, vec_of_list 33 row.2 with
  | Ok id, Some sec1 =>
      match device_id_from_sec1 sec1 with
      | Ok derived => if decide (derived = id) then Some (id, sec1) else None
      | Err _ => None
      end
  | _, _ => None
  end.

Definition trusted_rows (d : Db) : list (string * bytes) :=
  omap (λ r, (λ key, (dv_device_id r, key)) <$> dv_public_key r) (filter (λ r, dv_trusted r = 1%Z) (db_devices d)).
(** [a UNION b]: each row once, in some order. *)
Definition sql_union (a b : list (string * bytes)) : list (string * bytes) := remove_dups (a ++ b).
Definition vouched_rows (voucher : option string) (d : Db) : list (string * bytes) :=
  (λ v, (vo_vouched_device_id v, vo_public_key v)) <$>
    match voucher with Some voucher => filter (λ v, vo_voucher v = voucher) (db_vouches d) | None => db_vouches d end.

Definition relayable_keyed_devices : sql Db (list (DeviceId * barr 33)) :=
  _ ← needs_vouch_columns "device book prepare" ["vouched_device_id"; "public_key"];
  _ ← sql_try "device book prepare";
  _ ← sql_try "device book query";
  rows ← sql_get (λ d, sql_union (trusted_rows d) (vouched_rows None d));
  sql_rows "device book row" (λ row, Ok (keyed_device row)) rows.

Definition registry_keyed_devices (voucher : option string) : sql Db (list (DeviceId * barr 33)) :=
  _ ← (match voucher with
       | Some _ => needs_vouch_columns "device registry prepare" ["vouched_device_id"; "public_key"; "voucher_device_id"]
       | None => mret ()
       end);
  _ ← sql_try "device registry prepare";
  _ ← sql_try "device registry query";
  rows ← sql_get (λ d, match voucher with
                       | Some voucher => sql_union (trusted_rows d) (vouched_rows (Some voucher) d)
                       | None => trusted_rows d
                       end);
  sql_rows "device registry row" (λ row, Ok (keyed_device row)) rows.

Definition load_registry_conn (voucher : option string) : sql Db DeviceRegistry :=
  devices ← registry_keyed_devices voucher;
  mret (foldl (λ r '(_, sec1), (insert_sec1 r sec1).2) registry_new devices).

Definition verified_entry (entry : DeviceEntry) : option (string * barr 33) :=
  sec1 ← vec_of_list 33 (de_public_key_sec1 entry);
  derived ← ok (device_id_from_sec1 sec1);
  if decide (derived = de_device_id entry) then Some (DeviceId_to_hex (de_device_id entry), sec1) else None.
Definition verified_device_entries (entries : list DeviceEntry) : list (string * barr 33) := omap verified_entry entries.
End book.

(** ** The socket *)

(** [sq_conn] is the connection's database, [sq_faults] what the driver answers
    during a call of the named method, [sq_clock] the wall clock. *)
Record SqlitePullServerSocket `{Crypto} : Type := mk_sqlite_socket {
  sq_conn : Db;
  sq_identity : DeviceIdentity;
  sq_clock : Z;
  sq_faults : string → list (option string);
}.

Section sqlite_socket.
Context `{Rusqlite, Crypto, Postcard, !Wire EnvelopeRepr}.
Notation Sq := SqlitePullServerSocket.

Definition sq_read {A} (name : string) (m : sql Db A) (s : Sq) : result SqliteError A := (m (sq_conn s) (sq_faults s name)).1.
Definition sq_write {A} (name : string) (m : sql Db A) (s : Sq) : result SqliteError A * Sq :=
  let '(r, (d, _)) := m (sq_conn s) (sq_faults s name) in
  (r, mk_sqlite_socket _ d (sq_identity s) (sq_clock s) (sq_faults s)).

#[export] Instance sqlite_socket : MeshPullSocket Sq := {|
  SockError := SqliteError;
  sock_display := SqliteError_display;
  protocol_error := SqlOther;
  invalid_argument := SqlInvalidArgument;
  own_device_id := λ s, device_id (sq_identity s);
  local_identity := sq_identity;
  sock_now_ms := λ s, (sq_clock s, s);
  next_hlc := default_next_hlc (λ s, (sq_clock s, s));
  lookup_peer_sec1 := λ s peer, sq_read "lookup_peer_sec1" (sql_lookup_peer_sec1 peer) s;
  is_peer_trusted := λ s peer, sq_read "is_peer_trusted" (sql_is_peer_trusted peer) s;
  is_coverage_primed := sq_read "is_coverage_primed" is_primed;
  relay_stream_state := sq_read "relay_stream_state" sql_relay_stream_state;
  sock_origins := sq_read "origins" sql_origins;
  sock_origin_since := λ s origin after store limit, sq_read "origin_since" (sql_origin_since origin after store limit) s;
  sock_relay_since := λ s after limit, sq_read "relay_since" (sql_relay_since_with_envelopes after limit) s;
  record_peer_ack := λ s peer epoch relay_after, sq_write "record_peer_ack" (sql_record_peer_ack peer epoch relay_after) s;
  local_coverage := default_local_coverage;
  known_origins := default_known_origins (sq_read "origins" sql_origins);
  advance_local_coverage := default_advance_local_coverage;
  save_relay_cursor := default_save_relay_cursor;
  reset_relay_cursor := default_save_relay_cursor;
  on_pull_page_applied := default_on_pull_page_applied;
  commit_relay_cursor := default_commit_relay_cursor default_save_relay_cursor;
  commit_pull_reset := default_commit_pull_reset default_save_relay_cursor;
  admit_ops := @default_admit_ops _ _ SqlOther;
|}.
End sqlite_socket.
#[global] Arguments mk_sqlite_socket {_}.

(** ** Two sockets that agree serve alike *)

Section agree.
Context `{Crypto, Base64, Postcard, !Wire EnvelopeRepr}.
Context {S1 S2 : Type} `{!MeshPullSocket S1, !MeshPullSocket S2} (s1 : S1) (s2 : S2).

Lemma ok_bind {E1 E2 A B} (r1 : result E1 A) (r2 : result E2 A) (f : A → result E1 B) (g : A → result E2 B) :
  ok r1 = ok r2 → (∀ a, ok r1 = Some a → ok (f a) = ok (g a)) → ok (r1 ≫= f) = ok (r2 ≫= g).
Proof. destruct r1, r2; cbn; intros Heq Hf; simplify_eq; auto. Qed.

(** The bounds a page asks for. *)
Record request_in_range (claims : CoverageVector) (resume : option Resume) : Prop := {
  rir_claims : Forall (λ c, bound_ok c.1 (Some c.2)) claims;
  rir_resume r origin key : resume = Some r → DeviceId_from_hex (r_origin r) = Ok origin →
    decode_order_key (r_after_key r) = Some key → bound_ok origin (Some key);
}.

Record serves_alike : Prop := {
  al_own : own_device_id s1 = own_device_id s2;
  al_stream : ok (relay_stream_state s1) = ok (relay_stream_state s2);
  al_origins : ok (sock_origins s1) = ok (sock_origins s2);
  al_origin_since origin after store limit : bound_ok origin after → (0 < limit ≤ i64_max)%Z →
    ok (sock_origin_since s1 origin after store limit) = ok (sock_origin_since s2 origin after store limit);
  al_relay_since after limit : (0 ≤ after ≤ i64_max)%Z → (0 < limit ≤ i64_max)%Z →
    ok (sock_relay_since s1 after limit) = ok (sock_relay_since s2 after limit);
  al_bounded origin after store limit rows : bound_ok origin after → (0 < limit ≤ i64_max)%Z →
    sock_origin_since s1 origin after store limit = Ok rows → (len rows ≤ limit)%Z;
}.
Context (Hal : serves_alike).

Lemma encode_rows_count rows keyed nbytes budget served last_key keyed' nbytes' served' last_key' :
  encode_origin_rows rows keyed nbytes budget served last_key = (keyed', nbytes', served', last_key') →
  len keyed' = (len keyed + (served' - served))%Z ∧ (served ≤ served' ≤ served + len rows)%Z.
Proof.
  revert keyed nbytes served last_key. induction rows as [|[key env] rows IH]; intros keyed nbytes served last_key; cbn [encode_origin_rows].
  - intros [= <- <- <- <-]. unfold len; cbn. lia.
  - case_decide; [intros [= <- <- <- <-]|intros [Hk Hs]%IH]; rewrite ?len_app in *; unfold len in *; cbn [length] in *; lia.
Qed.

Lemma claim_in_range claims audit origin resume :
  request_in_range claims resume → bound_ok origin (claim_of claims audit origin).
Proof.
  intros [Hc _]. unfold claim_of. destruct audit; [done|]. destruct (bt_get origin claims) as [k|] eqn:Hg; [|done].
  apply bt_get_some_1 in Hg. by apply (proj1 (Forall_forall _ _) Hc (origin, k)).
Qed.

Definition resume_bound (ro : option DeviceId) (rk : option OrderKey) : Prop :=
  ∀ origin key, ro = Some origin → rk = Some key → bound_ok origin (Some key).
Lemma rows_after_in_range claims audit origin resume ro rk :
  request_in_range claims resume → resume_bound ro rk →
  bound_ok origin (rows_after (claim_of claims audit origin) (if bool_decide (ro = Some origin) then rk else None)).
Proof.
  intros Hr Hb. pose proof (claim_in_range claims audit origin resume Hr) as Hc.
  assert (Hk : bound_ok origin (if bool_decide (ro = Some origin) then rk else None)).
  { case_bool_decide as Ho; [|done]. destruct rk as [key|]; [by apply Hb|done]. }
  revert Hk. generalize (if bool_decide (ro = Some origin) then rk else None). intros k Hk. unfold rows_after.
  destruct (claim_of claims audit origin) as [c|], k as [k|]; try done. unfold omax. by case_match.
Qed.

(** The keyed loop: the same page, within the entries it was left. *)
Lemma keyed_loop_alike claims resume ro rk audit bb store own osf origins remaining keyed nbytes :
  request_in_range claims resume → resume_bound ro rk → (0 < remaining ≤ i64_max)%Z →
  let r1 := keyed_loop s1 claims ro rk audit bb store own osf origins remaining keyed nbytes in
  ok r1 = ok (keyed_loop s2 claims ro rk audit bb store own osf origins remaining keyed nbytes) ∧
  ∀ page, r1 = Ok page → (len page.1 ≤ len keyed + remaining)%Z.
Proof.
  intros Hr Hb. revert remaining keyed nbytes. induction origins as [|origin origins IH]; intros remaining keyed nbytes Hrem; cbn [keyed_loop].
  { split; [done|]. intros page [= <-]. cbn. lia. }
  destruct (osf && bool_decide (origin = own)); [by apply IH|].
  set (after := rows_after _ _). assert (Ha : bound_ok origin after) by (by apply (rows_after_in_range _ _ _ resume)).
  pose proof (al_origin_since Hal origin after store remaining Ha Hrem) as Heq.
  pose proof (λ rows, al_bounded Hal origin after store remaining rows Ha Hrem) as Hlen.
  destruct (sock_origin_since s1 origin after store remaining) as [rows|e1], (sock_origin_since s2 origin after store remaining) as [rows'|e2];
    cbn in Heq; simplify_eq; cbn; [|by split].
  specialize (Hlen rows' eq_refl). destruct (encode_origin_rows rows' keyed nbytes bb 0 None) as [[[keyed' nb'] served] lk] eqn:He.
  destruct (encode_rows_count _ _ _ _ _ _ _ _ _ _ He) as [Hk Hs].
  destruct (bool_decide (len rows' = remaining)) eqn:Hfull; cbn [orb].
  { split; [done|]. intros page [= <-]. cbn. lia. }
  apply bool_decide_eq_false in Hfull. destruct (bool_decide (served < len rows')%Z || bool_decide (bb ≤ nb')%Z).
  { split; [done|]. intros page [= <-]. cbn. lia. }
  destruct (IH (remaining - served)%Z keyed' nb') as [Hok Hle]; [lia|]. split; [done|]. intros page Hp. specialize (Hle page Hp). lia.
Qed.

Lemma resume_in_range claims resume :
  request_in_range claims resume →
  resume_bound (r ← resume; ok (DeviceId_from_hex (r_origin r))) (r ← resume; decode_order_key (r_after_key r)).
Proof.
  intros [_ Hr] origin key. destruct resume as [r|]; [|done]. cbn. intros Ho Hk.
  eapply Hr; [done| |exact Hk]. destruct (DeviceId_from_hex (r_origin r)); by simplify_eq/=.
Qed.

Lemma keyed_channel_alike claims resume audit budget bb store own :
  request_in_range claims resume → (0 < budget ≤ i64_max)%Z →
  let r1 := build_keyed_channel s1 claims resume audit budget bb store own in
  ok r1 = ok (build_keyed_channel s2 claims resume audit budget bb store own) ∧
  ∀ page, r1 = Ok page → (len page.1 ≤ budget)%Z.
Proof.
  intros Hr Hb. unfold build_keyed_channel. rewrite !decide_False by lia. pose proof (al_origins Hal) as Ho.
  pose proof (resume_in_range _ _ Hr) as Hres.
  destruct (sock_origins s1) as [origins|e1], (sock_origins s2) as [origins'|e2]; cbn in Ho; simplify_eq; cbn [mbind result_bind]; [|split; [reflexivity|by intros ? [=]]].
  destruct (bool_decide (resume = None) && bool_decide (own ∈ origins')).
  - pose proof (claim_in_range claims audit own resume Hr) as Hc.
    pose proof (al_origin_since Hal own _ store budget Hc Hb) as Heq.
    pose proof (λ rows, al_bounded Hal own _ store budget rows Hc Hb) as Hlen.
    destruct (sock_origin_since s1 own _ store budget) as [rows|f1], (sock_origin_since s2 own _ store budget) as [rows'|f2];
      cbn in Heq; simplify_eq; cbn [mbind result_bind]; [|split; [reflexivity|by intros ? [=]]].
    specialize (Hlen rows' eq_refl). destruct (encode_origin_rows rows' [] 0 bb 0 None) as [[[keyed' nb'] served] lk] eqn:He.
    destruct (encode_rows_count _ _ _ _ _ _ _ _ _ _ He) as [Hk Hs]. change (len []) with 0%Z in Hk.
    destruct (bool_decide (budget - served = 0)%Z) eqn:Hfull; cbn [orb].
    { split; [done|]. intros page [= <-]. cbn. lia. }
    apply bool_decide_eq_false in Hfull. destruct (bool_decide (served < len rows')%Z || bool_decide (bb ≤ nb')%Z).
    { split; [done|]. intros page [= <-]. cbn. lia. }
    edestruct (keyed_loop_alike claims resume) as [Hok Hle]; [exact Hr|exact Hres| |split; [exact Hok|]]; [lia|].
    intros page Hp. specialize (Hle page Hp). lia.
  - edestruct (keyed_loop_alike claims resume) as [Hok Hle]; [exact Hr|exact Hres|exact Hb|split; [exact Hok|]].
    intros page Hp. specialize (Hle page Hp). change (len []) with 0%Z in Hle. lia.
Qed.

Lemma backfill_alike stream claims keyed start_seq budget :
  (0 ≤ start_seq ≤ i64_max)%Z → (0 < budget ≤ i64_max)%Z →
  ok (build_backfill s1 stream claims keyed start_seq budget) = ok (build_backfill s2 stream claims keyed start_seq budget).
Proof.
  intros Hs Hb. unfold build_backfill. apply ok_bind; [by apply (al_relay_since Hal)|]. intros scanned _.
  by destruct (backfill_loop claims scanned start_seq [] (sum_len keyed) false) as [[? ?] ?].
Qed.

(** A request whose positions and clocks the columns can hold. *)
Record pull_in_range (request : PullRequest) : Prop := {
  pir_bounds : request_in_range (decode_coverage request) (pr_resume request);
  pir_after : (0 ≤ pr_relay_after request ≤ i64_max)%Z;
  pir_resume r : pr_resume request = Some r → (0 ≤ r_after_seq r ≤ i64_max)%Z;
}.

Lemma page_alike request :
  pull_in_range request → ok (build_pull_page s1 request) = ok (build_pull_page s2 request).
Proof.
  intros [Hr Ha Hres]. unfold build_pull_page. apply ok_bind; [apply (al_stream Hal)|]. intros stream _.
  apply ok_bind; [by destruct (decode_epoch _)|]. intros epoch _.
  destruct (_ && pull_needs_reset epoch (pr_relay_after request) stream); [done|].
  set (limit := Z.max 1 (Z.min (pr_limit request) PULL_PAGE_LIMIT_MAX)).
  assert (Hlim : (0 < limit ≤ i64_max)%Z) by (subst limit; unfold PULL_PAGE_LIMIT_MAX, PAGE_LIMIT_MAX; change i64_max with 9223372036854775807%Z; lia).
  set (resume := if is_phase Keyed (pr_resume request) then pr_resume request else None).
  assert (Hr' : request_in_range (decode_coverage request) resume).
  { destruct Hr as [Hc Hk]. split; [done|]. intros r origin key. subst resume. destruct (is_phase Keyed _); [apply Hk|done]. }
  rewrite (al_own Hal). destruct (pr_store request) as [store|].
  - apply ok_bind; [by apply keyed_channel_alike|]. by intros [].
  - set (start := match pr_resume request with Some r => _ | None => _ end).
    assert (Hstart : (0 ≤ start ≤ i64_max)%Z).
    { subst start. destruct (pr_resume request) as [r|]; [|done]. case_decide; [by apply Hres|done]. }
    destruct (is_phase Backfill (pr_resume request)); [by apply backfill_alike|].
    destruct (keyed_channel_alike (decode_coverage request) resume (pr_audit request) limit PULL_PAGE_BYTE_BUDGET None (own_device_id s2) Hr' Hlim) as [Hok Hle].
    apply ok_bind; [done|]. intros [keyed res] Hpage. destruct res; [done|]. destruct (decide (limit - len keyed = 0)%Z); [done|].
    apply backfill_alike; [done|]. destruct (build_keyed_channel s1 _ _ _ _ _ _ _) as [page|] eqn:Hc; cbn in Hpage; simplify_eq.
    specialize (Hle _ eq_refl). cbn in Hle. pose proof (len_nonneg keyed). lia.
Qed.
End agree.

(** ** The stored log serves the in-memory log's pages *)

Section matches.
Context `{Rusqlite, Crypto, Base64, Postcard, !Wire EnvelopeRepr, !WireOk EnvelopeRepr}.
Context {D : Type} `{!DeviceBook D}.
Context (sq : SqlitePullServerSocket) (mem : ServeState OpLog D) (arr : list SignedOp).
Context (Hrep : sql_log_rep (sq_conn sq) arr) (Hlog : log_rep (ss_log mem) arr).
Context (Hquiet : ∀ name, sq_faults sq name = []) (Hindex : db_origin_index (sq_conn sq) = true).
Context (Hown : sq_identity sq = ss_identity mem).
Context (Hepoch : db_relay_state (sq_conn sq) = Some (vec_to_list (log_relay_epoch (ss_log mem)), 0%Z)).

Lemma sq_read_runs {A} name (m : sql Db A) a d' : runs m (sq_conn sq) a d' → sq_read name m sq = Ok a.
Proof. intros Hr. unfold sq_read. rewrite Hquiet. by rewrite Hr. Qed.

Lemma i64_u64 z : (0 ≤ z ≤ i64_max)%Z → u64_ok z.
Proof. unfold u64_ok. change i64_max with 9223372036854775807%Z. change u64_modulus with 18446744073709551616%Z. lia. Qed.

Lemma olt_sorted_unique {K} `{OrdOk K} (l1 l2 : list K) :
  StronglySorted olt l1 → StronglySorted olt l2 → (∀ x, x ∈ l1 ↔ x ∈ l2) → l1 = l2.
Proof.
  intros Hs1 Hs2 Hin. apply StronglySorted_unique_strong with (R := olt); [|done|done|].
  - intros x y _ _ Hxy Hyx. exfalso. by eapply olt_irrefl, olt_trans.
  - apply NoDup_Permutation; [..|done]; clear Hin; [induction Hs1 as [|x l Hs IH Hall]|induction Hs2 as [|x l Hs IH Hall]]; constructor; auto;
      intros Hx; eapply olt_irrefl, (proj1 (Forall_forall _ _) Hall _ Hx).
Qed.

Lemma sqlite_alike : serves_alike sq mem.
Proof.
  split.
  - cbn. by rewrite Hown.
  - destruct (stream_refines _ _ Hrep) as ([epoch head floor] & Hst & _ & Hh & Hf & He). cbn in Hh, Hf, He.
    cbn [relay_stream_state sqlite_socket]. rewrite (sq_read_runs _ _ _ _ Hst). cbn.
    rewrite Hepoch in He. injection He as He%vec_to_list_inj2. unfold log_relay_state.
    rewrite He, Hh, Hf, (rep_order _ _ Hlog). unfold len. by rewrite length_fmap.
  - destruct (origins_refines _ _ Hrep) as (origins & Ho & Hs & Hin).
    destruct (serves_origin_set (rep := λ s arr, log_rep (ss_log s) arr) mem arr Hlog) as (origins' & Ho' & Hs' & Hin').
    rewrite Ho'. cbn [sock_origins sqlite_socket]. rewrite (sq_read_runs _ _ _ _ Ho). cbn. f_equal.
    apply olt_sorted_unique; [done..|]. intros x. by rewrite Hin, Hin'.
  - intros origin after store limit Hb Hl.
    destruct (origin_since_refines _ _ origin after store limit Hrep Hb) as (rows & He & Hr); [apply i64_u64; lia|done|].
    cbn [sock_origin_since sqlite_socket]. rewrite (sq_read_runs _ _ _ _ Hr).
    by rewrite (serves_origin_since (rep := λ s arr, log_rep (ss_log s) arr) mem arr origin after store limit rows Hlog) by (lia || done).
  - intros after limit Ha Hl. destruct (relay_since_refines _ _ after limit Hrep Ha) as (rows & He & Hr); [lia|].
    cbn [sock_relay_since sqlite_socket]. rewrite (sq_read_runs _ _ _ _ Hr).
    by rewrite (serves_relay_since (rep := λ s arr, log_rep (ss_log s) arr) mem arr after limit rows Hlog) by (lia || done).
  - intros origin after store limit rows Hb Hl Hrows.
    destruct (origin_since_refines _ _ origin after store limit Hrep Hb) as (rows' & He & Hr); [apply i64_u64; lia|done|].
    cbn [sock_origin_since sqlite_socket] in Hrows. rewrite (sq_read_runs _ _ _ _ Hr) in Hrows. injection Hrows as <-.
    apply try_map_ok, Forall2_length in He. unfold len. rewrite <-He. fold (len (takeZ limit (filter (origin_row origin after store) (ordered arr)))).
    rewrite len_takeZ by lia. lia.
Qed.

(** C15: A node that serves from SQLite serves the pages the in-memory log would:
    over a stored log and an in-memory log with the same arrivals, epoch and
    identity, the page built for any request whose positions and clocks fit the
    columns is the same page, or a refusal of both. *)
Theorem sqlite_page_matches (request : PullRequest) :
  pull_in_range request →
  ok (build_pull_page sq request) = ok (build_pull_page mem request).
Proof. apply page_alike, sqlite_alike. Qed.
End matches.

(** ** Who is admitted *)

Section admission.
Context `{Rusqlite, Crypto, Postcard, !Wire EnvelopeRepr, !Wire BodyRepr, Json, !JsonWire PullRequest}.
Implicit Types sq : SqlitePullServerSocket.

Lemma needs_vouch_quiet context columns : Quiet (needs_vouch_columns context columns).
Proof. unfold needs_vouch_columns. solve_quiet. Qed.
#[local] Existing Instance needs_vouch_quiet.

Lemma needs_vouch_runs context columns d u d' : runs (needs_vouch_columns context columns) d u d' → d' = d.
Proof.
  intros Hr. unfold needs_vouch_columns in Hr. apply runs_bind in Hr as (m & d0 & [-> <-]%runs_get & Hr); [|apply _].
  destruct (head _); [by apply runs_lift in Hr as [? _]|]. by apply runs_ret in Hr as [_ <-].
Qed.

Lemma lookup_runs d peer fs key d' fs' :
  sql_lookup_peer_sec1 peer d fs = (Ok key, (d', fs')) →
  ∃ stored, coalesced_key (DeviceId_to_hex peer) d = Some stored ∧ key = vec_of_list 33 stored.
Proof.
  intros Hr. assert (Hq : runs (sql_lookup_peer_sec1 peer) d key d') by (eapply quiet, Hr; unfold sql_lookup_peer_sec1; solve_quiet).
  clear Hr. rename Hq into Hr. unfold sql_lookup_peer_sec1 in Hr.
  apply runs_bind in Hr as ([] & d0 & ->%needs_vouch_runs & Hr); [|apply _].
  apply runs_bind in Hr as ([] & d0 & <-%runs_try & Hr); [|apply _].
  apply runs_bind in Hr as (k & d0 & [-> <-]%runs_get & Hr); [|apply _].
  apply runs_bind in Hr as (stored & d0 & [Hs <-]%runs_lift & Hr); [|apply _].
  apply runs_ret in Hr as [<- _]. exists stored. split; [|done]. by destruct (coalesced_key _ d); simplify_eq/=.
Qed.

Lemma trusted_runs d peer fs d' fs' :
  sql_is_peer_trusted peer d fs = (Ok true, (d', fs')) → peer_trust (DeviceId_to_hex peer) d = 1%Z.
Proof.
  intros Hr. assert (Hq : runs (sql_is_peer_trusted peer) d true d') by (eapply quiet, Hr; unfold sql_is_peer_trusted; solve_quiet).
  clear Hr. rename Hq into Hr. unfold sql_is_peer_trusted in Hr.
  apply runs_bind in Hr as ([] & d0 & ->%needs_vouch_runs & Hr); [|apply _].
  apply runs_bind in Hr as ([] & d0 & <-%runs_try & Hr); [|apply _].
  apply runs_bind in Hr as (k & d0 & [-> <-]%runs_get & Hr); [|apply _].
  apply runs_ret in Hr as [Hb%bool_decide_eq_true _]. revert Hb. unfold peer_trust. by repeat case_decide.
Qed.

Lemma peer_trust_inv hex d :
  peer_trust hex d = 1%Z →
  hex ∉ db_retirements d ∧
  ((∃ r, r ∈ db_devices d ∧ dv_device_id r = hex ∧ trusted_with_key r) ∨
   ∃ v r, v ∈ db_vouches d ∧ r ∈ db_devices d ∧ vo_device_id v = hex ∧ vo_voucher v = dv_device_id r ∧
     trusted_with_key r ∧ dv_device_id r ∉ db_retirements d).
Proof.
  unfold peer_trust. case_decide as Hret; [done|]. intros Ht. split; [done|]. case_decide as Hd.
  - left. apply Exists_exists in Hd as (r & Hr & ? & ?). by exists r.
  - right. case_decide as Hv; [|done]. apply Exists_exists in Hv as (v & Hv & Hhex & (r & Hr & Hid & Htr & Hnr)%Exists_exists).
    exists v, r. by split_and!.
Qed.

(** C22: A server over SQLite admits a pull request only of a peer it should: the
    request verifies under the 33-byte key stored for its signer, the signer is
    not retired and is either trusted itself or vouched for by a device that is
    trusted, holds a key and is not retired, and the origin index the page will
    be read through is built; whatever the driver answers on the way. *)
Theorem sqlite_admits_trusted sq bs peer request :
  authenticate_pull_request sq bs = Ok (peer, request) →
  ∃ op sec1, op_from_bytes bs = Ok op ∧ op_device (op_body op) = peer ∧
    vec_of_list 33 <$> coalesced_key (DeviceId_to_hex peer) (sq_conn sq) = Some (Some sec1) ∧
    verify_with_sec1 op (vec_to_list sec1) = Ok () ∧
    DeviceId_to_hex peer ∉ db_retirements (sq_conn sq) ∧
    ((∃ r, r ∈ db_devices (sq_conn sq) ∧ dv_device_id r = DeviceId_to_hex peer ∧ trusted_with_key r) ∨
     ∃ v r, v ∈ db_vouches (sq_conn sq) ∧ r ∈ db_devices (sq_conn sq) ∧ vo_device_id v = DeviceId_to_hex peer ∧
       vo_voucher v = dv_device_id r ∧ trusted_with_key r ∧ dv_device_id r ∉ db_retirements (sq_conn sq)) ∧
    db_origin_index (sq_conn sq) = true.
Proof.
  unfold authenticate_pull_request. destruct (verify_pull_request bs _ _) as [[p req]|e] eqn:Hv; [|by destruct (lookup_error _ _)].
  cbn [is_peer_trusted is_coverage_primed sqlite_socket]. unfold sq_read.
  destruct (sql_is_peer_trusted p _ _) as [[[]|e] [d' fs']] eqn:Ht; [|done..]. cbn [fst].
  destruct (is_primed _ _) as [[[]|e] [d2 fs2]] eqn:Hp; [|done..]. cbn [fst]. intros [= -> ->].
  destruct (is_primed_index _ _ _ _ Hp) as [Hidx _]. apply trusted_runs, peer_trust_inv in Ht as [Hret Htr].
  unfold verify_pull_request in Hv. destruct (op_from_bytes bs) as [op|] eqn:Hop; [|done]. cbn in Hv.
  case_decide; [done|]. unfold sq_read in Hv.
  destruct (sql_lookup_peer_sec1 (op_device (op_body op)) (sq_conn sq) _) as [[key|e] [d3 fs3]] eqn:Hl; [|done]. cbn in Hv.
  apply lookup_runs in Hl as (stored & Hs & ->). destruct (vec_of_list 33 stored) as [sec1|] eqn:Hsec; [|done]. cbn in Hv.
  destruct (verify_with_sec1 op (vec_to_list sec1)) as [[]|] eqn:Hver; [|done]. cbn in Hv.
  destruct (json_from_slice _) as [r|]; [|done]. cbn in Hv. do 2 (case_decide; [done|]). injection Hv as <- <-.
  exists op, sec1. rewrite Hs. cbn. by rewrite Hsec.
Qed.

(** A peer the device table does not know is answered as a failure of the
    server: its signed request draws status 500 with the driver's error, not the
    401 a missing key draws elsewhere, because the [NULL] of the key lookup is
    read as a blob. *)
Lemma sqlite_unknown_peer_fails sq bs op :
  op_from_bytes bs = Ok op → as_str (op_store (op_body op)) = PULL_REQUEST_STORE_ID →
  sq_faults sq "lookup_peer_sec1" = [] →
  Forall (λ c, c ∈ db_vouch_columns (sq_conn sq)) ["public_key"; "device_id"; "updated_at"; "voucher_device_id"] →
  coalesced_key (DeviceId_to_hex (op_device (op_body op))) (sq_conn sq) = None →
  authenticate_pull_request sq bs =
    Err (INTERNAL_SERVER_ERROR, "lookup peer verifying key: " +:+ invalid_column_type 0).
Proof.
  intros Hop Hst Hf Hcols Hnone.
  assert (Hl : lookup_peer_sec1 sq (op_device (op_body op)) = Err (sql_error "lookup peer verifying key" (invalid_column_type 0))).
  { cbn [lookup_peer_sec1 sqlite_socket]. unfold sq_read. rewrite Hf. unfold sql_lookup_peer_sec1, needs_vouch_columns.
    unfold mbind, sql_bind, sql_get. cbn [sql_try]. rewrite filter_none; [|eapply Forall_impl; [exact Hcols|]; tauto].
    cbn [head]. unfold mret, sql_ret, sql_lift. cbn [sql_try]. by rewrite Hnone. }
  unfold authenticate_pull_request, verify_pull_request, lookup_error. rewrite Hop. cbn [map_err mbind result_bind ok option_bind].
  rewrite !decide_False by (intros Hn; by apply Hn). rewrite Hl. done.
Qed.
End admission.

(** ** What the device book holds *)

Section book_ok.
Context `{Rusqlite, Crypto}.

(** The rows a registry is loaded from. *)
Definition book_rows (voucher : option string) (d : Db) : list (string * bytes) :=
  match voucher with
  | Some voucher => sql_union (trusted_rows d) (vouched_rows (Some voucher) d)
  | None => trusted_rows d
  end.

Lemma keyed_device_ok row id sec1 :
  keyed_device row = Some (id, sec1) ↔
  ∃ key, DeviceId_from_hex row.1 = Ok id ∧ vec_of_list 33 row.2 = Some sec1 ∧ vk_from_sec1 sec1 = Some key ∧ device_id_of_key key = id.
Proof.
  unfold keyed_device, device_id_from_sec1, device_id_of_key. split.
  - destruct (DeviceId_from_hex row.1) as [i|]; [|done]. destruct (vec_of_list 33 row.2) as [k|]; [|done].
    destruct (vk_from_sec1 k) as [key|] eqn:Hk; [|done]. cbn. case_decide; [|done]. intros [= <- <-]. by exists key.
  - intros (key & -> & -> & Hk & <-). rewrite Hk. cbn. by rewrite decide_True.
Qed.

Lemma registry_rows_runs voucher d devices d' :
  runs (registry_keyed_devices voucher) d devices d' → devices = omap keyed_device (book_rows voucher d) ∧ d' = d.
Proof.
  intros Hr. unfold registry_keyed_devices in Hr. apply runs_bind in Hr as ([] & d0 & Hc & Hr).
  2:{ destruct voucher; [apply needs_vouch_quiet|apply _]. }
  assert (d0 = d) as -> by (destruct voucher; [by apply needs_vouch_runs in Hc|by apply runs_ret in Hc as [_ <-]]).
  do 2 apply runs_bind in Hr as ([] & d0 & <-%runs_try & Hr); [|apply _..].
  apply runs_bind in Hr as (rows & d0 & [-> <-]%runs_get & [-> <-]%runs_rows); [|apply _].
  by destruct voucher.
Qed.

Lemma insert_rows_ok (devices : list (DeviceId * barr 33)) r :
  let r' := foldl (λ r '(_, sec1), (insert_sec1 r sec1).2) r devices in
  (∀ id key, key_for r' id = Some key →
     key_for r id = Some key ∨ ∃ (i : DeviceId) (sec1 : barr 33), (i, sec1) ∈ devices ∧ vk_from_sec1 sec1 = Some key ∧ id = device_id_of_key key) ∧
  (∀ id, is_Some (key_for r id) → is_Some (key_for r' id)) ∧
  ∀ (i : DeviceId) (sec1 : barr 33) key, (i, sec1) ∈ devices → vk_from_sec1 sec1 = Some key → is_Some (key_for r' (device_id_of_key key)).
Proof.
  revert r. induction devices as [|[i sec1] devices IH]; intros r; cbn [foldl].
  { split_and!; [by left|done|by intros ??? ?%not_elem_of_nil]. }
  destruct (IH (insert_sec1 r sec1).2) as (Hin & Hkeep & Hall). clear IH. unfold insert_sec1 in *.
  destruct (vk_from_sec1 sec1) as [k|] eqn:Hk; cbn in *.
  - unfold key_for in *. cbn in *. split_and!.
    + intros id key Hg. destruct (Hin id key Hg) as [Hl|(j & s & Hj & ?)]; [|right; exists j, s; split; [by right|done]].
      apply lookup_insert_Some in Hl as [[<- <-]|[_ Hl]]; [|by left]. right. exists i, sec1. split; [by left|done].
    + intros id Hid. apply Hkeep. destruct (decide (device_id_of_key k = id)) as [<-|Hne].
      * rewrite lookup_insert_eq. done.
      * by rewrite lookup_insert_ne.
    + intros j s key [[= -> ->]|Hj]%elem_of_cons Hs; [|by eapply Hall]. apply Hkeep. assert (key = k) as -> by congruence.
      by rewrite lookup_insert_eq.
  - split_and!; [|done|].
    + intros id key Hg. destruct (Hin id key Hg) as [?|(j & s & Hj & ?)]; [by left|]. right. exists j, s. split; [by right|done].
    + intros j s key [[= -> ->]|Hj]%elem_of_cons Hs; [congruence|]. by eapply Hall.
Qed.

(** The registry a server loads binds no id to a foreign key: each entry is
    a row of a trusted device, or of a vouch of the given voucher, whose key
    decodes and hashes to the id it is filed under; and every such row is in it,
    so a malformed or mismatched row is dropped without hiding another. *)
Lemma device_book_authentic voucher d fs r d' fs' :
  load_registry_conn voucher d fs = (Ok r, (d', fs')) →
  (∀ id key, key_for r id = Some key → device_id_of_key key = id ∧
     ∃ row sec1, row ∈ book_rows voucher d ∧ DeviceId_from_hex row.1 = Ok id ∧ vec_of_list 33 row.2 = Some sec1 ∧ vk_from_sec1 sec1 = Some key) ∧
  ∀ row id sec1 key, row ∈ book_rows voucher d → DeviceId_from_hex row.1 = Ok id → vec_of_list 33 row.2 = Some sec1 →
     vk_from_sec1 sec1 = Some key → device_id_of_key key = id → is_Some (key_for r id).
Proof.
  intros Hr. assert (Hrows : Quiet (registry_keyed_devices voucher)).
  { unfold registry_keyed_devices. pose proof needs_vouch_quiet. destruct voucher; solve_quiet. }
  assert (Hq : runs (load_registry_conn voucher) d r d') by (eapply quiet, Hr).
  unfold load_registry_conn in Hq. apply runs_bind in Hq as (devices & d0 & [-> _]%registry_rows_runs & [<- _]%runs_ret); [|done].
  destruct (insert_rows_ok (omap keyed_device (book_rows voucher d)) registry_new) as (Hin & _ & Hall). split.
  - intros id key [Hl|(i & sec1 & Hi & Hk & ->)]%Hin; [done|]. split; [done|].
    apply list_elem_of_omap in Hi as (row & Hrow & (key' & Hid & Hs & Hk' & <-)%keyed_device_ok).
    exists row, sec1. assert (key' = key) as -> by congruence. done.
  - intros row id sec1 key Hrow Hid Hs Hk <-. apply (Hall (device_id_of_key key) sec1); [|done].
    apply list_elem_of_omap. exists row. split; [done|]. apply keyed_device_ok. by exists key.
Qed.

(** The two readers of [device_vouches] name its vouched column differently: a
    schema without [device_id] fails every peer lookup, one without
    [vouched_device_id] fails the book. *)
Lemma vouch_columns_disagree (d : Db) peer fs :
  ("device_id" ∉ db_vouch_columns d → ∃ e, (sql_lookup_peer_sec1 peer d fs).1 = Err e) ∧
  ("vouched_device_id" ∉ db_vouch_columns d → ∃ e, (relayable_keyed_devices d fs).1 = Err e).
Proof.
  assert (Hmiss : ∀ c context columns, c ∈ columns → c ∉ db_vouch_columns d →
    ∃ e st, needs_vouch_columns context columns d fs = (Err e, st)).
  { intros c context columns Hc Hn. unfold needs_vouch_columns, mbind, sql_bind, sql_get.
    destruct (filter (λ c, c ∉ db_vouch_columns d) columns) as [|c' l] eqn:Hf; cbn; [|by eexists _, _].
    assert (Hin : c ∈ filter (λ c, c ∉ db_vouch_columns d) columns) by (by apply list_elem_of_filter).
    rewrite Hf in Hin. by apply not_elem_of_nil in Hin. }
  split; intros Hn; [unfold sql_lookup_peer_sec1|unfold relayable_keyed_devices]; unfold mbind at 1, sql_bind at 1.
  - destruct (Hmiss "device_id" "lookup peer verifying key" ["public_key"; "device_id"; "updated_at"; "voucher_device_id"]) as (e & st & ->);
      [by right; left|done|]. by exists e.
  - destruct (Hmiss "vouched_device_id" "device book prepare" ["vouched_device_id"; "public_key"]) as (e & st & ->); [by left|done|]. by exists e.
Qed.
End book_ok.
