(* ===== verification/PullClient.v ===== *)
(** * Pull protocol v3: the client ([src/net/pull_client.rs])

    Page decoding, reset validation, the application of a verified page through
    a pull socket, the head-window preview, the store sweep and the drain loop.
    The network is a parameter: a world that answers a posted envelope. *)

From stdpp Require Import pretty.
From S2P Require Import Prelude Ordered External Toy Http Identity Op Registry Store Log Hlc Durable Pull Transport Socket PullServer.
Import BTree.

Definition NEWEST_FIRST_PREVIEW_GAP : Z := PULL_PAGE_LIMIT_MAX.
Definition PULL_NO_PROGRESS_LIMIT : Z := 2.

Definition PullProgress : Type := Z * option (Z * Z * string * string).

Inductive PullOutcome : Type :=
  | Applied (n : nat)
  | Unsupported
  | Warming.

Definition preview_resume_after (previous : option Z) (head_seq : Z) : Z :=
  let window_start := saturating_sub_u64 head_seq PULL_PAGE_LIMIT_MAX in
  match previous with
  | Some after =>
      if decide (after ≤ head_seq ∧ saturating_sub_u64 head_seq after ≤ PULL_PAGE_LIMIT_MAX)%Z
      then after else window_start
  | None => window_start
  end.

(** The largest order key of an origin. *)
Definition max_key (origin : DeviceId) : OrderKey :=
  mk_OrderKey u64_max origin (vreplicate 32 Byte.xff).
Definition inflated_claims (origins : list DeviceId) : list (string * string) :=
  bt_collect ((λ origin, (DeviceId_to_hex origin, encode_hex (to_wire (max_key origin)))) <$> origins).

Definition pull_progress (relay_cursor : option RelayCursor) (resume : option Resume) : PullProgress :=
  (match relay_cursor with Some c => rc_after c | None => 0%Z end,
   (λ r, (match r_phase r with Backfill => 0%Z | Keyed => 1%Z end,
          r_after_seq r, r_origin r, r_after_key r)) <$> resume).

Section pull_client.
Context `{Crypto, Base64, Postcard, !Wire BodyRepr, !Wire EnvelopeRepr}.

Definition decode_page_op (encoded : string) (peer : DeviceId) : result string SignedOp :=
  bs ← map_err (λ e, "v3 pull peer=" +:+ DeviceId_to_hex peer
      +:+ " sent an undecodable entry: " +:+ b64_display e) (b64_decode encoded);
  map_err (λ e, "v3 pull peer=" +:+ DeviceId_to_hex peer
      +:+ " sent an invalid envelope: " +:+ OpError_display e) (op_from_bytes bs).

Definition validate_pull_reset (request : PullRequest) (page : PullPage) (response_epoch : barr 32)
    : result string RelayCursor :=
  if negb (pp_reset page) then Err "invalid v3 reset: response was not marked as a reset"
  else if decide (pp_head_seq page < pp_floor page)%Z
  then Err ("invalid v3 reset: floor " +:+ pretty (pp_floor page) +:+ " exceeds signed head "
            +:+ pretty (pp_head_seq page))
  else if negb (bool_decide (pp_backfill page = [])) || negb (bool_decide (pp_keyed page = []))
          || bool_decide (pp_next_relay_seq page ≠ 0)%Z || bool_decide (pp_resume page ≠ None)
          || pp_complete page || pp_snapshot_recommended page || bool_decide (pp_store page ≠ None)
  then Err "invalid v3 reset: reset page carried data, progress, or resume state"
  else
    request_epoch ← ok_or (decode_epoch (pr_relay_epoch request)) "invalid relay epoch";
    if negb (pull_needs_reset request_epoch (pr_relay_after request)
               (mk_stream response_epoch (pp_head_seq page) (pp_floor page)))
    then Err "invalid v3 reset: signed stream state does not invalidate the requested cursor"
    else Ok (mk_cursor response_epoch (pp_floor page)).

(** On a reset page of the server's own stream, the client's test is the
    server's. *)
Lemma validate_reset_page request stream e :
  decode_epoch (pr_relay_epoch request) = Some e → (rs_floor stream ≤ rs_head stream)%Z →
  validate_pull_reset request (reset_pull_page stream) (rs_epoch stream) =
  if pull_needs_reset e (pr_relay_after request) stream
  then Ok (mk_cursor (rs_epoch stream) (rs_floor stream))
  else Err "invalid v3 reset: signed stream state does not invalidate the requested cursor".
Proof.
  intros He Hf. unfold validate_pull_reset. cbn [pp_reset pp_head_seq pp_floor reset_pull_page negb].
  rewrite decide_False by lia. rewrite He. cbn -[pull_needs_reset]. destruct stream as [ep hd fl].
  cbn -[pull_needs_reset]. by destruct (pull_needs_reset _ _ _).
Qed.

Section apply.
Context {S : Type} `{!MeshPullSocket S}.
Notation E := (SockError S).

Definition persist_pull_reset (socket : S) (peer : DeviceId) (request : PullRequest) (page : PullPage)
    (response_epoch : barr 32) : result E RelayCursor * S :=
  match validate_pull_reset request page response_epoch with
  | Err msg =>
      (Err (if decide (msg = "invalid relay epoch") then invalid_argument msg else protocol_error msg), socket)
  | Ok reset =>
      match commit_pull_reset socket peer reset with
      | (Err e, socket) => (Err e, socket)
      | (Ok _, socket) => (Ok reset, socket)
      end
  end.

(** The decoding loop over [page.backfill]: sequences must advance. *)
Fixpoint decode_backfill (peer : DeviceId) (after last_seq : Z) (entries : list (Z * string))
    : result E (list Z * list SignedOp) :=
  match entries with
  | [] => Ok ([], [])
  | (seq, encoded) :: entries =>
      if decide (seq ≤ last_seq)%Z
      then Err (protocol_error ("v3 pull peer=" +:+ DeviceId_to_hex peer
                  +:+ " returned non-advancing sequence " +:+ pretty seq +:+ " at or behind " +:+ pretty after))
      else
        op ← map_err protocol_error (decode_page_op encoded peer);
        '(seqs, ops) ← decode_backfill peer after seq entries;
        Ok (seq :: seqs, op :: ops)
  end.

(** The runs of [page.keyed], the last one first.  A run is an origin and its
    ops; the source's parallel vector holds the ops' order keys. *)
Fixpoint decode_runs (peer : DeviceId) (entries : list string) (runs : list (DeviceId * list SignedOp))
    (last_key : option OrderKey) : result E (list (DeviceId * list SignedOp)) :=
  match entries with
  | [] => Ok runs
  | encoded :: entries =>
      op ← map_err protocol_error (decode_page_op encoded peer);
      let key := order_key op in
      match runs with
      | (origin, ops) :: before =>
          if decide (origin = ok_device key) then
            if match last_key with Some last => bool_decide (key ⪯ last) | None => false end
            then Err (protocol_error ("v3 pull peer=" +:+ DeviceId_to_hex peer
                        +:+ " returned a non-ascending keyed entry for origin " +:+ DeviceId_to_hex origin))
            else decode_runs peer entries ((origin, ops ++ [op]) :: before) (Some key)
          else if (1 <? length runs) && bool_decide (ok_device key ≺ origin)
          then Err (protocol_error ("v3 pull peer=" +:+ DeviceId_to_hex peer
                      +:+ " returned keyed origins out of order"))
          else decode_runs peer entries ((ok_device key, [op]) :: runs) (Some key)
      | [] => decode_runs peer entries [(ok_device key, [op])] (Some key)
      end
  end.

Definition panic_index : string := "index out of bounds".

(** The callback of channel B: the cursor follows the admitted prefix.  Its
    locals are [current] and [*cursor]; an index panic is rendered as an error. *)
Definition backfill_quantum (peer : DeviceId) (seqs : list Z) (admitted_total _ : nat) (socket : S)
    (c : RelayCursor * option RelayCursor) : result E () * S * (RelayCursor * option RelayCursor) :=
  let '(current, cursor) := c in
  if decide (0 < admitted_total) then
    match seqs !! (admitted_total - 1) with
    | None => (Err (protocol_error panic_index), socket, c)
    | Some seq =>
        let current := mk_cursor (rc_epoch current) seq in
        let '(r, socket) := save_relay_cursor socket peer current in
        (r, socket, (current, Some current))
    end
  else (Ok (), socket, c).

(** The callback of channel A: the claim follows the claim-safe prefix. *)
Definition keyed_quantum (origin : DeviceId) (keys : list OrderKey) (_ claim_safe_total : nat) (socket : S)
    (committed : nat) : result E () * S * nat :=
  if decide (committed < claim_safe_total) then
    match keys !! (claim_safe_total - 1) with
    | None => (Err (protocol_error panic_index), socket, committed)
    | Some key =>
        match advance_local_coverage socket origin key with
        | (Err e, socket) => (Err e, socket, committed)
        | (Ok _, socket) => (Ok (), socket, claim_safe_total)
        end
    end
  else (Ok (), socket, committed).

(** The loop over the runs. *)
Fixpoint apply_runs (socket : S) (peer : DeviceId) (skip_unattested : bool)
    (runs : list (DeviceId * list SignedOp)) (applied : nat) : result E nat * S :=
  match runs with
  | [] => (Ok applied, socket)
  | (origin, ops) :: runs =>
      match admit_ops socket peer ops skip_unattested true
              (keyed_quantum origin (order_key <$> ops)) 0 with
      | (Err e, socket, _) => (Err e, socket)
      | (Ok adm, socket, _) =>
          let applied := applied + adm_admitted adm in
          match adm_error adm with
          | Some e => (Err e, socket)
          | None => apply_runs socket peer skip_unattested runs applied
          end
      end
  end.

(** [apply_pull_page]: the answer, the socket, and [*cursor]. *)
Definition apply_pull_page (socket : S) (peer : DeviceId) (cursor : option RelayCursor) (page : PullPage)
    (skip_unattested : bool) : result E nat * S * option RelayCursor :=
  match decode_epoch (pp_epoch page) with
  | None => (Err (protocol_error "v3 pull page carries an invalid epoch"), socket, cursor)
  | Some epoch =>
      let current :=
        match cursor with
        | Some current =>
            if decide (rc_epoch current = epoch) then Ok current
            else Err (protocol_error ("v3 pull peer=" +:+ DeviceId_to_hex peer
                        +:+ " changed stream epoch without a reset"))
        | None => Ok (mk_cursor epoch 0)
        end in
      match current with
      | Err e => (Err e, socket, cursor)
      | Ok current =>
          match commit_relay_cursor socket peer current with
          | (Err e, socket) => (Err e, socket, cursor)
          | (Ok _, socket) =>
              let cursor := Some current in
              match decode_backfill peer (rc_after current) (rc_after current) (pp_backfill page) with
              | Err e => (Err e, socket, cursor)
              | Ok (seqs, ops) =>
                  match admit_ops socket peer ops skip_unattested true
                          (backfill_quantum peer seqs) (current, cursor) with
                  | (Err e, socket, (_, cursor)) => (Err e, socket, cursor)
                  | (Ok adm, socket, (current, cursor)) =>
                      match adm_error adm with
                      | Some e => (Err e, socket, cursor)
                      | None =>
                          let next :=
                            mk_cursor (rc_epoch current) (Z.max (rc_after current) (pp_next_relay_seq page)) in
                          match commit_relay_cursor socket peer next with
                          | (Err e, socket) => (Err e, socket, cursor)
                          | (Ok _, socket) =>
                              match decode_runs peer (pp_keyed page) [] None with
                              | Err e => (Err e, socket, Some next)
                              | Ok runs =>
                                  let '(r, socket) :=
                                    apply_runs socket peer skip_unattested (rev runs) (adm_admitted adm) in
                                  (r, socket, Some next)
                              end
                          end
                      end
                  end
              end
          end
      end
  end.
End apply.

(** ** Exchanges *)

Section exchange.
Context `{Json, !JsonWire PullRequest, !JsonWire PullPage}.
Context {S : Type} `{!MeshPullSocket S} {W : Type} `{!HttpWorld W}.
Notation E := (SockError S).
(** [String::from_utf8_lossy(&bytes).trim()], the text of a diagnostic. *)
Context (utf8_lossy_trim : bytes → string).

(** [HttpPullSource::pull] of [src/net/pull_client.rs] *)
Definition source_pull (w : W) (source : HttpPullSource) (request : PullRequest)
    (identity : DeviceIdentity) (hlc : Hlc) (expected_peer : DeviceId) (expected_peer_key : barr 33)
    : result TransportError PullPage * W :=
  match sign_pull_request request identity hlc with
  | Err e => (Err (WireErr e), w)
  | Ok signed_request =>
      match pull_bytes w source signed_request with
      | (Err e, w) => (Err e, w)
      | (Ok (status, body), w) =>
          if decide (status = 404 ∨ status = 405 ∨ status = 501)%Z
          then (Err (RelayRelayUnsupported status), w)
          else if negb (is_success status) then (Err (HttpErr ("status " +:+ pretty status)), w)
          else (map_err (VerifyErr (DeviceId_to_hex expected_peer))
                  (verify_pull_page body expected_peer expected_peer_key), w)
      end
  end.

Definition cursor_epoch (c : option RelayCursor) : barr 32 :=
  match c with Some c => rc_epoch c | None => zeros 32 end.
Definition cursor_after (c : option RelayCursor) : Z :=
  match c with Some c => rc_after c | None => 0%Z end.

(** Decoding a list of entries, stopping at the first bad one. *)
Definition decode_entries (peer : DeviceId) (entries : list string) : result E (list SignedOp) :=
  try_map (λ encoded, map_err protocol_error (decode_page_op encoded peer)) entries.

(** The callback of an admission that advances nothing. *)
Definition no_quantum (_ _ : nat) (s : S) (c : ()) : result E () * S * () := (Ok (), s, c).

Definition preview_head_window (socket : S) (w : W) (source : HttpPullSource) (peer : DeviceId)
    (peer_sec1 : barr 33) (relay_cursor : option RelayCursor) (after_seq : Z)
    : result E (nat * Z) * S * W :=
  match known_origins socket with
  | Err e => (Err e, socket, w)
  | Ok origins =>
      let '(now, socket) := sock_now_ms socket in
      let request :=
        mk_PullRequest PULL_VERSION (inflated_claims origins) (encode_hex (cursor_epoch relay_cursor))
          (cursor_after relay_cursor) (Some (mk_Resume Backfill after_seq "" "")) PULL_PAGE_LIMIT_MAX
          false None now in
      let '(hlc, socket) := next_hlc socket in
      match source_pull w source request (local_identity socket) hlc peer peer_sec1 with
      | (Err error, w) =>
          (Err (protocol_error ("v3 preview pull from peer " +:+ DeviceId_to_hex peer +:+ ": "
                  +:+ TransportError_display error)), socket, w)
      | (Ok page, w) =>
          if pp_reset page || pp_snapshot_recommended page then (Ok (0, after_seq), socket, w)
          else
            match decode_entries peer (pp_backfill page).*2 with
            | Err e => (Err e, socket, w)
            | Ok ops =>
                match admit_ops socket peer ops false false no_quantum () with
                | (Err e, socket, _) => (Err e, socket, w)
                | (Ok adm, socket, _) =>
                    let admitted := adm_admitted adm in
                    let next_seq :=
                      match admitted with
                      | 0 => after_seq
                      | Datatypes.S index =>
                          match pp_backfill page !! index with Some (seq, _) => seq | None => after_seq end
                      end in
                    (Ok (admitted, next_seq), socket, w)
                end
            end
      end
  end.

(** [sweep_store]: the loop with its locals; [None] is running out of fuel. *)
Fixpoint sweep_loop (fuel : nat) (socket : S) (w : W) (source : HttpPullSource) (peer : DeviceId)
    (peer_sec1 : barr 33) (relay_cursor : option RelayCursor) (store : string)
    (applied : nat) (resume : option Resume) (last_resume : option (string * string))
    : option (result E nat * S * W) :=
  match fuel with
  | 0 => None
  | Datatypes.S fuel =>
      let '(now, socket) := sock_now_ms socket in
      let request :=
        mk_PullRequest PULL_VERSION [] (encode_hex (cursor_epoch relay_cursor))
          (cursor_after relay_cursor) resume PULL_PAGE_LIMIT_MAX true (Some store) now in
      let '(hlc, socket) := next_hlc socket in
      match sign_pull_request request (local_identity socket) hlc with
      | Err e => Some (Err (protocol_error e), socket, w)
      | Ok signed =>
          match pull_bytes w source signed with
          | (Err error, w) =>
              Some (Err (protocol_error ("v3 store sweep from peer " +:+ DeviceId_to_hex peer +:+ ": "
                           +:+ TransportError_display error)), socket, w)
          | (Ok (status, bs), w) =>
              if decide (status = 404 ∨ status = 405 ∨ status = 503)%Z then Some (Ok applied, socket, w)
              else if negb (is_success status)
              then Some (Err (protocol_error ("peer " +:+ DeviceId_to_hex peer
                                +:+ " refused the v3 store sweep (HTTP " +:+ pretty status +:+ ")")), socket, w)
              else
                match verify_pull_page bs peer peer_sec1 with
                | Err e => Some (Err (protocol_error e), socket, w)
                | Ok page =>
                    if decide (pp_store page ≠ Some store) then Some (Ok applied, socket, w)
                    else
                      match decode_entries peer (pp_keyed page) with
                      | Err e => Some (Err e, socket, w)
                      | Ok ops =>
                          match admit_ops socket peer ops true true no_quantum () with
                          | (Err e, socket, _) => Some (Err e, socket, w)
                          | (Ok adm, socket, _) =>
                              let applied := applied + adm_admitted adm in
                              if bool_decide (is_Some (adm_error adm) ∨ pp_complete page = true)
                              then Some (Ok applied, socket, w)
                              else
                                let position := (λ r, (r_origin r, r_after_key r)) <$> pp_resume page in
                                if decide (position = last_resume)
                                then Some (Err (protocol_error ("v3 store sweep peer=" +:+ DeviceId_to_hex peer
                                             +:+ " returned a non-advancing resume")), socket, w)
                                else sweep_loop fuel socket w source peer peer_sec1 relay_cursor store
                                       applied (pp_resume page) position
                          end
                      end
                end
          end
      end
  end.

Definition sweep_store (fuel : nat) (socket : S) (w : W) (source : HttpPullSource) (peer : DeviceId)
    (peer_sec1 : barr 33) (relay_cursor : option RelayCursor) (store : string)
    : option (result E nat * S * W) :=
  sweep_loop fuel socket w source peer peer_sec1 relay_cursor store 0 None None.

(** ** The drain

    The locals of [drain_pull_pages].  [d_elapsed] answers, call by call,
    whether more than ten seconds passed since the last preview. *)
Record Drain : Type := mk_Drain {
  d_total : nat;
  d_resume : option Resume;
  d_reset_seen : bool;
  d_overridden : bool;
  d_pages : Z;
  d_stalled : Z;
  d_last_progress : option PullProgress;
  d_previewed : bool;
  d_preview_after : option Z;
  d_elapsed : list bool;
}.

Definition drain_start (elapsed : list bool) : Drain :=
  mk_Drain 0 None false false 0 0 None false None elapsed.

(** [preview_due(&last_preview)], and the clock readings left. *)
Definition preview_due (d : Drain) : bool * list bool :=
  if d_previewed d then
    match d_elapsed d with [] => (false, []) | b :: rest => (b, rest) end
  else (true, d_elapsed d).

(** The preview of one iteration: its failure is ignored. *)
Definition run_preview (socket : S) (w : W) (source : HttpPullSource) (peer : DeviceId)
    (peer_sec1 : barr 33) (relay_cursor : option RelayCursor) (head_seq : Z) (preview_after : option Z)
    : option Z * S * W :=
  let after_seq := preview_resume_after preview_after head_seq in
  match preview_head_window socket w source peer peer_sec1 relay_cursor after_seq with
  | (Ok (_, next_seq), socket, w) => (Some next_seq, socket, w)
  | (Err _, socket, w) => (preview_after, socket, w)
  end.

(** The state of the loop between iterations, or its answer. *)
Inductive DrainNext : Type :=
  | DrainDone (r : result E PullOutcome) (socket : S) (w : W) (cursor : option RelayCursor)
  | DrainMore (d : Drain) (socket : S) (w : W) (cursor : option RelayCursor).

(** The branch of a page that recommends a snapshot. *)
Definition drain_snapshot (socket : S) (w : W) (source : HttpPullSource) (peer : DeviceId)
    (peer_sec1 : barr 33) (cursor : option RelayCursor) (page : PullPage) (d : Drain) : DrainNext :=
  if d_overridden d
  then DrainDone (Err (protocol_error ("v3 pull peer=" +:+ DeviceId_to_hex peer
                    +:+ " kept recommending a snapshot on resumed requests"))) socket w cursor
  else
    let '(due, elapsed) := preview_due d in
    let '(previewed, preview_after, socket, w) :=
      if due && bool_decide (0 < pp_head_seq page)%Z then
        let '(pa, socket, w) :=
          run_preview socket w source peer peer_sec1 cursor (pp_head_seq page) (d_preview_after d) in
        (true, pa, socket, w)
      else (d_previewed d, d_preview_after d, socket, w) in
    DrainMore (mk_Drain (d_total d) (Some (mk_Resume Backfill (cursor_after cursor) "" ""))
                 (d_reset_seen d) true (d_pages d) (d_stalled d) (d_last_progress d)
                 previewed preview_after elapsed) socket w cursor.

(** The branch of a reset page. *)
Definition drain_reset (socket : S) (w : W) (peer : DeviceId) (cursor : option RelayCursor)
    (request : PullRequest) (page : PullPage) (epoch : barr 32) (d : Drain) : DrainNext :=
  if d_reset_seen d
  then DrainDone (Err (protocol_error ("v3 pull peer=" +:+ DeviceId_to_hex peer
                    +:+ " repeated its stream reset"))) socket w cursor
  else
    match persist_pull_reset socket peer request page epoch with
    | (Err e, socket) => DrainDone (Err e) socket w cursor
    | (Ok reset, socket) =>
        DrainMore (mk_Drain (d_total d) None true (d_overridden d) (d_pages d) (d_stalled d)
                     (d_last_progress d) (d_previewed d) (d_preview_after d) (d_elapsed d))
          socket w (Some reset)
    end.

(** After a data page was applied: the preview, and where to go next. *)
Definition drain_after_page (socket : S) (w : W) (source : HttpPullSource) (peer : DeviceId)
    (peer_sec1 : barr 33) (cursor : option RelayCursor) (resumed : bool) (page : PullPage) (d : Drain)
    : DrainNext :=
  let '(due, elapsed) := preview_due d in
  let '(previewed, preview_after, socket, w) :=
    if due && negb (pp_complete page) then
      let behind := saturating_sub_u64 (pp_head_seq page) (cursor_after cursor) in
      if decide (NEWEST_FIRST_PREVIEW_GAP < behind)%Z then
        let '(pa, socket, w) :=
          run_preview socket w source peer peer_sec1 cursor (pp_head_seq page) (d_preview_after d) in
        (true, pa, socket, w)
      else (true, d_preview_after d, socket, w)
    else (d_previewed d, d_preview_after d, socket, w) in
  if pp_complete page then
    if negb resumed then DrainDone (Ok (Applied (d_total d))) socket w cursor
    else DrainMore (mk_Drain (d_total d) None (d_reset_seen d) (d_overridden d) (d_pages d)
                      (d_stalled d) (d_last_progress d) previewed preview_after elapsed) socket w cursor
  else
    let progress := pull_progress cursor (pp_resume page) in
    let stalled := if decide (d_last_progress d = Some progress) then (d_stalled d + 1)%Z else 0%Z in
    if decide (d_last_progress d = Some progress ∧ PULL_NO_PROGRESS_LIMIT ≤ stalled)%Z
    then DrainDone (Err (protocol_error ("v3 pull peer=" +:+ DeviceId_to_hex peer +:+ " returned "
                      +:+ pretty stalled +:+ " pages without advancing"))) socket w cursor
    else DrainMore (mk_Drain (d_total d) (pp_resume page) (d_reset_seen d) (d_overridden d) (d_pages d)
                      stalled (Some progress) previewed preview_after elapsed) socket w cursor.

(** One turn of the loop of [drain_pull_pages]. *)
Definition drain_step (socket : S) (w : W) (source : HttpPullSource) (peer : DeviceId)
    (peer_sec1 : barr 33) (audit skip_unattested : bool) (cursor : option RelayCursor) (d : Drain)
    : DrainNext :=
  match local_coverage socket with
  | Err e => DrainDone (Err e) socket w cursor
  | Ok coverage =>
      let '(now, socket) := sock_now_ms socket in
      let request :=
        mk_PullRequest PULL_VERSION (to_wire_map coverage) (encode_hex (cursor_epoch cursor))
          (cursor_after cursor) (d_resume d) PULL_PAGE_LIMIT_MAX audit None now in
      let resumed := bool_decide (is_Some (pr_resume request)) in
      let '(hlc, socket) := next_hlc socket in
      match sign_pull_request request (local_identity socket) hlc with
      | Err e => DrainDone (Err (protocol_error e)) socket w cursor
      | Ok signed =>
          match pull_bytes w source signed with
          | (Err error, w) =>
              DrainDone (Err (protocol_error ("v3 pull from peer " +:+ DeviceId_to_hex peer +:+ ": "
                                +:+ TransportError_display error))) socket w cursor
          | (Ok (status, bs), w) =>
              if decide (status = 404 ∨ status = 405)%Z then DrainDone (Ok Unsupported) socket w cursor
              else if decide (status = 503)%Z then DrainDone (Ok Warming) socket w cursor
              else if negb (is_success status)
              then DrainDone (Err (protocol_error ("peer " +:+ DeviceId_to_hex peer
                     +:+ " refused the v3 pull (HTTP " +:+ pretty status +:+ "): " +:+ utf8_lossy_trim bs)))
                     socket w cursor
              else
                match verify_pull_page bs peer peer_sec1 with
                | Err e => DrainDone (Err (protocol_error e)) socket w cursor
                | Ok page =>
                    match decode_epoch (pp_epoch page) with
                    | None =>
                        DrainDone (Err (protocol_error ("v3 pull peer=" +:+ DeviceId_to_hex peer
                                     +:+ " returned an invalid stream epoch"))) socket w cursor
                    | Some epoch =>
                        if pp_snapshot_recommended page
                        then drain_snapshot socket w source peer peer_sec1 cursor page d
                        else if pp_reset page then drain_reset socket w peer cursor request page epoch d
                        else
                          match apply_pull_page socket peer cursor page skip_unattested with
                          | (Err e, socket, cursor) => DrainDone (Err e) socket w cursor
                          | (Ok n, socket, cursor) =>
                              let total := d_total d + n in
                              let pages := (d_pages d + 1)%Z in
                              let socket := on_pull_page_applied socket peer page pages total in
                              drain_after_page socket w source peer peer_sec1 cursor resumed page
                                (mk_Drain total (d_resume d) (d_reset_seen d) (d_overridden d) pages
                                   (d_stalled d) (d_last_progress d) (d_previewed d) (d_preview_after d)
                                   (d_elapsed d))
                          end
                    end
                end
          end
      end
  end.

(** [drain_pull_pages]; [None] is running out of fuel. *)
Fixpoint drain_loop (fuel : nat) (source : HttpPullSource) (peer : DeviceId) (peer_sec1 : barr 33)
    (audit skip_unattested : bool) (socket : S) (w : W) (cursor : option RelayCursor) (d : Drain)
    : option (result E PullOutcome * S * W * option RelayCursor) :=
  match fuel with
  | 0 => None
  | Datatypes.S fuel =>
      match drain_step socket w source peer peer_sec1 audit skip_unattested cursor d with
      | DrainDone r socket w cursor => Some (r, socket, w, cursor)
      | DrainMore d socket w cursor =>
          drain_loop fuel source peer peer_sec1 audit skip_unattested socket w cursor d
      end
  end.

Definition drain_pull_pages (fuel : nat) (socket : S) (w : W) (source : HttpPullSource) (peer : DeviceId)
    (peer_sec1 : barr 33) (cursor : option RelayCursor) (audit skip_unattested : bool)
    (elapsed : list bool) : option (result E PullOutcome * S * W * option RelayCursor) :=
  drain_loop fuel source peer peer_sec1 audit skip_unattested socket w cursor (drain_start elapsed).
End exchange.
End pull_client.
