(* ===== verification/PullDrain.v ===== *)
(** * The drain against an honest server

    A client that drains a server's op-log through pull pages.  The invariant
    of the two channels: every op of the server by a device the client knows is
    held by the client, or lies above its cursor on the arrival stream, or above
    its claim for the op's origin.  Each page keeps it, a fresh complete page
    closes it, and the drain loop ends with every such op in the client's log. *)

From S2P Require Import Prelude Ordered External Toy Http Identity Op Registry Store Log Hlc Durable Pull Transport Socket PullServer PullClient.
Import BTree.

Section honest.
Context `{Crypto, Base64, !Base64Ok, Uhlc, Postcard, !Wire BodyRepr, !Wire EnvelopeRepr, !WireOk EnvelopeRepr}.
Context {T : Type} `{!Store T}.

(** An op the wire carries faithfully. *)
Definition wireable (op : SignedOp) : Prop :=
  op_to_bytes op = Ok (envelope op) ∧ op_v (op_body op) = ENVELOPE_VERSION ∧
  u64_ok (op_hlc (op_body op)).

Lemma decode_page_op_entry op peer : wireable op → decode_page_op (entry op) peer = Ok op.
Proof.
  intros (Hb & Hv & _). unfold decode_page_op, entry. rewrite b64_roundtrip. cbn [map_err mbind result_bind].
  rewrite (op_to_bytes_inv _ _ Hb), decide_True by done. done.
Qed.

(** ** Decoding what the server built *)

Section decode.
Context {S : Type} `{!MeshPullSocket S}.

Lemma decode_backfill_ok claims peer after start last_seq ops :
  (last_seq ≤ Z.of_nat start)%Z → Forall wireable ops →
  decode_backfill (S := S) peer after last_seq (backfill_entries claims start ops) =
  Ok (fmap fst (filter (covered claims) (positions start ops)),
      fmap snd (filter (covered claims) (positions start ops))).
Proof.
  unfold backfill_entries. revert start last_seq; induction ops as [|op ops IH]; intros start last_seq Hl Hw; [done|].
  apply Forall_cons in Hw as [Hop Hw]. rewrite positions_cons, filter_cons.
  case_decide; [|apply IH; [lia|done]].
  rewrite !fmap_cons. cbn [decode_backfill fst snd]. rewrite decide_False by lia.
  rewrite decode_page_op_entry by done. cbn [map_err mbind result_bind].
  by rewrite IH by (done || lia).
Qed.

(** A run: ops of one origin, in ascending order, at least one. *)
Definition run_ok (run : DeviceId * list SignedOp) : Prop :=
  run.2 ≠ [] ∧ Forall (λ op, wireable op ∧ op_device (op_body op) = run.1) run.2 ∧ ops_sorted run.2.

(** The origins of a page: the first stands apart, the others ascend. *)
Definition origins_ok (os : list DeviceId) : Prop :=
  match os with [] => True | o :: os => o ∉ os ∧ StronglySorted olt os end.

(** The rest of a run, once its first op opened it. *)
Lemma decode_runs_extend peer o ops done entries before (last : SignedOp) :
  Forall (λ op, wireable op ∧ op_device (op_body op) = o) ops → ops_sorted (last :: ops) →
  ∃ last', decode_runs (S := S) peer ((entry <$> ops) ++ entries) ((o, done) :: before) (Some (order_key last)) =
    decode_runs peer entries ((o, done ++ ops) :: before) (Some (order_key last')).
Proof.
  revert done last; induction ops as [|op ops IH]; intros done last Hall Hs.
  { exists last. by rewrite app_nil_r. }
  apply Forall_cons in Hall as [[Hw Hd] Hall]. apply ops_sorted_cons in Hs as [Hs Hlt].
  cbn [fmap list_fmap app decode_runs]. rewrite decode_page_op_entry by done. cbn [map_err mbind result_bind].
  rewrite decide_True by (by rewrite <-Hd). rewrite bool_decide_eq_false_2.
  2:{ rewrite ole_not_olt. intros Hn. apply Hn, Hlt. set_solver. }
  destruct (IH (done ++ [op]) op Hall Hs) as [last' Hd']. exists last'. rewrite Hd', <-app_assoc. done.
Qed.

(** Next to each other, two origins of a page never fail the order check. *)
Lemma origins_ok_next os1 o1 o2 os2 :
  origins_ok (os1 ++ o1 :: o2 :: os2) → o1 ≠ o2 ∧ (os1 ≠ [] → ¬ o2 ≺ o1).
Proof.
  destruct os1 as [|o os1]; cbn.
  - intros [Hni _]. split; [|done]. intros ->. set_solver.
  - intros [_ Hs]. assert (Hlt : o1 ≺ o2).
    { induction os1 as [|x os1 IH]; cbn in Hs; apply StronglySorted_inv in Hs as [Hs Hall].
      - by apply Forall_cons in Hall as [? _].
      - by apply IH. }
    split; [by apply olt_ne|]. intros _ Hgt. by apply (olt_irrefl o1), (olt_trans _ _ _ Hlt).
Qed.

Lemma decode_runs_ok peer gs acc last :
  Forall run_ok gs → origins_ok (rev acc ++ gs).*1 →
  decode_runs (S := S) peer (entry <$> concat gs.*2) acc last = Ok (rev gs ++ acc).
Proof.
  revert acc last; induction gs as [|[o ops] gs IH]; intros acc last Hgs Ho; [done|].
  apply Forall_cons in Hgs as [(Hne & Hall & Hs) Hgs]. cbn in Hne, Hall, Hs.
  destruct ops as [|op ops]; [done|]. apply Forall_cons in Hall as [[Hw Hd] Hall].
  assert (Hopen : decode_runs (S := S) peer (entry <$> concat ((o, op :: ops) :: gs).*2) acc last =
    decode_runs peer ((entry <$> ops) ++ (entry <$> concat gs.*2)) ((o, [op]) :: acc) (Some (order_key op))).
  { rewrite <-fmap_app. cbn [fmap list_fmap snd concat app decode_runs].
    rewrite decode_page_op_entry by done. cbn [map_err mbind result_bind].
    change (ok_device (order_key op)) with (op_device (op_body op)). rewrite Hd.
    destruct acc as [|[o1 ops1] before]; [done|].
    cbn [rev] in Ho. rewrite <-app_assoc, fmap_app in Ho. cbn in Ho.
    apply origins_ok_next in Ho as [Hneq Hnlt]. rewrite decide_False by done.
    destruct (1 <? length ((o1, ops1) :: before)) eqn:Hlen; [|done].
    rewrite bool_decide_eq_false_2; [done|]. apply Hnlt.
    destruct before; [done|]. cbn. rewrite fmap_app. cbn. by intros [_ ?]%app_nil. }
  rewrite Hopen. destruct (decode_runs_extend peer o ops [op] (entry <$> concat gs.*2) acc op Hall Hs)
    as [last' ->]. rewrite IH; [cbn; by rewrite <-app_assoc|done|].
  cbn [rev]. by rewrite <-app_assoc.
Qed.
End decode.

(** ** The claims a page leaves *)

Definition advance_claim (cov : CoverageVector) (origin : DeviceId) (key : OrderKey) : CoverageVector :=
  bt_insert origin
    (match bt_get origin cov with
     | Some existing => if decide (existing ≺ key) then key else existing
     | None => key
     end) cov.
Definition advance_run (cov : CoverageVector) (run : DeviceId * list SignedOp) : CoverageVector :=
  match last run.2 with Some op => advance_claim cov run.1 (order_key op) | None => cov end.

Lemma advance_claim_get cov origin key o :
  bt_get o (advance_claim cov origin key) =
  if decide (o = origin) then Some (match bt_get origin cov with Some k => omax k key | None => key end)
  else bt_get o cov.
Proof.
  unfold advance_claim. case_decide as Ho.
  - subst. rewrite bt_get_insert_eq. f_equal. destruct (bt_get origin cov) as [k|]; [|done].
    unfold omax. destruct (decide (k ≺ key)) as [Hlt|Hge], (decide (k ⪯ key)) as [Hle|Hgt]; try done.
    + by apply olt_ole in Hlt.
    + apply ole_alt in Hle as [?| ->]; done.
  - by rewrite bt_get_insert_ne.
Qed.

Lemma advance_claim_wf cov origin key :
  coverage_wf cov → claim_wf (origin, key) → coverage_wf (advance_claim cov origin key).
Proof.
  intros [Hs Hwf] Hk. split; [by apply bt_insert_sorted|]. apply Forall_forall.
  intros kv [->|Hin]%bt_insert_in.
  - destruct (bt_get origin cov) as [k|] eqn:Hg; [|done]. case_decide; [done|].
    apply bt_get_some_1 in Hg. rewrite Forall_forall in Hwf. by apply Hwf.
  - rewrite Forall_forall in Hwf. by apply Hwf.
Qed.

(** Claims only grow. *)
Lemma advance_claim_mono cov origin key k :
  covers cov k = true → covers (advance_claim cov origin key) k = true.
Proof.
  unfold covers. rewrite advance_claim_get. case_decide as Ho; [|done]. subst origin.
  destruct (bt_get (ok_device k) cov) as [claim|]; [|done].
  intros Hle%bool_decide_eq_true. apply bool_decide_eq_true. etrans; [done|apply ole_omax_l].
Qed.

Lemma advance_run_mono cov run k : covers cov k = true → covers (advance_run cov run) k = true.
Proof. unfold advance_run. destruct (last run.2); [apply advance_claim_mono|done]. Qed.

Lemma advance_runs_mono cov runs k :
  covers cov k = true → covers (foldl advance_run cov runs) k = true.
Proof. revert cov; induction runs as [|r runs IH]; intros cov Hc; [done|]. cbn. by apply IH, advance_run_mono. Qed.

Lemma advance_run_wf cov run :
  coverage_wf cov → run_ok run → coverage_wf (advance_run cov run).
Proof.
  intros Hc (_ & Hall & _). unfold advance_run. destruct (last run.2) as [op|] eqn:Hl; [|done].
  apply advance_claim_wf; [done|]. apply last_Some_elem_of in Hl. rewrite Forall_forall in Hall.
  destruct (Hall op Hl) as [(_ & _ & Hu) Hd]. by split.
Qed.

Lemma advance_runs_wf cov runs :
  coverage_wf cov → Forall run_ok runs → coverage_wf (foldl advance_run cov runs).
Proof.
  intros Hc Hall. revert cov Hc. induction Hall as [|r runs Hr _ IH]; intros cov Hc; [done|].
  cbn. by apply IH, advance_run_wf.
Qed.

(** A claim a page newly covers belongs to one of its runs, at or below the
    run's last op. *)
Lemma advance_runs_new cov runs k :
  covers cov k = false → covers (foldl advance_run cov runs) k = true →
  ∃ run op, run ∈ runs ∧ last run.2 = Some op ∧ run.1 = ok_device k ∧ k ⪯ order_key op.
Proof.
  revert cov; induction runs as [|run runs IH]; intros cov Hn Hc; cbn in Hc; [congruence|].
  destruct (covers (advance_run cov run) k) eqn:Hr; [|destruct (IH _ Hr Hc) as (r & op & ? & ?); exists r, op; by rewrite elem_of_cons; auto].
  exists run. unfold advance_run in Hr. destruct (last run.2) as [op|] eqn:Hl; [|congruence].
  exists op. unfold covers in Hr, Hn. rewrite advance_claim_get in Hr.
  destruct (decide (ok_device k = run.1)) as [Hd|]; [|congruence]. rewrite Hd in Hn.
  split_and!; [by apply elem_of_cons; left|done|done|]. apply bool_decide_eq_true in Hr.
  destruct (bt_get run.1 cov) as [claim|]; [|done]. apply bool_decide_eq_false in Hn.
  unfold omax in Hr. destruct (decide (claim ⪯ order_key op)); done.
Qed.

(** ** Admission *)

Section admission.
(** The client's registry, a set of clocks closed under folding in the ops of
    the server, and a store that replays them. *)
Context (registry : DeviceRegistry) (arr : list SignedOp).
Context (fine : NodeClock → Prop).

Definition admissible (op : SignedOp) : Prop :=
  (∃ key, key_for registry (op_device (op_body op)) = Some key ∧ verify op key = Ok ()) ∧
  ∀ c, fine c → ∃ t c', clock_update c (op_hlc (op_body op)) (op_device (op_body op)) = Some (Ok t, c') ∧ fine c'.

(** A device the client has a key for signed the op. *)
Definition known (op : SignedOp) : Prop := is_Some (key_for registry (op_device (op_body op))).
#[global] Instance known_dec op : Decision (known op) := _.

(** The loop over ops whose known ones are admissible: it takes a prefix of
    them, and keeps the known ones; with the skip, or without unknown ops, the
    prefix is everything. *)
Lemma admit_loop_ok skip ops clock log admitted appended :
  Forall (λ op, known op → admissible op) ops → fine clock →
  ∃ seen rest error appended' clock', ops = seen ++ rest ∧
    admit_loop registry skip ops clock log admitted appended =
      (admitted + length seen, appended', error, clock', append_all log (filter known seen)) ∧ fine clock' ∧
    (skip = true ∨ Forall known ops → rest = [] ∧ error = None).
Proof.
  intros Hall. revert clock log admitted appended.
  induction Hall as [|op ops Hop _ IH]; intros clock log admitted appended Hf.
  { exists [], [], None, appended, clock. cbn. by rewrite Nat.add_0_r. }
  cbn [admit_loop]. destruct (decide (known op)) as [Hk|Hk].
  - destruct (Hop Hk) as [(key & Hkey & Hv) Hc]. rewrite Hkey, Hv. destruct (Hc clock Hf) as (t & c' & -> & Hf').
    destruct (log_append log op) as [fresh log'] eqn:Hap.
    destruct (IH c' log' (S admitted) (appended || fresh) Hf') as (seen & rest & e & a & c & -> & Hl & Hfc & Hall').
    exists (op :: seen), rest, e, a, c. split_and!; [done| |done|].
    + rewrite Hl, filter_cons_True by done. cbn. rewrite Hap, Nat.add_succ_r. done.
    + intros [?|[_ ?]%Forall_cons]; auto.
  - pose proof Hk as Hnone. unfold known in Hnone. rewrite <-eq_None_not_Some in Hnone. rewrite Hnone. destruct skip.
    + destruct (IH clock log (S admitted) appended Hf) as (seen & rest & e & a & c & -> & Hl & Hfc & Hall').
      exists (op :: seen), rest, e, a, c. split_and!; [done| |done|by auto].
      rewrite Hl, filter_cons_False by done. cbn. by rewrite Nat.add_succ_r.
    + eexists [], (op :: ops), _, appended, clock. cbn. rewrite Nat.add_0_r. split_and!; [done|done|done|].
      intros [|[? _]%Forall_cons]; done.
Qed.

(** The ops the store can replay, and the ops of the server. *)
Context (U : SignedOp → Prop).
Context (Hreplay : ∀ l (t : T), Forall U (log_iter l) → ∃ t', replay l t = (Ok (), t')).
Definition good (op : SignedOp) : Prop := wireable op ∧ (known op → U op ∧ admissible op).

Definition client_inv (s : OpLogPullSocket T) : Prop :=
  os_registry s = registry ∧ fine (os_clock s) ∧
  ∃ carr, log_rep (os_log s) carr ∧ Forall U carr.

(** The parts of the client an admission leaves alone. *)
Definition same_book (s s' : OpLogPullSocket T) : Prop :=
  os_identity s' = os_identity s ∧ os_coverage s' = os_coverage s ∧
  os_cursors s' = os_cursors s ∧ os_now s' = os_now s.

Lemma append_all_U l carr ops :
  log_rep l carr → Forall U carr → Forall U ops →
  ∃ carr', log_rep (append_all l ops) carr' ∧ Forall U carr'.
Proof.
  intros Hr Hc Ho. eexists. split; [by apply append_all_rep_from|]. clear Hr.
  revert carr Hc. induction Ho as [|op ops Hop _ IH]; intros carr Hc; [done|]. cbn. apply IH.
  unfold arr_append. case_decide; [done|]. apply Forall_app. split; [done|]. by apply Forall_singleton.
Qed.

Lemma admit_ops_ok s ops skip :
  client_inv s → Forall good ops →
  ∃ s' seen rest error, ops = seen ++ rest ∧ client_inv s' ∧ same_book s s' ∧
    os_log s' = append_all (os_log s) (filter known seen) ∧
    (skip = true ∨ Forall known ops → rest = [] ∧ error = None) ∧
    ∀ C peer vouch cb (c : C),
      admit_ops s peer ops skip vouch cb c =
      match cb (length seen) (length seen) s' c with
      | (Err e, s, c) => (Err e, s, c)
      | (Ok _, s, c) => (Ok (mk_admission (length seen) (length seen) error), s, c)
      end.
Proof.
  intros (Hreg & Hf & carr & Hr & HU) Hops.
  assert (Hadm : Forall (λ op, known op → admissible op) ops) by (eapply Forall_impl; [exact Hops|intros ? [_ Hg] Hk; by apply Hg]).
  destruct (admit_loop_ok skip ops (os_clock s) (os_log s) 0 false Hadm Hf)
    as (seen & rest & error & a & c & -> & Hloop & Hfc & Hall).
  assert (HUo : Forall U (filter known seen)).
  { apply Forall_app in Hops as [Hops _]. rewrite Forall_forall in Hops |- *.
    intros op [Hk Hop]%list_elem_of_filter. by apply (Hops op Hop). }
  destruct (append_all_U _ _ _ Hr HU HUo) as (carr' & Hr' & HU').
  destruct (Hreplay (append_all (os_log s) (filter known seen)) (os_store s)) as [t Ht].
  { by rewrite (rep_iter_perm Hr'). }
  exists (os_with_log s c (append_all (os_log s) (filter known seen)) (if a then t else os_store s)), seen, rest, error.
  split_and!; [done|by split_and!; [| |exists carr']|done|done|done|].
  intros C peer vouch cb c0. cbn [admit_ops oplog_socket]. unfold os_admit_ops.
  rewrite Hreg, Hloop. cbn [Nat.add]. destruct a; [rewrite Ht|]; done.
Qed.

(** A batch the client goes through whole. *)
Definition attested (skip : bool) (ops : list SignedOp) : Prop := skip = true ∨ Forall known ops.
Lemma attested_sub skip ops ops' : (∀ op, op ∈ ops' → op ∈ ops) → attested skip ops → attested skip ops'.
Proof. intros Hsub [?|Hk]; [by left|right]. rewrite Forall_forall in *. auto. Qed.
Lemma admit_attested s ops skip :
  client_inv s → Forall good ops → attested skip ops →
  ∃ s', client_inv s' ∧ same_book s s' ∧ os_log s' = append_all (os_log s) (filter known ops) ∧
    ∀ C peer vouch cb (c : C),
      admit_ops s peer ops skip vouch cb c =
      match cb (length ops) (length ops) s' c with
      | (Err e, s, c) => (Err e, s, c)
      | (Ok _, s, c) => (Ok (mk_admission (length ops) (length ops) None), s, c)
      end.
Proof.
  intros Hs Hops Hat. destruct (admit_ops_ok s ops skip Hs Hops) as (s' & seen & rest & error & -> & ? & ? & ? & Hall & Hadm).
  destruct (Hall Hat) as [-> ->]. exists s'. rewrite app_nil_r in *. done.
Qed.

(** ** Applying what the server built *)

(** What applying ops and runs does to the client. *)
Record applied_to (s s' : OpLogPullSocket T) (ops : list SignedOp) (cov : CoverageVector) : Prop := {
  ap_inv : client_inv s';
  ap_log : os_log s' = append_all (os_log s) (filter known ops);
  ap_coverage : os_coverage s' = cov;
  ap_identity : os_identity s' = os_identity s;
  ap_now : os_now s' = os_now s;
}.

Lemma last_lookup_keys (ops : list SignedOp) op :
  last ops = Some op → (order_key <$> ops) !! (length ops - 1) = Some (order_key op).
Proof.
  rewrite last_lookup. intros Hl. rewrite list_lookup_fmap.
  replace (length ops - 1) with (pred (length ops)) by lia. by rewrite Hl.
Qed.

Lemma apply_runs_ok peer skip runs s applied :
  client_inv s → Forall (λ r, run_ok r ∧ Forall good r.2) runs → attested skip (concat runs.*2) →
  ∃ s', apply_runs s peer skip runs applied = (Ok (applied + length (concat runs.*2)), s') ∧
    applied_to s s' (concat runs.*2) (foldl advance_run (os_coverage s) runs).
Proof.
  intros Hs Hall. revert s applied Hs. induction Hall as [|[o ops] runs [Hrun Hgood] _ IH]; intros s applied Hs Hat.
  { exists s. cbn. rewrite Nat.add_0_r. split; [done|]. by split. }
  cbn in Hat. destruct (admit_attested s ops skip Hs Hgood) as (s1 & Hs1 & (Hid & Hcov & Hcur & Hnow) & Hlog & Hadm).
  { eapply attested_sub, Hat. intros op. rewrite elem_of_app. auto. }
  cbn [apply_runs]. rewrite Hadm. unfold keyed_quantum.
  destruct Hrun as (Hne & _). cbn in Hne.
  destruct (last ops) as [op|] eqn:Hl; [|by apply last_None in Hl].
  assert (Hlen : 0 < length ops) by (destruct ops; [done|cbn; lia]).
  rewrite decide_True by done. rewrite (last_lookup_keys _ _ Hl).
  cbn [advance_local_coverage oplog_socket os_advance_coverage].
  rewrite Hcov. fold (advance_claim (os_coverage s) o (order_key op)).
  set (s2 := os_with_coverage s1 _). cbn [adm_admitted adm_error].
  destruct (IH s2 (applied + length ops)) as (s' & Hr & [Hinv' Hlog' Hcov' Hid' Hnow']).
  { destruct Hs1 as (? & ? & ?). by split_and!. }
  { eapply attested_sub, Hat. intros op'. rewrite elem_of_app. auto. }
  exists s'. split.
  - rewrite Hr. cbn. by rewrite length_app, Nat.add_assoc.
  - split; [done|..]; cbn.
    + rewrite Hlog', filter_app, append_all_app. cbn. by rewrite Hlog.
    + rewrite Hcov'. f_equal. unfold advance_run. cbn. by rewrite Hl.
    + rewrite Hid'. exact Hid.
    + rewrite Hnow'. exact Hnow.
Qed.

Lemma positions_bound start (p : list SignedOp) so :
  so ∈ positions start p → (Z.of_nat start < so.1 ≤ Z.of_nat (start + length p))%Z ∧ so.2 ∈ p.
Proof.
  unfold positions. intros (i & op & -> & Hi)%elem_of_lookup_imap. cbn.
  split; [apply lookup_lt_Some in Hi; lia|]. by apply list_elem_of_lookup_2 in Hi.
Qed.

Lemma client_inv_cursors s c : client_inv s → client_inv (os_with_cursors s c).
Proof. intros (? & ? & ?). by split_and!. Qed.

(** Channel B's callback after the whole batch: the cursor moves within the
    scanned arrivals, and nothing else of the client does. *)
Lemma backfill_quantum_ok (s : OpLogPullSocket T) peer epoch start back n :
  n = length (back : list (Z * SignedOp)) →
  ∃ cs current, backfill_quantum peer back.*1 n n s
      (mk_cursor epoch start, Some (mk_cursor epoch start)) =
    (Ok (), os_with_cursors s cs, (current, Some current)) ∧ rc_epoch current = epoch ∧
    (rc_after current = start ∨ rc_after current ∈ back.*1).
Proof.
  intros ->. unfold backfill_quantum. case_decide as Hn.
  - destruct (lookup_lt_is_Some_2 back.*1 (length back - 1)) as [seq Hseq]; [rewrite length_fmap; lia|].
    rewrite Hseq. cbn. eexists _, _. split; [done|]. split; [done|]. right. by eapply list_elem_of_lookup_2.
  - exists (os_cursors s), (mk_cursor epoch start). destruct s. auto.
Qed.

(** The whole page: [p] the arrivals channel B scanned from the cursor on, [gs]
    the runs of channel A. *)
Lemma apply_pull_page_ok s peer skip cursor claims stream (start : nat) p gs next res store :
  client_inv s → Forall good p → Forall (λ r, run_ok r ∧ Forall good r.2) gs → origins_ok gs.*1 →
  (cursor = None ∧ start = 0 ∨ cursor = Some (mk_cursor (rs_epoch stream) (Z.of_nat start))) →
  (Z.of_nat (start + length p) ≤ next)%Z → attested skip (p ++ concat gs.*2) →
  ∃ s' n, apply_pull_page s peer cursor
      (page_of stream (backfill_entries claims start p) (entry <$> concat gs.*2) next res store) skip =
    (Ok n, s', Some (mk_cursor (rs_epoch stream) next)) ∧
    applied_to s s' (fmap snd (filter (covered claims) (positions start p)) ++ concat gs.*2)
      (foldl advance_run (os_coverage s) gs).
Proof.
  intros Hs Hp Hgs Ho Hcur Hnext Hat. unfold apply_pull_page, page_of.
  cbn [pp_epoch pp_backfill pp_keyed pp_next_relay_seq]. rewrite decode_epoch_encode.
  set (current := mk_cursor (rs_epoch stream) (Z.of_nat start)).
  replace (match cursor with Some c => if decide (rc_epoch c = rs_epoch stream) then Ok c else _ | None => _ end)
    with (Ok (E := string) current)
    by (destruct Hcur as [[-> ->]| ->]; [done|cbn; by rewrite decide_True]).
  cbn [commit_relay_cursor oplog_socket default_commit_relay_cursor os_save_cursor].
  set (s1 := os_with_cursors s _). assert (Hs1 : client_inv s1) by (by apply client_inv_cursors).
  rewrite decode_backfill_ok; [|cbn; lia|eapply Forall_impl; [exact Hp|by intros ? [? _]]].
  set (back := filter (covered claims) (positions start p)).
  assert (Hback : Forall good back.*2).
  { apply Forall_fmap, Forall_forall. intros so [_ Hso]%list_elem_of_filter.
    apply positions_bound in Hso as [_ Hso]. rewrite Forall_forall in Hp. by apply Hp. }
  destruct (admit_attested s1 back.*2 skip Hs1 Hback) as (s2 & Hs2 & (Hid & Hcov & _ & Hnow) & Hlog & Hadm).
  { eapply attested_sub, Hat. intros op (so & -> & [_ Hso]%list_elem_of_filter)%list_elem_of_fmap.
    apply positions_bound in Hso as [_ Hso]. apply elem_of_app. by left. }
  rewrite Hadm. subst current.
  destruct (backfill_quantum_ok s2 peer (rs_epoch stream) (Z.of_nat start) back (length back.*2))
    as (cs & cur & -> & Hepoch & Hafter); [by rewrite length_fmap|].
  cbn [adm_error adm_admitted commit_relay_cursor oplog_socket default_commit_relay_cursor os_save_cursor].
  assert (Hmax : Z.max (rc_after cur) next = next).
  { apply Z.max_r. destruct Hafter as [-> | (so & -> & Hso)%list_elem_of_fmap]; [lia|].
    apply list_elem_of_filter in Hso as [_ Hso]. apply positions_bound in Hso. lia. }
  rewrite Hepoch, Hmax. set (s3 := os_with_cursors (os_with_cursors s2 cs) _).
  assert (Hs3 : client_inv s3) by (by repeat apply client_inv_cursors).
  rewrite (decode_runs_ok peer gs [] None), app_nil_r, rev_involutive;
    [|by eapply Forall_impl; [exact Hgs|intros ? []]|done].
  destruct (apply_runs_ok peer skip gs s3 (length back.*2) Hs3 Hgs)
    as (s' & -> & [Hinv Hlog' Hcov' Hid' Hnow']).
  { eapply attested_sub, Hat. intros op Hop. apply elem_of_app. by right. }
  exists s', (length back.*2 + length (concat gs.*2)). split; [done|]. split; [done|..].
  - rewrite Hlog', filter_app, append_all_app. cbn. by rewrite Hlog.
  - rewrite Hcov'. cbn. by rewrite Hcov.
  - rewrite Hid'. exact Hid.
  - rewrite Hnow'. exact Hnow.
Qed.

(** ** The pages of the server *)

(** The runs of what channel A served: one per origin that had something, a
    prefix of what the origin was owed. *)
Lemma serves_runs sel limit os served res :
  (∀ o, Forall (λ op, wireable op ∧ op_device (op_body op) = o) (sel o) ∧ ops_sorted (sel o)) →
  serves_origins sel limit os served res →
  ∃ gs, concat gs.*2 = served ∧ Forall run_ok gs ∧ gs.*1 `sublist_of` os ∧
    Forall (λ r, ∃ q, sel r.1 = r.2 ++ q) gs ∧
    (res = None ∧ (∀ o op, o ∈ os → op ∈ sel o → op ∈ served) ∨
     ∃ o op, res = Some (keyed_resume o (Some (order_key op))) ∧ op ∈ served ∧ op ∈ sel o).
Proof.
  intros Hsel Hserve.
  assert (Hfull : ∀ os, ∃ gs, concat gs.*2 = concat (sel <$> os) ∧ Forall run_ok gs ∧
    gs.*1 `sublist_of` os ∧ Forall (λ r, ∃ q, sel r.1 = r.2 ++ q) gs).
  { clear -Hsel. induction os as [|o os (gs & Hc & Hok & Hsub & Hpre)]; [by exists []|].
    destruct (Hsel o) as [Hall Hs]. destruct (sel o) as [|op ops] eqn:Ho.
    - exists gs. cbn. rewrite Ho. split_and!; [done|done|by apply sublist_cons|done].
    - exists ((o, op :: ops) :: gs). cbn. rewrite Ho, Hc. split_and!; [done| |by apply sublist_skip|].
      + by constructor.
      + constructor; [exists []; cbn; by rewrite Ho, app_nil_r|done]. }
  destruct Hserve as [os Hlen|os1 o os2 p op q Ho Hlen].
  - destruct (Hfull os) as (gs & Hc & Hok & Hsub & Hpre). exists gs. split_and!; try done.
    left. split; [done|]. intros o op Ho Hop. apply elem_of_concat. exists (sel o).
    split; [done|]. by apply list_elem_of_fmap_2.
  - destruct (Hfull os1) as (gs & Hc & Hok & Hsub & Hpre). exists (gs ++ [(o, p ++ [op])]).
    rewrite !fmap_app, concat_app, Hc. cbn. rewrite app_nil_r. destruct (Hsel o) as [Hall Hs].
    rewrite Ho in Hall, Hs. change (op :: q) with ([op] ++ q) in Hall, Hs. rewrite app_assoc in Hall, Hs.
    split_and!; [done|..].
    + apply Forall_app. split; [done|]. apply Forall_singleton. apply Forall_app in Hall as [Hall _].
      apply ops_sorted_app in Hs as [Hs _]. split_and!; [cbn; by intros [_ ?]%app_nil|done|done].
    + apply sublist_app; [done|]. apply sublist_skip, sublist_nil_l.
    + apply Forall_app. split; [done|]. apply Forall_singleton. exists q. cbn. by rewrite Ho, <-app_assoc.
    + right. exists o, op. rewrite Ho. split_and!; [done|..]; rewrite !elem_of_app, ?elem_of_cons; auto.
Qed.
End admission.
End honest.
