(* ===== verification/RelayExchange.v ===== *)
(** * The relay over a network

    A client and a serving node joined by a network that delivers: what
    [fetch_relay_ops] reads is what [get_relay_ops] serves, and a round of
    [sync_relay_once] accepts the arrivals of its page up to the first one the
    client's registry does not attest. *)

From stdpp Require Import pretty.
From S2P Require Import Prelude Ordered External Toy Http Identity Op Registry Store Log Durable Hlc Pull Transport Relay Watch Socket PullServer PullClient PullDrain Server Client Sync.
Import BTree.

(** ** The network *)

(** [axum]'s routing: the route, with its extracted query, that a URL of the
    server at a base URL addresses. *)
Class Routing := { route_of : string → string → option Route }.

(** A URL the client prints is routed with the values it was printed from. *)
Class RoutingOk `{Routing} (base : string) : Prop :=
  route_relay_ops limit cursor :
    u64_ok (rc_after cursor) → (0 ≤ limit < 65536)%Z →
    route_of base (relay_ops_url (mk_source base limit) cursor) =
      Some (RtRelayOps (mk_RelayOpsQuery (encode_hex (rc_epoch cursor)) (rc_after cursor) limit)).

Definition reply_of (r : Response) : HttpReply :=
  mk_reply (resp_status r) (resp_headers r) (Some (len (resp_body r))) (Ok (resp_body r)).

Section net.
Context `{Crypto, Postcard, !Wire BodyRepr, !Wire EnvelopeRepr, !Wire RelayResponse, !Wire IdentityResp,
          !Wire PullResponse, !Wire DevicesResp, Routing} {L D : Type} `{!LogSource L, !DeviceBook D}.

(** The server behind a base URL, with what its parked watches would answer. *)
Record RelayNet : Type := mk_relay_net {
  rn_base : string;
  rn_server : ServeState L D;
  rn_park_head : OrderKey → Z → OrderKey;
  rn_park_relay : barr 32 → Z → Z → result string (option RelayStreamState);
}.
Definition rn_with_server (n : RelayNet) (s : ServeState L D) : RelayNet :=
  mk_relay_net (rn_base n) s (rn_park_head n) (rn_park_relay n).

Definition relay_net_get (n : RelayNet) (url : string) (headers : list (string * string))
    : result string HttpReply * RelayNet :=
  match route_of (rn_base n) url with
  | None => (Ok (reply_of (status_response NOT_FOUND)), n)
  | Some route =>
      let '(resp, s) :=
        router (ss_log (rn_server n)) (rn_park_head n) (rn_park_relay n) (rn_server n) route headers in
      (Ok (reply_of resp), rn_with_server n s)
  end.
#[export] Instance relay_net_world : HttpWorld RelayNet := {|
  http_get := relay_net_get;
  http_post := λ n _ _, (Ok (reply_of (status_response NOT_FOUND)), n);
|}.
End net.
Arguments RelayNet {_} L D.

Section exchange.
Context `{Crypto, !CryptoOk, Postcard, !Wire BodyRepr, !Wire EnvelopeRepr, !WireOk EnvelopeRepr,
          !Wire RelayResponse, !WireOk RelayResponse, !Wire IdentityResp, !Wire PullResponse,
          !Wire DevicesResp, StatusText}.
Context {L D : Type} `{!LogSource L, !DeviceBook D} (lrep : L → list SignedOp → Prop) `{!LogSourceOk L lrep}.

(** ** The scene: the server [ssk] and its log, the client [csk] it knows *)

Context (ssk csk : SigningKey) (arr : list SignedOp) (stream : RelayStreamState).
Notation server := (from_signing ssk).
Notation client := (from_signing csk).

Record relay_server (s : ServeState L D) : Prop := {
  rv_identity : ss_identity s = server;
  rv_log : lrep (ss_log s) arr;
  rv_stream : src_relay_state (ss_log s) = Ok (Some stream);
  rv_caller : try_key_for_device (ss_relay_callers s) (device_id client) = Ok (Some (public_key_sec1 client));
}.

Context (Hbounds : (len arr < u64_modulus)%Z).

(** Every op of the server has an envelope a current client reads, and every
    response has an encoding. *)
Definition encodable (op : SignedOp) : Prop :=
  op_v (op_body op) = ENVELOPE_VERSION ∧ ∃ bs, op_to_bytes op = Ok bs.
Context (Hops : Forall encodable arr).
Context (Hresponse : ∀ r : RelayResponse, ∃ body, to_allocvec r = Ok body).

Lemma stream_ok s : relay_server s →
  rs_epoch stream ≠ zeros 32 ∧ rs_head stream = len arr ∧ rs_floor stream = 0%Z.
Proof.
  intros [_ Hl Hs _]. destruct (src_relay_state_ok _ _ Hl) as (st & Hst & ?). rewrite Hs in Hst. by simplify_eq.
Qed.

Lemma stream_valid s : relay_server s → valid_relay_state stream = true.
Proof.
  intros (He & Hh & Hf)%stream_ok. unfold valid_relay_state. rewrite Hh, Hf.
  rewrite bool_decide_eq_false_2, bool_decide_eq_true_2 by (done || apply len_nonneg). done.
Qed.

(** A cursor the stream has is at a position of the log. *)
Lemma cursor_position s epoch after :
  relay_server s → (0 ≤ after)%Z → (epoch = zeros 32 → after = 0%Z) →
  relay_needs_reset epoch after stream = false →
  (epoch = zeros 32 ∨ epoch = rs_epoch stream) ∧ (after ≤ len arr)%Z.
Proof.
  intros (He & Hh & Hf)%stream_ok Hpos Hz. unfold relay_needs_reset. rewrite Hh, Hf.
  rewrite !orb_false_iff, !andb_false_iff, !negb_false_iff, !bool_decide_eq_true, !bool_decide_eq_false.
  pose proof (len_nonneg arr). intros [[_ [Hep|Hep]] Hafter].
  - rewrite (Hz Hep). split; [by left|lia].
  - split; [by right|]. destruct Hafter as [|[_ ?]%orb_false_iff]; [done|].
    rewrite bool_decide_eq_false in *. lia.
Qed.

(** ** Entries *)

Lemma numbered_seq start ops :
  re_seq <$> numbered start ops = seqZ (Z.of_nat start + 1) (len ops).
Proof.
  unfold numbered. revert start; induction ops as [|op ops IH]; intros start; [done|].
  rewrite imap_cons, fmap_cons, len_cons, seqZ_cons by (pose proof (len_nonneg ops); lia).
  f_equal; [cbn; lia|]. replace (Z.pred (1 + len ops)) with (len ops) by lia.
  replace (Z.succ (Z.of_nat start + 1)) with (Z.of_nat (S start) + 1)%Z by lia.
  rewrite <-IH. f_equal. apply imap_ext. intros i o _. cbn. f_equal. lia.
Qed.

Definition relay_ops (start : nat) (ops : list SignedOp) : list RelayOp :=
  (λ e, mk_RelayOp (re_seq e) (re_op e)) <$> numbered start ops.

Lemma entries_roundtrip (es : list RelayLogEntry) :
  Forall encodable (re_op <$> es) →
  ∃ wes, try_map wire_entry es = Ok wes ∧ we_seq <$> wes = re_seq <$> es ∧
    try_map relay_op wes = Ok ((λ e, mk_RelayOp (re_seq e) (re_op e)) <$> es).
Proof.
  induction es as [|e es IH]; [by exists []|]. rewrite fmap_cons. intros [(Hv & bs & Hbs) Hes]%Forall_cons.
  destruct (IH Hes) as (wes & Hw & Hs & Hr). exists (mk_wire_entry (re_seq e) bs :: wes).
  assert (Hwe : wire_entry e = Ok (mk_wire_entry (re_seq e) bs)) by (unfold wire_entry; by rewrite Hbs).
  assert (Hre : relay_op (mk_wire_entry (re_seq e) bs) = Ok (mk_RelayOp (re_seq e) (re_op e))).
  { unfold relay_op. cbn [we_envelope]. by rewrite (op_to_bytes_inv _ _ Hbs), decide_True. }
  cbn [try_map]. rewrite Hwe, Hre. cbn [mbind result_bind]. rewrite Hw, Hr, !fmap_cons, Hs. done.
Qed.

Lemma numbered_op start ops : re_op <$> numbered start ops = ops.
Proof.
  unfold numbered. rewrite fmap_imap. transitivity (imap (λ _ op, op) ops); [done|].
  clear. induction ops as [|op ops IH]; [done|]. rewrite imap_cons. f_equal. exact IH.
Qed.

(** ** One exchange *)

(** A signed response of the server is read back as the page it describes. *)
Lemma read_signed_response context epoch after bound nonce reset next es max_entries status_only :
  Forall encodable (re_op <$> es) →
  ∃ wes, we_seq <$> wes = re_seq <$> es ∧
    try_map relay_op wes = Ok ((λ e, mk_RelayOp (re_seq e) (re_op e)) <$> es) ∧
    read_relay client context bound (mk_cursor epoch after) (device_id server) (public_key_sec1 server)
      max_entries status_only nonce
      (reply_of (signed_relay_response server (device_id client) context epoch after bound nonce stream
                   reset next es)) =
    decode_relay_response
      (mk_RelayResponse RELAY_PROTOCOL_VERSION (rs_epoch stream) (rs_head stream) (rs_floor stream) next
         reset wes) (mk_cursor epoch after) max_entries status_only.
Proof.
  intros Hes. destruct (entries_roundtrip es Hes) as (wes & Hw & Hs & Hr). exists wes. split_and!; [done..|].
  unfold signed_relay_response. rewrite Hw. destruct (Hresponse (mk_RelayResponse RELAY_PROTOCOL_VERSION
    (rs_epoch stream) (rs_head stream) (rs_floor stream) next reset wes)) as [body Hbody].
  rewrite Hbody, hex_header_value.
  rewrite (read_relay_reply _ _ _ _ _ _ _ _ _ _
    (sign_relay_response server (device_id client) context epoch after bound nonce body) body) by reflexivity.
  unfold verify_relay_signature, sign_relay_response. cbn [rc_epoch rc_after].
  rewrite verify_attested_signed by done. cbn [mbind result_bind].
  unfold decode_wire. by rewrite (wire_roundtrip _ _ Hbody).
Qed.

(** What the server has for a cursor: the arrivals after it, up to the limit,
    or the position to start over from. *)
Definition served_page (cursor : RelayCursor) (limit : Z) : RelayPage :=
  let after := rc_after cursor in
  if relay_needs_reset (rc_epoch cursor) after stream
  then mk_RelayPage (rs_epoch stream) (rs_head stream) (rs_floor stream) (rs_floor stream) true []
  else
    let ops := takeZ limit (drop (Z.to_nat after) arr) in
    mk_RelayPage (rs_epoch stream) (rs_head stream) (rs_floor stream) (after + len ops) false
      (relay_ops (Z.to_nat after) ops).

Definition start_ok (cursor : RelayCursor) : Prop :=
  u64_ok (rc_after cursor) ∧ (rc_epoch cursor = zeros 32 → rc_after cursor = 0%Z).

(** The two responses the server makes are decoded. *)
Lemma decode_reset st cursor max_entries :
  valid_relay_state st = true → relay_needs_reset (rc_epoch cursor) (rc_after cursor) st = true →
  decode_relay_response
    (mk_RelayResponse RELAY_PROTOCOL_VERSION (rs_epoch st) (rs_head st) (rs_floor st) (rs_floor st) true [])
    cursor max_entries false =
  Ok (mk_RelayPage (rs_epoch st) (rs_head st) (rs_floor st) (rs_floor st) true []).
Proof.
  destruct st as [e h f]. unfold valid_relay_state. cbn [rs_epoch rs_head rs_floor].
  rewrite andb_true_iff, negb_true_iff, bool_decide_eq_false, bool_decide_eq_true. intros [He Hb] Hr.
  unfold decode_relay_response. cbn [rr_v rr_epoch rr_floor rr_head rr_reset rr_entries rr_next].
  rewrite decide_False by naive_solver. rewrite decide_False by (intros [?|?]; [done|lia]).
  rewrite Hr, !bool_decide_eq_true_2 by done. done.
Qed.

Lemma decode_page st cursor limit wes ops :
  valid_relay_state st = true → relay_needs_reset (rc_epoch cursor) (rc_after cursor) st = false →
  try_map relay_op wes = Ok ops → we_seq <$> wes = seqZ (rc_after cursor + 1) (len wes) →
  (0 ≤ rc_after cursor)%Z → (len wes ≤ limit)%Z → (rs_floor st ≤ rc_after cursor)%Z →
  (rc_after cursor + len wes ≤ rs_head st < u64_modulus)%Z →
  decode_relay_response
    (mk_RelayResponse RELAY_PROTOCOL_VERSION (rs_epoch st) (rs_head st) (rs_floor st)
       (rc_after cursor + len wes) false wes) cursor limit false =
  Ok (mk_RelayPage (rs_epoch st) (rs_head st) (rs_floor st) (rc_after cursor + len wes) false ops).
Proof.
  destruct st as [e h f]. unfold valid_relay_state. cbn [rs_epoch rs_head rs_floor].
  rewrite andb_true_iff, negb_true_iff, bool_decide_eq_false, bool_decide_eq_true.
  intros [He Hb] Hr Hops' Hseq Hpos Hl Hf Hh.
  unfold decode_relay_response. cbn [rr_v rr_epoch rr_floor rr_head rr_reset rr_entries rr_next].
  rewrite decide_False by naive_solver. rewrite decide_False by (intros [?|?]; [done|lia]).
  rewrite Hr, Hseq, decide_False by lia. pose proof (len_nonneg wes).
  rewrite seqZ_contiguous, last_seqZ, decide_False by lia. cbn [negb].
  cbn [mbind result_bind]. by rewrite Hops'.
Qed.

(** The server's answer to an accepted request reads as the page it has. *)
Lemma relay_ops_page_ok s cursor limit nonce :
  relay_server s → start_ok cursor → (0 < limit)%Z →
  ∃ resp, relay_ops_page s (ss_log s)
      (mk_RelayOpsQuery (encode_hex (rc_epoch cursor)) (rc_after cursor) limit)
      (mk_auth (rc_epoch cursor) nonce (device_id client)) = Ok resp ∧
    read_relay client RELAY_OPS_SIGNING_CONTEXT limit cursor (device_id server) (public_key_sec1 server)
      limit false nonce (reply_of resp) = Ok (served_page cursor limit).
Proof.
  intros Hs [[Hpos Hu] Hz] Hlim. pose proof (stream_ok s Hs) as (He & Hh & Hf). pose proof (stream_valid s Hs) as Hv.
  pose proof Hs as [Hid Hl Hst _]. destruct cursor as [epoch after]. cbn [rc_epoch rc_after] in *.
  unfold relay_ops_page, served_page. cbn [ra_epoch ra_nonce ra_caller rq_after rq_limit rc_epoch rc_after].
  rewrite Hst. cbn [stream_or mbind result_bind]. unfold valid_or. rewrite Hv. cbn [mbind result_bind].
  destruct (relay_needs_reset epoch after stream) eqn:Hreset.
  - eexists. split; [done|]. rewrite Hid.
    destruct (read_signed_response RELAY_OPS_SIGNING_CONTEXT epoch after limit nonce true (rs_floor stream) [] limit false)
      as (wes & Hseq & _ & ->); [constructor|]. destruct wes; [|done]. by apply decode_reset.
  - destruct (cursor_position s epoch after Hs Hpos Hz Hreset) as [_ Hle].
    destruct (src_relay_page_ok _ _ after limit Hl Hpos) as (st & Hst' & ->). rewrite Hst in Hst'. injection Hst' as <-.
    rewrite Z.min_l by done. cbn [stream_or mbind result_bind rp_state rp_entries]. rewrite Hv. cbn [mbind result_bind].
    rewrite Hreset. set (ops := takeZ limit (drop (Z.to_nat after) arr)).
    assert (Hlen : len (numbered (Z.to_nat after) ops) = len ops).
    { unfold len, numbered. by rewrite length_imap. }
    assert (Hol : (len ops ≤ limit)%Z ∧ (after + len ops ≤ len arr)%Z).
    { unfold ops. rewrite len_takeZ by lia. unfold len in *. rewrite length_drop. lia. }
    rewrite decide_False by lia. rewrite numbered_seq, Z2Nat.id by lia.
    rewrite seqZ_contiguous by lia. cbn [negb].
    eexists. split; [done|]. rewrite Hid.
    destruct (read_signed_response RELAY_OPS_SIGNING_CONTEXT epoch after limit nonce false
      (last_seq after (seqZ (after + 1) (len ops))) (numbered (Z.to_nat after) ops) limit false)
      as (wes & Hseq & Hdec & ->).
    { rewrite numbered_op. rewrite Forall_forall in Hops |- *. intros op Hop. by apply Hops, (elem_of_drop_1 (Z.to_nat after)), (elem_of_takeZ limit). }
    assert (Hwes : len wes = len ops).
    { apply (f_equal length) in Hseq. rewrite numbered_seq, length_fmap, length_seqZ in Hseq. unfold len in *. lia. }
    rewrite last_seqZ, <-Hwes.
    apply (decode_page stream (mk_cursor epoch after)); cbn [rc_epoch rc_after]; try done; try lia.
    by rewrite Hseq, numbered_seq, Z2Nat.id, Hwes by lia.
Qed.

(** ** A fetch *)

Context `{Routing} (base : string) `{!RoutingOk base}.

(** The nonce is one the server has not seen in the window, and its cache has
    room. *)
Definition nonce_fresh (n : RelayNet L D) (nonce : barr 32) : Prop :=
  let seen := fresh_replays (ss_instant (rn_server n)) (ss_replays (rn_server n)) in
  seen !! (device_id client, nonce) = None ∧ size seen < RELAY_REPLAY_LIMIT.

Record relay_net_ok (n : RelayNet L D) : Prop := {
  rno_base : rn_base n = base;
  rno_server : relay_server (rn_server n);
}.

(** The network after a request with a nonce: the pair is recorded. *)
Definition recorded (n : RelayNet L D) (nonce : barr 32) : RelayNet L D :=
  rn_with_server n (with_replays (rn_server n)
    (<[(device_id client, nonce) := ss_instant (rn_server n)]>
       (fresh_replays (ss_instant (rn_server n)) (ss_replays (rn_server n))))).

Lemma fetch_ok n limit nonce cursor :
  relay_net_ok n → nonce_fresh n nonce → start_ok cursor → (0 < limit ≤ DEFAULT_PULL_LIMIT)%Z →
  fetch_relay_ops n (mk_source base limit) client (Ok nonce) (device_id server) (public_key_sec1 server) cursor =
    (Ok (served_page cursor limit), recorded n nonce).
Proof.
  intros [Hb Hs] [Hfresh Hroom] Hc Hlim. unfold fetch_relay_ops, request_relay. cbn [src_limit http_get relay_net_world].
  unfold relay_net_get. rewrite Hb, route_relay_ops by (apply Hc || unfold DEFAULT_PULL_LIMIT in Hlim; lia).
  cbn [router relay_router]. unfold get_relay_ops. cbn [rq_limit rq_epoch rq_after]. rewrite decide_False by lia.
  unfold relay_guard. pose proof Hs as [Hid Hl Hst Hk].
  set (hs := relay_headers _ _ _). set (auth := mk_auth (rc_epoch cursor) nonce (device_id client)).
  assert (Hreq : relay_request (encode_hex (rc_epoch cursor)) (rc_after cursor) limit hs RELAY_OPS_REQUEST_CONTEXT
    (device_id (ss_identity (rn_server n))) (ss_relay_callers (rn_server n)) (ss_instant (rn_server n))
    (ss_replays (rn_server n)) = (Ok auth, ss_replays (rn_server (recorded n nonce)))).
  { apply relay_request_ok. split_and!; [|done|done|done]. rewrite Hid.
    apply relay_authenticate_signed; [done|done|apply Hc]. }
  rewrite Hreq. cbn [mbind result_bind].
  destruct (relay_ops_page_ok (rn_server (recorded n nonce)) cursor limit nonce) as (resp & Hpage & Hread);
    [by split|done|lia|].
  change (ss_log (rn_server (recorded n nonce))) with (ss_log (rn_server n)) in Hpage.
  change (rn_server (recorded n nonce)) with
    (with_replays (rn_server n) (ss_replays (rn_server (recorded n nonce)))) in Hpage.
  unfold auth. rewrite Hpage. cbn [respond map_err mbind result_bind]. by rewrite Hread.
Qed.

(** A relay fetch is exact.  Over a network that delivers, an honest server
    and a client it knows, with a nonce not yet seen: [fetch_relay_ops] from any
    cursor succeeds, and returns exactly the server's arrivals after the cursor,
    in arrival order, numbered by their positions and at most [limit] of them;
    or, when the cursor is of another stream or past its end, the reset to the
    stream's floor. *)
Lemma relay_fetch_exact n limit nonce cursor :
  relay_net_ok n → nonce_fresh n nonce → start_ok cursor → (0 < limit ≤ DEFAULT_PULL_LIMIT)%Z →
  ∃ page, (fetch_relay_ops n (mk_source base limit) client (Ok nonce) (device_id server)
             (public_key_sec1 server) cursor).1 = Ok page ∧
    rg_epoch page = rs_epoch stream ∧ rg_head page = len arr ∧
    if decide ((rc_epoch cursor = zeros 32 ∨ rc_epoch cursor = rs_epoch stream) ∧ (rc_after cursor ≤ len arr)%Z)
    then rg_reset page = false ∧
         ro_op <$> rg_entries page = takeZ limit (drop (Z.to_nat (rc_after cursor)) arr) ∧
         ro_seq <$> rg_entries page = seqZ (rc_after cursor + 1) (len (rg_entries page)) ∧
         rg_next page = (rc_after cursor + len (rg_entries page))%Z
    else rg_reset page = true ∧ rg_next page = 0%Z ∧ rg_entries page = [].
Proof.
  intros Hn Hf Hc Hlim. rewrite fetch_ok by done. eexists. split; [done|].
  pose proof (stream_ok _ (rno_server _ Hn)) as (He & Hh & Hfl). destruct Hc as [[Hpos _] Hz].
  unfold served_page. destruct (relay_needs_reset _ _ _) eqn:Hr; cbn.
  - split_and!; [done|done|]. rewrite decide_False; [by rewrite Hfl|]. intros [Hep Hle].
    revert Hr. unfold relay_needs_reset. rewrite Hh, Hfl. apply not_true_iff_false.
    rewrite !orb_false_iff, !andb_false_iff, !negb_false_iff, !bool_decide_eq_true, !bool_decide_eq_false, orb_false_iff.
    rewrite !bool_decide_eq_false. split_and!; [right; lia|tauto|right; lia].
  - split_and!; [done|done|]. destruct (cursor_position _ _ _ (rno_server _ Hn) Hpos Hz Hr) as [Hep Hle].
    rewrite decide_True by done. unfold relay_ops. rewrite <-!list_fmap_compose.
    change (ro_op ∘ _) with re_op. change (ro_seq ∘ _) with re_seq. rewrite numbered_op, numbered_seq, Z2Nat.id by done.
    unfold len. rewrite !length_fmap. unfold numbered. by rewrite length_imap.
Qed.

(** ** Rounds *)

Section rounds.
Context `{Uhlc} {T : Type} `{!Store T}.

(** The client's registry, clocks and store accept the arrivals [acc]; the next
    one, if there is one, is of a device the client has no key for, or does not
    verify under the key it has. *)
Context (registry : DeviceRegistry) (fine : NodeClock → Prop) (U : SignedOp → Prop).
Context (Hreplay : ∀ l (t : T), Forall U (log_iter l) → ∃ t', replay l t = (Ok (), t')).
Definition unattested (op : SignedOp) : Prop :=
  ∀ key, key_for registry (op_device (op_body op)) = Some key → ∃ e, verify op key = Err e.
Context (acc rest : list SignedOp) (Harr : arr = acc ++ rest).
Context (Hgood : Forall (λ op, U op ∧ admissible registry fine op) acc).
Context (Hrest : ∀ op, head rest = Some op → unattested op).
Notation Node := (SyncNode (T := T)).

Definition io_ok : AppendIo := mk_append_io None None None None None None.

Record node_ok (n : Node) : Prop := {
  no_registry : sn_registry n = registry;
  no_clock : fine (sn_clock n);
  no_log : ∃ carr, log_rep (sn_log n) carr ∧ Forall U carr;
  no_writer : ∀ w, sn_writer n = Some w → poisoned w = false;
}.

Definition holds (n : Node) (op : SignedOp) : Prop := log_contains (sn_log n) (op_id op) = true.

Lemma writer_append_ok w op :
  poisoned w = false → encodable op → ∃ w', writer_append io_ok w op = (Ok (), w') ∧ poisoned w' = false.
Proof.
  intros Hp (_ & bs & Hbs). unfold writer_append. rewrite Hp, Hbs. eexists. done.
Qed.

Lemma log_append_known l op : log_contains l (op_id op) = true → (log_append l op).2 = l.
Proof. unfold log_contains, log_append. intros Hin%bool_decide_eq_true. by rewrite decide_True. Qed.

Lemma accept_op_good n op :
  node_ok n → encodable op → U op ∧ admissible registry fine op →
  ∃ fresh n', accept_op io_ok n op = Some (Ok fresh, n') ∧ node_ok n' ∧
    sn_log n' = (log_append (sn_log n) op).2 ∧ sn_store n' = sn_store n.
Proof.
  intros [Hreg Hf (carr & Hr & HU) Hw] Henc [HUo [(key & Hk & Hv) Hc]]. unfold accept_op. rewrite Hreg, Hk, Hv.
  destruct (Hc _ Hf) as (t & c & -> & Hfc). cbn [sn_log sn_writer node_with_clock].
  assert (Hlog : ∃ carr', log_rep (log_append (sn_log n) op).2 carr' ∧ Forall U carr')
    by (apply (append_all_U U _ _ [op] Hr HU); by constructor).
  destruct (log_contains _ _) eqn:Hin; [exists false; eexists; split; [done|]|
    exists true; destruct (sn_writer n) as [w|] eqn:Hwn].
  - rewrite log_append_known by done. split; [split; [done|done|by exists carr|done]|done].
  - destruct (writer_append_ok w op) as (w' & -> & Hp); [by apply Hw|done|]. eexists. split; [done|].
    split; [split; [done|done|done|by intros ? [= <-]]|done].
  - eexists. split; [done|]. split; [split; [done|done|done|cbn; by rewrite Hwn]|done].
Qed.

Lemma accept_op_refused n op :
  node_ok n → unattested op → ∃ e, accept_op io_ok n op = Some (Err e, n).
Proof.
  intros Hn Hop. unfold accept_op. rewrite (no_registry n Hn). unfold unattested in Hop.
  destruct (key_for registry _) as [key|]; [|by eexists]. destruct (Hop key eq_refl) as [e ->]. by eexists.
Qed.

Lemma accept_all_good {P} (entries more : list (P * SignedOp)) n at0 rcv app :
  node_ok n → Forall (λ op, encodable op ∧ U op ∧ admissible registry fine op) entries.*2 →
  (∀ op, head more.*2 = Some op → unattested op) →
  ∃ app' abort n', accept_all (λ _, io_ok) (entries ++ more) n at0 rcv app =
      Some (default at0 (last entries.*1), rcv + length entries, app', abort, n') ∧ (abort = None ↔ more = []) ∧
    node_ok n' ∧ sn_log n' = append_all (sn_log n) entries.*2 ∧ sn_store n' = sn_store n.
Proof.
  intros Hn Hall Hmore. revert n at0 rcv app Hn Hall; induction entries as [|[p op] entries IH]; intros n at0 rcv app Hn Hall; cbn.
  { destruct more as [|[p op] more]; [exists app, None, n; by rewrite Nat.add_0_r|]. cbn.
    destruct (accept_op_refused n op Hn) as [e ->]; [by apply Hmore|]. exists app, (Some e), n. by rewrite Nat.add_0_r. }
  apply Forall_cons in Hall as [[Henc Hop] Hall].
  destruct (accept_op_good n op Hn Henc Hop) as (fresh & n1 & -> & Hn1 & Hl1 & Hs1).
  destruct (IH n1 p (S rcv) (if fresh : bool then S app else app) Hn1 Hall) as (app' & abort & n2 & -> & Hab & Hn2 & Hl2 & Hs2).
  exists app', abort, n2. split_and!; [|done|done|by rewrite Hl2, Hl1|congruence].
  rewrite last_cons. destruct (last entries.*1); cbn; do 5 f_equal; lia.
Qed.

(** A cursor on the stream, with every arrival before it accepted and held. *)
Definition aligned (cursor : RelayCursor) (n : Node) : Prop :=
  rc_epoch cursor = rs_epoch stream ∧ (0 ≤ rc_after cursor ≤ len acc)%Z ∧
  ∀ op, op ∈ take (Z.to_nat (rc_after cursor)) acc → holds n op.

Lemma numbered_app start ops more : numbered start (ops ++ more) = numbered start ops ++ numbered (start + length ops) more.
Proof. unfold numbered. rewrite imap_app. f_equal. apply imap_ext. intros i op _. cbn. f_equal. lia. Qed.

(** The arrivals of a page: the accepted ones, then the refused one and what follows it. *)
Lemma page_split after limit :
  (0 ≤ after ≤ len acc)%Z → (0 < limit)%Z →
  ∃ more, takeZ limit (drop (Z.to_nat after) arr) = takeZ limit (drop (Z.to_nat after) acc) ++ more ∧
    (∀ op, head more = Some op → unattested op) ∧
    (more ≠ [] → after + len (takeZ limit (drop (Z.to_nat after) acc)) = len acc)%Z ∧
    (more = [] → takeZ limit (drop (Z.to_nat after) acc) = [] → after = len acc).
Proof.
  intros [Hpos Hle] Hlim. rewrite !takeZ_take, Harr. unfold len in *.
  rewrite drop_app_le by lia. rewrite take_app. eexists. split; [done|].
  rewrite length_take, length_drop. split_and!.
  - intros op Hop. apply Hrest. destruct (Z.to_nat limit - _), rest; done.
  - intros Hne. destruct (decide (Z.to_nat limit - (length acc - Z.to_nat after) = 0)) as [Hzero|]; [|lia].
    rewrite Hzero in Hne. done.
  - intros _ Hnil%(f_equal length). rewrite length_take, length_drop in Hnil. cbn in Hnil. lia.
Qed.

Lemma page_aligned n n' after limit :
  node_ok n → (0 ≤ after ≤ len acc)%Z → (0 < limit)%Z → (∀ op, op ∈ take (Z.to_nat after) acc → holds n op) →
  let mine := takeZ limit (drop (Z.to_nat after) acc) in
  sn_log n' = append_all (sn_log n) mine → aligned (mk_cursor (rs_epoch stream) (after + len mine)) n'.
Proof.
  intros Hn [Hpos Hle] Hlim Hheld mine Hl. destruct (no_log _ Hn) as (carr & Hr & _).
  unfold aligned, holds. cbn. rewrite Hl. pose proof (len_nonneg mine).
  assert (Hlo : len mine = Z.min limit (len acc - after)).
  { unfold mine. rewrite len_takeZ by lia. unfold len in *. rewrite length_drop. lia. }
  split_and!; [done|lia|lia|]. rewrite Z2Nat.inj_add, <-take_take_drop by done.
  intros op [Hop|Hop]%elem_of_app; [by eapply log_contains_stays, Hheld|].
  eapply log_contains_append_all; [exact Hr|]. apply list_elem_of_fmap_2. unfold mine. rewrite takeZ_take.
  apply (elem_of_take_1 (Z.to_nat (len mine))). rewrite take_take, Nat.min_l by lia. exact Hop.
Qed.

(** A page of arrivals is applied up to the first refused one. *)
Lemma round_page n after limit :
  node_ok n → (0 ≤ after ≤ len acc)%Z → (0 < limit)%Z →
  (∀ op, op ∈ take (Z.to_nat after) acc → holds n op) →
  let ops := takeZ limit (drop (Z.to_nat after) arr) in
  let mine := takeZ limit (drop (Z.to_nat after) acc) in
  ∀ cursor, rc_after cursor = after →
  ∃ r n', sync_relay_page (λ _, io_ok) None
      (Ok (mk_RelayPage (rs_epoch stream) (rs_head stream) (rs_floor stream) (after + len ops) false
             (relay_ops (Z.to_nat after) ops))) n cursor =
      Some (r, mk_cursor (rs_epoch stream) (after + len mine), n') ∧ node_ok n' ∧
    aligned (mk_cursor (rs_epoch stream) (after + len mine)) n' ∧
    match r with
    | Ok out => so_received out = 0 → (after + len mine)%Z = len acc
    | Err _ => (after + len mine)%Z = len acc
    end.
Proof.
  intros Hn Hb Hlim Hheld ops mine cursor Hcur. pose proof Hb as [Hpos Hle]. unfold sync_relay_page. cbn [rg_reset rg_entries rg_epoch].
  destruct (page_split after limit Hb Hlim) as (more & Hsplit & Href & Hshort & Hnone). fold ops mine in Hsplit, Hshort, Hnone.
  set (pair := λ e : RelayOp, (ro_seq e, ro_op e)). rewrite Hsplit. unfold relay_ops. rewrite numbered_app, !fmap_app.
  set (entries := pair <$> _). set (others := pair <$> _).
  assert (He1 : entries.*1 = seqZ (after + 1) (len mine)).
  { unfold entries. rewrite <-!list_fmap_compose. change (_ ∘ _ ∘ _) with re_seq. by rewrite numbered_seq, Z2Nat.id. }
  assert (He2 : entries.*2 = mine).
  { unfold entries. rewrite <-!list_fmap_compose. change (_ ∘ _ ∘ _) with re_op. apply numbered_op. }
  assert (Ho2 : others.*2 = more).
  { unfold others. rewrite <-!list_fmap_compose. change (_ ∘ _ ∘ _) with re_op. apply numbered_op. }
  assert (Hsub : ∀ op, op ∈ mine → op ∈ acc) by (intros op Hop; by eapply elem_of_drop_1, elem_of_takeZ).
  destruct (accept_all_good entries others n (rc_after cursor) 0 0 Hn) as (app & abort & n1 & -> & Hab & Hn1 & Hl1 & Hs1).
  { rewrite He2. apply Forall_forall. intros op Hop%Hsub. rewrite Forall_forall in Hops, Hgood.
    split; [apply Hops; rewrite Harr; by apply elem_of_app; left|by apply Hgood]. }
  { by rewrite Ho2. }
  cbn [mbind option_bind]. rewrite He1, He2 in *. rewrite Hcur. fold (last_seq after (seqZ (after + 1) (len mine))).
  rewrite last_seqZ.
  assert (Hal : ∀ n', sn_log n' = sn_log n1 → aligned (mk_cursor (rs_epoch stream) (after + len mine)) n').
  { intros n' Hl. eapply page_aligned; [exact Hn|done..|]. by rewrite Hl. }
  assert (Hcount : length entries = length mine) by (by rewrite <-He2, length_fmap).
  assert (Hres : match (match abort with Some e => Err e | None => Ok (mk_outcome (0 + length entries) app false) end : result TransportError RelaySyncOutcome) with
    | Ok out => so_received out = 0 → (after + len mine)%Z = len acc | Err _ => (after + len mine)%Z = len acc end).
  { destruct abort as [e|]; cbn.
    - apply Hshort. rewrite <-Ho2. intros Hnil%fmap_nil_inv. destruct Hab as [_ Hab]. by specialize (Hab Hnil).
    - rewrite Hcount. intros Hz%nil_length_inv. rewrite <-Ho2 in Hnone. destruct Hab as [Hab _]. rewrite (Hab eq_refl) in Hnone.
      rewrite Hz, len_nil, Z.add_0_r. by apply Hnone. }
  destruct (decide _); [by do 2 eexists; split_and!; [done|done|apply Hal|]|].
  unfold settle, sync_writer, apply_store. destruct (no_log _ Hn1) as (carr1 & Hr1 & HU1).
  destruct (Hreplay (sn_log n1) (sn_store n1)) as [t Ht]; [by rewrite (rep_iter_perm Hr1)|].
  destruct n1 as [reg c l st [w|]]; cbn in *; rewrite Ht; do 2 eexists; (split_and!; [done| |by apply Hal|done]);
    (split; [apply Hn1|apply Hn1|by exists carr1|apply Hn1]).
Qed.

Notation round net limit nonce n cursor :=
  (sync_relay_once net (mk_source base limit) client (Ok nonce) (device_id server) (public_key_sec1 server)
     (λ _, io_ok) None n cursor).

(** The nonces to come are new to the server, which has room for them. *)
Definition nonces_ok (net : RelayNet L D) (nonces : list (barr 32)) : Prop :=
  NoDup nonces ∧ Forall (λ nonce, ss_replays (rn_server net) !! (device_id client, nonce) = None) nonces ∧
  size (ss_replays (rn_server net)) + length nonces ≤ RELAY_REPLAY_LIMIT.

Lemma nonces_ok_cons net nonce nonces :
  nonces_ok net (nonce :: nonces) → nonce_fresh net nonce ∧ nonces_ok (recorded net nonce) nonces.
Proof.
  intros ([Hni Hnd]%NoDup_cons & [Hn Hns]%Forall_cons & Hsize). cbn in Hsize.
  pose proof (fresh_replays_size (ss_instant (rn_server net)) (ss_replays (rn_server net))).
  assert (Hnone : ∀ k, ss_replays (rn_server net) !! k = None →
    fresh_replays (ss_instant (rn_server net)) (ss_replays (rn_server net)) !! k = None).
  { intros k Hk. apply eq_None_not_Some. intros [t [Ht _]%fresh_replays_lookup]. by rewrite Hk in Ht. }
  split; [split; [by apply Hnone|lia]|]. split_and!; [done| |].
  - apply Forall_forall. intros x Hx. cbn. rewrite lookup_insert_ne by (by intros [= ->]).
    apply Hnone. rewrite Forall_forall in Hns. by apply Hns.
  - cbn. rewrite map_size_insert_None by (by apply Hnone). lia.
Qed.

Lemma recorded_ok net nonce : relay_net_ok net → relay_net_ok (recorded net nonce).
Proof. intros [Hb [? ? ? ?]]. by split. Qed.

(** The cursor is of another stream, or past the end of this one, or the
    arrivals before it are accepted ones, which the node holds. *)
Definition resumable (cursor : RelayCursor) (n : Node) : Prop :=
  rc_epoch cursor = rs_epoch stream → (rc_after cursor ≤ len arr)%Z →
  (rc_after cursor ≤ len acc)%Z ∧ ∀ op, op ∈ take (Z.to_nat (rc_after cursor)) acc → holds n op.

(** One round from anywhere: the cursor is on the stream afterwards; from a
    cursor on the stream it advances by the limit or to the end of what is
    accepted; when nothing is received, or the round fails, it is there. *)
Lemma round_ok net limit nonce n cursor :
  relay_net_ok net → nonce_fresh net nonce → start_ok cursor → (0 < limit ≤ DEFAULT_PULL_LIMIT)%Z → node_ok n →
  resumable cursor n →
  ∃ r cursor' n', round net limit nonce n cursor = (Some (r, cursor', n'), recorded net nonce) ∧
    node_ok n' ∧ aligned cursor' n' ∧
    (aligned cursor n → Z.min (rc_after cursor + limit) (len acc) ≤ rc_after cursor')%Z ∧
    match r with
    | Ok out => so_received out = 0 → so_reset out = false → rc_after cursor' = len acc
    | Err _ => rc_after cursor' = len acc
    end.
Proof.
  intros Hnet Hf Hc Hlim Hn Hheld. unfold sync_relay_once. rewrite fetch_ok by done. destruct Hc as [[Hpos _] Hz].
  pose proof (stream_ok _ (rno_server _ Hnet)) as (He & Hh & Hfl). unfold served_page.
  assert (Hacc : (len acc ≤ len arr)%Z) by (rewrite Harr; unfold len; rewrite length_app; lia).
  destruct (relay_needs_reset _ _ _) eqn:Hr.
  - eexists (Ok _), _, _. split_and!; [done|done| | |done]; unfold aligned, RelayPage_cursor; cbn; rewrite Hfl.
    + pose proof (len_nonneg acc). split_and!; [done|lia|lia|]. by intros op ?%elem_of_nil.
    + intros (Hep & Hb & _). exfalso. revert Hr. unfold relay_needs_reset. rewrite Hep, Hh, Hfl.
      rewrite (bool_decide_eq_false_2 (rs_epoch stream = zeros 32)), (bool_decide_eq_true_2 (_ = _)) by done.
      rewrite !bool_decide_eq_false_2 by lia. done.
  - destruct (cursor_position _ _ _ (rno_server _ Hnet) Hpos Hz Hr) as [Hep Hle].
    assert (Hcur : (rc_after cursor ≤ len acc)%Z ∧ ∀ op, op ∈ take (Z.to_nat (rc_after cursor)) acc → holds n op).
    { destruct Hep as [Hep|Hep]; [|by apply Hheld]. rewrite (Hz Hep). pose proof (len_nonneg acc).
      split; [done|]. by intros op ?%elem_of_nil. }
    destruct Hcur as [Hca Hch].
    destruct (round_page n (rc_after cursor) limit Hn (conj Hpos Hca)) with (cursor := cursor)
      as (r & n' & Hpage & Hn' & Hal & Hrec); [lia|done|done|].
    exists r. do 2 eexists. rewrite Hpage. split_and!; [done..| |by destruct r; auto].
    intros _. cbn. rewrite len_takeZ by lia. unfold len in *. rewrite length_drop. lia.
Qed.
End rounds.
End exchange.
