(* ===== verification/DaemonDrain.v ===== *)
(** * The daemon drains its peer

    The inner loop of [serve] ([src/bin/pnsd.rs]) over a network that delivers:
    it breaks out, it breaks out only at the head of the peer's stream or at the
    first arrival the node's registry does not attest, and then the node holds
    the peer's log up to there and the cursor on disk is the cursor in memory. *)

From S2P Require Import Prelude Ordered External Toy Http Identity Op Registry Store Log Durable Hlc Pull Transport Persistence Relay Watch Socket PullServer PullClient PullDrain Server Client Sync RelayExchange Daemon.
Import BTree.

Definition save_ok : SaveIo := mk_save_io None None (λ _, None) None None None.
Lemma saved_cursor peer c fs : cursor_wf c → synced (relay_cursor_path peer) fs →
  let fs' := (Persistence.save_relay_cursor save_ok peer c fs).1.2 in
  synced (relay_cursor_path peer) fs' ∧ Persistence.load_relay_cursor fs' peer = c.
Proof.
  intros Hwf Hs fs'. subst fs'. unfold Persistence.save_relay_cursor. destruct (run_steps _ fs) as [[r fs'] t] eqn:Hr. cbn [fst snd].
  assert (r = Ok ()) as -> by (revert Hr; cbn; by intros [= <- _ _]).
  apply save_steps_atomic in Hr as (Hs' & Hok & _); [|by eapply with_extension_ne; [reflexivity|]|done]. split; [done|].
  apply load_relay_cursor_saved; [done|]. destruct (Hok eq_refl) as [-> _]. cbn. by rewrite app_nil_r.
Qed.

Section drains.
Context `{Crypto, !CryptoOk, Postcard, !Wire BodyRepr, !Wire EnvelopeRepr, !WireOk EnvelopeRepr,
          !Wire RelayResponse, !WireOk RelayResponse, !Wire IdentityResp, !Wire PullResponse,
          !Wire DevicesResp, StatusText}.
Context {L D : Type} `{!LogSource L, !DeviceBook D} (lrep : L → list SignedOp → Prop) `{!LogSourceOk L lrep}.
Context (ssk csk : SigningKey) (arr : list SignedOp) (stream : RelayStreamState).
Notation server := (from_signing ssk).
Notation client := (from_signing csk).
Context `{Routing} (base : string) `{!RoutingOk base}.
Context `{Uhlc} {T : Type} `{!Store T}.
Context (registry : DeviceRegistry) (fine : NodeClock → Prop) (U : SignedOp → Prop).
Notation State := (Drained (T := T) (W := RelayNet L D)).

(** The arrivals of the server the node accepts, and those from the first one on
    that it refuses. *)
Context (acc rest : list SignedOp).

(** What the drain is promised: the server's log is within the width of a
    sequence number, its ops and responses have encodings; the ops before the
    first refused one verify under the keys of the node's registry, are within
    its clock's drift, and replay into its store. *)
Record relay_scene : Prop := {
  rsc_bounds : (len arr < u64_modulus)%Z;
  rsc_ops : Forall encodable arr;
  rsc_response : ∀ r : RelayResponse, ∃ body, to_allocvec r = Ok body;
  rsc_replay : ∀ l (t : T), Forall U (log_iter l) → ∃ t', replay l t = (Ok (), t');
  rsc_split : arr = acc ++ rest;
  rsc_accepted : Forall (λ op, U op ∧ admissible registry fine op) acc;
  rsc_refused : ∀ op, head rest = Some op → unattested registry op;
}.

(** An environment that answers: the nonces to come, every write. *)
Definition answers (ios : list RoundIo) (nonces : list (barr 32)) : Prop :=
  Forall2 (λ io nonce, io = mk_RoundIo (Ok nonce) (λ _, io_ok) None save_ok) ios nonces.

(** The daemon's link to the server. *)
Record draining (limit : Z) (s : State) : Prop := {
  da_source : lk_source (dr_link s) = mk_source base limit;
  da_peer : lk_peer_id (dr_link s) = device_id server;
  da_key : lk_peer_key (dr_link s) = public_key_sec1 server;
  da_net : relay_net_ok lrep ssk csk arr stream base (dr_world s);
  da_node : node_ok registry fine U (dr_node s);
  da_synced : synced (relay_cursor_path (device_id server)) (dr_fs s);
  da_saved : Persistence.load_relay_cursor (dr_fs s) (device_id server) = lk_relay_cursor (dr_link s);
  da_start : start_ok (lk_relay_cursor (dr_link s));
  da_held : resumable arr stream acc (lk_relay_cursor (dr_link s)) (dr_node s);
}.

(** Where the drain stops: after the accepted arrivals, which are held, at a
    cursor that is the saved one. *)
Definition at_reach (s : State) : Prop :=
  lk_relay_cursor (dr_link s) = mk_cursor (rs_epoch stream) (len acc) ∧ (∀ op, op ∈ acc → holds (dr_node s) op) ∧
  Persistence.load_relay_cursor (dr_fs s) (device_id server) = lk_relay_cursor (dr_link s).
Lemma aligned_reach s : aligned stream acc (lk_relay_cursor (dr_link s)) (dr_node s) → rc_after (lk_relay_cursor (dr_link s)) = len acc →
  Persistence.load_relay_cursor (dr_fs s) (device_id server) = lk_relay_cursor (dr_link s) → at_reach s.
Proof.
  intros (He & _ & Hheld) Ha Hsaved. split_and!; [destruct (lk_relay_cursor (dr_link s)); cbn in *; by subst| |done].
  intros op Hop. apply Hheld. rewrite Ha. unfold len. by rewrite Nat2Z.id, firstn_all.
Qed.

Section proof.
Context (Hscene : relay_scene).

(** One round: the loop breaks out at the head, or goes on from a cursor on the
    stream that is further when it was on the stream already. *)
Lemma daemon_round limit nonce ios s :
  draining limit s → nonce_fresh csk (dr_world s) nonce → (0 < limit ≤ DEFAULT_PULL_LIMIT)%Z →
  let io := mk_RoundIo (Ok nonce) (λ _, io_ok) None save_ok in
  ∃ s', draining limit s' ∧ aligned stream acc (lk_relay_cursor (dr_link s')) (dr_node s') ∧ dr_world s' = recorded csk (dr_world s) nonce ∧
    ((drain_relay client (io :: ios) s = Some (true, s') ∧ at_reach s') ∨
     (drain_relay client (io :: ios) s = drain_relay client ios s' ∧
      (aligned stream acc (lk_relay_cursor (dr_link s)) (dr_node s) →
         lk_relay_cursor (dr_link s') ≠ lk_relay_cursor (dr_link s) ∧
         Z.min (rc_after (lk_relay_cursor (dr_link s)) + limit) (len acc) ≤ rc_after (lk_relay_cursor (dr_link s')))%Z)).
Proof.
  intros [Hsrc Hpeer Hkey Hnet Hnode Hsy Hsaved Hst Hheld] Hfresh Hlim io. set (cursor := lk_relay_cursor (dr_link s)) in *.
  destruct Hscene as [Hbounds Hops Hresponse Hreplay Harr Hgood Hrest].
  destruct (round_ok lrep ssk csk arr stream Hbounds Hops Hresponse base registry fine U Hreplay acc rest Harr Hgood Hrest
    (dr_world s) limit nonce (dr_node s) cursor)
    as (r & cursor' & n' & Hround & Hn' & Hal & Hadv & Hend); [done..|].
  assert (Hacc : (len acc ≤ len arr)%Z) by (rewrite Harr; unfold len; rewrite length_app; lia).
  pose proof (stream_ok lrep ssk csk arr stream _ (rno_server _ _ _ _ _ _ _ Hnet)) as (Hez & _ & _). pose proof Hal as (Hep & Hb & Hh).
  assert (Hwf : cursor_wf cursor') by (split; [split; lia|]; intros Hz; exfalso; congruence).
  set (fs' := if decide (cursor' ≠ cursor) then (Persistence.save_relay_cursor save_ok (device_id server) cursor' (dr_fs s)).1.2 else dr_fs s).
  assert (Hfs : synced (relay_cursor_path (device_id server)) fs' ∧ Persistence.load_relay_cursor fs' (device_id server) = cursor').
  { subst fs'. case_decide as Hne; [by apply saved_cursor|]. split; [done|]. by rewrite Hsaved. }
  destruct Hfs as [Hsy' Hsaved'].
  set (kept := match r with Ok out => bool_decide (0 < so_received out) || so_reset out | Err _ => false end).
  set (head := match r with
    | Ok out => if decide (0 < so_appended out) then publish_head n' (dr_head s) else dr_head s | Err _ => dr_head s end).
  set (s' := mk_Drained (lk_with_relay (dr_link s) cursor') n' fs' head (recorded csk (dr_world s) nonce) : State).
  exists s'. split_and!; [|done|done|].
  - split; [done..|by apply recorded_ok|done|done|done| |intros _ _; split; [apply Hb|exact Hh]].
    split; [split; cbn; lia|]. cbn. intros Hz. exfalso. congruence.
  - assert (Hstep : drain_relay client (io :: ios) s =
      if decide (kept = false ∨ cursor' = cursor) then Some (true, s') else drain_relay client ios s').
    { cbn [drain_relay]. fold cursor. rewrite Hsrc, Hpeer, Hkey. cbn [ri_random ri_append ri_sync ri_save io]. rewrite Hround.
      subst kept s' head. by destruct r. }
    rewrite Hstep. case_decide as Hstop; [left; split; [done|]|right; split; [done|]].
    + apply aligned_reach; [done| |done]. cbn [dr_link s' lk_relay_cursor lk_with_relay]. destruct Hstop as [Hk|Heq].
      * subst kept. destruct r as [out|e]; [|done]. apply orb_false_iff in Hk as [Hk Hr]. apply bool_decide_eq_false in Hk. apply Hend; [lia|done].
      * assert (Halc : aligned stream acc cursor (dr_node s)) by (split_and!; [congruence|rewrite <-Heq; lia..|rewrite <-Heq in *; apply Hheld; [congruence|lia]]).
        specialize (Hadv Halc). rewrite Heq in *. lia.
    + intros Halc. cbn [dr_link s' lk_relay_cursor lk_with_relay]. split; [tauto|by apply Hadv].
Qed.

(** From a cursor on the stream. *)
Lemma drain_aligned limit nonces ios s :
  draining limit s → nonces_ok csk (dr_world s) nonces → answers ios nonces → (0 < limit ≤ DEFAULT_PULL_LIMIT)%Z →
  aligned stream acc (lk_relay_cursor (dr_link s)) (dr_node s) → (len acc - rc_after (lk_relay_cursor (dr_link s)) + limit ≤ limit * len nonces)%Z →
  ∃ s', drain_relay client ios s = Some (true, s') ∧ at_reach s'.
Proof.
  intros Hd Hns Hio Hlim. revert ios s Hd Hns Hio. induction nonces as [|nonce nonces IH]; intros ios s Hd Hns Hio Hal Hlen.
  { rewrite len_nil in Hlen. destruct Hal as (_ & Hb & _). lia. }
  apply Forall2_cons_inv_r in Hio as (io & ios' & -> & Hio & ->). apply nonces_ok_cons in Hns as [Hf Hns].
  destruct (daemon_round limit nonce ios' s Hd Hf Hlim) as (s' & Hd' & Hal' & Hw & [[Hr Hh]|[Hr Hadv]]); [by exists s'|].
  rewrite Hr. destruct (Hadv Hal) as [Hne Hle]. rewrite len_cons in Hlen. pose proof (len_nonneg nonces).
  destruct (decide (len acc = rc_after (lk_relay_cursor (dr_link s)))) as [Hend|Hend].
  - exfalso. apply Hne. destruct Hal as (He & _), Hal' as (He' & Hb' & _).
    destruct (lk_relay_cursor (dr_link s)), (lk_relay_cursor (dr_link s')); cbn in *. f_equal; [congruence|lia].
  - apply IH; [done|by rewrite Hw|done|done|]. destruct Hal as (_ & Hb & _), Hal' as (_ & Hb' & _).
    rewrite Z.mul_add_distr_l, Z.mul_1_r in Hlen. assert (Hone : (1 ≤ len nonces)%Z) by nia. assert (Hlim' : (limit ≤ limit * len nonces)%Z) by nia. lia.
Qed.
End proof.

(** C3: the daemon's drain reaches the head of its peer, or the first arrival its
    registry does not attest.  The peer's arrivals are [acc ++ rest]: those of
    [acc] verify under the keys of the node's registry, are within its clock's
    drift and replay into its store, and the first one of [rest], if any, is of a
    device the registry has no key for or does not verify ([relay_scene]).  The
    network delivers, the node's writes to its disk succeed, its nonces are fresh
    and the peer's replay cache has room for them, and it fetches at most
    [DEFAULT_PULL_LIMIT] ops a round; the cursor is of another stream, or past the
    end, or has before it only ops of [acc], which the node holds.  Then the loop
    breaks out within a round for first contact, a round for every [limit]
    arrivals of [acc] and one more; the cursor is then after the last op of [acc],
    which is the head of the stream when nothing is refused, the node holds every
    op of [acc], and the cursor it saved is the one it would resume from. *)
Theorem drain_reaches_head limit nonce nonces ios (s : State) :
  relay_scene → draining limit s → nonces_ok csk (dr_world s) (nonce :: nonces) → answers ios (nonce :: nonces) →
  (0 < limit ≤ DEFAULT_PULL_LIMIT)%Z → (len acc + limit ≤ limit * len nonces)%Z →
  ∃ s', drain_relay client ios s = Some (true, s') ∧ at_reach s'.
Proof.
  intros Hscene Hd Hns Hio Hlim Hlen.
  apply Forall2_cons_inv_r in Hio as (io & ios' & -> & Hio & ->). apply nonces_ok_cons in Hns as [Hf Hns].
  destruct (daemon_round Hscene limit nonce ios' s Hd Hf Hlim) as (s' & Hd' & Hal' & Hw & [[Hr Hh]|[Hr _]]); [by exists s'|].
  rewrite Hr. apply (drain_aligned Hscene limit nonces); [done|by rewrite Hw|done|done|done|]. destruct Hal' as (_ & Hb & _). lia.
Qed.
End drains.
