(* ===== verification/PullExchange.v ===== *)
(** * The exchange with an honest server

    The page an honest server builds for a drain request, the network that
    carries it, and the drain loop over that network: each page keeps the
    invariant of the two channels, a fresh complete page closes it, and the
    loop ends with every op of the server in the client's log. *)

From S2P Require Import Prelude Ordered External Toy Http Identity Op Registry Store Log Hlc Durable Pull Transport Socket PullServer PullClient PullDrain.
Import BTree.

(** ** The origins of a page *)

Lemma sorted_origins_ok os : StronglySorted olt os → origins_ok os.
Proof.
  destruct 1 as [|o os Hs Hall]; [done|]. split; [|done]. intros Ho.
  rewrite Forall_forall in Hall. by apply (olt_irrefl o), Hall.
Qed.

Lemma StronglySorted_sublist {A} (R : A → A → Prop) l k :
  l `sublist_of` k → StronglySorted R k → StronglySorted R l.
Proof.
  induction 1 as [|x l k Hsub IH|x l k Hsub IH]; [done|..]; intros [Hs Hall]%StronglySorted_inv; [|by apply IH].
  constructor; [by apply IH|]. rewrite Forall_forall in *. intros y Hy. by apply Hall, (elem_of_sublist _ _ _ Hy Hsub).
Qed.

Lemma origins_ok_sublist os os' : os `sublist_of` os' → origins_ok os' → origins_ok os.
Proof.
  destruct os' as [|o os']; intros Hsub; [by apply sublist_nil_r in Hsub as ->|].
  intros [Hni Hs]. apply sublist_cons_r in Hsub as [Hsub|(l & -> & Hsub)].
  - by eapply sorted_origins_ok, StronglySorted_sublist.
  - split; [|by eapply StronglySorted_sublist]. intros Ho. by apply Hni, (elem_of_sublist _ _ _ Ho Hsub).
Qed.

Lemma origin_order_ok resume own origins :
  StronglySorted olt origins → origins_ok (origin_order resume own origins).
Proof.
  intros Hs. unfold origin_order.
  assert (Hf : ∀ P `{!∀ x, Decision (P x)}, StronglySorted olt (filter P origins)).
  { intros P ?. by eapply StronglySorted_sublist, Hs; apply sublist_filter. }
  destruct resume as [r|].
  - destruct (ok (DeviceId_from_hex (r_origin r))); by apply sorted_origins_ok.
  - case_decide; [|by apply sorted_origins_ok]. split; [|apply Hf].
    by intros [? _]%list_elem_of_filter.
Qed.

Lemma fresh_origin_order own origins o : o ∈ origins → o ∈ origin_order None own origins.
Proof.
  intros Ho. unfold origin_order. case_decide; [|done]. apply elem_of_cons.
  destruct (decide (o = own)); [by left|right]. by apply list_elem_of_filter.
Qed.

(** A covered arrival of the scanned ones is served. *)
Lemma elem_of_scanned claims start p i op :
  start ≤ i → covers claims (order_key op) = true → p !! (i - start) = Some op →
  (Z.of_nat i + 1, op)%Z ∈ filter (covered claims) (positions start p).
Proof.
  intros Hi Hc Hp. apply list_elem_of_filter. split; [unfold covered; cbn; by rewrite Hc|].
  apply elem_of_lookup_imap. exists (i - start), op. split; [f_equal; lia|done].
Qed.

Lemma ops_sorted_filter (P : SignedOp → Prop) `{!∀ x, Decision (P x)} ops :
  ops_sorted ops → ops_sorted (filter P ops).
Proof.
  induction ops as [|op ops IH]; intros Hs; [done|]. apply ops_sorted_cons in Hs as [Hs Hlt].
  rewrite filter_cons. case_decide; [|by apply IH]. apply ops_sorted_cons. split; [by apply IH|].
  intros x [_ Hx]%list_elem_of_filter. by apply Hlt.
Qed.

Section built.
Context `{Crypto, Base64, !Base64Ok, Postcard, !Wire EnvelopeRepr, !WireOk EnvelopeRepr}.
Context {S : Type} `{!MeshPullSocket S} (rep : S → list SignedOp → Prop) `{!SocketServes S rep}.
Context (socket : S) (arr : list SignedOp) (Hrep : rep socket arr) (Hwire : Forall wireable arr).

Lemma arr_encodable : encodable arr.
Proof. eapply Forall_impl; [exact Hwire|]. by intros op []. Qed.

(** What a request that claims [claims] and resumes at [resume] is owed by one
    origin: ascending, above the claim and the resume key. *)
Definition due (claims : CoverageVector) (resume : option Resume) (o : DeviceId) : list SignedOp :=
  owed arr claims false (resume_origin_of resume) (resume_key_of resume) None o.

Lemma elem_of_due claims resume o op :
  op ∈ due claims resume o ↔
  op ∈ arr ∧ op_device (op_body op) = o ∧
  above (rows_after (bt_get o claims)
    (if bool_decide (resume_origin_of resume = Some o) then resume_key_of resume else None)) (order_key op).
Proof.
  unfold due, owed. rewrite list_elem_of_filter. unfold origin_row, claim_of.
  rewrite ordered_perm by (by eapply serves_nodup). naive_solver.
Qed.

Lemma due_ok claims resume o :
  Forall (λ op, wireable op ∧ op_device (op_body op) = o) (due claims resume o) ∧
  ops_sorted (due claims resume o).
Proof.
  split.
  - apply Forall_forall. intros op (Hop & Hd & _)%elem_of_due. split; [|done].
    rewrite Forall_forall in Hwire. by apply Hwire.
  - apply ops_sorted_filter, ordered_sorted. by eapply serves_nodup.
Qed.

(** How a page ends: complete, in the middle of the arrivals, or in the middle
    of an origin. *)
Inductive page_ends (claims : CoverageVector) (resume : option Resume) (os : list DeviceId) (start : nat)
    (p served : list SignedOp) : option Resume → Prop :=
  | ends_complete :
      drop start arr = p →
      (is_phase Backfill resume = false → ∀ o op, o ∈ os → op ∈ due claims resume o → op ∈ served) →
      page_ends claims resume os start p served None
  | ends_backfill q :
      drop start arr = p ++ q → p ≠ [] →
      page_ends claims resume os start p served (Some (backfill_resume (Z.of_nat (start + length p))))
  | ends_keyed o op :
      p = [] → op ∈ served → op ∈ due claims resume o →
      page_ends claims resume os start p served (Some (keyed_resume o (Some (order_key op)))).

(** The runs of a page: prefixes of what their origins are due. *)
Definition runs_due (claims : CoverageVector) (resume : option Resume)
    (gs : list (DeviceId * list SignedOp)) : Prop :=
  Forall run_ok gs ∧ origins_ok gs.*1 ∧ Forall (λ r, ∃ q, due claims resume r.1 = r.2 ++ q) gs.

Definition start_of (request : PullRequest) : Z :=
  match pr_resume request with
  | Some r => if decide (r_phase r = Backfill) then r_after_seq r else pr_relay_after request
  | None => pr_relay_after request
  end.

Lemma backfill_ends_page claims resume os start p served res :
  backfill_ends arr start p res →
  (is_phase Backfill resume = false → ∀ o op, o ∈ os → op ∈ due claims resume o → op ∈ served) →
  page_ends claims resume os start p served res.
Proof.
  intros (q & Hq & [[-> ->]|[-> Hp]]) Hserved; [|by eapply ends_backfill].
  rewrite app_nil_r in Hq. by constructor.
Qed.

(** The entries a page may have. *)
Definition page_limit (request : PullRequest) : Z := Z.max 1 (Z.min (pr_limit request) PULL_PAGE_LIMIT_MAX).

(** A page that scanned the arrivals [p] from [start] on and served the runs [gs]. *)
Record page_facts (limit : Z) (claims : CoverageVector) (resume : option Resume) (own : DeviceId)
    (origins : list DeviceId) (start : nat) (p : list SignedOp) (gs : list (DeviceId * list SignedOp))
    (res : option Resume) : Prop := {
  pf_len : (len p + len (concat gs.*2) ≤ limit)%Z;
  pf_prefix : p `prefix_of` drop start arr;
  pf_runs : runs_due claims resume gs;
  pf_backfill : is_phase Backfill resume = true → gs = [];
  pf_ends : page_ends claims resume (origin_order resume own origins) start p (concat gs.*2) res;
}.

(** The page of a request of a drain: not a sweep, not an audit, and no reset. *)
Lemma build_pull_page_ok request stream origins (start : nat) :
  relay_stream_state socket = Ok stream → sock_origins socket = Ok origins → StronglySorted olt origins →
  pr_store request = None → pr_audit request = false →
  (∃ e, decode_epoch (pr_relay_epoch request) = Some e ∧ pull_needs_reset e (pr_relay_after request) stream = false) →
  start_of request = Z.of_nat start → start ≤ length arr →
  let claims := decode_coverage request in
  ∃ p gs res,
    build_pull_page socket request =
      Ok (page_of stream (backfill_entries claims start p) (entry <$> concat gs.*2)
            (Z.of_nat (start + length p)) res None) ∧
    page_facts (page_limit request) claims (pr_resume request) (own_device_id socket) origins start p gs res.
Proof.
  intros Hst Ho Hs Hstore Haudit (e & Hep & Hnr) Hstart Hle claims.
  unfold build_pull_page. rewrite Hst, Hep, Hstore, Haudit. cbn [mbind result_bind ok_or].
  rewrite bool_decide_eq_true_2, Hnr by done. cbn [andb]. fold (start_of request). rewrite Hstart.
  fold (page_limit request). set (limit := page_limit request). assert (Hpos : (1 ≤ limit)%Z) by (subst limit; unfold page_limit; lia).
  set (resume := pr_resume request) in *. fold claims.
  assert (Hprefix : ∀ p res, backfill_ends arr start p res → p `prefix_of` drop start arr).
  { intros p res (q & -> & _). by eexists. }
  destruct (is_phase Backfill resume) eqn:Hph.
  { destruct (build_backfill_ok rep socket arr stream claims [] start limit Hrep arr_encodable)
      as (p & res & Hends & Hlen & ->); [done|lia|].
    exists p, [], res. split; [done|]. split; [cbn; rewrite len_nil; lia|by eapply Hprefix|repeat constructor|done|].
    apply backfill_ends_page; [done|congruence]. }
  assert (Hresume : (if is_phase Keyed resume then resume else None) = resume).
  { destruct resume as [[[] ? ? ?]|]; cbn in *; done. }
  rewrite Hresume.
  destruct (build_keyed_channel_ok rep socket arr Hrep arr_encodable claims resume false limit
    PULL_PAGE_BYTE_BUDGET None (own_device_id socket) origins) as (served & res & -> & Hserves); [lia|done..|].
  cbn [mbind result_bind]. pose proof (serves_origins_len _ _ _ _ _ Hserves) as Hlen.
  destruct (serves_runs (due claims resume) _ _ _ _ (due_ok claims resume) Hserves)
    as (gs & Hconcat & Hrun & Hsub & Hpre & Hcase).
  assert (Hruns : runs_due claims resume gs).
  { split_and!; [done| |done]. by eapply origins_ok_sublist, origin_order_ok. }
  destruct Hcase as [[-> Hall]|(o & op & -> & Hop & Hdue)].
  2:{ exists [], gs, (Some (keyed_resume o (Some (order_key op)))).
      rewrite Hconcat, Nat.add_0_r. split; [done|].
      split; rewrite ?Hconcat, ?len_nil; [done|by apply prefix_nil|done|congruence|by eapply ends_keyed]. }
  assert (Hlt : (len served < limit)%Z) by (by inversion Hserves).
  assert (Hl : len (entry <$> served) = len served) by (unfold len; by rewrite length_fmap).
  rewrite decide_False by (rewrite Hl; lia).
  destruct (build_backfill_ok rep socket arr stream claims (entry <$> served) start
    (limit - len (entry <$> served)) Hrep arr_encodable) as (p & res & Hends & Hlen' & ->); [done|lia|].
  exists p, gs, res. rewrite Hconcat. split; [done|].
  split; rewrite ?Hconcat; [lia|by eapply Hprefix|done|congruence|by apply backfill_ends_page].
Qed.

(** ** The invariant of the two channels

    [held] is what the client holds, [cov] its claims, [n] its cursor: an op
    below the cursor and within the claims is not served again by either
    channel, so it must be held. *)
Definition settled (held : SignedOp → Prop) (cov : CoverageVector) (n : nat) : Prop :=
  ∀ i op, arr !! i = Some op → i < n → covers cov (order_key op) = true → held op.

(** A resume token of a drain: the cursor, or a key within the claims. *)
Definition resume_inv (cov : CoverageVector) (n : nat) (resume : option Resume) : Prop :=
  match resume with
  | None => True
  | Some r =>
      r = backfill_resume (Z.of_nat n) ∨
      ∃ op, r = keyed_resume (op_device (op_body op)) (Some (order_key op)) ∧ op ∈ arr ∧
        covers cov (order_key op) = true
  end.

(** Above the claims, the resume key takes nothing away from what is due. *)
Lemma elem_of_due_uncovered cov n resume op :
  resume_inv cov n resume → op ∈ arr → covers cov (order_key op) = false →
  op ∈ due cov resume (op_device (op_body op)).
Proof.
  intros Hres Hop Hc. apply elem_of_due. split_and!; [done|done|].
  assert (Hclaim : ∀ k, bt_get (op_device (op_body op)) cov = Some k → k ≺ order_key op).
  { intros k Hk. unfold covers in Hc. change (ok_device (order_key op)) with (op_device (op_body op)) in Hc.
    rewrite Hk in Hc. apply bool_decide_eq_false in Hc. rewrite ole_not_olt in Hc. by apply dec_stable. }
  case_bool_decide as Hro.
  2:{ unfold rows_after. destruct (bt_get _ cov) as [k|] eqn:Hk; [by apply Hclaim|done]. }
  destruct resume as [r|]; [|done]. destruct Hres as [->|(op' & -> & Hop' & Hcov)]; [done|].
  assert (Hk' : resume_key_of (Some (keyed_resume (op_device (op_body op')) (Some (order_key op')))) =
    Some (order_key op')).
  { unfold resume_key_of. cbn. apply decode_order_key_encode. rewrite Forall_forall in Hwire.
    by destruct (Hwire op' Hop') as (_ & _ & ?). }
  rewrite Hk'. unfold resume_origin_of in Hro. cbn in Hro. rewrite DeviceId_from_to_hex in Hro.
  cbn in Hro. injection Hro as Hd. unfold covers in Hcov.
  change (ok_device (order_key op')) with (op_device (op_body op')) in Hcov. rewrite Hd in Hcov.
  destruct (bt_get _ cov) as [k|] eqn:Hk; [|done]. apply bool_decide_eq_true in Hcov. cbn.
  apply omax_olt. split; [by apply Hclaim|]. by eapply ole_olt_trans, Hclaim.
Qed.

Lemma due_uncovered cov resume o op :
  op ∈ due cov resume o → op ∈ arr ∧ op_device (op_body op) = o ∧ covers cov (order_key op) = false.
Proof.
  intros (Hop & Hd & Habove)%elem_of_due. split_and!; [done|done|]. unfold covers.
  change (ok_device (order_key op)) with (op_device (op_body op)). rewrite Hd.
  destruct (bt_get o cov) as [k|]; [|done]. apply bool_decide_eq_false. rewrite ole_not_olt.
  intros Hn. apply Hn. cbn in Habove. case_match; [|done]. by apply omax_olt in Habove as [? _].
Qed.

(** An op that is due and at or below the last op of its run is in the run. *)
Lemma run_prefix_elem cov resume run q l op :
  due cov resume run.1 = run.2 ++ q → last run.2 = Some l → op ∈ due cov resume run.1 →
  order_key op ⪯ order_key l → op ∈ run.2.
Proof.
  intros Hdue Hl Hop Hle. destruct (due_ok cov resume run.1) as [_ Hs]. rewrite Hdue in Hop, Hs.
  apply elem_of_app in Hop as [Hop|Hop]; [done|]. exfalso.
  apply ops_sorted_app in Hs as (_ & _ & Hlt). apply last_Some_elem_of in Hl.
  pose proof (Hlt l op Hl Hop) as Hn%olt_not_ole. by apply Hn.
Qed.

Lemma elem_of_runs (gs : list (DeviceId * list SignedOp)) run op :
  run ∈ gs → op ∈ run.2 → op ∈ concat gs.*2.
Proof. intros Hr Hop. apply elem_of_concat. exists run.2. split; [done|]. by apply list_elem_of_fmap_2. Qed.

(** After a page, what was served is held, and the invariant holds again. *)
Lemma page_settles (held held' : SignedOp → Prop) cov resume start p gs :
  settled held cov start → resume_inv cov start resume → runs_due cov resume gs →
  p `prefix_of` drop start arr →
  (∀ op, held op → held' op) →
  (∀ op, op ∈ (filter (covered cov) (positions start p)).*2 ++ concat gs.*2 → held' op) →
  settled held' (foldl advance_run cov gs) (start + length p).
Proof.
  intros Hset Hres (Hrun & _ & Hpre) [q Hp] Hmono Hserved i op Hi Hlt Hc.
  destruct (covers cov (order_key op)) eqn:Hold.
  - destruct (decide (i < start)) as [Hin|Hout]; [by apply Hmono, (Hset i)|].
    apply Hserved, elem_of_app. left. apply list_elem_of_fmap. exists (Z.of_nat i + 1, op)%Z.
    split; [done|]. apply elem_of_scanned; [lia|done|].
    rewrite <-(lookup_app_l p q) by lia. rewrite <-Hp, lookup_drop. by replace (start + (i - start)) with i by lia.
  - destruct (advance_runs_new _ _ _ Hold Hc) as (run & l & Hr & Hl & Hd & Hle).
    rewrite Forall_forall in Hpre. destruct (Hpre run Hr) as [q' Hq'].
    apply Hserved, elem_of_app. right. apply (elem_of_runs gs run); [done|].
    eapply run_prefix_elem; [done|done| |done]. rewrite Hd.
    apply (elem_of_due_uncovered cov start resume); [done| |done]. by eapply list_elem_of_lookup_2.
Qed.

(** A fresh complete page leaves nothing behind. *)
Lemma fresh_page_complete (held held' : SignedOp → Prop) cov start p
    (gs : list (DeviceId * list SignedOp)) own origins :
  settled held cov start → (∀ d, d ∈ origins ↔ ∃ op, op ∈ arr ∧ op_device (op_body op) = d) →
  page_ends cov None (origin_order None own origins) start p (concat gs.*2) None →
  (∀ op, held op → held' op) →
  (∀ op, op ∈ (filter (covered cov) (positions start p)).*2 ++ concat gs.*2 → held' op) →
  ∀ op, op ∈ arr → held' op.
Proof.
  intros Hset Ho Hend Hmono Hserved op [i Hi]%list_elem_of_lookup.
  inversion Hend as [Hp Hall| |]; subst.
  destruct (covers cov (order_key op)) eqn:Hc.
  - destruct (decide (i < start)) as [Hin|Hout]; [by apply Hmono, (Hset i)|].
    apply Hserved, elem_of_app. left. apply list_elem_of_fmap. exists (Z.of_nat i + 1, op)%Z.
    split; [done|]. apply elem_of_scanned; [lia|done|].
    rewrite lookup_drop. by replace (start + (i - start)) with i by lia.
  - apply Hserved, elem_of_app. right. apply list_elem_of_lookup_2 in Hi as Hop.
    apply (Hall eq_refl (op_device (op_body op))).
    + apply fresh_origin_order, Ho. eauto.
    + by apply (elem_of_due_uncovered cov start None).
Qed.

(** The keys of a page's runs are within the claims it leaves. *)
Lemma advance_runs_covers cov gs op :
  Forall run_ok gs → op ∈ concat gs.*2 → covers (foldl advance_run cov gs) (order_key op) = true.
Proof.
  intros Hall. revert cov. induction Hall as [|run gs (Hne & Hops & Hs) _ IH]; intros cov Hop.
  { by apply not_elem_of_nil in Hop. }
  cbn in Hop. apply elem_of_app in Hop as [Hop|Hop]; [|by apply IH].
  cbn. apply advance_runs_mono. destruct (last run.2) as [l|] eqn:Hl; [|by apply last_None in Hl].
  unfold advance_run. rewrite Hl. unfold covers. rewrite advance_claim_get. rewrite Forall_forall in Hops.
  rewrite decide_True by (by destruct (Hops op Hop)). apply bool_decide_eq_true.
  assert (Hle : order_key op ⪯ order_key l).
  { apply last_Some in Hl as [l' Hl]. rewrite Hl in Hop, Hs. apply elem_of_app in Hop as [Hop|Hop].
    - apply ops_sorted_app in Hs as (_ & _ & Hlt). apply olt_ole, Hlt; [done|]. by apply list_elem_of_singleton.
    - by apply list_elem_of_singleton in Hop as ->. }
  destruct (bt_get run.1 cov); [|done]. etrans; [exact Hle|apply ole_omax_r].
Qed.

(** How much of the log a drain still has to hear about. *)
Definition uncovered (cov : CoverageVector) : nat :=
  length (filter (λ op, covers cov (order_key op) = false) arr).

Lemma uncovered_mono cov cov' :
  (∀ k, covers cov k = true → covers cov' k = true) → uncovered cov' ≤ uncovered cov.
Proof.
  intros Hm. apply filter_length_mono. intros op _ Hn. destruct (covers cov (order_key op)) eqn:Hc; [|done].
  apply Hm in Hc. congruence.
Qed.
Lemma uncovered_strict cov cov' op :
  (∀ k, covers cov k = true → covers cov' k = true) → op ∈ arr →
  covers cov (order_key op) = false → covers cov' (order_key op) = true → uncovered cov' < uncovered cov.
Proof.
  intros Hm Hop Hn Hy. apply (filter_length_strict _ _ _ op); [|done|done|congruence].
  intros x _ Hx. destruct (covers cov (order_key x)) eqn:Hc; [|done]. apply Hm in Hc. congruence.
Qed.

(** ** Properties of a page *)

(** C18: the two channels partition what a drain request is missing.  The server's
    ops are of the current envelope version and have an encoding.  A request for
    the whole log (no store is named), that is no audit, resumes nothing, and whose
    cursor stands at a position of the stream is answered, whatever it claims and
    whatever its limit, with arrivals above the cursor that its claims cover on
    channel B, and with ops its claims do not cover on channel A, both together at
    most its limit, taken between 1 and [PULL_PAGE_LIMIT_MAX]; when the page says
    it is complete, nothing of either kind is left out. *)
Theorem page_channels (request : PullRequest) (stream : RelayStreamState) (after : nat) :
  relay_stream_state socket = Ok stream →
  pr_store request = None → pr_audit request = false → pr_resume request = None → pr_relay_after request = Z.of_nat after → after ≤ length arr →
  (∃ e, decode_epoch (pr_relay_epoch request) = Some e ∧ pull_needs_reset e (pr_relay_after request) stream = false) →
  let claims := decode_coverage request in
  ∃ page back served, build_pull_page socket request = Ok page ∧
    pp_backfill page = (λ so, (so.1, entry so.2)) <$> back ∧ pp_keyed page = entry <$> served ∧
    (len back + len served ≤ page_limit request)%Z ∧
    (∀ seq op, (seq, op) ∈ back →
      ∃ i, after ≤ i ∧ seq = (Z.of_nat i + 1)%Z ∧ arr !! i = Some op ∧ covers claims (order_key op) = true) ∧
    (∀ op, op ∈ served → op ∈ arr ∧ covers claims (order_key op) = false) ∧
    (pp_complete page = true →
      (∀ i op, after ≤ i → arr !! i = Some op → covers claims (order_key op) = true →
        (Z.of_nat i + 1, op)%Z ∈ back) ∧
      (∀ op, op ∈ arr → covers claims (order_key op) = false → op ∈ served)).
Proof.
  intros Hst Hstore Haudit Hres Hafter Hle Hnr claims.
  destruct (serves_origin_set socket arr Hrep) as (origins & Ho & Hsort & Hin).
  destruct (build_pull_page_ok request stream origins after) as (p & gs & res & Hb & [Hlen Hpre Hruns _ Hends]);
    [try done..|unfold start_of; by rewrite Hres|done|].
  fold claims in Hb, Hruns, Hends. rewrite Hres in Hruns, Hends.
  set (back := filter (covered claims) (positions after p)).
  eexists _, back, (concat gs.*2). split; [exact Hb|]. split_and!; [done|done|..].
  - assert (Hbf : (len back ≤ len p)%Z).
    { subst back. unfold len, positions. etrans; [apply Nat2Z.inj_le, length_filter|]. by rewrite length_imap. }
    lia.
  - intros seq op [Hc Hso]%list_elem_of_filter. destruct Hpre as [q Hq].
    unfold positions in Hso. apply elem_of_lookup_imap in Hso as (i & x & [= -> <-] & Hi).
    exists (after + i). split_and!; [lia|done| |unfold covered in Hc; cbn in Hc; by apply Is_true_true].
    rewrite <-lookup_drop, Hq. by apply lookup_app_l_Some.
  - intros op (ops & Hop & (run & -> & Hrun)%list_elem_of_fmap)%elem_of_concat.
    destruct Hruns as (_ & _ & Hdue). rewrite Forall_forall in Hdue. destruct (Hdue run Hrun) as [q Hq].
    destruct (due_uncovered claims None run.1 op) as (? & _ & ?); [|done].
    rewrite Hq. by apply elem_of_app; left.
  - cbn. intros ->%bool_decide_eq_true. inversion Hends as [Hp Hall| |]; subst p. split.
    + intros i op Hi Hop Hc. apply elem_of_scanned; [done|done|].
      rewrite lookup_drop. by replace (after + (i - after)) with i by lia.
    + intros op Hop Hc. apply (Hall eq_refl (op_device (op_body op))).
      * apply fresh_origin_order, Hin. eauto.
      * by apply (elem_of_due_uncovered claims after None).
Qed.

(** ** Sweeps and audits

    The slice of one origin in one store, as a sweep (which ignores claims)
    asks for it. *)
Definition slice (store : string) (o : DeviceId) : list SignedOp :=
  filter (origin_row o None (Some store)) (ordered arr).

Lemma sweep_page_ok request stream store origins :
  relay_stream_state socket = Ok stream → sock_origins socket = Ok origins → StronglySorted olt origins →
  (∃ e, decode_epoch (pr_relay_epoch request) = Some e) →
  pr_store request = Some store → pr_audit request = true → (0 < pr_limit request ≤ PULL_PAGE_LIMIT_MAX)%Z →
  is_phase Backfill (pr_resume request) = false →
  ∃ served res,
    build_pull_page socket request =
      Ok (page_of stream [] (entry <$> served) (pr_relay_after request) res (Some store)) ∧
    serves_origins (owed arr (decode_coverage request) true (resume_origin_of (pr_resume request))
        (resume_key_of (pr_resume request)) (Some store)) (pr_limit request)
      (origin_order (pr_resume request) (own_device_id socket) origins) served res.
Proof.
  intros Hst Ho Hs [e He] Hstore Haudit Hlim Hph. unfold build_pull_page.
  rewrite Hst, He, Hstore, Haudit. cbn [mbind result_bind ok_or].
  rewrite bool_decide_eq_false_2 by done. cbn [andb].
  replace (Z.max 1 (Z.min (pr_limit request) PULL_PAGE_LIMIT_MAX)) with (pr_limit request) by lia.
  assert (Hresume : (if is_phase Keyed (pr_resume request) then pr_resume request else None) = pr_resume request).
  { destruct (pr_resume request) as [[[] ? ? ?]|]; cbn in *; done. }
  rewrite Hresume.
  destruct (build_keyed_channel_ok rep socket arr Hrep arr_encodable (decode_coverage request)
    (pr_resume request) true (pr_limit request) PULL_PAGE_BYTE_BUDGET (Some store) (own_device_id socket) origins)
    as (served & res & -> & Hserves); [lia|done|done|done|].
  by exists served, res.
Qed.

(** A request of a sweep of [store]. *)
Definition sweep_request (store : string) (request : PullRequest) : Prop :=
  pr_store request = Some store ∧ pr_audit request = true ∧
  (0 < pr_limit request ≤ PULL_PAGE_LIMIT_MAX)%Z ∧ is_Some (decode_epoch (pr_relay_epoch request)).

Lemma serves_first_over sel limit o os served res :
  serves_origins sel limit (o :: os) served res → (limit ≤ len (sel o))%Z →
  ∃ op, res = Some (keyed_resume o (Some (order_key op))) ∧ ∀ x, x ∈ served → x ∈ sel o.
Proof.
  intros Hs Hover. inversion Hs as [os' Hlen|[|o' os1] o1 os2 p op q Hsel Hlen]; simplify_eq/=.
  - rewrite len_app in Hlen. pose proof (len_nonneg (concat (sel <$> os))). lia.
  - exists op. split; [done|]. intros x Hx. rewrite Hsel. set_solver.
  - rewrite !len_app in Hlen. pose proof (len_nonneg (concat (sel <$> os1))). pose proof (len_nonneg p).
    change (len [op]) with 1%Z in Hlen. lia.
Qed.

Lemma serves_resume_form sel limit os served r :
  serves_origins sel limit os served (Some r) → ∃ o op, o ∈ os ∧ r = keyed_resume o (Some (order_key op)).
Proof. intros Hs. inversion Hs as [|os1 o1 os2 p op q Hsel Hlen]; simplify_eq. exists o1, op. set_solver. Qed.

(** A sweep can leave origins out.  When the server's own slice of the
    store fills a page, the fresh page carries own ops only and a resume token
    at the server's own origin; and a page resumed at an origin not below the
    server's own carries only ops of such origins, and a resume token at such
    an origin again.  So the ops of the origins that sort below the server's own
    are on no page of the sweep, although [sweep_store] promises the peer's
    entire slice. *)
Lemma sweep_misses_lower_origins (store : string) (request : PullRequest) (stream : RelayStreamState) :
  let own := own_device_id socket in
  relay_stream_state socket = Ok stream → sweep_request store request → pr_resume request = None →
  slice store own ≠ [] → (pr_limit request ≤ len (slice store own))%Z →
  (∃ page served op, build_pull_page socket request = Ok page ∧ pp_keyed page = entry <$> served ∧
    (∀ x, x ∈ served → op_device (op_body x) = own) ∧
    pp_resume page = Some (keyed_resume own (Some (order_key op)))) ∧
  (∀ request' o key, sweep_request store request' → own ⪯ o → pr_resume request' = Some (keyed_resume o key) →
    ∃ page served, build_pull_page socket request' = Ok page ∧ pp_keyed page = entry <$> served ∧
      (∀ x, x ∈ served → own ⪯ op_device (op_body x)) ∧
      (∀ r, pp_resume page = Some r → ∃ o' key', own ⪯ o' ∧ r = keyed_resume o' key')).
Proof.
  intros own Hst Hreq Hfresh Hne Hover.
  destruct (serves_origin_set socket arr Hrep) as (origins & Ho & Hsort & Hin).
  assert (Hdev : ∀ claims ro rk o x, x ∈ owed arr claims true ro rk (Some store) o → op_device (op_body x) = o).
  { intros claims ro rk o x [(Hd & _) _]%list_elem_of_filter. done. }
  split.
  - destruct Hreq as (Hs & Ha & Hl & [e He]).
    destruct (sweep_page_ok request stream store origins) as (served & res & Hb & Hserves);
      [done|done|done|by exists e|done|done|done|by rewrite Hfresh|].
    rewrite Hfresh in Hserves. unfold origin_order in Hserves.
    assert (Hown : own ∈ origins).
    { destruct (slice store own) as [|x l] eqn:Hsl; [done|].
      assert (x ∈ slice store own) as [(Hd & _) Hx]%list_elem_of_filter by (rewrite Hsl; by left).
      apply Hin. exists x. split; [|done]. by rewrite ordered_perm in Hx by (by eapply serves_nodup). }
    rewrite decide_True in Hserves by done.
    destruct (serves_first_over _ _ _ _ _ _ Hserves Hover) as (op & -> & Hsv).
    eexists _, served, op. split; [exact Hb|]. split_and!; [done| |done].
    intros x Hx. by eapply Hdev, Hsv.
  - intros request' o key (Hs & Ha & Hl & [e He]) Hle Hres.
    destruct (sweep_page_ok request' stream store origins) as (served & res & Hb & Hserves);
      [done|done|done|by exists e|done|done|done|by rewrite Hres|].
    rewrite Hres in Hserves. cbn [origin_order keyed_resume r_origin] in Hserves.
    rewrite DeviceId_from_to_hex in Hserves. cbn [ok] in Hserves.
    eexists _, served. split; [exact Hb|]. split_and!; [done|..].
    + intros x Hx. destruct (serves_origins_in _ _ _ _ _ _ Hserves Hx) as (o' & [Ho' _]%list_elem_of_filter & Hxo).
      rewrite (Hdev _ _ _ _ _ Hxo). by etrans.
    + cbn. intros r ->. destruct (serves_resume_form _ _ _ _ _ Hserves) as (o' & op & [Ho' _]%list_elem_of_filter & ->).
      eexists o', _. split; [|done]. by etrans.
Qed.

(** An audit of a log that fills a page is never answered complete.  An audit
    ignores the claims, so a fresh audit request asks for every op again; when
    the log holds at least a page of ops, the page that answers it says it is
    incomplete, and [drain_pull_pages], which only ends on a fresh complete page,
    cannot end with [Applied]. *)
Lemma audit_never_complete (request : PullRequest) (stream : RelayStreamState) :
  relay_stream_state socket = Ok stream → pr_store request = None → pr_audit request = true →
  (0 < pr_limit request ≤ PULL_PAGE_LIMIT_MAX)%Z → pr_resume request = None →
  (∃ e, decode_epoch (pr_relay_epoch request) = Some e ∧ pull_needs_reset e (pr_relay_after request) stream = false) →
  (pr_limit request ≤ len arr)%Z →
  ∃ page, build_pull_page socket request = Ok page ∧ pp_complete page = false.
Proof.
  intros Hst Hstore Haudit Hlim Hfresh (e & He & Hnr) Hbig. unfold build_pull_page.
  destruct (serves_origin_set socket arr Hrep) as (origins & Ho & Hsort & Hin).
  rewrite Hst, He, Hstore, Haudit, Hfresh. cbn [mbind result_bind ok_or is_phase].
  rewrite bool_decide_eq_true_2, Hnr by done. cbn [andb].
  replace (Z.max 1 (Z.min (pr_limit request) PULL_PAGE_LIMIT_MAX)) with (pr_limit request) by lia.
  destruct (build_keyed_channel_ok rep socket arr Hrep arr_encodable (decode_coverage request)
    None true (pr_limit request) PULL_PAGE_BYTE_BUDGET None (own_device_id socket) origins)
    as (served & res & -> & Hserves); [lia|done|done|done|].
  cbn [mbind result_bind]. destruct res as [r|]; [by eexists|]. exfalso.
  set (sel := owed arr (decode_coverage request) true None None None) in *.
  assert (Hall : (len (concat (sel <$> origin_order None (own_device_id socket) origins)) < pr_limit request)%Z)
    by (by inversion Hserves).
  enough (len arr ≤ len (concat (sel <$> origin_order None (own_device_id socket) origins)))%Z by lia.
  unfold len. apply Nat2Z.inj_le, submseteq_length, NoDup_submseteq.
  - eapply NoDup_fmap_1, serves_nodup, Hrep.
  - intros op Hop. apply elem_of_concat. eexists. split; [|apply list_elem_of_fmap_2, (fresh_origin_order _ _ (op_device (op_body op))), Hin; eauto].
    apply list_elem_of_filter. split; [done|]. by rewrite ordered_perm by (by eapply serves_nodup).
Qed.
End built.

(** ** Resets *)

Section reset.
Context `{Crypto, Base64} {S : Type} `{!MeshPullSocket S}.

Lemma build_backfill_reset (socket : S) stream claims keyed start budget page :
  build_backfill socket stream claims keyed start budget = Ok page → pp_reset page = false.
Proof.
  unfold build_backfill. intros (rows & _ & Hp)%bind_ok. destruct (backfill_loop _ _ _ _ _ _) as [[a b] c].
  by injection Hp as <-.
Qed.

(** Server and client agree on resets.  A page answers a drain request with a
    reset exactly when the requested cursor is not one of the stream's; the
    client's validation accepts that reset page and takes the cursor at the
    floor, and a request from that cursor is not reset again. *)
Lemma reset_agreement (socket : S) (request : PullRequest) (page : PullPage) stream e :
  relay_stream_state socket = Ok stream → (rs_floor stream ≤ rs_head stream)%Z → rs_epoch stream ≠ zeros 32 →
  pr_store request = None → decode_epoch (pr_relay_epoch request) = Some e →
  build_pull_page socket request = Ok page →
  pp_reset page = pull_needs_reset e (pr_relay_after request) stream ∧
  (pp_reset page = true →
    validate_pull_reset request page (rs_epoch stream) = Ok (mk_cursor (rs_epoch stream) (rs_floor stream)) ∧
    pull_needs_reset (rs_epoch stream) (rs_floor stream) stream = false).
Proof.
  intros Hst Hf Hne Hstore He Hb.
  assert (Hfix : pull_needs_reset (rs_epoch stream) (rs_floor stream) stream = false).
  { unfold pull_needs_reset. rewrite (bool_decide_eq_false_2 (rs_epoch stream = zeros 32)) by done.
    rewrite (bool_decide_eq_false_2 (rs_epoch stream ≠ rs_epoch stream)) by (intros Hn; by apply Hn).
    rewrite (bool_decide_eq_false_2 (rs_floor stream < rs_floor stream)%Z) by lia.
    rewrite (bool_decide_eq_false_2 (rs_head stream < rs_floor stream)%Z) by lia. by rewrite !andb_false_r. }
  unfold build_pull_page in Hb. rewrite Hst, He, Hstore in Hb. cbn [mbind result_bind ok_or] in Hb.
  rewrite bool_decide_eq_true_2 in Hb by done. cbn [andb] in Hb.
  destruct (pull_needs_reset e (pr_relay_after request) stream) eqn:Hnr.
  - injection Hb as <-. split; [done|]. intros _. split; [|done].
    by rewrite (validate_reset_page _ _ e He Hf), Hnr.
  - enough (pp_reset page = false) as -> by done. case_match; [by eapply build_backfill_reset|].
    apply bind_ok in Hb as ([keyed res] & _ & Hb). destruct res as [r|]; [by injection Hb as <-|].
    case_decide; [by injection Hb as <-|]. by eapply build_backfill_reset.
Qed.
End reset.
