(* ===== verification/Drain.v ===== *)
(** * The drain over a network

    A client and an honest server joined by a network that delivers: the
    composition of [drain_pull_pages] with [post_pull].  The drain ends, with
    the outcome [Applied], and the client then holds every op of the server that
    was signed by a device it knows. *)

From S2P Require Import Prelude Ordered External Toy Http Identity Op Registry Store Log Hlc Durable Pull Transport Socket PullServer PullClient PullDrain PullExchange.
Import BTree.

Section net.
Context `{Crypto, Base64, Postcard, !Wire BodyRepr, !Wire EnvelopeRepr}.
Context `{Json, !JsonWire PullRequest, !JsonWire PullPage}.
Context {L D : Type} `{!LogSource L, !DeviceBook D}.

(** The server behind a base URL, and what its wall clock answers, request by
    request. *)
Record Net : Type := mk_net {
  net_base : string;
  net_server : ServeState L D;
  net_clock : nat → Z;
}.

Definition serve_at (s : ServeState L D) (ms : Z) : ServeState L D :=
  mk_serve (ss_identity s) (ss_log s) (ss_devices s) (ss_relay_callers s) (ss_watch s) (ss_permits s)
    (ss_replays s) ms (ss_instant s).

(** The network delivers: a POST on the pull path reaches [post_pull], and its
    response comes back whole. *)
Definition net_post (n : Net) (url : string) (body : bytes) : result string HttpReply * Net :=
  if decide (url = net_base n +:+ PULL_PATH) then
    let '(resp, server) := post_pull (serve_at (net_server n) (net_clock n 0)) body in
    (Ok (mk_reply (resp_status resp) (resp_headers resp) (Some (len (resp_body resp))) (Ok (resp_body resp))),
     mk_net (net_base n) server (λ k, net_clock n (S k)))
  else (Ok (mk_reply NOT_FOUND [] (Some 0%Z) (Ok [])), n).
#[export] Instance net_world : HttpWorld Net := {|
  http_get := λ n _ _, (Ok (mk_reply NOT_FOUND [] (Some 0%Z) (Ok [])), n);
  http_post := net_post;
|}.
End net.
Arguments Net {_} L D.

Section drain.
Context `{Crypto, !CryptoOk, Base64, !Base64Ok, Uhlc}.
Context `{Postcard, !Wire BodyRepr, !Wire EnvelopeRepr, !WireOk EnvelopeRepr}.
Context `{Json, !JsonWire PullRequest, !JsonWire PullPage, !JsonWireOk PullRequest, !JsonWireOk PullPage}.
Context {T L D : Type} `{!Store T, !LogSource L, !DeviceBook D} (lrep : L → list SignedOp → Prop)
  `{!LogSourceOk L lrep}.

(** ** The scene

    The server [ssk] and its log, the client [csk] it knows. *)
Context (ssk csk : SigningKey) (arr : list SignedOp) (stream : RelayStreamState) (base : string).
Notation peer := (device_id (from_signing ssk)).
Notation peer_key := (public_key_sec1 (from_signing ssk)).
Notation me := (device_id (from_signing csk)).

Definition honest_server (s : ServeState L D) : Prop :=
  ss_identity s = from_signing ssk ∧ lrep (ss_log s) arr ∧ serve_relay_stream_state s = Ok stream ∧
  try_key_for_device (ss_relay_callers s) me = Ok (Some (public_key_sec1 (from_signing csk))).

(** The entries and positions of the server's log, as a page carries them. *)
Definition honest_resume (r : Resume) : Prop :=
  (∃ n, n ≤ length arr ∧ r = backfill_resume (Z.of_nat n)) ∨
  ∃ op, op ∈ arr ∧ r = keyed_resume (op_device (op_body op)) (Some (order_key op)).
Inductive honest_page : PullPage → Prop :=
  | honest_reset : honest_page (reset_pull_page stream)
  | honest_data backfill keyed (next : nat) resume :
      next ≤ length arr →
      (len backfill + len keyed ≤ PULL_PAGE_LIMIT_MAX)%Z →
      Forall (λ e, (0 ≤ e.1 ≤ len arr)%Z ∧ ∃ op, op ∈ arr ∧ e.2 = entry op) backfill →
      Forall (λ e, ∃ op, op ∈ arr ∧ e = entry op) keyed →
      (∀ r, resume = Some r → honest_resume r) →
      honest_page (page_of stream backfill keyed (Z.of_nat next) resume None).

(** What the handler answers an authenticated request with. *)
Definition answers (s : ServeState L D) (request : PullRequest) (page : PullPage) : Prop :=
  match admit_pull_ack s me request with
  | (Ok (Some p), s') => p = page ∧ s' = s
  | (Ok None, s') => build_pull_page s request = Ok page ∧ s' = s
  | (Err _, _) => False
  end.

(** The client: its registry, the clocks it can have, the ops its store can
    replay, and whether it skips the ops of devices it does not know. *)
Context (registry : DeviceRegistry) (fine : NodeClock → Prop) (U : SignedOp → Prop) (skip : bool).
Notation Client := (OpLogPullSocket T).
Notation client_inv := (client_inv registry fine U).
Notation known := (known registry).

(** What the drain is promised.  The codecs carry what is exchanged: a request
    can be signed, and a page this server answers a request with, within the
    page's own budget, can be sealed within the size the client accepts.  The
    client's clock stays among [fine], its store replays every log of [U] ops;
    the ops of the server travel the wire, and those of a device the client has
    a key for verify under it, are within the clock's drift and are in [U].
    Unless the client skips the ops of unknown devices, there are none. *)
Record drain_scene : Prop := {
  sc_sign : ∀ request hlc, ∃ bs, sign_pull_request request (from_signing csk) hlc = Ok bs;
  sc_seal : ∀ s request page hlc, honest_server s → answers s request page → honest_page page → u64_ok hlc →
    ∃ bs, seal_pull_page page (from_signing ssk) hlc = Ok bs ∧ (len bs ≤ MAX_PULL_RESPONSE_BYTES)%Z;
  sc_replay : ∀ l (t : T), Forall U (log_iter l) → ∃ t', replay l t = (Ok (), t');
  sc_now : ∀ c, fine c → fine (clock_now c).2;
  sc_ops : Forall (good registry fine U) arr;
  sc_skip : attested registry skip arr;
}.

Section proof.
Context (Hsign : ∀ request hlc, ∃ bs, sign_pull_request request (from_signing csk) hlc = Ok bs).
Context (Hseal : ∀ s request page hlc, honest_server s → answers s request page → honest_page page → u64_ok hlc →
  ∃ bs, seal_pull_page page (from_signing ssk) hlc = Ok bs ∧ (len bs ≤ MAX_PULL_RESPONSE_BYTES)%Z).

(** The two wall clocks agree up to the skew the server tolerates. *)
Definition clocks_agree (now clock : nat → Z) : Prop :=
  ∀ i j, (Z.abs (clock j - now i) ≤ MAX_REQUEST_SKEW_MS)%Z.

Record net_ok (now : nat → Z) (n : Net L D) : Prop := {
  no_base : net_base n = base;
  no_server : honest_server (net_server n);
  no_clocks : clocks_agree now (net_clock n);
}.

Lemma hlc_of_ms_u64 ms : u64_ok (hlc_of_ms ms).
Proof. unfold hlc_of_ms, u64_ok. apply Z.mod_pos_bound. done. Qed.

(** One exchange: the client reads back the page the server built. *)
Lemma exchange_ok (now : nat → Z) n limit request hlc page :
  net_ok now n → pr_version request = PULL_VERSION → (∃ i, pr_issued_at_ms request = now i) →
  answers (serve_at (net_server n) (net_clock n 0)) request page → honest_page page →
  ∃ signed bs n', sign_pull_request request (from_signing csk) hlc = Ok signed ∧
    pull_bytes n (mk_source base limit) signed = (Ok (OK, bs), n') ∧
    verify_pull_page bs peer peer_key = Ok page ∧ net_ok now n'.
Proof.
  intros [Hbase (Hid & Hlog & Hst & Hkey) Hclk] Hver [i Hi] Hbuild Hpage.
  destruct (Hsign request hlc) as [signed Hsigned]. set (ms := net_clock n 0).
  destruct (Hseal (serve_at (net_server n) ms) request page (hlc_of_ms ms)) as (bs & Hbs & Hlen);
    [by split_and!|done|done|apply hlc_of_ms_u64|].
  exists signed, bs, (mk_net base (serve_at (net_server n) ms) (λ k, net_clock n (S k))). fold ms in Hbuild.
  assert (Hpost : post_pull (serve_at (net_server n) ms) signed = (octet bs, serve_at (net_server n) ms)).
  { unfold post_pull. cbn [ph_lookup_peer_sec1 ph_now_ms serve_handler serve_at ss_clock ss_relay_callers].
    rewrite (signed_request_verifies request csk hlc signed ms
      (λ d, try_key_for_device (ss_relay_callers (net_server n)) d) Hsigned Hkey Hver)
      by (rewrite Hi; apply Hclk).
    cbn [ph_is_peer_trusted ph_is_coverage_primed ph_admit_pull_ack ph_serve_pull ph_identity
      ph_response_hlc serve_handler].
    unfold answers in Hbuild. fold (serve_at (net_server n) ms).
    destruct (admit_pull_ack (serve_at (net_server n) ms) me request) as [[[p|]|e] s']; [..|done].
    - destruct Hbuild as [-> ->]. cbn [serve_at ss_identity ss_clock]. by rewrite Hid, Hbs.
    - destruct Hbuild as [Hb ->]. rewrite Hb. cbn [serve_at ss_identity ss_clock]. by rewrite Hid, Hbs. }
  split_and!; [done|..].
  - unfold pull_bytes. cbn [http_post net_world base_url]. unfold net_post. fold ms.
    rewrite Hbase, decide_True, Hpost by done.
    cbn [rep_content_length octet resp_body resp_status rep_body rep_status resp_headers].
    rewrite bool_decide_eq_false_2, decide_False by lia. done.
  - destruct Hpage; apply (sealed_page_verifies _ _ _ _ Hbs); try done; cbn [pp_backfill pp_keyed page_of];
      pose proof (len_nonneg backfill); pose proof (len_nonneg keyed); unfold PULL_PAGE_LIMIT_MAX in *; lia.
  - split; [done|done|]. intros a b. apply Hclk.
Qed.

Lemma stream_facts s :
  honest_server s → rs_epoch stream ≠ zeros 32 ∧ rs_head stream = len arr ∧ rs_floor stream = 0%Z.
Proof.
  intros (_ & Hlog & Hst & _). destruct (serves_stream s arr Hlog) as (st & Hst' & ?).
  cbn in Hst'. rewrite Hst in Hst'. by injection Hst' as <-.
Qed.

(** An epoch and a position the stream accepts. *)
Definition accepted (e : barr 32) (after : Z) : Prop :=
  (e = zeros 32 ∨ e = rs_epoch stream) ∧ (0 ≤ after ≤ len arr)%Z.
Lemma accepted_no_reset s e after :
  honest_server s → accepted e after → pull_needs_reset e after stream = false.
Proof.
  intros Hs [He Ha]. destruct (stream_facts s Hs) as (Hne & Hh & Hf).
  unfold pull_needs_reset. rewrite Hh, Hf. rewrite !(bool_decide_eq_false_2 (_ < _)%Z) by lia.
  rewrite andb_false_r. cbn [orb]. rewrite andb_false_r, orb_false_r.
  destruct He as [->| ->]; [by rewrite (bool_decide_eq_false_2 (zeros 32 ≠ zeros 32)) by naive_solver|].
  by rewrite (bool_decide_eq_false_2 (rs_epoch stream ≠ rs_epoch stream)), andb_false_r by naive_solver.
Qed.

Lemma admit_ack_accepted s request e :
  honest_server s → decode_epoch (pr_relay_epoch request) = Some e → accepted e (pr_relay_after request) →
  admit_pull_ack s me request = (Ok None, s).
Proof.
  intros Hs He Ha. unfold admit_pull_ack. rewrite He. pose proof Hs as (_ & _ & Hst & _).
  cbn [relay_stream_state serve_socket]. rewrite Hst, (accepted_no_reset s) by done. by case_decide.
Qed.

Context (Hwire : Forall wireable arr).

Lemma honest_entries claims start p :
  p `prefix_of` drop start arr → start ≤ length arr →
  Forall (λ e, (0 ≤ e.1 ≤ len arr)%Z ∧ ∃ op, op ∈ arr ∧ e.2 = entry op) (backfill_entries claims start p).
Proof.
  intros [q Hq] Hs. apply Forall_fmap, Forall_forall. intros so [_ Hso]%list_elem_of_filter.
  apply positions_bound in Hso as [Hb Hso]. cbn. split.
  - apply (f_equal length) in Hq. rewrite length_drop, length_app in Hq. unfold len. lia.
  - exists so.2. split; [|done]. apply (elem_of_drop_1 start). rewrite Hq. by apply elem_of_app; left.
Qed.

(** The answer to a request of the drain, or of its preview. *)
Lemma server_answers s request e (start : nat) :
  honest_server s → decode_epoch (pr_relay_epoch request) = Some e → accepted e (pr_relay_after request) →
  pr_store request = None → pr_audit request = false → pr_limit request = PULL_PAGE_LIMIT_MAX →
  start_of request = Z.of_nat start → start ≤ length arr →
  let claims := decode_coverage request in
  ∃ p gs res origins,
    (∀ d, d ∈ origins ↔ ∃ op, op ∈ arr ∧ op_device (op_body op) = d) ∧
    page_facts arr PULL_PAGE_LIMIT_MAX claims (pr_resume request) peer origins start p gs res ∧
    answers s request (page_of stream (backfill_entries claims start p) (entry <$> concat gs.*2)
      (Z.of_nat (start + length p)) res None) ∧
    honest_page (page_of stream (backfill_entries claims start p) (entry <$> concat gs.*2)
      (Z.of_nat (start + length p)) res None).
Proof.
  intros Hs He Ha Hstore Haudit Hlimit Hstart Hle claims. pose proof Hs as (Hid & Hlog & Hst & _).
  destruct (serves_origin_set s arr Hlog) as (origins & Ho & Hsort & Hin).
  destruct (build_pull_page_ok (λ s arr, lrep (ss_log s) arr) s arr Hlog Hwire request stream origins start)
    as (p & gs & res & Hb & Hf); try done.
  { exists e. split; [done|]. by apply (accepted_no_reset s). }
  fold claims in Hb, Hf. cbn [own_device_id serve_socket] in Hf. rewrite Hid in Hf. unfold page_limit in Hf. rewrite Hlimit in Hf.
  change (Z.max 1 (Z.min PULL_PAGE_LIMIT_MAX PULL_PAGE_LIMIT_MAX)) with PULL_PAGE_LIMIT_MAX in Hf.
  exists p, gs, res, origins. split_and!; [done|done|unfold answers; by rewrite (admit_ack_accepted s request e)|].
  destruct Hf as [Hlen Hpre (Hrun & Hord & Hdue) Hback Hends].
  assert (Hp : start + length p ≤ length arr).
  { destruct Hpre as [q Hq]. apply (f_equal length) in Hq. rewrite length_drop, length_app in Hq. lia. }
  constructor; [done| |by apply honest_entries| |].
  - assert (Hbf : (len (backfill_entries claims start p) ≤ len p)%Z).
    { unfold len, backfill_entries, positions. rewrite length_fmap.
      etrans; [apply Nat2Z.inj_le, length_filter|]. by rewrite length_imap. }
    unfold len in *. rewrite length_fmap. lia.
  - apply Forall_fmap, Forall_forall. intros op Hop. exists op. split; [|done].
    apply elem_of_concat in Hop as (ops & Hop & (run & -> & Hrun')%list_elem_of_fmap).
    rewrite Forall_forall in Hdue. destruct (Hdue run Hrun') as [q Hq].
    eapply (due_uncovered _ s arr Hlog claims (pr_resume request) run.1). rewrite Hq. by apply elem_of_app; left.
  - intros r ->. inversion Hends as [|q Hq Hne|o op Hp0 Hop Hd]; subst; [by left; eexists|right].
    apply (due_uncovered _ s arr Hlog) in Hd as (Hin' & <- & _). by exists op.
Qed.

(** ** The client *)

Context (Hreplay : ∀ l (t : T), Forall U (log_iter l) → ∃ t', replay l t = (Ok (), t')).
Context (Hnow : ∀ c, fine c → fine (clock_now c).2).
Context (Hgood : Forall (good registry fine U) arr) (Hskip : attested registry skip arr).

(** The client holds an op, when it can at all. *)
Definition held (s : Client) (op : SignedOp) : Prop := known op → log_contains (os_log s) (op_id op) = true.

(** The cursor at position [k] of the server's arrivals. *)
Definition cursor_at (cursor : option RelayCursor) (k : nat) : Prop :=
  cursor = None ∧ k = 0 ∨ cursor = Some (mk_cursor (rs_epoch stream) (Z.of_nat k)) ∧ k ≤ length arr.

Lemma cursor_accepted cursor k :
  cursor_at cursor k → accepted (cursor_epoch cursor) (cursor_after cursor) ∧
  cursor_after cursor = Z.of_nat k ∧ k ≤ length arr.
Proof.
  unfold accepted, len. intros [[-> ->]|[-> Hk]]; cbn; split_and!; auto; lia.
Qed.

(** The client before or between exchanges, facing the network [n]. *)
Record client_ok (s : Client) (n : Net L D) : Prop := {
  co_inv : client_inv s;
  co_identity : os_identity s = from_signing csk;
  co_coverage : coverage_wf (os_coverage s);
  co_net : net_ok (os_now s) n;
}.

(** What a preview, or the making of a request, leaves alone. *)
Record grows (s s' : Client) : Prop := {
  gr_held : ∀ op, held s op → held s' op;
  gr_coverage : os_coverage s' = os_coverage s;
}.

(** Making a request reads the wall clock and draws a timestamp. *)
Definition asked (s : Client) : Client := (next_hlc (sock_now_ms s).2).2.
Definition asked_hlc (s : Client) : Hlc := (next_hlc (sock_now_ms s).2).1.

Lemma net_ok_tail now n : net_ok now n → net_ok (λ i, now (S i)) n.
Proof. intros [? ? Hc]. split; [done|done|]. intros i j. apply Hc. Qed.

Lemma asked_now s : os_now (asked s) = λ i, os_now s (S i).
Proof. unfold asked. cbn. by destruct (clock_now (os_clock s)). Qed.

Lemma asked_ok s n : client_ok s n → client_ok (asked s) n ∧ grows s (asked s).
Proof.
  intros [Hi Hid Hcov Hn]. unfold asked. cbn. destruct Hi as (Hreg & Hf & Hlog).
  pose proof (Hnow _ Hf) as Hf'. destruct (clock_now (os_clock s)) as [t c]. cbn in *.
  split; [|by split]. split; cbn; [by split_and!|done|done|by apply net_ok_tail].
Qed.

(** After an admission, what was held is held, and so are the admitted ops. *)
Lemma held_append s s' ops :
  client_inv s → os_log s' = append_all (os_log s) (filter known ops) →
  (∀ op, held s op → held s' op) ∧ ∀ op, op ∈ ops → held s' op.
Proof.
  intros (_ & _ & carr & Hr & _) Hlog. unfold held. rewrite Hlog. split; intros op Hop Hk.
  - by eapply log_contains_stays, Hop.
  - eapply log_contains_append_all; [done|]. apply list_elem_of_fmap_2. by apply list_elem_of_filter.
Qed.

(** ** The preview *)

Lemma good_backfill claims start p :
  p `prefix_of` drop start arr →
  Forall (good registry fine U) (filter (covered claims) (positions start p)).*2.
Proof.
  intros [q Hq]. apply Forall_fmap, Forall_forall. intros so [_ Hso]%list_elem_of_filter.
  apply positions_bound in Hso as [_ Hso]. rewrite Forall_forall in Hgood. apply Hgood.
  apply (elem_of_drop_1 start). rewrite Hq. by apply elem_of_app; left.
Qed.

Lemma decode_entries_ok (peer' : DeviceId) (ops : list SignedOp) :
  Forall (good registry fine U) ops → decode_entries (S := Client) peer' (entry <$> ops) = Ok ops.
Proof.
  unfold decode_entries. induction 1 as [|op ops [Hw _] _ IH]; [done|].
  rewrite fmap_cons. cbn [try_map]. rewrite decode_page_op_entry, IH by done. done.
Qed.

Lemma preview_resume_after_ok previous :
  (∀ a, previous = Some a → 0 ≤ a)%Z →
  ∃ k, preview_resume_after previous (len arr) = Z.of_nat k ∧ k ≤ length arr.
Proof.
  intros Hp. unfold preview_resume_after. pose proof (len_nonneg arr).
  set (window := saturating_sub_u64 (len arr) PULL_PAGE_LIMIT_MAX).
  assert (Hw : (0 ≤ window ≤ len arr)%Z).
  { subst window. unfold saturating_sub_u64, PULL_PAGE_LIMIT_MAX, PAGE_LIMIT_MAX. lia. }
  assert (Hz : ∀ z, (0 ≤ z ≤ len arr)%Z → ∃ k, z = Z.of_nat k ∧ k ≤ length arr).
  { intros z Hz. exists (Z.to_nat z). unfold len in Hz. lia. }
  destruct previous as [a|]; [|by apply Hz]. specialize (Hp a eq_refl). case_decide; apply Hz; lia.
Qed.

Definition preview_request (s : Client) (cursor : option RelayCursor) (after_seq : Z) : PullRequest :=
  mk_PullRequest PULL_VERSION (inflated_claims (registry_entries (os_registry s)).*1)
    (encode_hex (cursor_epoch cursor)) (cursor_after cursor) (Some (backfill_resume after_seq))
    PULL_PAGE_LIMIT_MAX false None (os_now s 0).

(** A preview with an honest server: the covered arrivals of its page are admitted. *)
Lemma preview_head_window_ok s n limit cursor k (j : nat) :
  client_ok s n → cursor_at cursor k → j ≤ length arr →
  ∃ m next s' n', preview_head_window s n (mk_source base limit) peer peer_key cursor (Z.of_nat j) =
      (Ok (m, next), s', n') ∧ client_ok s' n' ∧ grows s s' ∧ (0 ≤ next)%Z.
Proof.
  intros Hs Hcur Hj. destruct (cursor_accepted _ _ Hcur) as (Hacc & _).
  set (request := preview_request s cursor (Z.of_nat j)).
  destruct (asked_ok s n Hs) as [[Hinv1 Hid1 Hcov1 _] Hg1]. pose proof Hs as [Hinv Hid Hcov Hnet].
  destruct (server_answers (serve_at (net_server n) (net_clock n 0)) request (cursor_epoch cursor) j)
    as (p & gs & res & origins & _ & Hf & Hans & Hpage); [apply Hnet|apply decode_epoch_encode|done..|].
  set (page := page_of _ _ _ _ _ _) in *. set (claims := decode_coverage request) in *.
  destruct (exchange_ok (os_now s) n limit request (asked_hlc s) page Hnet)
    as (signed & bs & n' & Hsigned & Hpull & Hverify & Hnet'); [done|by exists 0|done|done|].
  set (ops := (filter (covered claims) (positions j p)).*2).
  assert (Hops : Forall (good registry fine U) ops) by (by apply good_backfill, Hf).
  destruct (admit_ops_ok registry fine U Hreplay (asked s) ops false Hinv1 Hops)
    as (s2 & seen & rest & error & Hsplit & Hinv2 & (Hid2 & Hcov2 & _ & Hnow2) & Hlog2 & _ & Hadm).
  assert (Hentries : (pp_backfill page).*2 = entry <$> ops).
  { subst page ops. cbn. unfold backfill_entries. by rewrite <-!list_fmap_compose. }
  assert (Hsource : source_pull n (mk_source base limit) request (from_signing csk) (asked_hlc s) peer peer_key =
    (Ok page, n')).
  { unfold source_pull. rewrite Hsigned, Hpull. rewrite decide_False by (by intros [|[]]).
    change (is_success OK) with true. cbn [negb]. by rewrite Hverify. }
  destruct (held_append _ _ _ Hinv1 Hlog2) as [Hheld _].
  eexists (length seen), _, s2, n'. split_and!.
  - unfold preview_head_window. cbn [known_origins oplog_socket].
    change (sock_now_ms s) with (os_now s 0, (sock_now_ms s).2). cbn iota beta zeta.
    rewrite (surjective_pairing (next_hlc (sock_now_ms s).2)). fold (asked s) (asked_hlc s).
    cbn [local_identity oplog_socket]. rewrite Hid1.
    change (mk_Resume Backfill (Z.of_nat j) "" "") with (backfill_resume (Z.of_nat j)).
    fold (preview_request s cursor (Z.of_nat j)). fold request. rewrite Hsource. cbn [pp_reset pp_snapshot_recommended page page_of orb].
    rewrite Hentries, decode_entries_ok, Hadm by done. cbn [no_quantum adm_admitted]. done.
  - split; [done|by rewrite Hid2|by rewrite Hcov2|by rewrite Hnow2, asked_now; apply net_ok_tail].
  - split; [|by rewrite Hcov2; apply Hg1]. intros op Hop. by apply Hheld, Hg1.
  - cbn [adm_admitted]. destruct (length seen) as [|i]; [lia|].
    destruct (pp_backfill page !! i) as [[seq e]|] eqn:He; [|lia].
    pose proof (honest_entries claims j p (pf_prefix _ _ _ _ _ _ _ _ _ _ Hf) Hj) as Hh.
    by apply (Forall_lookup_1 _ _ _ _ Hh) in He as [[Hge _] _].
Qed.

(** A preview admits what it got and leaves claims and cursor alone. *)
Lemma run_preview_ok s n limit cursor k previous :
  client_ok s n → cursor_at cursor k → (∀ a, previous = Some a → 0 ≤ a)%Z →
  ∃ pa s' n', run_preview s n (mk_source base limit) peer peer_key cursor (len arr) previous = (pa, s', n') ∧
    client_ok s' n' ∧ grows s s' ∧ (∀ a, pa = Some a → 0 ≤ a)%Z.
Proof.
  intros Hs Hcur Hprev. destruct (preview_resume_after_ok previous Hprev) as (j & Hj & Hjle).
  destruct (preview_head_window_ok s n limit cursor k j Hs Hcur Hjle) as (m & next & s' & n' & Hrun & ? & ? & ?).
  exists (Some next), s', n'. unfold run_preview. rewrite Hj, Hrun. split_and!; try done. naive_solver.
Qed.

(** ** One turn of the loop *)

(** The last progress the loop remembers is behind the client. *)
Definition progress_inv (cov : CoverageVector) (k : nat) (last : option PullProgress) : Prop :=
  ∀ pr, last = Some pr → ∃ k' r, k' ≤ k ∧ resume_inv arr cov k' (Some r) ∧
    pr = pull_progress (Some (mk_cursor (rs_epoch stream) (Z.of_nat k'))) (Some r).

Record drain_ok (s : Client) (n : Net L D) (cursor : option RelayCursor) (d : Drain) (k : nat) : Prop := {
  do_client : client_ok s n;
  do_cursor : cursor_at cursor k;
  do_settled : settled arr (held s) (os_coverage s) k;
  do_resume : resume_inv arr (os_coverage s) k (d_resume d);
  do_progress : progress_inv (os_coverage s) k (d_last_progress d);
  do_preview : (∀ a, d_preview_after d = Some a → 0 ≤ a)%Z;
}.

(** What is left to do: ops to hear about on channel A, arrivals to scan on
    channel B, and whether a fresh page is still due. *)
Definition drain_measure (cov : CoverageVector) (k : nat) (resume : option Resume) : nat :=
  2 * (uncovered arr cov + (length arr - k)) + (if resume then 1 else 0).

Lemma after_page_preview s n limit cursor k resumed page d :
  client_ok s n → cursor_at cursor k → pp_head_seq page = len arr →
  (∀ a, d_preview_after d = Some a → 0 ≤ a)%Z →
  (pp_complete page = false → d_last_progress d ≠ Some (pull_progress cursor (pp_resume page))) →
  ∃ previewed pa elapsed s' n', client_ok s' n' ∧ grows s s' ∧ (∀ a, pa = Some a → 0 ≤ a)%Z ∧
    drain_after_page s n (mk_source base limit) peer peer_key cursor resumed page d =
    if pp_complete page then
      if negb resumed then DrainDone (Ok (Applied (d_total d))) s' n' cursor
      else DrainMore (mk_Drain (d_total d) None (d_reset_seen d) (d_overridden d) (d_pages d)
                        (d_stalled d) (d_last_progress d) previewed pa elapsed) s' n' cursor
    else DrainMore (mk_Drain (d_total d) (pp_resume page) (d_reset_seen d) (d_overridden d) (d_pages d)
                      0 (Some (pull_progress cursor (pp_resume page))) previewed pa elapsed) s' n' cursor.
Proof.
  intros Hs Hcur Hhead Hprev Hnew. unfold drain_after_page. rewrite Hhead.
  assert (Hrefl : grows s s) by (by split).
  destruct (pp_complete page) eqn:Hc; cbn [negb].
  { destruct (preview_due d) as [due elapsed]. rewrite andb_false_r. by eexists _, _, elapsed, s, n. }
  specialize (Hnew eq_refl). set (progress := pull_progress _ _) in *.
  destruct (preview_due d) as [[] elapsed]; cbn [andb]; [case_decide as Hgap|].
  - destruct (run_preview_ok s n limit cursor k (d_preview_after d) Hs Hcur Hprev)
      as (pa & s' & n' & -> & Hs' & Hg & Hpa).
    eexists true, pa, elapsed, s', n'. split_and!; [done..|].
    rewrite (decide_False (P := d_last_progress d = _)) by done. by rewrite decide_False by naive_solver.
  - eexists true, _, elapsed, s, n. split_and!; [done..|].
    rewrite (decide_False (P := d_last_progress d = _)) by done. by rewrite decide_False by naive_solver.
  - eexists _, _, elapsed, s, n. split_and!; [done..|].
    rewrite (decide_False (P := d_last_progress d = _)) by done. by rewrite decide_False by naive_solver.
Qed.

Definition drain_request (s : Client) (cursor : option RelayCursor) (resume : option Resume) : PullRequest :=
  mk_PullRequest PULL_VERSION (to_wire_map (os_coverage s)) (encode_hex (cursor_epoch cursor))
    (cursor_after cursor) resume PULL_PAGE_LIMIT_MAX false None (os_now s 0).

(** The exchange of one turn, up to what the client makes of the page. *)
Lemma drain_step_answer s n limit lossy cursor d page e :
  client_ok s n → let request := drain_request s cursor (d_resume d) in
  answers (serve_at (net_server n) (net_clock n 0)) request page → honest_page page →
  decode_epoch (pp_epoch page) = Some e →
  ∃ n1, net_ok (os_now s) n1 ∧
    drain_step lossy s n (mk_source base limit) peer peer_key false skip cursor d =
    if pp_snapshot_recommended page
    then drain_snapshot (asked s) n1 (mk_source base limit) peer peer_key cursor page d
    else if pp_reset page then drain_reset (asked s) n1 peer cursor request page e d
    else
      match apply_pull_page (asked s) peer cursor page skip with
      | (Err e, s1, cursor) => DrainDone (Err e) s1 n1 cursor
      | (Ok m, s1, cursor) =>
          drain_after_page s1 n1 (mk_source base limit) peer peer_key cursor
            (bool_decide (is_Some (d_resume d))) page
            (mk_Drain (d_total d + m) (d_resume d) (d_reset_seen d) (d_overridden d) (d_pages d + 1)
               (d_stalled d) (d_last_progress d) (d_previewed d) (d_preview_after d) (d_elapsed d))
      end.
Proof.
  intros Hs request Hans Hpage He. destruct (asked_ok s n Hs) as [[_ Hid1 _ _] _]. pose proof Hs as [_ _ _ Hnet].
  destruct (exchange_ok (os_now s) n limit request (asked_hlc s) page Hnet)
    as (signed & bs & n1 & Hsigned & Hpull & Hverify & Hnet1); [done|by exists 0|done|done|].
  exists n1. split; [done|]. unfold drain_step. cbn [local_coverage oplog_socket].
  change (sock_now_ms s) with (os_now s 0, (sock_now_ms s).2). cbn iota beta zeta.
  rewrite (surjective_pairing (next_hlc (sock_now_ms s).2)). fold (asked s) (asked_hlc s).
  cbn [local_identity oplog_socket]. rewrite Hid1. fold (drain_request s cursor (d_resume d)). fold request.
  rewrite Hsigned, Hpull. rewrite decide_False by (by intros [|]). rewrite decide_False by done.
  change (is_success OK) with true. cbn [negb]. rewrite Hverify, He. done.
Qed.

(** The ops of a page are ops of the server. *)
Lemma page_ops s cov resume own origins k p gs res :
  honest_server s → page_facts arr PULL_PAGE_LIMIT_MAX cov resume own origins k p gs res → ∀ op, op ∈ p ++ concat gs.*2 → op ∈ arr.
Proof.
  intros (_ & Hlog & _) Hf op [Hop|Hop]%elem_of_app.
  - destruct (pf_prefix _ _ _ _ _ _ _ _ _ _ Hf) as [q Hq]. apply (elem_of_drop_1 k). rewrite Hq. by apply elem_of_app; left.
  - apply elem_of_concat in Hop as (ops & Hop & (run & -> & Hrun)%list_elem_of_fmap).
    destruct (pf_runs _ _ _ _ _ _ _ _ _ _ Hf) as (_ & _ & Hdue). rewrite Forall_forall in Hdue.
    destruct (Hdue run Hrun) as [q Hq]. eapply (due_uncovered (λ s arr, lrep (ss_log s) arr) s arr Hlog cov resume run.1).
    rewrite Hq. by apply elem_of_app; left.
Qed.

Lemma good_runs s cov resume own origins k p gs res :
  honest_server s → page_facts arr PULL_PAGE_LIMIT_MAX cov resume own origins k p gs res →
  Forall (λ r, run_ok r ∧ Forall (good registry fine U) r.2) gs.
Proof.
  intros Hs Hf. destruct (pf_runs _ _ _ _ _ _ _ _ _ _ Hf) as (Hrun & _ & _). rewrite Forall_forall in Hrun.
  apply Forall_forall. intros r Hr. split; [by apply Hrun|]. apply Forall_forall. intros op Hop.
  rewrite Forall_forall in Hgood. apply Hgood. apply (page_ops _ _ _ _ _ _ _ _ _ Hs Hf), elem_of_app. right.
  apply elem_of_concat. exists r.2. split; [done|by apply list_elem_of_fmap_2].
Qed.

(** The request, its answer, and the answer applied. *)
Lemma drain_step_page s n limit lossy cursor d k :
  drain_ok s n cursor d k →
  ∃ p gs res origins s1 n1 m,
    (∀ o, o ∈ origins ↔ ∃ op, op ∈ arr ∧ op_device (op_body op) = o) ∧
    page_facts arr PULL_PAGE_LIMIT_MAX (os_coverage s) (d_resume d) peer origins k p gs res ∧
    client_ok s1 n1 ∧ (∀ op, held s op → held s1 op) ∧
    (∀ op, op ∈ (filter (covered (os_coverage s)) (positions k p)).*2 ++ concat gs.*2 → held s1 op) ∧
    os_coverage s1 = foldl advance_run (os_coverage s) gs ∧
    drain_step lossy s n (mk_source base limit) peer peer_key false skip cursor d =
    drain_after_page s1 n1 (mk_source base limit) peer peer_key
      (Some (mk_cursor (rs_epoch stream) (Z.of_nat (k + length p))))
      (bool_decide (is_Some (d_resume d)))
      (page_of stream (backfill_entries (os_coverage s) k p) (entry <$> concat gs.*2)
         (Z.of_nat (k + length p)) res None)
      (mk_Drain (d_total d + m) (d_resume d) (d_reset_seen d) (d_overridden d) (d_pages d + 1)
         (d_stalled d) (d_last_progress d) (d_previewed d) (d_preview_after d) (d_elapsed d)).
Proof.
  intros [Hs Hcur Hset Hres Hprog Hprev].
  destruct (cursor_accepted _ _ Hcur) as (Hacc & Hk & Hkle).
  set (request := drain_request s cursor (d_resume d)).
  destruct (asked_ok s n Hs) as [[Hinv1 Hid1 Hcov1 _] Hg1]. pose proof Hs as [Hinv Hid Hcov Hnet].
  assert (Hstart : start_of request = Z.of_nat k).
  { unfold start_of. cbn. destruct (d_resume d) as [r|]; [|done].
    destruct Hres as [-> |(op & -> & _)]; cbn; [done|by rewrite decide_False by done]. }
  assert (Hclaims : decode_coverage request = os_coverage s) by (by apply coverage_wire_roundtrip).
  destruct (server_answers (serve_at (net_server n) (net_clock n 0)) request (cursor_epoch cursor) k)
    as (p & gs & res & origins & Ho & Hf & Hans & Hpage); [apply Hnet|apply decode_epoch_encode|done..|].
  rewrite Hclaims in Hf, Hans, Hpage. set (page := page_of _ _ _ _ _ _) in *.
  destruct (drain_step_answer s n limit lossy cursor d page (rs_epoch stream) Hs Hans Hpage)
    as (n1 & Hnet1 & ->); [apply decode_epoch_encode|].
  destruct (apply_pull_page_ok registry fine U Hreplay (asked s) peer skip cursor (os_coverage s) stream
    k p gs (Z.of_nat (k + length p)) res None) as (s1 & m & Happ & [Hinv2 Hlog2 Hcov2 Hid2 Hnow2]); [done|..].
  { destruct (pf_prefix _ _ _ _ _ _ _ _ _ _ Hf) as [q Hq]. apply (Forall_drop _ k) in Hgood as Hd.
    rewrite Hq in Hd. by apply Forall_app in Hd as [? _]. }
  { by eapply good_runs; [apply Hnet|exact Hf]. }
  { apply Hf. }
  { destruct Hcur as [[-> ->]|[-> _]]; auto. }
  { done. }
  { eapply attested_sub, Hskip. intros op Hop. by apply (page_ops _ _ _ _ _ _ _ _ _ (no_server _ _ Hnet) Hf). }
  fold page in Happ. destruct (held_append _ _ _ Hinv1 Hlog2) as [Hheld Hserved].
  exists p, gs, res, origins, s1, n1, m. split_and!; [done|done|..].
  - split; [done|by rewrite Hid2| |by rewrite Hnow2, asked_now; apply net_ok_tail].
    rewrite Hcov2. apply advance_runs_wf; [done|]. apply Hf.
  - intros op Hop. by apply Hheld, Hg1.
  - done.
  - rewrite Hcov2. f_equal. apply Hg1.
  - cbn [pp_snapshot_recommended pp_reset page page_of]. fold page. by rewrite Happ.
Qed.

(** A page that is not complete advances: its token is behind the new claims or
    at the new cursor, there is less to do, and its progress is new. *)
Lemma page_advances s cov k origins p gs r resume last :
  honest_server s → k ≤ length arr → progress_inv cov k last →
  page_facts arr PULL_PAGE_LIMIT_MAX cov resume peer origins k p gs (Some r) →
  let cov' := foldl advance_run cov gs in
  resume_inv arr cov' (k + length p) (Some r) ∧ k + length p ≤ length arr ∧
  uncovered arr cov' + (length arr - (k + length p)) < uncovered arr cov + (length arr - k) ∧
  last ≠ Some (pull_progress (Some (mk_cursor (rs_epoch stream) (Z.of_nat (k + length p)))) (Some r)).
Proof.
  intros Hs Hk Hprog [_ [q0 Hpre] (Hrun & _ & Hdue) _ Hends] cov'. pose proof Hs as (_ & Hlog & _).
  assert (Hmono : ∀ key, covers cov key = true → covers cov' key = true) by (intros; by apply advance_runs_mono).
  assert (Hkp : k + length p ≤ length arr).
  { apply (f_equal length) in Hpre. rewrite length_drop, length_app in Hpre. lia. }
  pose proof (uncovered_mono arr _ _ Hmono) as Hle. inversion Hends as [|q Hq Hne|o op Hp Hop Hdueop]; subst.
  - assert (0 < length p) by (destruct p; [done|cbn; lia]).
    split_and!; [by left|done|lia|]. intros Hlast.
    destruct (Hprog _ Hlast) as (k0 & r0 & Hk0 & _ & Heq). unfold pull_progress in Heq.
    injection Heq as Hpos _. cbn in Hpos. lia.
  - apply (due_uncovered (λ s arr, lrep (ss_log s) arr) s arr Hlog) in Hdueop as (Hin & <- & Hunc).
    assert (Hcov : covers cov' (order_key op) = true) by (by apply advance_runs_covers).
    pose proof (uncovered_strict arr cov cov' op Hmono Hin Hunc Hcov).
    split_and!; [right; by exists op|done|lia|]. intros Hlast.
    destruct (Hprog _ Hlast) as (k0 & r0 & Hk0 & Hr0 & Heq). unfold pull_progress in Heq.
    destruct Hr0 as [-> | (op0 & -> & Hin0 & Hcov0)]; [done|].
    apply (f_equal (λ pr, snd <$> pr.2)) in Heq.
    cbn [snd fmap option_fmap option_map r_after_key keyed_resume] in Heq. apply (inj Some) in Heq as Hkey.
    rewrite Forall_forall in Hwire.
    assert (Hdec : ∀ x, x ∈ arr → decode_order_key (encode_hex (to_wire (order_key x))) = Some (order_key x)).
    { intros x Hx. apply decode_order_key_encode. by destruct (Hwire x Hx) as (_ & _ & ?). }
    pose proof (Hdec op Hin) as Hd. rewrite Hkey, (Hdec op0 Hin0) in Hd. congruence.
Qed.

(** A turn of the loop either ends the drain with everything held, or leaves
    less to do. *)
Lemma drain_step_ok s n limit lossy cursor d k :
  drain_ok s n cursor d k →
  (∃ m s' n' cursor',
    drain_step lossy s n (mk_source base limit) peer peer_key false skip cursor d =
      DrainDone (Ok (Applied m)) s' n' cursor' ∧ (∀ op, op ∈ arr → held s' op)) ∨
  (∃ d' s' n' cursor' k',
    drain_step lossy s n (mk_source base limit) peer peer_key false skip cursor d =
      DrainMore d' s' n' cursor' ∧ drain_ok s' n' cursor' d' k' ∧
    drain_measure (os_coverage s') k' (d_resume d') < drain_measure (os_coverage s) k (d_resume d)).
Proof.
  intros Hd. destruct (drain_step_page s n limit lossy cursor d k Hd)
    as (p & gs & res & origins & s1 & n1 & m & Ho & Hf & Hs1 & Hheld & Hserved & Hcov & ->).
  destruct Hd as [Hs Hcur Hset Hres Hprog Hprev].
  pose proof (no_server _ _ (co_net _ _ Hs)) as Hsrv. pose proof Hsrv as (_ & Hlog & _).
  destruct (cursor_accepted _ _ Hcur) as (_ & _ & Hk).
  set (cursor' := Some _). set (page := page_of _ _ _ _ _ _). set (d1 := mk_Drain _ _ _ _ _ _ _ _ _ _).
  assert (Hkp : k + length p ≤ length arr).
  { destruct (pf_prefix _ _ _ _ _ _ _ _ _ _ Hf) as [q Hq]. apply (f_equal length) in Hq.
    rewrite length_drop, length_app in Hq. lia. }
  destruct (after_page_preview s1 n1 limit cursor' (k + length p) (bool_decide (is_Some (d_resume d))) page d1)
    as (previewed & pa & elapsed & s2 & n2 & Hs2 & [Hg2 Hc2] & Hpa & ->); [done|by right| |done|..].
  { cbn. by apply (stream_facts _ Hsrv). }
  { cbn. case_bool_decide; [done|]. intros _. destruct res as [r|]; [|done].
    by apply (page_advances _ _ _ _ _ _ _ _ _ Hsrv Hk Hprog Hf). }
  assert (Hset2 : settled arr (held s2) (os_coverage s2) (k + length p)).
  { rewrite Hc2, Hcov. eapply (page_settles (λ s arr, lrep (ss_log s) arr) (net_server n) arr Hlog Hwire (held s));
      [done|done|apply Hf|apply Hf|naive_solver|naive_solver]. }
  assert (Hmono : ∀ key, covers (os_coverage s) key = true → covers (os_coverage s2) key = true).
  { intros key. rewrite Hc2, Hcov. apply advance_runs_mono. }
  destruct res as [r|]; cbn [page page_of pp_complete pp_resume].
  - right. destruct (page_advances _ _ _ _ _ _ _ _ _ Hsrv Hk Hprog Hf) as (Hr & _ & Hlt & _).
    rewrite <-Hcov, <-Hc2 in Hr, Hlt. eexists _, s2, n2, cursor', (k + length p).
    rewrite bool_decide_eq_false_2 by done. split; [done|]. split.
    + split; try done; [by right|]. cbn. intros pr [= <-]. by exists (k + length p), r.
    + unfold drain_measure. cbn. destruct (d_resume d); lia.
  - rewrite bool_decide_eq_true_2 by done. destruct (d_resume d) as [r|] eqn:Hdr.
    + right. rewrite bool_decide_eq_true_2 by done. cbn [negb].
      eexists _, s2, n2, cursor', (k + length p). split; [done|]. split.
      * split; try done; [by right|]. cbn. intros pr Hpr.
        destruct (Hprog pr Hpr) as (k0 & r0 & Hk0 & Hr0 & ->). exists k0, r0. split_and!; [lia| |done].
        destruct Hr0 as [?|(op & ? & ? & ?)]; [by left|right]. exists op. auto.
      * unfold drain_measure. cbn. pose proof (uncovered_mono arr _ _ Hmono). lia.
    + left. rewrite bool_decide_eq_false_2 by (by intros []). cbn [negb].
      eexists _, s2, n2, cursor'. split; [done|].
      eapply (fresh_page_complete (λ s arr, lrep (ss_log s) arr) (net_server n) arr Hlog Hwire (held s));
        [done|exact Ho|apply Hf|naive_solver|naive_solver].
Qed.

(** ** The reset of a stale cursor *)

Definition stale (cursor : option RelayCursor) : Prop :=
  ∃ c, cursor = Some c ∧ rc_epoch c ≠ zeros 32 ∧
    pull_needs_reset (rc_epoch c) (rc_after c) stream = true.

Lemma drain_step_reset s n limit lossy cursor elapsed :
  client_ok s n → stale cursor →
  ∃ d s' n', drain_step lossy s n (mk_source base limit) peer peer_key false skip cursor (drain_start elapsed) =
      DrainMore d s' n' (Some (mk_cursor (rs_epoch stream) 0)) ∧
    drain_ok s' n' (Some (mk_cursor (rs_epoch stream) 0)) d 0 ∧ os_coverage s' = os_coverage s ∧ d_resume d = None.
Proof.
  intros Hs (c & -> & Hne & Hreset). destruct (asked_ok s n Hs) as [[Hinv1 Hid1 Hcov1 _] [_ Hg1]].
  pose proof Hs as [Hinv Hid Hcov Hnet]. set (request := drain_request s (Some c) None).
  pose proof (no_server _ _ Hnet) as Hsrv. destruct (stream_facts _ Hsrv) as (_ & Hhead & Hfloor).
  assert (Hans : answers (serve_at (net_server n) (net_clock n 0)) request (reset_pull_page stream)).
  { unfold answers, admit_pull_ack. cbn [pr_relay_epoch pr_relay_after request drain_request cursor_epoch cursor_after].
    rewrite decode_epoch_encode. cbn [relay_stream_state serve_socket].
    pose proof Hsrv as (_ & _ & Hst & _). change (serve_relay_stream_state (serve_at _ _)) with (serve_relay_stream_state (net_server n)).
    by rewrite Hst, Hreset. }
  destruct (drain_step_answer s n limit lossy (Some c) (drain_start elapsed) _ (rs_epoch stream) Hs Hans)
    as (n1 & Hnet1 & ->); [constructor|apply decode_epoch_encode|].
  cbn [pp_snapshot_recommended pp_reset reset_pull_page]. unfold drain_reset, persist_pull_reset.
  cbn [d_reset_seen d_resume drain_start]. fold request.
  assert (Hval : validate_pull_reset request (reset_pull_page stream) (rs_epoch stream) =
    Ok (mk_cursor (rs_epoch stream) 0)).
  { rewrite (validate_reset_page _ _ (rc_epoch c)); [|apply decode_epoch_encode|rewrite Hfloor, Hhead; apply len_nonneg].
    change (pr_relay_after request) with (rc_after c). by rewrite Hreset, Hfloor. }
  rewrite Hval.
  cbn [commit_pull_reset oplog_socket default_commit_pull_reset os_reset_cursor].
  eexists _, _, n1. split; [done|]. split; [|by split; [apply Hg1|]].
  split; try done; [|by right; split; [|lia]|by intros ?????; lia].
  split; [by apply client_inv_cursors|done|done|]. cbn. rewrite asked_now. by apply net_ok_tail.
Qed.

(** ** The loop *)

Lemma drain_loop_ok fuel s n limit lossy cursor d k :
  drain_ok s n cursor d k → drain_measure (os_coverage s) k (d_resume d) < fuel →
  ∃ m s' n' cursor',
    drain_loop lossy fuel (mk_source base limit) peer peer_key false skip s n cursor d =
      Some (Ok (Applied m), s', n', cursor') ∧ ∀ op, op ∈ arr → held s' op.
Proof.
  revert s n cursor d k. induction fuel as [|fuel IH]; intros s n cursor d k Hd Hm; [lia|].
  cbn [drain_loop]. destruct (drain_step_ok s n limit lossy cursor d k Hd)
    as [(m & s' & n' & c' & -> & Hall)|(d' & s' & n' & c' & k' & -> & Hd' & Hlt)].
  - by exists m, s', n', c'.
  - apply (IH s' n' c' d' k' Hd'). lia.
Qed.

Lemma drain_start_ok s n cursor k elapsed :
  client_ok s n → cursor_at cursor k → settled arr (held s) (os_coverage s) k →
  drain_ok s n cursor (drain_start elapsed) k.
Proof. by split. Qed.

Lemma drain_measure_bound cov k : drain_measure cov k None ≤ 4 * length arr.
Proof.
  unfold drain_measure, uncovered.
  pose proof (length_filter (λ op, covers cov (order_key op) = false) arr). lia.
Qed.

Lemma drain_ends (s : Client) (n : Net L D) limit lossy cursor elapsed fuel :
  client_ok s n →
  (stale cursor ∨ ∃ k, cursor_at cursor k ∧ settled arr (held s) (os_coverage s) k) →
  4 * length arr + 2 ≤ fuel →
  ∃ m s' n' cursor',
    drain_pull_pages lossy fuel s n (mk_source base limit) peer peer_key cursor false skip elapsed =
      Some (Ok (Applied m), s', n', cursor') ∧ ∀ op, op ∈ arr → known op → log_contains (os_log s') (op_id op) = true.
Proof.
  intros Hs Hcur Hfuel. unfold drain_pull_pages. destruct Hcur as [Hstale|(k & Hk & Hset)].
  - destruct fuel as [|fuel]; [lia|]. cbn [drain_loop].
    destruct (drain_step_reset s n limit lossy cursor elapsed Hs Hstale)
      as (d & s' & n' & -> & Hd & Hcov & Hres).
    eapply drain_loop_ok; [exact Hd|]. rewrite Hres, Hcov. pose proof (drain_measure_bound (os_coverage s) 0). lia.
  - eapply drain_loop_ok; [by apply drain_start_ok|]. cbn [d_resume drain_start].
    pose proof (drain_measure_bound (os_coverage s) k). lia.
Qed.
End proof.

End drain.
