(* ===== verification/DrainToy.v ===== *)
(** * A concrete drain

    Two devices' writes on a server, and a third device that has never heard of
    them: the hypotheses of the drain's theorem, discharged on the concrete
    codecs of [Toy.v]. *)

From S2P Require Import Prelude Ordered External Toy Http Identity Op Registry Store Log Hlc Durable Pull Transport Socket PullServer PullClient PullDrain PullExchange Drain.
Import BTree.

Module DrainToy.
Export LogToy PullToy.

(** ** Sizes of the concrete encodings *)

Lemma size_bytes (bs : bytes) : length (enc bs) = 1 + 2 * length bs.
Proof. cbn. induction bs as [|b bs IH]; cbn; [done|]. cbn in IH. lia. Qed.

Lemma length_list_byte (s : string) : length (String.list_byte_of_string s) = String.length s.
Proof. induction s as [|a s IH]; cbn; [done|]. by rewrite <-IH. Qed.

Lemma size_string (s : string) : length (enc s) = 1 + 2 * String.length s.
Proof.
  change (enc s) with (enc (String.list_byte_of_string s)). by rewrite size_bytes, length_list_byte.
Qed.

Lemma size_pos p : (2 ^ Z.of_nat (length (pos_enc p)) ≤ 2 * Z.pos p)%Z.
Proof.
  induction p as [p IH|p IH|]; cbn [pos_enc length]; [..|done];
    rewrite Nat2Z.inj_succ, Z.pow_succ_r by lia; lia.
Qed.
Lemma size_Z z : (Z.abs z < 2 ^ 64)%Z → length (enc z) ≤ 65.
Proof.
  intros Hz. assert (Hp : ∀ p, (Z.pos p < 2 ^ 64)%Z → length (pos_enc p) ≤ 64).
  { intros p Hp. destruct (Nat.le_gt_cases (length (pos_enc p)) 64) as [?|Hgt]; [done|].
    pose proof (size_pos p). assert (2 ^ 65 ≤ 2 ^ Z.of_nat (length (pos_enc p)))%Z by (apply Z.pow_le_mono_r; lia). lia. }
  destruct z as [|p|p]; cbn [enc Z_codec length]; [lia|..]; (specialize (Hp p); cbn in Hz; lia).
Qed.

Lemma size_list `{Codec A} (l : list A) b :
  Forall (λ a, length (enc a) ≤ b) l → length (enc l) ≤ 1 + length l * (1 + b).
Proof.
  cbn. induction 1 as [|a l Ha _ IH]; cbn; [lia|]. rewrite length_app. lia.
Qed.
Lemma size_pair `{Codec A, Codec B} (a : A) (b : B) : length (enc (a, b)) = length (enc a) + length (enc b).
Proof. cbn. by rewrite length_app. Qed.
Lemma size_option `{Codec A} (o : option A) b :
  (∀ a, o = Some a → length (enc a) ≤ b) → length (enc o) ≤ 1 + b.
Proof. intros Ho. destruct o as [a|]; cbn; [|lia]. specialize (Ho a eq_refl). lia. Qed.
Lemma size_bool (b : bool) : length (enc b) = 1.
Proof. done. Qed.

Lemma size_vec n (v : barr n) : length (enc v) = n.
Proof.
  cbn. rewrite <-(length_vec_to_list v) at 2. induction (vec_to_list v) as [|b l IH]; cbn; [done|]. by rewrite IH.
Qed.

Lemma size_sealed page sk hlc :
  u64_ok hlc → ∃ bs, seal_pull_page page (from_signing sk) hlc = Ok bs ∧ length bs ≤ 500 + 2 * length (enc page).
Proof.
  intros Hh. eexists. split; [reflexivity|]. unfold toy_encode.
  match goal with |- length (enc (mk_EnvelopeRepr (body_repr ?b) ?sig ?id)) ≤ _ =>
    change (enc (mk_EnvelopeRepr (body_repr b) sig id)) with
      (enc (op_v b, op_hlc b, op_device b, as_str (op_store b), op_payload b, sig, id)) end.
  rewrite !size_pair, size_vec, !size_bytes, size_string, !length_vec_to_list.
  cbn [op_body op_v op_hlc op_store op_payload as_str].
  assert (length (enc hlc) ≤ 65) by (apply size_Z; unfold u64_ok, u64_modulus in Hh; lia).
  assert (length (enc ENVELOPE_VERSION) ≤ 65) by (by apply size_Z).
  change (length (toy_encode page)) with (length (enc page)).
  replace (String.length PULL_PAGE_STORE_ID) with 14 by done. lia.
Qed.

(** ** The scene: [bob] serves two ops, [carol] knows both devices *)

Definition carol : SigningKey := be_vec 32 33.
Definition scene : list SignedOp := [op_a; op_b].
Definition book (sks : list SigningKey) : DeviceRegistry :=
  foldl (λ r sk, (insert_key r (sk_verifying_key sk)).2) registry_new sks.

Definition server_log : OpLog := toy_log scene.
Definition toy_server : ServeState OpLog DeviceRegistry :=
  serve_new (from_signing bob) server_log (book [carol]) 0 0.
Definition toy_net : Net OpLog DeviceRegistry := mk_net "http://bob" toy_server (λ _, 1000000%Z).
Definition toy_stream : RelayStreamState := log_relay_state server_log.
Definition toy_client : OpLogPullSocket KvStore :=
  mk_oplog_socket (from_signing carol) (mk_NodeClock (0, 1000)%Z) (book [alice; bob]) (OpLog_new toy_epoch)
    kv_new [] [] (λ _, 1000500%Z).

(** Clocks that accept the two ops, and ops the store decodes. *)
Definition toy_fine (c : NodeClock) : Prop := (0 ≤ (nc_hlc c).1 ∧ 100 ≤ (nc_hlc c).2)%Z.
Definition toy_U (op : SignedOp) : Prop := is_Some (ok (from_bytes (A := KvOp) (op_payload (op_body op)))).
#[export] Instance toy_U_dec op : Decision (toy_U op).
Proof. unfold toy_U. apply _. Defined.

Lemma toy_fine_now c : toy_fine c → toy_fine (clock_now c).2.
Proof. unfold toy_fine, clock_now. cbn. lia. Qed.
Lemma toy_replay (l : OpLog) (t : KvStore) : Forall toy_U (log_iter l) → ∃ t', replay l t = (Ok (), t').
Proof.
  intros Hu. rewrite Forall_forall in Hu. destruct (kv_apply_ops (log_iter l) t) as (t' & Ht & _).
  - intros op Hop _. by apply Hu.
  - by exists t'.
Qed.

Lemma toy_admissible op :
  (∃ key, key_for (book [alice; bob]) (op_device (op_body op)) = Some key ∧ verify op key = Ok ()) →
  (op_hlc (op_body op) ≤ 100)%Z → admissible (book [alice; bob]) toy_fine op.
Proof.
  intros Hk Hh. split; [done|]. intros c [Hc Hd]. unfold clock_update. cbn.
  rewrite decide_False by lia. eexists _, _. split; [done|]. unfold toy_fine. cbn. lia.
Qed.

Lemma toy_good_op sk op :
  key_for (book [alice; bob]) (op_device (op_body op)) = Some (sk_verifying_key sk) →
  verify op (sk_verifying_key sk) = Ok () → bool_decide (toy_U op) = true →
  op_v (op_body op) = ENVELOPE_VERSION → (0 <=? op_hlc (op_body op))%Z && (op_hlc (op_body op) <=? 100)%Z = true →
  good (book [alice; bob]) toy_fine toy_U op.
Proof.
  intros Hk Hv Hu Hver Hh. apply andb_true_iff in Hh as [H0%Z.leb_le H1%Z.leb_le]. split; [|intros _; split].
  - split_and!; [done|done|]. unfold u64_ok, u64_modulus. lia.
  - by apply bool_decide_eq_true in Hu.
  - apply toy_admissible; [exists (sk_verifying_key sk); split; assumption|exact H1].
Qed.

Lemma toy_good : Forall (good (book [alice; bob]) toy_fine toy_U) scene.
Proof.
  apply Forall_cons_2; [|apply Forall_cons_2; [|apply Forall_nil_2]].
  - apply (toy_good_op alice); by vm_compute.
  - apply (toy_good_op bob); by vm_compute.
Qed.
Lemma toy_wireable : Forall wireable scene.
Proof. eapply Forall_impl; [exact toy_good|]. by intros op []. Qed.
Lemma toy_known : Forall (known (book [alice; bob])) scene.
Proof. apply (bool_decide_unpack _). by vm_compute. Qed.

Lemma toy_entry op : op ∈ scene → String.length (entry op) ≤ 600.
Proof. revert op. apply Forall_forall, (bool_decide_unpack _). by vm_compute. Qed.

Definition toy_sized (page : PullPage) : Prop := (Z.of_nat (length (enc page)) ≤ 20000000)%Z.

Lemma size_page page :
  enc page = enc (pp_version page, pp_epoch page, pp_reset page, pp_floor page, pp_backfill page, pp_keyed page,
      pp_next_relay_seq page, pp_head_seq page, pp_resume page, pp_complete page,
      pp_snapshot_recommended page, pp_store page).
Proof. done. Qed.

Lemma size_resume r : honest_resume scene r → length (enc r) ≤ 1000.
Proof.
  intros Hr. change (enc r) with (enc (r_phase r, r_after_seq r, r_origin r, r_after_key r)).
  rewrite !size_pair, !size_string. change (length (enc (r_phase r))) with 1.
  destruct Hr as [(n & Hn & ->)|(op & _ & ->)]; cbn [r_after_seq r_origin r_after_key backfill_resume keyed_resume].
  - assert (length (enc (Z.of_nat n)) ≤ 65) by (apply size_Z; cbn in Hn; lia). cbn [String.length]. lia.
  - unfold DeviceId_to_hex. rewrite !length_encode_hex, !length_vec_to_list. cbn [enc Z_codec length]. lia.
Qed.

Lemma toy_honest_sized page : honest_page scene toy_stream page → toy_sized page.
Proof.
  intros Hp. unfold toy_sized. rewrite size_page, !size_pair, size_string, !size_bool.
  assert (Hhead : rs_head toy_stream = 2%Z) by (by vm_compute).
  assert (Hfloor : rs_floor toy_stream = 0%Z) by (by vm_compute).
  destruct Hp as [|backfill keyed next resume Hnext Hlen Hb Hk Hr];
    cbn [reset_pull_page page_of pp_version pp_epoch pp_floor pp_backfill pp_keyed pp_next_relay_seq pp_head_seq
      pp_resume pp_store]; rewrite length_encode_hex, length_vec_to_list, Hhead, Hfloor.
  { by vm_compute. }
  assert (Hbs : length (enc backfill) ≤ 1 + length backfill * (1 + 1266)).
  { apply size_list. eapply Forall_impl; [exact Hb|]. cbn beta. intros [seq e] (Hseq & op & Hop & He).
    cbn [fst snd] in *. rewrite size_pair, size_string, He. pose proof (toy_entry op Hop).
    assert (length (enc seq) ≤ 65) by (apply size_Z; unfold len in Hseq; cbn [scene length] in Hseq; lia). lia. }
  assert (Hks : length (enc keyed) ≤ 1 + length keyed * (1 + 1266)).
  { apply size_list. eapply Forall_impl; [exact Hk|]. cbn beta. intros e (op & Hop & ->).
    rewrite size_string. pose proof (toy_entry op Hop). lia. }
  assert (Hrs : length (enc resume) ≤ 1 + 1000) by (apply size_option; intros r Hr'; by apply size_resume, Hr).
  assert (Hns : length (enc (Z.of_nat next)) ≤ 65) by (apply size_Z; cbn [scene length] in Hnext; lia).
  assert (length (enc PULL_VERSION) ≤ 65) by (by apply size_Z).
  assert (length (enc 0%Z) ≤ 65 ∧ length (enc 2%Z) ≤ 65) by (by split; apply size_Z).
  assert (length (enc (@None string)) ≤ 1) by (cbn; lia).
  unfold len, PULL_PAGE_LIMIT_MAX, PAGE_LIMIT_MAX in Hlen. lia.
Qed.

Lemma toy_seal page hlc :
  honest_page scene toy_stream page → u64_ok hlc →
  ∃ bs, seal_pull_page page (from_signing bob) hlc = Ok bs ∧ (len bs ≤ MAX_PULL_RESPONSE_BYTES)%Z.
Proof.
  intros Hp%toy_honest_sized Hh. destruct (size_sealed page bob hlc Hh) as (bs & Hbs & Hlen).
  exists bs. split; [done|]. unfold toy_sized in Hp. unfold len, MAX_PULL_RESPONSE_BYTES. lia.
Qed.
Lemma toy_sign request hlc : ∃ bs, sign_pull_request request (from_signing carol) hlc = Ok bs.
Proof. eexists. reflexivity. Qed.

Lemma toy_drain_scene : drain_scene (T := KvStore) log_rep bob carol scene toy_stream (book [alice; bob]) toy_fine toy_U true.
Proof.
  split; [exact toy_sign|intros s request page hlc _ _; apply toy_seal|exact toy_replay|exact toy_fine_now|exact toy_good|by left].
Qed.

Lemma toy_client_ok :
  client_ok log_rep bob carol scene toy_stream "http://bob" (book [alice; bob]) toy_fine toy_U toy_client toy_net.
Proof.
  split; [| |split; [constructor|done]|].
  - split_and!; [done|by vm_compute|]. exists []. split; [apply OpLog_new_rep|done].
  - done.
  - split; [done| |].
    + split_and!; [done| |done|by vm_compute]. apply (append_all_rep toy_epoch scene).
    + intros i j. by vm_compute.
Qed.


(** ** Pages of [bob]'s server *)

Definition fresh_request (coverage : CoverageVector) (limit : Z) (audit : bool) (store : option string)
    : PullRequest :=
  mk_PullRequest PULL_VERSION (to_wire_map coverage) (encode_hex (zeros 32)) 0 None limit audit store 1000000.

Notation toy_rep := (λ s arr, log_rep (ss_log s) arr).
Lemma toy_server_rep : toy_rep toy_server scene.
Proof. apply (append_all_rep toy_epoch scene). Qed.

(** A claim that covers [op_a]: it comes on channel B, [op_b] on channel A. *)
Lemma page_channels_witness :
  ∃ page back served,
    build_pull_page toy_server (fresh_request alice_claim 100 false None) = Ok page ∧
    pp_backfill page = (λ so, (so.1, entry so.2)) <$> back ∧ pp_keyed page = entry <$> served ∧
    (len back + len served ≤ 100)%Z.
Proof.
  destruct (page_channels toy_rep toy_server scene toy_server_rep toy_wireable
    (fresh_request alice_claim 100 false None) toy_stream 0)
    as (page & back & served & Hb & Hback & Hserved & Hlen & _);
    [reflexivity|reflexivity|reflexivity|reflexivity|reflexivity|cbn; lia| |].
  - exists (zeros 32). split; vm_compute; reflexivity.
  - exists page, back, served. split_and!; assumption.
Defined.

End DrainToy.
