(* ===== verification/NetToy.v ===== *)
(** * A concrete relay

    The node of [DrainToy.v] behind the relay routes, and the other networked
    components on concrete inputs: the hypotheses of their theorems,
    discharged. *)

From stdpp Require Import pretty.
From S2P Require Import Prelude Ordered External Toy Http Identity Text Words Policy Op RowOp Registry Store Log Hlc Durable Pull Transport Persistence Relay Gate Watch Socket Server Client Sync PullServer PullClient PullDrain RelayExchange PullExchange Drain DrainToy.
Import BTree.

Module NetToy.
Export LogToy PullToy DrainToy GateToy.

(** ** Codecs and routing *)

#[export] Instance wire_entry_codec : Codec RelayWireEntry :=
  iso_codec (λ e, (we_seq e, we_envelope e)) (λ p, mk_wire_entry p.1 p.2).
#[export] Instance wire_entry_codec_ok : CodecOk RelayWireEntry.
Proof. apply iso_codec_ok. by intros []. Qed.
#[export] Instance relay_response_codec : Codec RelayResponse :=
  iso_codec (λ r, (rr_v r, rr_epoch r, rr_head r, rr_floor r, rr_next r, rr_reset r, rr_entries r))
    (λ '(v, e, h, f, n, r, es), mk_RelayResponse v e h f n r es).
#[export] Instance relay_response_codec_ok : CodecOk RelayResponse.
Proof. apply iso_codec_ok. by intros []. Qed.
#[export] Instance identity_resp_codec : Codec IdentityResp :=
  iso_codec (λ r, (ir_device_id r, ir_public_key_sec1 r)) (λ p, mk_IdentityResp p.1 p.2).
#[export] Instance pull_response_codec : Codec PullResponse :=
  iso_codec (λ r, (pl_ops r, pl_next r)) (λ p, mk_PullResponse p.1 p.2).
#[export] Instance device_entry_codec : Codec DeviceEntry :=
  iso_codec (λ r, (de_device_id r, de_public_key_sec1 r)) (λ p, mk_DeviceEntry p.1 p.2).
#[export] Instance devices_resp_codec : Codec DevicesResp :=
  iso_codec dr_devices mk_DevicesResp.
#[export] Instance toy_status : StatusText := {| status_display := pretty |}.

(** The relay route of a URL, read back from its text. *)
Definition toy_route (base url : string) : option Route :=
  rest ← strip_prefix (base +:+ "/v2/ops?epoch=") url;
  '(epoch, rest) ← split_once "&"%char rest;
  rest ← strip_prefix "after=" rest;
  '(after, rest) ← split_once "&"%char rest;
  limit ← strip_prefix "limit=" rest;
  after ← parse_u64 after;
  limit ← parse_u16 limit;
  Some (RtRelayOps (mk_RelayOpsQuery epoch after limit)).
#[export] Instance toy_routing : Routing := {| route_of := toy_route |}.

Lemma hex_no_amp bs : contains_char "&"%char (encode_hex bs) = false.
Proof.
  induction bs as [|b bs IH]; [done|]. cbn [encode_hex contains_char]. rewrite IH.
  destruct b; vm_compute; reflexivity.
Qed.

#[export] Instance toy_routing_ok base : RoutingOk base.
Proof.
  intros limit cursor Ha Hl. cbn [route_of toy_routing]. unfold toy_route, relay_ops_url, relay_url. cbn [base_url src_limit].
  destruct (parse_unsigned_pretty u64_modulus (rc_after cursor) Ha) as [Hpa Hda].
  destruct (parse_unsigned_pretty 65536 limit Hl) as [Hpl _].
  rewrite !append_assoc.
  rewrite (proj2 (strip_prefix_some (base +:+ "/v2/ops?epoch=") _
    (encode_hex (rc_epoch cursor) +:+ String "&" ("after=" +:+ pretty (rc_after cursor) +:+ String "&" ("limit=" +:+ pretty limit)))))
    by (by rewrite !append_assoc).
  cbn [mbind option_bind]. rewrite split_once_app by apply hex_no_amp. cbn [mbind option_bind].
  rewrite (proj2 (strip_prefix_some "after=" _ _) eq_refl). cbn [mbind option_bind].
  rewrite split_once_app by (by eapply digits_not_char). cbn [mbind option_bind].
  rewrite (proj2 (strip_prefix_some "limit=" _ _) eq_refl). cbn [mbind option_bind].
  unfold parse_u64, parse_u16. rewrite Hpa. cbn [mbind option_bind]. by rewrite Hpl.
Qed.

(** ** [bob]'s relay and [carol]'s node *)

Definition relay_net : RelayNet OpLog DeviceRegistry :=
  mk_relay_net "http://bob" toy_server (λ known _, known) (λ _ _ _, Ok None).
Definition toy_node : SyncNode (T := KvStore) :=
  mk_node (book [alice; bob]) (mk_NodeClock (0, 1000)%Z) (OpLog_new toy_epoch) kv_new None.
Definition nonce1 : barr 32 := be_vec 32 1.
Definition nonce2 : barr 32 := be_vec 32 2.

Lemma relay_net_toy_ok : relay_net_ok log_rep bob carol scene toy_stream "http://bob" relay_net.
Proof.
  split; [done|]. split; [done| |done|by vm_compute]. apply (append_all_rep toy_epoch scene).
Qed.
Lemma toy_encodable : Forall encodable scene.
Proof. eapply Forall_impl; [exact toy_wireable|]. intros op (Ho & Hv & _). split; [done|]. by eexists. Qed.
Lemma toy_response (r : RelayResponse) : ∃ body, to_allocvec r = Ok body.
Proof. eexists. reflexivity. Qed.

(** A page whose second op has the wrong signature, with a failing disk. *)
Definition forged : SignedOp := mk_SignedOp (op_body op_b) (op_sig op_a) (op_id op_b).
Definition forged_page : RelayPage :=
  mk_RelayPage toy_epoch 2 0 2 false [mk_RelayOp 1 op_a; mk_RelayOp 2 forged].
Lemma frameable_toy op : (∃ bs, op_to_bytes op = Ok bs ∧ framed op bs) → frameable op.
Proof. intros (bs & Hbs & Hf) bs' Hbs'. rewrite Hbs in Hbs'. by injection Hbs' as <-. Qed.
Lemma relay_round_safe_witness :
  ∃ r cursor' n' new,
    sync_relay_page (λ _, mk_append_io None None None None None None) None (Ok forged_page) toy_node RelayCursor_START =
      Some (r, cursor', n') ∧ round_keeps toy_node n' [] new.
Proof.
  destruct (relay_round_safe (H0 := toy_uhlc) (hlast := (fst : @HLC toy_uhlc → Z)) (λ _, mk_append_io None None None None None None) None (Ok forged_page)
    toy_node RelayCursor_START []) as (r & cursor' & n' & new & Hr & Hk & _).
  - apply OpLog_new_rep.
  - intros page [= <-]. apply Forall_cons_2; [|apply Forall_cons_2; [|apply Forall_nil_2]];
      apply frameable_toy; eexists; (split; [reflexivity|]); split_and!; by vm_compute.
  - exists r, cursor', n', new. exact (conj Hr Hk).
Defined.

(** ** The relay guard *)

Definition carol_call (now : Z) : RelayCall :=
  mk_call (encode_hex (zeros 32)) 0 100
    (relay_headers (from_signing carol) nonce1
       (sign_relay_request (from_signing carol) RELAY_OPS_REQUEST_CONTEXT bob_id (zeros 32) 0 100 nonce1))
    RELAY_OPS_REQUEST_CONTEXT now.
Definition no_replays : RelayReplayCache := ∅.
Definition carol_served (now : Z) (replays : RelayReplayCache) : result Z RelayRequestAuth * RelayReplayCache :=
  relay_request (encode_hex (zeros 32)) 0 100 (call_headers (carol_call now)) RELAY_OPS_REQUEST_CONTEXT bob_id
    (book [carol]) now replays.

Lemma relay_request_authentic_witness :
  ∃ auth sec1 key signature, (carol_served 0 no_replays).1 = Ok auth ∧
    try_key_for_device (book [carol]) (ra_caller auth) = Ok (Some sec1) ∧
    vk_from_sec1 sec1 = Some key ∧
    vk_verify key (relay_request_signing_input RELAY_OPS_REQUEST_CONTEXT (ra_caller auth) bob_id
                     (ra_epoch auth) 0 100 (ra_nonce auth)) signature = true.
Proof.
  assert (Hok : is_ok (carol_served 0 no_replays).1 = true) by (vm_compute; reflexivity).
  destruct (carol_served 0 no_replays) as [[auth|e] replays'] eqn:Hr; [|discriminate Hok].
  destruct (relay_request_authentic _ _ _ _ _ _ _ _ _ _ _ Hr)
    as (_ & _ & _ & sec1 & key & signature & Hkey & Hsec & _ & _ & Hv).
  exists auth, sec1, key, signature. split; [reflexivity|]. exact (conj Hkey (conj Hsec Hv)).
Defined.

(** The second call replays the first within the window, the third after it. *)
Definition carol_calls : list RelayCall := [carol_call 0; carol_call 1000; carol_call (RELAY_REPLAY_TTL + 1)].
Lemma relay_no_replay_witness :
  is_ok <$> (serve_calls bob_id (book [carol]) ∅ carol_calls).1 = [true; false; true] ∧
  size (serve_calls bob_id (book [carol]) ∅ carol_calls).2 ≤ RELAY_REPLAY_LIMIT.
Proof.
  split; [vm_compute; reflexivity|].
  pose proof (relay_no_replay bob_id (book [carol]) ∅ carol_calls) as Hrun.
  destruct (serve_calls bob_id (book [carol]) ∅ carol_calls) as [outs replays].
  apply Hrun; [vm_compute; lia|].
  repeat (apply SSorted_cons || apply Forall_cons_2 || apply Forall_nil_2 || apply SSorted_nil); vm_compute; discriminate.
Defined.

Definition carol_asks : result TransportError RelayPage * RelayNet OpLog DeviceRegistry :=
  request_relay relay_net (from_signing carol) (Ok nonce1)
    (relay_ops_url (mk_source "http://bob" 100) RelayCursor_START) RELAY_OPS_SIGNING_CONTEXT RELAY_OPS_REQUEST_CONTEXT
    100 RelayCursor_START bob_id (public_key_sec1 (from_signing bob)) 100 false.
Lemma relay_page_authentic_witness :
  ∃ key signature body, vk_from_sec1 (public_key_sec1 (from_signing bob)) = Some key ∧
    vk_verify key (relay_response_signing_input RELAY_OPS_SIGNING_CONTEXT bob_id
      (device_id (from_signing carol)) (zeros 32) 0 100 nonce1 body) signature = true.
Proof.
  assert (Hok : is_ok carol_asks.1 = true) by (vm_compute; reflexivity).
  destruct carol_asks as [[page|e] w'] eqn:Hr; [|discriminate Hok].
  destruct (relay_page_authentic _ _ _ _ _ _ _ _ _ _ _ _ _ _ Hr)
    as (nonce & key & signature & body & wire & Hn & Hkey & _ & _ & Hv & _).
  exists key, signature, body. injection Hn as <-. exact (conj Hkey Hv).
Defined.

(** ** Push wake-ups *)

(** [carol] waits on the known head of an empty log; then [op_a] arrives and is
    signalled. *)
Definition signalled : WatchState (L := OpLog) (R := OrderKey) :=
  mk_watch PcPark (Some 0) 25000 (toy_log [op_a]) (publish (publisher_new OrderKey_MIN) (order_key op_a)) false 0.
Notation toy_look := (head_look OrderKey_MIN).

Lemma signalled_reached :
  watch_reach toy_look head_last
    (wait_start (Some 0) 25000 (OpLog_new toy_epoch) (publisher_new OrderKey_MIN) false 0) signalled.
Proof.
  eapply rtc_l; [left; by apply step_top|]. eapply rtc_l; [left; eapply step_look; [reflexivity|vm_compute; reflexivity]|].
  eapply rtc_l; [left; eapply step_check; reflexivity|]. eapply rtc_l; [right; apply (env_append _ (toy_log [op_a]))|].
  apply rtc_once. right. apply env_publish. reflexivity.
Qed.

Lemma watch_no_lost_wakeup_witness :
  changed_ready signalled = true ∧ waiter_step toy_look head_last signalled (goto signalled PcTop).
Proof.
  destruct (watch_no_lost_wakeup toy_look head_last (Some 0) 25000 (OpLog_new toy_epoch) (publisher_new OrderKey_MIN)
    false 0 signalled signalled) as [Hwake _].
  - intros seen [= <-]. reflexivity.
  - exact signalled_reached.
  - apply Hwake; [reflexivity|eexists; reflexivity|reflexivity|vm_compute; reflexivity].
Defined.

(** ** Files *)

(** ** Policy, gate, scopes *)

#[export] Instance shape_codec : Codec RestrictedShape :=
  iso_codec (λ s, (rsh_stores s, rsh_tables s)) (λ p, mk_shape p.1 p.2).
#[export] Instance scalar_codec : Codec Scalar :=
  iso_codec
    (λ s, match s with
          | RowOp.Null => (0%Z, 0%Z, "", []) | RowOp.Int i => (1%Z, i, "", []) | RowOp.Real f => (2%Z, f, "", [])
          | TextVal t => (3%Z, 0%Z, t, []) | RowOp.Blob b => (4%Z, 0%Z, "", b)
          end)
    (λ '(tag, z, t, b), match tag with 1%Z => RowOp.Int z | 2%Z => RowOp.Real z | 3%Z => TextVal t | 4%Z => RowOp.Blob b | _ => RowOp.Null end).
#[export] Instance scalar_codec_ok : CodecOk Scalar.
Proof. by apply iso_codec_ok; intros []. Qed.
#[export] Instance key_field_codec : Codec KeyField := iso_codec (λ k, (kf_col k, kf_val k)) (λ p, mk_KeyField p.1 p.2).
#[export] Instance key_field_codec_ok : CodecOk KeyField.
Proof. by apply iso_codec_ok; intros []. Qed.
#[export] Instance column_codec : Codec Column := iso_codec (λ c, (c_name c, c_value c)) (λ p, mk_Column p.1 p.2).
#[export] Instance column_codec_ok : CodecOk Column.
Proof. by apply iso_codec_ok; intros []. Qed.
#[export] Instance row_op_codec : Codec ProxyDbOp :=
  iso_codec (λ op, (ro_table op, ro_key op, match ro_mutation op with Upsert cs => Some cs | RowOp.Delete => None end))
    (λ '(t, k, m), mk_ProxyDbOp t k match m with Some cs => Upsert cs | None => RowOp.Delete end).
#[export] Instance row_op_codec_ok : CodecOk ProxyDbOp.
Proof. by apply iso_codec_ok; intros [? ? []]. Qed.
Definition row_store : StoreId := mk_StoreId STORE_ID I.
Definition row_delete : SignedOp :=
  mk_SignedOp (mk_OpBody ENVELOPE_VERSION 5 alice_id row_store (toy_encode (mk_ProxyDbOp "threads" [] RowOp.Delete)))
    (zeros 64) (zeros 32).
End NetToy.
