(* ===== verification/DaemonToy.v ===== *)
(** * A concrete daemon

    A start with one peer that answers its identity, and a drain of [bob]'s relay:
    the hypotheses of [Daemon.v] and [DaemonDrain.v], discharged. *)

From S2P Require Import Prelude Ordered External Toy Http Identity Op Registry Store Log Durable Hlc Pull Transport Persistence Relay Gate Watch Socket PullServer PullClient PullDrain Server Client Sync RelayExchange PullExchange Drain DrainToy NetToy Daemon DaemonDrain.
Import BTree NetToy.

Module DaemonToy.

(** ** A start *)

(** A network on which [bob] tells who he is, and nothing else is found. *)
Record BobOnly : Type := bob_only {}.
Definition bob_identity : bytes := default [] (ok (to_allocvec (mk_IdentityResp bob_id (vec_to_list (public_key_sec1 (from_signing bob)))))).
#[export] Instance bob_world : HttpWorld BobOnly := {|
  http_get w url _ :=
    (Ok (if decide (url = "http://bob/identity") then mk_reply OK [] None (Ok bob_identity) else mk_reply NOT_FOUND [] None (Ok [])), w);
  http_post w _ _ := (Ok (mk_reply NOT_FOUND [] None (Ok [])), w);
|}.
Definition no_fs : Fs := mk_fs ∅ ∅.
Definition quiet_start : StartIo :=
  mk_StartIo "./pns-data" "127.0.0.1:0" (Ok (vec_to_list (sk_to_bytes alice))) io_quiet None None (Ok ()) io_quiet.
Definition one_peer : list (string * PeerIo) := [("http://bob", mk_PeerIo (Ok (zeros 32)) save_ok save_ok save_ok)].
Definition started : option (result string (Daemon (T := KvStore)) * BobOnly) :=
  serve_start quiet_start false one_peer toy_epoch no_fs None kv_new (bob_only).
Definition is_started (r : option (result string (Daemon (T := KvStore)) * BobOnly)) : bool :=
  match r with Some (Ok dm, _) => registry_contains (bt_registry (dm_boot dm)) bob_id | _ => false end.
Lemma learned_keys_durable_witness :
  ∃ dm, started = Some (Ok dm, bob_only) ∧ registry_contains (bt_registry (dm_boot dm)) bob_id = true ∧
    ∀ disk, crash (bt_fs (dm_boot dm)) disk → ∃ key', key_for (load_peer_keys (fs_mount disk) (own_registry (dm_identity dm))).2 bob_id = Some key'.
Proof.
  assert (Hs : is_started started = true) by (vm_compute; reflexivity).
  destruct started as [[[dm|e] []]|] eqn:Hst; try discriminate Hs. exists dm. split; [reflexivity|]. split; [exact Hs|]. intros disk Hc.
  pose proof (learned_keys_durable quiet_start false one_peer toy_epoch no_fs None kv_new bob_only dm bob_only disk) as Hd.
  destruct Hd as [Hknown _]; [intros f Hf; discriminate Hf|reflexivity|exact Hst|exact Hc|].
  cbn in Hs. unfold registry_contains in Hs. apply bool_decide_eq_true in Hs as [key Hk]. destruct (Hknown bob_id key Hk) as (key' & Hk' & _).
  exists key'. exact Hk'.
Defined.

(** ** A drain *)

Definition nonce3 : barr 32 := be_vec 32 3.
Definition quiet_round (nonce : barr 32) : RoundIo := mk_RoundIo (Ok nonce) (λ _, io_ok) None save_ok.
Definition drain_state : Drained (T := KvStore) (W := RelayNet OpLog DeviceRegistry) :=
  mk_Drained (mk_Link (mk_source "http://bob" 100) bob_id (public_key_sec1 (from_signing bob)) RelayCursor_START OrderKey_MIN None)
    toy_node no_fs (publisher_new OrderKey_MIN) relay_net.
Lemma drain_reaches_head_witness :
  ∃ s', drain_relay (from_signing carol) [quiet_round nonce1; quiet_round nonce2; quiet_round nonce3] drain_state = Some (true, s') ∧
    at_reach bob toy_stream scene s'.
Proof.
  apply (drain_reaches_head log_rep bob carol scene toy_stream "http://bob" (book [alice; bob]) toy_fine toy_U scene [])
    with (limit := 100%Z) (nonce := nonce1) (nonces := [nonce2; nonce3]).
  - split; [by vm_compute|exact toy_encodable|exact toy_response|exact toy_replay|symmetry; apply app_nil_r| |intros op Hop; discriminate Hop].
    pose proof toy_good as Hg. pose proof toy_known as Hk. rewrite Forall_forall in Hg, Hk |- *.
    intros op Hop. destruct (Hg op Hop) as [_ Hg']. exact (Hg' (Hk op Hop)).
  - split; [reflexivity..|exact relay_net_toy_ok| | | | |].
    + split; [done|by vm_compute| |done]. exists []. split; [apply OpLog_new_rep|done].
    + intros f Hf. discriminate Hf.
    + reflexivity.
    + split; [by vm_compute|]. by vm_compute.
    + intros He. vm_compute in He. discriminate He.
  - split_and!; [apply (bool_decide_unpack _); by vm_compute|apply (bool_decide_unpack _); by vm_compute|vm_compute; lia].
  - repeat constructor.
  - by vm_compute.
  - by vm_compute.
Defined.
End DaemonToy.
