(* ===== verification/SqlToy.v ===== *)
(** * A concrete SQLite node

    A shard's database with the writes of two devices, and the hypotheses of
    the theorems about the SQLite adapters discharged on it. *)

From stdpp Require Import pretty.
From S2P Require Import Prelude Ordered External Toy Http Identity Text Words Policy Sql Op RowOp Registry Store Log Hlc Durable Pull SqlDb SqlLog SqlHeads SqlRefine SqlEdges SqlRetention SqlCompaction SqlMaintain SqlTypes SqlRows SqlConverge SqlQuarantine Transport Socket Server PullServer SqlSocket DrainToy NetToy.
Import BTree.

Module SqlToy.
Export LogToy PullToy DrainToy NetToy.

#[export] Instance toy_rusqlite : Rusqlite := {|
  conversion_failure i t := "conversion of column " +:+ pretty i +:+ ": " +:+ t;
  integral_out_of_range i v := "column " +:+ pretty i +:+ " out of range: " +:+ pretty v;
  no_rows := "Query returned no rows";
  no_such_index i := "no such index: " +:+ i;
  no_such_column c := "no such column: " +:+ c;
  invalid_column_type i := "Invalid column type Null at index: " +:+ pretty i;
|}.

Lemma ran {S A} (m : sql S A) s a : (m s []).1 = Ok a → m s [] = (Ok a, ((m s []).2.1, (m s []).2.2)).
Proof. destruct (m s []) as [r [s' fs']]. by intros [= ->]. Qed.

(** ** The shard *)

Definition new_db : Db :=
  mk_db [] [] ∅ (Some (vec_to_list toy_epoch, 0%Z)) ∅ ∅ ∅ ∅ true {[COVERAGE_PRIMED_KEY := "1"]}
    [mk_device_row (DeviceId_to_hex alice_id) (Some (vec_to_list (public_key_sec1 (from_signing alice)))) 1 "2025";
     mk_device_row (DeviceId_to_hex bob_id) (Some (vec_to_list (public_key_sec1 (from_signing bob)))) 1 "2025"]
    [] ["public_key"; "device_id"; "updated_at"; "voucher_device_id"] [].
Definition after_append (n : Z) (op : SignedOp) (t p : string) (d : Db) : Db :=
  (oplog_append (mk_stamp n (1000 + n)) op t p ORIGIN_REMOTE d []).2.1.
Definition scene_db : Db := after_append 2 op_b "kv" "x" (after_append 1 op_a "kv" "x" new_db).
Definition shard (d : Db) : StoreDb := mk_sdb d [] [] ∅ [] [] [] [] ∅ [] true.

Lemma new_rep : sql_log_rep new_db [].
Proof.
  split; [constructor|constructor|reflexivity|reflexivity| |done].
  exists toy_epoch. split; [apply (bool_decide_unpack _); vm_compute; exact I|reflexivity].
Qed.
Lemma append_rep n op t p d arr :
  sql_log_rep d arr → bool_decide (storable op ∧ (len arr < i64_max)%Z ∧ n = (max_seq d + 1)%Z ∧ op ∉ arr) = true →
  (oplog_append (mk_stamp n (1000 + n)) op t p ORIGIN_REMOTE d []).1 = Ok true → sql_log_rep (after_append n op t p d) (arr ++ [op]).
Proof.
  intros Hrep (Hst & Hlen & Hn & Hni)%bool_decide_eq_true Hr%ran%quiet. eapply append_refines in Hr as [Hnew Hr]; [|done..].
  unfold arr_append in Hr, Hnew. by destruct (decide _).
Qed.
Lemma scene_rep : sql_log_rep scene_db scene.
Proof.
  apply (append_rep 2 op_b "kv" "x" _ [op_a]); [apply (append_rep 1 op_a "kv" "x" new_db []); [apply new_rep|..]|..]; vm_compute; reflexivity.
Qed.


(** ** Edges and wakes *)

Definition edge_shard : StoreDb :=
  mk_sdb new_db [] [("a", vec_to_list (op_id op_b)); ("b", vec_to_list (op_id op_a)); ("a", [Byte.x07]); ("a", vec_to_list (op_id op_a))]
    ∅ [(3%Z, "a"); (1%Z, "b")] [] [] [] ∅ [] true.
Lemma pending_edges_drained_witness :
  ∃ s', (drain_edges 4 "a" 1 edge_shard []).2 = (s', []) ∧ endpoint_edges "a" s' = [] ∧
    sd_failures s' !! ("a", [Byte.x07]) = Some (invalid_length [Byte.x07]).
Proof.
  destruct (pending_edges_drained 3 "a" 1 edge_shard) as (s' & Hd & He & Hf & _).
  - by vm_compute.
  - apply (bool_decide_unpack _). vm_compute. exact I.
  - apply (bool_decide_unpack _). vm_compute. exact I.
  - exists s'. rewrite Hd. split; [reflexivity|]. split; [exact He|].
    apply Hf; apply (bool_decide_unpack _); vm_compute; exact I.
Defined.

(** ** Retention *)

Definition kv_row_op (sk : SigningKey) (hlc : Z) : SignedOp := kv_op sk hlc (Put "x" [Byte.x01]).
Definition busy_db : Db :=
  after_append 4 (kv_row_op bob 40) "kv" "x" (after_append 3 (kv_row_op alice 30) "kv" "x" scene_db).
Definition busy : StoreDb := shard busy_db.
Definition carol_id : DeviceId := device_id (from_signing carol).

Lemma safe_floor_sound_witness :
  acknowledged pretty 2003 carol_id 1000 busy_db (mk_arrival 2 (vec_to_list (op_id op_b)) 1002) ∨
  ∃ z, z ∈ db_arrivals busy_db ∧ (2 ≤ ar_seq z)%Z ∧ (ar_arrived_at z ≤ 2003 - as_i64 1000)%Z.
Proof.
  edestruct (safe_floor_sound pretty 2003 2003 carol_id 1000 busy_db [] (mk_bounds 2 3 0 3)) as [Hack|[Hz _]].
  - apply ran. vm_compute. reflexivity.
  - apply (bool_decide_unpack (mk_arrival 2 (vec_to_list (op_id op_b)) 1002 ∈ db_arrivals busy_db)). vm_compute. exact I.
  - by vm_compute.
  - left. exact Hack.
  - right. exact Hz.
Defined.
(** Stamps that step back: the second of three arrivals is inside the horizon,
    and below the floor of the horizon. *)
Definition stepped_db : Db :=
  set_arrivals [mk_arrival 1 (vec_to_list (op_id op_a)) 100; mk_arrival 2 (vec_to_list (op_id op_b)) 5000;
                mk_arrival 3 (vec_to_list (op_id op_c)) 90] scene_db.
Lemma stamps_step_back : (horizon_relay_floor 1000 stepped_db []).1 = Ok 3%Z.
Proof. vm_compute. reflexivity. Qed.

(** Two ops of one row kept: the second of its four may go. *)
Definition keep_two : CompactionPolicy := mk_policy 2 10.
Definition busy_scan : CompactionScan := mk_compaction_scan [(op_id op_b, 2%Z)] 0 3.
Definition busy_chunks : list (list (OpId * Z)) := [[(op_id op_b, 2%Z)]].
Definition busy_compacted : StoreDb := (compact_chunks busy_chunks busy []).2.1.

Lemma busy_scanned : (compaction_candidates keep_two 3 [] 0 Applied busy []).1 = Ok busy_scan.
Proof. vm_compute. reflexivity. Qed.
Lemma busy_chunked : (compact_chunks busy_chunks busy []).1 = Ok 1.
Proof. vm_compute. reflexivity. Qed.

Lemma append_life n op t p d :
  bool_decide (op_v (op_body op) = ENVELOPE_VERSION ∧ (0 ≤ op_hlc (op_body op) < u64_modulus)%Z) = true →
  (oplog_append (mk_stamp n (1000 + n)) op t p ORIGIN_REMOTE d []).1 = Ok true →
  rtc maintain (shard new_db) (shard d) → rtc maintain (shard new_db) (shard (after_append n op t p d)).
Proof.
  intros [Hv Hh]%bool_decide_eq_true Hr%ran Hl. eapply rtc_r; [exact Hl|]. exact (mt_append (shard d) _ _ _ _ _ _ _ _ _ Hv Hh Hr).
Qed.
Lemma new_fresh : fresh (shard new_db).
Proof. done. Qed.
Lemma busy_life : rtc maintain (shard new_db) busy.
Proof.
  apply append_life; [..|apply append_life; [..|apply append_life; [..|apply append_life; [..|apply rtc_refl]]]]; vm_compute; reflexivity.
Qed.
Lemma busy_compacts c : c ∈ concat busy_chunks → c ∈ cs_candidates busy_scan.
Proof. done. Qed.
Lemma busy_scan_run : compaction_candidates keep_two 3 [] 0 Applied busy [] = (Ok busy_scan, (busy, [])).
Proof.
  pose proof (quiet _ _ _ _ _ (ran _ _ _ busy_scanned)) as Hr. pose proof (proj1 (candidates_sound _ _ _ _ _ _ _ _ Hr)) as He.
  rewrite He in Hr. exact Hr.
Qed.
Lemma busy_maintained : maintained busy.
Proof. eapply maintain_reachable; [apply new_fresh|apply busy_life]. Qed.

Lemma compaction_keeps_winners_witness :
  row_winner "kv" "kv" "x" (sd_db busy_compacted) = row_winner "kv" "kv" "x" (sd_db busy) ∧
  others_winner "kv" "kv" "x" (op_id (kv_row_op bob 40)) (sd_db busy_compacted) =
  others_winner "kv" "kv" "x" (op_id (kv_row_op bob 40)) (sd_db busy).
Proof.
  destruct (compaction_keeps_winners keep_two 3 [] 0 Applied busy_chunks busy [] busy_scan busy [] 1 busy_compacted _
    busy_scan_run (ran _ _ _ busy_chunked) busy_compacts (mn_wf _ busy_maintained)) as [_ Hk].
  destruct (Hk "kv" "kv" "x" eq_refl (mn_heads _ busy_maintained "kv" "kv" "x" eq_refl)) as (_ & Hw & _ & Ho).
  split; [exact Hw|apply Ho; cbn; lia].
Defined.
(** The four appends, then the pass. *)
Lemma compacted_life : rtc maintain (shard new_db) busy_compacted.
Proof.
  eapply rtc_r; [apply busy_life|]. eapply mt_compact; [apply busy_scan_run|apply ran, busy_chunked|apply busy_compacts].
Qed.
Lemma heads_maintained_witness :
  head_for (head_at "kv" "kv" "x" (sd_db busy_compacted)) (rows_at "kv" "kv" "x" (sd_db busy_compacted)).
Proof.
  destruct (heads_maintained (shard new_db) busy_compacted new_fresh compacted_life) as (_ & _ & Hh). by apply Hh.
Defined.
(** ** Types *)

(** Only [alice]'s cursor may be out of range. *)
Definition far_peers (peer : DeviceId) : Prop := peer = device_id (from_signing alice).
Lemma new_typed : db_typed far_peers new_db.
Proof.
  split; [constructor|done| |done|done]. exists (vec_to_list toy_epoch), 0%Z. split_and!; [done|apply length_vec_to_list|done].
Qed.
Definition saved_db : Db := (sql_save_relay_cursor bob_id (mk_cursor toy_epoch 7) scene_db []).2.1.
Lemma saved_writes : rtc (db_write far_peers) new_db saved_db.
Proof.
  eapply rtc_l; [|eapply rtc_l; [|apply rtc_once]].
  - eapply (dw_append _ _ (mk_stamp 1 1001) op_a "kv" "x" ORIGIN_REMOTE []); [reflexivity|split; by vm_compute|apply ran; vm_compute; reflexivity].
  - eapply (dw_append _ _ (mk_stamp 2 1002) op_b "kv" "x" ORIGIN_REMOTE []); [reflexivity|split; by vm_compute|apply ran; vm_compute; reflexivity].
  - eapply (dw_save _ _ bob_id (mk_cursor toy_epoch 7) []); [split; by vm_compute|apply ran; vm_compute; reflexivity].
Qed.
Lemma stored_state_typed_witness :
  (∃ st, runs sql_relay_stream_state saved_db st saved_db) ∧ ∃ c, runs (sql_load_relay_cursor bob_id) saved_db c saved_db.
Proof.
  destruct (stored_state_typed far_peers new_db saved_db new_typed saved_writes) as (_ & Hs & Hc & _). split; [exact Hs|apply Hc].
  unfold far_peers. intros Heq. vm_compute in Heq. discriminate Heq.
Defined.

(** ** Rows *)

#[export] Instance toy_schema : HostSchema := {|
  stored _ _ v := v;
  matches _ _ v w := bool_decide (v = w);
  default_of _ _ := SqlNull;
  key_order _ _ rows := rows;
  key_above _ _ _ _ := false;
  insert_violates _ _ _ _ _ := None;
  delete_violates _ _ _ _ := None;
  code_display c := match c with SQLITE_CONSTRAINT_UNIQUE => "UNIQUE constraint failed" | SQLITE_CONSTRAINT_FOREIGNKEY => "FOREIGN KEY constraint failed" | OtherCode m => m end;
  syntax_error := "syntax error";
  invalid_parameter_count _ _ := "Wrong number of parameters passed to query";
|}.
Definition row_key_t1 : list (string * string) := [("id", "t1")].
Definition titled (title : string) : ProxyDbOp :=
  mk_ProxyDbOp "threads" (key_fields row_key_t1) (Upsert [mk_Column "id" (TextVal "t1"); mk_Column "title" (TextVal title)]).
Definition dropped : ProxyDbOp := mk_ProxyDbOp "threads" (key_fields row_key_t1) RowOp.Delete.
Definition row_op (sk : SigningKey) (hlc : Z) (op : ProxyDbOp) : SignedOp * ProxyDbOp :=
  (match seal (mk_OpBody ENVELOPE_VERSION hlc (zeros 32) row_store (toy_encode op)) (from_signing sk) with
   | Ok sop => sop
   | Err _ => row_delete
   end, op).
Definition row_ops : list (SignedOp * ProxyDbOp) := [row_op alice 10 (titled "one"); row_op bob 20 dropped; row_op alice 30 (titled "two")].
Definition stamps : list ArrivalStamp := [mk_stamp 1 1001; mk_stamp 2 1002; mk_stamp 3 1003].
Definition host : RowDb := mk_row_db new_db {["threads" := mk_table ["id"; "title"] []]} true false ∅.

Lemma toy_host_table : host_table "threads" ["id"; "title"] row_key_t1 [].
Proof.
  split; try done.
  - apply (bool_decide_unpack _). vm_compute. exact I.
  - apply (bool_decide_unpack _). vm_compute. exact I.
  - intros c. cbn. set_solver.
  - intros c _. split; [done|]. intros w v. cbn. by rewrite bool_decide_eq_true.
  - intros ?%not_elem_of_nil. done.
Qed.
Lemma toy_image title : full_image ["id"; "title"] row_key_t1 [mk_Column "id" (TextVal "t1"); mk_Column "title" (TextVal title)].
Proof. split; [done|]. intros c v [= -> ->]%list_elem_of_singleton. left. Qed.
Lemma toy_row_item sk hlc op :
  (∃ title, op = titled title) ∨ op = dropped →
  decode_bytes (op_payload (op_body (row_op sk hlc op).1)) = Ok op → bool_decide (0 ≤ op_hlc (op_body (row_op sk hlc op).1) ≤ i64_max)%Z = true →
  row_item STORE_ID "threads" ["id"; "title"] row_key_t1 (row_op sk hlc op).
Proof.
  intros Hop Hd Hh%bool_decide_eq_true. split; [exact Hd|..|exact Hh|by eexists].
  - done.
  - by destruct Hop as [[title ->]| ->].
  - by destruct Hop as [[title ->]| ->].
  - destruct Hop as [[title ->]| ->]; [|done]. intros columns [= <-]. apply toy_image.
  - done.
Qed.
Lemma host_before : row_state STORE_ID "threads" ["id"; "title"] row_key_t1 [] host.
Proof. split; [constructor|]. split; [apply NoDup_nil_2|done|constructor| |done]. split; [by exists []|constructor|vm_compute; lia]. Qed.
Lemma row_lww_converges_witness :
  ∃ s1 s2, runs (admit_rows pretty ORIGIN_REMOTE [] (zip stamps row_ops)) host () s1 ∧
    runs (admit_rows pretty ORIGIN_REMOTE [] (zip stamps (reverse row_ops))) host () s2 ∧
    Forall2 same_row (keyed "threads" row_key_t1 s1) (keyed "threads" row_key_t1 s2).
Proof.
  destruct (row_lww_converges pretty STORE_ID "threads" ["id"; "title"] row_key_t1 ORIGIN_REMOTE [] host []
    (zip stamps row_ops) (zip stamps (reverse row_ops))) as (s1 & s2 & Hr1 & Hr2 & Hrow & _).
  - exact toy_host_table.
  - exact host_before.
  - symmetry. exact (reverse_Permutation row_ops).
  - apply Forall_cons_2; [|apply Forall_cons_2; [|apply Forall_cons_2; [|apply Forall_nil_2]]]; apply toy_row_item;
      ((left; by eexists) || (right; reflexivity) || (vm_compute; reflexivity)).
  - apply (bool_decide_unpack _). vm_compute. exact I.
  - intros it _. apply not_elem_of_nil.
  - exists s1, s2. exact (conj Hr1 (conj Hr2 Hrow)).
Defined.

(** ** Quarantine *)

(** [op_a] was verified before, [op_b] was logged without it, [op_c] is new. *)
Definition verified_shard : StoreDb :=
  set_verified {[vec_to_list (op_id op_a) := vec_to_list (sha256 (default [] (ok (op_to_bytes op_a))))]} (shard scene_db).
Definition classified : RemoteOpClassification :=
  default (mk_classification ∅ ∅) (ok (classify_remote_ops [op_c; op_b; op_a] verified_shard []).1).
Lemma classification_exact_witness :
  (∃ r, r ∈ db_oplog (sd_db verified_shard) ∧ or_op_id r = vec_to_list (op_id op_b) ∧ or_applied r = 1%Z) ∧
  vec_to_list (op_id op_a) ∈ rc_completed classified.
Proof.
  destruct (classification_exact [op_c; op_b; op_a] verified_shard [] classified (classify_remote_ops [op_c; op_b; op_a] verified_shard []).2.1
    (classify_remote_ops [op_c; op_b; op_a] verified_shard []).2.2) as (_ & Hd & Hc).
  - apply ran. vm_compute. reflexivity.
  - split; [|apply (bool_decide_unpack _); vm_compute; exact I].
    destruct (proj1 (Hd (vec_to_list (op_id op_b)))) as (r & envelope & Hr & Hi & Ha & _); [apply (bool_decide_unpack _); vm_compute; exact I|].
    exists r. exact (conj Hr (conj Hi Ha)).
Defined.
(** ** The socket *)

Definition sql_server : SqlitePullServerSocket := mk_sqlite_socket scene_db (from_signing bob) 1000500 (λ _, []).
Definition first_request : PullRequest :=
  mk_PullRequest PULL_VERSION (to_wire_map alice_claim) (encode_hex (zeros 32)) 0 None PULL_PAGE_LIMIT_MAX false None 1000000.
Lemma first_in_range : pull_in_range first_request.
Proof.
  split; [split; [|done]|by vm_compute|done]. apply (bool_decide_unpack _). vm_compute. exact I.
Qed.
Lemma sqlite_page_matches_witness :
  ok (build_pull_page sql_server first_request) = ok (build_pull_page toy_server first_request).
Proof.
  apply (sqlite_page_matches sql_server toy_server scene scene_rep).
  - apply append_all_rep.
  - reflexivity.
  - vm_compute. reflexivity.
  - reflexivity.
  - vm_compute. reflexivity.
  - exact first_in_range.
Defined.
Lemma sqlite_admits_trusted_witness :
  ∃ op sec1, op_from_bytes signed_request = Ok op ∧ verify_with_sec1 op (vec_to_list (n := 33) sec1) = Ok ().
Proof.
  destruct (sqlite_admits_trusted sql_server signed_request alice_id toy_request) as (op & sec1 & Hop & _ & _ & Hv & _).
  - vm_compute. reflexivity.
  - exists op, sec1. exact (conj Hop Hv).
Defined.
End SqlToy.
